(* ===== verification/_CoqProject ===== *)
-Q . S2P
Prelude.v
Text.v
Rolling.v
Boundary.v
Chunker.v
FileMode.v
Path.v
Format.v
Goodbye.v
Index.v
Chunk.v
Names.v
Url.v
Stores.v
Composition.v
LocalStore.v
Config.v
Files.v
ReadSeeker.v
Sparse.v
Protocol.v
Dedup.v
Seed.v
Assemble.v
Make.v
Archive.v
Tar.v
Catar.v
MtreeFS.v
TarFS.v
Http.v
HttpIndex.v
Pool.v
Verify.v
Pipelines.v
UntarIndex.v
EndToEnd.v
Objects.v
Sftp.v
IndexStores.v
CmdStore.v
CmdIndex.v
Commands.v
Posix.v
LocalFS.v
LocalTree.v
