(* ===== verification/Prelude.v ===== *)
(** * desync: a verified model of a content-addressed distribution tool

    desync cuts streams and directory trees into chunks at positions that depend on the content, keeps
    the chunks by checksum in stores, and puts files and trees together again from an index of chunks.
    This library models the Go code under src/ (the package desync and the commands of cmd/desync) as
    functions and step relations, and proves what makes it correct. Names of definitions are those of
    the source.

    ** How the parts work together

    A [Chunker] (Chunker, with the hash of Rolling and the test of Boundary) reads a stream and cuts it.
    [ChunkStream] (Pipelines) does so for one reader and stores the chunks from a pool of workers;
    [IndexFromFile] (Make) does so for a file with several chunkers at once. Both give an [Index]
    (Index), which lists the chunks and where they start. A catar archive (Archive, Tar, Catar) is a
    stream made from a directory tree; LocalFS, TarFS and MtreeFS are where trees come from and go to.
    Chunks live in stores (Stores: the interface; LocalStore, Objects, Sftp, Http, Protocol: the kinds),
    which the commands open by location and combine into routers, caches and groups of replicas
    (CmdStore). Extraction plans which chunks are copied from seed files (Seed), and writes the rest
    from the store (Assemble); or it reads the archive through its chunks (UntarIndex), or serves
    single reads (ReadSeeker, Sparse).

    ** The files

    Prelude: notations, tactics, the hint databases [desync] and [mach], outcomes ([outcome]: a value, an
      error, a panic or running out of fuel), machine integers.
    Text, Path, Url: what the code uses of Go's fmt, strconv, path, net/url and path/filepath.
    Rolling, Boundary, Chunker: chunker.go. [buzhash] is the closed form of the hash, [cut_point] the
      declarative position of the next cut.
    FileMode: the modes of filesystem.go.
    Format, Goodbye: const.go, format.go, reader.go, writer.go: elements, decoder, encoder, and
      the search tree of a directory's items.
    Index: index.go (reading and writing), localindex.go, consoleindex.go.
    Chunk, Names: chunk.go, nullchunk.go, coverter.go, compress.go, digest.go; types.go and the names
      of chunks in the stores.
    Stores, Composition: store.go, storerouter.go, cache.go, failover.go, swapstore.go.
    LocalStore, Verify: local.go on a file system of paths and contents; its Verify, which has workers.
    Files: bytes at offsets, and the places of chunks in a file.
    ReadSeeker, Sparse: readseeker.go; sparse-file.go.
    Protocol: protocol.go, protocolserver.go, remotessh.go.
    Dedup: dedupqueue.go, writededupqueue.go.
    Seed, Assemble: seed.go, fileseed.go, nullseed.go, selfseed.go, sequencer.go; assemble.go,
      extractstats.go, blocksize.go and the cloning of blocks.
    Make: make.go.
    Archive, Tar, Catar: archive.go, untar.go (UnTar), tar.go, and trees.
    MtreeFS, TarFS: mtreefs.go; tarfs.go.
    Http, HttpIndex: httphandler.go, httphandlerbase.go, remotehttp.go; httpindexhandler.go,
      remotehttpindex.go.
    Pool, Pipelines: copy.go, chunkstorage.go, index.go (ChunkStream), chop.go, verifyindex.go.
    UntarIndex: untar.go (UnTarIndex).
    EndToEnd: ChunkStream, an index file and AssembleFile, composed.
    Objects, Sftp, IndexStores: s3.go, gcs.go; sftp.go; s3index.go, gcsindex.go, sftpindex.go.
    Config, CmdStore, CmdIndex, Commands: cmd/desync: options.go, config.go, location.go,
      credentials.go; store.go; prune.go, cache.go, list.go, inspectchunks.go.
    Posix, LocalFS, LocalTree: localfs.go and localfs_other.go over a model of the system calls.

    ** How the code is modelled

    Integers have their width where they can wrap ([u32], [u64], [i64] of the Prelude); slices and
    strings are lists of bytes; maps are gmap, and where the code iterates over one, any order of its
    entries. A function that can fail returns an [outcome]; a nil dereference, an index out of range or
    an allocation that is too large is [Panic]. Calls that change something thread a world through; a
    store is a record of such calls ([Store]), and the classes [ReadSpec], [WriteSpec], [FlakyRead],
    [FlakyWrite], [Source], [Sink] and [IndexSpec] say what a store promises to its clients, so that the
    theorems on Copy, ChunkStream and the commands hold for every store that is shown to keep the promise.

    Concurrency is a step relation with one step for what a goroutine does between two points where
    others can interfere; the theorems quantify over all executions. The worker pools share Pool, with a
    rely-guarantee logic; Make, Dedup and UntarIndex have machines of their own. Assemble treats a segment
    as one step, which is justified by the segments writing disjoint ranges. Where a caller's context can
    be cancelled the models have that branch too: [parent] of a pool, [cut] of AssembleFile, [stop] and
    VCancelled of walks; most theorems say what a run that was not cancelled has done, as the code often
    returns nil when it was.

    Fuel: loops that are not structural take fuel, and each has a theorem that the fuel its callers give
    is enough: the chunker's loop is bounded by its buffer and a number of reads, [drain] by the stream's
    length, the decoder and UnTar by the bytes left (each element takes at least 16), Tar by the number
    of files, the binary searches by their range, the loop over invalid seeds by the number of seeds.

    ** What the theorems show

    - From end to end: a stream that was chunked is restored byte for byte, and a directory that was
      archived comes back path by path (EndToEnd, LocalTree); an archive survives being turned into
      a tar archive and back (TarFS), and its mtree listing describes it (MtreeFS).
    - Chunking: the chunker implements the declarative cuts for every way the reader splits the stream,
      the fast boundary test agrees with the division exactly under stated conditions, and
      the parallel chunkers agree with the sequential one or produce a prefix (Chunker, Boundary, Make).
    - Formats: encoders and decoders are inverse, accepted indexes are well formed, decoding ends on all
      inputs (Format, Index, Goodbye, Archive, Catar, Text).
    - Stores: each kind of store keeps the promise its clients rely on, under a network that loses
      requests; writes are atomic; pruning and verifying remove exactly what they should; routers, groups
      and caches behave as unions (LocalStore, Stores, Composition, Http, Protocol, Objects, Sftp).
    - Pipelines: all interleavings of Copy, ChunkStream, ChopFile, VerifyIndex, UnTarIndex and the
      deduplication queues end, and do what a single thread would do.
    - Extraction and reading: what AssembleFile, IndexPos and the sparse file give is the file the index
      describes, or an error, whatever the seeds and the previous contents of the target; for
      AssembleFile if it is not cancelled, and if chunks are at least two blocks long where they are cloned
      (clones_fit, with examples in Assemble of what happens otherwise).
    - The commands: the stores opened for a list of locations hold what the locations hold; prune keeps
      every referenced chunk, cache copies exactly the wanted ones, indexes are read back as written.

    ** What is assumed

    The checksum and the compressor are operations of the class [Codec]: sums have 32 bytes, and
    decompressing inverts compressing; nothing says that there are no collisions, so
    theorems that need it exhibit the collision instead. Clients of S3, Google storage, SFTP and HTTP are
    records of calls with the documented meaning (a call does what its name says or fails). The
    SipHash of names, the bitmap of a sparse file, the time, the environment and the random names of
    temporary files are parameters. Strings in URLs and lists of chunk IDs are ASCII. The process is privileged, and a tree does not change while it is read. A slice
    that Chunker.Next returns is read before the next call, as all its callers do. The
    first connection stands for all of an SFTP pool where stores are opened by location.

    ** Not modelled

    The FUSE mounts (mount-index.go, mount-sparse.go and their command), progress bars, logging and
    the wrappers of errors; the file systems of Windows and the ioctls of systems without them;
    the registration of flags, help texts, signal handling and the servers' listeners; the
    commands that only parse flags and call one library function. *)

From stdpp Require Export base list gmap numbers strings sorting.
From coqutil Require Export Byte.
From coqutil Require Export Word.LittleEndianList.
From Stdlib Require Export ZArith Lia.
Export LittleEndianList.

#[global] Open Scope Z_scope.

(** ** Bytes and byte strings *)

(** A Go [string] or [[]byte] is a list of bytes. *)
Abbreviation byte := Init.Byte.byte.
Abbreviation bytes := (list Init.Byte.byte).

#[global] Instance byte_eq_dec : EqDecision byte := Byte.byte_eq_dec.

#[global] Instance byte_countable : Countable byte.
Proof.
  refine (inj_countable byte.unsigned (fun z => Some (byte.of_Z z)) _).
  intros b. by rewrite byte.of_Z_unsigned.
Defined.

#[global] Instance byte_inhabited : Inhabited byte := populate Byte.x00.

(** String literals of the source. *)
Definition str (s : string) : bytes := String.list_byte_of_string s.

(** ** Machine integers: Go's fixed-width integers as [Z] with explicit wrap-around *)

Definition u32 (x : Z) : Z := x mod 2 ^ 32.
Definition u64 (x : Z) : Z := x mod 2 ^ 64.
(** Two's complement reading of the low 64 bits ([int64], and [int] on 64-bit targets). *)
Definition i64 (x : Z) : Z := (x + 2 ^ 63) mod 2 ^ 64 - 2 ^ 63.

Definition is_u32 (x : Z) : Prop := 0 <= x < 2 ^ 32.
Definition is_u64 (x : Z) : Prop := 0 <= x < 2 ^ 64.
Definition is_i64 (x : Z) : Prop := - 2 ^ 63 <= x < 2 ^ 63.

#[global] Instance is_u32_dec x : Decision (is_u32 x).
Proof. unfold is_u32. apply _. Defined.
#[global] Instance is_u64_dec x : Decision (is_u64 x).
Proof. unfold is_u64. apply _. Defined.
#[global] Instance is_i64_dec x : Decision (is_i64 x).
Proof. unfold is_i64. apply _. Defined.

(** The largest allocation Go's runtime accepts on linux/amd64 ([maxAlloc], 48 address
    bits): [make] of more bytes panics with "len out of range". *)
Definition maxAlloc : Z := 2 ^ 48.

Create HintDb desync.
Create HintDb mach.
Create Rewrite HintDb desync.
Create Rewrite HintDb mach.

Lemma u32_range x : is_u32 (u32 x).
Proof. unfold is_u32, u32. apply Z.mod_pos_bound. lia. Qed.
Lemma u64_range x : is_u64 (u64 x).
Proof. unfold is_u64, u64. apply Z.mod_pos_bound. lia. Qed.
Lemma i64_range x : is_i64 (i64 x).
Proof. unfold is_i64, i64. pose proof (Z.mod_pos_bound (x + 2 ^ 63) (2 ^ 64)). lia. Qed.
Lemma u32_small x : is_u32 x -> u32 x = x.
Proof. apply Z.mod_small. Qed.
Lemma u64_small x : is_u64 x -> u64 x = x.
Proof. apply Z.mod_small. Qed.
Lemma i64_small x : is_i64 x -> i64 x = x.
Proof. unfold is_i64, i64. intros. rewrite Z.mod_small; lia. Qed.
Lemma u64_i64 x : u64 (i64 x) = u64 x.
Proof.
  unfold u64, i64. rewrite Zminus_mod_idemp_l. f_equal. lia.
Qed.
Lemma i64_u64 x : i64 (u64 x) = i64 x.
Proof. unfold u64, i64. by rewrite Zplus_mod_idemp_l. Qed.

#[export] Hint Resolve u32_range u64_range i64_range : mach.
#[export] Hint Rewrite u64_i64 i64_u64 : mach.

(** Unfold the range predicates and leave the goal to [lia]. *)
Ltac mach_lia := unfold is_u32, is_u64, is_i64, maxAlloc in *; lia.

(** Case split on a decision of the goal. *)
Ltac goal_decide H :=
  match goal with |- context [@decide ?P ?d] => destruct (@decide P d) as [H|H] end.

(** ** Errors (errors.go, and the errors of the standard library the code compares with) *)

Inductive error : Type :=
| ErrEOF                                    (* io.EOF *)
| ErrUnexpectedEOF                          (* io.ErrUnexpectedEOF *)
| ErrNotExist                               (* what os.IsNotExist recognises *)
| ChunkMissing (ID : bytes)
| NoSuchObject (location : bytes)
| ChunkInvalid (ID Sum : bytes)
| InvalidFormat (Msg : string)
| Interrupted
| Wrapped (e : error) (msg : string)        (* errors.Wrap of a non-nil error *)
| Errorf (msg : string).                    (* errors.New, fmt.Errorf *)

#[global] Instance error_eq_dec : EqDecision error.
Proof. solve_decision. Defined.

(** [errors.Wrap]: a nil error stays nil. *)
Definition errors_Wrap (e : option error) (msg : string) : option error :=
  (fun e => Wrapped e msg) <$> e.

(** ** Results: a value, a Go error, or a panic *)

(** [NoFuel] marks a recursion that ran out of fuel; the theorems show it never happens. *)
Inductive outcome (A : Type) : Type :=
| Ok (a : A)
| Err (e : error)
| Panic
| NoFuel.
Arguments Ok {A} a.
Arguments Err {A} e.
Arguments Panic {A}.
Arguments NoFuel {A}.

#[global] Instance outcome_eq_dec `{EqDecision A} : EqDecision (outcome A).
Proof. solve_decision. Defined.

#[global] Instance outcome_ret : MRet outcome := @Ok.
#[global] Instance outcome_bind : MBind outcome := fun A B f m =>
  match m with Ok a => f a | Err e => Err e | Panic => Panic | NoFuel => NoFuel end.
#[global] Instance outcome_fmap : FMap outcome := fun A B f m =>
  match m with Ok a => Ok (f a) | Err e => Err e | Panic => Panic | NoFuel => NoFuel end.

Definition is_ok {A} (m : outcome A) : bool :=
  match m with Ok _ => true | _ => false end.

Lemma outcome_bind_ok {A B} (f : A -> outcome B) m b :
  m ≫= f = Ok b <-> exists a, m = Ok a /\ f a = Ok b.
Proof.
  split.
  - destruct m; simpl; intros H; try discriminate; eauto.
  - intros (a & -> & H). exact H.
Qed.

(** A parser over the unread bytes of a stream: the stream is threaded, so an error still
    tells what was consumed. *)
Definition rd (A : Type) : Type := bytes -> outcome A * bytes.

#[global] Instance rd_ret : MRet rd := fun A a s => (Ok a, s).
#[global] Instance rd_bind : MBind rd := fun A B f m s =>
  match m s with
  | (Ok a, s') => f a s'
  | (Err e, s') => (Err e, s')
  | (Panic, s') => (Panic, s')
  | (NoFuel, s') => (NoFuel, s')
  end.

Definition rd_err {A} (e : error) : rd A := fun s => (Err e, s).
Definition rd_panic {A} : rd A := fun s => (Panic, s).

Lemma rd_bind_ok {A B} (f : A -> rd B) (m : rd A) s a s' :
  m s = (Ok a, s') -> (m ≫= f) s = f a s'.
Proof. intros H. unfold mbind, rd_bind. by rewrite H. Qed.

Lemma rd_bind_inv {A B} (f : A -> rd B) (m : rd A) s b s' :
  (m ≫= f) s = (Ok b, s') ->
  exists a s1, m s = (Ok a, s1) /\ f a s1 = (Ok b, s').
Proof.
  unfold mbind, rd_bind. destruct (m s) as [[a|e| |] s1]; intros H; try discriminate; eauto.
Qed.

(** Step through a parser known to succeed on the stream at hand. *)
Ltac rd_step H := erewrite rd_bind_ok; [| solve [eapply H; eauto with desync mach]].

(** ** Little-endian 64-bit words (encoding/binary) *)

Definition PutUint64 (v : Z) : bytes := le_split 8 v.
Definition Uint64 (b : bytes) : Z := le_combine (take 8 b).

Lemma length_PutUint64 v : length (PutUint64 v) = 8%nat.
Proof. apply length_le_split. Qed.

Lemma Uint64_PutUint64 v : Uint64 (PutUint64 v) = u64 v.
Proof.
  unfold Uint64. rewrite take_ge by (rewrite length_PutUint64; lia).
  unfold PutUint64. by rewrite le_combine_split.
Qed.

Lemma Uint64_app v b : Uint64 (PutUint64 v ++ b) = u64 v.
Proof.
  unfold Uint64. rewrite take_app_le by (rewrite length_PutUint64; lia).
  apply Uint64_PutUint64.
Qed.

Lemma Uint64_range b : is_u64 (Uint64 b).
Proof.
  unfold Uint64, is_u64. pose proof (le_combine_bound (take 8 b)) as H.
  rewrite length_take in H. split; [lia|].
  eapply Z.lt_le_trans; [apply H|]. apply Z.pow_le_mono_r; lia.
Qed.

Lemma PutUint64_Uint64 b : length b = 8%nat -> PutUint64 (Uint64 b) = b.
Proof.
  intros H. unfold Uint64, PutUint64. rewrite take_ge by lia. by apply split_le_combine'.
Qed.

#[export] Hint Rewrite length_PutUint64 Uint64_PutUint64 Uint64_app : desync.
#[export] Hint Resolve Uint64_range : mach.

(** ** Generic list lemmas *)

Lemma take_drop_app {A} (l1 l2 : list A) n :
  n = length l1 -> take n (l1 ++ l2) = l1 /\ drop n (l1 ++ l2) = l2.
Proof. intros ->. split; [apply take_app_length | apply drop_app_length]. Qed.

Lemma drop_lt_cons {A} (l : list A) n x : l !! n = Some x -> drop n l = x :: drop (S n) l.
Proof. apply drop_S. Qed.

Lemma forallb_false_lookup {A} (f : A -> bool) (l : list A) :
  forallb f l = false -> exists k x, l !! k = Some x /\ f x = false.
Proof.
  induction l as [|x l IH]; [done|]. cbn. destruct (f x) eqn:Ex; [|by exists 0%nat, x].
  intros (k & y & ? & ?)%IH. by exists (S k), y.
Qed.

Lemma forallb_true_lookup {A} (f : A -> bool) (l : list A) k x :
  forallb f l = true -> l !! k = Some x -> f x = true.
Proof. rewrite forallb_forall. intros H Hk. apply H, list_elem_of_In. by eapply list_elem_of_lookup_2. Qed.

(** ** Termination of step relations *)

Lemma sn_measure {A} (R : relation A) (m : A -> nat) :
  (forall x y, R x y -> (m y < m x)%nat) -> forall x, sn R x.
Proof.
  intros Hm x. remember (m x) as k eqn:Hk. revert x Hk.
  induction (lt_wf k) as [k _ IH]. intros x ->. constructor. intros y Hy.
  eapply (IH (m y)); [by apply Hm|reflexivity].
Qed.

(** Where no infinite run exists and every state but the finished ones has a step, some run
    finishes. *)
Lemma sn_finishes {A} (R : relation A) (done_ : A -> bool) x :
  sn R x -> (forall y, rtc R x y -> done_ y = false -> exists z, R y z) ->
  exists y, rtc R x y /\ done_ y = true.
Proof.
  intros Hsn. induction Hsn as [x _ IH]. intros Hstep.
  destruct (done_ x) eqn:Ex; [by exists x|]. destruct (Hstep x) as [z Hz]; [done|done|].
  destruct (IH z Hz) as (y & Hy & Hd).
  - intros y Hy. apply Hstep. by eapply rtc_l.
  - exists y. split; [by eapply rtc_l|done].
Qed.
