(* ===== verification/Text.v ===== *)
(** * Text: numbers in text (fmt and strconv of Go's library)

    The verbs the code formats numbers with (%d, %09d, %04o, ...), strconv.Atoi, and the proof that
    reading a number back gives the number. *)

From S2P Require Import Prelude.

(** ** Digits *)

Definition digit_char (d : Z) : byte := byte.of_Z (48 + d).

Definition char_digit (base : Z) (c : byte) : option Z :=
  let d := byte.unsigned c - 48 in
  if decide (0 <= d < base) then Some d else None.

(** The digits of a number, the last one first. *)
Fixpoint rev_digits (fuel : nat) (base n : Z) : bytes :=
  match fuel with
  | O => []
  | S fuel =>
    digit_char (n mod base) :: (if decide (n / base = 0) then [] else rev_digits fuel base (n / base))
  end.

(** A non-negative number in a base of at most ten; its logarithm bounds the number of digits. *)
Definition FormatUint (base n : Z) : bytes := rev (rev_digits (S (Z.to_nat (Z.log2 n))) base n).

Fixpoint parse_rev (base : Z) (s : bytes) : option Z :=
  match s with
  | [] => Some 0
  | c :: s =>
    match char_digit base c, parse_rev base s with
    | Some d, Some n => Some (d + base * n)
    | _, _ => None
    end
  end.

Definition ParseUint (base : Z) (s : bytes) : option Z :=
  if decide (s = []) then None else parse_rev base (rev s).

(** %d, and %0wd or %0wo of a number that is not negative, padded to [w] characters. *)
Definition pad (c : byte) (w : nat) (s : bytes) : bytes := replicate (w - length s) c ++ s.
Definition zero : byte := Byte.x30.
Definition space : byte := Byte.x20.

Definition fmt_d (n : Z) : bytes := if decide (n < 0) then Byte.x2d :: FormatUint 10 (- n) else FormatUint 10 n.
Definition fmt_0d (w : nat) (n : Z) : bytes := pad zero w (FormatUint 10 n).
Definition fmt_sd (w : nat) (n : Z) : bytes := pad space w (fmt_d n).
Definition fmt_0o (w : nat) (n : Z) : bytes := pad zero w (FormatUint 8 n).

(** strconv.Atoi, to a 64-bit int. *)
Definition Atoi (s : bytes) : outcome Z :=
  let '(sign, digits) :=
    match s with
    | c :: s' => if decide (c = Byte.x2d) then (-1, s') else if decide (c = Byte.x2b) then (1, s') else (1, s)
    | [] => (1, s)
    end in
  match ParseUint 10 digits with
  | Some n => if decide (is_i64 (sign * n)) then Ok (sign * n) else Err (Errorf "value out of range")
  | None => Err (Errorf "invalid syntax")
  end.

(** ** Reading back *)

Lemma digit_char_unsigned d : 0 <= d < 10 -> byte.unsigned (digit_char d) = 48 + d.
Proof. intros Hd. unfold digit_char. rewrite byte.unsigned_of_Z. unfold byte.wrap. apply Z.mod_small. lia. Qed.

Lemma char_digit_char base d : 2 <= base <= 10 -> 0 <= d < base -> char_digit base (digit_char d) = Some d.
Proof.
  intros Hb Hd. unfold char_digit. rewrite digit_char_unsigned by lia.
  replace (48 + d - 48) with d by lia. by rewrite decide_True.
Qed.

Lemma parse_rev_digits base fuel : forall n, 2 <= base <= 10 -> 0 <= n -> Z.log2 n < Z.of_nat fuel ->
  parse_rev base (rev_digits fuel base n) = Some n.
Proof.
  induction fuel as [|fuel IH]; intros n Hb Hn Hf.
  { pose proof (Z.log2_nonneg n). lia. }
  cbn [rev_digits parse_rev]. rewrite char_digit_char by (try apply Z.mod_pos_bound; lia).
  pose proof (Z.div_mod n base) as Hdiv. goal_decide H0.
  - cbn [parse_rev]. f_equal. lia.
  - rewrite IH; [f_equal; lia|lia|apply Z.div_pos; lia|].
    assert (0 < n) by (destruct (Z.eq_dec n 0) as [->|]; [by rewrite Z.div_0_l in H0 by lia|lia]).
    assert (0 <= n / base <= n / 2) as [H1 H2].
    { split; [apply Z.div_pos; lia|]. apply Z.div_le_compat_l; lia. }
    destruct (Z.eq_dec n 1) as [->|Hn1].
    { rewrite Z.div_small in H0 by lia. done. }
    assert (1 <= Z.log2 n) by (apply (Z.log2_le_mono 2 n); lia).
    assert (Z.log2 (n / base) <= Z.log2 (n / 2)) as Hlog by by apply Z.log2_le_mono.
    change (n / 2) with (n / 2 ^ 1) in Hlog. rewrite <- Z.shiftr_div_pow2, Z.log2_shiftr in Hlog by lia. lia.
Qed.

Lemma FormatUint_ne base n : FormatUint base n <> [].
Proof.
  unfold FormatUint. cbn [rev_digits rev]. intros E. by apply app_eq_nil in E as [_ ?].
Qed.

Lemma ParseUint_FormatUint base n : 2 <= base <= 10 -> 0 <= n -> ParseUint base (FormatUint base n) = Some n.
Proof.
  intros Hb Hn. unfold ParseUint. rewrite decide_False by apply FormatUint_ne.
  unfold FormatUint. rewrite rev_involutive. apply parse_rev_digits; [done|done|].
  pose proof (Z.log2_nonneg n). lia.
Qed.

Lemma parse_rev_zeros base s n k : 2 <= base <= 10 ->
  parse_rev base s = Some n -> parse_rev base (s ++ replicate k zero) = Some n.
Proof.
  intros Hb. revert n. induction s as [|c s IH]; intros n; cbn [parse_rev app].
  - intros [= <-]. induction k as [|k IHk]; [done|]. cbn [replicate parse_rev]. rewrite IHk.
    change zero with (digit_char 0). rewrite char_digit_char by lia. f_equal. lia.
  - destruct (char_digit base c) as [d|]; [|done]. destruct (parse_rev base s) as [m|]; [|done].
    intros [= <-]. by rewrite (IH m).
Qed.

Lemma rev_replicate {A} k (x : A) : rev (replicate k x) = replicate k x.
Proof.
  induction k as [|k IH]; [done|]. cbn [replicate rev]. rewrite IH.
  by rewrite <- replicate_cons_app.
Qed.

Lemma ParseUint_pad base w n : 2 <= base <= 10 -> 0 <= n ->
  ParseUint base (pad zero w (FormatUint base n)) = Some n.
Proof.
  intros Hb Hn. pose proof (ParseUint_FormatUint base n Hb Hn) as Hp. unfold ParseUint in *.
  rewrite decide_False in Hp by apply FormatUint_ne.
  rewrite decide_False by (intros [_ E]%app_eq_nil; by apply FormatUint_ne in E).
  unfold pad. rewrite rev_app_distr, rev_replicate. by apply parse_rev_zeros.
Qed.

(** What the digits are. *)
Definition is_decimal (c : byte) : bool := (48 <=? byte.unsigned c) && (byte.unsigned c <=? 57).

Lemma FormatUint_digits base n : 2 <= base <= 10 -> 0 <= n -> Forall (fun c => is_decimal c = true) (FormatUint base n).
Proof.
  intros Hb Hn. unfold FormatUint. apply Forall_rev. generalize (S (Z.to_nat (Z.log2 n))) as fuel.
  intros fuel. revert n Hn. induction fuel as [|fuel IH]; intros n Hn; cbn [rev_digits]; [constructor|].
  pose proof (Z.mod_pos_bound n base ltac:(lia)).
  constructor; [unfold is_decimal; rewrite digit_char_unsigned by lia; lia|].
  goal_decide H0; [constructor|]. apply IH. apply Z.div_pos; lia.
Qed.

Lemma Atoi_FormatUint n : 0 <= n < 2 ^ 63 -> Atoi (FormatUint 10 n) = Ok n.
Proof.
  intros Hn. pose proof (FormatUint_digits 10 n ltac:(lia) ltac:(lia)) as Hd.
  pose proof (ParseUint_FormatUint 10 n ltac:(lia) ltac:(lia)) as Hp. unfold Atoi.
  destruct (FormatUint 10 n) as [|c s] eqn:E; [by apply FormatUint_ne in E|].
  apply Forall_cons in Hd as [Hc _].
  rewrite decide_False by (intros ->; done). rewrite decide_False by (intros ->; done).
  rewrite Hp. rewrite decide_True by mach_lia. f_equal. lia.
Qed.
