(* ===== verification/Rolling.v ===== *)
(** * Rolling: the rolling hash of chunker.go

    The buzhash over a window of [ChunkerWindowSize] bytes: the table, 32-bit rotation, the
    one-byte update the chunker's hot loop performs on a circular window, and the type [Hash]
    (NewHash, Initialize, Roll, IsBoundary, Reset). [buzhash] is the closed form of the hash
    of a window; [window_view_step] and [buzhash_roll] show that the circular update computes it. *)

From S2P Require Import Prelude.

(** ** 32-bit rotation (math/bits) *)

Definition RotateLeft32 (x k : Z) : Z :=
  let s := Z.land k 31 in Z.lor (u32 (Z.shiftl x s)) (Z.shiftr x (32 - s)).

Lemma u32_bits_high x i : is_u32 x -> 32 <= i -> Z.testbit x i = false.
Proof.
  intros H Hi. rewrite <- (u32_small x H). unfold u32. apply Z.mod_pow2_bits_high. lia.
Qed.

Lemma u32_ext x y :
  is_u32 x -> is_u32 y -> (forall i, 0 <= i < 32 -> Z.testbit x i = Z.testbit y i) -> x = y.
Proof.
  intros Hx Hy H. apply Z.bits_inj'. intros i Hi.
  destruct (decide (i < 32)); [apply H; lia|].
  by rewrite !u32_bits_high by (assumption || lia).
Qed.

Lemma is_u32_of_bits x : 0 <= x -> (forall i, 32 <= i -> Z.testbit x i = false) -> is_u32 x.
Proof.
  intros H0 H. split; [done|]. destruct (decide (x = 0)) as [->|]; [lia|].
  apply Z.log2_lt_pow2; [lia|]. destruct (decide (Z.log2 x < 32)); [done|].
  specialize (H (Z.log2 x) ltac:(lia)). rewrite Z.bit_log2 in H by lia. done.
Qed.

Lemma lxor_u32 x y : is_u32 x -> is_u32 y -> is_u32 (Z.lxor x y).
Proof.
  intros Hx Hy. apply is_u32_of_bits.
  - apply Z.lxor_nonneg. split; intros; [apply Hy | apply Hx].
  - intros i Hi. rewrite Z.lxor_spec, !u32_bits_high by (assumption || lia). done.
Qed.

Lemma RotateLeft32_u32 x k : is_u32 x -> is_u32 (RotateLeft32 x k).
Proof.
  intros Hx. unfold RotateLeft32.
  pose proof (Z.land_ones k 5 ltac:(lia)) as Hs. change (Z.ones 5) with 31 in Hs.
  pose proof (Z.mod_pos_bound k (2 ^ 5) ltac:(lia)). rewrite Hs.
  apply is_u32_of_bits.
  - apply Z.lor_nonneg. split; [apply u32_range | apply Z.shiftr_nonneg, Hx].
  - intros i Hi. rewrite Z.lor_spec, Z.shiftr_spec by lia.
    rewrite (u32_bits_high _ i (u32_range _) Hi), u32_bits_high by (assumption || lia). done.
Qed.

(** Bit [i] of the rotation is bit [i - k] (mod 32) of the argument. *)
Lemma RotateLeft32_bits x k i :
  is_u32 x -> 0 <= i < 32 -> Z.testbit (RotateLeft32 x k) i = Z.testbit x ((i - k) mod 32).
Proof.
  intros Hx Hi. unfold RotateLeft32, u32.
  pose proof (Z.land_ones k 5 ltac:(lia)) as Hs. change (Z.ones 5) with 31 in Hs.
  rewrite Hs. change (2 ^ 5) with 32. set (s := k mod 32).
  assert (0 <= s < 32) as Hb by (apply Z.mod_pos_bound; lia).
  rewrite Z.lor_spec, Z.mod_pow2_bits_low, Z.shiftl_spec, Z.shiftr_spec by lia.
  assert ((i - k) mod 32 = if decide (i < s) then i - s + 32 else i - s) as ->.
  { rewrite Zminus_mod, (Z.mod_small i) by lia. fold s. case_decide.
    - symmetry. apply (Z.mod_unique _ _ (-1)); lia.
    - apply Z.mod_small. lia. }
  case_decide.
  - rewrite (Z.testbit_neg_r _ (i - s)) by lia. simpl. f_equal. lia.
  - rewrite (u32_bits_high x (i + (32 - s))) by (assumption || lia). apply orb_false_r.
Qed.

Lemma RotateLeft32_add x j k :
  is_u32 x -> RotateLeft32 (RotateLeft32 x j) k = RotateLeft32 x (j + k).
Proof.
  intros Hx. apply u32_ext; eauto using RotateLeft32_u32. intros i Hi.
  pose proof (Z.mod_pos_bound (i - k) 32 ltac:(lia)).
  rewrite !RotateLeft32_bits by (eauto using RotateLeft32_u32). f_equal.
  rewrite Zminus_mod_idemp_l. f_equal. lia.
Qed.

Lemma RotateLeft32_lxor x y k :
  is_u32 x -> is_u32 y ->
  RotateLeft32 (Z.lxor x y) k = Z.lxor (RotateLeft32 x k) (RotateLeft32 y k).
Proof.
  intros Hx Hy. apply u32_ext; eauto using RotateLeft32_u32, lxor_u32. intros i Hi.
  rewrite Z.lxor_spec, !RotateLeft32_bits, Z.lxor_spec by eauto using lxor_u32. done.
Qed.

Lemma RotateLeft32_0 x : is_u32 x -> RotateLeft32 x 0 = x.
Proof.
  intros Hx. apply u32_ext; eauto using RotateLeft32_u32. intros i Hi.
  rewrite RotateLeft32_bits, Z.sub_0_r, Z.mod_small by done. done.
Qed.

(** ** The table *)

(** ChunkerWindowSize is the number of bytes in the rolling hash window *)
Definition ChunkerWindowSize : Z := 48.
Definition WindowSize : nat := 48.

Definition hashTable : list Z :=
  [0x458be752; 0xc10748cc; 0xfbbcdbb8; 0x6ded5b68;
   0xb10a82b5; 0x20d75648; 0xdfc5665f; 0xa8428801;
   0x7ebf5191; 0x841135c7; 0x65cc53b3; 0x280a597c;
   0x16f60255; 0xc78cbc3e; 0x294415f5; 0xb938d494;
   0xec85c4e6; 0xb7d33edc; 0xe549b544; 0xfdeda5aa;
   0x882bf287; 0x3116737c; 0x05569956; 0xe8cc1f68;
   0x0806ac5e; 0x22a14443; 0x15297e10; 0x50d090e7;
   0x4ba60f6f; 0xefd9f1a7; 0x5c5c885c; 0x82482f93;
   0x9bfd7c64; 0x0b3e7276; 0xf2688e77; 0x8fad8abc;
   0xb0509568; 0xf1ada29f; 0xa53efdfe; 0xcb2b1d00;
   0xf2a9e986; 0x6463432b; 0x95094051; 0x5a223ad2;
   0x9be8401b; 0x61e579cb; 0x1a556a14; 0x5840fdc2;
   0x9261ddf6; 0xcde002bb; 0x52432bb0; 0xbf17373e;
   0x7b7c222f; 0x2955ed16; 0x9f10ca59; 0xe840c4c9;
   0xccabd806; 0x14543f34; 0x1462417a; 0x0d4a1f9c;
   0x087ed925; 0xd7f8f24c; 0x7338c425; 0xcf86c8f5;
   0xb19165cd; 0x9891c393; 0x325384ac; 0x0308459d;
   0x86141d7e; 0xc922116a; 0xe2ffa6b6; 0x53f52aed;
   0x2cd86197; 0xf5b9f498; 0xbf319c8f; 0xe0411fae;
   0x977eb18c; 0xd8770976; 0x9833466a; 0xc674df7f;
   0x8c297d45; 0x8ca48d26; 0xc49ed8e2; 0x7344f874;
   0x556f79c7; 0x6b25eaed; 0xa03e2b42; 0xf68f66a4;
   0x8e8b09a2; 0xf2e0e62a; 0x0d3a9806; 0x9729e493;
   0x8c72b0fc; 0x160b94f6; 0x450e4d3d; 0x7a320e85;
   0xbef8f0e1; 0x21d73653; 0x4e3d977a; 0x1e7b3929;
   0x1cc6c719; 0xbe478d53; 0x8d752809; 0xe6d8c2c6;
   0x275f0892; 0xc8acc273; 0x4cc21580; 0xecc4a617;
   0xf5f7be70; 0xe795248a; 0x375a2fe9; 0x425570b6;
   0x8898dcf8; 0xdc2d97c4; 0x0106114b; 0x364dc22f;
   0x1e0cad1f; 0xbe63803c; 0x5f69fac2; 0x4d5afa6f;
   0x1bc0dfb5; 0xfb273589; 0x0ea47f7b; 0x3c1c2b50;
   0x21b2a932; 0x6b1223fd; 0x2fe706a8; 0xf9bd6ce2;
   0xa268e64e; 0xe987f486; 0x3eacf563; 0x1ca2018c;
   0x65e18228; 0x2207360a; 0x57cf1715; 0x34c37d2b;
   0x1f8f3cde; 0x93b657cf; 0x31a019fd; 0xe69eb729;
   0x8bca7b9b; 0x4c9d5bed; 0x277ebeaf; 0xe0d8f8ae;
   0xd150821c; 0x31381871; 0xafc3f1b0; 0x927db328;
   0xe95effac; 0x305a47bd; 0x426ba35b; 0x1233af3f;
   0x686a5b83; 0x50e072e5; 0xd9d3bb2a; 0x8befc475;
   0x487f0de6; 0xc88dff89; 0xbd664d5e; 0x971b5d18;
   0x63b14847; 0xd7d3c1ce; 0x7f583cf3; 0x72cbcb09;
   0xc0d0a81c; 0x7fa3429b; 0xe9158a1b; 0x225ea19a;
   0xd8ca9ea3; 0xc763b282; 0xbb0c6341; 0x020b8293;
   0xd4cd299d; 0x58cfa7f8; 0x91b4ee53; 0x37e4d140;
   0x95ec764c; 0x30f76b06; 0x5ee68d24; 0x679c8661;
   0xa41979c2; 0xf2b61284; 0x4fac1475; 0x0adb49f9;
   0x19727a23; 0x15a7e374; 0xc43a18d5; 0x3fb1aa73;
   0x342fc615; 0x924c0793; 0xbee2d7f0; 0x8a279de9;
   0x4aa2d70c; 0xe24dd37f; 0xbe862c0b; 0x177c22c2;
   0x5388e5ee; 0xcd8a7510; 0xf901b4fd; 0xdbc13dbc;
   0x6c0bae5b; 0x64efe8c7; 0x48b02079; 0x80331a49;
   0xca3d8ae6; 0xf3546190; 0xfed7108b; 0xc49b941b;
   0x32baf4a9; 0xeb833a4a; 0x88a3f1a5; 0x3a91ce0a;
   0x3cc27da1; 0x7112e684; 0x4a3096b1; 0x3794574c;
   0xa3c8b6f3; 0x1d213941; 0x6e0a2e00; 0x233479f1;
   0x0f4cd82f; 0x6093edd2; 0x5d7d209e; 0x464fe319;
   0xd4dcac9e; 0x0db845cb; 0xfb5e4bc3; 0xe0256ce1;
   0x09fb4ed1; 0x0914be1e; 0xa5bdb2c3; 0xc6eb57bb;
   0x30320350; 0x3f397e91; 0xa67791bc; 0x86bc0e2c;
   0xefa0a7e2; 0xe9ff7543; 0xe733612c; 0xd185897b;
   0x329e5388; 0x91dd236b; 0x2ecb0d93; 0xf4d82a3d;
   0x35b5c03f; 0xe4e606f0; 0x05b21843; 0x37b45964;
   0x5eff22f4; 0x6027f4cc; 0x77178b3c; 0xae507131;
   0x7bf7cabc; 0xf9c18d66; 0x593ade65; 0xd95ddf11].

(** [hashTable[b]]: an array of 256 entries indexed by a byte, so never out of range. *)
Definition hashTable_at (b : byte) : Z := nth (Z.to_nat (byte.unsigned b)) hashTable 0.

(** The table the package's [init] fills: every entry pre-rotated by the window size. *)
Definition hashTableRotated : list Z :=
  map (fun x => RotateLeft32 x ChunkerWindowSize) hashTable.
Definition hashTableRotated_at (b : byte) : Z :=
  nth (Z.to_nat (byte.unsigned b)) hashTableRotated 0.

Lemma hashTable_u32 b : is_u32 (hashTable_at b).
Proof.
  assert (Forall is_u32 hashTable) as H.
  { apply (bool_decide_unpack _). vm_compute. exact I. }
  unfold hashTable_at. apply (proj1 (List.Forall_forall _ _) H), nth_In.
  pose proof (byte.unsigned_range b). vm_compute (length hashTable). lia.
Qed.

Lemma hashTableRotated_spec b :
  hashTableRotated_at b = RotateLeft32 (hashTable_at b) ChunkerWindowSize.
Proof.
  unfold hashTableRotated_at, hashTableRotated, hashTable_at.
  exact (map_nth (fun x => RotateLeft32 x ChunkerWindowSize) hashTable 0 _).
Qed.

#[export] Hint Resolve hashTable_u32 lxor_u32 RotateLeft32_u32 : mach.

(** ** The closed form of the hash of a window *)

Fixpoint buzhash (w : bytes) : Z :=
  match w with
  | [] => 0
  | c :: w' => Z.lxor (RotateLeft32 (hashTable_at c) (Z.of_nat (length w'))) (buzhash w')
  end.

Lemma buzhash_u32 w : is_u32 (buzhash w).
Proof. induction w; simpl; [unfold is_u32; lia | eauto with mach]. Qed.
#[export] Hint Resolve buzhash_u32 : mach.

Lemma buzhash_snoc w b :
  buzhash (w ++ [b]) = Z.lxor (RotateLeft32 (buzhash w) 1) (hashTable_at b).
Proof.
  induction w as [|c w IH]; simpl.
  - by rewrite RotateLeft32_0, Z.lxor_0_r by eauto with mach.
  - rewrite IH, RotateLeft32_lxor, RotateLeft32_add, Z.lxor_assoc by eauto with mach.
    f_equal. f_equal. rewrite length_app. simpl. lia.
Qed.

(** One update of the hash: the byte [out] leaves the window, [inb] enters it. *)
Lemma buzhash_roll out w inb :
  Z.lxor (Z.lxor (RotateLeft32 (buzhash (out :: w)) 1)
            (RotateLeft32 (hashTable_at out) (Z.of_nat (S (length w))))) (hashTable_at inb)
  = buzhash (w ++ [inb]).
Proof.
  rewrite buzhash_snoc. simpl. rewrite RotateLeft32_lxor, RotateLeft32_add by eauto with mach.
  replace (Z.of_nat (length w) + 1) with (Z.of_nat (S (length w))) by lia.
  f_equal. rewrite (Z.lxor_comm _ (RotateLeft32 (buzhash w) 1)), Z.lxor_assoc.
  by rewrite Z.lxor_nilpotent, Z.lxor_0_r.
Qed.

(** The initialisation loop [for i, b := range window { v ^= RotateLeft32(T[b], size-i-1) }]. *)
Fixpoint init_loop (size i : Z) (v : Z) (w : bytes) : Z :=
  match w with
  | [] => v
  | b :: w' =>
    init_loop size (i + 1) (Z.lxor v (RotateLeft32 (hashTable_at b) (size - i - 1))) w'
  end.

Lemma init_loop_spec size i v w :
  Z.of_nat (length w) = size - i -> init_loop size i v w = Z.lxor v (buzhash w).
Proof.
  revert i v. induction w as [|b w IH]; intros i v Hl; simpl in *.
  - by rewrite Z.lxor_0_r.
  - rewrite IH by lia. rewrite Z.lxor_assoc. do 3 f_equal. lia.
Qed.

(** ** Circular windows: [win] with write position [i] holds the bytes [window_view win i] *)

Definition window_view (win : bytes) (i : nat) : bytes := drop i win ++ take i win.

Lemma window_view_0 win : window_view win 0 = win.
Proof. unfold window_view. by rewrite drop_0, take_0, app_nil_r. Qed.

Lemma window_view_step win i out inb :
  win !! i = Some out ->
  exists w, window_view win i = out :: w /\ S (length w) = length win /\
    window_view (<[i := inb]> win) (if decide (S i < length win)%nat then S i else 0%nat)
    = w ++ [inb].
Proof.
  intros Hi. pose proof (lookup_lt_Some _ _ _ Hi) as Hlt. unfold window_view.
  exists (drop (S i) win ++ take i win). split; [|split].
  - by rewrite (drop_lt_cons _ _ _ Hi).
  - rewrite length_app, length_drop, length_take. lia.
  - assert (take (S i) (<[i:=inb]> win) = take i win ++ [inb]) as Ht.
    { rewrite (take_S_r _ _ inb) by (by apply list_lookup_insert_eq).
      rewrite take_insert_ge by lia. done. }
    case_decide as Hd.
    + rewrite Ht, drop_insert_lt by lia. by rewrite <- app_assoc.
    + assert (length win = S i) as Hl by lia.
      rewrite drop_0, take_0, app_nil_r, drop_ge by lia. simpl. rewrite <- Ht.
      symmetry. apply take_ge. rewrite length_insert. lia.
Qed.

(** ** The exported type Hash *)

Module Hash.

Record Hash := mkHash {
  value : Z;
  window : bytes;
  size : nat;
  idx : nat;
  discriminator : Z
}.

(** NewHash *)
Definition NewHash (size : nat) (discriminator : Z) : Hash :=
  mkHash 0 (replicate size Byte.x00) size 0 discriminator.

(** Roll: panics on an empty window, otherwise replaces the oldest byte. *)
Definition Roll (h : Hash) (b : byte) : outcome Hash :=
  match window h !! idx h with
  | None => Panic
  | Some ob =>
    let window' := <[idx h := b]> (window h) in
    if decide (size h = 0%nat) then Panic
    else
      Ok (mkHash
            (Z.lxor (Z.lxor (RotateLeft32 (value h) 1)
                       (RotateLeft32 (hashTable_at ob) (Z.of_nat (length window'))))
               (hashTable_at b))
            window' (size h) ((idx h + 1) `mod` size h)%nat (discriminator h))
  end.

(** Initialize: fold the bytes into the value and copy them to the window. *)
Definition Initialize (h : Hash) (b : bytes) : Hash :=
  mkHash (init_loop (Z.of_nat (size h)) 0 (value h) b)
    (take (length (window h)) b ++ drop (length b) (window h))
    (size h) (idx h) (discriminator h).

(** IsBoundary: the modulus by zero panics. *)
Definition IsBoundary (h : Hash) : outcome bool :=
  if decide (discriminator h = 0) then Panic
  else Ok (bool_decide (value h mod discriminator h = u32 (discriminator h - 1))).

(** Reset: the window keeps its bytes. *)
Definition Reset (h : Hash) : Hash :=
  mkHash 0 (window h) (size h) 0 (discriminator h).

Fixpoint roll_all (h : Hash) (bs : bytes) : outcome Hash :=
  match bs with
  | [] => Ok h
  | b :: bs' => h' ← Roll h b; roll_all h' bs'
  end.

(** The hash in [h] is the closed form of the [size] bytes its window holds. *)
Definition tracks (h : Hash) (w : bytes) : Prop :=
  length w = size h /\ length (window h) = size h /\ (idx h < size h)%nat /\
  window_view (window h) (idx h) = w /\ value h = buzhash w.

Lemma Initialize_tracks n d w :
  length w = n -> (0 < n)%nat -> tracks (Initialize (NewHash n d) w) w.
Proof.
  intros Hl Hn. unfold tracks, Initialize, NewHash; simpl.
  assert (take (length (replicate n Byte.x00)) w ++ drop (length w) (replicate n Byte.x00) = w)
    as ->.
  { rewrite length_replicate, take_ge, drop_ge by (rewrite ?length_replicate; lia).
    apply app_nil_r. }
  rewrite window_view_0. rewrite init_loop_spec by lia. repeat split; lia || done.
Qed.

Lemma Roll_tracks h c w b :
  tracks h (c :: w) -> exists h', Roll h b = Ok h' /\ tracks h' (w ++ [b]) /\ size h' = size h.
Proof.
  intros (Hl & Hw & Hi & Hv & Hval). unfold Roll.
  destruct (lookup_lt_is_Some_2 (window h) (idx h)) as [ob Hob]; [lia|]. rewrite Hob.
  destruct (window_view_step _ _ _ b Hob) as (w' & Hv' & Hlw & Hstep).
  rewrite Hv in Hv'. injection Hv' as -> <-.
  rewrite decide_False by lia. eexists. split; [done|]. split; [|done].
  unfold tracks; simpl. rewrite length_insert, length_app. simpl in *. repeat split.
  - lia.
  - lia.
  - apply Nat.mod_upper_bound. lia.
  - rewrite <- Hstep. f_equal. case_decide.
    + rewrite Nat.mod_small; lia.
    + replace (idx h + 1)%nat with (size h) by lia. apply Nat.Div0.mod_same.
  - rewrite Hval, Hw, <- Hl. apply (buzhash_roll ob w b).
Qed.

Lemma roll_all_tracks bs h w :
  tracks h w ->
  exists h', roll_all h bs = Ok h' /\ tracks h' (drop (length bs) (w ++ bs)).
Proof.
  revert h w. induction bs as [|b bs IH]; intros h w Ht; simpl.
  - exists h. by rewrite app_nil_r, drop_0.
  - destruct w as [|c w]; [destruct Ht as (? & ? & ? & ?); simpl in *; lia|].
    destruct (Roll_tracks h c w b Ht) as (h1 & -> & Ht1 & _). simpl.
    destruct (IH h1 _ Ht1) as (h' & -> & Ht'). exists h'. split; [done|].
    by rewrite <- app_assoc in Ht'.
Qed.

End Hash.

(** The exported rolling hash: after Initialize with a full window and any number of
    further bytes, the value is the closed-form hash of the last [size] bytes, whatever was
    rolled out of the window. *)
Theorem hash_of_last_bytes (w bs : bytes) (d : Z) :
  w <> [] ->
  exists h, Hash.roll_all (Hash.Initialize (Hash.NewHash (length w) d) w) bs = Ok h /\
    Hash.value h = buzhash (drop (length bs) (w ++ bs)) /\
    window_view (Hash.window h) (Hash.idx h) = drop (length bs) (w ++ bs).
Proof.
  intros Hw. assert (0 < length w)%nat as Hl by (destruct w; [done|simpl; lia]).
  destruct (Hash.roll_all_tracks bs _ w (Hash.Initialize_tracks _ d w eq_refl Hl))
    as (h & Hr & _ & _ & _ & Hv & Hval).
  by exists h.
Qed.

Lemma hash_of_last_bytes_witness :
  exists h, Hash.roll_all (Hash.Initialize (Hash.NewHash 3 10) (str "abc")) (str "defgh") = Ok h
    /\ Hash.value h = buzhash (str "fgh").
Proof.
  destruct (hash_of_last_bytes (str "abc") (str "defgh") 10) as (h & Hr & Hv & _); [done|].
  exists h. split; [exact Hr|]. rewrite Hv. reflexivity.
Defined.
