(* ===== verification/Boundary.v ===== *)
(** * Boundary: the boundary test of chunker.go

    [discriminatorFromAvg] (IEEE double arithmetic, with the Standard Library's executable
    [SpecFloat]), [modInverse32], the constants NewChunker precomputes for Lemire's
    divisibility test, and the test itself. The chunker's comment says the fast test is
    equivalent to [hValue % d == d-1]; [fast_boundary_spec] states exactly when it is. *)

From Stdlib Require Import Floats.SpecFloat Znumtheory.
From S2P Require Import Prelude.

(** ** The discriminator *)

(** [float64(x)] for an unsigned integer. *)
Definition float64_of_Z (x : Z) : spec_float := binary_normalize 53 1024 x 0 false.

(** The two constants as doubles: 1.42888852e-7 (negated) and 1.33237515. *)
Definition f_slope : spec_float := S754_finite true 5398188203684170 (-75).
Definition f_base : spec_float := S754_finite false 6000484229057709 (-52).

(** [uint32(f)]: truncation toward zero. Out of range the Go language leaves the result to the
    implementation; on amd64 the compiler converts to a signed 64-bit integer (2^63 when that
    overflows too) and keeps the low 32 bits. *)
Definition uint32_of_float (f : spec_float) : Z :=
  match f with
  | S754_zero _ => 0
  | S754_infinity _ | S754_nan => u32 (2 ^ 63)
  | S754_finite s m e =>
    let a := if decide (0 <= e) then Z.pos m * 2 ^ e else Z.pos m / 2 ^ (- e) in
    if decide (a < 2 ^ 63) then u32 (if s then - a else a) else u32 (2 ^ 63)
  end.

Definition discriminatorFromAvg (avg : Z) : Z :=
  let a := float64_of_Z avg in
  uint32_of_float
    (SFdiv 53 1024 a (SFadd 53 1024 (SFmul 53 1024 f_slope a) f_base)).

(** ** The modular inverse *)

(** One Newton step [x *= 2 - d*x] in 32-bit arithmetic. *)
Definition newton32 (d x : Z) : Z := u32 (x * u32 (2 - u32 (d * x))).

Definition modInverse32 (d : Z) : Z :=
  let x := d in
  let x := newton32 d x in
  let x := newton32 d x in
  let x := newton32 d x in
  let x := newton32 d x in
  let x := newton32 d x in
  x.

Lemma u32_divide k x : 0 <= k <= 32 -> (2 ^ k | x - u32 x).
Proof.
  intros Hk. unfold u32. rewrite Z.mod_eq by lia.
  replace (x - (x - 2 ^ 32 * (x / 2 ^ 32))) with (2 ^ 32 * (x / 2 ^ 32)) by lia.
  apply Z.divide_mul_l. exists (2 ^ (32 - k)). rewrite <- Z.pow_add_r by lia. f_equal. lia.
Qed.

Lemma divide_le_pow2 j k x : 0 <= j <= k -> (2 ^ k | x) -> (2 ^ j | x).
Proof.
  intros Hj H. eapply Z.divide_trans; [|exact H].
  exists (2 ^ (k - j)). rewrite <- Z.pow_add_r by lia. f_equal. lia.
Qed.

Lemma newton32_correct d x k :
  0 <= k -> (2 ^ k | 1 - d * x) -> (2 ^ Z.min (2 * k) 32 | 1 - d * newton32 d x).
Proof.
  intros Hk [q Hq]. set (j := Z.min (2 * k) 32). unfold newton32.
  set (y := u32 (d * x)). set (z := u32 (2 - y)). set (w := u32 (x * z)).
  pose proof (u32_divide j (d * x) ltac:(lia)) as H1. fold y in H1.
  pose proof (u32_divide j (2 - y) ltac:(lia)) as H2. fold z in H2.
  pose proof (u32_divide j (x * z) ltac:(lia)) as H3. fold w in H3.
  assert ((2 ^ j | (1 - d * x) * (1 - d * x))) as H4.
  { rewrite Hq. apply (divide_le_pow2 j (2 * k)); [lia|].
    exists (q * q). replace (2 * k) with (k + k) by lia. rewrite Z.pow_add_r by lia. ring. }
  replace (1 - d * w) with
    ((1 - d * x) * (1 - d * x) + d * (x * z - w) + d * x * (2 - y - z) - d * x * (d * x - y))
    by ring.
  apply Z.divide_sub_r; [apply Z.divide_add_r; [apply Z.divide_add_r; [done|]|]|];
    by apply Z.divide_mul_r.
Qed.

Lemma odd_square_mod8 d : d mod 2 = 1 -> (2 ^ 3 | 1 - d * d).
Proof.
  intros H. pose proof (Z.div_mod d 2 ltac:(lia)) as Hd. rewrite H in Hd.
  set (k := d / 2) in Hd. assert (exists t, k * (k + 1) = 2 * t) as [t Ht].
  { destruct (Z.Even_or_Odd k) as [[m ->]|[m ->]].
    - exists (m * (2 * m + 1)). ring.
    - exists ((2 * m + 1) * (m + 1)). ring. }
  exists (- t). rewrite Hd. transitivity (- (4 * (k * (k + 1)))); [ring|]. rewrite Ht. ring.
Qed.

Lemma modInverse32_divide d : d mod 2 = 1 -> (2 ^ 32 | 1 - d * modInverse32 d).
Proof.
  intros H. unfold modInverse32. cbv zeta.
  pose proof (odd_square_mod8 d H) as H0.
  apply newton32_correct in H0; [|lia]. simpl Z.min in H0.
  apply newton32_correct in H0; [|lia]. simpl Z.min in H0.
  apply newton32_correct in H0; [|lia]. simpl Z.min in H0.
  apply newton32_correct in H0; [|lia]. simpl Z.min in H0.
  apply newton32_correct in H0; [|lia]. simpl Z.min in H0. exact H0.
Qed.

Lemma modInverse32_correct d : d mod 2 = 1 -> u32 (d * modInverse32 d) = 1.
Proof.
  intros H. destruct (modInverse32_divide d H) as [q Hq]. unfold u32.
  replace (d * modInverse32 d) with (1 + (- q) * 2 ^ 32) by lia.
  rewrite Z_mod_plus_full. reflexivity.
Qed.

Lemma modInverse32_u32 d : is_u32 (modInverse32 d).
Proof. unfold modInverse32. apply u32_range. Qed.

(** ** The constants NewChunker precomputes *)

Record BoundaryTest := mkBoundaryTest {
  hDiscriminator : Z;
  hInverseOdd : Z;    (* modular inverse of odd part of hDiscriminator *)
  hThreshOdd : Z;     (* ceil(2^32 / odd part of hDiscriminator), as a uint32 *)
  hDiscMinus1 : Z;    (* hDiscriminator - 1 *)
  hTrailShift : Z;    (* number of trailing zeros in hDiscriminator *)
  hTrailMask : Z      (* (1 << hTrailShift) - 1 *)
}.

(** bits.TrailingZeros32 *)
Fixpoint pos_ctz (p : positive) : Z :=
  match p with xO q => 1 + pos_ctz q | _ => 0 end.

Definition TrailingZeros32 (x : Z) : Z :=
  match x with Z.pos p => pos_ctz p | _ => 32 end.

Lemma pos_ctz_nonneg p : 0 <= pos_ctz p.
Proof. induction p; simpl; lia. Qed.

Lemma pos_ctz_spec p :
  exists k, Z.pos p = k * 2 ^ pos_ctz p /\ k mod 2 = 1.
Proof.
  induction p as [p _|p (k & Hk & Hodd)|]; simpl.
  - exists (Z.pos p~1). split; [lia|]. rewrite Pos2Z.inj_xI, Z.add_comm, Z.mul_comm.
    apply Z_mod_plus_full.
  - exists k. split; [|done]. rewrite Pos2Z.inj_xO, Hk.
    rewrite Z.pow_add_r by (pose proof (pos_ctz_nonneg p); lia). ring.
  - by exists 1.
Qed.

Lemma TrailingZeros32_spec x :
  0 < x < 2 ^ 32 ->
  let s := TrailingZeros32 x in
  0 <= s < 32 /\ x = Z.shiftr x s * 2 ^ s /\ Z.shiftr x s mod 2 = 1.
Proof.
  intros Hx s. destruct x as [|p|p]; [lia| |lia]. unfold TrailingZeros32 in s. subst s.
  pose proof (pos_ctz_nonneg p) as H0. destruct (pos_ctz_spec p) as (k & Hk & Hodd).
  assert (0 < 2 ^ pos_ctz p) by (apply Z.pow_pos_nonneg; lia).
  assert (Z.shiftr (Z.pos p) (pos_ctz p) = k) as Hs.
  { rewrite Z.shiftr_div_pow2, Hk by lia. apply Z.div_mul. lia. }
  rewrite Hs. repeat split; [lia| |exact Hk|exact Hodd].
  apply (Z.pow_lt_mono_r_iff 2); [lia..|]. assert (0 < k) by nia. nia.
Qed.

(** The second half of NewChunker; a zero discriminator divides by zero. *)
Definition precompute (disc : Z) : outcome BoundaryTest :=
  let trailShift := TrailingZeros32 disc in
  let oddPart := Z.shiftr disc trailShift in
  let inverseOdd := modInverse32 oddPart in
  if decide (oddPart = 0) then Panic
  else
    let threshOdd := u32 (u64 (u64 (2 ^ 32 + oddPart) - 1) / oddPart) in
    Ok {| hDiscriminator := disc;
          hInverseOdd := inverseOdd;
          hThreshOdd := threshOdd;
          hDiscMinus1 := u32 (disc - 1);
          hTrailShift := trailShift;
          hTrailMask := u32 (u32 (Z.shiftl 1 trailShift) - 1) |}.

(** The test in the hot loop of Next. *)
Definition fast_boundary (t : BoundaryTest) (hValue : Z) : bool :=
  let adjusted := u32 (hValue - hDiscMinus1 t) in
  bool_decide (Z.land adjusted (hTrailMask t) = 0) &&
  bool_decide (u32 (Z.shiftr adjusted (hTrailShift t) * hInverseOdd t) < hThreshOdd t).

(** ** The divisibility test *)

Section divisibility.

Context (odd inv : Z).
Hypothesis Hodd : 1 < odd < 2 ^ 32.
Hypothesis Hinv : u32 (odd * inv) = 1.

Lemma ceil_bound y : 0 <= y -> y < u32 ((2 ^ 32 + odd - 1) / odd) <-> y * odd < 2 ^ 32.
Proof.
  intros Hy. rewrite u32_small.
  2:{ split; [apply Z.div_pos; lia|]. apply Z.div_lt_upper_bound; nia. }
  pose proof (Z.div_mod (2 ^ 32 + odd - 1) odd ltac:(lia)) as Hd.
  pose proof (Z.mod_pos_bound (2 ^ 32 + odd - 1) odd ltac:(lia)).
  set (q := (2 ^ 32 + odd - 1) / odd) in *. split; intros; nia.
Qed.

(** Multiplying by the inverse maps the multiples of [odd], and nothing else, below the
    threshold. *)
Lemma divisible_fast x :
  is_u32 x -> u32 (x * inv) < u32 ((2 ^ 32 + odd - 1) / odd) <-> (odd | x).
Proof.
  intros Hx. rewrite ceil_bound by apply u32_range.
  assert (u32 (u32 (x * inv) * odd) = x) as Hback.
  { unfold u32. rewrite Zmult_mod_idemp_l. rewrite <- Z.mul_assoc, (Z.mul_comm inv odd).
    rewrite Zmult_mod. unfold u32 in Hinv. rewrite Hinv.
    rewrite Z.mul_1_r, Zmod_mod. by apply Z.mod_small. }
  pose proof (u32_range (x * inv)) as Hr. split.
  - intros Hlt. exists (u32 (x * inv)). rewrite <- Hback at 1.
    apply u32_small. unfold is_u32 in *. nia.
  - intros [k ->]. assert (u32 (k * odd * inv) = k) as ->.
    { unfold u32. rewrite <- Z.mul_assoc, Zmult_mod. unfold u32 in Hinv. rewrite Hinv.
      rewrite Z.mul_1_r, Zmod_mod. apply Z.mod_small. unfold is_u32 in Hx. nia. }
    apply Hx.
Qed.

End divisibility.

(** [precompute] succeeds for every non-zero 32-bit discriminator, and gives the odd part,
    its inverse and the rounded-up quotient. *)
Lemma precompute_spec d :
  0 < d < 2 ^ 32 ->
  let s := TrailingZeros32 d in
  let odd := Z.shiftr d s in
  d = odd * 2 ^ s /\ 0 <= s < 32 /\ 0 < odd < 2 ^ 32 /\
  u32 (odd * modInverse32 odd) = 1 /\
  precompute d = Ok {| hDiscriminator := d; hInverseOdd := modInverse32 odd;
                       hThreshOdd := u32 ((2 ^ 32 + odd - 1) / odd);
                       hDiscMinus1 := d - 1; hTrailShift := s; hTrailMask := 2 ^ s - 1 |}.
Proof.
  intros Hd s odd. destruct (TrailingZeros32_spec d Hd) as (Hs & Hfac & Hodd).
  fold s in Hs, Hfac, Hodd. fold odd in Hfac, Hodd.
  assert (0 < 2 ^ s < 2 ^ 32) as Hp.
  { split; [apply Z.pow_pos_nonneg; lia | apply Z.pow_lt_mono_r; lia]. }
  assert (0 < odd < 2 ^ 32) as Ho by nia.
  split; [done|]. split; [lia|]. split; [lia|]. split; [by apply modInverse32_correct|].
  unfold precompute. fold s. fold odd. rewrite decide_False by lia.
  do 2 f_equal.
  - rewrite (u64_small (2 ^ 32 + odd)) by mach_lia.
    by rewrite u64_small by mach_lia.
  - apply u32_small. mach_lia.
  - rewrite Z.shiftl_1_l, (u32_small (2 ^ s)) by mach_lia. apply u32_small. mach_lia.
Qed.

(** The odd part of [d] is 1 exactly when [d] is a power of two. *)
Definition power_of_two (d : Z) : bool := bool_decide (d = 2 ^ TrailingZeros32 d).

Lemma divide_split a odd s :
  0 <= s -> 0 < odd -> a mod 2 ^ s = 0 /\ (odd | a / 2 ^ s) <-> (odd * 2 ^ s | a).
Proof.
  intros Hs Ho. assert (0 < 2 ^ s) by (apply Z.pow_pos_nonneg; lia). split.
  - intros [H0 [k Hk]]. exists k. rewrite (Z.div_mod a (2 ^ s)) by lia. rewrite H0, Hk. ring.
  - intros [k ->]. replace (k * (odd * 2 ^ s)) with (k * odd * 2 ^ s) by ring.
    rewrite Z.mod_mul, Z.div_mul by lia. split; [done|]. by exists k.
Qed.

(** The test accepts the hash values whose distance to [d-1], taken modulo 2^32, is a
    multiple of [d]; when [d] is a power of two the threshold wraps to 0 and it accepts none. *)
Lemma fast_boundary_divides d t h :
  0 < d < 2 ^ 32 -> precompute d = Ok t ->
  fast_boundary t h = true <-> power_of_two d = false /\ (d | u32 (h - (d - 1))).
Proof.
  intros Hd Ht. destruct (precompute_spec d Hd) as (Hfac & Hs & Ho & Hinv & Hp).
  rewrite Hp in Ht. injection Ht as <-. unfold fast_boundary, power_of_two; simpl.
  set (s := TrailingZeros32 d) in *. set (odd := Z.shiftr d s) in *.
  set (a := u32 (h - (d - 1))). assert (is_u32 a) as Ha by apply u32_range.
  assert (0 < 2 ^ s) as Hpow by (apply Z.pow_pos_nonneg; lia).
  rewrite andb_true_iff, !bool_decide_eq_true, bool_decide_eq_false.
  replace (2 ^ s - 1) with (Z.ones s) by (rewrite Z.ones_equiv; lia).
  rewrite Z.land_ones, Z.shiftr_div_pow2 by lia.
  destruct (decide (odd = 1)) as [H1|Hne].
  - rewrite H1. replace (u32 ((2 ^ 32 + 1 - 1) / 1)) with 0 by reflexivity. split.
    + intros [_ H]. pose proof (u32_range (a / 2 ^ s * modInverse32 1)). mach_lia.
    + intros [H _]. rewrite H1 in Hfac. lia.
  - assert (1 < odd < 2 ^ 32) as Ho' by lia.
    rewrite (divisible_fast odd (modInverse32 odd) Ho' Hinv).
    2:{ pose proof (Z.div_pos a (2 ^ s)). pose proof (Z.div_le_upper_bound a (2 ^ s) a).
        unfold is_u32 in *. nia. }
    rewrite divide_split by lia. rewrite <- Hfac. split; [|tauto]. intros. split; [nia|done].
Qed.

(** The test [Hash.IsBoundary] (and casync) uses: [hValue % d == d-1]. *)
Definition slow_boundary (d h : Z) : bool := bool_decide (h mod d = d - 1).

(** The one hash value below [d-1] that the wrapped subtraction maps to a multiple of [d]. *)
Definition stray (d : Z) : Z := d - 1 - 2 ^ 32 mod d.

Lemma divides_u32_sub d h :
  0 < d < 2 ^ 32 -> is_u32 h ->
  (d | u32 (h - (d - 1))) <-> h mod d = d - 1 \/ (h < d - 1 /\ h = stray d).
Proof.
  intros Hd Hh. unfold is_u32, stray in *.
  pose proof (Z.mod_pos_bound (2 ^ 32) d ltac:(lia)) as Hm.
  destruct (decide (d - 1 <= h)) as [Hge|Hlt].
  - rewrite u32_small by mach_lia. split.
    + intros [k Hk]. left. replace h with (d - 1 + k * d) by lia.
      rewrite Z_mod_plus_full. apply Z.mod_small. lia.
    + intros [H|[H _]]; [|lia]. exists (h / d). pose proof (Z.div_mod h d ltac:(lia)). lia.
  - assert (u32 (h - (d - 1)) = h - (d - 1) + 2 ^ 32) as ->.
    { unfold u32. symmetry. apply (Z.mod_unique _ _ (-1)); lia. }
    rewrite (Z.mod_small h d) by lia.
    pose proof (Z.div_mod (2 ^ 32) d ltac:(lia)) as Hdm.
    set (q := 2 ^ 32 / d) in *. set (r := 2 ^ 32 mod d) in *. split.
    + intros [k Hk]. right. split; [lia|].
      assert (h + 1 + r = (k - q + 1) * d) as Heq by lia.
      assert (k - q + 1 = 1) by nia. nia.
    + intros [H|[_ ->]]; [lia|]. exists q. lia.
Qed.

Example discriminator_default : discriminatorFromAvg 65536 = 49535.
Proof. vm_compute. reflexivity. Qed.
Example discriminator_1365 : discriminatorFromAvg 1365 = 1024.
Proof. vm_compute. reflexivity. Qed.

Lemma uint32_of_float_range f : is_u32 (uint32_of_float f).
Proof.
  unfold uint32_of_float. destruct f; try apply u32_range; [unfold is_u32; lia|].
  repeat (let H := fresh in goal_decide H); apply u32_range.
Qed.

Lemma discriminatorFromAvg_range avg : is_u32 (discriminatorFromAvg avg).
Proof. apply uint32_of_float_range. Qed.

(** C31. The chunker's fast divisibility test against the test [hValue % d == d-1] it replaces
    (and which [Hash.IsBoundary] uses): for a discriminator that is not a power of two it
    accepts what the slow test accepts, and exactly one more hash value, [stray d]; for a power
    of two it accepts nothing. *)
Theorem fast_boundary_spec d t h :
  0 < d < 2 ^ 32 -> is_u32 h -> precompute d = Ok t ->
  fast_boundary t h =
  negb (power_of_two d) &&
  (slow_boundary d h || (bool_decide (h < d - 1) && bool_decide (h = stray d))).
Proof.
  intros Hd Hh Ht. apply eq_true_iff_eq. rewrite (fast_boundary_divides d t h Hd Ht).
  unfold slow_boundary. rewrite (divides_u32_sub d h Hd Hh).
  rewrite andb_true_iff, orb_true_iff, andb_true_iff, !bool_decide_eq_true, negb_true_iff. done.
Qed.

Lemma fast_boundary_spec_witness :
  exists t, precompute 49535 = Ok t /\ stray 49535 = 14413 /\
    fast_boundary t 14413 = true /\ slow_boundary 49535 14413 = false.
Proof.
  eexists. split; [vm_compute; reflexivity|]. split; [vm_compute; reflexivity|].
  split; [|vm_compute; reflexivity].
  rewrite (fast_boundary_spec 49535); [|lia|unfold is_u32; lia|vm_compute; reflexivity].
  vm_compute. reflexivity.
Defined.
