(* ===== verification/Chunker.v ===== *)
(** * Chunker: chunker.go

    The type [Chunker] with NewChunker, fillBuffer, Next, split and Advance over a reader that
    delivers its bytes in pieces of any size ([Reader]), and [cut_point], the declarative
    position of the next cut in the remaining bytes. [Next_spec] is the refinement: whatever
    the pieces, a call of Next cuts the remaining bytes at [cut_point].

    A slice Next returns aliases the chunker's buffer until the following call; the model
    returns the bytes it holds at the return. *)

From S2P Require Import Prelude Rolling Boundary.

(** ** Readers (io.Reader, io.Seeker) *)

(** What the successive calls of Read find: bytes, then an error if there is one. A read with a
    smaller buffer leaves the rest of a piece (and its error) for the next call; after the last
    piece every call is at the end of the stream. *)
Record Reader := mkReader {
  pieces : list (bytes * option error);
  seekable : bool
}.

Definition Read (r : Reader) (len_p : nat) : bytes * option error * Reader :=
  match pieces r with
  | [] => ([], Some ErrEOF, r)
  | (b, e) :: ps =>
    if decide (length b <= len_p)%nat then (b, e, mkReader ps (seekable r))
    else (take len_p b, None, mkReader ((drop len_p b, e) :: ps) (seekable r))
  end.

(** [rs.Seek(n, io.SeekCurrent)] for n >= 0: skips bytes, also past the end. *)
Fixpoint seek_pieces (n : nat) (ps : list (bytes * option error)) : list (bytes * option error) :=
  match ps with
  | [] => []
  | (b, e) :: ps' =>
    if decide (n <= length b)%nat then (drop n b, e) :: ps'
    else seek_pieces (n - length b) ps'
  end.

(** [io.CopyN(io.Discard, r, n)]: reads until n bytes were seen or the reader fails; a short
    copy without another error is io.EOF, and a complete one drops the error that came with
    its last bytes. *)
Fixpoint copyN (n : nat) (ps : list (bytes * option error))
  : option error * list (bytes * option error) :=
  if decide (n = 0)%nat then (None, ps) else
  match ps with
  | [] => (Some ErrEOF, [])
  | (b, e) :: ps' =>
    if decide (n < length b)%nat then (None, (drop n b, e) :: ps')
    else if decide (n = length b)%nat then (None, ps')
    else match e with
         | Some e => (Some e, ps')
         | None => copyN (n - length b) ps'
         end
  end.

(** The bytes a reader delivers before its first error, and that error. *)
Fixpoint stream_data (ps : list (bytes * option error)) : bytes :=
  match ps with
  | [] => []
  | (b, None) :: ps' => b ++ stream_data ps'
  | (b, Some _) :: _ => b
  end.

Fixpoint stream_err (ps : list (bytes * option error)) : error :=
  match ps with
  | [] => ErrEOF
  | (_, None) :: ps' => stream_err ps'
  | (_, Some e) :: _ => e
  end.

(** ** The chunker *)

Module Chunker.

Record Chunker := mkChunker {
  r : Reader;
  min : Z;
  avg : Z;
  max : Z;
  start : Z;
  buf : bytes;
  backingCap : Z;           (* cap(c.backingBuf) *)
  hitEOF : bool;
  hValue : Z;
  hWindow : bytes;
  hIdx : nat;
  test : BoundaryTest       (* hDiscriminator, hInverseOdd, ... *)
}.

Definition NewChunker (r : Reader) (min avg max : Z) : outcome Chunker :=
  if decide (min < ChunkerWindowSize) then Err (Errorf "min chunk size too small, must be over 48")
  else if decide (min > max) then
    Err (Errorf "min chunk size must not be greater than max")
  else if decide (min > avg) then
    Err (Errorf "min chunk size must not be greater than avg")
  else if decide (avg > max) then
    Err (Errorf "avg chunk size must not be greater than max")
  else
    let disc := discriminatorFromAvg avg in
    t ← precompute disc;
    Ok (mkChunker r min avg max 0 [] 0 false 0 (replicate WindowSize Byte.x00) 0 t).

(** The loop of fillBuffer: read until [room] bytes were added or the reader returned an
    error. *)
Fixpoint fill_loop (fuel : nat) (room : nat) (r : Reader)
  : outcome (bytes * option error * Reader) :=
  if decide (room = 0)%nat then Ok ([], None, r)
  else match fuel with
       | O => NoFuel
       | S fuel =>
         match Read r room with
         | (b, Some e, r') => Ok (b, Some e, r')
         | (b, None, r') =>
           '(b', e, r'') ← fill_loop fuel (room - length b) r';
           Ok (b ++ b', e, r'')
         end
       end.

Definition fillBuffer (c : Chunker) : outcome (Z * option error * Chunker) :=
  if hitEOF c then Ok (0, None, c)
  else
    let size := u64 (10 * max c) in
    cap ← (if decide (size <= backingCap c) then Ok (backingCap c)
           else if decide (i64 size < 0 \/ maxAlloc < i64 size) then Panic
           else Ok size);
    let kept := take (Z.to_nat size) (buf c) in
    '(b, err, r') ← fill_loop (S (length (pieces (r c))))
                      (Z.to_nat size - length kept) (r c);
    let buf' := kept ++ b in
    let eof := bool_decide (err = Some ErrEOF) in
    Ok (Z.of_nat (length buf'),
        (if eof then None else err),
        mkChunker r' (min c) (avg c) (max c) (start c) buf' cap eof
          (hValue c) (hWindow c) (hIdx c) (test c)).

Definition split (c : Chunker) (i : Z) (err : option error)
  : outcome (Z * bytes * option error * Chunker) :=
  if decide (0 <= i <= Z.of_nat (length (buf c))) then
    Ok (start c, take (Z.to_nat i) (buf c), err,
        mkChunker (r c) (min c) (avg c) (max c) (u64 (start c + i)) (drop (Z.to_nat i) (buf c))
          (backingCap c) (hitEOF c) 0 (hWindow c) 0 (test c))
  else Panic.

(** The hot loop of Next over the bytes from [pos] on; returns the cut position and the locals
    hValue, hIdx and win. *)
Fixpoint scan (t : BoundaryTest) (m : Z) (pos : Z) (hValue : Z) (hIdx : nat) (win : bytes)
  (rest : bytes) : outcome (Z * Z * nat * bytes) :=
  match rest with
  | [] => Panic
  | inb :: rest' =>
    match win !! hIdx with
    | None => Panic
    | Some out =>
      let win := <[hIdx := inb]> win in
      let hIdx := if decide (S hIdx < WindowSize)%nat then S hIdx else 0%nat in
      let hValue := Z.lxor (Z.lxor (RotateLeft32 hValue 1) (hashTableRotated_at out))
                      (hashTable_at inb) in
      let pos := pos + 1 in
      if decide (pos >= m) then Ok (pos, hValue, hIdx, win)
      else if fast_boundary t hValue then Ok (pos, hValue, hIdx, win)
      else scan t m pos hValue hIdx win rest'
    end
  end.

(** The locals of the loop written back. *)
Definition with_hash (c : Chunker) (v : Z) (win : bytes) (i : nat) : Chunker :=
  mkChunker (r c) (min c) (avg c) (max c) (start c) (buf c) (backingCap c) (hitEOF c)
    v win i (test c).

(** The part of Next after the buffer was filled. *)
Definition Next_scan (c : Chunker) : outcome (Z * bytes * option error * Chunker) :=
  let len := Z.of_nat (length (buf c)) in
  if decide (len <= i64 (min c)) then split c len None
  else
    let m := Z.min len (i64 (max c)) in
    if decide (min c <= len) then
      let window := take WindowSize (drop (Z.to_nat (min c - ChunkerWindowSize)) (buf c)) in
      let v := init_loop ChunkerWindowSize 0 (hValue c) window in
      '(pos, v, i, win) ←
        scan (test c) m (min c) v (hIdx c) window (drop (Z.to_nat (min c)) (buf c));
      split (with_hash c v win i) pos None
    else Panic.

Definition Next (c : Chunker) : outcome (Z * bytes * option error * Chunker) :=
  if decide (Z.of_nat (length (buf c)) < i64 (max c)) then
    '(n, err, c) ← fillBuffer c;
    match err with
    | Some e => split c n (Some e)
    | None => Next_scan c
    end
  else Next_scan c.

Definition Advance (c : Chunker) (n : Z) : outcome (option error * Chunker) :=
  let moved r b := mkChunker r (min c) (avg c) (max c) (u64 (start c + n)) b (backingCap c)
                     (hitEOF c) (hValue c) (hWindow c) (hIdx c) (test c) in
  if decide (n <= Z.of_nat (length (buf c))) then
    if decide (0 <= n) then Ok (None, moved (r c) (drop (Z.to_nat n) (buf c))) else Panic
  else
    let readerN := Z.to_nat (n - Z.of_nat (length (buf c))) in
    if seekable (r c) then
      Ok (None, moved (mkReader (seek_pieces readerN (pieces (r c))) true) [])
    else
      let '(err, ps) := copyN readerN (pieces (r c)) in
      Ok (err, moved (mkReader ps false) []).

Definition Min (c : Chunker) : Z := min c.
Definition Avg (c : Chunker) : Z := avg c.
Definition Max (c : Chunker) : Z := max c.

(** What every user of a chunker does: call Next until it returns no data or an error. *)
Fixpoint drain (fuel : nat) (c : Chunker) : outcome (list (Z * bytes) * option error) :=
  match fuel with
  | O => NoFuel
  | S fuel =>
    '(s, b, err, c') ← Next c;
    match err with
    | Some e => Ok ([(s, b)], Some e)
    | None =>
      if decide (b = []) then Ok ([], None)
      else '(l, e) ← drain fuel c'; Ok ((s, b) :: l, e)
    end
  end.

End Chunker.

(** ** The specification of a cut *)

(** Positions [p, p+1, .., p+k]: the first that satisfies [f], or the last. *)
Fixpoint first_from (f : nat -> bool) (p k : nat) : nat :=
  match k with
  | O => p
  | S k => if f p then p else first_from f (S p) k
  end.

(** The hash of the [WindowSize] bytes before position [p]. *)
Definition hash_at (d : bytes) (p : nat) : Z := buzhash (take WindowSize (drop (p - WindowSize) d)).

(** The length of the first chunk of the remaining bytes [d]: all of them when there are no
    more than [mn]; otherwise the first position after [mn] whose hash is a boundary, and at
    the latest [mx]. *)
Definition cut_point (t : BoundaryTest) (mn mx : nat) (d : bytes) : nat :=
  if decide (length d <= mn)%nat then length d
  else first_from (fun p => fast_boundary t (hash_at d p)) (S mn)
         (Nat.min (length d) mx - S mn).

(** The chunks of [d], the first one at offset [pos]. *)
Fixpoint chunks (t : BoundaryTest) (mn mx : nat) (fuel : nat) (pos : Z) (d : bytes)
  : list (Z * bytes) :=
  match fuel with
  | O => []
  | S fuel =>
    if decide (d = []) then []
    else
      let k := cut_point t mn mx d in
      (u64 pos, take k d) :: chunks t mn mx fuel (pos + Z.of_nat k) (drop k d)
  end.

(** ** Readers *)

Lemma fill_loop_spec sk ps fuel room :
  (length ps < fuel)%nat ->
  exists b e ps', Chunker.fill_loop fuel room (mkReader ps sk) = Ok (b, e, mkReader ps' sk) /\
    match e with
    | None => length b = room /\ stream_data ps = b ++ stream_data ps' /\
              stream_err ps = stream_err ps'
    | Some e => stream_data ps = b /\ stream_err ps = e /\ (length b <= room)%nat
    end.
Proof.
  revert ps room. induction fuel as [|fuel IH]; intros ps room Hf; [lia|]. simpl.
  case_decide as Hr; [subst; by eexists [], None, ps|].
  destruct ps as [|[b e] ps]; unfold Read; simpl.
  { eexists [], (Some ErrEOF), []. simpl. repeat split. lia. }
  simpl in Hf. case_decide as Hb.
  - destruct e as [e|]; [by eexists b, (Some e), ps|].
    destruct (IH ps (room - length b)%nat ltac:(lia)) as (b' & e' & ps' & -> & H). simpl.
    exists (b ++ b'), e', ps'. split; [done|]. destruct e' as [e'|].
    + destruct H as (-> & -> & ?). rewrite length_app. repeat split. lia.
    + destruct H as (? & -> & ->). rewrite length_app, app_assoc. repeat split. lia.
  - assert (length (take room b) = room) as Hl by (rewrite length_take; lia).
    rewrite Hl, Nat.sub_diag. exists (take room b), None, ((drop room b, e) :: ps).
    split; [destruct fuel; simpl; by rewrite app_nil_r|]. split; [done|].
    split; [|by destruct e].
    destruct e; simpl; rewrite ?app_assoc; by rewrite take_drop.
Qed.

Lemma stream_data_seek n ps :
  (n <= length (stream_data ps))%nat ->
  stream_data (seek_pieces n ps) = drop n (stream_data ps) /\
  stream_err (seek_pieces n ps) = stream_err ps.
Proof.
  revert n. induction ps as [|[b [e|]] ps IH]; intros n Hn; simpl in *.
  - by rewrite drop_nil.
  - by rewrite decide_True by lia.
  - rewrite length_app in Hn. case_decide; simpl.
    + by rewrite drop_app_le by lia.
    + rewrite drop_app_ge by lia. apply IH. lia.
Qed.

(** A reader whose only error is io.EOF, and which stays at the end afterwards. *)
Fixpoint clean (ps : list (bytes * option error)) : bool :=
  match ps with
  | [] => true
  | (_, None) :: ps' => clean ps'
  | (_, Some e) :: ps' => bool_decide (e = ErrEOF) && bool_decide (ps' = [])
  end.

Lemma clean_err ps : clean ps = true -> stream_err ps = ErrEOF.
Proof.
  induction ps as [|[b [e|]] ps IH]; simpl; [done| |done].
  intros [H _]%andb_true_iff. by apply bool_decide_eq_true in H.
Qed.

Lemma copyN_clean n ps :
  clean ps = true ->
  (n <= length (stream_data ps))%nat ->
  exists ps', copyN n ps = (None, ps') /\ clean ps' = true /\
    stream_data ps' = drop n (stream_data ps).
Proof.
  revert n. induction ps as [|[b e] ps IH]; intros n Hc Hn.
  { simpl in *. replace n with 0%nat by lia. by exists []. }
  destruct (decide (n = 0)%nat) as [->|Hn0].
  { simpl. by exists ((b, e) :: ps). }
  cbn [copyN]. rewrite decide_False by done.
  case_decide as Hlt.
  { exists ((drop n b, e) :: ps). split; [done|]. split; [done|]. simpl.
    destruct e; [done|]. by rewrite drop_app_le by lia. }
  case_decide as Heq.
  - exists ps. split; [done|]. subst n. destruct e as [e|]; simpl in *.
    + apply andb_true_iff in Hc as [_ Hc]. apply bool_decide_eq_true in Hc as ->.
      simpl. split; [done|]. by rewrite drop_ge.
    + split; [done|]. by rewrite drop_app_length.
  - destruct e as [e|]; simpl in Hc, Hn.
    + lia.
    + rewrite length_app in Hn. destruct (IH (n - length b)%nat Hc ltac:(lia)) as (ps' & -> & H1 & H2).
      exists ps'. split; [done|]. split; [done|]. rewrite H2. simpl.
      by rewrite drop_app_ge by lia.
Qed.

Lemma clean_seek n ps : clean ps = true -> clean (seek_pieces n ps) = true.
Proof.
  revert n. induction ps as [|[b [e|]] ps IH]; intros n Hc; simpl in *; [done| |].
  - destruct (decide (n <= length b)%nat); [exact Hc|]. apply andb_true_iff in Hc as [_ Hc].
    apply bool_decide_eq_true in Hc as ->. done.
  - case_decide; simpl; auto.
Qed.

(** ** The scan finds the cut *)

Lemma first_from_ext f g p k :
  (forall i, (p <= i < p + k)%nat -> f i = g i) -> first_from f p k = first_from g p k.
Proof.
  revert p. induction k as [|k IH]; intros p H; simpl; [done|].
  rewrite (H p) by lia. destruct (g p); [done|]. apply IH. intros. apply H. lia.
Qed.

Lemma first_from_range f p k : (p <= first_from f p k <= p + k)%nat.
Proof.
  revert p. induction k as [|k IH]; intros p; simpl; [lia|].
  destruct (f p); [lia|]. specialize (IH (S p)). lia.
Qed.

Lemma first_from_stops f p k :
  (first_from f p k < p + k)%nat -> f (first_from f p k) = true.
Proof.
  revert p. induction k as [|k IH]; intros p; simpl; [lia|].
  destruct (f p) eqn:E; [done|]. intros. apply IH. lia.
Qed.

Lemma first_from_first f p k i :
  (p <= i < first_from f p k)%nat -> f i = false.
Proof.
  revert p. induction k as [|k IH]; intros p; simpl; [lia|].
  destruct (f p) eqn:E; [lia|]. intros. destruct (decide (i = p)) as [->|]; [done|].
  apply (IH (S p)). lia.
Qed.

(** The window before position [p+1] is the window before [p] without its oldest byte. *)
Lemma window_step (d : bytes) p out w inb :
  (WindowSize <= p)%nat -> d !! p = Some inb ->
  take WindowSize (drop (p - WindowSize) d) = out :: w ->
  take WindowSize (drop (S p - WindowSize) d) = w ++ [inb].
Proof.
  intros Hp Hin Hw. replace (S p - WindowSize)%nat with (S (p - WindowSize)) by lia.
  destruct (drop (p - WindowSize) d) as [|x l] eqn:E; [done|].
  assert (drop (S (p - WindowSize)) d = l) as ->.
  { rewrite <- Nat.add_1_r, <- drop_drop, E. done. }
  change WindowSize with (S 47) in Hw |- *. cbn [take] in Hw. injection Hw as -> <-.
  apply take_S_r.
  assert (drop (p - WindowSize) d !! 48%nat = Some inb) as H.
  { rewrite lookup_drop. rewrite <- Hin. f_equal. unfold WindowSize in *. lia. }
  rewrite E in H. exact H.
Qed.

Lemma lookup_split {A} (l1 : list A) x l2 l :
  l = l1 ++ x :: l2 -> l !! length l1 = Some x.
Proof. intros ->. by apply list_lookup_middle. Qed.

(** The hot loop, started with the window before [pos] in its circular buffer, stops at the
    first boundary. *)
Lemma scan_spec t (b : bytes) m rest pos i win :
  (WindowSize <= pos < m)%nat -> (m <= length b)%nat ->
  drop pos b = rest -> length win = WindowSize -> (i < WindowSize)%nat ->
  window_view win i = take WindowSize (drop (pos - WindowSize) b) ->
  exists v' i' win',
    Chunker.scan t (Z.of_nat m) (Z.of_nat pos) (hash_at b pos) i win rest =
    Ok (Z.of_nat (first_from (fun p => fast_boundary t (hash_at b p)) (S pos) (m - S pos)),
        v', i', win') /\ length win' = WindowSize.
Proof.
  revert pos i win. induction rest as [|inb rest IH]; intros pos i win Hp Hm Hr Hw Hi Hv.
  { pose proof (length_drop b pos) as Hl. rewrite Hr in Hl. simpl in Hl. lia. }
  assert (b !! pos = Some inb) as Hin.
  { rewrite <- (Nat.add_0_r pos), <- lookup_drop, Hr. done. }
  assert (drop (S pos) b = rest) as Hr'.
  { rewrite <- Nat.add_1_r, <- drop_drop, Hr. done. }
  destruct (lookup_lt_is_Some_2 win i) as [out Hout]; [lia|].
  destruct (window_view_step win i out inb Hout) as (w & Hw1 & Hw2 & Hw3).
  rewrite Hv in Hw1. pose proof (window_step b pos out w inb ltac:(lia) Hin Hw1) as Hstep.
  simpl. rewrite Hout.
  assert (Z.lxor (Z.lxor (RotateLeft32 (hash_at b pos) 1) (hashTableRotated_at out))
            (hashTable_at inb) = hash_at b (S pos)) as ->.
  { unfold hash_at. rewrite Hw1, Hstep, hashTableRotated_spec.
    rewrite <- (buzhash_roll out w inb). rewrite Hw2, Hw. done. }
  replace (Z.of_nat pos + 1) with (Z.of_nat (S pos)) by lia.
  goal_decide Hge.
  { replace (m - S pos)%nat with 0%nat by lia. simpl. do 3 eexists. split; [done|].
    by rewrite length_insert. }
  replace (m - S pos)%nat with (S (m - S (S pos))) by lia. cbn [first_from].
  destruct (fast_boundary t (hash_at b (S pos))) eqn:Hb.
  { do 3 eexists. split; [done|]. by rewrite length_insert. }
  apply IH; [lia|lia|done|by rewrite length_insert| |].
  - goal_decide Hd; unfold WindowSize in *; lia.
  - rewrite Hw in Hw3. by rewrite Hw3, Hstep.
Qed.

(** ** The representation invariant *)

(** The chunker [c] still has the bytes [d] to deliver, followed by the error [e], and stands
    at offset [pos]. *)
Record represents (t : BoundaryTest) (mn mx : nat) (c : Chunker.Chunker)
  (d : bytes) (e : error) (pos : Z) : Prop := {
  rep_min : Chunker.min c = Z.of_nat mn;
  rep_max : Chunker.max c = Z.of_nat mx;
  rep_sizes : (WindowSize <= mn < mx)%nat;
  rep_fits : 10 * Z.of_nat mx <= maxAlloc;
  rep_test : Chunker.test c = t;
  rep_hash : Chunker.hValue c = 0 /\ Chunker.hIdx c = 0%nat;
  rep_start : Chunker.start c = u64 pos;
  rep_data :
    if Chunker.hitEOF c then d = Chunker.buf c /\ e = ErrEOF
    else d = Chunker.buf c ++ stream_data (pieces (Chunker.r c)) /\
         e = stream_err (pieces (Chunker.r c))
}.

Lemma u64_add_l x y : u64 (u64 x + y) = u64 (x + y).
Proof. apply Zplus_mod_idemp_l. Qed.

Lemma split_represents t mn mx c d e pos n err v win i :
  represents t mn mx c d e pos -> (n <= length (Chunker.buf c))%nat ->
  exists c', Chunker.split (Chunker.with_hash c v win i) (Z.of_nat n) err =
             Ok (u64 pos, take n d, err, c') /\
    represents t mn mx c' (drop n d) e (pos + Z.of_nat n).
Proof.
  intros [] Hn. unfold Chunker.split, Chunker.with_hash; cbn.
  rewrite decide_True by lia. rewrite Nat2Z.id.
  eexists. split; [rewrite rep_start0; do 4 f_equal|].
  - destruct (Chunker.hitEOF c); destruct rep_data0 as [-> _]; [done|].
    by rewrite take_app_le by lia.
  - split; cbn -[Z.mul]; try done.
    + apply u64_add_l.
    + destruct (Chunker.hitEOF c); destruct rep_data0 as [-> ->]; [done|].
      by rewrite drop_app_le by lia.
Qed.

Lemma with_hash_id c :
  Chunker.with_hash c (Chunker.hValue c) (Chunker.hWindow c) (Chunker.hIdx c) = c.
Proof. by destruct c. Qed.

(** With a full buffer, or at the end of the stream, the cut of the buffer is the cut of all
    remaining bytes. *)
Lemma cut_point_buffer t mn mx b tl :
  (WindowSize <= mn < mx)%nat -> (mx <= length b)%nat \/ tl = [] ->
  cut_point t mn mx (b ++ tl) = cut_point t mn mx b.
Proof.
  intros Hs [Hl| ->]; [|by rewrite app_nil_r].
  unfold cut_point. rewrite length_app, !decide_False by lia.
  replace (Nat.min (length b + length tl) mx) with (Nat.min (length b) mx) by lia.
  apply first_from_ext. intros i Hi. f_equal. unfold hash_at. f_equal.
  rewrite drop_app_le by lia. apply take_app_le. rewrite length_drop. lia.
Qed.

Lemma cut_point_range t mn mx d :
  (mn < mx)%nat ->
  (cut_point t mn mx d <= length d)%nat /\ (cut_point t mn mx d <= mx)%nat /\
  ((length d <= mn)%nat -> cut_point t mn mx d = length d) /\
  ((mn < length d)%nat -> (mn < cut_point t mn mx d)%nat).
Proof.
  intros Hm. unfold cut_point. goal_decide Hd; [lia|].
  pose proof (first_from_range (fun p => fast_boundary t (hash_at d p)) (S mn)
                (Nat.min (length d) mx - S mn)). lia.
Qed.

(** Next on a buffer that is full or final. *)
Lemma Next_scan_spec t mn mx c d e pos :
  represents t mn mx c d e pos ->
  (mx <= length (Chunker.buf c))%nat \/ d = Chunker.buf c /\ e = ErrEOF ->
  let k := cut_point t mn mx d in
  exists c', Chunker.Next_scan c = Ok (u64 pos, take k d, None, c') /\
    represents t mn mx c' (drop k d) e (pos + Z.of_nat k).
Proof.
  intros Hr Hfull k. pose proof Hr as [].
  assert (exists tl, d = Chunker.buf c ++ tl) as [tl Htl].
  { destruct (Chunker.hitEOF c); destruct rep_data0 as [-> _]; [|by eexists].
    exists []. by rewrite app_nil_r. }
  assert (k = cut_point t mn mx (Chunker.buf c)) as Hk.
  { subst k. rewrite Htl. apply cut_point_buffer; [done|]. destruct Hfull as [?|[Hd _]]; [by left|].
    right. rewrite Hd in Htl. apply (f_equal length) in Htl. rewrite length_app in Htl.
    destruct tl; [done|simpl in Htl; lia]. }
  clearbody k. unfold Chunker.Next_scan. rewrite rep_min0, rep_max0.
  rewrite !i64_small by (unfold WindowSize in *; mach_lia).
  unfold cut_point in Hk. destruct (decide (length (Chunker.buf c) <= mn)%nat) as [Hle|Hgt].
  { rewrite decide_True by lia. rewrite Hk.
    pose proof (split_represents t mn mx c d e pos (length (Chunker.buf c)) None (Chunker.hValue c)
      (Chunker.hWindow c) (Chunker.hIdx c) Hr ltac:(lia)) as Hs.
    by rewrite with_hash_id in Hs. }
  rewrite decide_False, decide_True by lia. destruct rep_hash0 as [-> ->].
  replace (Z.to_nat (Z.of_nat mn - ChunkerWindowSize)) with (mn - WindowSize)%nat
    by (unfold ChunkerWindowSize, WindowSize; lia).
  set (window := take WindowSize (drop (mn - WindowSize) (Chunker.buf c))).
  assert (length window = WindowSize) as Hwl.
  { unfold window. rewrite length_take, length_drop. lia. }
  rewrite init_loop_spec by (rewrite Hwl; done). rewrite Z.lxor_0_l, Nat2Z.id.
  rewrite <- Nat2Z.inj_min.
  destruct (scan_spec (Chunker.test c) (Chunker.buf c) (Nat.min (length (Chunker.buf c)) mx)
    (drop mn (Chunker.buf c)) mn 0 window) as (v & i & win & Hscan & _);
    [lia..|done|done|unfold WindowSize; lia|apply window_view_0|].
  change (buzhash window) with (hash_at (Chunker.buf c) mn). rewrite Hscan. simpl.
  rewrite rep_test0, <- Hk. apply split_represents; [done|].
  rewrite Hk. pose proof (first_from_range
    (fun p => fast_boundary t (hash_at (Chunker.buf c) p)) (S mn)
    (Nat.min (length (Chunker.buf c)) mx - S mn)). lia.
Qed.

(** fillBuffer keeps what is represented, and leaves a full buffer, a final buffer, or an
    error with everything the reader delivered before it. *)
Lemma fillBuffer_spec t mn mx c d e pos :
  represents t mn mx c d e pos -> (length (Chunker.buf c) < mx)%nat ->
  exists n err c', Chunker.fillBuffer c = Ok (n, err, c') /\
    match err with
    | None => represents t mn mx c' d e pos /\
              ((mx <= length (Chunker.buf c'))%nat \/ d = Chunker.buf c' /\ e = ErrEOF)
    | Some e' => e' = e /\ e <> ErrEOF /\ n = Z.of_nat (length d) /\
                 d = Chunker.buf c' /\ Chunker.start c' = u64 pos
    end.
Proof.
  intros Hr Hlt. pose proof Hr as []. unfold Chunker.fillBuffer.
  destruct (Chunker.hitEOF c) eqn:Heof.
  { do 3 eexists. split; [done|]. split; [done|]. right. apply rep_data0. }
  rewrite rep_max0. assert (u64 (10 * Z.of_nat mx) = 10 * Z.of_nat mx) as -> by
    (apply u64_small; mach_lia).
  assert (exists cap, (if decide (10 * Z.of_nat mx <= Chunker.backingCap c)
    then Ok (Chunker.backingCap c)
    else if decide (i64 (10 * Z.of_nat mx) < 0 \/ maxAlloc < i64 (10 * Z.of_nat mx))
    then Panic else Ok (10 * Z.of_nat mx)) = Ok cap) as [cap ->].
  { case_decide; [by eexists|]. rewrite i64_small by mach_lia.
    rewrite decide_False by mach_lia. by eexists. }
  cbn [mbind outcome_bind]. rewrite take_ge by lia. destruct rep_data0 as [Hd He].
  destruct (Chunker.r c) as [ps sk] eqn:Hrd. cbn [pieces] in *.
  destruct (fill_loop_spec sk ps (S (length ps))
    (Z.to_nat (10 * Z.of_nat mx) - length (Chunker.buf c)) ltac:(lia)) as (b & err & ps' & -> & H).
  simpl. do 3 eexists. split; [done|].
  destruct err as [e'|]; simpl.
  - destruct H as (Hb & He' & _).
    assert (d = Chunker.buf c ++ b) as Hd' by congruence.
    assert (e' = e) as -> by congruence.
    destruct (decide (e = ErrEOF)) as [->|Hne].
    + rewrite bool_decide_true by done. split; [|by right].
      split; cbn -[Z.mul]; try done.
    + rewrite bool_decide_false by congruence. by rewrite Hd'.
  - destruct H as (Hb & Hs & Hse). rewrite Hs, app_assoc in Hd. split.
    + split; cbn -[Z.mul]; try done. split; [done|congruence].
    + left. rewrite length_app, Hb. lia.
Qed.

Lemma represents_buf_le t mn mx c d e pos :
  represents t mn mx c d e pos -> (length (Chunker.buf c) <= length d)%nat.
Proof.
  intros []. destruct (Chunker.hitEOF c); destruct rep_data0 as [-> _]; [done|].
  rewrite length_app. lia.
Qed.

(** One call of Next. *)
Lemma Next_step t mn mx c d e pos :
  represents t mn mx c d e pos ->
  let k := cut_point t mn mx d in
  exists c',
    (Chunker.Next c = Ok (u64 pos, take k d, None, c') /\
     represents t mn mx c' (drop k d) e (pos + Z.of_nat k) /\
     (e = ErrEOF \/ (mx <= length d)%nat)) \/
    (Chunker.Next c = Ok (u64 pos, d, Some e, c') /\ e <> ErrEOF).
Proof.
  intros Hr k. pose proof Hr as []. unfold Chunker.Next. rewrite rep_max0.
  rewrite i64_small by (unfold WindowSize in *; mach_lia). goal_decide Hlt.
  - destruct (fillBuffer_spec t mn mx c d e pos Hr ltac:(lia)) as (n & err & c1 & -> & H).
    simpl. destruct err as [e'|].
    + destruct H as (-> & Hne & -> & Hd & Hst). unfold Chunker.split.
      rewrite Nat2Z.id, <- Hd, decide_True, Hst, take_ge by lia. eexists. by right.
    + destruct H as [Hr1 Hfull].
      destruct (Next_scan_spec _ _ _ _ _ _ _ Hr1 Hfull) as (c' & Hc & Hr').
      exists c'. left. split; [done|]. split; [done|].
      destruct Hfull as [H|[_ H]]; [right|by left].
      pose proof (represents_buf_le _ _ _ _ _ _ _ Hr1). lia.
  - destruct (Next_scan_spec _ _ _ _ _ _ _ Hr ltac:(left; lia)) as (c' & Hc & Hr').
    exists c'. left. split; [done|]. split; [done|]. right.
    pose proof (represents_buf_le _ _ _ _ _ _ _ Hr). lia.
Qed.

(** ** The chunks of a stream *)

Section chunks_facts.

Context (t : BoundaryTest) (mn mx : nat).
Hypothesis sizes : (WindowSize <= mn < mx)%nat.

Lemma cut_point_pos d : d <> [] -> (0 < cut_point t mn mx d <= length d)%nat.
Proof using sizes.
  intros Hd. destruct (cut_point_range t mn mx d ltac:(lia)) as (H1 & _ & H3 & H4).
  destruct d as [|x d]; [done|]. simpl in *. lia.
Qed.

(** More fuel than bytes changes nothing. *)
Lemma chunks_fuel f pos d :
  (length d <= f)%nat -> chunks t mn mx f pos d = chunks t mn mx (length d) pos d.
Proof using sizes.
  revert f pos d. assert (forall n f pos d, (length d <= n <= f)%nat ->
    chunks t mn mx f pos d = chunks t mn mx n pos d) as H.
  { induction n as [|n IH]; intros f pos d Hf.
    - destruct d; [|simpl in Hf; lia]. by destruct f.
    - destruct f as [|f]; [lia|]. simpl. goal_decide Hd; [done|].
      pose proof (cut_point_pos d Hd). f_equal. apply IH. rewrite length_drop. lia. }
  intros f pos d Hf. apply H. lia.
Qed.

Lemma chunks_cons pos d :
  d <> [] ->
  let k := cut_point t mn mx d in
  chunks t mn mx (length d) pos d =
  (u64 pos, take k d) :: chunks t mn mx (length (drop k d)) (pos + Z.of_nat k) (drop k d).
Proof using sizes.
  intros Hd k. pose proof (cut_point_pos d Hd) as Hk. fold k in Hk.
  destruct (length d) as [|n] eqn:E; [lia|]. simpl. rewrite decide_False by done.
  f_equal. apply chunks_fuel. fold k. rewrite length_drop. lia.
Qed.

(** The chunks of [d] from offset [pos]: contiguous, together [d], none empty, none above the
    maximum, and only the last one may be at or below the minimum. *)
Inductive well_chunked : Z -> bytes -> list (Z * bytes) -> Prop :=
| wc_nil pos : well_chunked pos [] []
| wc_last pos b :
    (0 < length b <= mx)%nat -> well_chunked pos b [(u64 pos, b)]
| wc_cons pos b d l :
    (mn < length b <= mx)%nat ->
    well_chunked (pos + Z.of_nat (length b)) d l ->
    well_chunked pos (b ++ d) ((u64 pos, b) :: l).

Lemma well_chunked_concat pos d l : well_chunked pos d l -> concat (map snd l) = d.
Proof. induction 1; simpl; by rewrite ?app_nil_r, ?IHwell_chunked. Qed.

Lemma chunks_well_chunked pos d : well_chunked pos d (chunks t mn mx (length d) pos d).
Proof using sizes.
  remember (length d) as n eqn:Hn. revert pos d Hn.
  induction (lt_wf n) as [n _ IH]. intros pos d ->.
  destruct (decide (d = [])) as [->|Hd]; [constructor|].
  rewrite chunks_cons by done. pose proof (cut_point_pos d Hd) as Hk.
  destruct (cut_point_range t mn mx d ltac:(lia)) as (_ & H2 & H3 & H4).
  set (k := cut_point t mn mx d) in *. destruct (decide (length d <= mn)%nat).
  - rewrite H3, drop_all, firstn_all by done. simpl. constructor. lia.
  - rewrite <- (take_drop k d) at 1.
    assert (length (take k d) = k) as Hl by (rewrite length_take; lia).
    constructor; [lia|]. rewrite Hl. apply (IH (length (drop k d))); [|done].
    rewrite length_drop. lia.
Qed.

Lemma drain_chunks c d pos fuel :
  represents t mn mx c d ErrEOF pos -> (length d < fuel)%nat ->
  Chunker.drain fuel c = Ok (chunks t mn mx (length d) pos d, None).
Proof using sizes.
  revert c d pos. induction fuel as [|fuel IH]; intros c d pos Hr Hf; [lia|]. simpl.
  destruct (Next_step t mn mx c d ErrEOF pos Hr) as (c' & [(-> & Hr' & _)|(_ & He)]); [|done].
  simpl. destruct (decide (d = [])) as [->|Hd].
  - rewrite take_nil, decide_True by done. done.
  - pose proof (cut_point_pos d Hd) as Hk. rewrite decide_False.
    2:{ intros H%(f_equal length). rewrite length_take in H. simpl in H. lia. }
    rewrite (IH _ _ _ Hr') by (rewrite length_drop; lia). simpl. by rewrite (chunks_cons pos d Hd).
Qed.

Lemma drain_error c d e pos fuel :
  represents t mn mx c d e pos -> e <> ErrEOF -> (length d < fuel)%nat ->
  exists l, Chunker.drain fuel c = Ok (l, Some e) /\ concat (map snd l) = d /\
    Forall (fun '(s, b) => (s, b) ∈ chunks t mn mx (length d) pos d) (removelast l).
Proof using sizes.
  revert c d pos. induction fuel as [|fuel IH]; intros c d pos Hr He Hf; [lia|]. simpl.
  destruct (Next_step t mn mx c d e pos Hr) as (c' & [(-> & Hr' & Hm)|(-> & _)]); simpl.
  2:{ eexists. split; [done|]. simpl. by rewrite app_nil_r. }
  destruct Hm as [?|Hm]; [done|].
  assert (d <> []) as Hd by (intros ->; simpl in Hm; lia).
  pose proof (cut_point_pos d Hd) as Hk. rewrite decide_False.
  2:{ intros H%(f_equal length). rewrite length_take in H. simpl in H. lia. }
  destruct (IH _ _ _ Hr' He) as (l & -> & Hc & Hl); [rewrite length_drop; lia|]. simpl.
  eexists. split; [done|]. simpl. rewrite Hc, take_drop. split; [done|].
  rewrite (chunks_cons pos d Hd). destruct l; [constructor|].
  constructor; [constructor|]. eapply Forall_impl; [exact Hl|].
  intros [s b] H. by constructor.
Qed.

End chunks_facts.

(** ** The properties of the chunker *)

Lemma NewChunker_inv r mn avg mx c :
  Chunker.NewChunker r mn avg mx = Ok c ->
  ChunkerWindowSize <= mn <= avg /\ avg <= mx /\
  exists t, precompute (discriminatorFromAvg avg) = Ok t /\
    c = Chunker.mkChunker r mn avg mx 0 [] 0 false 0 (replicate WindowSize Byte.x00) 0 t.
Proof.
  unfold Chunker.NewChunker. repeat (let H := fresh in goal_decide H; [done|]).
  destruct (precompute _) as [t| | |]; simpl; intros [= <-].
  unfold ChunkerWindowSize in *. repeat split; [lia..|]. by exists t.
Qed.

Lemma NewChunker_represents r mn avg mx c :
  Chunker.NewChunker r mn avg mx = Ok c -> mn < mx -> 10 * mx <= maxAlloc ->
  represents (Chunker.test c) (Z.to_nat mn) (Z.to_nat mx) c
    (stream_data (pieces r)) (stream_err (pieces r)) 0.
Proof.
  intros Hn Hlt Hmx. apply NewChunker_inv in Hn as (H1 & H2 & t & _ & ->).
  split; cbn -[Z.mul]; rewrite ?Z2Nat.id; unfold ChunkerWindowSize, WindowSize in *;
    (lia || done || idtac).
Qed.

(** C6. The chunker is a pure function of the bytes: however the reader splits the stream into
    reads, calling Next until it returns no data terminates and produces exactly the chunks of
    the specification, each cut being the first position after the minimum size where the
    hash of the last 48 bytes is a boundary. *)
Theorem drain_refines_chunks r mn avg mx c :
  Chunker.NewChunker r mn avg mx = Ok c -> mn < mx -> 10 * mx <= maxAlloc ->
  stream_err (pieces r) = ErrEOF ->
  let data := stream_data (pieces r) in
  Chunker.drain (S (length data)) c =
  Ok (chunks (Chunker.test c) (Z.to_nat mn) (Z.to_nat mx) (length data) 0 data, None).
Proof.
  intros Hn Hlt Hmx He data. pose proof (NewChunker_represents _ _ _ _ _ Hn Hlt Hmx) as Hr.
  rewrite He in Hr. apply drain_chunks; [apply Hr|exact Hr|lia].
Qed.

Definition ex_reader : Reader :=
  mkReader [(replicate 100 Byte.x61, None); ([], None); (replicate 60 Byte.x62, None)] false.

Definition ex_test : BoundaryTest :=
  Eval vm_compute in
  match precompute (discriminatorFromAvg 64) with Ok t => t | _ => mkBoundaryTest 0 0 0 0 0 0 end.

Definition ex_chunker (r : Reader) : Chunker.Chunker :=
  Chunker.mkChunker r 48 64 96 0 [] 0 false 0 (replicate WindowSize Byte.x00) 0 ex_test.

Lemma ex_new r : Chunker.NewChunker r 48 64 96 = Ok (ex_chunker r).
Proof.
  unfold Chunker.NewChunker. repeat (let H := fresh in goal_decide H; [done|]).
  assert (precompute (discriminatorFromAvg 64) = Ok ex_test) as -> by (vm_compute; reflexivity).
  reflexivity.
Qed.

Lemma drain_refines_chunks_witness :
  Chunker.drain 161 (ex_chunker ex_reader) =
  Ok (chunks ex_test 48 96 160 0 (replicate 100 Byte.x61 ++ replicate 60 Byte.x62), None).
Proof.
  apply (drain_refines_chunks ex_reader 48 64 96 _ (ex_new _));
    [lia|unfold maxAlloc; lia|reflexivity].
Defined.

(** C26. If the minimum size is below the maximum size, then the chunks returned by the chunker are contiguous, start at the offsets it reports, put
    together they are the stream; no chunk is empty or larger than the maximum size, and only
    the last may be as small as the minimum. (With equal sizes, which NewChunker accepts, chunks can have
    a byte more than the maximum: min_eq_max.) *)
Theorem drain_well_chunked r mn avg mx c :
  Chunker.NewChunker r mn avg mx = Ok c -> mn < mx -> 10 * mx <= maxAlloc ->
  stream_err (pieces r) = ErrEOF ->
  exists l, Chunker.drain (S (length (stream_data (pieces r)))) c = Ok (l, None) /\
    well_chunked (Z.to_nat mn) (Z.to_nat mx) 0 (stream_data (pieces r)) l /\
    concat (map snd l) = stream_data (pieces r).
Proof.
  intros Hn Hlt Hmx He. pose proof (NewChunker_represents _ _ _ _ _ Hn Hlt Hmx) as Hr.
  rewrite He in Hr. pose proof (rep_sizes _ _ _ _ _ _ _ Hr) as Hs.
  eexists. split; [apply drain_chunks; [done|exact Hr|lia]|].
  pose proof (chunks_well_chunked (Chunker.test c) _ _ Hs 0 (stream_data (pieces r))) as Hw.
  split; [exact Hw|]. eapply well_chunked_concat, Hw.
Qed.

Lemma drain_well_chunked_witness :
  exists l, Chunker.drain 161 (ex_chunker ex_reader) = Ok (l, None) /\
    concat (map snd l) = stream_data (pieces ex_reader).
Proof.
  destruct (drain_well_chunked ex_reader 48 64 96 _ (ex_new _)) as (l & Hd & _ & Hc);
    [lia|unfold maxAlloc; lia|reflexivity|].
  exists l. split; [exact Hd|exact Hc].
Defined.

(** C36. When the reader fails, nothing it delivered is lost: the chunks before the failure are
    those of the specification, and the call of Next that reports the error returns all the
    bytes left before it. *)
Theorem drain_reports_error r mn avg mx c e :
  Chunker.NewChunker r mn avg mx = Ok c -> mn < mx -> 10 * mx <= maxAlloc ->
  stream_err (pieces r) = e -> e <> ErrEOF ->
  let data := stream_data (pieces r) in
  exists l, Chunker.drain (S (length data)) c = Ok (l, Some e) /\
    concat (map snd l) = data /\
    Forall (fun x => x ∈ chunks (Chunker.test c) (Z.to_nat mn) (Z.to_nat mx) (length data) 0 data)
      (removelast l).
Proof.
  intros Hn Hlt Hmx He Hne data. pose proof (NewChunker_represents _ _ _ _ _ Hn Hlt Hmx) as Hr.
  rewrite He in Hr. pose proof (rep_sizes _ _ _ _ _ _ _ Hr) as Hs.
  destruct (drain_error (Chunker.test c) _ _ Hs c _ e 0 (S (length data)) Hr Hne)
    as (l & Hd & Hc & Hl); [subst data; lia|].
  exists l. split; [exact Hd|]. split; [exact Hc|].
  eapply Forall_impl; [exact Hl|]. by intros [s b].
Qed.

Definition ex_failing : Reader :=
  mkReader [(replicate 100 Byte.x61, None); (replicate 60 Byte.x62, Some Interrupted)] true.

Lemma drain_reports_error_witness :
  exists l, Chunker.drain 161 (ex_chunker ex_failing) = Ok (l, Some Interrupted) /\
    concat (map snd l) = replicate 100 Byte.x61 ++ replicate 60 Byte.x62.
Proof.
  destruct (drain_reports_error ex_failing 48 64 96 _ Interrupted (ex_new _))
    as (l & Hd & Hc & _); [lia|unfold maxAlloc; lia|reflexivity|done|].
  exists l. split; [exact Hd|exact Hc].
Defined.

(** Advance moves the representation, on a seekable reader and on one that does not fail. *)
Lemma Advance_represents t mn mx c d pos n :
  represents t mn mx c d ErrEOF pos ->
  seekable (Chunker.r c) = true \/ clean (pieces (Chunker.r c)) = true ->
  0 <= n <= Z.of_nat (length d) ->
  exists c', Chunker.Advance c n = Ok (None, c') /\
    represents t mn mx c' (drop (Z.to_nat n) d) ErrEOF (pos + n) /\
    seekable (Chunker.r c') = seekable (Chunker.r c).
Proof.
  intros Hr Hc Hn. pose proof Hr as []. unfold Chunker.Advance. goal_decide Hin.
  - rewrite decide_True by lia. eexists. split; [done|]. split; [|done].
    split; cbn -[Z.mul]; try done; [rewrite rep_start0; apply u64_add_l|].
    destruct (Chunker.hitEOF c); destruct rep_data0 as [-> ?]; [done|].
    by rewrite drop_app_le by lia.
  - destruct (Chunker.hitEOF c) eqn:Heof; destruct rep_data0 as [Hd He]; [subst d; lia|].
    rewrite Hd, length_app in Hn. set (k := Z.to_nat (n - Z.of_nat (length (Chunker.buf c)))).
    assert (k <= length (stream_data (pieces (Chunker.r c))))%nat as Hk by (subst k; lia).
    assert (drop (Z.to_nat n) d = drop k (stream_data (pieces (Chunker.r c)))) as Hdrop.
    { rewrite Hd, drop_app_ge by lia. f_equal. subst k. lia. }
    destruct (seekable (Chunker.r c)) eqn:Hseek.
    + eexists. split; [done|]. split; [|done]. destruct (stream_data_seek _ _ Hk) as [Hs1 Hs2].
      split; cbn -[Z.mul]; try done; [rewrite rep_start0; apply u64_add_l|].
      rewrite Hdrop, Hs1, Hs2. by split.
    + destruct Hc as [?|Hc]; [done|]. destruct (copyN_clean _ _ Hc Hk) as (ps' & -> & Hc' & Hs).
      eexists. split; [done|]. split; [|done].
      split; cbn -[Z.mul]; try done; [rewrite rep_start0; apply u64_add_l|].
      rewrite Hdrop, Hs, (clean_err _ Hc'). by split.
Qed.

(** Next leaves the kind of reader alone. *)
Lemma fill_loop_seekable : forall fuel room rd b e rd',
  Chunker.fill_loop fuel room rd = Ok (b, e, rd') -> seekable rd' = seekable rd.
Proof.
  induction fuel as [|fuel IH]; intros room rd b e rd'; cbn; goal_decide Hz; try done;
    try (by intros [= _ _ <-]).
  unfold Read. destruct (pieces rd) as [|[b0 e0] ps]; [by intros [= _ _ <-]|].
  goal_decide Hlen; [destruct e0 as [e0|]; [by intros [= _ _ <-]|]|];
    match goal with |- context [Chunker.fill_loop fuel ?x ?y] =>
      destruct (Chunker.fill_loop fuel x y) as [[[b1 e1] r1]| | |] eqn:E end; try done;
    intros [= _ _ <-]; by apply IH in E.
Qed.

Lemma Next_scan_seekable c s b e c' :
  Chunker.Next_scan c = Ok (s, b, e, c') -> seekable (Chunker.r c') = seekable (Chunker.r c).
Proof.
  assert (Hsplit : forall c i e s b e' c', Chunker.split c i e = Ok (s, b, e', c') ->
    seekable (Chunker.r c') = seekable (Chunker.r c)).
  { intros c0 i e0 s0 b0 e' c0'. unfold Chunker.split. goal_decide Hi; [|done]. by intros [= _ _ _ <-]. }
  unfold Chunker.Next_scan. goal_decide Hle; [by apply Hsplit|]. goal_decide Hmin; [|done].
  destruct (Chunker.scan _ _ _ _ _ _ _) as [[[[p v] i] win]| | |]; try done. cbn.
  intros Hs. by apply Hsplit in Hs.
Qed.

Lemma Next_seekable c s b e c' :
  Chunker.Next c = Ok (s, b, e, c') -> seekable (Chunker.r c') = seekable (Chunker.r c).
Proof.
  unfold Chunker.Next. goal_decide Hlt; [|apply Next_scan_seekable].
  destruct (Chunker.fillBuffer c) as [[[n err] c1]| | |] eqn:Hf; try done. cbn.
  assert (E : seekable (Chunker.r c1) = seekable (Chunker.r c)).
  { unfold Chunker.fillBuffer in Hf. destruct (Chunker.hitEOF c); [by injection Hf as _ _ <-|].
    destruct (if decide _ then _ else _) as [cap| | |]; try done. cbn [mbind outcome_bind] in Hf.
    destruct (Chunker.fill_loop _ _ _) as [[[b1 e1] r1]| | |] eqn:El; try done. cbn in Hf.
    injection Hf as _ _ <-. cbn. by apply fill_loop_seekable in El. }
  destruct err as [e0|].
  - unfold Chunker.split. goal_decide Hi; [|done]. by intros [= _ _ _ <-].
  - intros Hn. apply Next_scan_seekable in Hn. congruence.
Qed.

(** C27. Advance by n bytes, whether they are buffered, skipped with Seek or read and discarded,
    leaves a chunker that behaves like one started at that position of the stream. *)
Theorem Advance_resumes t mn mx c d pos n :
  represents t mn mx c d ErrEOF pos -> clean (pieces (Chunker.r c)) = true ->
  0 <= n <= Z.of_nat (length d) ->
  exists c', Chunker.Advance c n = Ok (None, c') /\
    let d' := drop (Z.to_nat n) d in
    Chunker.drain (S (length d')) c' = Ok (chunks t mn mx (length d') (pos + n) d', None).
Proof.
  intros Hr Hc Hn. destruct (Advance_represents _ _ _ _ _ _ n Hr (or_intror Hc) Hn) as (c' & Ha & Hr' & _).
  exists c'. split; [done|]. intros d'. apply drain_chunks; [apply Hr|exact Hr'|lia].
Qed.

Lemma Advance_resumes_witness :
  exists c', Chunker.Advance (ex_chunker ex_reader) 100 = Ok (None, c') /\
    Chunker.drain 61 c' = Ok (chunks ex_test 48 96 60 100 (replicate 60 Byte.x62), None).
Proof.
  destruct (Advance_resumes _ _ _ _ _ _ 100
    (NewChunker_represents ex_reader 48 64 96 _ (ex_new _) ltac:(lia) ltac:(unfold maxAlloc; lia))
    eq_refl) as (c' & Ha & Hd); [vm_compute; split; discriminate|].
  exists c'. split; [exact Ha|exact Hd].
Defined.

(** NewChunker accepts exactly the sizes with 48 <= min <= avg <= max (and a discriminator
    that is not zero), and reports an error for all others. *)
Theorem NewChunker_accepts r mn avg mx :
  discriminatorFromAvg avg <> 0 ->
  match Chunker.NewChunker r mn avg mx with
  | Ok c => ChunkerWindowSize <= mn <= avg /\ avg <= mx /\
            hDiscriminator (Chunker.test c) = discriminatorFromAvg avg
  | Err _ => ~ (ChunkerWindowSize <= mn <= avg /\ avg <= mx)
  | _ => False
  end.
Proof.
  intros Hd. pose proof (discriminatorFromAvg_range avg) as Hr. unfold is_u32 in Hr.
  destruct (precompute_spec (discriminatorFromAvg avg)) as (_ & _ & _ & _ & Hp); [lia|].
  unfold Chunker.NewChunker. repeat (let H := fresh in goal_decide H; [lia|]). rewrite Hp. simpl. lia.
Qed.

Lemma NewChunker_accepts_witness :
  discriminatorFromAvg 65536 <> 0 /\
  exists e, Chunker.NewChunker ex_reader 16384 65536 1024 = Err e.
Proof.
  assert (discriminatorFromAvg 65536 <> 0) as H by (rewrite discriminator_default; lia).
  split; [exact H|].
  pose proof (NewChunker_accepts ex_reader 16384 65536 1024 H) as Hn.
  destruct (Chunker.NewChunker ex_reader 16384 65536 1024) as [c|e| |];
    [unfold ChunkerWindowSize in Hn; lia|by exists e|destruct Hn..].
Defined.

(** When the average size gives a discriminator that is a power of two, the content never
    decides a cut: every chunk but the last has exactly the maximum size. *)
Theorem power_of_two_fixed_size r mn avg mx c d :
  Chunker.NewChunker r mn avg mx = Ok c ->
  0 < discriminatorFromAvg avg -> power_of_two (discriminatorFromAvg avg) = true ->
  (Z.to_nat mn < length d)%nat -> mn < mx ->
  cut_point (Chunker.test c) (Z.to_nat mn) (Z.to_nat mx) d = Nat.min (length d) (Z.to_nat mx).
Proof.
  intros Hn Hpos Hp Hl Hlt. apply NewChunker_inv in Hn as (H1 & H2 & t & Ht & ->).
  unfold ChunkerWindowSize in *.
  unfold cut_point. rewrite decide_False by lia. cbn [Chunker.test].
  match goal with |- first_from ?f ?p ?k = _ =>
    destruct (first_from_range f p k) as [_ Hhi]; pose proof (first_from_stops f p k) as Hst end.
  destruct (decide (first_from (fun p => fast_boundary t (hash_at d p)) (S (Z.to_nat mn))
    (Nat.min (length d) (Z.to_nat mx) - S (Z.to_nat mn)) < S (Z.to_nat mn) +
    (Nat.min (length d) (Z.to_nat mx) - S (Z.to_nat mn)))%nat) as [H|]; [|lia].
  apply Hst in H. pose proof (discriminatorFromAvg_range avg) as Hr. unfold is_u32 in Hr.
  apply (fast_boundary_divides (discriminatorFromAvg avg) t) in H; [|lia|done].
  destruct H. congruence.
Qed.

Lemma power_of_two_fixed_size_witness :
  exists c, Chunker.NewChunker ex_reader 48 1365 4096 = Ok c /\
    cut_point (Chunker.test c) 48 4096 (replicate 5000 Byte.x61) = 4096%nat.
Proof.
  eexists. split; [vm_compute; reflexivity|].
  rewrite (power_of_two_fixed_size ex_reader 48 1365 4096 _ (replicate 5000 Byte.x61));
    [rewrite length_replicate; lia|vm_compute; reflexivity
    |rewrite discriminator_1365; lia|rewrite discriminator_1365; reflexivity
    |rewrite length_replicate; lia|lia].
Defined.

(** With equal minimum and maximum sizes, which NewChunker accepts, a chunk can be one byte
    larger than the maximum. *)
Example min_eq_max :
  exists c c' b, Chunker.NewChunker ex_reader 64 64 64 = Ok c /\
    Chunker.Next c = Ok (0, b, None, c') /\ length b = 65%nat.
Proof.
  do 3 eexists. split; [vm_compute; reflexivity|]. split; [vm_compute; reflexivity|].
  reflexivity.
Qed.
