(* ===== verification/FileMode.v ===== *)
(** * FileMode: the file types and permission bits of filesystem.go

    Go's [os.FileMode] and the [st_mode] of stat are both bit sets in a uint32; the archive
    stores the latter. [StatModeToFilemode] and [FilemodeToStatMode] convert, and the theorems
    show that they are inverse on the modes a file can have. *)

From S2P Require Import Prelude.

(** ** Bits of os.FileMode *)

Definition ModeDir : Z := Z.shiftl 1 31.
Definition ModeSymlink : Z := Z.shiftl 1 27.
Definition ModeDevice : Z := Z.shiftl 1 26.
Definition ModeNamedPipe : Z := Z.shiftl 1 25.
Definition ModeSocket : Z := Z.shiftl 1 24.
Definition ModeSetuid : Z := Z.shiftl 1 23.
Definition ModeSetgid : Z := Z.shiftl 1 22.
Definition ModeCharDevice : Z := Z.shiftl 1 21.
Definition ModeSticky : Z := Z.shiftl 1 20.
Definition ModeIrregular : Z := Z.shiftl 1 19.
Definition ModePerm : Z := 511.

Definition lors (l : list Z) : Z := foldr Z.lor 0 l.

Definition ModeType : Z :=
  lors [ModeDir; ModeSymlink; ModeNamedPipe; ModeSocket; ModeDevice; ModeCharDevice;
        ModeIrregular].

(** ** Bits of st_mode (octal 0170000 etc. in the C headers) *)

Definition S_IFMT : Z := 0xf000.
Definition S_IFSOCK : Z := 0xc000.
Definition S_IFLNK : Z := 0xa000.
Definition S_IFREG : Z := 0x8000.
Definition S_IFBLK : Z := 0x6000.
Definition S_IFDIR : Z := 0x4000.
Definition S_IFCHR : Z := 0x2000.
Definition S_IFIFO : Z := 0x1000.
Definition S_ISUID : Z := 0x800.
Definition S_ISGID : Z := 0x400.
Definition S_ISVTX : Z := 0x200.

Definition has (m bit : Z) : bool := negb (bool_decide (Z.land m bit = 0)).

Definition IsDir (m : Z) : bool := has m ModeDir.
Definition IsRegular (m : Z) : bool := bool_decide (Z.land m ModeType = 0).
Definition IsSymlink (m : Z) : bool := has m ModeSymlink.
Definition IsDevice (m : Z) : bool := has m ModeDevice.
(** The same test as a function of the mode, used by tar and the writers. *)
Definition isDevice (m : Z) : bool := has m ModeDevice.

(** Converts syscall mode to Go's os.Filemode value. *)
Definition StatModeToFilemode (mode : Z) : Z :=
  let fm := Z.land mode 511 in
  let t := Z.land mode S_IFMT in
  let fm :=
    if decide (t = S_IFBLK) then Z.lor fm ModeDevice
    else if decide (t = S_IFCHR) then Z.lor fm (Z.lor ModeDevice ModeCharDevice)
    else if decide (t = S_IFDIR) then Z.lor fm ModeDir
    else if decide (t = S_IFIFO) then Z.lor fm ModeNamedPipe
    else if decide (t = S_IFLNK) then Z.lor fm ModeSymlink
    else if decide (t = S_IFSOCK) then Z.lor fm ModeSocket
    else fm in
  let fm := if has mode S_ISGID then Z.lor fm ModeSetgid else fm in
  let fm := if has mode S_ISUID then Z.lor fm ModeSetuid else fm in
  if has mode S_ISVTX then Z.lor fm ModeSticky else fm.

(** Converts Go's os.Filemode value into the syscall equivalent. *)
Definition FilemodeToStatMode (mode : Z) : Z :=
  let o := Z.land mode ModePerm in
  let m := Z.land mode ModeType in
  let o :=
    if decide (m = ModeDevice) then Z.lor o S_IFBLK
    else if decide (m = Z.lor ModeDevice ModeCharDevice) then Z.lor o S_IFCHR
    else if decide (m = ModeDir) then Z.lor o S_IFDIR
    else if decide (m = ModeNamedPipe) then Z.lor o S_IFIFO
    else if decide (m = ModeSymlink) then Z.lor o S_IFLNK
    else if decide (m = ModeSocket) then Z.lor o S_IFSOCK
    else Z.lor o S_IFREG in
  let o := if has mode ModeSetuid then Z.lor o S_ISUID else o in
  let o := if has mode ModeSetgid then Z.lor o S_ISGID else o in
  if has mode ModeSticky then Z.lor o S_ISVTX else o.

(** ** Valid modes *)

(** The [st_mode] of a file: one of the seven file types and twelve permission bits. *)
Definition stat_types : list Z :=
  [S_IFREG; S_IFDIR; S_IFLNK; S_IFBLK; S_IFCHR; S_IFIFO; S_IFSOCK].

Definition valid_stat_mode (m : Z) : bool :=
  bool_decide (0 <= m < 2 ^ 16) && bool_decide (Z.land m S_IFMT ∈ stat_types).

(** A Go mode that some stat mode produces. *)
Definition valid_filemode (m : Z) : bool :=
  bool_decide (StatModeToFilemode (FilemodeToStatMode m) = m) &&
  valid_stat_mode (FilemodeToStatMode m).

Definition stat_round_trip (m : Z) : bool :=
  negb (valid_stat_mode m) || bool_decide (FilemodeToStatMode (StatModeToFilemode m) = m).

(** The n integers from lo on, for exhaustive checks. *)
Fixpoint all_from (f : Z -> bool) (n : nat) (lo : Z) : bool :=
  match n with O => true | S n => f lo && all_from f n (lo + 1) end.

Lemma all_from_spec f n lo z :
  all_from f n lo = true -> lo <= z < lo + Z.of_nat n -> f z = true.
Proof.
  revert lo. induction n as [|n IH]; intros lo; simpl; [lia|].
  intros [H1 H2]%andb_true_iff Hz. destruct (decide (z = lo)) as [->|]; [done|].
  apply (IH (lo + 1)); [done|lia].
Qed.

Lemma stat_round_trip_all : all_from stat_round_trip (Z.to_nat (2 ^ 16)) 0 = true.
Proof. vm_compute. reflexivity. Qed.

Lemma stat_mode_inverse m :
  valid_stat_mode m = true -> FilemodeToStatMode (StatModeToFilemode m) = m.
Proof.
  intros Hm. assert (stat_round_trip m = true) as H.
  { apply (all_from_spec _ _ _ m stat_round_trip_all).
    unfold valid_stat_mode in Hm. apply andb_true_iff in Hm as [Hr _].
    apply bool_decide_eq_true in Hr. lia. }
  unfold stat_round_trip in H. rewrite Hm in H. by apply bool_decide_eq_true in H.
Qed.

Lemma StatModeToFilemode_valid m :
  valid_stat_mode m = true -> valid_filemode (StatModeToFilemode m) = true.
Proof.
  intros Hm. unfold valid_filemode. rewrite stat_mode_inverse, Hm by done.
  by rewrite bool_decide_true.
Qed.

Lemma valid_filemode_inverse m :
  valid_filemode m = true -> StatModeToFilemode (FilemodeToStatMode m) = m.
Proof. intros [H _]%andb_true_iff. by apply bool_decide_eq_true in H. Qed.

Lemma FilemodeToStatMode_range m :
  valid_filemode m = true -> 0 <= FilemodeToStatMode m < 2 ^ 16.
Proof.
  intros [_ H]%andb_true_iff. apply andb_true_iff in H as [H _].
  by apply bool_decide_eq_true in H.
Qed.

(** The two conversions are inverse: every mode stat can report survives the way into the
    archive's representation in memory and back, its file type and all twelve permission bits
    included, and the Go mode it becomes survives being stored and read again. *)
Theorem file_mode_round_trip m :
  valid_stat_mode m = true ->
  FilemodeToStatMode (StatModeToFilemode m) = m /\
  StatModeToFilemode (FilemodeToStatMode (StatModeToFilemode m)) = StatModeToFilemode m.
Proof. intros H. by rewrite !stat_mode_inverse. Qed.

(** 0104755: a regular setuid file *)
Lemma file_mode_round_trip_witness :
  FilemodeToStatMode (StatModeToFilemode 35309) = 35309 /\
  StatModeToFilemode 35309 = Z.lor ModeSetuid 493.
Proof.
  split; [apply (file_mode_round_trip 35309); reflexivity | reflexivity].
Defined.
