(* ===== verification/Path.v ===== *)
(** * Path: Clean, Join, Dir and Base of Go's path package

    The archive code names files by slash-separated paths. The functions are modelled on the
    elements between the slashes: [norm] resolves them against a stack, [render] writes the
    stack. The lemmas give what a directory walk needs: joining a name to a clean path pushes
    it, Dir takes it off again, and a clean path determines its stack. filepath's functions are
    the same on Unix. *)

From S2P Require Import Prelude.

Definition slash : byte := Byte.x2f.
Definition dot : bytes := str ".".
Definition dotdot : bytes := str "..".

(** The elements between the slashes. *)
Fixpoint split_slash (p : bytes) : list bytes :=
  match p with
  | [] => [[]]
  | b :: p =>
    let l := split_slash p in
    if decide (b = slash) then [] :: l
    else match l with
         | e :: l => (b :: e) :: l
         | [] => [[b]]
         end
  end.

Fixpoint join_slash (l : list bytes) : bytes :=
  match l with
  | [] => []
  | [e] => e
  | e :: l => e ++ slash :: join_slash l
  end.

Definition rooted (p : bytes) : bool := bool_decide (head p = Some slash).

(** One element against the stack of those before it (the innermost last). *)
Definition push (r : bool) (st : list bytes) (e : bytes) : list bytes :=
  if decide (e = [] \/ e = dot) then st
  else if decide (e = dotdot) then
    match last st with
    | Some x => if decide (x = dotdot) then st ++ [dotdot] else removelast st
    | None => if r then [] else [dotdot]
    end
  else st ++ [e].

Definition norm (r : bool) (l : list bytes) : list bytes := foldl (push r) [] l.

Definition render (r : bool) (st : list bytes) : bytes :=
  if r then slash :: join_slash st
  else if decide (st = []) then dot else join_slash st.

Definition Clean (p : bytes) : bytes := render (rooted p) (norm (rooted p) (split_slash p)).

(** Join of two elements: empty ones are ignored. *)
Definition Join (a b : bytes) : bytes :=
  if decide (a = []) then (if decide (b = []) then [] else Clean b)
  else if decide (b = []) then Clean a else Clean (a ++ slash :: b).

(** Everything up to the last slash, and what follows it. *)
Definition dir_part (p : bytes) : bytes :=
  let l := split_slash p in
  if decide (length l <= 1)%nat then [] else join_slash (removelast l) ++ [slash].

Definition Dir (p : bytes) : bytes := Clean (dir_part p).

Fixpoint strip_slashes (p : bytes) : bytes :=
  match p with
  | [] => []
  | b :: p =>
    let q := strip_slashes p in
    if decide (b = slash /\ q = []) then [] else b :: q
  end.

Definition Base (p : bytes) : bytes :=
  if decide (p = []) then dot
  else match strip_slashes p with
       | [] => [slash]
       | q => default [] (last (split_slash q))
       end.

(** A name of a directory entry. *)
Definition valid_name (c : bytes) : Prop := c <> [] /\ (slash ∉ c) /\ c <> dot /\ c <> dotdot.

(** What the elements of a clean path look like. *)
Definition normal (r : bool) (st : list bytes) : Prop :=
  norm r st = st /\ Forall (fun e => e <> [] /\ (slash ∉ e)) st.

#[global] Instance valid_name_dec c : Decision (valid_name c).
Proof. unfold valid_name. apply _. Defined.

#[global] Instance normal_dec r st : Decision (normal r st).
Proof. unfold normal. apply _. Defined.

(** ** Splitting *)

Lemma split_slash_ne p : split_slash p <> [].
Proof.
  destruct p as [|b p]; [done|]. cbn. destruct (decide (b = slash)); [done|].
  by destruct (split_slash p).
Qed.

Lemma split_name e : slash ∉ e -> split_slash e = [e].
Proof.
  induction e as [|b e IH]; [done|]. intros [H1 H2]%not_elem_of_cons. cbn.
  rewrite decide_False by congruence. by rewrite IH.
Qed.

Lemma split_app_slash e p : slash ∉ e -> split_slash (e ++ slash :: p) = e :: split_slash p.
Proof.
  induction e as [|b e IH]; cbn.
  - intros _. by rewrite decide_True.
  - intros [H1 H2]%not_elem_of_cons. rewrite decide_False by congruence. by rewrite IH.
Qed.

Lemma split_join l : l <> [] -> Forall (fun e => slash ∉ e) l -> split_slash (join_slash l) = l.
Proof.
  intros Hl Hall. induction Hall as [|e l He Hall IH]; [done|].
  destruct l as [|e' l]; [by apply split_name|].
  change (join_slash (e :: e' :: l)) with (e ++ slash :: join_slash (e' :: l)).
  rewrite split_app_slash by done. by rewrite IH.
Qed.

Lemma split_app p q : exists l, split_slash p = l /\
  split_slash (p ++ slash :: q) = l ++ split_slash q.
Proof.
  exists (split_slash p). split; [done|]. induction p as [|b p IH]; cbn.
  - by rewrite decide_True.
  - destruct (decide (b = slash)); [by rewrite IH|]. rewrite IH.
    pose proof (split_slash_ne p). by destruct (split_slash p).
Qed.

Lemma join_snoc l e : l <> [] -> join_slash (l ++ [e]) = join_slash l ++ slash :: e.
Proof.
  induction l as [|a l IH]; [done|]. intros _. destruct l as [|b l]; [done|].
  change (join_slash ((a :: b :: l) ++ [e])) with (a ++ slash :: join_slash ((b :: l) ++ [e])).
  rewrite IH by done. change (join_slash (a :: b :: l)) with (a ++ slash :: join_slash (b :: l)).
  by rewrite <- app_assoc.
Qed.

(** ** Normal stacks *)

Lemma norm_snoc r l e : norm r (l ++ [e]) = push r (norm r l) e.
Proof. unfold norm. by rewrite foldl_app. Qed.

Lemma push_name r st c : valid_name c -> push r st c = st ++ [c].
Proof.
  intros (H1 & H2 & H3 & H4). unfold push. rewrite decide_False by tauto. by rewrite decide_False.
Qed.

Lemma push_cases r st e :
  push r st e = st \/ (push r st e = removelast st /\ st <> []) \/
  (push r st e = st ++ [e] /\ e <> []).
Proof.
  unfold push. destruct (decide (e = [] \/ e = dot)) as [|He]; [by left|].
  destruct (decide (e = dotdot)) as [->|]; [|right; right; split; [done|tauto]].
  destruct (last st) as [x|] eqn:Hx.
  - destruct (decide (x = dotdot)); [right; right; split; [done|discriminate]|]. right. left. split; [done|].
    by intros ->.
  - apply last_None in Hx as ->. destruct r; [by left|right; right; split; [done|discriminate]].
Qed.

Lemma length_removelast {A} (l : list A) : length (removelast l) = (length l - 1)%nat.
Proof.
  induction l as [|a l IH]; [done|]. destruct l as [|b l]; [done|].
  change (removelast (a :: b :: l)) with (a :: removelast (b :: l)). cbn [length] in *. lia.
Qed.

Lemma length_push r st e : (length (push r st e) <= S (length st))%nat.
Proof.
  destruct (push_cases r st e) as [->|[[-> _]|[-> _]]];
    rewrite ?length_removelast, ?length_app; simpl; lia.
Qed.

Lemma length_norm r l : (length (norm r l) <= length l)%nat.
Proof.
  induction l as [|e l IH] using rev_ind; [done|].
  rewrite norm_snoc, length_app. pose proof (length_push r (norm r l) e). simpl. lia.
Qed.

(** A prefix of a normal stack is normal. *)
Lemma norm_prefix r l e : norm r (l ++ [e]) = l ++ [e] -> norm r l = l.
Proof.
  rewrite norm_snoc. intros H. pose proof (length_norm r l) as Hl.
  destruct (push_cases r (norm r l) e) as [E|[[E _]|[E _]]]; rewrite E in H.
  - apply (f_equal length) in H. rewrite length_app in H. simpl in H. lia.
  - apply (f_equal length) in H. rewrite length_removelast, length_app in H. simpl in H. lia.
  - by apply app_inj_tail in H as [-> _].
Qed.

Lemma push_normal r st e : norm r st = st -> norm r (push r st e) = push r st e.
Proof.
  intros H. destruct (push_cases r st e) as [->|[[-> Hne]|[E _]]]; [done| |].
  - destruct st as [|x st _] using rev_ind; [done|]. rewrite removelast_last.
    by apply (norm_prefix r _ x).
  - rewrite E, norm_snoc, H. done.
Qed.

Lemma norm_idem r l : norm r (norm r l) = norm r l.
Proof.
  induction l as [|e l IH] using rev_ind; [done|]. rewrite norm_snoc. by apply push_normal.
Qed.

Lemma removelast_Forall {A} (P : A -> Prop) l : Forall P l -> Forall P (removelast l).
Proof.
  destruct l as [|x l _] using rev_ind; [done|]. rewrite removelast_last. by intros [? _]%Forall_app.
Qed.

Lemma norm_names r l :
  Forall (fun e => slash ∉ e) l -> Forall (fun e => e <> [] /\ (slash ∉ e)) (norm r l).
Proof.
  induction l as [|e l IH] using rev_ind; [constructor|].
  intros [Hl He]%Forall_app. inversion_clear He as [|? ? He' _]. rewrite norm_snoc.
  destruct (push_cases r (norm r l) e) as [->|[[-> _]|[-> Hne]]]; [by apply IH| |].
  - apply removelast_Forall. by apply IH.
  - apply Forall_app. split; [by apply IH|]. constructor; [split; [exact Hne|exact He']|constructor].
Qed.

Lemma split_no_slash p : Forall (fun e => slash ∉ e) (split_slash p).
Proof.
  induction p as [|b p IH]; cbn.
  - apply Forall_singleton. apply not_elem_of_nil.
  - destruct (decide (b = slash)) as [|Hb].
    + constructor; [apply not_elem_of_nil|done].
    + inversion IH as [|e l He Hl E]; subst.
      * apply Forall_singleton. apply not_elem_of_cons. split; [congruence|apply not_elem_of_nil].
      * constructor; [|done]. apply not_elem_of_cons. split; [congruence|done].
Qed.

Lemma normal_norm p : normal (rooted p) (norm (rooted p) (split_slash p)).
Proof. split; [apply norm_idem|]. apply norm_names, split_no_slash. Qed.

Lemma normal_snoc r st c : normal r st -> valid_name c -> normal r (st ++ [c]).
Proof.
  intros [H1 H2] Hc. split.
  - by rewrite norm_snoc, H1, push_name.
  - apply Forall_app. split; [done|]. apply Forall_singleton. split; apply Hc.
Qed.

(** ** Clean paths *)

Lemma rooted_render r st : normal r st -> rooted (render r st) = r.
Proof.
  intros [_ H]. unfold rooted, render. destruct r; [done|]. apply bool_decide_eq_false.
  destruct (decide (st = [])) as [|Hne]; [done|]. destruct st as [|e st]; [done|].
  inversion H as [|? ? [He Hs] _]; subst. destruct e as [|b e]; [done|].
  apply not_elem_of_cons in Hs as [Hb _]. destruct st; cbn; congruence.
Qed.

Lemma split_render r st : normal r st -> norm r (split_slash (render r st)) = st.
Proof.
  intros [H1 H2]. unfold render. assert (Forall (fun e => slash ∉ e) st) as H3.
  { eapply Forall_impl; [exact H2|]. by intros ? [_ ?]. }
  destruct r.
  - change (slash :: join_slash st) with ([] ++ slash :: join_slash st).
    rewrite split_app_slash by apply not_elem_of_nil. destruct (decide (st = [])) as [->|].
    { done. }
    rewrite split_join by done. done.
  - destruct (decide (st = [])) as [->|]; [done|]. by rewrite split_join.
Qed.

Lemma Clean_render r st : normal r st -> Clean (render r st) = render r st.
Proof. intros H. unfold Clean. by rewrite rooted_render, split_render. Qed.

(** A clean path determines its stack. *)
Lemma render_inj r st st' : normal r st -> normal r st' -> render r st = render r st' -> st = st'.
Proof. intros H H' E. rewrite <- (split_render r st H), E. by apply split_render. Qed.

Lemma render_ne r st : normal r st -> render r st <> [].
Proof.
  intros [_ H]. unfold render. destruct r; [done|].
  destruct (decide (st = [])); [done|]. destruct st as [|e st]; [done|].
  inversion H as [|? ? [He _] _]; subst. destruct e; [done|]. by destruct st.
Qed.

Lemma Join_name r st c :
  normal r st -> valid_name c -> Join (render r st) c = render r (st ++ [c]).
Proof.
  intros Hn Hc. pose proof (render_ne r st Hn) as Hne. unfold Join. rewrite decide_False by done.
  rewrite decide_False by apply Hc. unfold Clean.
  assert (rooted (render r st ++ slash :: c) = r) as ->.
  { rewrite <- (rooted_render r st Hn) at 2. unfold rooted. by destruct (render r st). }
  f_equal. destruct (split_app (render r st) c) as (l & Hl & ->).
  rewrite (split_name c) by apply Hc. rewrite norm_snoc, <- Hl, split_render by done.
  by apply push_name.
Qed.

Lemma Join_empty r st : normal r st -> Join (render r st) [] = render r st.
Proof.
  intros Hn. pose proof (render_ne r st Hn). unfold Join. rewrite decide_False by done.
  by apply Clean_render.
Qed.

Lemma dir_part_snoc r st c :
  normal r (st ++ [c]) ->
  dir_part (render r (st ++ [c])) = if decide (st = []) then (if r then [slash] else []) else render r st ++ [slash].
Proof.
  intros [_ H]. unfold render. rewrite (decide_False (P := st ++ [c] = [])) by (by destruct st).
  assert (Forall (fun e => slash ∉ e) (st ++ [c])) as H3.
  { eapply Forall_impl; [exact H|]. by intros ? [_ ?]. }
  assert (split_slash (join_slash (st ++ [c])) = st ++ [c]) as Es
    by (apply split_join; [by destruct st|done]).
  unfold dir_part. destruct r.
  - change (slash :: join_slash (st ++ [c])) with ([] ++ slash :: join_slash (st ++ [c])).
    rewrite split_app_slash, Es by apply not_elem_of_nil. rewrite decide_False by (rewrite length_cons, length_app; simpl; lia).
    change ([] :: st ++ [c]) with (([] :: st) ++ [c]). rewrite removelast_last.
    destruct st; [done|]. by rewrite decide_False.
  - rewrite Es, removelast_last. destruct (decide (st = [])) as [->|]; [done|].
    rewrite length_app. simpl. rewrite decide_False; [done|]. destruct st; [done|simpl; lia].
Qed.

Lemma Dir_snoc r st c : normal r (st ++ [c]) -> Dir (render r (st ++ [c])) = render r st.
Proof.
  intros H. assert (normal r st) as Hn.
  { destruct H as [H1 H2]. split; [by apply norm_prefix in H1|]. by apply Forall_app in H2 as [? _]. }
  unfold Dir. rewrite dir_part_snoc by done. destruct (decide (st = [])) as [->|]; [by destruct r|].
  unfold Clean.
  assert (rooted (render r st ++ [slash]) = r) as ->.
  { rewrite <- (rooted_render r st Hn) at 2. unfold rooted. pose proof (render_ne r st Hn). by destruct (render r st). }
  destruct (split_app (render r st) []) as (l & Hl & ->).
  change (split_slash []) with [[] : bytes]. rewrite norm_snoc, <- Hl, split_render by done. done.
Qed.

Lemma strip_name p : (slash ∉ p) -> strip_slashes p = p.
Proof.
  induction p as [|b p IH]; [done|]. intros [Hb Hp]%not_elem_of_cons. cbn.
  rewrite IH by done. rewrite decide_False; [done|]. intros [? _]. congruence.
Qed.

Lemma Base_name c : valid_name c -> Base c = c.
Proof.
  intros (H1 & H2 & _). unfold Base. rewrite decide_False, strip_name by done.
  destruct c; [done|]. by rewrite split_name.
Qed.

Lemma Clean_ne p : Clean p <> [].
Proof. unfold Clean. apply render_ne, normal_norm. Qed.

(** path.Join of any number of elements. *)
Definition JoinAll (l : list bytes) : bytes :=
  match filter (fun e => e <> []) l with [] => [] | l => Clean (join_slash l) end.

Lemma JoinAll_rooted a b :
  valid_name a -> valid_name b -> JoinAll [[slash]; a; b] = slash :: a ++ slash :: b.
Proof.
  intros Ha Hb. unfold JoinAll. rewrite !filter_cons_True by (by apply Ha || by apply Hb || done).
  rewrite filter_nil. cbn [join_slash app]. unfold Clean. cbn [rooted head].
  change (rooted (slash :: slash :: a ++ slash :: b)) with true.
  change (slash :: slash :: a ++ slash :: b) with ([] ++ slash :: ([] ++ slash :: (a ++ slash :: b))).
  rewrite split_app_slash by apply not_elem_of_nil. rewrite split_app_slash by apply not_elem_of_nil.
  rewrite split_app_slash by apply Ha. rewrite split_name by apply Hb.
  change (norm true [[]; []; a; b]) with (push true (push true [] a) b).
  rewrite push_name by done. by rewrite push_name.
Qed.

Lemma JoinAll_pair a b : valid_name a -> valid_name b -> JoinAll [a; b] = a ++ slash :: b.
Proof.
  intros Ha Hb. unfold JoinAll. rewrite !filter_cons_True by (by apply Ha || by apply Hb || done).
  rewrite filter_nil. cbn [join_slash]. unfold Clean.
  assert (rooted (a ++ slash :: b) = false) as ->.
  { destruct Ha as (H1 & H2 & _). destruct a as [|x a]; [done|]. apply not_elem_of_cons in H2 as [Hx _].
    apply bool_decide_eq_false. cbn. congruence. }
  rewrite split_app_slash by apply Ha. rewrite split_name by apply Hb.
  change (norm false [a; b]) with (push false (push false [] a) b).
  rewrite push_name by done. by rewrite push_name.
Qed.

Lemma join_split d : join_slash (split_slash d) = d.
Proof.
  induction d as [|b d IH]; [done|]. cbn [split_slash]. pose proof (split_slash_ne d) as Hne.
  destruct (split_slash d) as [|e l]; [done|]. destruct (decide (b = slash)) as [->|].
  - change (slash :: join_slash (e :: l) = slash :: d). by rewrite IH.
  - rewrite <- IH. by destruct l.
Qed.

(** The last element of a path that does not end with a slash. *)
Lemma Base_part p c : c <> [] -> (slash ∉ c) -> Base (p ++ slash :: c) = c.
Proof.
  intros H1 H2. unfold Base. rewrite decide_False by (by destruct p).
  assert (strip_slashes (p ++ slash :: c) = p ++ slash :: c) as Hs.
  { induction p as [|x p IH]; cbn [app strip_slashes].
    - rewrite strip_name by done. by rewrite decide_False by tauto.
    - rewrite IH. rewrite decide_False; [done|]. intros [_ ?]. by destruct p. }
  rewrite Hs. destruct (p ++ slash :: c) as [|x l'] eqn:E2; [by destruct p|]. rewrite <- E2.
  destruct (split_app p c) as (l & _ & E). by rewrite E, split_name, last_snoc by done.
Qed.

Lemma Base_last p c : valid_name c -> Base (p ++ slash :: c) = c.
Proof. intros (H1 & H2 & _). by apply Base_part. Qed.

(** A path that does not end with a slash is its Dir and its Base. *)
Lemma Join_Dir_Base p : last p <> Some slash -> valid_name (Base p) -> Join (Dir p) (Base p) = Clean p.
Proof.
  intros Hlast Hv. destruct (decide (slash ∈ p)) as [Hin|Hin].
  - apply list_elem_of_split_r in Hin as (d & c & -> & Hc).
    assert (c <> []) as Hne by (intros ->; by rewrite last_snoc in Hlast).
    rewrite Base_part in * by done.
    assert (Hd : Dir (d ++ slash :: c) = render (rooted (d ++ [slash])) (norm (rooted (d ++ [slash])) (split_slash (d ++ [slash])))).
    { unfold Dir, dir_part. destruct (split_app d c) as (l & Hl & ->). rewrite (split_name c), removelast_last by done.
      assert (length l <> 0)%nat by (subst l; by destruct (split_slash d) eqn:E; [apply split_slash_ne in E|]).
      rewrite decide_False by (rewrite length_app; cbn; lia). subst l. by rewrite join_split. }
    rewrite Hd, Join_name by (done || apply normal_norm). unfold Clean.
    assert (rooted (d ++ slash :: c) = rooted (d ++ [slash])) as -> by (by destruct d).
    f_equal. destruct (split_app d c) as (l & Hl & ->), (split_app d []) as (l' & Hl' & ->). subst.
    rewrite (split_name c) by done. change (split_slash []) with [[] : bytes]. rewrite !norm_snoc, (push_name _ _ c) by done.
    done.
  - assert (p <> []) as Hne by (intros ->; destruct Hv as (_ & _ & H & _); by apply H).
    assert (Base p = p) as Eb.
    { unfold Base. rewrite decide_False, strip_name by done. destruct p; [done|]. by rewrite split_name. }
    rewrite Eb in *. assert (Dir p = render false []) as ->.
    { unfold Dir, dir_part. rewrite split_name by done. done. }
    rewrite Join_name by (done || by split). unfold Clean.
    assert (rooted p = false) as ->.
    { destruct p as [|x p]; [done|]. apply not_elem_of_cons in Hin as [Hx _].
      apply bool_decide_eq_false. cbn. congruence. }
    rewrite split_name by done. f_equal. unfold norm. cbn. by rewrite push_name.
Qed.

Lemma Join_ne a b : a <> [] -> b <> [] -> Join a b = Clean (a ++ slash :: b).
Proof. intros Ha Hb. unfold Join. by rewrite !decide_False. Qed.

(** One slash more makes no difference. *)
Lemma Clean_slashes d c : d <> [] -> Clean ((d ++ [slash]) ++ slash :: c) = Clean (d ++ slash :: c).
Proof.
  intros Hd. unfold Clean.
  assert (rooted ((d ++ [slash]) ++ slash :: c) = rooted (d ++ slash :: c)) as -> by (by destruct d).
  f_equal. destruct (split_app (d ++ [slash]) c) as (l & Hl & ->), (split_app d c) as (l' & Hl' & ->),
    (split_app d []) as (l'' & Hl'' & E). subst. rewrite E. unfold norm. by rewrite !foldl_app.
Qed.
