(* ===== verification/Format.v ===== *)
(** * Format: reader.go, writer.go and format.go

    The elements of casync archives and indexes, the decoder [Next] (one definition per case of
    the source's switch) and the encoder [Encode]. The decoder reads a stream of bytes that
    ends with the error [e_end] (io.EOF for a file); the encoder writes to a [Writer] that may
    run out of room after any number of bytes. [encoding] is the byte string an element stands
    for: Encode writes it, or a prefix of it, and the decoder inverts it. *)

From S2P Require Import Prelude FileMode.

(** ** Constants (const.go) *)

Definition CaFormatEntry : Z := 0x1396fabcea5bbb51.
Definition CaFormatUser : Z := 0xf453131aaeeaccb3.
Definition CaFormatGroup : Z := 0x25eb6ac969396a52.
Definition CaFormatXAttr : Z := 0xb8157091f80bc486.
Definition CaFormatACLUser : Z := 0x297dc88b2ef12faf.
Definition CaFormatACLGroup : Z := 0x36f2acb56cb3dd0b.
Definition CaFormatACLGroupObj : Z := 0x23047110441f38f3.
Definition CaFormatACLDefault : Z := 0xfe3eeda6823c8cd0.
Definition CaFormatFCaps : Z := 0xf7267db0afed0629.
Definition CaFormatSELinux : Z := 0x46faf0602fd26c59.
Definition CaFormatSymlink : Z := 0x664a6fb6830e0d6c.
Definition CaFormatDevice : Z := 0xac3dace369dfe643.
Definition CaFormatPayload : Z := 0x8b9e1d93d6dcffc9.
Definition CaFormatFilename : Z := 0x6dbb6ebcb3161f0b.
Definition CaFormatGoodbye : Z := 0xdfd35c5e8327c403.
Definition CaFormatGoodbyeTailMarker : Z := 0x57446fa533702943.
Definition CaFormatIndex : Z := 0x96824d9c7b129ff9.
Definition CaFormatTable : Z := 0xe75b9e112f17417d.
Definition CaFormatTableTailMarker : Z := 0x4b4f050e5549ecd1.

Definition CaFormatSHA512256 : Z := 0x2000000000000000.
Definition CaFormatExcludeNoDump : Z := 0x8000000000000000.

Definition MaxUint64 : Z := 2 ^ 64 - 1.

(** ** Elements *)

Record FormatHeader := mkHeader { Size : Z; Type_ : Z }.

Record FormatGoodbyeItem := mkGoodbyeItem {
  gOffset : Z;
  gSize : Z;
  gHash : Z     (* the last item in a list has CaFormatGoodbyeTailMarker here *)
}.

(** A chunk ID is 32 bytes. *)
Abbreviation ChunkID := bytes (only parsing).

Record FormatTableItem := mkTableItem { tOffset : Z; tChunk : ChunkID }.

(** The element types; [R] is the reader that carries a payload. *)
Inductive FormatElement (R : Type) :=
| FormatEntry (h : FormatHeader) (FeatureFlags Mode Flags UID GID MTime : Z)
| FormatUser (h : FormatHeader) (Name : bytes)
| FormatGroup (h : FormatHeader) (Name : bytes)
| FormatXAttr (h : FormatHeader) (NameAndValue : bytes)
| FormatSELinux (h : FormatHeader) (Label : bytes)
| FormatFilename (h : FormatHeader) (Name : bytes)
| FormatSymlink (h : FormatHeader) (Target : bytes)
| FormatDevice (h : FormatHeader) (Major Minor : Z)
| FormatPayload (h : FormatHeader) (Data : R)
| FormatGoodbye (h : FormatHeader) (Items : list FormatGoodbyeItem)
| FormatFCaps (h : FormatHeader) (Data : bytes)
| FormatACLUser (h : FormatHeader) (UID Permissions : Z) (Name : bytes)
| FormatACLGroup (h : FormatHeader) (GID Permissions : Z) (Name : bytes)
| FormatACLGroupObj (h : FormatHeader) (Permissions : Z)
| FormatACLDefault (h : FormatHeader) (UserObj GroupObj Other Mask : Z)
| FormatIndex (h : FormatHeader) (FeatureFlags ChunkSizeMin ChunkSizeAvg ChunkSizeMax : Z)
| FormatTable (h : FormatHeader) (Items : list FormatTableItem).

Arguments FormatEntry {R}.
Arguments FormatUser {R}.
Arguments FormatGroup {R}.
Arguments FormatXAttr {R}.
Arguments FormatSELinux {R}.
Arguments FormatFilename {R}.
Arguments FormatSymlink {R}.
Arguments FormatDevice {R}.
Arguments FormatPayload {R}.
Arguments FormatGoodbye {R}.
Arguments FormatFCaps {R}.
Arguments FormatACLUser {R}.
Arguments FormatACLGroup {R}.
Arguments FormatACLGroupObj {R}.
Arguments FormatACLDefault {R}.
Arguments FormatIndex {R}.
Arguments FormatTable {R}.

(** ** The decoder *)

(** The limit of the io.LimitReader that carries the payload. *)
Abbreviation Decoded := (FormatElement Z).

(** The unread bytes of the stream, and what is left of the limit of a payload reader handed
    out by the last call of Next. *)
Record FormatDecoder := mkDecoder { d_stream : bytes; d_advance : option Z }.

Section decoder.

(** The error of the underlying reader when its bytes are used up. *)
Context (e_end : error).

(** io.ReadFull for n bytes: the reader's own error if there was none at all, and
    io.ErrUnexpectedEOF instead of io.EOF if there were some but not enough. *)
Definition ReadFull (n : nat) : rd bytes := fun s =>
  if decide (n <= length s)%nat then (Ok (take n s), drop n s)
  else if decide (s = []) then (Err e_end, [])
  else (Err (if decide (e_end = ErrEOF) then ErrUnexpectedEOF else e_end), []).

(** [make([]byte, n)] followed by io.ReadFull. *)
Definition make_ReadFull (n : Z) : rd bytes :=
  if decide (maxAlloc < n) then rd_panic else ReadFull (Z.to_nat n).

Definition ReadUint64 : rd Z := b ← ReadFull 8; mret (Uint64 b).

Definition ReadN (n : Z) : rd bytes := make_ReadFull n.

Definition ReadID : rd ChunkID := ReadFull 32.

Definition ReadHeader : rd FormatHeader :=
  size ← ReadUint64;
  type ← ReadUint64;
  mret (mkHeader size type).

(** The 0-terminated string that fills an element of [size] bytes after [skip]; slicing off the
    last byte of an empty slice panics. *)
Definition ReadString (size skip : Z) : rd bytes :=
  b ← make_ReadFull (u64 (size - skip));
  if decide (b = []) then rd_panic else mret (take (length b - 1) b).

Definition decodeEntry (hdr : FormatHeader) : rd Decoded :=
  if decide (Size hdr <> 64) then rd_err (InvalidFormat "")
  else
    FeatureFlags ← ReadUint64;
    mode ← ReadUint64;
    Flags ← ReadUint64;
    uid ← ReadUint64;
    gid ← ReadUint64;
    mtime ← ReadUint64;
    mret (FormatEntry hdr FeatureFlags (StatModeToFilemode (u32 mode)) Flags
            (i64 uid) (i64 gid) (i64 mtime)).

Definition decodeUser (hdr : FormatHeader) : rd Decoded :=
  b ← ReadString (Size hdr) 16; mret (FormatUser hdr b).

Definition decodeGroup (hdr : FormatHeader) : rd Decoded :=
  b ← ReadString (Size hdr) 16; mret (FormatGroup hdr b).

Definition decodeXAttr (hdr : FormatHeader) : rd Decoded :=
  b ← ReadString (Size hdr) 16; mret (FormatXAttr hdr b).

Definition decodeSELinux (hdr : FormatHeader) : rd Decoded :=
  b ← ReadString (Size hdr) 16; mret (FormatSELinux hdr b).

Definition decodeFilename (hdr : FormatHeader) : rd Decoded :=
  b ← ReadString (Size hdr) 16; mret (FormatFilename hdr b).

Definition decodeSymlink (hdr : FormatHeader) : rd Decoded :=
  b ← ReadString (Size hdr) 16; mret (FormatSymlink hdr b).

Definition decodeDevice (hdr : FormatHeader) : rd Decoded :=
  if decide (Size hdr <> 32) then rd_err (InvalidFormat "")
  else
    Major ← ReadUint64;
    Minor ← ReadUint64;
    mret (FormatDevice hdr Major Minor).

Definition decodePayload (hdr : FormatHeader) : rd Decoded :=
  mret (FormatPayload hdr (i64 (u64 (Size hdr - 16)))).

Definition decodeFCaps (hdr : FormatHeader) : rd Decoded :=
  b ← make_ReadFull (u64 (Size hdr - 16)); mret (FormatFCaps hdr b).

Definition decodeACLUser (hdr : FormatHeader) : rd Decoded :=
  UID ← ReadUint64;
  Permissions ← ReadUint64;
  b ← ReadString (Size hdr) 32;
  mret (FormatACLUser hdr UID Permissions b).

Definition decodeACLGroup (hdr : FormatHeader) : rd Decoded :=
  GID ← ReadUint64;
  Permissions ← ReadUint64;
  b ← ReadString (Size hdr) 32;
  mret (FormatACLGroup hdr GID Permissions b).

Definition decodeACLGroupObj (hdr : FormatHeader) : rd Decoded :=
  Permissions ← ReadUint64;
  mret (FormatACLGroupObj hdr Permissions).

Definition decodeACLDefault (hdr : FormatHeader) : rd Decoded :=
  UserObj ← ReadUint64;
  GroupObj ← ReadUint64;
  Other ← ReadUint64;
  Mask ← ReadUint64;
  mret (FormatACLDefault hdr UserObj GroupObj Other Mask).

(** The loop that fills the n goodbye items: an iteration reads 24 bytes or fails, so the
    length of the stream is fuel enough. *)
Fixpoint goodbye_items (fuel : nat) (n : Z) : rd (list FormatGoodbyeItem) :=
  if decide (n <= 0) then mret []
  else match fuel with
       | O => fun s => (NoFuel, s)
       | S fuel =>
         Offset ← ReadUint64;
         Size ← ReadUint64;
         Hash ← ReadUint64;
         items ← goodbye_items fuel (n - 1);
         mret (mkGoodbyeItem Offset Size Hash :: items)
       end.

Definition decodeGoodbye (hdr : FormatHeader) : rd Decoded :=
  let n := u64 (Size hdr - 16) / 24 in
  if decide (maxAlloc < 24 * n) then rd_panic
  else
    items ← (fun s => goodbye_items (S (length s)) n s);
    match last items with
    | Some item =>
      if decide (gHash item = CaFormatGoodbyeTailMarker)
      then mret (FormatGoodbye hdr items)
      else rd_err (InvalidFormat "tail marker not found")
    | None => rd_err (InvalidFormat "tail marker not found")
    end.

Definition decodeIndex (hdr : FormatHeader) : rd Decoded :=
  FeatureFlags ← ReadUint64;
  ChunkSizeMin ← ReadUint64;
  ChunkSizeAvg ← ReadUint64;
  ChunkSizeMax ← ReadUint64;
  mret (FormatIndex hdr FeatureFlags ChunkSizeMin ChunkSizeAvg ChunkSizeMax).

(** The loop over the table items: up to the first zero offset. *)
Fixpoint table_items (fuel : nat) : rd (list FormatTableItem) :=
  match fuel with
  | O => fun s => (NoFuel, s)
  | S fuel =>
    offset ← ReadUint64;
    if decide (offset = 0) then mret []
    else
      chunk ← ReadID;
      items ← table_items fuel;
      mret (mkTableItem offset chunk :: items)
  end.

Definition decodeTable (hdr : FormatHeader) : rd Decoded :=
  if decide (Size hdr <> MaxUint64) then
    rd_err (InvalidFormat "expected size MAX_UINT64 in format table")
  else
    items ← (fun s => table_items (S (length s)) s);
    x ← ReadUint64;
    if decide (x <> 0) then rd_err (InvalidFormat "tail marker not found")
    else
      _ ← ReadUint64;
      _ ← ReadUint64;
      x ← ReadUint64;
      if decide (x <> CaFormatTableTailMarker) then rd_err (InvalidFormat "tail marker not found")
      else mret (FormatTable hdr items).

(** The switch on the header's type. *)
Definition decode (hdr : FormatHeader) : rd Decoded :=
  let t := Type_ hdr in
  if decide (t = CaFormatEntry) then decodeEntry hdr
  else if decide (t = CaFormatUser) then decodeUser hdr
  else if decide (t = CaFormatGroup) then decodeGroup hdr
  else if decide (t = CaFormatXAttr) then decodeXAttr hdr
  else if decide (t = CaFormatSELinux) then decodeSELinux hdr
  else if decide (t = CaFormatFilename) then decodeFilename hdr
  else if decide (t = CaFormatSymlink) then decodeSymlink hdr
  else if decide (t = CaFormatDevice) then decodeDevice hdr
  else if decide (t = CaFormatPayload) then decodePayload hdr
  else if decide (t = CaFormatFCaps) then decodeFCaps hdr
  else if decide (t = CaFormatACLUser) then decodeACLUser hdr
  else if decide (t = CaFormatACLGroup) then decodeACLGroup hdr
  else if decide (t = CaFormatACLGroupObj) then decodeACLGroupObj hdr
  else if decide (t = CaFormatACLDefault) then decodeACLDefault hdr
  else if decide (t = CaFormatGoodbye) then decodeGoodbye hdr
  else if decide (t = CaFormatIndex) then decodeIndex hdr
  else if decide (t = CaFormatTable) then decodeTable hdr
  else rd_err (Errorf "unsupported header type").

(** Reading at most n bytes from the payload reader. *)
Definition payload_take (limit : Z) (n : nat) (s : bytes) : nat :=
  Nat.min n (Nat.min (Z.to_nat limit) (length s)).

Definition ReadPayload (d : FormatDecoder) (n : nat) : bytes * FormatDecoder :=
  match d_advance d with
  | None => ([], d)
  | Some limit =>
    let k := payload_take limit n (d_stream d) in
    (take k (d_stream d), mkDecoder (drop k (d_stream d)) (Some (limit - Z.of_nat k)))
  end.

(** Next: skip what is left of a payload, then read a header and its element; the end of the
    stream in the header is the end (None). *)
Definition Next (d : FormatDecoder) : outcome (option Decoded) * FormatDecoder :=
  let s := d_stream (snd (ReadPayload d (length (d_stream d)))) in
  match ReadHeader s with
  | (Ok hdr, s) =>
    match decode hdr s with
    | (Ok e, s) =>
      (Ok (Some e), mkDecoder s (match e with FormatPayload _ limit => Some limit | _ => None end))
    | (Err e, s) => (Err e, mkDecoder s None)
    | (Panic, s) => (Panic, mkDecoder s None)
    | (NoFuel, s) => (NoFuel, mkDecoder s None)
    end
  | (Err e, s) =>
    if decide (e = ErrEOF) then (Ok None, mkDecoder s None) else (Err e, mkDecoder s None)
  | (Panic, s) => (Panic, mkDecoder s None)
  | (NoFuel, s) => (NoFuel, mkDecoder s None)
  end.

End decoder.

Definition NewFormatDecoder (s : bytes) : FormatDecoder := mkDecoder s None.

(** ** The encoder *)

(** A writer that accepts [w_room] more bytes (None: any number), then fails with [w_err]. *)
Record Writer := mkWriter { w_out : bytes; w_room : option nat; w_err : error }.

(** A reader whose bytes are copied: its content, and its error (None: a clean end). *)
Definition Source : Type := bytes * option error.

(** io.Copy of [b] to the writer, where the source fails with [e] after its bytes. *)
Definition Copy (src : Source) (w : Writer) : Z * option error * Writer :=
  let '(b, e) := src in
  match w_room w with
  | None => (Z.of_nat (length b), e, mkWriter (w_out w ++ b) None (w_err w))
  | Some r =>
    if decide (length b <= r)%nat then
      (Z.of_nat (length b), e, mkWriter (w_out w ++ b) (Some (r - length b)%nat) (w_err w))
    else (Z.of_nat r, Some (w_err w), mkWriter (w_out w ++ take r b) (Some 0%nat) (w_err w))
  end.

Definition wr : Type := Writer -> Z * option error * Writer.

(** [n, err := f(); if err != nil { return n, err }; n1, err := g(n); return n + n1, err] *)
Definition wr_then (f : wr) (g : Z -> wr) : wr := fun w =>
  match f w with
  | (n, Some err, w) => (n, Some err, w)
  | (n, None, w) => let '(n1, err, w) := g n w in (n + n1, err, w)
  end.

Definition WriteUint64 (values : list Z) : wr :=
  Copy (concat (map PutUint64 values), None).

Definition WriteID (c : ChunkID) : wr := Copy (c, None).

Definition WriteString (s : bytes) : wr := Copy (s ++ [Byte.x00], None).

(** The header, the leading integers and the trailing bytes of an element. *)
Definition WriteHeaderThen (h : FormatHeader) (values : list Z) (g : wr) : wr :=
  wr_then (WriteUint64 (Size h :: Type_ h :: values)) (fun _ => g).

Fixpoint encodeGoodbyeItems (items : list FormatGoodbyeItem) : wr :=
  match items with
  | [] => fun w => (0, None, w)
  | i :: items =>
    wr_then (WriteUint64 [gOffset i; gSize i; gHash i]) (fun _ => encodeGoodbyeItems items)
  end.

Fixpoint encodeTableItems (items : list FormatTableItem) : wr :=
  match items with
  | [] => fun w => (0, None, w)
  | i :: items =>
    wr_then (WriteUint64 [tOffset i]) (fun _ =>
    wr_then (WriteID (tChunk i)) (fun _ => encodeTableItems items))
  end.

(** The tail record: the size it stores is the count of bytes written so far plus 40. *)
Definition encodeTable (h : FormatHeader) (items : list FormatTableItem) : wr :=
  wr_then (wr_then (WriteUint64 [Size h; Type_ h]) (fun _ => encodeTableItems items))
    (fun n => WriteUint64 [0; 0; 48; u64 (n + 40); CaFormatTableTailMarker]).

Definition Encode (v : FormatElement Source) : wr :=
  match v with
  | FormatEntry h FeatureFlags Mode Flags UID GID MTime =>
    WriteUint64 [Size h; Type_ h; FeatureFlags; FilemodeToStatMode Mode; Flags;
                 u64 UID; u64 GID; u64 MTime]
  | FormatUser h Name => WriteHeaderThen h [] (WriteString Name)
  | FormatGroup h Name => WriteHeaderThen h [] (WriteString Name)
  | FormatXAttr h NameAndValue => WriteHeaderThen h [] (WriteString NameAndValue)
  | FormatSELinux h Label => WriteHeaderThen h [] (WriteString Label)
  | FormatFilename h Name => WriteHeaderThen h [] (WriteString Name)
  | FormatSymlink h Target => WriteHeaderThen h [] (WriteString Target)
  | FormatDevice h Major Minor => WriteUint64 [Size h; Type_ h; Major; Minor]
  | FormatPayload h Data => WriteHeaderThen h [] (Copy Data)
  | FormatFCaps h Data => WriteHeaderThen h [] (Copy (Data, None))
  | FormatACLUser h UID Permissions Name => WriteHeaderThen h [UID; Permissions] (WriteString Name)
  | FormatACLGroup h GID Permissions Name => WriteHeaderThen h [GID; Permissions] (WriteString Name)
  | FormatACLGroupObj h Permissions => WriteUint64 [Size h; Type_ h; Permissions]
  | FormatACLDefault h UserObj GroupObj Other Mask =>
    WriteUint64 [Size h; Type_ h; UserObj; GroupObj; Other; Mask]
  | FormatGoodbye h Items => WriteHeaderThen h [] (encodeGoodbyeItems Items)
  | FormatIndex h FeatureFlags ChunkSizeMin ChunkSizeAvg ChunkSizeMax =>
    WriteUint64 [Size h; Type_ h; FeatureFlags; ChunkSizeMin; ChunkSizeAvg; ChunkSizeMax]
  | FormatTable h Items => encodeTable h Items
  end.

(** ** The byte string of an element *)

Definition words (values : list Z) : bytes := concat (map PutUint64 values).

Definition goodbye_bytes (items : list FormatGoodbyeItem) : bytes :=
  concat (map (fun i => words [gOffset i; gSize i; gHash i]) items).

Definition table_bytes (items : list FormatTableItem) : bytes :=
  concat (map (fun i => words [tOffset i] ++ tChunk i) items).

Definition header_of {R} (v : FormatElement R) : FormatHeader :=
  match v with
  | FormatEntry h _ _ _ _ _ _ | FormatUser h _ | FormatGroup h _ | FormatXAttr h _
  | FormatSELinux h _ | FormatFilename h _ | FormatSymlink h _ | FormatDevice h _ _
  | FormatPayload h _ | FormatGoodbye h _ | FormatFCaps h _ | FormatACLUser h _ _ _
  | FormatACLGroup h _ _ _ | FormatACLGroupObj h _ | FormatACLDefault h _ _ _ _
  | FormatIndex h _ _ _ _ | FormatTable h _ => h
  end.

(** The bytes after the header. *)
Definition body (v : FormatElement Source) : bytes :=
  match v with
  | FormatEntry h FeatureFlags Mode Flags UID GID MTime =>
    words [FeatureFlags; FilemodeToStatMode Mode; Flags; u64 UID; u64 GID; u64 MTime]
  | FormatUser h b | FormatGroup h b | FormatXAttr h b | FormatSELinux h b
  | FormatFilename h b | FormatSymlink h b => b ++ [Byte.x00]
  | FormatDevice h Major Minor => words [Major; Minor]
  | FormatPayload h Data => fst Data
  | FormatFCaps h Data => Data
  | FormatACLUser h ID Permissions b | FormatACLGroup h ID Permissions b =>
    words [ID; Permissions] ++ b ++ [Byte.x00]
  | FormatACLGroupObj h Permissions => words [Permissions]
  | FormatACLDefault h UserObj GroupObj Other Mask => words [UserObj; GroupObj; Other; Mask]
  | FormatGoodbye h Items => goodbye_bytes Items
  | FormatIndex h FeatureFlags ChunkSizeMin ChunkSizeAvg ChunkSizeMax =>
    words [FeatureFlags; ChunkSizeMin; ChunkSizeAvg; ChunkSizeMax]
  | FormatTable h Items =>
    table_bytes Items ++
    words [0; 0; 48; u64 (16 + Z.of_nat (length (table_bytes Items)) + 40);
           CaFormatTableTailMarker]
  end.

Definition encoding (v : FormatElement Source) : bytes :=
  words [Size (header_of v); Type_ (header_of v)] ++ body v.

(** The error of the reader that carries a payload. *)
Definition source_err (v : FormatElement Source) : option error :=
  match v with FormatPayload _ (_, e) => e | _ => None end.

Lemma words_cons v l : words (v :: l) = PutUint64 v ++ words l.
Proof. done. Qed.

Lemma length_words l : length (words l) = (8 * length l)%nat.
Proof.
  induction l as [|v l IH]; [done|].
  rewrite words_cons, length_app, length_PutUint64, IH. simpl. lia.
Qed.

(** ** Encode is one copy of the encoding *)

Lemma Copy_then a b e w g :
  (forall w, g (Z.of_nat (length a)) w = Copy (b, e) w) ->
  wr_then (Copy (a, None)) g w = Copy (a ++ b, e) w.
Proof.
  intros Hg. unfold wr_then. destruct w as [out [r|] we]; cbn.
  - rewrite length_app. destruct (decide (length a <= r)%nat) as [Ha|Ha].
    + rewrite Hg. cbn. rewrite <- app_assoc.
      destruct (decide (length b <= r - length a)%nat).
      * rewrite decide_True by lia. f_equal; [f_equal; lia|f_equal; f_equal; lia].
      * rewrite decide_False by lia. rewrite <- app_assoc, take_app_ge by lia.
        do 2 f_equal. f_equal. lia.
    + rewrite decide_False by lia. by rewrite take_app_le by lia.
  - rewrite Hg. cbn. rewrite length_app, <- app_assoc.
    do 2 f_equal. lia.
Qed.

Lemma wr_then_ext f f' g w : (forall w, f w = f' w) -> wr_then f g w = wr_then f' g w.
Proof. intros H. unfold wr_then. by rewrite H. Qed.

Lemma Copy_nil w : Copy ([], None) w = (0, None, w).
Proof.
  destruct w as [out [r|] we]; cbn; [|by rewrite app_nil_r].
  rewrite decide_True by lia. by rewrite app_nil_r, Nat.sub_0_r.
Qed.

Lemma encodeGoodbyeItems_spec items w :
  encodeGoodbyeItems items w = Copy (goodbye_bytes items, None) w.
Proof.
  revert w. induction items as [|i items IH]; intros w; [symmetry; apply Copy_nil|].
  by apply Copy_then.
Qed.

Lemma encodeTableItems_spec items w :
  encodeTableItems items w = Copy (table_bytes items, None) w.
Proof.
  revert w. induction items as [|i items IH]; intros w; [symmetry; apply Copy_nil|].
  unfold table_bytes. cbn [map concat]. rewrite <- app_assoc. apply Copy_then. intros w'.
  by apply Copy_then.
Qed.

Lemma words_app l1 l2 : words (l1 ++ l2) = words l1 ++ words l2.
Proof. unfold words. by rewrite map_app, concat_app. Qed.

Lemma WriteHeaderThen_spec h l g b e w :
  (forall w, g w = Copy (b, e) w) ->
  WriteHeaderThen h l g w = Copy (words [Size h; Type_ h] ++ words l ++ b, e) w.
Proof.
  intros H. rewrite app_assoc, <- words_app. by apply Copy_then.
Qed.

Lemma WriteUint64_spec a b l : WriteUint64 (a :: b :: l) = Copy (words [a; b] ++ words l, None).
Proof. by rewrite <- words_app. Qed.

Lemma Encode_Copy v w : Encode v w = Copy (encoding v, source_err v) w.
Proof.
  unfold encoding.
  destruct v; cbn [Encode header_of body source_err];
    try (by rewrite WriteUint64_spec); try (by apply WriteHeaderThen_spec).
  - destruct Data as [b e]. by apply WriteHeaderThen_spec.
  - apply WriteHeaderThen_spec, encodeGoodbyeItems_spec.
  - unfold encodeTable.
    rewrite (wr_then_ext _ (Copy (words [Size h; Type_ h] ++ table_bytes Items, None)))
      by (intros; apply Copy_then, encodeTableItems_spec).
    rewrite app_assoc. apply Copy_then. intros w'. unfold WriteUint64.
    rewrite length_app, length_words. do 3 f_equal. cbn [length Nat.mul Nat.add].
    unfold words. do 6 f_equal. f_equal. lia.
Qed.

(** ** Decoding an encoding *)

Section decoding.

Context (e_end : error).

Lemma ReadFull_app b s : ReadFull e_end (length b) (b ++ s) = (Ok b, s).
Proof.
  unfold ReadFull. rewrite length_app, decide_True by lia.
  by rewrite take_app_length, drop_app_length.
Qed.

Lemma make_ReadFull_app n b s :
  n = Z.of_nat (length b) -> n <= maxAlloc -> make_ReadFull e_end n (b ++ s) = (Ok b, s).
Proof.
  intros -> Hn. unfold make_ReadFull. rewrite decide_False by lia.
  rewrite Nat2Z.id. apply ReadFull_app.
Qed.

Lemma ReadUint64_app v s : ReadUint64 e_end (PutUint64 v ++ s) = (Ok (u64 v), s).
Proof.
  unfold ReadUint64. rewrite (rd_bind_ok _ _ _ (PutUint64 v) s).
  - by rewrite Uint64_PutUint64.
  - rewrite <- (length_PutUint64 v). apply ReadFull_app.
Qed.

Lemma ReadID_app b s : length b = 32%nat -> ReadID e_end (b ++ s) = (Ok b, s).
Proof. intros H. unfold ReadID. rewrite <- H. apply ReadFull_app. Qed.

Lemma ReadHeader_app h s :
  is_u64 (Size h) -> is_u64 (Type_ h) ->
  ReadHeader e_end (words [Size h; Type_ h] ++ s) = (Ok h, s).
Proof.
  intros Hs Ht. rewrite !words_cons, <- !app_assoc. unfold ReadHeader.
  rewrite (rd_bind_ok _ _ _ _ _ (ReadUint64_app _ _)).
  rewrite (rd_bind_ok _ _ _ _ _ (ReadUint64_app _ _)).
  rewrite !u64_small by done. by destruct h.
Qed.

Lemma ReadString_app size skip b s :
  size = skip + Z.of_nat (length b) + 1 -> size <= maxAlloc -> 0 <= skip ->
  ReadString e_end size skip (b ++ [Byte.x00] ++ s) = (Ok b, s).
Proof.
  intros -> Hm Hk. unfold ReadString. rewrite app_assoc.
  rewrite (rd_bind_ok _ _ _ (b ++ [Byte.x00]) s).
  - rewrite decide_False by (by destruct b). rewrite length_app. simpl.
    replace (length b + 1 - 1)%nat with (length b) by lia. by rewrite take_app_length.
  - apply make_ReadFull_app; rewrite u64_small by mach_lia; rewrite ?length_app; simpl; lia.
Qed.

Lemma goodbye_items_app items fuel s :
  (length items < fuel)%nat ->
  Forall (fun i => is_u64 (gOffset i) /\ is_u64 (gSize i) /\ is_u64 (gHash i)) items ->
  goodbye_items e_end fuel (Z.of_nat (length items)) (goodbye_bytes items ++ s) = (Ok items, s).
Proof.
  revert fuel. induction items as [|[o z h] items IH]; intros fuel Hf Hall.
  { by destruct fuel. }
  inversion_clear Hall as [|? ? (Ho & Hz & Hh) Hall']. simpl in Ho, Hz, Hh.
  destruct fuel as [|fuel]; [simpl in Hf; lia|]. simpl in Hf. cbn [goodbye_items length].
  rewrite decide_False by lia. unfold goodbye_bytes. cbn [map concat gOffset gSize gHash].
  rewrite !words_cons, <- !app_assoc. cbn [words map concat app].
  do 3 rewrite (rd_bind_ok _ _ _ _ _ (ReadUint64_app _ _)).
  replace (Z.of_nat (S (length items)) - 1) with (Z.of_nat (length items)) by lia.
  rewrite (rd_bind_ok _ _ _ _ _ (IH fuel ltac:(lia) Hall')).
  by rewrite !u64_small.
Qed.

Lemma table_items_app items fuel s :
  (length items < fuel)%nat ->
  Forall (fun i => 0 < tOffset i < 2 ^ 64 /\ length (tChunk i) = 32%nat) items ->
  table_items e_end fuel (table_bytes items ++ PutUint64 0 ++ s) = (Ok items, s).
Proof.
  revert fuel. induction items as [|[o c] items IH]; intros fuel Hf Hall.
  { destruct fuel as [|fuel]; [simpl in Hf; lia|].
    cbn [table_items table_bytes map concat app].
    by rewrite (rd_bind_ok _ _ _ _ _ (ReadUint64_app _ _)). }
  inversion_clear Hall as [|? ? (Ho & Hc) Hall']. simpl in Ho, Hc.
  destruct fuel as [|fuel]; [simpl in Hf; lia|]. simpl in Hf. cbn [table_items].
  unfold table_bytes. cbn [map concat tOffset tChunk].
  rewrite !words_cons, <- !app_assoc. cbn [words map concat app].
  rewrite (rd_bind_ok _ _ _ _ _ (ReadUint64_app _ _)).
  rewrite u64_small by mach_lia. rewrite decide_False by lia.
  rewrite (rd_bind_ok _ _ _ _ _ (ReadID_app _ _ Hc)).
  by rewrite (rd_bind_ok _ _ _ _ _ (IH fuel ltac:(lia) Hall')).
Qed.

End decoding.

(** An element whose header declares its size and whose values fit their fields. *)
Definition string_header (h : FormatHeader) (t : Z) (skip : Z) (b : bytes) : Prop :=
  h = mkHeader (skip + Z.of_nat (length b) + 1) t /\ skip + Z.of_nat (length b) + 1 <= maxAlloc.

Definition well_formed (v : FormatElement Source) : Prop :=
  match v with
  | FormatEntry h FeatureFlags Mode Flags UID GID MTime =>
    h = mkHeader 64 CaFormatEntry /\ is_u64 FeatureFlags /\ valid_filemode Mode = true /\
    is_u64 Flags /\ is_i64 UID /\ is_i64 GID /\ is_i64 MTime
  | FormatUser h b => string_header h CaFormatUser 16 b
  | FormatGroup h b => string_header h CaFormatGroup 16 b
  | FormatXAttr h b => string_header h CaFormatXAttr 16 b
  | FormatSELinux h b => string_header h CaFormatSELinux 16 b
  | FormatFilename h b => string_header h CaFormatFilename 16 b
  | FormatSymlink h b => string_header h CaFormatSymlink 16 b
  | FormatDevice h Major Minor => h = mkHeader 32 CaFormatDevice /\ is_u64 Major /\ is_u64 Minor
  | FormatPayload h Data =>
    h = mkHeader (16 + Z.of_nat (length (fst Data))) CaFormatPayload /\
    16 + Z.of_nat (length (fst Data)) < 2 ^ 63 /\ snd Data = None
  | FormatFCaps h Data =>
    h = mkHeader (16 + Z.of_nat (length Data)) CaFormatFCaps /\
    Z.of_nat (length Data) <= maxAlloc
  | FormatACLUser h ID Permissions b =>
    string_header h CaFormatACLUser 32 b /\ is_u64 ID /\ is_u64 Permissions
  | FormatACLGroup h ID Permissions b =>
    string_header h CaFormatACLGroup 32 b /\ is_u64 ID /\ is_u64 Permissions
  | FormatACLGroupObj h Permissions => h = mkHeader 24 CaFormatACLGroupObj /\ is_u64 Permissions
  | FormatACLDefault h UserObj GroupObj Other Mask =>
    h = mkHeader 48 CaFormatACLDefault /\ is_u64 UserObj /\ is_u64 GroupObj /\
    is_u64 Other /\ is_u64 Mask
  | FormatGoodbye h Items =>
    h = mkHeader (16 + 24 * Z.of_nat (length Items)) CaFormatGoodbye /\
    24 * Z.of_nat (length Items) <= maxAlloc /\
    Forall (fun i => is_u64 (gOffset i) /\ is_u64 (gSize i) /\ is_u64 (gHash i)) Items /\
    (gHash <$> last Items) = Some CaFormatGoodbyeTailMarker
  | FormatIndex h FeatureFlags ChunkSizeMin ChunkSizeAvg ChunkSizeMax =>
    h = mkHeader 48 CaFormatIndex /\ is_u64 FeatureFlags /\ is_u64 ChunkSizeMin /\
    is_u64 ChunkSizeAvg /\ is_u64 ChunkSizeMax
  | FormatTable h Items =>
    h = mkHeader MaxUint64 CaFormatTable /\
    Forall (fun i => 0 < tOffset i < 2 ^ 64 /\ length (tChunk i) = 32%nat) Items
  end.

(** What the decoder makes of it: the payload becomes a reader limited to its length. *)
Definition decoded (v : FormatElement Source) : Decoded :=
  match v with
  | FormatPayload h Data => FormatPayload h (Z.of_nat (length (fst Data)))
  | FormatEntry h a b c d e f => FormatEntry h a b c d e f
  | FormatUser h b => FormatUser h b
  | FormatGroup h b => FormatGroup h b
  | FormatXAttr h b => FormatXAttr h b
  | FormatSELinux h b => FormatSELinux h b
  | FormatFilename h b => FormatFilename h b
  | FormatSymlink h b => FormatSymlink h b
  | FormatDevice h a b => FormatDevice h a b
  | FormatGoodbye h items => FormatGoodbye h items
  | FormatFCaps h b => FormatFCaps h b
  | FormatACLUser h a b c => FormatACLUser h a b c
  | FormatACLGroup h a b c => FormatACLGroup h a b c
  | FormatACLGroupObj h a => FormatACLGroupObj h a
  | FormatACLDefault h a b c d => FormatACLDefault h a b c d
  | FormatIndex h a b c d => FormatIndex h a b c d
  | FormatTable h items => FormatTable h items
  end.

Definition payload_of (v : FormatElement Source) : bytes :=
  match v with FormatPayload _ Data => fst Data | _ => [] end.

(** Pick the case of the switch for a header of a known type. *)
Ltac pick_case :=
  unfold decode; cbn [Type_];
  repeat (rewrite decide_False by (let H := fresh in intros H; vm_compute in H; discriminate H));
  rewrite decide_True by reflexivity.

(** Run the reads of 64-bit words at the front of the stream. *)
Ltac read_words :=
  rewrite ?words_cons, <- ?app_assoc; cbn [words map concat app];
  repeat rewrite (rd_bind_ok _ _ _ _ _ (ReadUint64_app _ _ _)).

Ltac decode_string :=
  match goal with H : string_header _ _ _ _ |- _ => destruct H as [-> ?] end; pick_case;
  unfold decodeUser, decodeGroup, decodeXAttr, decodeSELinux, decodeFilename, decodeSymlink;
  rewrite <- app_assoc; cbn [Size];
  erewrite rd_bind_ok by (apply ReadString_app; lia); reflexivity.

Lemma length_goodbye_bytes items : length (goodbye_bytes items) = (24 * length items)%nat.
Proof.
  induction items as [|i items IH]; [done|]. unfold goodbye_bytes in *. cbn [map concat length].
  rewrite length_app, IH, length_words. simpl. lia.
Qed.

Lemma length_table_bytes items :
  Forall (fun i => 0 < tOffset i < 2 ^ 64 /\ length (tChunk i) = 32%nat) items ->
  length (table_bytes items) = (40 * length items)%nat.
Proof.
  induction 1 as [|i items [_ Hi] _ IH]; [done|]. unfold table_bytes in *.
  cbn [map concat length]. rewrite !length_app, IH, length_words, Hi. simpl. lia.
Qed.

Lemma decode_body e_end v s :
  well_formed v -> decode e_end (header_of v) (body v ++ s) = (Ok (decoded v), payload_of v ++ s).
Proof.
  intros Hv. destruct v; cbn [header_of decoded payload_of app body well_formed] in *.
  - destruct Hv as (-> & ? & Hm & ? & ? & ? & ?). pick_case.
    unfold decodeEntry. rewrite decide_False by (cbn; lia). read_words.
    pose proof (FilemodeToStatMode_range _ Hm).
    rewrite !(u64_small (u64 _)) by apply u64_range. rewrite !i64_u64, !i64_small by done.
    rewrite !u64_small, u32_small, valid_filemode_inverse by mach_lia || done. done.
  - decode_string.
  - decode_string.
  - decode_string.
  - decode_string.
  - decode_string.
  - decode_string.
  - destruct Hv as (-> & ? & ?). pick_case.
    unfold decodeDevice. rewrite decide_False by (cbn; lia). read_words. by rewrite !u64_small.
  - destruct Hv as (-> & ? & _). pick_case. unfold decodePayload, mret, rd_ret. cbn [Size].
    replace (16 + Z.of_nat (length Data.1) - 16) with (Z.of_nat (length Data.1)) by lia.
    by rewrite u64_small, i64_small by mach_lia.
  - destruct Hv as (-> & Hm & Hall & Hlast). pick_case. unfold decodeGoodbye. cbn [Size].
    replace (16 + 24 * Z.of_nat (length Items) - 16) with (Z.of_nat (length Items) * 24) by lia.
    rewrite u64_small, Z.div_mul by mach_lia. rewrite decide_False by lia.
    rewrite (rd_bind_ok _ _ _ Items s).
    + destruct (last Items) as [i|]; [|done]. injection Hlast as ->. by rewrite decide_True.
    + apply goodbye_items_app; [|done]. rewrite length_app, length_goodbye_bytes. lia.
  - destruct Hv as (-> & Hm). pick_case. unfold decodeFCaps. cbn [Size].
    rewrite (rd_bind_ok _ _ _ Data s); [done|].
    apply make_ReadFull_app; rewrite u64_small by mach_lia; lia.
  - destruct Hv as ([-> ?] & ? & ?). pick_case. unfold decodeACLUser. read_words. cbn [Size].
    rewrite (rd_bind_ok _ _ _ Name s) by (apply ReadString_app; lia). by rewrite !u64_small.
  - destruct Hv as ([-> ?] & ? & ?). pick_case. unfold decodeACLGroup. read_words. cbn [Size].
    rewrite (rd_bind_ok _ _ _ Name s) by (apply ReadString_app; lia). by rewrite !u64_small.
  - destruct Hv as (-> & ?). pick_case. unfold decodeACLGroupObj. read_words.
    by rewrite !u64_small.
  - destruct Hv as (-> & ? & ? & ? & ?). pick_case. unfold decodeACLDefault. read_words.
    by rewrite !u64_small.
  - destruct Hv as (-> & ? & ? & ? & ?). pick_case. unfold decodeIndex. read_words.
    by rewrite !u64_small.
  - destruct Hv as (-> & Hall). pick_case. unfold decodeTable.
    rewrite decide_False by (cbn; tauto). rewrite words_cons, <- !app_assoc.
    erewrite rd_bind_ok.
    2:{ apply table_items_app; [|done]. rewrite length_app, length_table_bytes by done. lia. }
    read_words. rewrite (decide_False (P := u64 0 <> 0)) by (vm_compute; tauto). read_words.
    rewrite decide_False by (vm_compute; tauto). done.
Qed.

(** ** The decoder on a sequence of elements *)

Definition payload_limit (v : FormatElement Source) : option Z :=
  match v with FormatPayload _ Data => Some (Z.of_nat (length (fst Data))) | _ => None end.

Ltac const_u64 := split; [by vm_compute|by vm_compute].

Lemma string_header_u64 h t skip b :
  is_u64 t -> 0 <= skip -> string_header h t skip b -> is_u64 (Size h) /\ is_u64 (Type_ h).
Proof. intros Ht Hk [-> Hm]. cbn [Size Type_]. split; [mach_lia|done]. Qed.

Lemma well_formed_header v :
  well_formed v -> is_u64 (Size (header_of v)) /\ is_u64 (Type_ (header_of v)).
Proof.
  destruct v; cbn [well_formed header_of]; intros Hv;
    try (eapply string_header_u64; [| |exact Hv || apply Hv]; [const_u64|lia]);
    destruct Hv as (-> & Hv); cbn [Size Type_]; (split; [|const_u64]); try const_u64.
  - destruct Hv as (? & _). mach_lia.
  - destruct Hv as (? & _). mach_lia.
  - mach_lia.
Qed.

Lemma Next_element e_end v s :
  well_formed v ->
  Next e_end (NewFormatDecoder (encoding v ++ s)) =
  (Ok (Some (decoded v)), mkDecoder (payload_of v ++ s) (payload_limit v)).
Proof.
  intros Hv. unfold Next, NewFormatDecoder, ReadPayload. cbn [d_advance d_stream snd].
  destruct (well_formed_header v Hv) as [Hs Ht]. unfold encoding. rewrite <- app_assoc.
  rewrite ReadHeader_app by done. rewrite (decode_body e_end v s Hv). by destruct v.
Qed.

(** What the caller read of a payload does not matter for the next call. *)
Lemma Next_after_payload e_end v s k :
  let d := mkDecoder (payload_of v ++ s) (payload_limit v) in
  fst (ReadPayload d k) = take k (payload_of v) /\
  Next e_end (snd (ReadPayload d k)) = Next e_end (NewFormatDecoder s).
Proof.
  intros d. unfold Next at 1 2. cut (fst (ReadPayload d k) = take k (payload_of v) /\
    d_stream (snd (ReadPayload (snd (ReadPayload d k))
      (length (d_stream (snd (ReadPayload d k)))))) = s).
  { intros [H1 H2]. split; [exact H1|]. rewrite H2. done. }
  subst d. unfold ReadPayload.
  destruct v; cbn [d_advance d_stream payload_limit payload_of fst snd app]; rewrite ?take_nil;
    try done.
  set (p := Data.1). unfold payload_take. rewrite Nat2Z.id, !length_app.
  rewrite (Nat.min_l (length p)) by lia.
  split.
  { rewrite take_app_le by lia. destruct (decide (k <= length p)%nat);
      [by rewrite Nat.min_l | by rewrite Nat.min_r, !take_ge by lia]. }
  rewrite drop_drop, length_drop, length_app.
  replace (Z.of_nat (length p) - Z.of_nat (k `min` length p)) with
    (Z.of_nat (length p - k `min` length p)) by lia. rewrite Nat2Z.id.
  rewrite drop_app_ge by lia.
  replace (_ - length p)%nat with 0%nat by lia. done.
Qed.

(** A caller that reads [k] bytes of the payload of each element, for the k of a list, and
    then meets the end of the stream. *)
Fixpoint decode_all (e_end : error) (ks : list nat) (d : FormatDecoder)
  : outcome (list (Decoded * bytes)) :=
  match Next e_end d with
  | (Ok None, _) => if decide (ks = []) then Ok [] else Err ErrEOF
  | (Ok (Some e), d) =>
    match ks with
    | [] => Err (Errorf "more elements")
    | k :: ks =>
      let '(b, d) := ReadPayload d k in
      l ← decode_all e_end ks d;
      Ok ((e, b) :: l)
    end
  | (Err e, _) => Err e
  | (Panic, _) => Panic
  | (NoFuel, _) => NoFuel
  end.

Lemma decode_all_next e_end ks d d' :
  Next e_end d = Next e_end d' -> decode_all e_end ks d = decode_all e_end ks d'.
Proof. intros H. destruct ks; cbn [decode_all]; by rewrite H. Qed.

(** C12. Decoding inverts encoding: the decoder, run on the concatenated encodings of any
    well-formed elements, returns exactly these elements and then the end of the stream, no
    matter how many bytes of each payload the caller reads before the next call, and the bytes
    it reads are the payload's. *)
Theorem decode_encodings vs ks :
  Forall well_formed vs -> length ks = length vs ->
  decode_all ErrEOF ks (NewFormatDecoder (concat (map encoding vs))) =
  Ok (zip_with (fun v k => (decoded v, take k (payload_of v))) vs ks).
Proof.
  intros Hall. revert ks. induction Hall as [|v vs Hv Hall IH]; intros ks Hk.
  - destruct ks; [reflexivity|done].
  - destruct ks as [|k ks]; [done|]. cbn [map concat decode_all].
    rewrite (Next_element _ _ _ Hv).
    destruct (Next_after_payload ErrEOF v (concat (map encoding vs)) k) as [Hb Hn].
    destruct (ReadPayload _ k) as [b d] eqn:E. cbn [fst snd] in *. subst b.
    rewrite (decode_all_next _ _ _ _ Hn), IH by (simpl in Hk; lia). done.
Qed.

Definition ex_elements : list (FormatElement Source) :=
  [FormatEntry (mkHeader 64 CaFormatEntry) 0 (Z.lor ModeDir 493) 0 0 1000 (-5);
   FormatFilename (mkHeader 20 CaFormatFilename) (str "abc");
   FormatPayload (mkHeader 21 CaFormatPayload) (str "hello", None);
   FormatGoodbye (mkHeader 40 CaFormatGoodbye) [mkGoodbyeItem 1 2 CaFormatGoodbyeTailMarker];
   FormatTable (mkHeader MaxUint64 CaFormatTable) [mkTableItem 7 (replicate 32 Byte.x07)]].

Ltac vm_range := split; [by vm_compute | by vm_compute].

Lemma ex_elements_wf : Forall well_formed ex_elements.
Proof.
  apply Forall_cons_2; [|apply Forall_cons_2; [|apply Forall_cons_2; [|apply Forall_cons_2;
    [|apply Forall_cons_2; [|apply Forall_nil_2]]]]]; cbn [well_formed fst snd].
  - split; [done|]. split; [vm_range|]. split; [by vm_compute|]. do 3 (split; [vm_range|]). vm_range.
  - split; [done|by vm_compute].
  - split; [done|]. split; [by vm_compute|done].
  - split; [done|]. split; [by vm_compute|]. split; [|done].
    apply Forall_cons_2; [|apply Forall_nil_2]. split; [vm_range|]. split; vm_range.
  - split; [done|]. apply Forall_cons_2; [|apply Forall_nil_2]. split; [vm_range|done].
Qed.

Lemma decode_encodings_witness :
  decode_all ErrEOF [0; 0; 2; 0; 0]%nat (NewFormatDecoder (concat (map encoding ex_elements))) =
  Ok (zip_with (fun v k => (decoded v, take k (payload_of v))) ex_elements [0; 0; 2; 0; 0]%nat).
Proof. apply (decode_encodings _ _ ex_elements_wf). reflexivity. Defined.

(** What Encode does to the writer on every branch: it appends a prefix of the element's
    encoding and reports its length; the prefix is the whole encoding, and the error that of
    the payload's reader, unless the writer failed, whose error it then returns. *)
Theorem Encode_writes_prefix v w :
  exists n err room,
    Encode v w =
      (Z.of_nat n, err, mkWriter (w_out w ++ take n (encoding v)) room (w_err w)) /\
    (n <= length (encoding v))%nat /\
    err = (if decide (n = length (encoding v)) then source_err v else Some (w_err w)).
Proof.
  rewrite Encode_Copy. generalize (encoding v) as b. intros b.
  destruct w as [out [r|] we]; cbn.
  - destruct (decide (length b <= r)%nat).
    + exists (length b). do 2 eexists. rewrite take_ge by lia.
      split; [done|]. split; [lia|]. by rewrite decide_True.
    + exists r. do 2 eexists. split; [done|]. split; [lia|]. rewrite decide_False by lia. done.
  - exists (length b). do 2 eexists. rewrite take_ge by lia.
    split; [done|]. split; [lia|]. by rewrite decide_True.
Qed.

(** ** Inversion of the decoder *)

Ltac rd_inv H :=
  repeat (let Hm := fresh in apply rd_bind_inv in H as (? & ? & Hm & H));
  unfold mret, rd_ret, rd_err, rd_panic in H.

(** Only the table case produces a table. *)
Lemma decode_table_inv e_end hdr s h items s' :
  decode e_end hdr s = (Ok (FormatTable h items), s') ->
  decodeTable e_end hdr s = (Ok (FormatTable h items), s').
Proof.
  unfold decode. intros H.
  repeat (match type of H with context [@decide ?P ?d] => destruct (@decide P d) as [_|_] end);
    try exact H; exfalso;
    unfold decodeEntry, decodeUser, decodeGroup, decodeXAttr, decodeSELinux, decodeFilename,
      decodeSymlink, decodeDevice, decodePayload, decodeFCaps, decodeACLUser, decodeACLGroup,
      decodeACLGroupObj, decodeACLDefault, decodeGoodbye, decodeIndex in H;
    repeat (match type of H with context [@decide ?P ?d] => destruct (@decide P d) as [_|_] end);
    rd_inv H; try discriminate H.
  destruct (last _) as [i|]; [|discriminate H].
  destruct (decide _) in H; discriminate H.
Qed.

Lemma Next_inv e_end d v d' :
  Next e_end d = (Ok (Some v), d') ->
  exists hdr s0 s1 s2, ReadHeader e_end s0 = (Ok hdr, s1) /\ decode e_end hdr s1 = (Ok v, s2).
Proof.
  unfold Next. destruct (ReadHeader _ _) as [[hdr|e| |] s1] eqn:Hh; try done.
  2:{ by destruct (decide (e = ErrEOF)). }
  destruct (decode e_end hdr s1) as [[v'|e| |] s2] eqn:Hd; intros [= <- <-].
  by exists hdr, (d_stream (snd (ReadPayload d (length (d_stream d))))), s1, s2.
Qed.

(** ** The decoder always ends *)

Section tame.

Context (e_end : error).

(** A parser that ends and does not give bytes back. *)
Definition tame {A} (m : rd A) : Prop :=
  forall s, fst (m s) <> NoFuel /\ (length (snd (m s)) <= length s)%nat.

Lemma tame_ret {A} (x : A) : tame (mret x).
Proof. done. Qed.

Lemma tame_err {A} e : tame (rd_err (A := A) e).
Proof. done. Qed.

Lemma tame_panic {A} : tame (rd_panic (A := A)).
Proof. done. Qed.

Lemma tame_bind {A B} (m : rd A) (f : A -> rd B) : tame m -> (forall x, tame (f x)) -> tame (m ≫= f).
Proof.
  intros Hm Hf s. unfold mbind, rd_bind. destruct (Hm s) as [H1 H2].
  destruct (m s) as [[x|e| |] s']; simpl in *; try done.
  destruct (Hf x s') as [H3 H4]. split; [done|lia].
Qed.

Lemma tame_ReadFull n : tame (ReadFull e_end n).
Proof.
  intros s. unfold ReadFull. repeat case_decide; cbn [fst snd length];
    rewrite ?length_drop; (split; [done|lia]).
Qed.

(** A read that succeeds took its bytes. *)
Lemma ReadFull_takes n s b s' : ReadFull e_end n s = (Ok b, s') -> length s = (n + length s')%nat.
Proof.
  unfold ReadFull. repeat case_decide; intros [= <- <-]. rewrite length_drop. lia.
Qed.

Lemma ReadUint64_takes s x s' : ReadUint64 e_end s = (Ok x, s') -> length s = (8 + length s')%nat.
Proof.
  unfold ReadUint64. intros (b & s1 & Hb & Hr)%rd_bind_inv. injection Hr as <- <-.
  by apply ReadFull_takes in Hb.
Qed.

Lemma tame_make n : tame (make_ReadFull e_end n).
Proof. unfold make_ReadFull. case_decide; [apply tame_panic|apply tame_ReadFull]. Qed.

Lemma tame_ReadUint64 : tame (ReadUint64 e_end).
Proof. apply tame_bind; [apply tame_ReadFull|]. intros x. apply tame_ret. Qed.

Lemma tame_ReadString size skip : tame (ReadString e_end size skip).
Proof. apply tame_bind; [apply tame_make|]. intros x. case_decide; [apply tame_panic|apply tame_ret]. Qed.

(** Parsers with fuel, on streams shorter than it. *)
Definition tame_below (n : nat) {A} (m : rd A) : Prop :=
  forall s, (length s < n)%nat -> fst (m s) <> NoFuel /\ (length (snd (m s)) <= length s)%nat.

Lemma tame_below_word n {A} (f : Z -> rd A) :
  (forall x, tame_below n (f x)) -> tame_below (S n) (ReadUint64 e_end ≫= f).
Proof.
  intros Hf s Hs. unfold mbind, rd_bind. destruct (tame_ReadUint64 s) as [H1 H2].
  destruct (ReadUint64 e_end s) as [[x|e| |] s'] eqn:E; simpl in *; try done.
  apply ReadUint64_takes in E. destruct (Hf x s' ltac:(lia)) as [H3 H4]. split; [done|lia].
Qed.

Lemma tame_below_bind n {A B} (m : rd A) (f : A -> rd B) :
  tame_below n m -> (forall x, tame_below n (f x)) -> tame_below n (m ≫= f).
Proof.
  intros Hm Hf s Hs. unfold mbind, rd_bind. destruct (Hm s Hs) as [H1 H2].
  destruct (m s) as [[x|e| |] s']; simpl in *; try done.
  destruct (Hf x s') as [H3 H4]; [lia|]. split; [done|lia].
Qed.

Lemma tame_tame_below n {A} (m : rd A) : tame m -> tame_below n m.
Proof. intros H s _. apply H. Qed.

Lemma tame_goodbye_items fuel n : tame_below fuel (goodbye_items e_end fuel n).
Proof.
  revert n. induction fuel as [|fuel IH]; intros n; [intros s Hs; lia|]. cbn [goodbye_items].
  case_decide; [by apply tame_tame_below, tame_ret|]. apply tame_below_word. intros x.
  repeat (apply tame_below_bind; [first [apply IH|apply tame_tame_below, tame_ReadUint64]|intros ?]).
  apply tame_tame_below, tame_ret.
Qed.

Lemma tame_table_items fuel : tame_below fuel (table_items e_end fuel).
Proof.
  induction fuel as [|fuel IH]; [intros s Hs; lia|]. cbn [table_items].
  apply tame_below_word. intros x. case_decide; [by apply tame_tame_below, tame_ret|].
  repeat (apply tame_below_bind; [first [apply IH|apply tame_tame_below, tame_ReadFull]|intros ?]).
  apply tame_tame_below, tame_ret.
Qed.

Lemma tame_fueled {A} (f : nat -> rd A) :
  (forall n, tame_below n (f n)) -> tame (fun s => f (S (length s)) s).
Proof. intros H s. apply H. lia. Qed.

#[local] Hint Resolve tame_ret tame_err tame_panic tame_ReadFull tame_make tame_ReadUint64 tame_ReadString : desync.

Lemma tame_decode h : tame (decode e_end h).
Proof.
  unfold decode, decodeEntry, decodeUser, decodeGroup, decodeXAttr, decodeSELinux, decodeFilename,
    decodeSymlink, decodeDevice, decodePayload, decodeFCaps, decodeACLUser, decodeACLGroup,
    decodeACLGroupObj, decodeACLDefault, decodeGoodbye, decodeIndex, decodeTable.
  repeat first [ match goal with |- forall _, _ => intros ? end | solve [eauto with desync] | case_decide
    | apply (tame_fueled (table_items e_end)), tame_table_items
    | refine (tame_fueled (fun fuel => goodbye_items e_end fuel _) _); intros ?; apply tame_goodbye_items
    | match goal with |- tame (match ?x with Some _ => _ | None => _ end) => destruct x end
    | apply tame_bind ].
Qed.

Lemma length_ReadPayload d k : (length (d_stream (snd (ReadPayload d k))) <= length (d_stream d))%nat.
Proof. unfold ReadPayload. destruct (d_advance d); cbn [snd d_stream]; rewrite ?length_drop; lia. Qed.

Lemma ReadHeader_takes s h s' : ReadHeader e_end s = (Ok h, s') -> length s = (16 + length s')%nat.
Proof.
  unfold ReadHeader. intros (x & s1 & H1 & (y & s2 & H2 & H3)%rd_bind_inv)%rd_bind_inv.
  injection H3 as <- <-. apply ReadUint64_takes in H1, H2. lia.
Qed.

Lemma tame_ReadHeader : tame (ReadHeader e_end).
Proof.
  unfold ReadHeader.
  repeat first [match goal with |- forall _, _ => intros ? end | solve [eauto with desync] | apply tame_bind].
Qed.

(** Next ends, and an element it returns took bytes from the stream. *)
Lemma Next_takes d :
  fst (Next e_end d) <> NoFuel /\
  (length (d_stream (snd (Next e_end d))) <= length (d_stream d))%nat /\
  (forall v, fst (Next e_end d) = Ok (Some v) ->
    (length (d_stream (snd (Next e_end d))) < length (d_stream d))%nat).
Proof.
  unfold Next. pose proof (length_ReadPayload d (length (d_stream d))) as Hp.
  set (s := d_stream (snd (ReadPayload d (length (d_stream d))))) in *.
  destruct (tame_ReadHeader s) as [H1 H2].
  destruct (ReadHeader e_end s) as [[h|e| |] s1] eqn:Eh; simpl in H1, H2; try done.
  - apply ReadHeader_takes in Eh. destruct (tame_decode h s1) as [H3 H4].
    destruct (decode e_end h s1) as [[v|e| |] s2]; simpl in *; try done; (split; [done|]; split; [lia|]; intros; lia).
  - case_decide; simpl; (split; [done|]; split; [lia|done]).
  - simpl. split; [done|]. split; [lia|done].
Qed.

End tame.
