(* ===== verification/Goodbye.v ===== *)
(** * Goodbye: the search tree of goodbye items (makeGoodbyeBST and bst of format.go)

    A directory in an archive ends with its items, ordered so that the array is a complete
    binary search tree in heap order (children of i at 2i+1 and 2i+2). [inorder] reads such an
    array from left to right; the theorem says that for every input the recursion stays inside
    its slices, fills every position and produces the tree whose in-order reading is the sorted
    input. *)

From S2P Require Import Prelude Format.

(** The comparison of sort.Slice: by hash, then by offset. *)
Definition goodbye_less (a b : FormatGoodbyeItem) : bool :=
  if decide (gHash a < gHash b) then true
  else if decide (gHash b < gHash a) then false
  else bool_decide (gOffset a < gOffset b).

Definition goodbye_le (a b : FormatGoodbyeItem) : Prop := goodbye_less b a = false.

#[global] Instance goodbye_le_dec : RelDecision goodbye_le.
Proof. unfold goodbye_le. intros a b. apply _. Defined.

#[global] Instance goodbye_le_total : Total goodbye_le.
Proof.
  intros a b. unfold goodbye_le, goodbye_less.
  repeat (let H := fresh in goal_decide H); try (by left); try (by right); try lia.
  destruct (decide (gOffset b < gOffset a)); [right|left]; apply bool_decide_eq_false; lia.
Qed.

#[global] Instance goodbye_le_trans : Transitive goodbye_le.
Proof.
  intros a b c. unfold goodbye_le, goodbye_less.
  repeat (let H := fresh in goal_decide H); try done; try lia;
    rewrite ?bool_decide_eq_false; lia.
Qed.

(** bst(in, out, i, e): put the root of the complete tree over [in] at out[i], and the two
    halves below it. A slice index out of range panics. *)
Fixpoint bst (fuel : nat) (inp out : list FormatGoodbyeItem) (i : nat) (e : Z)
  : outcome (list FormatGoodbyeItem) :=
  match inp with
  | [] => Ok out
  | _ :: _ =>
    match fuel with
    | O => NoFuel
    | S fuel =>
      let len := Z.of_nat (length inp) in
      let p := if decide (1 <= e) then 2 ^ (e - 1) else 0 in
      let q := 2 * p in
      let k :=
        if decide (len >= p - 1 + p / 2) then (q - 2) / 2
        else let v := p - 1 + p / 2 - len in (q - 2) / 2 - v in
      if decide (k < 0) then Panic else
      match inp !! Z.to_nat k with
      | None => Panic
      | Some x =>
        if decide (length out <= i)%nat then Panic
        else
          out ← bst fuel (take (Z.to_nat k) inp) (<[i := x]> out) (2 * i + 1) (e - 1);
          bst fuel (drop (S (Z.to_nat k)) inp) out (2 * i + 2) (e - 1)
      end
    end
  end.

Definition zero_item : FormatGoodbyeItem := mkGoodbyeItem 0 0 0.

(** Create a balanced BST of goodbye items in catar. [math.Log2] of the length, truncated, is
    taken as the exact floor of the logarithm. *)
Definition makeGoodbyeBST (inp : list FormatGoodbyeItem) : outcome (list FormatGoodbyeItem) :=
  let inp := merge_sort goodbye_le inp in
  let out := replicate (length inp) zero_item in
  let e := Z.log2 (Z.of_nat (length inp)) + 1 in
  bst (length inp) inp out 0 e.

(** The items of the subtree at [i] of a heap-ordered array, from left to right. *)
Fixpoint inorder (fuel : nat) (out : list FormatGoodbyeItem) (i : nat) : list FormatGoodbyeItem :=
  match fuel with
  | O => []
  | S fuel =>
    match out !! i with
    | None => []
    | Some x => inorder fuel out (2 * i + 1) ++ x :: inorder fuel out (2 * i + 2)
    end
  end.

(** ** Positions of a subtree *)

Definition below (i x : nat) : Prop := exists j, (S x / 2 ^ j)%nat = S i.

Lemma below_refl i : below i i.
Proof. exists 0%nat. apply Nat.div_1_r. Qed.

Lemma below_child i x b : (b <= 1)%nat -> below (2 * i + 1 + b) x -> below i x.
Proof.
  intros Hb [j Hj]. exists (S j). rewrite Nat.pow_succ_r', Nat.mul_comm.
  rewrite <- Nat.Div0.div_div, Hj.
  symmetry. apply (Nat.div_unique _ _ _ b); lia.
Qed.

Lemma below_ge i x : below i x -> (i <= x)%nat.
Proof.
  intros [j Hj]. pose proof (Nat.Div0.div_le_upper_bound (S x) (2 ^ j) (S x)) as H.
  assert (2 ^ j <> 0)%nat by (apply Nat.pow_nonzero; lia). nia.
Qed.

Lemma below_disjoint i x : below (2 * i + 1) x -> below (2 * i + 2) x -> False.
Proof.
  intros [j Hj] [j' Hj']. destruct (decide (j <= j')%nat) as [H|H].
  - replace j' with (j + (j' - j))%nat in Hj' by lia.
    rewrite Nat.pow_add_r, <- Nat.Div0.div_div, Hj in Hj'.
    destruct (j' - j)%nat as [|d]; [rewrite Nat.div_1_r in Hj'; lia|].
    assert (S (2 * i + 1) / 2 ^ S d <= S (2 * i + 1))%nat
      by (apply Nat.Div0.div_le_upper_bound;
          assert (2 ^ S d <> 0)%nat by (apply Nat.pow_nonzero; lia); nia). lia.
  - replace j with (j' + (j - j'))%nat in Hj by lia.
    rewrite Nat.pow_add_r, <- Nat.Div0.div_div, Hj' in Hj.
    destruct (j - j')%nat as [|d] eqn:E; [lia|].
    assert (S (2 * i + 2) / 2 ^ S d <= S (2 * i + 2) / 2)%nat.
    { rewrite Nat.pow_succ_r', <- Nat.Div0.div_div. apply Nat.Div0.div_le_upper_bound.
      assert (2 ^ d <> 0)%nat by (apply Nat.pow_nonzero; lia). nia. }
    assert (S (2 * i + 2) / 2 = S i)%nat by (symmetry; apply (Nat.div_unique _ _ _ 1); lia).
    lia.
Qed.

Lemma inorder_ext fuel out out' i :
  (forall x, below i x -> out !! x = out' !! x) -> inorder fuel out i = inorder fuel out' i.
Proof.
  revert i. induction fuel as [|fuel IH]; intros i H; simpl; [done|].
  rewrite (H i (below_refl i)). destruct (out' !! i); [|done].
  f_equal; [|f_equal]; apply IH; intros x Hx; apply H.
  - apply (below_child i x 0); [lia|]. by rewrite Nat.add_0_r.
  - apply (below_child i x 1); [lia|]. by replace (2 * i + 1 + 1)%nat with (2 * i + 2)%nat by lia.
Qed.

(** ** The shape: levels 0..e-2 are full and the last is filled from the left *)

(** Of the positions below [i], exactly those of a complete tree with [m] nodes and [e] levels
    lie in the array of length [N]. *)
Definition complete (N i m : nat) (e : Z) : Prop :=
  forall j o, (o < 2 ^ j)%nat ->
  ((i + 1) * 2 ^ j - 1 + o < N)%nat <->
  Z.of_nat j < e - 1 \/ (Z.of_nat j = e - 1 /\ Z.of_nat o < Z.of_nat m - (2 ^ (e - 1) - 1)).

Definition fits (m : nat) (e : Z) : Prop :=
  if decide (1 <= e) then 2 ^ (e - 1) - 1 <= Z.of_nat m <= 2 ^ e - 1 else e = 0 /\ m = 0%nat.

(** The size of the left half, as bst computes it. *)
Definition split_at (len e : Z) : Z :=
  let p := 2 ^ (e - 1) in
  if decide (len >= p - 1 + p / 2) then p - 1 else len - p / 2.

Lemma pow2_half e : 2 <= e -> 2 ^ (e - 1) = 2 * 2 ^ (e - 2) /\ 0 < 2 ^ (e - 2).
Proof.
  intros He. split; [|apply Z.pow_pos_nonneg; lia].
  replace (e - 1) with (Z.succ (e - 2)) by lia. apply Z.pow_succ_r. lia.
Qed.

Lemma split_at_fits m e :
  (0 < m)%nat -> fits m e ->
  let k := split_at (Z.of_nat m) e in
  1 <= e /\ 0 <= k < Z.of_nat m /\ fits (Z.to_nat k) (e - 1) /\ fits (m - 1 - Z.to_nat k) (e - 1).
Proof.
  intros Hm Hf k. unfold fits in Hf. destruct (decide (1 <= e)) as [He|]; [|lia].
  split; [done|]. unfold split_at in k. destruct (decide (e = 1)) as [->|Hne].
  - change (2 ^ (1 - 1)) with 1 in *. change (2 ^ 1) with 2 in Hf. change (1 / 2) with 0 in k.
    assert (k = 0) as -> by (subst k; rewrite decide_True by lia; lia).
    split; [lia|]. unfold fits. rewrite !decide_False by lia. lia.
  - destruct (pow2_half e ltac:(lia)) as [Hp Hp0].
    assert (2 ^ e = 2 * 2 ^ (e - 1)) as Hpe.
    { replace e with (Z.succ (e - 1)) at 1 by lia. apply Z.pow_succ_r. lia. }
    assert (2 ^ (e - 1) / 2 = 2 ^ (e - 2)) as Hh by (rewrite Hp, Z.mul_comm; apply Z.div_mul; lia).
    unfold fits. rewrite !decide_True by lia. replace (e - 1 - 1) with (e - 2) by lia.
    subst k. rewrite Hh. goal_decide Hd; lia.
Qed.

Lemma bst_split_at len e :
  1 <= e ->
  (if decide (len >= 2 ^ (e - 1) - 1 + 2 ^ (e - 1) / 2) then (2 * 2 ^ (e - 1) - 2) / 2
   else (2 * 2 ^ (e - 1) - 2) / 2 - (2 ^ (e - 1) - 1 + 2 ^ (e - 1) / 2 - len)) = split_at len e.
Proof.
  intros He. unfold split_at.
  assert ((2 * 2 ^ (e - 1) - 2) / 2 = 2 ^ (e - 1) - 1) as ->.
  { replace (2 * 2 ^ (e - 1) - 2) with ((2 ^ (e - 1) - 1) * 2) by lia. apply Z.div_mul. lia. }
  goal_decide Hd; lia.
Qed.

Lemma complete_root N i m e : (0 < m)%nat -> fits m e -> complete N i m e -> (i < N)%nat.
Proof.
  intros Hm Hf Hc. pose proof (Hc 0%nat 0%nat ltac:(simpl; lia)) as H. simpl in H.
  unfold fits in Hf. destruct (decide (1 <= e)); [|lia].
  assert (i * 1 + 1 * 1 - 1 + 0 = i)%nat as Hi by lia.
  enough ((i + 1) * 1 - 1 + 0 < N)%nat by lia. apply H.
  destruct (decide (e = 1)) as [->|]; [right; change (2 ^ (1 - 1)) with 1; lia|left; lia].
Qed.

Lemma complete_empty N i e : fits 0 e -> complete N i 0 e -> (N <= i)%nat.
Proof.
  intros Hf Hc. pose proof (Hc 0%nat 0%nat ltac:(simpl; lia)) as H. simpl in H.
  unfold fits in Hf. destruct (decide (1 <= e)).
  - assert (e = 1) as ->.
    { destruct (decide (2 <= e)); [|lia].
      destruct (pow2_half e ltac:(lia)). lia. }
    change (2 ^ (1 - 1)) with 1 in *. lia.
  - destruct Hf as [-> _]. lia.
Qed.

Lemma complete_children N i m e :
  (0 < m)%nat -> fits m e -> complete N i m e ->
  let k := Z.to_nat (split_at (Z.of_nat m) e) in
  complete N (2 * i + 1) k (e - 1) /\ complete N (2 * i + 2) (m - 1 - k) (e - 1).
Proof.
  intros Hm Hf Hc k. destruct (split_at_fits m e Hm Hf) as (He & Hk & Hfl & Hfr).
  fold k in Hfl, Hfr. unfold fits in Hf. rewrite decide_True in Hf by done.
  assert (forall j, 2 ^ S j = 2 * 2 ^ j)%nat as Hpow by (intros; apply Nat.pow_succ_r').
  assert (forall j, 0 < 2 ^ j)%nat as Hpos.
  { intros j. assert (2 ^ j <> 0)%nat by (apply Nat.pow_nonzero; lia). lia. }
  assert (forall j, Z.of_nat j = e - 2 -> Z.of_nat (2 ^ j) = 2 ^ (e - 2)) as Hlast.
  { intros j <-. by rewrite Nat2Z.inj_pow. }
  assert (Z.of_nat k = split_at (Z.of_nat m) e) as Hkz by lia. clearbody k.
  assert (2 <= e -> 2 ^ (e - 1) / 2 = 2 ^ (e - 2)) as Hh.
  { intros H2. destruct (pow2_half e H2) as [-> ?]. rewrite Z.mul_comm. apply Z.div_mul. lia. }
  unfold split_at in Hkz.
  split; intros j o Ho; replace (e - 1 - 1) with (e - 2) by lia.
  - assert ((2 * i + 1 + 1) * 2 ^ j - 1 + o = (i + 1) * 2 ^ S j - 1 + o)%nat as ->
      by (rewrite Hpow; specialize (Hpos j); nia).
    rewrite (Hc (S j) o) by (rewrite Hpow; lia).
    specialize (Hlast j). destruct (decide (e = 1)) as [->|Hne]; [lia|].
    destruct (pow2_half e ltac:(lia)) as [Hp Hp0]. rewrite Hh in Hkz by lia.
    destruct (decide (Z.of_nat m >= 2 ^ (e - 1) - 1 + 2 ^ (e - 2))); lia.
  - assert ((2 * i + 2 + 1) * 2 ^ j - 1 + o = (i + 1) * 2 ^ S j - 1 + (2 ^ j + o))%nat as ->
      by (rewrite Hpow; specialize (Hpos j); nia).
    rewrite (Hc (S j) (2 ^ j + o)%nat) by (rewrite Hpow; lia).
    specialize (Hlast j). destruct (decide (e = 1)) as [->|Hne]; [lia|].
    destruct (pow2_half e ltac:(lia)) as [Hp Hp0]. rewrite Hh in Hkz by lia.
    destruct (decide (Z.of_nat m >= 2 ^ (e - 1) - 1 + 2 ^ (e - 2))); lia.
Qed.

(** ** bst *)

Lemma bst_correct N fuel inp out i e :
  length out = N -> (length inp <= fuel)%nat -> fits (length inp) e -> complete N i (length inp) e ->
  exists out', bst fuel inp out i e = Ok out' /\ length out' = N /\
    (forall x, ~ below i x -> out' !! x = out !! x) /\
    (forall f, (length inp < f)%nat -> inorder f out' i = inp).
Proof.
  revert inp out i e. induction fuel as [|fuel IH]; intros inp out i e Hl Hf Hfit Hc.
  { destruct inp; [|simpl in Hf; lia]. exists out. repeat split; try done.
    intros [|f] _; [done|]. simpl. apply complete_empty in Hc; [|done].
    by rewrite lookup_ge_None_2 by lia. }
  destruct inp as [|a inp'] eqn:Einp.
  { exists out. repeat split; try done. intros [|f] _; [done|]. simpl.
    apply complete_empty in Hc; [|done]. by rewrite lookup_ge_None_2 by lia. }
  rewrite <- Einp in *. assert (0 < length inp)%nat as Hpos by (rewrite Einp; simpl; lia).
  assert (bst (S fuel) inp out i e = let k := split_at (Z.of_nat (length inp)) e in
    match inp !! Z.to_nat k with
    | None => Panic
    | Some x =>
      out ← bst fuel (take (Z.to_nat k) inp) (<[i := x]> out) (2 * i + 1) (e - 1);
      bst fuel (drop (S (Z.to_nat k)) inp) out (2 * i + 2) (e - 1)
    end) as ->.
  { destruct (split_at_fits _ _ Hpos Hfit) as (He & Hk & _).
    cbn [bst]. rewrite (decide_True (P := 1 <= e)) by done.
    cbv zeta. rewrite bst_split_at by done. rewrite decide_False by lia.
    pose proof (complete_root _ _ _ _ Hpos Hfit Hc).
    destruct (lookup_lt_is_Some_2 inp (Z.to_nat (split_at (Z.of_nat (length inp)) e)))
      as [x ->]; [lia|]. rewrite decide_False by lia. clear -Hpos. by destruct inp; [simpl in Hpos; lia|]. }
  cbv zeta. destruct (split_at_fits _ _ Hpos Hfit) as (He & Hk & Hfl & Hfr).
  destruct (complete_children _ _ _ _ Hpos Hfit Hc) as [Hcl Hcr].
  pose proof (complete_root _ _ _ _ Hpos Hfit Hc) as Hi.
  set (k := Z.to_nat (split_at (Z.of_nat (length inp)) e)) in *.
  assert (k < length inp)%nat as Hkn by lia.
  destruct (lookup_lt_is_Some_2 inp k Hkn) as [x Hx]. rewrite Hx.
  assert (length (take k inp) = k) as Hlt by (rewrite length_take; lia).
  assert (length (drop (S k) inp) = (length inp - 1 - k)%nat) as Hld by (rewrite length_drop; lia).
  destruct (IH (take k inp) (<[i := x]> out) (2 * i + 1)%nat (e - 1))
    as (out1 & -> & Hl1 & Hout1 & Hin1); [by rewrite length_insert|lia|by rewrite Hlt..|].
  cbn [mbind outcome_bind].
  destruct (IH (drop (S k) inp) out1 (2 * i + 2)%nat (e - 1))
    as (out2 & -> & Hl2 & Hout2 & Hin2); [done|lia|by rewrite Hld..|].
  exists out2. split; [done|]. split; [done|]. split.
  - intros y Hy. rewrite Hout2.
    2:{ intros Hb. apply Hy, (below_child i y 1); [lia|].
        by replace (2 * i + 1 + 1)%nat with (2 * i + 2)%nat by lia. }
    rewrite Hout1 by (intros Hb; apply Hy, (below_child i y 0); [lia|]; by rewrite Nat.add_0_r).
    apply list_lookup_insert_ne. intros ->. apply Hy, below_refl.
  - intros [|f] Hlf; [lia|]. cbn [inorder].
    assert (out2 !! i = Some x) as ->.
    { rewrite Hout2 by (intros H%below_ge; lia). rewrite Hout1 by (intros H%below_ge; lia).
      apply list_lookup_insert_eq. lia. }
    rewrite (inorder_ext f out2 out1 (2 * i + 1)), Hin1, Hin2 by
      (lia || (intros y Hy; apply Hout2; intros Hy'; by apply (below_disjoint i y))).
    rewrite <- (take_drop k inp) at 3. by rewrite (drop_S inp x k Hx).
Qed.

Lemma fits_log2 m : fits m (Z.log2 (Z.of_nat m) + 1).
Proof.
  unfold fits. destruct (decide (m = 0)%nat) as [->|Hm].
  { vm_compute. split; discriminate. }
  pose proof (Z.log2_nonneg (Z.of_nat m)). rewrite decide_True by lia.
  destruct (Z.log2_spec (Z.of_nat m)) as [H1 H2]; [lia|].
  replace (Z.log2 (Z.of_nat m) + 1 - 1) with (Z.log2 (Z.of_nat m)) by lia.
  unfold Z.succ in H2. lia.
Qed.

Lemma complete_all m e : fits m e -> complete m 0 m e.
Proof.
  intros Hf j o Ho. unfold fits in Hf.
  assert (2 ^ j <> 0)%nat by (apply Nat.pow_nonzero; lia).
  replace ((0 + 1) * 2 ^ j - 1 + o)%nat with (2 ^ j - 1 + o)%nat by lia.
  assert (Z.of_nat (2 ^ j) = 2 ^ Z.of_nat j) as Hz by (by rewrite Nat2Z.inj_pow).
  destruct (decide (1 <= e)) as [He|]; [|lia].
  destruct (decide (Z.of_nat j < e - 1)) as [Hlt|].
  { pose proof (Z.pow_le_mono_r 2 (Z.of_nat j + 1) (e - 1) ltac:(lia) ltac:(lia)) as H1.
    rewrite Z.pow_add_r in H1 by lia. lia. }
  destruct (decide (Z.of_nat j = e - 1)) as [Heq|]; [rewrite Heq in Hz; lia|].
  pose proof (Z.pow_le_mono_r 2 e (Z.of_nat j) ltac:(lia) ltac:(lia)). lia.
Qed.

Lemma makeGoodbyeBST_spec inp :
  exists out, makeGoodbyeBST inp = Ok out /\ length out = length inp /\
    inorder (S (length inp)) out 0 = merge_sort goodbye_le inp /\
    Sorted goodbye_le (inorder (S (length inp)) out 0) /\
    inorder (S (length inp)) out 0 ≡ₚ inp.
Proof.
  unfold makeGoodbyeBST. set (s := merge_sort goodbye_le inp).
  assert (s ≡ₚ inp) as Hp by apply merge_sort_Permutation.
  assert (length s = length inp) as Hl by (by apply Permutation_length).
  pose proof (fits_log2 (length s)) as Hf.
  destruct (bst_correct (length s) (length s) s (replicate (length s) zero_item) 0
    (Z.log2 (Z.of_nat (length s)) + 1)) as (out & Hb & Hlo & _ & Hin);
    [by rewrite length_replicate|done|done|by apply complete_all|].
  exists out. specialize (Hin (S (length inp)) ltac:(lia)). rewrite Hin.
  repeat split; [done|by rewrite Hlo| |done]. apply Sorted_merge_sort. apply _.
Qed.

(** C33. makeGoodbyeBST on every list of items succeeds without leaving its slices and returns
    an array of the same length that is a search tree in heap order: read from left to right it
    is the input sorted by hash and offset, so every item occurs and no position is left
    empty. *)
Theorem makeGoodbyeBST_correct inp :
  exists out, makeGoodbyeBST inp = Ok out /\ length out = length inp /\
    inorder (S (length inp)) out 0 = merge_sort goodbye_le inp /\
    Sorted goodbye_le (inorder (S (length inp)) out 0) /\
    inorder (S (length inp)) out 0 ≡ₚ inp.
Proof. apply makeGoodbyeBST_spec. Qed.

(** The array holds only items of the input. *)
Lemma bst_Forall (P : FormatGoodbyeItem -> Prop) fuel inp out i e out' :
  Forall P inp -> Forall P out -> bst fuel inp out i e = Ok out' -> Forall P out'.
Proof.
  revert inp out i e out'. induction fuel as [|fuel IH]; intros [|a inp] out i e out' Hi Ho;
    try (by intros [= <-]).
  cbn [bst]. match goal with |- context [decide (?x < 0)] => generalize x; intros k end.
  destruct (decide (k < 0)); [done|].
  destruct ((a :: inp) !! Z.to_nat k) as [x|] eqn:Hx; [|done].
  destruct (decide (length out <= i)%nat); [done|].
  intros (o1 & H1 & H2)%outcome_bind_ok.
  assert (P x) as HPx by (exact (Forall_lookup_1 _ _ _ _ Hi Hx)).
  apply IH in H1; [|by apply Forall_take|by apply Forall_insert].
  apply IH in H2; [done|by apply Forall_drop|done].
Qed.

Lemma makeGoodbyeBST_Forall (P : FormatGoodbyeItem -> Prop) inp out :
  P zero_item -> Forall P inp -> makeGoodbyeBST inp = Ok out -> Forall P out.
Proof.
  intros Hz Hi. apply bst_Forall.
  - by rewrite merge_sort_Permutation.
  - by apply Forall_replicate.
Qed.
