(* ===== verification/Index.v ===== *)
(** * Index: index files (index.go) and the index stores of localindex.go and consoleindex.go

    [IndexFromReader] parses an index and checks it, [WriteTo] writes one, [Length] is the size
    of the stream it describes. The theorems: what is written is read back, every accepted
    index is well formed, and the reasons for a rejection are exactly those of the code. *)

From S2P Require Import Prelude FileMode Format.

(** The digest algorithm in use (digest.go); its sums are 32 bytes. *)
Inductive Algorithm := SHA512_256 | SHA256.

#[global] Instance Algorithm_eq_dec : EqDecision Algorithm.
Proof. solve_decision. Defined.

Record IndexChunk := mkIndexChunk { ID : ChunkID; Start : Z; CSize : Z }.

#[global] Instance IndexChunk_eq_dec : EqDecision IndexChunk.
Proof. solve_decision. Defined.

Record Index := mkIndex {
  iHeader : FormatHeader;
  FeatureFlags : Z;
  ChunkSizeMin : Z;
  ChunkSizeAvg : Z;
  ChunkSizeMax : Z;
  Chunks : list IndexChunk
}.

(** ** Reading *)

(** The loop that turns table items (end offsets) into chunks (start and size). *)
Fixpoint convert_table (max lastOffset : Z) (items : list FormatTableItem)
  : outcome (list IndexChunk) :=
  match items with
  | [] => Ok []
  | r :: items =>
    let size := u64 (tOffset r - lastOffset) in
    if decide (size > max) then Err (Errorf "chunk size is larger than maximum")
    else
      l ← convert_table max (tOffset r) items;
      Ok (mkIndexChunk (tChunk r) lastOffset size :: l)
  end.

(** The feature flags must match the digest algorithm the library uses. *)
Definition check_algorithm (alg : Algorithm) (flags : Z) : option error :=
  match alg with
  | SHA512_256 =>
    if decide (Z.land flags CaFormatSHA512256 = 0) then Some (Errorf "index file uses SHA256")
    else None
  | SHA256 =>
    if decide (Z.land flags CaFormatSHA512256 <> 0) then Some (Errorf "index file uses SHA512-256")
    else None
  end.

Definition IndexFromReader (e_end : error) (alg : Algorithm) (r : bytes) : outcome Index :=
  let d := NewFormatDecoder r in
  match Next e_end d with
  | (Err e, _) => Err (Wrapped e "reading index")
  | (Panic, _) => Panic
  | (NoFuel, _) => NoFuel
  | (Ok (Some (FormatIndex h flags mn av mx)), d) =>
    match check_algorithm alg flags with
    | Some e => Err e
    | None =>
      match Next e_end d with
      | (Err e, _) => Err (Wrapped e "reading chunk table")
      | (Panic, _) => Panic
      | (NoFuel, _) => NoFuel
      | (Ok (Some (FormatTable _ items)), _) =>
        l ← convert_table mx 0 items;
        Ok (mkIndex h flags mn av mx l)
      | (Ok _, _) => Err (Errorf "index table not found in input")
      end
    end
  | (Ok _, _) => Err (Errorf "input is not an index file")
  end.

(** ** Writing *)

(** The loop that turns chunks back into end offsets. *)
Fixpoint convert_chunks (offset : Z) (cs : list IndexChunk) : list FormatTableItem :=
  match cs with
  | [] => []
  | c :: cs =>
    let offset := u64 (offset + CSize c) in
    mkTableItem offset (ID c) :: convert_chunks offset cs
  end.

Definition index_element (i : Index) : FormatElement Source :=
  FormatIndex (mkHeader 48 CaFormatIndex) (FeatureFlags i) (ChunkSizeMin i) (ChunkSizeAvg i)
    (ChunkSizeMax i).

Definition table_element (i : Index) : FormatElement Source :=
  FormatTable (mkHeader MaxUint64 CaFormatTable) (convert_chunks 0 (Chunks i)).

(** WriteTo: both elements are encoded into a bufio.Writer, which is flushed. An error of the
    destination is sticky in the bufio.Writer, so whenever it happens it is the error Flush
    returns, and the destination holds what it accepted; the count, which is only
    meaningful without an error, is given in that case. *)
Definition WriteTo (i : Index) (w : Writer) : outcome Z * Writer :=
  let bw := mkWriter [] None (w_err w) in
  let '(n, _, bw) := Encode (index_element i) bw in
  let '(n1, _, bw) := Encode (table_element i) bw in
  match Copy (w_out bw, None) w with
  | (_, Some err, w) => (Err err, w)
  | (_, None, w) => (Ok (n + n1), w)
  end.

(** Length returns the total (uncompressed) size of the indexed stream. *)
Definition Length (i : Index) : Z :=
  match last (Chunks i) with
  | None => 0
  | Some lastChunk => i64 (u64 (Start lastChunk + CSize lastChunk))
  end.

(** ** Index stores *)

(** The files of a directory tree, by path; reading or inspecting a [broken] path fails with an
    error other than "does not exist" (a bad disk, a missing permission). *)
Record FileSystem := mkFS {
  files : gmap bytes bytes;
  dirs : gset bytes;
  broken : gset bytes
}.

Definition io_error : error := Errorf "input/output error".

(** os.ReadFile *)
Definition ReadFile (fs : FileSystem) (p : bytes) : outcome bytes :=
  if decide (p ∈ broken fs) then Err io_error
  else match files fs !! p with Some b => Ok b | None => Err ErrNotExist end.

(** The error of os.Stat *)
Definition Stat (fs : FileSystem) (p : bytes) : option error :=
  if decide (p ∈ broken fs) then Some io_error
  else if decide (p ∈ dom (files fs) \/ p ∈ dirs fs) then None else Some ErrNotExist.

Definition HasSuffix (s suffix : bytes) : bool :=
  bool_decide (drop (length s - length suffix) s = suffix) &&
  bool_decide (length suffix <= length s)%nat.

Record LocalIndexStore := mkLocalIndexStore { lis_Path : bytes }.

Definition NewLocalIndexStore (fs : FileSystem) (path : bytes) : outcome LocalIndexStore :=
  if decide (path ∈ dirs fs) then
    Ok (mkLocalIndexStore (if HasSuffix path (str "/") then path else path ++ str "/"))
  else if decide (path ∈ dom (files fs)) then Err (Errorf "is not a directory")
  else Err ErrNotExist.

Definition GetIndexReader (fs : FileSystem) (s : LocalIndexStore) (name : bytes) : outcome bytes :=
  ReadFile fs (lis_Path s ++ name).

(** GetIndex; no error of IndexFromReader satisfies os.IsNotExist, which looks for the errors of
    system calls. *)
Definition GetIndex (fs : FileSystem) (alg : Algorithm) (s : LocalIndexStore) (name : bytes)
  : outcome Index :=
  b ← GetIndexReader fs s name;
  IndexFromReader ErrEOF alg b.

(** StoreIndex: create (or truncate) the file, then write to it. *)
Definition StoreIndex (fs : FileSystem) (s : LocalIndexStore) (name : bytes) (idx : Index)
  (room : option nat) (we : error) : option error * FileSystem :=
  let '(r, w) := WriteTo idx (mkWriter [] room we) in
  (match r with Err e => Some e | _ => None end,
   mkFS (<[lis_Path s ++ name := w_out w]> (files fs)) (dirs fs) (broken fs)).

(** The console store reads standard input and writes standard output. *)
Definition ConsoleGetIndex (alg : Algorithm) (stdin : bytes) : outcome Index :=
  IndexFromReader ErrEOF alg stdin.

Definition ConsoleStoreIndex (idx : Index) (stdout : Writer) : option error * Writer :=
  let '(r, w) := WriteTo idx stdout in
  (match r with Err e => Some e | _ => None end, w).

(** ** Well-formed indexes *)

(** The chunks from offset [off] on: contiguous, with sizes up to [mx]. *)
Fixpoint contiguous (mx off : Z) (cs : list IndexChunk) : Prop :=
  match cs with
  | [] => True
  | c :: cs =>
    Start c = off /\ 0 <= CSize c <= mx /\ length (ID c) = 32%nat /\
    contiguous mx (u64 (off + CSize c)) cs
  end.

Lemma convert_table_contiguous mx off items l :
  is_u64 off ->
  Forall (fun i => 0 < tOffset i < 2 ^ 64 /\ length (tChunk i) = 32%nat) items ->
  convert_table mx off items = Ok l ->
  contiguous mx off l /\ Forall2 (fun c i => ID c = tChunk i) l items.
Proof.
  intros Ho Hall. revert off l Ho. induction Hall as [|r items [Hr Hc] _ IH]; intros off l Ho; simpl.
  { intros [= <-]. by split. }
  goal_decide Hs; [done|]. destruct (convert_table mx (tOffset r) items) as [l'| | |] eqn:E;
    simpl; intros [= <-].
  destruct (IH (tOffset r) l') as [H1 H2]; [mach_lia|done|]. split; [|by constructor].
  pose proof (u64_range (tOffset r - off)) as Hu. unfold is_u64 in Hu. simpl.
  repeat split; [lia|lia|done|].
  replace (u64 (off + u64 (tOffset r - off))) with (tOffset r); [done|].
  unfold u64. rewrite Zplus_mod_idemp_r.
  replace (off + (tOffset r - off)) with (tOffset r) by lia. symmetry. apply Z.mod_small. lia.
Qed.

Lemma convert_round_trip mx off cs :
  is_u64 off -> mx < 2 ^ 64 -> contiguous mx off cs ->
  Forall (fun i => tOffset i <> 0) (convert_chunks off cs) ->
  convert_table mx off (convert_chunks off cs) = Ok cs /\
  Forall (fun i => 0 < tOffset i < 2 ^ 64 /\ length (tChunk i) = 32%nat) (convert_chunks off cs).
Proof.
  intros Ho Hmx. revert off Ho. induction cs as [|[id st sz] cs IH]; intros off Ho; simpl.
  { intros _ _. split; constructor. }
  intros (-> & Hs & Hid & Hc) Hall. inversion_clear Hall as [|? ? Hz Hall']. simpl in Hz.
  pose proof (u64_range (off + sz)) as Hu. destruct (IH _ Hu Hc Hall') as [H1 H2].
  assert (u64 (u64 (off + sz) - off) = sz) as ->.
  { unfold u64. rewrite Zminus_mod_idemp_l.
    replace (off + sz - off) with sz by lia. apply Z.mod_small. mach_lia. }
  rewrite decide_False by lia. rewrite H1. simpl. split; [done|].
  constructor; [|done]. simpl. split; [mach_lia|done].
Qed.

(** ** Writing and reading *)

Record well_formed_index (alg : Algorithm) (i : Index) : Prop := {
  wfi_flags : is_u64 (FeatureFlags i);
  wfi_sizes : is_u64 (ChunkSizeMin i) /\ is_u64 (ChunkSizeAvg i) /\ is_u64 (ChunkSizeMax i);
  wfi_alg : check_algorithm alg (FeatureFlags i) = None;
  wfi_chunks : contiguous (ChunkSizeMax i) 0 (Chunks i);
  (* an end offset of zero would end the table *)
  wfi_offsets : Forall (fun t => tOffset t <> 0) (convert_chunks 0 (Chunks i))
}.

Definition index_bytes (i : Index) : bytes :=
  encoding (index_element i) ++ encoding (table_element i).

Lemma WriteTo_Copy i w :
  WriteTo i w =
  match Copy (index_bytes i, None) w with
  | (_, Some err, w') => (Err err, w')
  | (_, None, w') => (Ok (Z.of_nat (length (index_bytes i))), w')
  end.
Proof.
  unfold WriteTo. rewrite !Encode_Copy. cbn [Copy w_room w_out w_err app].
  rewrite Encode_Copy. cbn [Copy w_room w_out w_err]. fold (index_bytes i).
  assert (Z.of_nat (length (index_bytes i)) = Z.of_nat (length (encoding (index_element i))) +
    Z.of_nat (length (encoding (table_element i)))) as ->.
  { unfold index_bytes. rewrite length_app. lia. }
  done.
Qed.

Lemma index_element_wf alg i : well_formed_index alg i -> well_formed (index_element i).
Proof. intros []. split; [done|tauto]. Qed.

Lemma table_element_wf alg i : well_formed_index alg i -> well_formed (table_element i).
Proof.
  intros []. split; [done|]. apply (convert_round_trip (ChunkSizeMax i)); [|apply wfi_sizes0|done|done].
  unfold is_u64. lia.
Qed.

Lemma IndexFromReader_bytes e_end alg i s :
  well_formed_index alg i ->
  IndexFromReader e_end alg (index_bytes i ++ s) =
  Ok (mkIndex (mkHeader 48 CaFormatIndex) (FeatureFlags i) (ChunkSizeMin i) (ChunkSizeAvg i)
        (ChunkSizeMax i) (Chunks i)).
Proof.
  intros Hi. unfold IndexFromReader, index_bytes. rewrite <- app_assoc.
  rewrite (Next_element e_end _ _ (index_element_wf _ _ Hi)).
  cbn [decoded index_element payload_of payload_limit app]. destruct Hi.
  rewrite wfi_alg0. fold (NewFormatDecoder (encoding (table_element i) ++ s)).
  rewrite Next_element by (eapply table_element_wf; by split).
  cbn [decoded table_element].
  destruct (convert_round_trip (ChunkSizeMax i) 0 (Chunks i)) as [-> _];
    [unfold is_u64; lia|apply wfi_sizes0|done|done|]. done.
Qed.

(** C13. Writing an index and reading it back gives the same index (with the header WriteTo
    always writes), whatever bytes follow in the stream, for every index whose chunks are
    contiguous and within the maximum size. *)
Theorem index_round_trip e_end alg i w tail :
  well_formed_index alg i -> w_room w = None ->
  exists w', WriteTo i w = (Ok (Z.of_nat (length (index_bytes i))), w') /\
    w_out w' = w_out w ++ index_bytes i /\
    IndexFromReader e_end alg (index_bytes i ++ tail) =
    Ok (mkIndex (mkHeader 48 CaFormatIndex) (FeatureFlags i) (ChunkSizeMin i) (ChunkSizeAvg i)
          (ChunkSizeMax i) (Chunks i)).
Proof.
  intros Hi Hw. rewrite WriteTo_Copy. unfold Copy. rewrite Hw. eexists.
  split; [done|]. split; [done|]. by apply IndexFromReader_bytes.
Qed.

Definition ex_index : Index :=
  mkIndex (mkHeader 48 CaFormatIndex) CaFormatSHA512256 64 256 1024
    [mkIndexChunk (replicate 32 Byte.x01) 0 100; mkIndexChunk (replicate 32 Byte.x02) 100 1024].

Lemma ex_index_wf : well_formed_index SHA512_256 ex_index.
Proof.
  split.
  - vm_range.
  - split; [vm_range|]. split; vm_range.
  - reflexivity.
  - repeat (split; [first [reflexivity | vm_range]|]). exact I.
  - repeat constructor; by vm_compute.
Qed.

Lemma index_round_trip_witness :
  IndexFromReader ErrEOF SHA512_256 (index_bytes ex_index ++ []) = Ok ex_index.
Proof.
  destruct (index_round_trip ErrEOF SHA512_256 ex_index (mkWriter [] None ErrEOF) []
    ex_index_wf eq_refl) as (w' & _ & _ & H). exact H.
Defined.

(** ** Reading arbitrary bytes *)

Lemma table_items_spec e_end fuel s items s' :
  table_items e_end fuel s = (Ok items, s') ->
  Forall (fun i => 0 < tOffset i < 2 ^ 64 /\ length (tChunk i) = 32%nat) items.
Proof.
  revert s items. induction fuel as [|fuel IH]; intros s items; [done|]. simpl.
  intros (o & s1 & Ho & H)%rd_bind_inv.
  destruct (decide (o = 0)) as [|Hne]; [by injection H as <- <-|].
  apply rd_bind_inv in H as (c & s2 & Hc & H). apply rd_bind_inv in H as (l & s3 & Hl & H).
  injection H as <- <-. constructor; [|by eapply IH]. simpl. split.
  - unfold ReadUint64 in Ho. apply rd_bind_inv in Ho as (b & s4 & Hb & Ho). injection Ho as <- <-.
    pose proof (Uint64_range b). mach_lia.
  - unfold ReadID, ReadFull in Hc. destruct (decide (32 <= length s1)%nat);
      [|by destruct (decide (s1 = []))]. injection Hc as <- <-. rewrite length_take. lia.
Qed.

Lemma Next_table_items e_end d h items d' :
  Next e_end d = (Ok (Some (FormatTable h items)), d') ->
  Forall (fun i => 0 < tOffset i < 2 ^ 64 /\ length (tChunk i) = 32%nat) items.
Proof.
  intros (hdr & _ & s1 & s2 & _ & H%decode_table_inv)%Next_inv. unfold decodeTable in H.
  destruct (decide (Size hdr <> MaxUint64)); [done|].
  apply rd_bind_inv in H as (l & s3 & Hl & H).
  apply rd_bind_inv in H as (x & s4 & _ & H). destruct (decide (x <> 0)); [done|].
  rd_inv H. destruct (decide _) in H; [done|]. injection H as <- <- <-.
  eapply table_items_spec, Hl.
Qed.

(** The sizes of the chunks, added up. *)
Definition total_size (cs : list IndexChunk) : Z := foldr (fun c n => CSize c + n) 0 cs.

Lemma contiguous_last mx off cs c :
  contiguous mx off cs -> last cs = Some c ->
  u64 (Start c + CSize c) = u64 (off + total_size cs).
Proof.
  revert off. induction cs as [|a cs IH]; intros off; [done|]. intros (Hs & _ & _ & Hc) Hl.
  destruct cs as [|b cs].
  { injection Hl as <-. subst off. simpl. f_equal. lia. }
  rewrite last_cons_cons in Hl. rewrite (IH _ Hc Hl). unfold u64. rewrite Zplus_mod_idemp_l.
  f_equal. simpl. lia.
Qed.

Lemma total_size_nonneg mx off cs : contiguous mx off cs -> 0 <= total_size cs.
Proof.
  revert off. induction cs as [|c cs IH]; intros off; simpl; [lia|].
  intros (_ & ? & _ & Hc). apply IH in Hc. lia.
Qed.

Lemma Length_total mx i :
  contiguous mx 0 (Chunks i) -> total_size (Chunks i) < 2 ^ 63 -> Length i = total_size (Chunks i).
Proof.
  intros Hc Hlt. pose proof (total_size_nonneg _ _ _ Hc). unfold Length.
  destruct (last (Chunks i)) as [c|] eqn:Hl.
  - rewrite (contiguous_last _ _ _ _ Hc Hl), u64_small, i64_small by mach_lia. lia.
  - apply last_None in Hl. by rewrite Hl.
Qed.

(** In general Length is the sum as a signed 64-bit number. *)
Lemma Length_wraps mx i : contiguous mx 0 (Chunks i) -> Length i = i64 (total_size (Chunks i)).
Proof.
  intros Hc. unfold Length. destruct (last (Chunks i)) as [c|] eqn:Hl.
  - by rewrite (contiguous_last _ _ _ _ Hc Hl), i64_u64.
  - apply last_None in Hl. by rewrite Hl.
Qed.

Lemma IndexFromReader_contiguous e_end alg s i :
  IndexFromReader e_end alg s = Ok i ->
  check_algorithm alg (FeatureFlags i) = None /\ contiguous (ChunkSizeMax i) 0 (Chunks i).
Proof.
  unfold IndexFromReader. destruct (Next e_end (NewFormatDecoder s)) as [[[v|]|e| |] d]; try done.
  destruct v; try done. destruct (check_algorithm alg FeatureFlags0) as [e|] eqn:Ha; [done|].
  destruct (Next e_end d) as [[[v|]|e| |] d'] eqn:Hn; try done. destruct v; try done.
  pose proof (Next_table_items _ _ _ _ _ Hn) as Hall.
  destruct (convert_table ChunkSizeMax0 0 Items) as [l| | |] eqn:Hc; simpl; intros [= <-].
  split; [done|]. simpl.
  refine (proj1 (convert_table_contiguous _ _ _ _ _ Hall Hc)). unfold is_u64. lia.
Qed.

(** C32. Whatever bytes IndexFromReader accepts, the index it returns is well formed: its feature
    flags match the digest algorithm in use, its chunks are contiguous from offset 0, none is
    larger than the index's maximum chunk size and every ID has 32 bytes; and its Length is
    the sum of the chunk sizes if that is below 2^63. (Offsets up to 2^64 and beyond, wrapping around, are
    accepted too; Length is then the sum as a signed 64-bit number, which can be negative.) *)
Theorem accepted_index_well_formed e_end alg s i :
  IndexFromReader e_end alg s = Ok i ->
  check_algorithm alg (FeatureFlags i) = None /\ contiguous (ChunkSizeMax i) 0 (Chunks i) /\
  Length i = i64 (total_size (Chunks i)) /\
  (total_size (Chunks i) < 2 ^ 63 -> Length i = total_size (Chunks i)).
Proof.
  intros [Ha Hc]%IndexFromReader_contiguous. split; [done|]. split; [done|].
  split; [by apply (Length_wraps (ChunkSizeMax i))|]. intros Hlt. by apply (Length_total (ChunkSizeMax i)).
Qed.

Lemma accepted_index_well_formed_witness :
  contiguous 1024 0 (Chunks ex_index).
Proof.
  eapply (accepted_index_well_formed ErrEOF SHA512_256 (index_bytes ex_index ++ []) ex_index).
  exact (IndexFromReader_bytes ErrEOF SHA512_256 ex_index [] ex_index_wf).
Defined.

(** ** Index stores *)

(** A local index store gives back the index that was last stored under a name, and storing
    under one name leaves the indexes of all others alone. *)
Theorem local_index_store_round_trip fs s alg name idx e fs' :
  well_formed_index alg idx -> lis_Path s ++ name ∉ broken fs ->
  StoreIndex fs s name idx None ErrEOF = (e, fs') ->
  e = None /\
  GetIndex fs' alg s name =
    Ok (mkIndex (mkHeader 48 CaFormatIndex) (FeatureFlags idx) (ChunkSizeMin idx)
          (ChunkSizeAvg idx) (ChunkSizeMax idx) (Chunks idx)) /\
  forall other, other <> name -> GetIndex fs' alg s other = GetIndex fs alg s other.
Proof.
  intros Hi Hb. unfold StoreIndex. rewrite WriteTo_Copy. unfold Copy. cbn [w_room w_out app].
  intros [= <- <-]. split; [done|]. unfold GetIndex, GetIndexReader, ReadFile. cbn [files broken]. split.
  - rewrite decide_False, lookup_insert_eq by done. cbn [mbind outcome_bind].
    pose proof (IndexFromReader_bytes ErrEOF alg idx [] Hi) as H. by rewrite app_nil_r in H.
  - intros other Hne. rewrite lookup_insert_ne; [done|]. intros H%app_inv_head. congruence.
Qed.

Lemma local_index_store_round_trip_witness :
  exists e fs', StoreIndex (mkFS ∅ ∅ ∅) (mkLocalIndexStore (str "/idx/")) (str "a.caibx") ex_index
    None ErrEOF = (e, fs') /\
    GetIndex fs' SHA512_256 (mkLocalIndexStore (str "/idx/")) (str "a.caibx") = Ok ex_index.
Proof.
  destruct (StoreIndex (mkFS ∅ ∅ ∅) (mkLocalIndexStore (str "/idx/")) (str "a.caibx") ex_index
    None ErrEOF) as [e fs'] eqn:E.
  exists e, fs'. split; [reflexivity|].
  destruct (local_index_store_round_trip _ _ SHA512_256 _ _ _ _ ex_index_wf (not_elem_of_empty _) E) as (_ & H & _).
  exact H.
Defined.
