(* ===== verification/Chunk.v ===== *)
(** * Chunk: chunk.go, coverter.go, digest.go, compress.go and nullchunk.go

    The hash and the compressor are code outside the repository: the class [Codec] has them as
    operations, with the laws the program relies on (sums have 32 bytes, decompression inverts
    compression). A chunk holds plain data, storage data or both, and computes the missing
    parts on demand; the memoisation is explicit and shown to be unobservable. *)

From S2P Require Import Prelude Format Index.

Class Codec := {
  Algorithm_ : Algorithm;
  Sum : bytes -> bytes;                     (* Digest.Sum *)
  Compress : bytes -> bytes;                (* zstd: EncodeAll does not fail *)
  Decompress : bytes -> outcome bytes;      (* zstd: DecodeAll *)
  length_Sum : forall b, length (Sum b) = 32%nat;
  Decompress_Compress : forall b, Decompress (Compress b) = Ok b;
  Decompress_nil : Decompress [] = Ok [];   (* no input, no output *)
  Decompress_total : forall b, match Decompress b with Ok _ | Err _ => True | _ => False end
}.

(** A concrete codec, to evaluate the model: a "hash" that pads or cuts to 32 bytes, and a
    "compressor" that adds a marker byte. *)
Lemma toy_Sum_length (b : bytes) : length (take 32 (b ++ replicate 32 Byte.x00)) = 32%nat.
Proof. rewrite length_take, length_app, length_replicate. lia. Qed.

Definition toy_Decompress (b : bytes) : outcome bytes :=
  match b with
  | c :: b' => if decide (c = Byte.x5a) then Ok b' else Err (Errorf "corrupt")
  | [] => Ok []
  end.

Lemma toy_Decompress_total (b : bytes) :
  match toy_Decompress b with Ok _ | Err _ => True | _ => False end.
Proof. destruct b as [|c b]; simpl; [done|]. by destruct (decide (c = Byte.x5a)). Qed.

Definition toy_codec : Codec := {|
  Algorithm_ := SHA512_256;
  Sum b := take 32 (b ++ replicate 32 Byte.x00);
  Compress b := Byte.x5a :: b;
  Decompress := toy_Decompress;
  length_Sum := toy_Sum_length;
  Decompress_Compress b := eq_refl;
  Decompress_nil := eq_refl;
  Decompress_total := toy_Decompress_total
|}.

(** ** Converters *)

(** The only layer there is. *)
Inductive converter := Compressor.

#[global] Instance converter_eq_dec : EqDecision converter.
Proof. solve_decision. Defined.

Abbreviation Converters := (list converter).

Section chunk.

Context `{Codec}.

Definition layer_toStorage (c : converter) (b : bytes) : outcome bytes :=
  match c with Compressor => Ok (Compress b) end.

Definition layer_fromStorage (c : converter) (b : bytes) : outcome bytes :=
  match c with Compressor => Decompress b end.

Definition layer_equal (c c' : converter) : bool :=
  match c, c' with Compressor, Compressor => true end.

(** Apply every data converter in the forward direction. *)
Fixpoint toStorage (s : Converters) (b : bytes) : outcome bytes :=
  match s with
  | [] => Ok b
  | layer :: s => b ← layer_toStorage layer b; toStorage s b
  end.

(** Apply the layers backwards. *)
Definition fromStorage (s : Converters) (b : bytes) : outcome bytes :=
  (fix go (s : Converters) (b : bytes) : outcome bytes :=
     match s with
     | [] => Ok b
     | layer :: s => b ← layer_fromStorage layer b; go s b
     end) (reverse s) b.

Definition hasCompression (s : Converters) : bool :=
  existsb (fun c => match c with Compressor => true end) s.

Fixpoint converters_equal (s c : Converters) : bool :=
  match s, c with
  | [], [] => true
  | a :: s, b :: c => layer_equal a b && converters_equal s c
  | _, _ => false
  end.

(** ** Chunks *)

Record Chunk := mkChunk {
  data : bytes;            (* plain data if available *)
  storage : bytes;         (* storage format *)
  converters : Converters;
  id : ChunkID;
  idCalculated : bool
}.

Definition zero_id : ChunkID := replicate 32 Byte.x00.

(** Data: the plain bytes, decoded (and remembered) when only the storage form is there. *)
Definition Data (c : Chunk) : outcome bytes * Chunk :=
  if decide (0 < length (data c))%nat then (Ok (data c), c)
  else if decide (0 < length (storage c))%nat then
    match fromStorage (converters c) (storage c) with
    | Ok b => (Ok b, mkChunk b (storage c) (converters c) (id c) (idCalculated c))
    | r => (r, mkChunk [] (storage c) (converters c) (id c) (idCalculated c))
    end
  else (Err (Errorf "no data in chunk"), c).

(** ID: the checksum of the plain data, remembered; the zero ID when there is no data. *)
Definition ChunkID_ (c : Chunk) : ChunkID * Chunk :=
  if idCalculated c then (id c, c)
  else
    match Data c with
    | (Ok b, c) => (Sum b, mkChunk (data c) (storage c) (converters c) (Sum b) true)
    | (_, c) => (zero_id, c)
    end.

(** Storage: the storage form for the given converters. *)
Definition Storage (c : Chunk) (modifiers : Converters) : outcome bytes * Chunk :=
  if bool_decide (0 < length (storage c))%nat && converters_equal modifiers (converters c)
  then (Ok (storage c), c)
  else
    match Data c with
    | (Ok b, c) => (toStorage modifiers b, c)
    | (r, c) => (r, c)
    end.

Definition NewChunk (b : bytes) : Chunk := mkChunk b [] [] zero_id false.

(** The check both constructors make unless [skipVerify] is set. *)
Definition verify_chunk (i : ChunkID) (c : Chunk) (skipVerify : bool) : outcome Chunk :=
  if skipVerify then Ok (mkChunk (data c) (storage c) (converters c) (id c) true)
  else
    let '(sum, c) := ChunkID_ c in
    if decide (sum = i) then Ok c else Err (ChunkInvalid i sum).

Definition NewChunkWithID (i : ChunkID) (b : bytes) (skipVerify : bool) : outcome Chunk :=
  verify_chunk i (mkChunk b [] [] i false) skipVerify.

Definition NewChunkFromStorage (i : ChunkID) (b : bytes) (modifiers : Converters)
  (skipVerify : bool) : outcome Chunk :=
  verify_chunk i (mkChunk [] b modifiers i false) skipVerify.

(** ** The null chunk *)

Record NullChunk := mkNullChunk { nData : bytes; nID : ChunkID }.

Definition NewNullChunk (size : Z) : outcome NullChunk :=
  if decide (i64 size < 0 \/ maxAlloc < i64 size) then Panic
  else
    let b := replicate (Z.to_nat (i64 size)) Byte.x00 in
    Ok (mkNullChunk b (Sum b)).

(** ** Converters invert each other *)

Lemma fromStorage_toStorage s b :
  exists b', toStorage s b = Ok b' /\ fromStorage s b' = Ok b.
Proof.
  unfold fromStorage. set (go := fix go (s : Converters) (b : bytes) : outcome bytes :=
     match s with
     | [] => Ok b
     | layer :: s => b ← layer_fromStorage layer b; go s b
     end).
  assert (forall s1 s2 b, go (s1 ++ s2) b = (b ← go s1 b; go s2 b)) as Happ.
  { clear. induction s1 as [|l s1 IH]; intros s2 b; simpl; [done|].
    destruct (layer_fromStorage l b); simpl; [apply IH|done..]. }
  revert b. induction s as [|l s IH]; intros b; simpl.
  { exists b. done. }
  destruct l. simpl. destruct (IH (Compress b)) as (b' & -> & Hb'). exists b'. split; [done|].
  rewrite reverse_cons, Happ, Hb'. simpl. by rewrite Decompress_Compress.
Qed.

(** The storage form of something is not empty. *)
Lemma toStorage_nonempty s b b' : b <> [] -> toStorage s b = Ok b' -> b' <> [].
Proof.
  revert b. induction s as [|[] s IH]; intros b Hb; simpl; [by intros [= <-]|].
  intros Ht. apply (IH (Compress b)); [|done]. intros He.
  pose proof (Decompress_Compress b) as H1. rewrite He, Decompress_nil in H1. congruence.
Qed.

Lemma converters_equal_eq s c : converters_equal s c = true <-> s = c.
Proof.
  revert c. induction s as [|a s IH]; intros [|b c]; simpl; try done.
  destruct a, b. simpl. rewrite IH. split; [by intros -> | by intros [= ->]].
Qed.

(** ** Memoisation *)

(** The chunk's plain data and ID as functions of its fields. *)
Definition plain (c : Chunk) : outcome bytes := fst (Data c).
Definition chunk_id (c : Chunk) : ChunkID := fst (ChunkID_ c).

(** The chunks that calls of the operations turn [c] into. *)
Inductive reaches : Chunk -> Chunk -> Prop :=
| reach_refl c : reaches c c
| reach_Data c c' : reaches (snd (Data c)) c' -> reaches c c'
| reach_ID c c' : reaches (snd (ChunkID_ c)) c' -> reaches c c'
| reach_Storage c c' m : reaches (snd (Storage c m)) c' -> reaches c c'.

Lemma Data_after c :
  Data (snd (Data c)) = (fst (Data c), snd (Data c)) /\
  storage (snd (Data c)) = storage c /\ converters (snd (Data c)) = converters c /\
  id (snd (Data c)) = id c /\ idCalculated (snd (Data c)) = idCalculated c.
Proof.
  unfold Data. destruct c as [d st cv i ic]; cbn [data storage converters id idCalculated].
  destruct (decide (0 < length d)%nat) as [Hd|Hd].
  { cbn [fst snd data]. rewrite decide_True by done. done. }
  destruct (decide (0 < length st)%nat) as [Hs|Hs].
  - destruct (fromStorage cv st) as [b|e| |] eqn:E; cbn [fst snd data storage converters];
      rewrite ?(decide_True (P := (0 < length st)%nat)) by done;
      try (rewrite decide_False by (simpl; lia); by rewrite E).
    split; [|done]. destruct (decide (0 < length b)%nat) as [Hb|Hb]; [done|].
    rewrite E. by destruct b; [|simpl in Hb; lia].
  - cbn [fst snd data storage]. rewrite !decide_False by done. done.
Qed.

Lemma Data_set_id c i ic :
  fst (Data (mkChunk (data c) (storage c) (converters c) i ic)) = fst (Data c).
Proof.
  unfold Data. cbn [data storage converters].
  by repeat (let H := fresh in goal_decide H); try destruct (fromStorage _ _).
Qed.

Lemma ID_after c :
  let c' := snd (ChunkID_ c) in
  fst (Data c') = fst (Data c) /\ storage c' = storage c /\ converters c' = converters c /\
  fst (ChunkID_ c') = fst (ChunkID_ c).
Proof.
  destruct (Data_after c) as (H1 & H2 & H3 & H4 & H5).
  destruct (ChunkID_ c) as [sum c'] eqn:E. unfold ChunkID_ in E. cbn [fst snd].
  destruct (idCalculated c) eqn:Hic.
  { injection E as <- <-. unfold ChunkID_. by rewrite Hic. }
  destruct (Data c) as [[b|e| |] c1] eqn:Ed; cbn [fst snd] in *; injection E as <- <-;
    try (unfold ChunkID_; rewrite H5, H1; done).
  rewrite Data_set_id, H1. cbn [storage converters]. repeat split; done.
Qed.

Lemma ID_congr c c' :
  fst (Data c') = fst (Data c) -> idCalculated c' = idCalculated c -> id c' = id c ->
  fst (ChunkID_ c') = fst (ChunkID_ c).
Proof.
  intros H1 H2 H3. unfold ChunkID_. rewrite H2, H3. destruct (idCalculated c); [done|].
  destruct (Data c') as [[?|?| |] ?], (Data c) as [[?|?| |] ?]; simpl in *; congruence.
Qed.

Lemma Storage_congr c c' m :
  fst (Data c') = fst (Data c) -> storage c' = storage c -> converters c' = converters c ->
  fst (Storage c' m) = fst (Storage c m).
Proof.
  intros H1 H2 H3. unfold Storage. rewrite H2, H3.
  destruct (bool_decide _ && _); [done|].
  destruct (Data c') as [[?|?| |] ?], (Data c) as [[?|?| |] ?]; simpl in *; congruence.
Qed.

Lemma reaches_observable c c' :
  reaches c c' ->
  fst (Data c') = fst (Data c) /\ storage c' = storage c /\ converters c' = converters c /\
  fst (ChunkID_ c') = fst (ChunkID_ c).
Proof.
  assert (forall c m, fst (Data (snd (Storage c m))) = fst (Data c) /\
    storage (snd (Storage c m)) = storage c /\ converters (snd (Storage c m)) = converters c /\
    fst (ChunkID_ (snd (Storage c m))) = fst (ChunkID_ c)) as Hs.
  { clear. intros c m. unfold Storage. destruct (bool_decide _ && _); [done|].
    destruct (Data_after c) as (H1 & H2 & H3 & H4 & H5).
    destruct (Data c) as [r c1] eqn:E. cbn [fst snd] in *.
    destruct r; cbn [snd]; (split; [by rewrite H1|]); (split; [done|]); (split; [done|]);
      apply ID_congr; rewrite ?H1, ?E; done. }
  induction 1 as [c|c c' _ IH|c c' _ IH|c c' m _ IH]; [done|..];
    destruct IH as (I1 & I2 & I3 & I4); rewrite I1, I2, I3, I4.
  - destruct (Data_after c) as (H1 & H2 & H3 & H4 & H5). rewrite H1.
    split; [done|]. split; [done|]. split; [done|]. apply ID_congr; [by rewrite H1|done|done].
  - apply ID_after.
  - apply Hs.
Qed.

(** The parts of a chunk that are computed on demand and remembered are unobservable: after
    any calls of Data, ID and Storage, every one of them still returns what it returned at
    first. *)
Theorem memoisation_transparent c c' m :
  reaches c c' ->
  fst (Data c') = fst (Data c) /\ fst (ChunkID_ c') = fst (ChunkID_ c) /\
  fst (Storage c' m) = fst (Storage c m).
Proof.
  intros Hr. destruct (reaches_observable _ _ Hr) as (H1 & H2 & H3 & H4).
  split; [done|]. split; [done|]. by apply Storage_congr.
Qed.

(** ** Verification *)

Lemma verify_chunk_plain i c sv c' :
  verify_chunk i c sv = Ok c' -> plain c' = plain c /\ storage c' = storage c /\
  converters c' = converters c.
Proof.
  unfold verify_chunk, plain. destruct sv.
  - intros [= <-]. by rewrite Data_set_id.
  - destruct (ChunkID_ c) as [sum c1] eqn:E. goal_decide Hd; [|done]. intros [= <-].
    pose proof (ID_after c) as H'. rewrite E in H'. cbn [fst snd] in H'. tauto.
Qed.

Lemma verify_chunk_id i c c' :
  verify_chunk i c false = Ok c' ->
  chunk_id c' = i /\
  (idCalculated c = false ->
   (exists b, plain c = Ok b /\ Sum b = i) \/ (is_ok (plain c) = false /\ i = zero_id)).
Proof.
  unfold verify_chunk, plain, chunk_id. destruct (ChunkID_ c) as [sum c1] eqn:E.
  goal_decide Hd; [|done]. intros [= <-]. subst sum. pose proof (ID_after c) as H'.
  rewrite E in H'. cbn [fst snd] in H'. split; [tauto|]. intros Hic. unfold ChunkID_ in E.
  rewrite Hic in E. destruct (Data c) as [[b|e| |] c2]; injection E as <- <-; simpl;
    [left; by exists b|right; done..].
Qed.

(** C35. What a chunk read from a store is worth: if verification is on and the constructor
    accepts the stored bytes for an ID, their decoded form hashes to that ID (or they cannot be
    decoded at all and the ID is the all-zero one, which stands for "no data"); if they decode
    to something with another hash, the constructor reports ChunkInvalid with both IDs. *)
Theorem NewChunkFromStorage_verifies i b m :
  match NewChunkFromStorage i b m false with
  | Ok c =>
    chunk_id c = i /\ storage c = b /\
    ((exists d, plain c = Ok d /\ Sum d = i) \/ (is_ok (plain c) = false /\ i = zero_id))
  | Err e => exists sum, e = ChunkInvalid i sum /\ sum <> i /\
             forall d, b <> [] -> fromStorage m b = Ok d -> sum = Sum d
  | _ => False
  end.
Proof.
  unfold NewChunkFromStorage. set (c := mkChunk [] b m i false).
  destruct (verify_chunk i c false) as [c'|e| |] eqn:E.
  - destruct (verify_chunk_plain _ _ _ _ E) as (Hp & Hs & _).
    destruct (verify_chunk_id _ _ _ E) as (Hid & Hv). rewrite Hp. split; [done|]. split; [done|].
    by apply Hv.
  - revert E. unfold verify_chunk. destruct (ChunkID_ c) as [sum c1] eqn:Ei.
    goal_decide Hd; [done|]. intros [= <-]. exists sum. split; [done|]. split; [done|].
    intros d Hb Hf. revert Ei. unfold ChunkID_, Data, c. cbn [idCalculated data storage converters].
    rewrite decide_False by (simpl; lia).
    rewrite decide_True by (destruct b; [done|simpl; lia]). rewrite Hf. by intros [= <- <-].
  - revert E. unfold verify_chunk. destruct (ChunkID_ c). by goal_decide Hd.
  - revert E. unfold verify_chunk. destruct (ChunkID_ c). by goal_decide Hd.
Qed.

(** A chunk survives storage: the storage form of any non-empty data, for any converters,
    read back under the data's ID, is accepted by the verification and has the same data; a
    chunk with the same converters hands the stored bytes on unchanged, without decoding. *)
Theorem storage_round_trip d m sv :
  d <> [] ->
  exists b, fst (Storage (NewChunk d) m) = Ok b /\ b <> [] /\
    (exists c, NewChunkFromStorage (Sum d) b m sv = Ok c /\ plain c = Ok d /\
       chunk_id c = Sum d /\ fst (Storage c m) = Ok b).
Proof.
  intros Hd. destruct (fromStorage_toStorage m d) as (b & Ht & Hf). exists b.
  assert (Data (NewChunk d) = (Ok d, NewChunk d)) as HD.
  { unfold Data, NewChunk. cbn [data]. rewrite decide_True by (destruct d; [done|simpl; lia]). done. }
  split.
  { unfold Storage. cbn [NewChunk storage length]. rewrite bool_decide_false by lia. simpl.
    rewrite HD. done. }
  pose proof (toStorage_nonempty m d b Hd Ht) as Hb. split; [done|]. assert (0 < length b)%nat as Hbl by (destruct b; [done|simpl; lia]).
  set (c0 := mkChunk [] b m (Sum d) false).
  assert (Data c0 = (Ok d, mkChunk d b m (Sum d) false)) as HD0.
  { unfold Data, c0. cbn [data storage converters id idCalculated].
    rewrite decide_False by (simpl; lia). rewrite decide_True by done. by rewrite Hf. }
  assert (exists c, NewChunkFromStorage (Sum d) b m sv = Ok c /\ chunk_id c = Sum d) as (c & Hc & Hid).
  { unfold NewChunkFromStorage. fold c0. destruct sv.
    - eexists. split; [done|]. done.
    - unfold verify_chunk, ChunkID_. change (idCalculated c0) with false. cbv iota. rewrite HD0.
      rewrite decide_True by done. eexists. split; [done|]. done. }
  exists c. split; [done|]. pose proof (verify_chunk_plain _ _ _ _ Hc) as (Hp & Hs & Hcv).
  fold c0 in Hp. split; [by rewrite Hp; unfold plain; rewrite HD0|]. split; [done|].
  unfold Storage. rewrite Hs, Hcv. cbn [storage converters c0].
  rewrite bool_decide_true by done. cbn [andb].
  by rewrite (proj2 (converters_equal_eq m m) eq_refl).
Qed.

End chunk.

Lemma memoisation_transparent_witness :
  let c := @mkChunk [] [Byte.x5a; Byte.x41] [Compressor] (replicate 32 Byte.x00) false in
  fst (Data (H := toy_codec) (snd (ChunkID_ (H := toy_codec) c))) = Ok [Byte.x41].
Proof.
  intros c. destruct (memoisation_transparent (H := toy_codec) c (snd (ChunkID_ (H := toy_codec) c)) [])
    as [H1 _]; [apply reach_ID, reach_refl|]. rewrite H1. reflexivity.
Defined.

Lemma storage_round_trip_witness :
  exists c, NewChunkFromStorage (H := toy_codec) (Sum (Codec := toy_codec) (str "data"))
    (Byte.x5a :: str "data") [Compressor] false = Ok c /\
    plain (H := toy_codec) c = Ok (str "data").
Proof.
  destruct (storage_round_trip (H := toy_codec) (str "data") [Compressor] false) as (b & Hb & _ & Hc);
    [discriminate|]. injection Hb as <-. destruct Hc as (c & H1 & H2 & _).
  by exists c.
Defined.

Lemma NewChunkFromStorage_verifies_witness :
  exists sum, NewChunkFromStorage (H := toy_codec) zero_id (Byte.x5a :: str "data") [Compressor] false
    = Err (ChunkInvalid zero_id sum) /\ sum = Sum (Codec := toy_codec) (str "data").
Proof.
  pose proof (NewChunkFromStorage_verifies (H := toy_codec) zero_id (Byte.x5a :: str "data")
    [Compressor]) as Hv.
  destruct (NewChunkFromStorage (H := toy_codec) zero_id (Byte.x5a :: str "data") [Compressor] false)
    as [c|e| |] eqn:E; [discriminate E| |discriminate E|discriminate E].
  destruct Hv as (sum & -> & _ & Hs). exists sum. split; [reflexivity|].
  apply Hs; [discriminate|reflexivity].
Defined.
