(* ===== verification/Names.v ===== *)
(** * Names: chunk IDs as text (types.go) and the names of chunks in stores

    The hexadecimal form of an ID and its parsing, the object names of the S3, GCS and SFTP
    stores with the inverse that pruning uses, and the path of a chunk in a local store. *)

From S2P Require Import Prelude Format Index.

(** ** Strings *)

Definition HasPrefix (s prefix : bytes) : bool := bool_decide (take (length prefix) s = prefix).

Definition TrimPrefix (s prefix : bytes) : bytes :=
  if HasPrefix s prefix then drop (length prefix) s else s.

Definition TrimSuffix (s suffix : bytes) : bytes :=
  if HasSuffix s suffix then take (length s - length suffix) s else s.

(** strings.Split for a separator of one byte. *)
Fixpoint Split (s : bytes) (sep : byte) : list bytes :=
  match s with
  | [] => [[]]
  | c :: s' =>
    match Split s' sep with
    | [] => []     (* not reached: Split never returns an empty list *)
    | w :: ws => if decide (c = sep) then [] :: w :: ws else (c :: w) :: ws
    end
  end.

Lemma HasPrefix_app s t : HasPrefix (s ++ t) s = true.
Proof. unfold HasPrefix. rewrite bool_decide_true by apply take_app_length. done. Qed.

Lemma TrimPrefix_app s t : TrimPrefix (s ++ t) s = t.
Proof. unfold TrimPrefix. by rewrite HasPrefix_app, drop_app_length. Qed.

Lemma HasSuffix_app s t : HasSuffix (s ++ t) t = true.
Proof.
  unfold HasSuffix. rewrite length_app. rewrite !bool_decide_true; [done|lia|].
  replace (length s + length t - length t)%nat with (length s) by lia. apply drop_app_length.
Qed.

Lemma HasSuffix_split s t : HasSuffix s t = true -> exists p, s = p ++ t.
Proof.
  unfold HasSuffix. intros [Hd _]%andb_true_iff. apply bool_decide_eq_true in Hd.
  exists (take (length s - length t) s). rewrite <- Hd at 2. by rewrite take_drop.
Qed.

Lemma TrimSuffix_app s t : TrimSuffix (s ++ t) t = s.
Proof.
  unfold TrimSuffix. rewrite HasSuffix_app, length_app.
  replace (length s + length t - length t)%nat with (length s) by lia. apply take_app_length.
Qed.

Lemma Split_nonempty s sep : Split s sep <> [].
Proof.
  induction s as [|c s IH]; simpl; [done|]. destruct (Split s sep); [done|]. by case_decide.
Qed.

Lemma Split_no_sep s sep : sep ∉ s -> Split s sep = [s].
Proof.
  induction s as [|c s IH]; simpl; [done|]. intros [Hc Hs]%not_elem_of_cons.
  rewrite IH by done. by rewrite decide_False by congruence.
Qed.

Lemma Split_app s t sep : sep ∉ s -> Split (s ++ sep :: t) sep = s :: Split t sep.
Proof.
  induction s as [|c s IH]; simpl; intros Hs.
  - destruct (Split t sep) eqn:E; [by apply Split_nonempty in E|]. by rewrite decide_True.
  - apply not_elem_of_cons in Hs as [Hc Hs]. rewrite IH by done.
    by rewrite decide_False by congruence.
Qed.

(** ** Hexadecimal (encoding/hex) *)

Definition hex_digits : bytes := str "0123456789abcdef".

Definition hex_digit (z : Z) : byte := nth (Z.to_nat z) hex_digits Byte.x00.

Definition hex_encode_byte (b : byte) : bytes :=
  [hex_digit (Z.shiftr (byte.unsigned b) 4); hex_digit (Z.land (byte.unsigned b) 15)].

Definition EncodeToString (b : bytes) : bytes := concat (map hex_encode_byte b).

Definition from_hex_char (c : byte) : option Z :=
  let z := byte.unsigned c in
  if decide (48 <= z <= 57) then Some (z - 48)
  else if decide (97 <= z <= 102) then Some (z - 97 + 10)
  else if decide (65 <= z <= 70) then Some (z - 65 + 10)
  else None.

Fixpoint DecodeString (s : bytes) : outcome bytes :=
  match s with
  | [] => Ok []
  | [a] => Err (Errorf "encoding/hex: odd length hex string")
  | a :: b :: s =>
    match from_hex_char a, from_hex_char b with
    | Some x, Some y =>
      l ← DecodeString s;
      Ok (byte.of_Z (Z.lor (Z.shiftl x 4) y) :: l)
    | _, _ => Err (Errorf "encoding/hex: invalid byte")
    end
  end.

(** ChunkID.String *)
Definition String_ (c : ChunkID) : bytes := EncodeToString c.

Definition ChunkIDFromSlice (b : bytes) : outcome ChunkID :=
  if decide (length b <> 32%nat) then Err (Errorf "chunk id string not of right size") else Ok b.

Definition ChunkIDFromString (id : bytes) : outcome ChunkID :=
  match DecodeString id with
  | Ok b => ChunkIDFromSlice b
  | Err e => Err (Wrapped e "failed to decode chunk id string")
  | r => r
  end.

(** What a byte's two digits decode to, for all 256 bytes. *)
Definition hex_byte_ok (b : byte) : bool :=
  match hex_encode_byte b with
  | [x; y] =>
    bool_decide (x <> Byte.x2f) && bool_decide (y <> Byte.x2f) &&
    match from_hex_char x, from_hex_char y with
    | Some i, Some j => bool_decide (byte.of_Z (Z.lor (Z.shiftl i 4) j) = b)
    | _, _ => false
    end
  | _ => false
  end.

Lemma hex_byte_all b : hex_byte_ok b = true.
Proof. destruct b; vm_compute; reflexivity. Qed.

Lemma length_EncodeToString b : length (EncodeToString b) = (2 * length b)%nat.
Proof.
  unfold EncodeToString. induction b as [|c b IH]; [done|]. cbn [map concat].
  rewrite length_app, IH. simpl. lia.
Qed.

Lemma DecodeString_EncodeToString b : DecodeString (EncodeToString b) = Ok b.
Proof.
  induction b as [|c b IH]; [done|]. pose proof (hex_byte_all c) as Hc. unfold hex_byte_ok in Hc.
  unfold EncodeToString in *. cbn [map concat].
  destruct (hex_encode_byte c) as [|x [|y [|? ?]]]; try done. cbn [app DecodeString].
  destruct (from_hex_char x); [|by rewrite andb_false_r in Hc].
  destruct (from_hex_char y); [|by rewrite andb_false_r in Hc].
  apply andb_true_iff in Hc as [_ Hc]. apply bool_decide_eq_true in Hc. rewrite IH. simpl.
  by rewrite Hc.
Qed.

Lemma EncodeToString_no_slash b : Byte.x2f ∉ EncodeToString b.
Proof.
  induction b as [|c b IH]; [by apply not_elem_of_nil|].
  pose proof (hex_byte_all c) as Hc. unfold hex_byte_ok in Hc.
  unfold EncodeToString in *. cbn [map concat].
  destruct (hex_encode_byte c) as [|x [|y [|? ?]]]; try done. cbn [app].
  apply andb_true_iff in Hc as [Hc _]. apply andb_true_iff in Hc as [Hx Hy].
  apply bool_decide_eq_true in Hx, Hy.
  rewrite !not_elem_of_cons. done.
Qed.

Lemma ChunkIDFromString_String id :
  length id = 32%nat -> ChunkIDFromString (String_ id) = Ok id.
Proof.
  intros Hl. unfold ChunkIDFromString, String_. rewrite DecodeString_EncodeToString.
  unfold ChunkIDFromSlice. by rewrite decide_False by lia.
Qed.

Lemma ChunkIDFromString_length s id : ChunkIDFromString s = Ok id -> length id = 32%nat.
Proof.
  unfold ChunkIDFromString. destruct (DecodeString s) as [b| | |]; try done.
  unfold ChunkIDFromSlice. goal_decide H; [done|]. intros [= <-]. lia.
Qed.

(** ** Object names (s3.go, gcs.go, sftp.go) *)

Definition CompressedChunkExt : bytes := str ".cacnk".
Definition UncompressedChunkExt : bytes := str "".

Definition chunk_ext (uncompressed : bool) : bytes :=
  if uncompressed then UncompressedChunkExt else CompressedChunkExt.

(** S3Store.nameFromID *)
Definition s3_nameFromID (prefix : bytes) (uncompressed : bool) (id : ChunkID) : bytes :=
  let sID := String_ id in
  let name := prefix ++ take 4 sID ++ str "/" ++ sID in
  if uncompressed then name ++ UncompressedChunkExt else name ++ CompressedChunkExt.

(** S3Store.idFromName *)
Definition s3_idFromName (prefix : bytes) (uncompressed : bool) (name : bytes) : outcome ChunkID :=
  let ext := if uncompressed then UncompressedChunkExt else CompressedChunkExt in
  if negb (HasSuffix name ext) then Err (Errorf "object is not a chunk")
  else
    let n := TrimSuffix (TrimPrefix name prefix) ext in
    match Split n Byte.x2f with
    | [idx; sid] =>
      if negb (HasPrefix sid idx) then Err (Errorf "incorrect chunk name for object")
      else ChunkIDFromString sid
    | _ => Err (Errorf "incorrect chunk name for object")
    end.

(** GCStore has the same two functions. *)
Definition gcs_nameFromID : bytes -> bool -> ChunkID -> bytes := s3_nameFromID.
Definition gcs_idFromName : bytes -> bool -> bytes -> outcome ChunkID := s3_idFromName.

(** SFTPStoreBase.nameFromID: the path takes the place of the prefix. *)
Definition sftp_nameFromID : bytes -> bool -> ChunkID -> bytes := s3_nameFromID.

Lemma elem_of_take_sub {A} (x : A) n l : x ∈ take n l -> x ∈ l.
Proof. intros H. rewrite <- (take_drop n l). apply elem_of_app. by left. Qed.

Lemma take_HasPrefix n s : HasPrefix s (take n s) = true.
Proof.
  unfold HasPrefix. rewrite bool_decide_true; [done|]. rewrite length_take.
  destruct (decide (n <= length s)%nat); [by rewrite Nat.min_l|].
  rewrite Nat.min_r, !take_ge by lia. done.
Qed.

(** The name under which an object store keeps a chunk determines the chunk: parsing it gives
    back the ID, for every prefix and both extensions, so pruning recognises every chunk the
    store wrote and distinct chunks never share a name. *)
Theorem s3_name_round_trip prefix uncompressed id :
  length id = 32%nat ->
  s3_idFromName prefix uncompressed (s3_nameFromID prefix uncompressed id) = Ok id.
Proof.
  intros Hl. unfold s3_idFromName, s3_nameFromID. cbv zeta.
  set (sID := String_ id). set (ext := if uncompressed then UncompressedChunkExt else CompressedChunkExt).
  assert ((if uncompressed then (prefix ++ take 4 sID ++ str "/" ++ sID) ++ UncompressedChunkExt
           else (prefix ++ take 4 sID ++ str "/" ++ sID) ++ CompressedChunkExt) =
          (prefix ++ take 4 sID ++ str "/" ++ sID) ++ ext) as -> by (by destruct uncompressed).
  rewrite HasSuffix_app. cbn [negb]. rewrite <- app_assoc, TrimPrefix_app, TrimSuffix_app.
  change (str "/" ++ sID) with (Byte.x2f :: sID).
  assert (Byte.x2f ∉ sID) as Hs by apply EncodeToString_no_slash.
  rewrite Split_app by (intros H; apply Hs; by eapply elem_of_take_sub).
  rewrite Split_no_sep by done. rewrite take_HasPrefix. cbn [negb].
  by apply ChunkIDFromString_String.
Qed.

Lemma s3_name_round_trip_witness :
  s3_idFromName (str "prefix/") false (s3_nameFromID (str "prefix/") false (replicate 32 Byte.xab))
  = Ok (replicate 32 Byte.xab).
Proof. apply s3_name_round_trip. reflexivity. Defined.

(** ** Paths of a local store (local.go) *)

(** [filepath.Join(s.Base, sID[0:4])] and [filepath.Join(dir, sID)] for a clean base. *)
Definition local_nameFromID (Base : bytes) (uncompressed : bool) (id : ChunkID) : bytes * bytes :=
  let sID := String_ id in
  let dir := Base ++ str "/" ++ take 4 sID in
  let name := dir ++ str "/" ++ sID in
  (dir, if uncompressed then name ++ UncompressedChunkExt else name ++ CompressedChunkExt).

(** The last element of a path without trailing slashes (filepath.Base). *)
Definition path_Base (p : bytes) : bytes := List.last (Split p Byte.x2f) [].

(** The ID in the name of a file below the base, as Verify and Prune find it; None for a file
    they skip. *)
Definition local_idFromPath (uncompressed : bool) (path : bytes) : option ChunkID :=
  let ext := if uncompressed then UncompressedChunkExt else CompressedChunkExt in
  if negb (HasSuffix path ext) then None
  else
    match ChunkIDFromString (TrimSuffix (path_Base path) ext) with
    | Ok id => Some id
    | _ => None
    end.

Lemma last_Split_app s t sep : sep ∉ t -> List.last (Split (s ++ sep :: t) sep) [] = t.
Proof.
  intros Ht. induction s as [|c s IH]; cbn [app Split].
  - rewrite Split_no_sep by done. by rewrite decide_True.
  - destruct (Split (s ++ sep :: t) sep) as [|w ws] eqn:E; [by apply Split_nonempty in E|].
    case_decide; [exact IH|]. destruct ws; [|exact IH].
    exfalso. clear -E Ht. revert w E. induction s as [|x s IHs]; intros w E; cbn [app Split] in E.
    + rewrite Split_no_sep in E by done. rewrite decide_True in E by done. done.
    + destruct (Split (s ++ sep :: t) sep) as [|v vs] eqn:E'; [by apply Split_nonempty in E'|].
      case_decide; [done|]. injection E as <- ->. by eapply IHs.
Qed.

Lemma local_idFromPath_name Base u id :
  length id = 32%nat -> local_idFromPath u (snd (local_nameFromID Base u id)) = Some id.
Proof.
  intros Hl. unfold local_idFromPath, local_nameFromID. cbv zeta. cbn [snd].
  set (sID := String_ id). set (ext := if u then UncompressedChunkExt else CompressedChunkExt).
  set (dir := Base ++ str "/" ++ take 4 sID).
  assert ((if u then (dir ++ str "/" ++ sID) ++ UncompressedChunkExt
           else (dir ++ str "/" ++ sID) ++ CompressedChunkExt) =
          (dir ++ str "/" ++ sID) ++ ext) as -> by (by destruct u).
  rewrite HasSuffix_app. cbn [negb].
  assert (path_Base ((dir ++ str "/" ++ sID) ++ ext) = sID ++ ext) as ->.
  { unfold path_Base. rewrite <- !app_assoc. change (str "/" ++ sID ++ ext) with (Byte.x2f :: sID ++ ext).
    apply last_Split_app. rewrite not_elem_of_app. split; [apply EncodeToString_no_slash|].
    subst ext. destruct u; apply (bool_decide_unpack _); by vm_compute. }
  rewrite TrimSuffix_app. unfold sID. by rewrite ChunkIDFromString_String.
Qed.
