(* ===== verification/Url.v ===== *)
(** * Url: URLs and file name patterns (net/url and path/filepath of Go's library)

    What the command line code uses to look at the locations of stores: url.Parse and
    filepath.Match. Strings are ASCII: a rune is a byte. Of a URL, the host is neither unescaped
    nor checked beyond its port, and bracketed addresses are not supported. *)

From S2P Require Import Prelude Index Names Path.

(** ** Characters *)

Definition in_range (lo hi : Z) (c : byte) : bool := (lo <=? byte.unsigned c) && (byte.unsigned c <=? hi).
Definition is_upper : byte -> bool := in_range 65 90.
Definition is_lower : byte -> bool := in_range 97 122.
Definition is_digit : byte -> bool := in_range 48 57.
Definition is_letter (c : byte) : bool := is_upper c || is_lower c.

Definition to_lower (c : byte) : byte := if is_upper c then byte.of_Z (byte.unsigned c + 32) else c.

Definition chr (s : string) : byte := default Byte.x00 (head (str s)).

(** strings.Cut at the first occurrence of a byte. *)
Fixpoint Cut (s : bytes) (sep : byte) : option (bytes * bytes) :=
  match s with
  | [] => None
  | c :: s =>
    if decide (c = sep) then Some ([], s)
    else match Cut s sep with Some (a, b) => Some (c :: a, b) | None => None end
  end.

(** Split at the last occurrence (strings.LastIndex). *)
Definition CutLast (s : bytes) (sep : byte) : option (bytes * bytes) :=
  match Cut (rev s) sep with Some (a, b) => Some (rev b, rev a) | None => None end.

Lemma Cut_spec s sep :
  match Cut s sep with
  | Some (a, b) => s = a ++ sep :: b /\ sep ∉ a
  | None => sep ∉ s
  end.
Proof.
  induction s as [|c s IH]; cbn [Cut]; [apply not_elem_of_nil|].
  goal_decide Hc; [subst; split; [done|apply not_elem_of_nil]|].
  destruct (Cut s sep) as [[a b]|].
  - destruct IH as [-> Ha]. split; [done|]. by apply not_elem_of_cons.
  - by apply not_elem_of_cons.
Qed.

Lemma Cut_app a b sep : sep ∉ a -> Cut (a ++ sep :: b) sep = Some (a, b).
Proof.
  induction a as [|c a IH]; cbn [app Cut]; intros Ha; [by rewrite decide_True|].
  apply not_elem_of_cons in Ha as [H1 H2]. rewrite decide_False by congruence. by rewrite IH.
Qed.

Lemma CutLast_app a b sep : sep ∉ b -> CutLast (a ++ sep :: b) sep = Some (a, b).
Proof.
  intros Hb. unfold CutLast. rewrite rev_app_distr. cbn [rev]. rewrite <- app_assoc. cbn [app].
  rewrite Cut_app by (by rewrite list_elem_of_In, <- in_rev, <- list_elem_of_In).
  by rewrite !rev_involutive.
Qed.

(** ** URLs *)

Record URL := mkURL {
  Scheme : bytes;
  Username : option bytes;             (* User.Username(), when there is a User *)
  Host : bytes;
  UPath : bytes;
  RawQuery : bytes;
  rawURL : bytes                       (* what was parsed; String() in messages *)
}.

(** The scheme and the rest; [first] while nothing of the scheme was read. *)
Fixpoint getScheme_loop (first : bool) (s : bytes) : outcome (option (bytes * bytes)) :=
  match s with
  | [] => Ok None
  | c :: s =>
    if is_letter c || (negb first && (is_digit c || bool_decide (c ∈ str "+-."))) then
      match getScheme_loop false s with
      | Ok (Some (a, b)) => Ok (Some (c :: a, b))
      | r => r
      end
    else if decide (c = chr ":") then
      if first then Err (Errorf "missing protocol scheme") else Ok (Some ([], s))
    else Ok None
  end.

Definition getScheme (s : bytes) : outcome (bytes * bytes) :=
  match getScheme_loop true s with
  | Ok (Some r) => Ok r
  | Ok None => Ok ([], s)
  | Err e => Err e
  | Panic => Panic
  | NoFuel => NoFuel
  end.

(** unescape; [plus] in a query, where + is a space. *)
Fixpoint unescape (plus : bool) (s : bytes) : outcome bytes :=
  match s with
  | [] => Ok []
  | c :: s =>
    if decide (c = chr "%") then
      match s with
      | a :: b :: s =>
        match from_hex_char a, from_hex_char b with
        | Some x, Some y => r ← unescape plus s; mret (byte.of_Z (16 * x + y) :: r)
        | _, _ => Err (Errorf "invalid URL escape")
        end
      | _ => Err (Errorf "invalid URL escape")
      end
    else
      r ← unescape plus s;
      mret ((if plus && bool_decide (c = chr "+") then chr " " else c) :: r)
  end.

Definition userinfo_char (c : byte) : bool :=
  is_letter c || is_digit c || bool_decide (c ∈ str "-._:~!$&'()*+,;=%@").

(** The port after the last colon, if any, must be a number. *)
Definition valid_port (host : bytes) : bool :=
  match CutLast host (chr ":") with
  | Some (_, port) => forallb is_digit port
  | None => true
  end.

Definition parseHost (host : bytes) : outcome bytes :=
  if valid_port host then Ok host else Err (Errorf "invalid port after host").

Definition parseAuthority (authority : bytes) : outcome (option bytes * bytes) :=
  match CutLast authority (chr "@") with
  | None => h ← parseHost authority; mret (None, h)
  | Some (userinfo, host) =>
    h ← parseHost host;
    if negb (forallb userinfo_char userinfo) then Err (Errorf "net/url: invalid userinfo")
    else
      let '(user, password) := default (userinfo, []) (Cut userinfo (chr ":")) in
      u ← unescape false user;
      _ ← unescape false password;
      mret (Some u, h)
  end.

Definition count (c : byte) (s : bytes) : nat := length (filter (eq c) s).

(** A query of the form "...?" has none. *)
Definition cut_query (s : bytes) : bytes * bytes :=
  if HasSuffix s (str "?") && bool_decide (count (chr "?") s = 1%nat) then (take (length s - 1) s, [])
  else default (s, []) (Cut s (chr "?")).

Definition parse (raw : bytes) : outcome URL :=
  if negb (forallb (fun c => (32 <=? byte.unsigned c) && negb (byte.unsigned c =? 127)) raw) then
    Err (Errorf "net/url: invalid control character in URL")
  else if decide (raw = str "*") then Ok (mkURL [] None [] raw [] raw)
  else
    '(scheme, rest) ← getScheme raw;
    let scheme := map to_lower scheme in
    let '(rest, query) := cut_query rest in
    let opaque := negb (HasPrefix rest (str "/")) in
    if opaque && negb (bool_decide (scheme = [])) then Ok (mkURL scheme None [] [] query raw)
    else if opaque && bool_decide (chr ":" ∈ fst (default (rest, []) (Cut rest slash))) then
      Err (Errorf "first path segment in URL cannot contain colon")
    else
      '(user, host, rest) ←
        (if (negb (bool_decide (scheme = [])) || negb (HasPrefix rest (str "///"))) && HasPrefix rest (str "//") then
           let authority := drop 2 rest in
           let '(authority, rest) :=
             match Cut authority slash with Some (a, r) => (a, slash :: r) | None => (authority, []) end in
           '(u, h) ← parseAuthority authority; mret (u, h, rest)
         else mret (None, [], rest));
      p ← unescape false rest;
      mret (mkURL scheme user host p query raw).

(** url.Parse: without the fragment, which must be well formed. *)
Definition Parse (raw : bytes) : outcome URL :=
  let '(u, frag) := default (raw, []) (Cut raw (chr "#")) in
  url ← parse u;
  _ ← unescape false frag;
  mret url.

(** [u.Query().Get(key)]: the first value; pairs that cannot be decoded are dropped. *)
Definition query_pair (kv : bytes) : option (bytes * bytes) :=
  if bool_decide (chr ";" ∈ kv) || bool_decide (kv = []) then None
  else
    let '(k, v) := default (kv, []) (Cut kv (chr "=")) in
    match unescape true k, unescape true v with
    | Ok k, Ok v => Some (k, v)
    | _, _ => None
    end.

Definition QueryGet (u : URL) (key : bytes) : bytes :=
  default [] (snd <$> List.find (fun kv => bool_decide (fst kv = key)) (omap query_pair (Split (RawQuery u) (chr "&")))).

(** ** Patterns (filepath.Match) *)

Definition ErrBadPattern : error := Errorf "syntax error in pattern".

(** A possibly escaped character of a class; something must follow it. *)
Definition getEsc (chunk : bytes) : outcome (Z * bytes) :=
  match chunk with
  | [] => Err ErrBadPattern
  | c :: rest =>
    if decide (c = chr "-" \/ c = chr "]") then Err ErrBadPattern
    else
      let chunk := if decide (c = chr "\") then rest else chunk in
      match chunk with
      | [] => Err ErrBadPattern
      | c :: nchunk => if decide (nchunk = []) then Err ErrBadPattern else Ok (byte.unsigned c, nchunk)
      end
  end.

(** The ranges of a class, up to the closing bracket; every range takes a character. *)
Fixpoint class_loop (fuel : nat) (chunk : bytes) (r : Z) (matched some : bool) : outcome (bool * bytes) :=
  match fuel with
  | O => NoFuel
  | S fuel =>
    if some && bool_decide (head chunk = Some (chr "]")) then Ok (matched, drop 1 chunk)
    else
      '(lo, chunk) ← getEsc chunk;
      '(hi, chunk) ← (if decide (head chunk = Some (chr "-")) then getEsc (drop 1 chunk) else Ok (lo, chunk));
      class_loop fuel chunk r (matched || ((lo <=? r) && (r <=? hi))) true
  end.

(** Matches [chunk], which has no star outside of a class, at the start of [s]: what is left of [s].
    After a mismatch the rest of the chunk is only checked. *)
Fixpoint matchChunk (fuel : nat) (failed : bool) (chunk s : bytes) : outcome (option bytes) :=
  match fuel with
  | O => NoFuel
  | S fuel =>
    match chunk with
    | [] => Ok (if failed then None else Some s)
    | c :: rest =>
      let failed := failed || bool_decide (s = []) in
      if decide (c = chr "[") then
        let r := if failed then 0 else byte.unsigned (default Byte.x00 (head s)) in
        let '(negated, rest) := if decide (head rest = Some (chr "^")) then (true, drop 1 rest) else (false, rest) in
        '(matched, rest) ← class_loop (S (length rest)) rest r false false;
        matchChunk fuel (failed || eqb matched negated) rest (drop 1 s)
      else if decide (c = chr "?") then
        matchChunk fuel (failed || bool_decide (head s = Some slash)) rest (drop 1 s)
      else if decide (c = chr "\" /\ rest = []) then Err ErrBadPattern
      else
        let '(c, rest) := if decide (c = chr "\") then (default c (head rest), drop 1 rest) else (c, rest) in
        matchChunk fuel (failed || negb (bool_decide (head s = Some c))) rest (drop 1 s)
    end
  end.

(** Up to the next star outside of a class. *)
Fixpoint scan_literal (inrange : bool) (p : bytes) : bytes * bytes :=
  match p with
  | [] => ([], [])
  | c :: rest =>
    if decide (c = chr "*" /\ inrange = false) then ([], p)
    else if decide (c = chr "\") then
      match rest with
      | [] => ([c], [])
      | d :: rest => let '(a, b) := scan_literal inrange rest in (c :: d :: a, b)
      end
    else
      let inrange := if decide (c = chr "[") then true else if decide (c = chr "]") then false else inrange in
      let '(a, b) := scan_literal inrange rest in (c :: a, b)
  end.

Fixpoint skip_stars (p : bytes) : bytes :=
  match p with
  | c :: rest => if decide (c = chr "*") then skip_stars rest else p
  | [] => []
  end.

Definition scanChunk (p : bytes) : bool * bytes * bytes :=
  let q := skip_stars p in
  let '(chunk, rest) := scan_literal false q in
  (bool_decide (q <> p), chunk, rest).

Definition match_chunk (chunk s : bytes) : outcome (option bytes) := matchChunk (S (length chunk)) false chunk s.

(** After a star: skip characters other than the separator; the last chunk must match to the end. *)
Fixpoint skip_match (chunk : bytes) (last : bool) (name : bytes) : outcome (option bytes) :=
  match name with
  | [] => Ok None
  | c :: name =>
    if decide (c = slash) then Ok None
    else
      match match_chunk chunk name with
      | Ok (Some t) => if last && negb (bool_decide (t = [])) then skip_match chunk last name else Ok (Some t)
      | Ok None => skip_match chunk last name
      | r => r
      end
  end.

(** Without a match, the rest of the pattern is still checked. *)
Fixpoint check_rest (fuel : nat) (pattern : bytes) : outcome bool :=
  match fuel with
  | O => NoFuel
  | S fuel =>
    if decide (pattern = []) then Ok false
    else
      let '(_, chunk, pattern) := scanChunk pattern in
      _ ← match_chunk chunk []; check_rest fuel pattern
  end.

Fixpoint match_loop (fuel : nat) (pattern name : bytes) : outcome bool :=
  match fuel with
  | O => NoFuel
  | S fuel =>
    if decide (pattern = []) then Ok (bool_decide (name = []))
    else
      let '(star, chunk, rest) := scanChunk pattern in
      if star && bool_decide (chunk = []) then Ok (bool_decide (slash ∉ name))
      else
        r ← match_chunk chunk name;
        match r with
        | Some t =>
          if bool_decide (t = []) || negb (bool_decide (rest = [])) then match_loop fuel rest t
          else if star then
            r ← skip_match chunk (bool_decide (rest = [])) name;
            match r with Some t => match_loop fuel rest t | None => check_rest (S (length rest)) rest end
          else check_rest (S (length rest)) rest
        | None =>
          if star : bool then
            r ← skip_match chunk (bool_decide (rest = [])) name;
            match r with Some t => match_loop fuel rest t | None => check_rest (S (length rest)) rest end
          else check_rest (S (length rest)) rest
        end
  end.

Definition Match (pattern name : bytes) : outcome bool := match_loop (S (length pattern)) pattern name.

(** ** Patterns without special characters *)

Definition special : bytes := str "*?[\".

Definition plain_pattern (p : bytes) : Prop := Forall (fun c => c ∉ special) p.

Lemma special_cases c : c ∉ special ->
  c <> chr "*" /\ c <> chr "?" /\ c <> chr "[" /\ c <> chr "\".
Proof. intros Hc. split_and!; intros ->; apply Hc; by apply (bool_decide_unpack _). Qed.

Lemma scan_plain b p : plain_pattern p -> scan_literal b p = (p, []).
Proof.
  revert b. induction p as [|c p IH]; intros b Hp; [done|].
  apply Forall_cons in Hp as [Hc Hp]. apply special_cases in Hc as (H1 & _ & H3 & H4).
  cbn [scan_literal]. rewrite decide_False by tauto. rewrite decide_False by done. by rewrite IH.
Qed.

Lemma matchChunk_plain p : forall fuel failed s, plain_pattern p -> (length p < fuel)%nat ->
  matchChunk fuel failed p s =
  Ok (if failed then None else if bool_decide (take (length p) s = p) then Some (drop (length p) s) else None).
Proof.
  induction p as [|c p IH]; intros fuel failed s Hp Hf; (destruct fuel as [|fuel]; [cbn in Hf; lia|]).
  - cbn. by rewrite bool_decide_true by by destruct s.
  - cbn [length] in Hf. apply Forall_cons in Hp as [Hc Hp]. apply special_cases in Hc as (H1 & H2 & H3 & H4).
    cbn [matchChunk]. rewrite !decide_False by tauto. rewrite IH by (done || lia). f_equal.
    destruct failed; [done|]. destruct s as [|x s]; cbn [orb head drop length take].
    + rewrite bool_decide_true by done. cbn [orb]. by rewrite bool_decide_false.
    + rewrite bool_decide_false by done. cbn [orb].
      destruct (decide (x = c)) as [->|Hne].
      * rewrite (bool_decide_true (Some c = Some c)) by done. cbn [negb].
        rewrite (bool_decide_ext (c :: take (length p) s = c :: p) (take (length p) s = p)); [done|].
        split; [by intros [= ?]|by intros ->].
      * rewrite (bool_decide_false (Some x = Some c)) by congruence. cbn [negb].
        by rewrite (bool_decide_false (x :: take (length p) s = c :: p)) by congruence.
Qed.

Lemma Match_plain p s : plain_pattern p -> Match p s = Ok (bool_decide (s = p)).
Proof.
  intros Hp. unfold Match. cbn [match_loop]. goal_decide He; [f_equal; apply bool_decide_ext; by rewrite He|].
  assert (skip_stars p = p) as Hs.
  { destruct p as [|c p]; [done|]. apply Forall_cons in Hp as [Hc _]. apply special_cases in Hc as (H1 & _).
    cbn. by rewrite decide_False. }
  unfold scanChunk. rewrite Hs, scan_plain by done. rewrite (bool_decide_false (p <> p)) by tauto. cbn [andb].
  unfold match_chunk. rewrite matchChunk_plain by (done || lia).
  destruct (decide (take (length p) s = p)) as [Ht|Ht].
  - rewrite (bool_decide_true (take _ _ = _)) by done. cbn [mbind outcome_bind].
    destruct (drop (length p) s) as [|x t] eqn:Ed.
    + rewrite (bool_decide_true ([] = [])) by done. cbn [orb]. destruct p as [|c p]; [done|]. cbn [length match_loop].
      rewrite decide_True by done. rewrite !bool_decide_true; [done| |done].
      rewrite <- (take_drop (length (c :: p)) s), Ht, Ed. by rewrite app_nil_r.
    + rewrite (bool_decide_false (x :: t = [])) by done. rewrite (bool_decide_true ([] = [])) by done. cbn [orb negb].
      cbn [length check_rest]. rewrite decide_True by done. rewrite bool_decide_false; [done|].
      intros ->. by rewrite drop_all in Ed.
  - rewrite (bool_decide_false (take _ _ = _)) by done. cbn [mbind outcome_bind length check_rest].
    rewrite decide_True by done. rewrite bool_decide_false; [done|]. intros ->. apply Ht. apply take_ge. lia.
Qed.
