(* ===== verification/Stores.v ===== *)
(** * Stores: the store interfaces of store.go and the stores built from other stores

    [Store] is Go's interface as a record of operations on a shared world [W] (disks, networks).
    StoreRouter (storerouter.go), Cache and RepairableCache (cache.go), FailoverGroup
    (failover.go) and SwapStore (swapstore.go) combine stores. The classes
    [ReadSpec] and [WriteSpec] are what a store promises: it behaves as a map from IDs to plain
    data, the map being a function of the world; [FlakyRead] and [FlakyWrite] are weaker promises
    of stores that fail now and then. The composite stores are proved to keep that
    promise when their parts do; LocalStore.v gives an instance. *)

From S2P Require Import Prelude Format Index Chunk.

(** ** The interfaces *)

(** What a Go method returns: a chunk pointer (possibly nil) and an error (possibly nil). *)
Abbreviation GetResult := (option Chunk * option error)%type.

Record Store (W : Type) := mkStore {
  sGetChunk : ChunkID -> W -> GetResult * W;
  sHasChunk : ChunkID -> W -> (bool * option error) * W;
  sStoreChunk : option (Chunk -> W -> option error * W);   (* Some for a WriteStore *)
  sClose : W -> option error * W;
  sString : bytes
}.
Arguments mkStore {W}.
Arguments sGetChunk {W}.
Arguments sHasChunk {W}.
Arguments sStoreChunk {W}.
Arguments sClose {W}.
Arguments sString {W}.

Section stores.

Context {W : Type}.

(** [s.StoreChunk(c)] on a value known to be a WriteStore; the type assertion of a read-only
    store panics. *)
Definition StoreTo (s : Store W) (c : Chunk) (w : W) : outcome (option error * W) :=
  match sStoreChunk s with Some f => Ok (f c w) | None => Panic end.

(** [strings.Join] *)
Fixpoint Join (l : list bytes) (sep : bytes) : bytes :=
  match l with
  | [] => []
  | [a] => a
  | a :: l => a ++ sep ++ Join l sep
  end.

(** ** StoreRouter *)

(** GetChunk: the first answer that is not ChunkMissing. *)
Fixpoint router_GetChunk (stores : list (Store W)) (i : ChunkID) (w : W) : GetResult * W :=
  match stores with
  | [] => ((None, Some (ChunkMissing i)), w)
  | s :: stores =>
    match sGetChunk s i w with
    | ((chunk, None), w) => ((chunk, None), w)
    | ((_, Some (ChunkMissing _)), w) => router_GetChunk stores i w
    | ((_, Some err), w) => ((None, Some (Wrapped err "store")), w)
    end
  end.

Fixpoint router_HasChunk (stores : list (Store W)) (i : ChunkID) (w : W)
  : (bool * option error) * W :=
  match stores with
  | [] => ((false, None), w)
  | s :: stores =>
    match sHasChunk s i w with
    | ((_, Some err), w) => ((false, Some err), w)
    | ((true, None), w) => ((true, None), w)
    | ((false, None), w) => router_HasChunk stores i w
    end
  end.

(** Close closes every store and returns the first error. *)
Fixpoint router_Close (stores : list (Store W)) (w : W) : option error * W :=
  match stores with
  | [] => (None, w)
  | s :: stores =>
    let '(e, w) := sClose s w in
    let '(e', w) := router_Close stores w in
    (match e with Some _ => e | None => e' end, w)
  end.

Definition StoreRouter (stores : list (Store W)) : Store W :=
  mkStore (router_GetChunk stores) (router_HasChunk stores) None (router_Close stores)
    (Join (map sString stores) (str ",")).

(** ** Cache *)

(** GetChunk: the local store, then the remote one, whose chunk is also stored locally. *)
Definition cache_GetChunk (s l : Store W) (store : Chunk -> W -> option error * W)
  (i : ChunkID) (w : W) : GetResult * W :=
  match sGetChunk l i w with
  | ((chunk, None), w) => ((chunk, None), w)
  | ((_, Some (ChunkMissing _)), w) =>
    match sGetChunk s i w with
    | ((chunk, Some err), w) => ((chunk, Some err), w)
    | ((Some chunk, None), w) =>
      let '(e, w) := store chunk w in
      ((Some chunk, errors_Wrap e "failed to store in local cache"), w)
    | ((None, None), w) => ((None, None), w)
    end
  | ((chunk, Some err), w) => ((chunk, Some err), w)
  end.

Definition cache_HasChunk (s l : Store W) (i : ChunkID) (w : W) : (bool * option error) * W :=
  match sHasChunk l i w with
  | ((hasChunk, Some err), w) => ((hasChunk, Some err), w)
  | ((true, None), w) => ((true, None), w)
  | ((false, None), w) => sHasChunk s i w
  end.

Definition Cache (s l : Store W) (store : Chunk -> W -> option error * W) : Store W :=
  mkStore (cache_GetChunk s l store) (cache_HasChunk s l) None
    (fun w => let '(_, w) := sClose l w in sClose s w)
    (str "store:" ++ sString s ++ str " with cache " ++ sString l).

(** [errors.As(err, &chunkInvalidErr)]: looks through wrapped errors. *)
Fixpoint as_ChunkInvalid (e : error) : option ChunkID :=
  match e with
  | ChunkInvalid i _ => Some i
  | Wrapped e _ => as_ChunkInvalid e
  | _ => None
  end.

Definition repairable_GetChunk (l : Store W) (i : ChunkID) (w : W) : GetResult * W :=
  match sGetChunk l i w with
  | ((chunk, Some err), w) =>
    match as_ChunkInvalid err with
    | Some i' => ((chunk, Some (ChunkMissing i')), w)
    | None => ((chunk, Some err), w)
    end
  | r => r
  end.

Definition RepairableCache (l : Store W) : Store W :=
  mkStore (repairable_GetChunk l) (sHasChunk l) (sStoreChunk l) (sClose l) (sString l).

(** ** FailoverGroup *)

(** The group's own state is the index of the active store; it is part of the world. *)
Record Failover := mkFailover { f_stores : list (Store W); f_active : W -> nat;
                                f_set : nat -> W -> W }.

(** errorFrom: rotate, unless another request already did. *)
Definition errorFrom (g : Failover) (i : nat) (w : W) : W :=
  if decide (i <> f_active g w) then w
  else f_set g ((f_active g w + 1) `mod` length (f_stores g))%nat w.

Fixpoint failover_GetChunk (g : Failover) (n : nat) (gErr : option error) (i : ChunkID) (w : W)
  : outcome (GetResult * W) :=
  match n with
  | O => Ok ((None, gErr), w)
  | S n =>
    let active := f_active g w in
    match f_stores g !! active with
    | None => Panic
    | Some s =>
      match sGetChunk s i w with
      | ((b, None), w) => Ok ((b, None), w)
      | ((b, Some (ChunkMissing i')), w) => Ok ((b, Some (ChunkMissing i')), w)
      | ((_, Some err), w) => failover_GetChunk g n (Some err) i (errorFrom g active w)
      end
    end
  end.

Definition FailoverGetChunk (g : Failover) (i : ChunkID) (w : W) : outcome (GetResult * W) :=
  failover_GetChunk g (length (f_stores g)) None i w.

Fixpoint failover_HasChunk (g : Failover) (n : nat) (gErr : option error) (i : ChunkID) (w : W)
  : outcome ((bool * option error) * W) :=
  match n with
  | O => Ok ((false, gErr), w)
  | S n =>
    let active := f_active g w in
    match f_stores g !! active with
    | None => Panic
    | Some s =>
      match sHasChunk s i w with
      | ((b, None), w) => Ok ((b, None), w)
      | ((_, Some err), w) => failover_HasChunk g n (Some err) i (errorFrom g active w)
      end
    end
  end.

Definition FailoverHasChunk (g : Failover) (i : ChunkID) (w : W)
  : outcome ((bool * option error) * W) :=
  failover_HasChunk g (length (f_stores g)) None i w.

(** Close of a group returns the last error. *)
Fixpoint failover_Close (stores : list (Store W)) (closeErr : option error) (w : W)
  : option error * W :=
  match stores with
  | [] => (closeErr, w)
  | s :: stores =>
    let '(e, w) := sClose s w in
    failover_Close stores (match e with Some _ => e | None => closeErr end) w
  end.

(** ** SwapStore: the current store is the wrapper's state *)

Definition Swap (cur new : Store W) (w : W) : (option error * Store W) * W :=
  let oldWritable := match sStoreChunk cur with Some _ => true | None => false end in
  let newWritable := match sStoreChunk new with Some _ => true | None => false end in
  if oldWritable && negb newWritable then
    ((Some (Errorf "a writable store can only be updated with another writable one"), cur), w)
  else
    let '(_, w) := sClose cur w in
    ((None, new), w).

(** What callers do to a swap store: every call goes to the store of the moment, and takes the
    read lock, so it never overlaps a swap. *)
Inductive swap_op :=
| OpGet (i : ChunkID)
| OpHas (i : ChunkID)
| OpStore (c : Chunk)
| OpSwap (new : Store W).

Inductive swap_result :=
| RGet (r : GetResult)
| RHas (r : bool * option error)
| RStore (r : option error)
| RSwap (r : option error).

Definition swap_do (cur : Store W) (op : swap_op) (w : W)
  : outcome (swap_result * Store W * W) :=
  match op with
  | OpGet i => let '(r, w) := sGetChunk cur i w in Ok (RGet r, cur, w)
  | OpHas i => let '(r, w) := sHasChunk cur i w in Ok (RHas r, cur, w)
  | OpStore c => '(r, w) ← StoreTo cur c w; Ok (RStore r, cur, w)
  | OpSwap new => let '((r, s), w) := Swap cur new w in Ok (RSwap r, s, w)
  end.

Fixpoint swap_run (cur : Store W) (ops : list swap_op) (w : W)
  : outcome (list swap_result * Store W * W) :=
  match ops with
  | [] => Ok ([], cur, w)
  | op :: ops =>
    '(r, s, w) ← swap_do cur op w;
    '(rs, s, w) ← swap_run s ops w;
    Ok (r :: rs, s, w)
  end.

End stores.

Arguments Failover : clear implicits.
Arguments swap_op : clear implicits.

(** ** What a store promises *)

Section specs.

Context {W : Type} `{Codec}.

(** The plain data a store holds for each ID, as a function of the world. *)
Abbreviation View := (W -> ChunkID -> option bytes).

(** The chunk [c] is the data [d] with its ID [i], in whichever form it has it. *)
Definition holds (c : Chunk) (i : ChunkID) (d : bytes) : Prop :=
  plain c = Ok d /\ chunk_id c = i /\ Sum d = i /\
  (storage c <> [] -> fromStorage (converters c) (storage c) = Ok d).

Lemma Storage_ok c m i d :
  holds c i d -> d <> [] ->
  exists b, fst (Storage c m) = Ok b /\ b <> [] /\ fromStorage m b = Ok d.
Proof.
  intros (Hp & Hi & Hs & Hst) Hd. unfold Storage.
  destruct (bool_decide (0 < length (storage c))%nat && converters_equal m (converters c)) eqn:E.
  - apply andb_true_iff in E as [E1 E2]. apply bool_decide_eq_true in E1.
    apply converters_equal_eq in E2 as ->. exists (storage c). split; [done|].
    assert (storage c <> []) as Hne by (destruct (storage c); [simpl in E1; lia|done]).
    split; [done|]. by apply Hst.
  - unfold plain in Hp. destruct (Data c) as [r c']. cbn [fst] in Hp. subst r. cbn [fst].
    destruct (fromStorage_toStorage m d) as (b & Ht & Hf). exists b. split; [done|].
    split; [by eapply toStorage_nonempty|done].
Qed.

Lemma NewChunkFromStorage_holds i b d m sv :
  fromStorage m b = Ok d -> b <> [] -> d <> [] -> Sum d = i ->
  exists c, NewChunkFromStorage i b m sv = Ok c /\ holds c i d.
Proof.
  intros Hd Hb Hdne Hsum. set (c0 := mkChunk [] b m i false).
  assert (Data c0 = (Ok d, mkChunk d b m i false)) as HD.
  { unfold Data, c0. cbn [data storage converters id idCalculated].
    rewrite decide_False by (simpl; lia).
    rewrite decide_True by (destruct b; [done|simpl; lia]). by rewrite Hd. }
  unfold NewChunkFromStorage. fold c0. unfold verify_chunk.
  destruct sv.
  - eexists. split; [done|]. split; [|done]. unfold plain. rewrite Data_set_id. by rewrite HD.
  - unfold ChunkID_. change (idCalculated c0) with false. cbv iota. rewrite HD.
    rewrite decide_True by done. eexists. split; [done|]. split; [|done].
    unfold plain, Data. cbn [data]. by rewrite decide_True by (destruct d; [done|simpl; lia]).
Qed.

(** The worlds in which the promises hold (no damaged chunk, no failing disk). *)
Context (inv : W -> Prop).

Class ReadSpec (s : Store W) (view : View) : Prop := {
  spec_hit i w d : inv w -> view w i = Some d ->
    exists c, sGetChunk s i w = ((Some c, None), w) /\ holds c i d;
  spec_miss i w : inv w -> view w i = None ->
    sGetChunk s i w = ((None, Some (ChunkMissing i)), w);
  spec_has i w : inv w ->
    sHasChunk s i w = ((bool_decide (is_Some (view w i)), None), w)
}.

(** [other] is anything the store must not touch. *)
Class WriteSpec (s : Store W) (view : View) (st : Chunk -> W -> option error * W) {A}
  (other : W -> A) : Prop := {
  spec_read :: ReadSpec s view;
  spec_write : sStoreChunk s = Some st;
  spec_store c i d w : inv w -> holds c i d -> d <> [] ->
    exists w', st c w = (None, w') /\ inv w' /\ view w' i = Some d /\
      (forall j, j <> i -> view w' j = view w j) /\ other w' = other w
}.

(** The union of views, the first that has an ID deciding. *)
Fixpoint union_view (views : list View) : View := fun w i =>
  match views with
  | [] => None
  | v :: views => match v w i with Some d => Some d | None => union_view views w i end
  end.

#[global] Instance router_spec stores views :
  Forall2 ReadSpec stores views -> ReadSpec (StoreRouter stores) (union_view views).
Proof.
  intros Hall. split; cbn [StoreRouter sGetChunk sHasChunk].
  - intros i w d Hi. induction Hall as [|s v stores views Hs Hall IH]; cbn [union_view]; [done|].
    destruct (v w i) as [d'|] eqn:E.
    + intros [= <-]. destruct (spec_hit i w d' Hi E) as (c & Hc & Hh). cbn [router_GetChunk].
      rewrite Hc. by exists c.
    + intros Hd. cbn [router_GetChunk]. rewrite (spec_miss i w Hi E). by apply IH.
  - intros i w Hi. induction Hall as [|s v stores views Hs Hall IH]; cbn [union_view]; [done|].
    destruct (v w i) as [d'|] eqn:E; [done|]. intros Hd. cbn [router_GetChunk].
    rewrite (spec_miss i w Hi E). by apply IH.
  - intros i w Hi. induction Hall as [|s v stores views Hs Hall IH]; cbn [union_view router_HasChunk].
    { rewrite bool_decide_false; [done|]. by intros []. }
    rewrite (spec_has i w Hi). destruct (v w i) as [d'|] eqn:E.
    + by rewrite bool_decide_true by eauto.
    + rewrite bool_decide_false by (by intros []). apply IH.
Qed.

(** A cache answers like its two stores together, and after a hit of the remote store the local
    one has the chunk. *)
Section cache.

Context {A} (s l : Store W) (vs vl : View) (st : Chunk -> W -> option error * W) (other : W -> A).
Context `{Hs : !ReadSpec s vs} `{Hl : !WriteSpec l vl st (fun w => (vs w, other w))}.

Lemma cache_get i w :
  inv w ->
  (forall d, vs w i = Some d -> d <> []) ->
  exists w', inv w' /\ (forall j, vs w' j = vs w j) /\ other w' = other w /\
  (forall j, j <> i -> vl w' j = vl w j) /\
  match union_view [vl; vs] w i with
  | Some d => exists c, cache_GetChunk s l st i w = ((Some c, None), w') /\ holds c i d /\
                        vl w' i = Some d
  | None => cache_GetChunk s l st i w = ((None, Some (ChunkMissing i)), w') /\ w' = w
  end.
Proof using All.
  intros Hi Hne. unfold cache_GetChunk. cbn [union_view]. destruct (vl w i) as [d|] eqn:El.
  - destruct (spec_hit (s := l) i w d Hi El) as (c & -> & Hh). exists w. repeat split; [done|].
    by exists c.
  - rewrite (spec_miss (s := l) i w Hi El). destruct (vs w i) as [d|] eqn:Es.
    + destruct (spec_hit (s := s) i w d Hi Es) as (c & -> & Hh).
      destruct (spec_store c i d w Hi Hh (Hne d eq_refl)) as (w' & -> & Hi' & H1 & H2 & [= H3 H4]).
      exists w'. rewrite H3. repeat split; [done|done|done|]. by exists c.
    + rewrite (spec_miss (s := s) i w Hi Es). exists w. done.
Qed.

End cache.

End specs.

(** ** Stores that may fail *)

Section flaky.

Context {W : Type} `{Codec}.
Abbreviation View := (W -> ChunkID -> option bytes).
Context (inv : W -> Prop) (Fails : error -> Prop).

(** Answers are either right or an error of [Fails]; [other] is what the store does not touch. *)
Class FlakyRead (s : Store W) (view : View) {A} (other : W -> A) : Prop := {
  flaky_get i w oc e w' : inv w -> sGetChunk s i w = ((oc, e), w') ->
    inv w' /\ (forall j, view w' j = view w j) /\ other w' = other w /\
    match e, oc with
    | None, Some c => exists d, view w i = Some d /\ holds c i d
    | None, None => False
    | Some e, _ => Fails e \/ (e = ChunkMissing i /\ view w i = None)
    end;
  flaky_has i w b e w' : inv w -> sHasChunk s i w = ((b, e), w') ->
    inv w' /\ (forall j, view w' j = view w j) /\ other w' = other w /\
    match e with None => b = bool_decide (is_Some (view w i)) | Some e => Fails e end
}.

(** A failed StoreChunk may or may not have stored the chunk. *)
Class FlakyWrite (s : Store W) (view : View) (st : Chunk -> W -> option error * W) {A}
  (other : W -> A) : Prop := {
  flaky_read :: FlakyRead s view other;
  flaky_write : sStoreChunk s = Some st;
  flaky_store c i d w e w' : inv w -> holds c i d -> d <> [] -> st c w = (e, w') ->
    inv w' /\ (forall j, j <> i -> view w' j = view w j) /\ other w' = other w /\
    match e with
    | None => view w' i = Some d
    | Some e => Fails e /\ (view w' i = view w i \/ view w' i = Some d)
    end
}.

(** A store that keeps its promises in every world of [inv] keeps these ones. *)
Lemma read_spec_flaky s view {A} (other : W -> A) : ReadSpec inv s view -> FlakyRead s view other.
Proof.
  intros Hs. split.
  - intros i w oc e w' Hi. destruct (view w i) as [d|] eqn:E.
    + destruct (spec_hit inv i w d Hi E) as (c & -> & Hh). intros [= <- <- <-]. split_and!; try done. by exists d.
    + rewrite (spec_miss inv i w Hi E). intros [= <- <- <-]. split_and!; try done. by right.
  - intros i w b e w' Hi. rewrite (spec_has inv i w Hi). by intros [= <- <- <-].
Qed.

Lemma write_spec_flaky s view st {A B} (other : W -> A) (other' : W -> B) :
  WriteSpec inv s view st other -> (forall w w', other w = other w' -> other' w = other' w') ->
  FlakyWrite s view st other'.
Proof.
  intros Hs Ho. split; [apply read_spec_flaky, _|apply (spec_write inv)|].
  intros c i d w e w' Hi Hh Hd. destruct (spec_store inv c i d w Hi Hh Hd) as (w2 & -> & H2 & H3 & H4 & H5).
  intros [= <- <-]. split_and!; auto.
Qed.

End flaky.

Lemma flaky_weaken {W} `{Codec} (inv : W -> Prop) (F F' : error -> Prop) s view st {A} (other : W -> A) :
  (forall e, F e -> F' e) -> FlakyWrite inv F s view st other -> FlakyWrite inv F' s view st other.
Proof.
  intros Hf Hs. split; [split|apply (flaky_write inv F)|].
  - intros i w oc e w' Hi E. destruct (flaky_get inv F i w oc e w' Hi E) as (H1 & H2 & H3 & H4).
    split_and!; try done. destruct e; [|done]. destruct H4; auto.
  - intros i w b e w' Hi E. destruct (flaky_has inv F i w b e w' Hi E) as (H1 & H2 & H3 & H4).
    split_and!; try done. destruct e; auto.
  - intros c i d w e w' Hi Hh Hd E.
    destruct (flaky_store inv F c i d w e w' Hi Hh Hd E) as (H1 & H2 & H3 & H4).
    split_and!; try done. destruct e; [|done]. destruct H4; auto.
Qed.

(** ** Failover *)

Section failover.

Context {W : Type}.

(** The group's state is separate from everything its stores touch. *)
Record failover_ok (g : Failover W) : Prop := {
  fo_set w k : f_active g (f_set g k w) = k;
  fo_frame s i w r w' : s ∈ f_stores g -> sGetChunk s i w = (r, w') -> f_active g w' = f_active g w
}.

(** A store that answers requests for [i]: with a chunk, or by saying it has none. *)
Definition answers (e : option error) : bool :=
  match e with None | Some (ChunkMissing _) => true | _ => false end.

Definition healthy (s : Store W) (i : ChunkID) : Prop :=
  forall w, answers (snd (fst (sGetChunk s i w))) = true.

(** How many rotations away from the active store the store [j] is. *)
Definition distance (N a j : nat) : nat := if decide (a <= j)%nat then (j - a)%nat else (j + N - a)%nat.

Lemma distance_step N a j :
  (a < N)%nat -> (j < N)%nat -> a <> j ->
  ((a + 1) `mod` N < N)%nat /\ S (distance N ((a + 1) `mod` N) j) = distance N a j.
Proof.
  intros Ha Hj Hne. split; [apply Nat.mod_upper_bound; lia|].
  assert ((a + 1) `mod` N = if decide (a + 1 < N)%nat then a + 1 else 0)%nat as ->.
  { goal_decide H; [by apply Nat.mod_small|]. replace (a + 1)%nat with N by lia.
    apply Nat.Div0.mod_same. }
  unfold distance. repeat (let H := fresh in goal_decide H); lia.
Qed.

Lemma failover_loop g i j s n gErr w :
  failover_ok g -> f_stores g !! j = Some s -> healthy s i ->
  (f_active g w < length (f_stores g))%nat ->
  (distance (length (f_stores g)) (f_active g w) j < n)%nat ->
  exists k t b e w0 w', failover_GetChunk g n gErr i w = Ok ((b, e), w') /\ answers e = true /\
    f_active g w' = k /\ f_stores g !! k = Some t /\ sGetChunk t i w0 = ((b, e), w').
Proof.
  intros Hok Hj Hh. revert gErr w. pose proof (lookup_lt_Some _ _ _ Hj) as HjN.
  induction n as [|n IH]; intros gErr w Hact Hn; [lia|]. cbn [failover_GetChunk].
  destruct (lookup_lt_is_Some_2 (f_stores g) (f_active g w)) as [t Ht]; [done|]. rewrite Ht.
  destruct (sGetChunk t i w) as [[b e] w1] eqn:Eg.
  assert (f_active g w1 = f_active g w) as Hfr.
  { apply (fo_frame g Hok t i w (b, e)); [|done]. by eapply list_elem_of_lookup_2. }
  destruct (answers e) eqn:Ha.
  { exists (f_active g w1), t, b, e, w, w1. rewrite Hfr. repeat split; try done.
    destruct e as [[]|]; done. }
  assert (f_active g w <> j) as Hne.
  { intros Heq. rewrite Heq, Hj in Ht. injection Ht as ->. specialize (Hh w).
    rewrite Eg in Hh. simpl in Hh. congruence. }
  destruct (distance_step _ _ _ Hact HjN Hne) as [Hlt Hd].
  assert (f_active g (errorFrom g (f_active g w) w1) =
    (f_active g w + 1) `mod` length (f_stores g))%nat as Hact'.
  { unfold errorFrom. rewrite Hfr. rewrite decide_False by tauto. apply (fo_set g Hok). }
  destruct e as [e|]; [|done].
  assert (forall A (x y : A), (match e with ChunkMissing _ => x | _ => y end) = y) as Hm
    by (intros; by destruct e).
  destruct (IH (Some e) (errorFrom g (f_active g w) w1)) as (k & t' & b' & e' & w0 & w' & Hr & H');
    [rewrite Hact'; lia|rewrite Hact'; lia|].
  exists k, t', b', e', w0, w'. split; [|exact H']. rewrite <- Hr. by destruct e.
Qed.

End failover.

(** ** The properties *)

Section properties.

Context {W : Type} `{Codec}.

(** The stores before a hit all reported ChunkMissing, the world going from [w] to [w']. *)
Inductive misses (i : ChunkID) : list (Store W) -> W -> W -> Prop :=
| misses_nil w : misses i [] w w
| misses_cons s l w b i' w1 w2 :
    sGetChunk s i w = ((b, Some (ChunkMissing i')), w1) -> misses i l w1 w2 ->
    misses i (s :: l) w w2.

Lemma router_misses i pre post w w' :
  misses i pre w w' -> router_GetChunk (pre ++ post) i w = router_GetChunk post i w'.
Proof. induction 1 as [|s l w b i' w1 w2 Hs _ IH]; simpl; [done|]. by rewrite Hs. Qed.

(** A router asks its stores in order and answers with the first that does not report the
    chunk missing: that store's chunk, or its error (wrapped); only when all of them report it
    missing does the router. A store behind the deciding one is not asked. *)
Theorem router_first_answer i pre s post w w' b e w'' :
  misses i pre w w' -> sGetChunk s i w' = ((b, e), w'') ->
  (forall i', e <> Some (ChunkMissing i')) ->
  sGetChunk (StoreRouter (pre ++ s :: post)) i w =
    (match e with None => (b, None) | Some err => (None, Some (Wrapped err "store")) end, w'') /\
  sGetChunk (StoreRouter pre) i w = ((None, Some (ChunkMissing i)), w').
Proof.
  intros Hm Hs He. cbn [StoreRouter sGetChunk]. split.
  - rewrite (router_misses _ _ _ _ _ Hm). cbn [router_GetChunk]. rewrite Hs.
    destruct e as [err|]; [|done]. destruct err; try done. by specialize (He ID).
  - rewrite <- (app_nil_r pre). by rewrite (router_misses _ _ _ _ _ Hm).
Qed.

(** A router over stores that behave as maps behaves as their union, the first store that
    has a chunk deciding: GetChunk returns its data, HasChunk says whether any has it. *)
Theorem router_union (stores : list (Store W)) (views : list (W -> ChunkID -> option bytes))
  (inv : W -> Prop) i w :
  Forall2 (ReadSpec inv) stores views -> inv w ->
  match union_view views w i with
  | Some d => exists c, sGetChunk (StoreRouter stores) i w = ((Some c, None), w) /\ holds c i d
  | None => sGetChunk (StoreRouter stores) i w = ((None, Some (ChunkMissing i)), w)
  end /\
  sHasChunk (StoreRouter stores) i w = ((bool_decide (is_Some (union_view views w i)), None), w).
Proof.
  intros Hall Hi. pose proof (router_spec inv stores views Hall) as Hr.
  split; [|by apply (spec_has inv (s := StoreRouter stores))].
  destruct (union_view views w i) as [d|] eqn:E;
    [by apply (spec_hit inv (s := StoreRouter stores)) | by apply (spec_miss inv (s := StoreRouter stores))].
Qed.

(** Read-through caching: a request for a chunk either store has is answered with its data,
    and afterwards the same request is answered from the local store alone, whatever the remote
    store then does (fail, hang up, lose the chunk), without changing the world. *)
Theorem cache_read_through {A} (s l s' : Store W) (vs vl : W -> ChunkID -> option bytes) st
  (other : W -> A) (inv : W -> Prop) i d w :
  ReadSpec inv s vs -> WriteSpec inv l vl st (fun w => (vs w, other w)) -> inv w ->
  (forall d, vs w i = Some d -> d <> []) ->
  union_view [vl; vs] w i = Some d ->
  exists c w', sGetChunk (Cache s l st) i w = ((Some c, None), w') /\ holds c i d /\
  exists c', sGetChunk (Cache s' l st) i w' = ((Some c', None), w') /\ holds c' i d.
Proof.
  intros Hs Hl Hi Hne Hu.
  destruct (cache_get inv s l vs vl st other i w Hi Hne) as (w' & Hi' & _ & _ & _ & H').
  rewrite Hu in H'. destruct H' as (c & Hc & Hh & Hv). exists c, w'. split; [exact Hc|].
  split; [done|]. destruct (spec_hit inv (s := l) i w' d Hi' Hv) as (c' & Hc' & Hh').
  exists c'. split; [|done]. cbn [Cache sGetChunk]. unfold cache_GetChunk. by rewrite Hc'.
Qed.

(** As long as one store of a failover group answers requests for a chunk, the group does:
    after at most one request to every store it returns what one of them answered (a chunk, or
    that it is missing), and the store that answered is the active one. *)
Theorem failover_answers (g : Failover W) i j s w :
  failover_ok g -> f_stores g !! j = Some s -> healthy s i ->
  (f_active g w < length (f_stores g))%nat ->
  exists t b e w0 w', FailoverGetChunk g i w = Ok ((b, e), w') /\ answers e = true /\
    f_stores g !! f_active g w' = Some t /\ sGetChunk t i w0 = ((b, e), w').
Proof.
  intros Hok Hj Hh Hact. pose proof (lookup_lt_Some _ _ _ Hj) as HjN.
  destruct (failover_loop g i j s (length (f_stores g)) None w Hok Hj Hh Hact)
    as (k & t & b & e & w0 & w' & Hr & Ha & <- & Ht & Hg).
  { unfold distance. goal_decide Hd; lia. }
  by exists t, b, e, w0, w'.
Qed.

(** Swapping stores under load: if the wrapped store is writable it stays so, whatever
    sequence of requests and swaps follows, so no StoreChunk ever hits a read-only store; and
    every request is answered by the store current when it is made. *)
Theorem swap_stays_writable (cur : Store W) ops w :
  sStoreChunk cur <> None ->
  exists rs s w', swap_run cur ops w = Ok (rs, s, w') /\ sStoreChunk s <> None /\
    length rs = length ops.
Proof.
  revert cur w. induction ops as [|op ops IH]; intros cur w Hw; cbn [swap_run].
  { by exists [], cur, w. }
  assert (exists r s w1, swap_do cur op w = Ok (r, s, w1) /\ sStoreChunk s <> None)
    as (r & s & w1 & -> & Hs).
  { destruct op as [i|i|c|new]; cbn [swap_do].
    - destruct (sGetChunk cur i w). eauto 10.
    - destruct (sHasChunk cur i w). eauto 10.
    - unfold StoreTo. destruct (sStoreChunk cur) as [f|] eqn:E; [|done].
      cbn [mbind outcome_bind]. destruct (f c w) as [r w1]. exists (RStore r), cur, w1.
      split; [done|congruence].
    - unfold Swap. destruct (sStoreChunk cur) as [f|] eqn:E; [|done].
      destruct (sStoreChunk new) as [f'|] eqn:E'; cbn [andb negb].
      + destruct (sClose cur w) as [e w1]. eexists _, new, w1. split; [done|congruence].
      + eexists _, cur, w. split; [done|congruence]. }
  cbn [mbind outcome_bind]. destruct (IH s w1 Hs) as (rs & s' & w' & -> & Hs' & Hl).
  cbn [mbind outcome_bind]. exists (r :: rs), s', w'. split; [done|]. split; [done|].
  simpl. by rewrite Hl.
Qed.

End properties.

(** ** A concrete world: two maps in memory *)

Definition ExWorld : Type := gmap bytes bytes * gmap bytes bytes.

(** The non-empty data under an ID whose checksum is right. *)
Definition ex_view (m : gmap bytes bytes) (i : ChunkID) : option bytes :=
  match m !! i with
  | Some (c :: d) => if decide (Sum (Codec := toy_codec) (c :: d) = i) then Some (c :: d) else None
  | _ => None
  end.

Definition ex_chunk (i : ChunkID) (d : bytes) : Chunk := mkChunk d [] [] i true.

Definition ex_get (f : ExWorld -> gmap bytes bytes) (i : ChunkID) (w : ExWorld) : GetResult * ExWorld :=
  match ex_view (f w) i with
  | Some d => ((Some (ex_chunk i d), None), w)
  | None => ((None, Some (ChunkMissing i)), w)
  end.

Definition ex_has (f : ExWorld -> gmap bytes bytes) (i : ChunkID) (w : ExWorld)
  : (bool * option error) * ExWorld :=
  ((bool_decide (is_Some (ex_view (f w) i)), None), w).

(** Storing in the first map. *)
Definition ex_put (c : Chunk) (w : ExWorld) : option error * ExWorld :=
  match plain (H := toy_codec) c with
  | Ok d => (None, (<[chunk_id (H := toy_codec) c := d]> (fst w), snd w))
  | _ => (Some (Errorf "no data"), w)
  end.

Definition ex_local : Store ExWorld :=
  mkStore (ex_get fst) (ex_has fst) (Some ex_put) (fun w => (None, w)) (str "local").
Definition ex_remote : Store ExWorld :=
  mkStore (ex_get snd) (ex_has snd) None (fun w => (None, w)) (str "remote").
(** A store whose connection is lost. *)
Definition ex_dead : Store ExWorld :=
  mkStore (fun _ w => ((None, Some (Errorf "down")), w)) (fun _ w => ((false, Some (Errorf "down")), w))
    None (fun w => (None, w)) (str "dead").

Lemma ex_read_spec f n st cl :
  ReadSpec (H := toy_codec) (fun _ => True) (mkStore (ex_get f) (ex_has f) st cl n) (fun w => ex_view (f w)).
Proof.
  split; cbn [sGetChunk sHasChunk]; unfold ex_get.
  - intros i w d _ Hd. rewrite Hd. eexists. split; [done|]. unfold ex_view in Hd.
    destruct (f w !! i) as [[|c d']|]; try done. destruct (decide _) in Hd; [|done].
    injection Hd as <-. split; [|by repeat split].
    unfold plain, Data, ex_chunk. cbn [data]. by rewrite decide_True by (simpl; lia).
  - intros i w _ Hd. by rewrite Hd.
  - done.
Qed.

Lemma ex_write_spec :
  WriteSpec (H := toy_codec) (fun _ => True) ex_local (fun w => ex_view (fst w)) ex_put
    (fun w => (ex_view (snd w), tt)).
Proof.
  split; [apply ex_read_spec|done|]. intros c i d w _ (Hp & Hi & Hs & _) Hd. unfold ex_put. rewrite Hp, Hi.
  eexists. split; [done|]. split; [done|]. unfold ex_view. cbn [fst snd]. split.
  - rewrite lookup_insert_eq. destruct d; [done|]. by rewrite decide_True.
  - split; [|done]. intros j Hj. by rewrite lookup_insert_ne by congruence.
Qed.

Definition ex_id : ChunkID := Sum (Codec := toy_codec) (str "data").

Definition ex_world : ExWorld := (∅, {[ ex_id := str "data" ]}).

Lemma ex_world_nonempty i d : ex_view (snd ex_world) i = Some d -> d <> [].
Proof.
  unfold ex_view. destruct (snd ex_world !! i) as [[|c b]|]; try done.
  destruct (decide _); [|done]. by intros [= <-].
Qed.

Lemma router_first_answer_witness :
  sGetChunk (StoreRouter [ex_local; ex_dead; ex_remote]) ex_id ex_world =
  ((None, Some (Wrapped (Errorf "down") "store")), ex_world).
Proof.
  apply (router_first_answer ex_id [ex_local] ex_dead [ex_remote] ex_world ex_world None
    (Some (Errorf "down")) ex_world);
    [eapply misses_cons; [reflexivity|apply misses_nil]|reflexivity|discriminate].
Defined.

Lemma router_union_witness :
  exists c, sGetChunk (StoreRouter [ex_local; ex_remote]) ex_id ex_world =
    ((Some c, None), ex_world) /\ holds (H := toy_codec) c ex_id (str "data").
Proof.
  refine (proj1 (router_union (H := toy_codec) [ex_local; ex_remote]
    [(fun w => ex_view (fst w)); (fun w => ex_view (snd w))] (fun _ => True) ex_id ex_world _ I)).
  repeat constructor; apply ex_read_spec.
Defined.

Lemma cache_read_through_witness :
  exists c w', sGetChunk (Cache ex_remote ex_local ex_put) ex_id ex_world = ((Some c, None), w')
    /\ exists c', sGetChunk (Cache ex_dead ex_local ex_put) ex_id w' = ((Some c', None), w') /\
    holds (H := toy_codec) c' ex_id (str "data").
Proof.
  destruct (cache_read_through (H := toy_codec) ex_remote ex_local ex_dead (fun w => ex_view (snd w))
    (fun w => ex_view (fst w)) ex_put (fun _ => tt) (fun _ => True) ex_id (str "data") ex_world
    (ex_read_spec _ _ _ _) ex_write_spec I (ex_world_nonempty _) ltac:(vm_compute; reflexivity)) as (c & w' & H1 & _ & H2).
  by exists c, w'.
Defined.

(** A group over a world that is the index of the active store. *)
Definition ex_group : Failover nat :=
  mkFailover
    [mkStore (fun _ w => ((None, Some (Errorf "down")), w)) (fun _ w => ((false, None), w)) None
       (fun w => (None, w)) (str "a");
     mkStore (fun i w => ((Some (ex_chunk i (str "x")), None), w)) (fun _ w => ((true, None), w)) None
       (fun w => (None, w)) (str "b")]
    (fun w => w) (fun k _ => k).

Lemma ex_group_ok : failover_ok ex_group.
Proof.
  split; [done|]. intros s i w r w' Hs. cbn [f_stores ex_group] in Hs.
  apply elem_of_cons in Hs as [->|Hs]; [by intros [= <- <-]|].
  apply elem_of_cons in Hs as [->|Hs]; [by intros [= <- <-]|]. by apply elem_of_nil in Hs.
Qed.

Lemma failover_answers_witness :
  exists t b e w0 w', FailoverGetChunk ex_group (str "id") 0%nat = Ok ((b, e), w') /\
    answers e = true /\ f_stores ex_group !! w' = Some t /\ sGetChunk t (str "id") w0 = ((b, e), w').
Proof.
  apply (failover_answers ex_group (str "id") 1 _ 0%nat ex_group_ok eq_refl);
    [intros w; reflexivity|cbn; lia].
Defined.

Lemma swap_stays_writable_witness :
  exists rs s w', swap_run ex_local [OpSwap ex_remote; OpGet (str "id"); OpStore (ex_chunk (str "k") (str "v"))]
    ex_world = Ok (rs, s, w') /\ sStoreChunk s <> None /\ length rs = 3%nat.
Proof. apply (swap_stays_writable ex_local). discriminate. Defined.
