(* ===== verification/Composition.v ===== *)
(** * Composition: stores that may fail, put together

    Stores.v shows that routers and caches of reliable stores behave as the union of their parts. Here
    the parts may fail now and then: [Source] is [FlakyRead] with a relation for what a read may
    change, so that a store can be read next to others. A router (storerouter.go), a group of replicas
    (failover.go) and a cache (cache.go) of sources are sources, which is what the commands get when
    they open the stores of the command line. *)

From S2P Require Import Prelude Format Index Chunk Stores.

(** ** The failover group as a store *)

Section failover_store.

Context {W : Type} (g : Failover W).

(** The group behind the interface. The index of the active store is one of a store, so the
    panic of the list access is not met ([failover_source]). *)
Definition FailoverGroup : Store W :=
  mkStore
    (fun i w => match FailoverGetChunk g i w with Ok r => r | _ => ((None, Some (Errorf "panic")), w) end)
    (fun i w => match FailoverHasChunk g i w with Ok r => r | _ => ((false, Some (Errorf "panic")), w) end)
    None (failover_Close (f_stores g) None) (Join (map sString (f_stores g)) (str "|")).

End failover_store.

Section sources.

Context {W : Type} `{Codec} (inv : W -> Prop) (Fails : error -> Prop).
Abbreviation View := (W -> ChunkID -> option bytes).

(** What a read may change: [R]. *)
Record Source (R : relation W) (s : Store W) (v : View) : Prop := {
  src_view w w' : R w w' -> forall j, v w' j = v w j;
  src_get i w oc e w' : inv w -> sGetChunk s i w = ((oc, e), w') ->
    inv w' /\ R w w' /\
    match e, oc with
    | None, Some c => exists d, v w i = Some d /\ holds c i d
    | None, None => False
    | Some e, _ => Fails e \/ (e = ChunkMissing i /\ v w i = None)
    end;
  src_has i w b e w' : inv w -> sHasChunk s i w = ((b, e), w') ->
    inv w' /\ R w w' /\
    match e with None => b = bool_decide (is_Some (v w i)) | Some e => Fails e end
}.

Lemma flaky_source (R : relation W) s v {A} (other : W -> A) :
  FlakyRead inv Fails s v other -> (forall w w', R w w' -> forall j, v w' j = v w j) ->
  (forall w w', inv w -> inv w' -> (forall j, v w' j = v w j) -> other w' = other w -> R w w') -> Source R s v.
Proof.
  intros Hs Hv HR. split; [done| |].
  - intros i w oc e w' Hi E. destruct (flaky_get inv Fails i w oc e w' Hi E) as (H1 & H2 & H3 & H4). auto.
  - intros i w b e w' Hi E. destruct (flaky_has inv Fails i w b e w' Hi E) as (H1 & H2 & H3 & H4). auto.
Qed.

Lemma source_flaky (R : relation W) s v {A} (other : W -> A) :
  Source R s v -> (forall w w', R w w' -> other w' = other w) -> FlakyRead inv Fails s v other.
Proof.
  intros Hs HR. split.
  - intros i w oc e w' Hi E. destruct (src_get _ _ _ Hs i w oc e w' Hi E) as (H1 & H2 & H3).
    pose proof (src_view _ _ _ Hs _ _ H2). auto.
  - intros i w b e w' Hi E. destruct (src_has _ _ _ Hs i w b e w' Hi E) as (H1 & H2 & H3).
    pose proof (src_view _ _ _ Hs _ _ H2). auto.
Qed.

Lemma source_weaken (R R' : relation W) s v :
  Source R s v -> (forall w w', R w w' -> R' w w') -> (forall w w', R' w w' -> forall j, v w' j = v w j) -> Source R' s v.
Proof.
  intros Hs HR Hv. split; [done| |].
  - intros i w oc e w' Hi E. destruct (src_get _ _ _ Hs i w oc e w' Hi E) as (H1 & H2 & H3). auto.
  - intros i w b e w' Hi E. destruct (src_has _ _ _ Hs i w b e w' Hi E) as (H1 & H2 & H3). auto.
Qed.

Lemma source_view_ext (R : relation W) s v v' :
  (forall w i, inv w -> v' w i = v w i) -> (forall w w', R w w' -> forall j, v' w' j = v' w j) -> Source R s v -> Source R s v'.
Proof.
  intros Hv Hv' Hs. split; [done| |].
  - intros i w oc e w' Hi E. rewrite (Hv w i Hi). by apply (src_get _ _ _ Hs).
  - intros i w b e w' Hi E. rewrite (Hv w i Hi). by apply (src_has _ _ _ Hs).
Qed.

(** An error stays a failure when it is wrapped, and that a chunk is missing is not one. *)
Context (Fails_wrap : forall e msg, Fails e -> Fails (Wrapped e msg)).
Context (Fails_missing : forall i, ~ Fails (ChunkMissing i)).

(** How callers tell a missing chunk from a failure. *)
Lemma on_missing {X} e i (x : bytes -> X) (y : X) :
  Fails e \/ (e = ChunkMissing i) ->
  (Fails e /\ match e with ChunkMissing j => x j | _ => y end = y) \/
  (e = ChunkMissing i /\ match e with ChunkMissing j => x j | _ => y end = x i).
Proof using Fails_missing.
  intros [Hf| ->]; [left|by right]. split; [done|]. destruct e; try done. by apply Fails_missing in Hf.
Qed.

Lemma union_same views w w' j :
  Forall (fun v : View => v w' j = v w j) views -> union_view views w' j = union_view views w j.
Proof using Type. induction 1 as [|v views E _ IH]; cbn [union_view]; [done|]. by rewrite E, IH. Qed.

Lemma sources_same R stores views w w' j :
  Forall2 (Source R) stores views -> R w w' -> union_view views w' j = union_view views w j.
Proof using Type.
  intros Hs HR. apply union_same. induction Hs as [|s v stores views Hs _ IH]; constructor; [|done].
  by apply (src_view _ _ _ Hs).
Qed.

(** A router over sources is a source of their union. *)
Lemma router_source (R : relation W) `{!PreOrder R} stores views :
  Forall2 (Source R) stores views -> Source R (StoreRouter stores) (union_view views).
Proof using Fails_wrap Fails_missing.
  intros Hall. split; cbn [StoreRouter sGetChunk sHasChunk].
  - intros w w' HR j. by eapply sources_same.
  - intros i w oc e w' Hi. revert w Hi.
    induction Hall as [|s v stores views Hs Hall IH]; intros w Hi; cbn [router_GetChunk union_view].
    { intros [= <- <- <-]. split_and!; [done|done|]. by right. }
    destruct (sGetChunk s i w) as [[oc1 e1] w1] eqn:E.
    destruct (src_get _ _ _ Hs i w oc1 e1 w1 Hi E) as (Hi1 & HR1 & Hr).
    destruct e1 as [e1|].
    2:{ intros [= <- <- <-]. split_and!; [done|done|]. destruct oc1 as [c|]; [|done]. destruct Hr as (d & -> & Hh). eauto. }
    destruct (on_missing e1 i (fun _ => router_GetChunk stores i w1) ((None, Some (Wrapped e1 "store")), w1))
      as [[Hf Em]|[-> Em]]; [destruct Hr as [?|[? _]]; auto| |].
    + rewrite Em. intros [= <- <- <-]. split_and!; [done|done|]. left. auto.
    + destruct Hr as [Hf|[_ Hn]]; [by apply Fails_missing in Hf|]. rewrite Hn. intros Hrest.
      destruct (IH w1 Hi1 Hrest) as (H1 & H2 & H3). split; [done|]. split; [by etrans|].
      by rewrite (sources_same R stores views w w1 i Hall HR1) in H3.
  - intros i w b e w' Hi. revert w Hi.
    induction Hall as [|s v stores views Hs Hall IH]; intros w Hi; cbn [router_HasChunk union_view].
    { intros [= <- <- <-]. split_and!; [done|done|]. symmetry. apply bool_decide_false. by intros []. }
    destruct (sHasChunk s i w) as [[b1 e1] w1] eqn:E.
    destruct (src_has _ _ _ Hs i w b1 e1 w1 Hi E) as (Hi1 & HR1 & Hr).
    destruct e1 as [e1|]; [by destruct b1; intros [= <- <- <-]|]. subst b1. destruct (v w i) as [d|] eqn:Hv.
    + rewrite bool_decide_true by eauto. intros [= <- <- <-]. split_and!; [done|done|done].
    + rewrite bool_decide_false by (by intros []). intros Hrest.
      destruct (IH w1 Hi1 Hrest) as (H1 & H2 & H3). split; [done|]. split; [by etrans|].
      by rewrite (sources_same R stores views w w1 i Hall HR1) in H3.
Qed.

(** ** Replicas *)

(** The index of the active store is the group's own. *)
Record group_ok (R : relation W) (g : Failover W) : Prop := {
  grp_range w : inv w -> (f_active g w < length (f_stores g))%nat;
  grp_set k w : inv w -> (k < length (f_stores g))%nat -> inv (f_set g k w) /\ R w (f_set g k w)
}.

Lemma errorFrom_ok R g a w : PreOrder R -> group_ok R g -> inv w -> inv (errorFrom g a w) /\ R w (errorFrom g a w).
Proof using Type.
  intros Hpre Hg Hi. unfold errorFrom. case_decide; [done|]. apply (grp_set R g Hg); [done|].
  pose proof (grp_range R g Hg w Hi). apply Nat.mod_upper_bound. lia.
Qed.

(** A group of sources of the same data is a source of it: an error it returns is one of a member,
    all of which have failed then. *)
Lemma failover_source (R : relation W) `{!PreOrder R} (g : Failover W) v :
  group_ok R g -> Forall (fun s => Source R s v) (f_stores g) -> f_stores g <> [] -> Source R (FailoverGroup g) v.
Proof using Fails_missing.
  intros Hg Hall Hne.
  assert (Hmember : forall w, inv w -> exists s, f_stores g !! f_active g w = Some s /\ Source R s v).
  { intros w Hi. destruct (lookup_lt_is_Some_2 (f_stores g) (f_active g w)) as [s Hs]; [by apply (grp_range R g Hg)|].
    exists s. split; [done|]. rewrite Forall_forall in Hall. apply Hall. by eapply list_elem_of_lookup_2. }
  destruct (f_stores g) as [|s0 ss0] eqn:Es; [done|]. rewrite <- Es in *. clear Hne.
  split; cbn [FailoverGroup sGetChunk sHasChunk].
  - apply (src_view R s0). rewrite Es in Hall. by apply Forall_cons in Hall as [? _].
  - unfold FailoverGetChunk. intros i.
    assert (Hloop : forall k gErr w, inv w -> match gErr with Some e => Fails e | None => (0 < k)%nat end ->
      exists oc e w', failover_GetChunk g k gErr i w = Ok ((oc, e), w') /\ inv w' /\ R w w' /\
      match e, oc with
      | None, Some c => exists d, v w i = Some d /\ holds c i d
      | None, None => False
      | Some e, _ => Fails e \/ (e = ChunkMissing i /\ v w i = None)
      end).
    { induction k as [|k IH]; intros gErr w Hi Hg'; cbn [failover_GetChunk].
      { destruct gErr as [e|]; [|lia]. eexists _, _, _. split; [done|]. split_and!; [done|done|by left]. }
      destruct (Hmember w Hi) as (s & Hs & Hsrc). rewrite Hs. destruct (sGetChunk s i w) as [[oc e] w1] eqn:E.
      destruct (src_get _ _ _ Hsrc i w oc e w1 Hi E) as (Hi1 & HR1 & Hr).
      destruct e as [e|]; [|by eexists _, _, _].
      destruct (on_missing e i (fun i' => Ok ((oc, Some (ChunkMissing i')), w1))
        (failover_GetChunk g k (Some e) i (errorFrom g (f_active g w) w1))) as [[Hf Em]|[-> Em]];
        [destruct Hr as [?|[? _]]; auto| |by eexists _, _, _].
      rewrite Em. destruct (errorFrom_ok R g (f_active g w) w1) as [Hi2 HR2]; [done..|].
      destruct (IH (Some e) _ Hi2 Hf) as (oc' & e' & w' & -> & H1 & H2 & H3). exists oc', e', w'.
      split_and!; [done|done|by etrans; [|etrans]|].
      assert (HRv : v (errorFrom g (f_active g w) w1) i = v w i) by (apply (src_view _ _ _ Hsrc); by etrans).
      by rewrite HRv in H3. }
    intros w oc e w' Hi E. destruct (Hloop (length (f_stores g)) None w Hi) as (oc' & e' & w2 & E2 & H1);
      [rewrite Es; cbn; lia|]. rewrite E2 in E. by injection E as <- <- <-.
  - unfold FailoverHasChunk. intros i.
    assert (Hloop : forall k gErr w, inv w -> match gErr with Some e => Fails e | None => (0 < k)%nat end ->
      exists b e w', failover_HasChunk g k gErr i w = Ok ((b, e), w') /\ inv w' /\ R w w' /\
      match e with None => b = bool_decide (is_Some (v w i)) | Some e => Fails e end).
    { induction k as [|k IH]; intros gErr w Hi Hg'; cbn [failover_HasChunk].
      { destruct gErr as [e|]; [|lia]. by eexists _, _, _. }
      destruct (Hmember w Hi) as (s & Hs & Hsrc). rewrite Hs. destruct (sHasChunk s i w) as [[b e] w1] eqn:E.
      destruct (src_has _ _ _ Hsrc i w b e w1 Hi E) as (Hi1 & HR1 & Hr).
      destruct e as [e|]; [|by eexists _, _, _].
      destruct (errorFrom_ok R g (f_active g w) w1) as [Hi2 HR2]; [done..|].
      destruct (IH (Some e) _ Hi2 Hr) as (b' & e' & w' & -> & H1 & H2 & H3). exists b', e', w'.
      split_and!; [done|done|by etrans; [|etrans]|].
      assert (HRv : v (errorFrom g (f_active g w) w1) i = v w i) by (apply (src_view _ _ _ Hsrc); by etrans).
      by rewrite HRv in H3. }
    intros w b e w' Hi E. destruct (Hloop (length (f_stores g)) None w Hi) as (b' & e' & w2 & E2 & H1);
      [rewrite Es; cbn; lia|]. rewrite E2 in E. by injection E as <- <- <-.
Qed.

(** ** Caches *)

(** A store that is written to: [O] holds between the worlds before and after, of what is not its own. *)
Record Sink (R O : relation W) (l : Store W) (v : View) (st : Chunk -> W -> option error * W) : Prop := {
  sink_read : Source R l v;
  sink_write : sStoreChunk l = Some st;
  sink_store c i d w e w' : inv w -> holds c i d -> d <> [] -> st c w = (e, w') ->
    inv w' /\ (forall j, j <> i -> v w' j = v w j) /\ O w w' /\
    match e with
    | None => v w' i = Some d
    | Some e => Fails e /\ (v w' i = v w i \/ v w' i = Some d)
    end
}.

Lemma flaky_sink (R O : relation W) l v st {A} (other : W -> A) :
  FlakyWrite inv Fails l v st other -> (forall w w', R w w' -> forall j, v w' j = v w j) ->
  (forall w w', inv w -> inv w' -> (forall j, v w' j = v w j) -> other w' = other w -> R w w') ->
  (forall w w', inv w -> inv w' -> other w' = other w -> O w w') -> Sink R O l v st.
Proof using Type.
  intros Hl Hv HR HO. split.
  - eapply flaky_source; [exact (flaky_read inv Fails)|done|done].
  - exact (flaky_write inv Fails).
  - intros c i d w e w' Hi Hh Hd E. destruct (flaky_store inv Fails c i d w e w' Hi Hh Hd E) as (H1 & H2 & H3 & H4). auto.
Qed.

(** What using a cache [l] of the store [s] may change: the cache gets data of the store. *)
Definition fills (O : relation W) (vs vl : View) (w w' : W) : Prop :=
  O w w' /\ forall j, vl w' j = vl w j \/ (vl w j = None /\ vl w' j = vs w j).

Section cache.

Context (R O : relation W) `{!PreOrder R} `{!PreOrder O} (s l : Store W) (vs vl : View).
Context (st : Chunk -> W -> option error * W).
Context (HRO : forall w w', R w w' -> O w w') (HO : forall w w', O w w' -> forall j, vs w' j = vs w j).
Context (Hne : forall w i d, inv w -> vs w i = Some d -> d <> []).

#[export] Instance fills_preorder : PreOrder (fills O vs vl).
Proof using PreOrder1 HO.
  split; [intros w; split; [done|by left]|]. intros w1 w2 w3 [HO1 H1] [HO2 H2]. split; [by etrans|]. intros j.
  destruct (H2 j) as [-> |[Hn ->]]; [apply H1|]. right. rewrite (HO w1 w2) by done. split; [|done].
  destruct (H1 j) as [<- |[? _]]; done.
Qed.

Lemma fills_union w w' j : fills O vs vl w w' -> union_view [vl; vs] w' j = union_view [vl; vs] w j.
Proof using HO.
  intros [H1 H2]. cbn [union_view]. rewrite (HO w w') by done.
  destruct (H2 j) as [-> |[-> ->]]; [done|]. by destruct (vs w j).
Qed.

(** A cache of a source is a source of the same data and the cache's own, and hands what it fetched
    to the cache; a failure to write it there is reported, although the chunk is returned. *)
Lemma cache_source :
  Source R s vs -> Sink R O l vl st -> Source (fills O vs vl) (Cache s l st) (union_view [vl; vs]).
Proof using All.
  intros Hs [Hl Hw Hst]. split; cbn [Cache sGetChunk sHasChunk].
  - intros w w' Hf j. by apply fills_union.
  - intros i w oc e w' Hi. unfold cache_GetChunk.
    destruct (sGetChunk l i w) as [[oc1 e1] w1] eqn:E1. destruct (src_get _ _ _ Hl i w oc1 e1 w1 Hi E1) as (Hi1 & HR1 & Hr1).
    assert (Hf1 : fills O vs vl w w1) by (split; [by apply HRO|left; by apply (src_view _ _ _ Hl)]).
    destruct e1 as [e1|].
    2:{ intros [= <- <- <-]. split_and!; [done|done|]. destruct oc1 as [c|]; [|done]. destruct Hr1 as (d & Hd & Hh).
        exists d. cbn. by rewrite Hd. }
    destruct (on_missing e1 i (fun _ => match sGetChunk s i w1 with
      | ((chunk, Some err), w) => ((chunk, Some err), w)
      | ((Some chunk, None), w) => let '(e, w) := st chunk w in ((Some chunk, errors_Wrap e "failed to store in local cache"), w)
      | ((None, None), w) => ((None, None), w) end) ((oc1, Some e1), w1))
      as [[Hf Em]|[-> Em]]; [destruct Hr1 as [?|[? _]]; auto| |].
    { rewrite Em. intros [= <- <- <-]. split_and!; [done|done|by left]. }
    destruct Hr1 as [Hf|[_ Hn]]; [by apply Fails_missing in Hf|].
    destruct (sGetChunk s i w1) as [[oc2 e2] w2] eqn:E2. destruct (src_get _ _ _ Hs i w1 oc2 e2 w2 Hi1 E2) as (Hi2 & HR2 & Hr2).
    assert (Hv1 : vs w1 i = vs w i) by (by apply (src_view _ _ _ Hs)).
    rewrite Hv1 in Hr2. cbn [union_view]. rewrite Hn.
    assert (Hf2 : fills O vs vl w w2).
    { etrans; [exact Hf1|]. split; [by apply HRO|left; by apply (src_view _ _ _ Hl)]. }
    destruct e2 as [e2|].
    { destruct oc2; intros [= <- <- <-]; (split_and!; [done|done|]);
        (destruct Hr2 as [?|[-> ->]]; [by left|by right]). }
    destruct oc2 as [c|]; [|done]. destruct Hr2 as (d & Hd & Hh). rewrite Hd. destruct (st c w2) as [e3 w3] eqn:E3.
    destruct (Hst c i d w2 e3 w3 Hi2 Hh (Hne w i d Hi Hd) E3) as (Hi3 & Hj & HO3 & Hr3). intros [= <- <- <-].
    assert (Hv2 : vs w2 i = vs w i) by (rewrite <- Hv1; apply (src_view _ _ _ Hs); done).
    assert (Hf3 : fills O vs vl w w3).
    { etrans; [exact Hf2|]. split; [done|]. intros j. destruct (decide (j = i)) as [->|Hne']; [|left; by apply Hj].
      assert (vl w2 i = None) as Hn2.
      { rewrite <- Hn, <- (src_view _ _ _ Hl w w1 HR1 i). by apply (src_view _ _ _ Hl). }
      rewrite Hv2, Hd. destruct e3 as [e3|]; [destruct Hr3 as [_ [Hr3|Hr3]]|]; auto. }
    split_and!; [done|done|]. destruct e3 as [e3|]; cbn; [left; apply Fails_wrap; by destruct Hr3|eauto].
  - intros i w b e w' Hi. unfold cache_HasChunk.
    destruct (sHasChunk l i w) as [[b1 e1] w1] eqn:E1. destruct (src_has _ _ _ Hl i w b1 e1 w1 Hi E1) as (Hi1 & HR1 & Hr1).
    assert (Hf1 : fills O vs vl w w1) by (split; [by apply HRO|left; by apply (src_view _ _ _ Hl)]).
    destruct e1 as [e1|]; [by destruct b1; intros [= <- <- <-]|]. cbn [union_view]. subst b1.
    destruct (vl w i) as [d|] eqn:Hv; [by intros [= <- <- <-]|].
    rewrite (bool_decide_false (is_Some None)) by (by intros []). intros E2.
    destruct (src_has _ _ _ Hs i w1 b e w' Hi1 E2) as (Hi2 & HR2 & Hr2).
    split; [done|]. split.
    { etrans; [exact Hf1|]. split; [by apply HRO|left; by apply (src_view _ _ _ Hl)]. }
    rewrite (HO w w1) in Hr2 by by apply HRO. by destruct (vs w i).
Qed.

(** A repairable cache takes a damaged chunk for a missing one; without damage it is the cache. *)
Lemma repairable_sink : (forall e, Fails e -> as_ChunkInvalid e = None) ->
  Sink R O l vl st -> Sink R O (RepairableCache l) vl st.
Proof using Type.
  intros Hval [Hl Hw Hst]. split; [|done|done]. split; cbn [RepairableCache sGetChunk sHasChunk].
  - apply (src_view _ _ _ Hl).
  - intros i w oc e w' Hi. unfold repairable_GetChunk.
    destruct (sGetChunk l i w) as [[oc1 e1] w1] eqn:E1. pose proof (src_get _ _ _ Hl i w oc1 e1 w1 Hi E1) as (H1 & H2 & H3).
    destruct e1 as [e1|]; [|by intros [= <- <- <-]].
    assert (as_ChunkInvalid e1 = None) as -> by (destruct H3 as [?|[-> _]]; [by apply Hval|done]).
    by intros [= <- <- <-].
  - apply (src_has _ _ _ Hl).
Qed.

End cache.

End sources.
