(* ===== verification/LocalStore.v ===== *)
(** * LocalStore: chunks in a directory (local.go), and the options of store.go

    The operations of a local store on a [FileSystem], as sequences of system calls: GetChunk,
    HasChunk, StoreChunk (temporary file and rename), RemoveChunk and Prune, with what happens when a
    call fails. The instance [local_write_spec] shows that a store without damaged chunks keeps the
    promises of [WriteSpec]. Prune gets the files in the order filepath.Walk visits them. Verify, which
    has workers, is in Verify.v. *)

From S2P Require Import Prelude Format Index Chunk Names Stores.

(** ** Options (store.go) *)

Definition DefaultErrorRetry : Z := 3.
Definition DefaultErrorRetryBaseInterval : Z := 500000000.   (* 500 ms *)

(** The options the stores read; credentials and connection settings are left out. *)
Record StoreOptions := mkStoreOptions {
  N : Z;
  Timeout : Z;
  ErrorRetry : Z;
  ErrorRetryBaseInterval : Z;
  SkipVerify : bool;
  Uncompressed : bool
}.

Definition NewStoreOptionsWithDefaults : StoreOptions :=
  mkStoreOptions 0 0 DefaultErrorRetry DefaultErrorRetryBaseInterval false false.

Definition opt_converters (o : StoreOptions) : Converters :=
  if negb (Uncompressed o) then [Compressor] else [].

Definition tmpChunkPrefix : bytes := str ".tmp-cacnk".

Record LocalStore := mkLocalStore { Base : bytes; UpdateTimes : bool; Opt : StoreOptions }.

Definition NewLocalStore (fs : FileSystem) (dir : bytes) (opt : StoreOptions) : outcome LocalStore :=
  match Stat fs dir with
  | Some e => Err e
  | None =>
    if decide (dir ∈ dirs fs) then Ok (mkLocalStore dir false opt)
    else Err (Errorf "is not a directory")
  end.

Section local.

Context `{Codec}.

Definition nameFromID (s : LocalStore) (i : ChunkID) : bytes * bytes :=
  local_nameFromID (Base s) (Uncompressed (Opt s)) i.

(** GetChunk: an error other than "does not exist" is not looked at; the chunk is then made
    from no bytes. *)
Definition GetChunk (s : LocalStore) (i : ChunkID) (fs : FileSystem) : GetResult :=
  let p := snd (nameFromID s i) in
  let '(b, err) := match ReadFile fs p with Ok b => (b, None) | Err e => ([], Some e)
                   | _ => ([], None) end in
  if decide (err = Some ErrNotExist) then (None, Some (ChunkMissing i))
  else
    match NewChunkFromStorage i b (opt_converters (Opt s)) (SkipVerify (Opt s)) with
    | Ok c => (Some c, None)
    | Err e => (None, Some e)
    | _ => (None, None)
    end.

(** os.Remove; [rm] says for which paths it fails (a directory that is not empty, a missing
    permission). *)
Definition Remove (rm : bytes -> option error) (p : bytes) (fs : FileSystem) : option error * FileSystem :=
  match rm p with
  | Some e => (Some e, fs)
  | None => (None, mkFS (delete p (files fs)) (dirs fs ∖ {[ p ]}) (broken fs))
  end.

(** RemoveChunk deletes a chunk, typically an invalid one. *)
Definition RemoveChunk (rm : bytes -> option error) (s : LocalStore) (i : ChunkID) (fs : FileSystem)
  : option error * FileSystem :=
  let p := snd (nameFromID s i) in
  match Stat fs p with
  | Some _ => (Some (ChunkMissing i), fs)
  | None => Remove rm p fs
  end.

(** The file system between the system calls of StoreChunk: after MkdirAll, after the creation
    of the temporary file, while n bytes of it are written, after the rename. *)
Definition after_mkdir (fs : FileSystem) (d : bytes) : FileSystem :=
  mkFS (files fs) ({[ d ]} ∪ dirs fs) (broken fs).

Definition after_write (fs : FileSystem) (tmp b : bytes) (n : nat) : FileSystem :=
  mkFS (<[tmp := take n b]> (files fs)) (dirs fs) (broken fs).

Definition after_rename (fs : FileSystem) (tmp p b : bytes) : FileSystem :=
  mkFS (<[p := b]> (delete tmp (files fs))) (dirs fs) (broken fs).

(** The system call of StoreChunk that fails: making the directory, making the temporary file, writing
    it (after [n] bytes), or renaming it. *)
Inductive fault :=
| NoMkdir (e : error)
| NoTemp (e : error)
| NoWrite (n : nat) (e : error)
| NoRename (e : error).

(** StoreChunk, with the name [tmp] the temporary file gets; a failed write removes the temporary
    file, a failed rename leaves it. *)
Definition StoreChunk (s : LocalStore) (tmp : bytes) (fails : option fault) (c : Chunk)
  (fs : FileSystem) : option error * FileSystem :=
  let '(d, p) := nameFromID s (chunk_id c) in
  match fst (Storage c (opt_converters (Opt s))) with
  | Err e => (Some e, fs)
  | Ok b =>
    let fs1 := after_mkdir fs d in
    match fails with
    | Some (NoMkdir e) => (Some e, fs)
    | Some (NoTemp e) => (Some e, fs1)
    | Some (NoWrite n e) =>
      let fs2 := after_write fs1 tmp b n in
      (Some e, mkFS (delete tmp (files fs2)) (dirs fs2) (broken fs2))
    | Some (NoRename e) => (Some e, after_write fs1 tmp b (length b))
    | None => (None, after_rename (after_write fs1 tmp b (length b)) tmp p b)
    end
  | _ => (None, fs)
  end.

(** HasChunk returns true if the chunk is in the store *)
Definition HasChunk (s : LocalStore) (i : ChunkID) (fs : FileSystem) : bool * option error :=
  match Stat fs (snd (nameFromID s i)) with
  | None => (true, None)
  | Some e => if decide (e = ErrNotExist) then (false, None) else (false, Some e)
  end.

Definition GetChunkSize (s : LocalStore) (i : ChunkID) (fs : FileSystem) : outcome Z :=
  let p := snd (nameFromID s i) in
  match Stat fs p with
  | Some e => Err e
  | None => match files fs !! p with Some b => Ok (Z.of_nat (length b)) | None => Ok 0 end
  end.

(** The store behind the interface; temporary names come from the caller's choice [tmp]. *)
Definition local_store (s : LocalStore) (tmp : bytes) : Store FileSystem :=
  mkStore (fun i fs => (GetChunk s i fs, fs)) (fun i fs => (HasChunk s i fs, fs))
    (Some (StoreChunk s tmp None)) (fun fs => (None, fs)) (Base s).

(** ** Prune *)

(** A visit of the walk: whether the context is cancelled by then, and the file. *)
Fixpoint Prune (rm : bytes -> option error) (s : LocalStore) (ids : gset bytes) (visits : list (bool * bytes))
  (fs : FileSystem) : option error * FileSystem :=
  match visits with
  | [] => (None, fs)
  | (true, _) :: _ => (Some Interrupted, fs)
  | (false, path) :: visits =>
    match Stat fs path with
    | Some e => (Some e, fs)     (* the walk could not inspect the file *)
    | None =>
      if HasPrefix (path_Base path) tmpChunkPrefix then
        Prune rm s ids visits (snd (Remove rm path fs))       (* its error is ignored *)
      else
        match local_idFromPath (Uncompressed (Opt s)) path with
        | None => Prune rm s ids visits fs
        | Some i =>
          if decide (i ∈ ids) then Prune rm s ids visits fs
          else
            match RemoveChunk rm s i fs with
            | (Some e, fs) => (Some e, fs)
            | (None, fs) => Prune rm s ids visits fs
            end
        end
    end
  end.

(** ** Paths of distinct chunks are distinct *)

Lemma ext_no_slash (u : bool) : Byte.x2f ∉ (if u then UncompressedChunkExt else CompressedChunkExt).
Proof. destruct u; apply (bool_decide_unpack _); by vm_compute. Qed.

Lemma path_Base_name s i :
  path_Base (snd (nameFromID s i)) =
  String_ i ++ (if Uncompressed (Opt s) then UncompressedChunkExt else CompressedChunkExt).
Proof.
  unfold nameFromID, local_nameFromID. cbv zeta. cbn [snd].
  set (sID := String_ i). set (dir := Base s ++ str "/" ++ take 4 sID).
  set (u := Uncompressed (Opt s)).
  assert ((if u then (dir ++ str "/" ++ sID) ++ UncompressedChunkExt
           else (dir ++ str "/" ++ sID) ++ CompressedChunkExt) =
          dir ++ Byte.x2f :: sID ++ (if u then UncompressedChunkExt else CompressedChunkExt)) as ->.
  { destruct u; by rewrite <- !app_assoc. }
  apply last_Split_app. rewrite not_elem_of_app.
  split; [apply EncodeToString_no_slash|apply ext_no_slash].
Qed.

Lemma nameFromID_inj s i j : snd (nameFromID s i) = snd (nameFromID s j) -> i = j.
Proof.
  intros Heq%(f_equal path_Base). rewrite !path_Base_name in Heq. apply app_inv_tail in Heq.
  apply (f_equal DecodeString) in Heq. unfold String_ in Heq.
  rewrite !DecodeString_EncodeToString in Heq. by injection Heq.
Qed.

(** ** A store without damaged chunks *)

(** Every chunk file decodes to data with the ID it is named after, nothing is broken, and no
    chunk's path is taken by a directory. *)
Record store_ok (s : LocalStore) (fs : FileSystem) : Prop := {
  ok_broken : broken fs = ∅;
  ok_dirs i : snd (nameFromID s i) ∉ dirs fs;
  ok_files i b : files fs !! snd (nameFromID s i) = Some b ->
    exists d, b <> [] /\ fromStorage (opt_converters (Opt s)) b = Ok d /\ d <> [] /\ Sum d = i
}.

(** The plain data of the chunk files. *)
Definition local_view (s : LocalStore) (fs : FileSystem) (i : ChunkID) : option bytes :=
  match files fs !! snd (nameFromID s i) with
  | Some b => match fromStorage (opt_converters (Opt s)) b with Ok d => Some d | _ => None end
  | None => None
  end.

Lemma GetChunk_ok s i fs b d :
  store_ok s fs -> files fs !! snd (nameFromID s i) = Some b ->
  fromStorage (opt_converters (Opt s)) b = Ok d -> b <> [] -> d <> [] -> Sum d = i ->
  exists c, GetChunk s i fs = (Some c, None) /\ holds c i d.
Proof.
  intros Hok Hf Hd Hb Hdne Hsum. unfold GetChunk, ReadFile. rewrite (ok_broken s fs Hok).
  rewrite decide_False by apply not_elem_of_empty. rewrite Hf. cbv beta iota zeta.
  rewrite decide_False by done.
  destruct (NewChunkFromStorage_holds i b d (opt_converters (Opt s)) (SkipVerify (Opt s)) Hd Hb Hdne Hsum)
    as (c & -> & Hc). by exists c.
Qed.

Lemma dir_not_name s i j : fst (nameFromID s i) <> snd (nameFromID s j).
Proof.
  unfold nameFromID, local_nameFromID. cbv zeta. cbn [fst snd]. intros Heq.
  set (ext := if Uncompressed (Opt s) then UncompressedChunkExt else CompressedChunkExt).
  assert ((if Uncompressed (Opt s) then ((Base s ++ str "/" ++ take 4 (String_ j)) ++ str "/" ++ String_ j) ++ UncompressedChunkExt
    else ((Base s ++ str "/" ++ take 4 (String_ j)) ++ str "/" ++ String_ j) ++ CompressedChunkExt) =
    Base s ++ str "/" ++ take 4 (String_ j) ++ str "/" ++ String_ j ++ ext) as Hr.
  { subst ext. destruct (Uncompressed (Opt s)); by rewrite <- !app_assoc. }
  rewrite Hr in Heq. apply app_inv_head, app_inv_head in Heq.
  assert (Byte.x2f ∈ take 4 (String_ i)) as Hin.
  { rewrite Heq. apply elem_of_app. right. by left. }
  apply elem_of_take_sub in Hin. by apply EncodeToString_no_slash in Hin.
Qed.

(** ** The promise *)

#[export] Instance local_read_spec s tmp :
  ReadSpec (store_ok s) (local_store s tmp) (local_view s).
Proof.
  split; cbn [local_store sGetChunk sHasChunk]; unfold local_view.
  - intros i fs d Hok Hv. destruct (files fs !! _) as [b|] eqn:Hf; [|done].
    destruct (ok_files s fs Hok i b Hf) as (d' & Hb & Hd & Hdne & Hsum). rewrite Hd in Hv.
    injection Hv as ->. destruct (GetChunk_ok s i fs b d Hok Hf Hd Hb Hdne Hsum) as (c & -> & Hh).
    by exists c.
  - intros i fs Hok Hv. destruct (files fs !! _) as [b|] eqn:Hf.
    + destruct (ok_files s fs Hok i b Hf) as (d' & Hb & Hd & _). by rewrite Hd in Hv.
    + unfold GetChunk, ReadFile. rewrite (ok_broken s fs Hok), decide_False, Hf by apply not_elem_of_empty.
      cbv beta iota zeta. by rewrite decide_True.
  - intros i fs Hok. unfold HasChunk, Stat. rewrite (ok_broken s fs Hok).
    rewrite decide_False by apply not_elem_of_empty. destruct (files fs !! _) as [b|] eqn:Hf.
    + destruct (ok_files s fs Hok i b Hf) as (d' & _ & Hd & _). rewrite Hd.
      rewrite decide_True by (left; by apply elem_of_dom_2 in Hf).
      by rewrite bool_decide_true by eauto.
    + rewrite decide_False.
      2:{ intros [Hd|Hd]; [by apply elem_of_dom in Hd as [? ?]; congruence|].
          by apply (ok_dirs s fs Hok) in Hd. }
      rewrite decide_True by done. rewrite bool_decide_false by (by intros []). done.
Qed.

(** The temporary name is not the name of a chunk: it starts with a dot. *)
Definition tmp_ok (s : LocalStore) (tmp : bytes) : Prop :=
  forall i, tmp <> snd (nameFromID s i).

Lemma StoreChunk_spec s tmp c i d fs :
  tmp_ok s tmp -> store_ok s fs -> holds c i d -> d <> [] ->
  exists b, fromStorage (opt_converters (Opt s)) b = Ok d /\ b <> [] /\
    StoreChunk s tmp None c fs =
    (None, after_rename (after_write (after_mkdir fs (fst (nameFromID s i))) tmp b (length b)) tmp
             (snd (nameFromID s i)) b).
Proof.
  intros Ht Hok Hh Hd.
  destruct (Storage_ok c (opt_converters (Opt s)) i d Hh Hd) as (b & Hb & Hbne & Hf).
  exists b. split; [done|]. split; [done|]. unfold StoreChunk. destruct Hh as (_ & -> & _).
  destruct (nameFromID s i) as [dir p]. by rewrite Hb.
Qed.

#[export] Instance local_write_spec s tmp :
  tmp_ok s tmp ->
  WriteSpec (store_ok s) (local_store s tmp) (local_view s) (StoreChunk s tmp None) (fun _ => tt).
Proof.
  intros Ht. split; [apply _|done|]. intros c i d fs Hok Hh Hd.
  destruct (StoreChunk_spec s tmp c i d fs Ht Hok Hh Hd) as (b & Hf & Hb & ->).
  eexists. split; [done|].
  assert (forall j, j <> i -> snd (nameFromID s i) <> snd (nameFromID s j)) as Hinj.
  { intros j Hne Heq. by apply nameFromID_inj in Heq. }
  assert (forall j, files (after_rename (after_write (after_mkdir fs (fst (nameFromID s i))) tmp b
    (length b)) tmp (snd (nameFromID s i)) b) !! snd (nameFromID s j) =
    if decide (j = i) then Some b else files fs !! snd (nameFromID s j)) as Hlook.
  { intros j. cbn [after_rename after_write after_mkdir files]. destruct (decide (j = i)) as [->|Hne].
    - by rewrite lookup_insert_eq.
    - rewrite lookup_insert_ne by auto. specialize (Ht j).
      by rewrite lookup_delete_ne, lookup_insert_ne by congruence. }
  destruct Hh as (_ & _ & Hsum & _). split; [|split; [|split; [|done]]].
  - destruct Hok as [Hbr Hdirs Hfiles]. split; [done| |].
    + intros j. cbn [after_rename after_write after_mkdir dirs]. rewrite not_elem_of_union. split; [|done].
      rewrite not_elem_of_singleton. intros Heq. by apply (dir_not_name s i j).
    + intros j b'. rewrite Hlook. destruct (decide (j = i)) as [->|]; [|apply Hfiles].
      intros [= <-]. by exists d.
  - unfold local_view. rewrite Hlook, decide_True by done. by rewrite Hf.
  - intros j Hj. unfold local_view. by rewrite Hlook, decide_False by done.
Qed.

(** ** The properties *)

(** C18. A local store is a map: storing a chunk in an undamaged store succeeds and keeps it
    undamaged, the chunk can then be read back (verified, with the same data) and is reported
    present, and no other chunk is affected. *)
Theorem local_store_get s tmp c i d fs :
  tmp_ok s tmp -> store_ok s fs -> holds c i d -> d <> [] ->
  exists fs', StoreChunk s tmp None c fs = (None, fs') /\ store_ok s fs' /\
    (exists c', GetChunk s i fs' = (Some c', None) /\ plain c' = Ok d /\ chunk_id c' = i) /\
    HasChunk s i fs' = (true, None) /\
    (forall j, j <> i -> GetChunk s j fs' = GetChunk s j fs).
Proof.
  intros Ht Hok Hh Hd. pose proof (local_write_spec s tmp Ht) as Hw.
  destruct (spec_store (store_ok s) c i d fs Hok Hh Hd) as (fs' & Hst & Hok' & Hv & _ & _).
  exists fs'. split; [exact Hst|]. split; [done|].
  destruct (spec_hit (store_ok s) (s := local_store s tmp) i fs' d Hok' Hv) as (c' & Hg & Hp & Hi & _).
  cbn [local_store sGetChunk] in Hg. injection Hg as Hg.
  split; [by exists c'|]. split.
  { pose proof (spec_has (store_ok s) (s := local_store s tmp) i fs' Hok') as Hhas.
    cbn [local_store sHasChunk] in Hhas. rewrite Hv in Hhas.
    rewrite bool_decide_true in Hhas by eauto. by injection Hhas. }
  destruct (StoreChunk_spec s tmp c i d fs Ht Hok Hh Hd) as (b & _ & _ & Hst').
  assert (fs' = after_rename (after_write (after_mkdir fs (fst (nameFromID s i))) tmp b (length b))
    tmp (snd (nameFromID s i)) b) as -> by congruence.
  intros j Hj. unfold GetChunk, ReadFile. cbn [after_rename after_write after_mkdir files broken].
  rewrite lookup_insert_ne by (intros Heq; by apply nameFromID_inj in Heq).
  specialize (Ht j). by rewrite lookup_delete_ne, lookup_insert_ne by congruence.
Qed.

(** Reading depends on the file of the chunk only. *)
Lemma GetChunk_ext s i fs fs' :
  broken fs' = broken fs -> files fs' !! snd (nameFromID s i) = files fs !! snd (nameFromID s i) ->
  GetChunk s i fs' = GetChunk s i fs.
Proof. intros H1 H2. unfold GetChunk, ReadFile. by rewrite H1, H2. Qed.

(** C19. Storing is atomic for readers: in every state the file system goes through (the directory
    made, the temporary file empty, partly or fully written), and after any of the system calls has
    failed, every chunk reads exactly as before; only the final rename changes anything, and then only
    the stored chunk, to its complete contents. A failed call is reported, and only a failed rename
    leaves the temporary file behind. *)
Theorem StoreChunk_atomic s tmp c fs j b n f :
  tmp_ok s tmp -> fst (Storage c (opt_converters (Opt s))) = Ok b ->
  let i := chunk_id c in
  let fs1 := after_mkdir fs (fst (nameFromID s i)) in
  GetChunk s j fs1 = GetChunk s j fs /\
  GetChunk s j (after_write fs1 tmp b n) = GetChunk s j fs /\
  (exists e fs', StoreChunk s tmp (Some f) c fs = (Some e, fs') /\ GetChunk s j fs' = GetChunk s j fs /\
     (tmp ∈ dom (files fs') -> tmp ∈ dom (files fs) \/ f = NoRename e)) /\
  exists fs', StoreChunk s tmp None c fs = (None, fs') /\
    (j <> i -> GetChunk s j fs' = GetChunk s j fs) /\
    files fs' !! snd (nameFromID s i) = Some b.
Proof.
  intros Ht Hb i fs1. pose proof (Ht j) as Htj.
  assert (Hw : forall n, GetChunk s j (after_write fs1 tmp b n) = GetChunk s j fs).
  { intros n0. apply GetChunk_ext; [done|]. cbn [fs1 after_write after_mkdir files]. by rewrite lookup_insert_ne. }
  split; [by apply GetChunk_ext|]. split; [apply Hw|].
  unfold StoreChunk. fold i. destruct (nameFromID s i) as [dir p] eqn:Hn. rewrite Hb. cbn [fst snd].
  split.
  - destruct f as [e|e|k e|e]; exists e; eexists; (split; [reflexivity|]); cbn [fs1 after_write after_mkdir files].
    + by split; [|left].
    + split; [by apply GetChunk_ext|by left].
    + split; [|rewrite dom_delete; set_solver]. apply GetChunk_ext; [done|]. cbn [files].
      by rewrite lookup_delete_ne, lookup_insert_ne by congruence.
    + split; [apply (Hw (length b))|by right].
  - eexists. split; [done|]. cbn [after_rename after_write after_mkdir files]. split.
    + intros Hj. apply GetChunk_ext; [done|]. cbn [after_rename after_write after_mkdir files].
      rewrite lookup_insert_ne.
      2:{ intros Heq. apply Hj. symmetry. apply (nameFromID_inj s). rewrite Hn. cbn [snd]. by rewrite Heq. }
      by rewrite lookup_delete_ne, lookup_insert_ne by congruence.
    + by rewrite lookup_insert_eq.
Qed.

(** A file Prune removes: a temporary file, or a chunk that is not wanted. *)
Definition pruned (s : LocalStore) (ids : gset bytes) (path : bytes) : bool :=
  HasPrefix (path_Base path) tmpChunkPrefix ||
  match local_idFromPath (Uncompressed (Opt s)) path with
  | Some i => bool_decide (i ∉ ids)
  | None => false
  end.

Lemma Remove_file rm p fs e fs' : Remove rm p fs = (e, fs') ->
  broken fs' = broken fs /\ e = rm p /\
  forall q, files fs' !! q = if decide (q = p) then match e with None => None | Some _ => files fs !! p end
                            else files fs !! q.
Proof.
  unfold Remove. destruct (rm p) as [e0|]; intros [= <- <-]; (split; [done|]); (split; [done|]); intros q;
    destruct (decide (q = p)) as [->|]; try done; cbn [files]; [by rewrite lookup_delete_eq|by rewrite lookup_delete_ne].
Qed.

Lemma Stat_file fs p : broken fs = ∅ -> p ∈ dom (files fs) -> Stat fs p = None.
Proof.
  intros Hb Hp. unfold Stat. rewrite Hb, decide_False by apply not_elem_of_empty.
  by rewrite decide_True by (by left).
Qed.

(** What the walk does to the files below a store whose chunks have their proper names: only files to
    be pruned go away; without an error all of them have gone (but a temporary file that cannot be
    removed is passed over), and there is no error when no removal fails. *)
Lemma Prune_walk rm s ids paths : NoDup paths -> forall fs,
  broken fs = ∅ -> (forall p, p ∈ paths -> p ∈ dom (files fs)) ->
  (forall p i, p ∈ paths -> local_idFromPath (Uncompressed (Opt s)) p = Some i -> p = snd (nameFromID s i)) ->
  exists e fs', Prune rm s ids (map (pair false) paths) fs = (e, fs') /\
    (forall q, files fs' !! q = files fs !! q \/
       (files fs' !! q = None /\ q ∈ paths /\ pruned s ids q = true)) /\
    (e = None -> forall q, q ∈ paths -> pruned s ids q = true ->
       rm q = None \/ HasPrefix (path_Base q) tmpChunkPrefix = false -> files fs' !! q = None) /\
    ((forall p, rm p = None) -> e = None).
Proof.
  induction 1 as [|p paths Hp Hnd IH]; intros fs Hb Hdom Hcan.
  { exists None, fs. split_and!; [done|by left| |done]. intros _ q Hq. by apply not_elem_of_nil in Hq. }
  cbn [map Prune]. rewrite Stat_file by (done || apply Hdom; by left).
  (* the rest is visited with [fs1], where at most the file has gone *)
  assert (Hrest : forall fs1, broken fs1 = ∅ ->
    (forall q, q <> p -> files fs1 !! q = files fs !! q) ->
    files fs1 !! p = files fs !! p \/ (files fs1 !! p = None /\ pruned s ids p = true) ->
    (pruned s ids p = true -> rm p = None \/ HasPrefix (path_Base p) tmpChunkPrefix = false -> files fs1 !! p = None) ->
    exists e fs', Prune rm s ids (map (pair false) paths) fs1 = (e, fs') /\
    (forall q, files fs' !! q = files fs !! q \/ (files fs' !! q = None /\ q ∈ p :: paths /\ pruned s ids q = true)) /\
    (e = None -> forall q, q ∈ p :: paths -> pruned s ids q = true ->
       rm q = None \/ HasPrefix (path_Base q) tmpChunkPrefix = false -> files fs' !! q = None) /\
    ((forall p, rm p = None) -> e = None)).
  { intros fs1 Hb1 Hother Hself Hgone. destruct (IH fs1 Hb1) as (e & fs' & Hpr & Hf & Hall & Herr).
    - intros q Hq. apply elem_of_dom. rewrite Hother by (intros ->; done). apply elem_of_dom, Hdom. by right.
    - intros q i Hq. apply Hcan. by right.
    - assert (Hsame : files fs' !! p = files fs1 !! p) by (destruct (Hf p) as [?|(_ & ? & _)]; done).
      exists e, fs'. split_and!; [done| | |done].
      + intros q. destruct (decide (q = p)) as [->|Hq].
        * rewrite Hsame. destruct Hself as [?|[? ?]]; [by left|right]. split_and!; [done|by left|done].
        * rewrite <- (Hother q Hq). destruct (Hf q) as [?|(? & ? & ?)]; [by left|right].
          split_and!; [done|by right|done].
      + intros He q [->|Hq]%elem_of_cons Hpq Hrm; [rewrite Hsame; by apply Hgone|by apply Hall]. }
  destruct (HasPrefix (path_Base p) tmpChunkPrefix) eqn:Htmp.
  { destruct (Remove rm p fs) as [e1 fs1] eqn:Er. destruct (Remove_file _ _ _ _ _ Er) as (H1 & -> & H2).
    assert (Hpp : pruned s ids p = true) by (unfold pruned; by rewrite Htmp).
    apply Hrest; cbn [snd]; [congruence| | |].
    - intros q Hq. by rewrite H2, decide_False.
    - rewrite H2, decide_True by done. destruct (rm p); [by left|by right].
    - intros _ [E|?]; [|done]. by rewrite H2, decide_True, E by done. }
  destruct (local_idFromPath (Uncompressed (Opt s)) p) as [i|] eqn:Hi.
  2:{ assert (Hpp : pruned s ids p = false) by (unfold pruned; by rewrite Htmp, Hi).
      apply Hrest; [done|done|by left|]. by rewrite Hpp. }
  destruct (decide (i ∈ ids)) as [Hin|Hin].
  - assert (Hpp : pruned s ids p = false).
    { unfold pruned. rewrite Htmp, Hi, bool_decide_false; [done|]. intros Hn. by apply Hn. }
    apply Hrest; [done|done|by left|]. by rewrite Hpp.
  - assert (Hpp : pruned s ids p = true) by (unfold pruned; by rewrite Htmp, Hi, bool_decide_true).
    unfold RemoveChunk. rewrite <- (Hcan p i) by (done || left). rewrite Stat_file by (done || apply Hdom; by left).
    destruct (Remove rm p fs) as [e1 fs1] eqn:Er. destruct (Remove_file _ _ _ _ _ Er) as (H1 & E1 & H2).
    destruct e1 as [e1|].
    + exists (Some e1), fs1. split_and!; [done| |done|intros Hn; by rewrite Hn in E1].
      intros q. left. rewrite H2. by case_decide as Hq; [rewrite Hq|].
    + apply Hrest; [congruence| | |].
      * intros q Hq. by rewrite H2, decide_False.
      * right. by rewrite H2, decide_True.
      * intros _ _. by rewrite H2, decide_True.
Qed.

Lemma hex_not_tmp i (u : bool) :
  take (length tmpChunkPrefix)
    (String_ i ++ (if u then UncompressedChunkExt else CompressedChunkExt)) <> tmpChunkPrefix.
Proof.
  destruct i as [|c i]; [destruct u; vm_compute; discriminate|].
  pose proof (hex_byte_all c) as Hc. unfold hex_byte_ok in Hc.
  unfold String_, EncodeToString. cbn [map concat].
  destruct (hex_encode_byte c) as [|x [|y [|? ?]]]; try done. intros Heq.
  change (length tmpChunkPrefix) with 10%nat in Heq. cbn [app take] in Heq.
  injection Heq as Hx _. subst x. change (from_hex_char Byte.x2e) with (@None Z) in Hc.
  by rewrite andb_false_r in Hc.
Qed.

Lemma pruned_name s ids i : length i = 32%nat -> pruned s ids (snd (nameFromID s i)) = bool_decide (i ∉ ids).
Proof.
  intros Hl. unfold pruned. rewrite path_Base_name. unfold nameFromID at 1. rewrite local_idFromPath_name by done.
  unfold HasPrefix. rewrite bool_decide_false; [done|]. intros E. by apply hex_not_tmp in E.
Qed.

(** Pruning a store whose chunks have their proper names succeeds and removes exactly the
    temporary files and the chunks that are not in the given set: every wanted chunk keeps its
    file, every unwanted one is gone, and files that are not chunks are left alone. *)
Theorem Prune_exact rm s ids paths fs :
  (forall p, rm p = None) -> broken fs = ∅ -> NoDup paths -> (forall p, p ∈ paths <-> p ∈ dom (files fs)) ->
  (forall p i, p ∈ paths -> local_idFromPath (Uncompressed (Opt s)) p = Some i ->
     p = snd (nameFromID s i)) ->
  exists fs', Prune rm s ids (map (pair false) paths) fs = (None, fs') /\
    (forall q, files fs' !! q = if pruned s ids q then None else files fs !! q) /\
    (forall i, length i = 32%nat -> i ∈ ids ->
       files fs' !! snd (nameFromID s i) = files fs !! snd (nameFromID s i)) /\
    (forall i, length i = 32%nat -> i ∉ ids -> files fs' !! snd (nameFromID s i) = None).
Proof.
  intros Hrm Hb Hnd Hdom Hcan.
  destruct (Prune_walk rm s ids paths Hnd fs Hb (fun p => proj1 (Hdom p)) Hcan)
    as (e & fs' & Hp & Hf & Hall & He). specialize (He Hrm). subst e. exists fs'. split; [done|].
  assert (forall q, files fs' !! q = if pruned s ids q then None else files fs !! q) as Hf'.
  { intros q. destruct (Hf q) as [E|(E & _ & Hpq)]; [|by rewrite Hpq].
    destruct (pruned s ids q) eqn:Hpq; [|done].
    destruct (decide (q ∈ paths)) as [Hq|Hq]; [by apply Hall; auto|].
    rewrite E. apply not_elem_of_dom. by rewrite <- Hdom. }
  split; [done|]. split; intros i Hl Hi; rewrite Hf', pruned_name by done.
  - by rewrite bool_decide_false by (intros Hn; by apply Hn).
  - by rewrite bool_decide_true.
Qed.

End local.

(** ** Examples *)

Lemma tmp_ok_prefix s tmp : HasPrefix (path_Base tmp) tmpChunkPrefix = true -> tmp_ok s tmp.
Proof.
  intros Hp i ->. rewrite path_Base_name in Hp. unfold HasPrefix in Hp.
  apply bool_decide_eq_true in Hp. by apply hex_not_tmp in Hp.
Qed.

Definition ex_store : LocalStore := mkLocalStore (str "/s") false NewStoreOptionsWithDefaults.
Definition ex_tmp : bytes := str "/s/0000/.tmp-cacnk42".
Definition ex_empty : FileSystem := mkFS ∅ {[ str "/s" ]} ∅.
Definition ex_data : bytes := str "some data".

Lemma ex_tmp_ok : tmp_ok ex_store ex_tmp.
Proof. apply tmp_ok_prefix. vm_compute. reflexivity. Qed.

Lemma ex_empty_ok : store_ok (H := toy_codec) ex_store ex_empty.
Proof.
  split; [done| |].
  - intros i. cbn [ex_empty dirs]. rewrite not_elem_of_singleton. intros Heq.
    apply (f_equal length) in Heq. unfold nameFromID, local_nameFromID in Heq.
    cbn [ex_store Base Opt NewStoreOptionsWithDefaults Uncompressed snd] in Heq.
    rewrite !length_app in Heq. change (length CompressedChunkExt) with 6%nat in Heq.
    change (length (str "/s")) with 2%nat in Heq. lia.
  - intros i b. cbn [ex_empty files]. by rewrite lookup_empty.
Qed.

Lemma local_store_get_witness :
  exists fs' c', StoreChunk (H := toy_codec) ex_store ex_tmp None (NewChunk ex_data) ex_empty = (None, fs')
    /\ GetChunk (H := toy_codec) ex_store (Sum (Codec := toy_codec) ex_data) fs' = (Some c', None)
    /\ plain (H := toy_codec) c' = Ok ex_data.
Proof.
  destruct (local_store_get (H := toy_codec) ex_store ex_tmp (NewChunk ex_data)
    (Sum (Codec := toy_codec) ex_data) ex_data ex_empty ex_tmp_ok ex_empty_ok)
    as (fs' & H1 & _ & (c' & H2 & H3 & _) & _).
  - split; [reflexivity|]. split; [reflexivity|]. split; [reflexivity|]. intros Hn. by destruct Hn.
  - discriminate.
  - by exists fs', c'.
Defined.

Lemma StoreChunk_atomic_witness :
  exists e fs', StoreChunk (H := toy_codec) ex_store ex_tmp (Some (NoWrite 3 (Errorf "no space left on device"))) (NewChunk ex_data)
    ex_empty = (Some e, fs') /\ ex_tmp ∉ dom (files fs').
Proof.
  destruct (StoreChunk_atomic (H := toy_codec) ex_store ex_tmp (NewChunk ex_data) ex_empty zero_id
    (Compress (Codec := toy_codec) ex_data) 3 (NoWrite 3 (Errorf "no space left on device")) ex_tmp_ok eq_refl)
    as (_ & _ & (e & fs' & H1 & _ & H2) & _).
  exists e, fs'. split; [exact H1|]. intros [Hd|Hd]%H2; [|discriminate].
  cbn [ex_empty files] in Hd. by rewrite dom_empty in Hd.
Defined.

(** A wanted chunk, an unwanted one, a left-over temporary file and another file. *)
Definition ex_wanted : ChunkID := replicate 32 Byte.xaa.
Definition ex_unwanted : ChunkID := replicate 32 Byte.xbb.
Definition ex_paths : list bytes :=
  [snd (nameFromID ex_store ex_wanted); snd (nameFromID ex_store ex_unwanted); ex_tmp;
   str "/s/README"].
Definition ex_full : FileSystem :=
  mkFS (list_to_map (map (fun p => (p, str "x")) ex_paths)) ∅ ∅.

Lemma Prune_exact_witness :
  exists fs', Prune (fun _ => None) ex_store {[ ex_wanted ]} (map (pair false) ex_paths) ex_full = (None, fs') /\
    files fs' !! snd (nameFromID ex_store ex_wanted) = Some (str "x") /\
    files fs' !! snd (nameFromID ex_store ex_unwanted) = None.
Proof.
  destruct (Prune_exact (fun _ => None) ex_store {[ ex_wanted ]} ex_paths ex_full) as (fs' & H1 & _ & H2 & H3).
  - reflexivity.
  - reflexivity.
  - apply (bool_decide_unpack _). vm_compute. reflexivity.
  - intros p. cbn [ex_full files]. rewrite dom_list_to_map, elem_of_list_to_set. unfold ex_paths.
    cbn [map fmap list_fmap fst]. done.
  - assert (forallb (fun p => match local_idFromPath false p with
      | Some i => bool_decide (p = snd (nameFromID ex_store i)) | None => true end) ex_paths = true)
      as Hall by (vm_compute; reflexivity).
    intros p i Hp Hi. rewrite forallb_forall in Hall. specialize (Hall p).
    cbn [ex_store Opt NewStoreOptionsWithDefaults Uncompressed] in Hi. rewrite Hi in Hall.
    apply (bool_decide_unpack _). rewrite Hall; [exact I|]. by apply list_elem_of_In.
  - exists fs'. split; [exact H1|]. split.
    + rewrite H2; [vm_compute; reflexivity|reflexivity|by apply elem_of_singleton].
    + apply H3; [reflexivity|]. apply not_elem_of_singleton. discriminate.
Defined.

(** A chunk file that cannot be read is reported as an invalid chunk, which Verify with repair
    then deletes. *)
Example unreadable_is_invalid :
  GetChunk (H := toy_codec) ex_store ex_wanted
    (mkFS (files ex_full) ∅ {[ snd (nameFromID ex_store ex_wanted) ]}) =
  (None, Some (ChunkInvalid ex_wanted zero_id)).
Proof. vm_compute. reflexivity. Qed.
