(* ===== verification/Config.v ===== *)
(** * Config: options and configuration of the command line tool (cmd/desync)

    The command line's store options and how they are merged with the configuration (options.go),
    the configuration file's entries for locations (config.go, location.go), credentials for S3
    (config.go, credentials.go), the store file (store.go) and the chunk size argument (make.go).
    The environment, the working directory, the clock, the ini parser and the JSON decoder are
    parameters; a Go map that is iterated over is the list of its entries in the order of the
    iteration, which may be any. *)

From S2P Require Import Prelude Text Format Index Names Path Url Chunk Stores LocalStore.

(** ** Store options (store.go) with the settings LocalStore.v leaves out *)

Record ConfOptions := mkConfOptions {
  co_store : StoreOptions;
  co_ClientCert : bytes;
  co_ClientKey : bytes;
  co_CACert : bytes;
  co_TrustInsecure : bool;
  co_HTTPAuth : bytes;
  co_HTTPCookie : bytes
}.

Definition DefaultConfOptions : ConfOptions :=
  mkConfOptions NewStoreOptionsWithDefaults [] [] [] false [] [].

(** ** Options of the command line (options.go) *)

Record cmdStoreOptions := mkCmdOptions {
  n : Z;
  clientCert : bytes;
  clientKey : bytes;
  caCert : bytes;
  skipVerify : bool;
  trustInsecure : bool;
  cacheRepair : bool;
  errorRetry : Z;
  errorRetryBaseInterval : Z;
  changed : gset bytes                 (* the flags given on the command line *)
}.

Definition Changed (o : cmdStoreOptions) (flag : string) : bool := bool_decide (str flag ∈ changed o).

Definition MergedWith (o : cmdStoreOptions) (opt : ConfOptions) : ConfOptions :=
  let s := co_store opt in
  mkConfOptions
    (mkStoreOptions (n o) (Timeout s)
       (if Changed o "error-retry" then errorRetry o else ErrorRetry s)
       (if Changed o "error-retry-base-interval" then errorRetryBaseInterval o else ErrorRetryBaseInterval s)
       (if skipVerify o then true else SkipVerify s)
       (Uncompressed s))
    (if Changed o "client-cert" then clientCert o else co_ClientCert opt)
    (if Changed o "client-key" then clientKey o else co_ClientKey opt)
    (if Changed o "ca-cert" then caCert o else co_CACert opt)
    (if Changed o "trust-insecure" then trustInsecure o else co_TrustInsecure opt)
    (co_HTTPAuth opt) (co_HTTPCookie opt).

Definition validate (o : cmdStoreOptions) : option error :=
  if negb (eqb (bool_decide (clientKey o = [])) (bool_decide (clientCert o = []))) then
    Some (Errorf "--client-key and --client-cert options need to be provided together")
  else None.

Record cmdServerOptions := mkServerOptions { cert : bytes; key : bytes; auth : bytes }.

Definition validate_server (o : cmdServerOptions) : option error :=
  if negb (eqb (bool_decide (key o = [])) (bool_decide (cert o = []))) then
    Some (Errorf "--key and --cert options need to be provided together")
  else None.

(** ** Locations (location.go) *)

Section locations.

Context (cwd : bytes).

Definition Abs (p : bytes) : bytes := if rooted p then Clean p else Path.Join cwd p.

Definition matches (pattern name : bytes) : bool :=
  match Match pattern name with Ok b => b | _ => false end.

Definition locationMatch (pattern loc : bytes) : bool :=
  match Parse loc with
  | Ok l =>
    if decide (1 < length (Scheme l))%nat then
      matches (TrimSuffix pattern [slash]) (TrimSuffix loc [slash])
    else matches (Abs pattern) (Abs loc)
  | _ => false
  end.

(** ** The configuration (config.go) *)

Record S3Creds := mkS3Creds {
  AccessKey : bytes;
  SecretKey : bytes;
  AwsCredentialsFile : bytes;
  AwsProfile : bytes;
  AwsRegion : bytes
}.

Record Config := mkConfig {
  S3Credentials : gmap bytes S3Creds;
  ConfigStoreOptions : gmap bytes ConfOptions
}.

(** The loop over the entries, in the order of the iteration. *)
Fixpoint options_loop (entries : list (bytes * ConfOptions)) (found : bool) (options : ConfOptions)
  (location : bytes) : outcome ConfOptions :=
  match entries with
  | [] => Ok options
  | (k, v) :: entries =>
    if locationMatch k location then
      if found then Err (Errorf "multiple configuration entries match the location")
      else options_loop entries true v location
    else options_loop entries found options location
  end.

Definition GetStoreOptionsFor (entries : list (bytes * ConfOptions)) (location : bytes) : outcome ConfOptions :=
  options_loop entries false DefaultConfOptions location.

(** The entries that match. *)
Definition matching (entries : list (bytes * ConfOptions)) (location : bytes) : list (bytes * ConfOptions) :=
  filter (fun e => locationMatch (fst e) location = true) entries.

Lemma options_loop_spec entries : forall found options location,
  options_loop entries found options location =
  match matching entries location, found with
  | [], _ => Ok options
  | [(_, v)], false => Ok v
  | _, _ => Err (Errorf "multiple configuration entries match the location")
  end.
Proof using Type.
  unfold matching. induction entries as [|[k v] entries IH]; intros found options location; [done|].
  cbn [options_loop]. destruct (locationMatch k location) eqn:E.
  - rewrite filter_cons_True by done. destruct found; [by destruct (filter _ entries)|].
    rewrite IH. by destruct (filter _ entries) as [|[? ?] [|? ?]].
  - rewrite filter_cons_False by (cbn; by rewrite E). apply IH.
Qed.

(** C40. The options for a location do not depend on the order in which the map is iterated over: they
    are those of the one entry that matches, the defaults when none does, and an error when
    several do. *)
Theorem GetStoreOptionsFor_order (c : Config) entries location :
  entries ≡ₚ map_to_list (ConfigStoreOptions c) ->
  match GetStoreOptionsFor entries location with
  | Ok o =>
      (o = DefaultConfOptions /\
       forall k v, ConfigStoreOptions c !! k = Some v -> locationMatch k location = false) \/
      (exists k, ConfigStoreOptions c !! k = Some o /\ locationMatch k location = true /\
       forall k' v, ConfigStoreOptions c !! k' = Some v -> locationMatch k' location = true -> k' = k)
  | Err _ => exists k k' v v', k <> k' /\ ConfigStoreOptions c !! k = Some v /\
      ConfigStoreOptions c !! k' = Some v' /\ locationMatch k location = true /\ locationMatch k' location = true
  | _ => False
  end.
Proof using Type.
  intros Hperm. unfold GetStoreOptionsFor. rewrite options_loop_spec.
  assert (Hin : forall k v, (k, v) ∈ matching entries location <->
    ConfigStoreOptions c !! k = Some v /\ locationMatch k location = true).
  { intros k v. unfold matching. rewrite list_elem_of_filter, Hperm, elem_of_map_to_list. tauto. }
  assert (Hnd : NoDup (matching entries location).*1).
  { eapply sublist_NoDup; [|apply fmap_sublist, sublist_filter].
    rewrite Hperm. apply NoDup_fst_map_to_list. }
  destruct (matching entries location) as [|[k v] [|[k' v'] l]].
  - left. split; [done|]. intros k v Hk. destruct (locationMatch k location) eqn:E; [|done].
    assert ((k, v) ∈ ([] : list (bytes * ConfOptions))) as Hx by (by apply Hin). by apply not_elem_of_nil in Hx.
  - right. exists k. destruct (proj1 (Hin k v)) as [H1 H2]; [by left|]. split_and!; [done|done|].
    intros k' v' Hk Hm. assert ((k', v') ∈ [(k, v)]) as Hx by (by apply Hin).
    by apply list_elem_of_singleton in Hx as [= -> ->].
  - destruct (proj1 (Hin k v)) as [H1 H2]; [by left|]. destruct (proj1 (Hin k' v')) as [H3 H4]; [by right; left|].
    exists k, k', v, v'. split_and!; try done. cbn in Hnd. apply NoDup_cons in Hnd as [Hnd _].
    intros ->. apply Hnd. by left.
Qed.

End locations.

(** ** Credentials for S3 (config.go, credentials.go) *)

(** credentials.Value, and the two providers. *)
Record CredValue := mkCred { AccessKeyID : bytes; SecretAccessKey : bytes; SessionToken : bytes }.

Record RefreshableSharedCredentialsProvider := mkShared {
  Filename : bytes;
  Profile : bytes;
  exp : Z                                    (* nanoseconds *)
}.

Inductive Provider :=
| StaticCredentialsProvider (creds : CredValue)
| Refreshable (p : RefreshableSharedCredentialsProvider).

Definition Minute : Z := 60000000000.

Section credentials.

(** The environment, and the profiles of an ini file: a profile is a map from keys to values, the
    absence of which is an error of the parser. *)
Context (Getenv : bytes -> bytes) (UserHomeDir : outcome bytes)
  (ini_Load : bytes -> outcome (gmap bytes (gmap bytes bytes))).

Definition NewStaticCredentials (accessKey secretKey sessionToken : bytes) : Provider :=
  StaticCredentialsProvider (mkCred accessKey secretKey sessionToken).

Definition NewRefreshableSharedCredentials (filename profile : bytes) (now : Z) : Provider :=
  Refreshable (mkShared filename profile (now + Minute)).

Definition IsExpired (p : Provider) (now : Z) : bool :=
  match p with
  | StaticCredentialsProvider _ => false
  | Refreshable p => exp p <? now
  end.

Definition SharedCredentialsFilename : outcome bytes :=
  homeDir ← UserHomeDir; mret (JoinAll [homeDir; str ".aws"; str "credentials"]).

Definition loadProfile (filename profile : bytes) : outcome CredValue :=
  match ini_Load filename with
  | Ok config =>
    match config !! profile with
    | None => Err (Errorf "failed to get profile")
    | Some section =>
      match section !! str "aws_access_key_id", section !! str "aws_secret_access_key" with
      | None, _ => Err (Errorf "shared credentials did not contain aws_access_key_id")
      | Some _, None => Err (Errorf "shared credentials did not contain aws_secret_access_key")
      | Some id, Some secret => Ok (mkCred id secret (default [] (section !! str "aws_session_token")))
      end
    end
  | Err e => Err (Wrapped e "failed to load shared credentials file")
  | Panic => Panic
  | NoFuel => NoFuel
  end.

(** filename and profile keep what they find in the provider. *)
Definition filename (p : RefreshableSharedCredentialsProvider)
  : outcome bytes * RefreshableSharedCredentialsProvider :=
  if negb (bool_decide (Filename p = [])) then (Ok (Filename p), p)
  else
    let p := mkShared (Getenv (str "AWS_SHARED_CREDENTIALS_FILE")) (Profile p) (exp p) in
    if negb (bool_decide (Filename p = [])) then (Ok (Filename p), p)
    else
      match SharedCredentialsFilename with
      | Ok f => (Ok f, mkShared f (Profile p) (exp p))
      | Err e => (Err (Wrapped e "user home directory not found"), p)
      | r => (r, p)
      end.

Definition profile (p : RefreshableSharedCredentialsProvider) : bytes * RefreshableSharedCredentialsProvider :=
  let p := if decide (Profile p = []) then mkShared (Filename p) (Getenv (str "AWS_PROFILE")) (exp p) else p in
  let p := if decide (Profile p = []) then mkShared (Filename p) (str "default") (exp p) else p in
  (Profile p, p).

Definition Retrieve (p : Provider) (now : Z) : outcome CredValue * Provider :=
  match p with
  | StaticCredentialsProvider creds => (Ok creds, p)
  | Refreshable p =>
    match filename p with
    | (Ok f, p) =>
      let '(prof, p) := profile p in
      match loadProfile f prof with
      | Ok creds => (Ok creds, Refreshable (mkShared (Filename p) (Profile p) (now + Minute)))
      | r => (r, Refreshable p)
      end
    | (Err e, p) => (Err e, Refreshable p)
    | (Panic, p) => (Panic, Refreshable p)
    | (NoFuel, p) => (NoFuel, Refreshable p)
    end
  end.

(** The environment first, then the entry for the scheme and the host. *)
Definition GetS3CredentialsFor (c : Config) (u : URL) (now : Z) : Provider * bytes :=
  let accessKey := Getenv (str "S3_ACCESS_KEY") in
  let region := Getenv (str "S3_REGION") in
  let secretKey := Getenv (str "S3_SECRET_KEY") in
  let sessionToken := Getenv (str "S3_SESSION_TOKEN") in
  let '(accessKey, secretKey, sessionToken) :=
    if bool_decide (accessKey = []) && bool_decide (secretKey = []) then
      (Getenv (str "AWS_ACCESS_KEY_ID"), Getenv (str "AWS_SECRET_ACCESS_KEY"), Getenv (str "AWS_SESSION_TOKEN"))
    else (accessKey, secretKey, sessionToken) in
  if negb (bool_decide (accessKey = [])) || negb (bool_decide (secretKey = [])) then
    (NewStaticCredentials accessKey secretKey sessionToken, region)
  else
    let k := TrimPrefix (Scheme u) (str "s3+") ++ str "://" ++ Host u in
    let credsConfig := default (mkS3Creds [] [] [] [] []) (S3Credentials c !! k) in
    (if negb (bool_decide (AccessKey credsConfig = [])) then
       NewStaticCredentials (AccessKey credsConfig) (SecretKey credsConfig) []
     else if negb (bool_decide (AwsCredentialsFile credsConfig = [])) then
       NewRefreshableSharedCredentials (AwsCredentialsFile credsConfig) (AwsProfile credsConfig) now
     else NewStaticCredentials [] [] [], AwsRegion credsConfig).

(** What a shared provider will look up is fixed with the first request for credentials. *)
Definition settled (p : RefreshableSharedCredentialsProvider) : Prop := Filename p <> [] /\ Profile p <> [].

Lemma filename_kept p : Filename p <> [] -> filename p = (Ok (Filename p), p).
Proof. intros Hp. unfold filename. by rewrite bool_decide_false. Qed.

Lemma profile_kept p : Profile p <> [] -> profile p = (Profile p, p).
Proof. intros Hp. unfold profile. cbv zeta. rewrite (decide_False (P := Profile p = [])) by done. by rewrite (decide_False (P := Profile p = [])) by done. Qed.

Lemma profile_settled p : Profile (snd (profile p)) <> [] /\ fst (profile p) = Profile (snd (profile p)) /\
  Filename (snd (profile p)) = Filename p.
Proof.
  unfold profile. cbv zeta. destruct (decide (Profile p = [])) as [H1|H1]; cbn [Profile].
  - destruct (decide (Getenv (str "AWS_PROFILE") = [])) as [H2|H2]; done.
  - by destruct (decide (Profile p = [])).
Qed.

Lemma filename_found p f p1 : filename p = (Ok f, p1) ->
  f = Filename p1 /\ Filename p1 <> [] /\ (Filename p <> [] -> Filename p1 = Filename p) /\ Profile p1 = Profile p.
Proof.
  unfold filename. destruct (decide (Filename p = [])) as [E|E].
  2:{ rewrite bool_decide_false by done. by intros [= <- <-]. }
  rewrite bool_decide_true by done. cbn [negb Filename].
  destruct (decide (Getenv (str "AWS_SHARED_CREDENTIALS_FILE") = [])) as [E2|E2].
  2:{ rewrite bool_decide_false by done. cbn [negb]. by intros [= <- <-]. }
  rewrite bool_decide_true by done. cbn [negb]. unfold SharedCredentialsFilename.
  destruct UserHomeDir as [h|e| |]; [|done..]. cbn [mbind outcome_bind mret outcome_ret].
  intros [= <- <-]. cbn [Filename Profile]. split_and!; try done.
  unfold JoinAll. destruct (filter _ _) as [|x l] eqn:El; [|apply Clean_ne].
  rewrite filter_cons in El. by destruct (decide _) in El.
Qed.

(** Shared credentials are never older than a minute when used: a successful Retrieve reads the
    file of the provider, so what it returns is what the file says at that time; the provider then
    counts as expired exactly from a minute later on, and a later Retrieve reads the same profile of
    the same file, whatever the environment says by then. *)
Theorem Retrieve_refreshes p now creds p' :
  Retrieve (Refreshable p) now = (Ok creds, p') ->
  exists q, p' = Refreshable q /\ settled q /\ loadProfile (Filename q) (Profile q) = Ok creds /\
    (Filename p <> [] -> Filename q = Filename p) /\ (Profile p <> [] -> Profile q = Profile p) /\
    (forall t, IsExpired p' t = true <-> now + Minute < t) /\
    forall t, Retrieve p' t =
      match loadProfile (Filename q) (Profile q) with
      | Ok creds => (Ok creds, Refreshable (mkShared (Filename q) (Profile q) (t + Minute)))
      | r => (r, p')
      end.
Proof using Type.
  intros Hr. cbn [Retrieve] in Hr. destruct (filename p) as [rf p1] eqn:Ef. destruct rf as [f|e| |]; [|done..].
  destruct (filename_found p f p1 Ef) as (Hf & Hne & Hfp & Hpp).
  pose proof (profile_settled p1) as (H1 & H2 & H3). destruct (profile p1) as [prof p2] eqn:Ep.
  cbn [fst snd] in H1, H2, H3. subst prof f. rewrite <- H3 in Hne, Hfp, Hr.
  destruct (loadProfile (Filename p2) (Profile p2)) as [c|e| |] eqn:El; [|done..]. injection Hr as <- <-.
  exists (mkShared (Filename p2) (Profile p2) (now + Minute)). cbn [Filename Profile]. split_and!; try done.
  - intros Hp. rewrite <- Hpp in Hp |- *. rewrite (profile_kept p1 Hp) in Ep. by injection Ep as _ <-.
  - intros t. cbn [IsExpired exp]. by rewrite Z.ltb_lt.
  - intros t. cbn [Retrieve]. rewrite filename_kept by done. cbn [Filename]. rewrite profile_kept by done.
    cbn [Filename Profile]. by rewrite El.
Qed.

End credentials.

(** ** Other arguments (make.go, store.go, config.go) *)

Definition chunk_kb (size : bytes) (msg : string) : outcome Z :=
  match Atoi size with
  | Ok num => Ok (u64 (u64 num * 1024))
  | Err e => Err (Wrapped e msg)
  | r => r
  end.

Definition parseChunkSizeParam (s : bytes) : outcome (Z * Z * Z) :=
  match Split s (chr ":") with
  | [a; b; c] =>
    min ← chunk_kb a "min chunk size";
    avg ← chunk_kb b "avg chunk size";
    max ← chunk_kb c "max chunk size";
    mret (min, avg, max)
  | _ => Err (Errorf "invalid chunk size")
  end.

Lemma Split_cons_sep s t sep : sep ∉ s -> Split (s ++ sep :: t) sep = s :: Split t sep.
Proof.
  intros Hs. induction s as [|c s IH]; cbn [app Split].
  - pose proof (Split_nonempty t sep). destruct (Split t sep); [done|]. by rewrite decide_True.
  - apply not_elem_of_cons in Hs as [H1 H2]. rewrite IH by done. by rewrite decide_False by congruence.
Qed.

(** Sizes in kilobytes, as long as they fit in 64 bits. *)
Lemma parseChunkSizeParam_kb a b c :
  0 <= a < 2 ^ 54 -> 0 <= b < 2 ^ 54 -> 0 <= c < 2 ^ 54 ->
  parseChunkSizeParam (FormatUint 10 a ++ chr ":" :: FormatUint 10 b ++ chr ":" :: FormatUint 10 c) =
  Ok (a * 1024, b * 1024, c * 1024).
Proof.
  intros Ha Hb Hc.
  assert (Hsep : forall n, 0 <= n -> chr ":" ∉ FormatUint 10 n).
  { intros n Hn Hin. pose proof (FormatUint_digits 10 n ltac:(lia) Hn) as Hd.
    rewrite Forall_forall in Hd. by specialize (Hd _ Hin). }
  assert (Hkb : forall n msg, 0 <= n < 2 ^ 54 -> chunk_kb (FormatUint 10 n) msg = Ok (n * 1024)).
  { intros n msg Hn. unfold chunk_kb. rewrite Atoi_FormatUint by lia. f_equal.
    rewrite (u64_small n) by mach_lia. apply u64_small. mach_lia. }
  unfold parseChunkSizeParam. rewrite Split_cons_sep by (apply Hsep; lia).
  rewrite Split_cons_sep by (apply Hsep; lia). rewrite Split_no_sep by (apply Hsep; lia).
  by rewrite !Hkb by done.
Qed.

(** A negative size wraps around to a huge one. *)
Example negative_sizes_wrap : parseChunkSizeParam (str "16:64:-1") = Ok (16384, 65536, 2 ^ 64 - 1024).
Proof. vm_compute. reflexivity. Qed.

(** The store file: null is valid JSON, and makes the pointer that is decoded into nil. *)
Record storeFile := mkStoreFile { sf_stores : list bytes; sf_cache : bytes }.

Definition readStoreFile (open_ : outcome bytes) (Decode : bytes -> outcome (option storeFile))
  : outcome (list bytes * bytes) :=
  b ← open_;
  c ← Decode b;
  match c with Some c => Ok (sf_stores c, sf_cache c) | None => Panic end.

Definition setDigestAlgorithm (digestAlgorithm : bytes) : outcome Algorithm :=
  if decide (digestAlgorithm = [] \/ digestAlgorithm = str "sha512-256") then Ok SHA512_256
  else if decide (digestAlgorithm = str "sha256") then Ok SHA256
  else Err (Errorf "invalid digest algorithm").

(** ** Examples *)

(** The pairs of the repository's own test (location_test.go), in a working directory. *)
Definition ex_equal : list (string * string) :=
  [("http://host/path", "http://host/path"); ("http://host/path/", "http://host/path/");
   ("http://host/path", "http://host/path/"); ("https://host/", "https://host"); ("https://host", "https://host/");
   ("s3+https://example.com", "s3+https://example.com"); ("https://host/path*", "https://host/path");
   ("https://host/path*", "https://host/path/"); ("https://*", "https://example.com");
   ("https://example.com/path/*", "https://example.com/path/another");
   ("https://example.com/*/*/", "https://example.com/path/another/");
   ("https://example.com/*/", "https://example.com/2022.01/"); ("https://*/*/*", "https://example.com/path/another/");
   ("https://example.*", "https://example.com"); ("*://example.com", "https://example.com");
   ("http*://example.com", "https://example.com"); ("http*://example.com", "http://example.com");
   ("https://exampl?.*", "https://example.com"); ("http://examp??.com", "http://example.com");
   ("https://example.com/?", "https://example.com/a"); ("https://example.com/fo[a-z]", "https://example.com/foo");
   ("/path", "/path/../path"); ("//path", "//path"); ("//path", "/path"); ("./path", "./path"); ("path", "path/");
   ("path/..", "."); ("/path*", "/path/../path"); ("/path*", "/path_1"); ("/path/*", "/path/to"); ("/path/*", "/path/to/");
   ("/path/*/", "/path/to/"); ("/path/*/", "/path/to"); ("/path/to/../*", "/path/another"); ("/*", "/path");
   ("*", "path"); ("/pat?", "/path"); ("/pat?/?", "/path/1"); ("path/*", "path/to"); ("path/?", "path/1"); ("?", "a")]%string.

Definition ex_different : list (string * string) :=
  [("http://host:8080/path", "http://host/path"); ("http://host/path1", "http://host/path");
   ("http://host/path1", "http://host/path/"); ("http://host1/path", "http://host2/path");
   ("sftp://host/path", "http://host/path"); ("ssh://host/path", "/path"); ("ssh://host/path", "/host/path");
   ("ssh://host/path", "/ssh/host/path"); ("*", "https://example.com/path"); ("https://*", "https://example.com/path");
   ("https://example.com/*", "https://example.com/path/another"); ("https://example.com/path/*", "https://example.com/path");
   ("http://*", "https://example.com"); ("http?://example.com", "http://example.com");
   ("https://example.com/123?", "https://example.com/12345"); ("*://example.com", "https://example.com/123");
   ("/path", "path"); ("/path/to", "path/to"); ("/path/to", "/path/to/.."); ("/path*", "/dir"); ("/path*", "path");
   ("/path*", "/path/to"); ("/path/*", "/path"); ("/path/to/../*", "/path/to/another"); ("/pat?", "/pat");
   ("/pat?", "/dir")]%string.

Definition ex_match (pl : string * string) : bool := locationMatch (str "/home/user") (str (fst pl)) (str (snd pl)).

Example location_tests : forallb ex_match ex_equal && forallb (fun pl => negb (ex_match pl)) ex_different = true.
Proof. vm_compute. reflexivity. Qed.

(** One entry of the configuration is used for both spellings of its location. *)
Definition ex_options : ConfOptions :=
  mkConfOptions (mkStoreOptions 0 0 3 500000000 false true) [] [] [] false [] [].

Definition ex_config : Config := mkConfig ∅ {[ str "/path/to/store/" := ex_options ]}.

Lemma GetStoreOptionsFor_order_witness :
  match GetStoreOptionsFor (str "/home") (map_to_list (ConfigStoreOptions ex_config)) (str "/path/to/store") with
  | Ok o => (o = DefaultConfOptions /\ forall k v, ConfigStoreOptions ex_config !! k = Some v ->
       locationMatch (str "/home") k (str "/path/to/store") = false) \/
      exists k, ConfigStoreOptions ex_config !! k = Some o /\
       locationMatch (str "/home") k (str "/path/to/store") = true /\ forall k' v,
       ConfigStoreOptions ex_config !! k' = Some v -> locationMatch (str "/home") k' (str "/path/to/store") = true -> k' = k
  | Err _ => exists k k' v v', k <> k' /\ ConfigStoreOptions ex_config !! k = Some v /\
      ConfigStoreOptions ex_config !! k' = Some v' /\ locationMatch (str "/home") k (str "/path/to/store") = true /\
      locationMatch (str "/home") k' (str "/path/to/store") = true
  | _ => False
  end.
Proof. by apply (GetStoreOptionsFor_order (str "/home") ex_config). Defined.

Definition ex_ini (f : bytes) : outcome (gmap bytes (gmap bytes bytes)) :=
  if decide (f = str "creds") then
    Ok {[ str "default" := <[str "aws_access_key_id" := str "id"]> {[ str "aws_secret_access_key" := str "secret" ]} ]}
  else Err ErrNotExist.

Definition ex_getenv (v : bytes) : bytes := if decide (v = str "AWS_SHARED_CREDENTIALS_FILE") then str "creds" else [].

Lemma Retrieve_refreshes_witness :
  exists p', Retrieve ex_getenv (Err ErrNotExist) ex_ini (Refreshable (mkShared [] [] Minute)) 5 =
    (Ok (mkCred (str "id") (str "secret") []), p') /\ IsExpired p' (Minute + 6) = true.
Proof.
  eexists. split; [vm_compute; reflexivity|].
  edestruct (Retrieve_refreshes ex_getenv (Err ErrNotExist) ex_ini (mkShared [] [] Minute) 5
    (mkCred (str "id") (str "secret") [])) as (q & _ & _ & _ & _ & _ & He & _); [vm_compute; reflexivity|].
  apply He. reflexivity.
Defined.
