(* ===== verification/Files.v ===== *)
(** * Files: files, the places of chunks in them, and fetching chunks

    What extraction, the seeking reader and the sparse file share: a file is its bytes, written and
    read at offsets; an index lays its chunks out one after the other; [fetch] gets the data of a
    chunk from a store; [Search] is the binary search of Go's package sort. *)

From S2P Require Import Prelude Format Index Chunk Stores.

(** ** Files *)

(** [b] written at [off]; writing beyond the end leaves a hole of zeros, writing nothing does
    nothing. *)
Definition write (f : bytes) (off : nat) (b : bytes) : bytes :=
  match b with
  | [] => f
  | _ => take off (f ++ replicate (off - length f) Byte.x00) ++ b ++ drop (off + length b) f
  end.

Definition rng (f : bytes) (off n : nat) : bytes := take n (drop off f).

(** [f.ReadAt(make([]byte, n), off)]: all of it, or an error. *)
Definition ReadAt (f : bytes) (n off : Z) : outcome bytes :=
  if decide (maxAlloc < n) then Panic
  else if decide (off < 0) then Err (Errorf "negative offset")
  else
    let b := rng f (Z.to_nat off) (Z.to_nat n) in
    if decide (Z.of_nat (length b) = n) then Ok b else Err ErrEOF.

Definition truncate (f : bytes) (n : nat) : bytes :=
  take n f ++ replicate (n - length f) Byte.x00.

Abbreviation FS := (gmap bytes bytes).

Definition contents (fs : FS) (name : bytes) : bytes := default [] (fs !! name).

(** ** Writing a range of a file *)

(** [f'] is [f] except for the bytes from [a] to [b]. *)
Definition only_range (f f' : bytes) (a b : nat) : Prop :=
  length f' = length f /\ take a f' = take a f /\ drop b f' = drop b f.

Lemma only_range_refl f a b : only_range f f a b.
Proof. done. Qed.

Lemma only_range_trans f g h a b : only_range f g a b -> only_range g h a b -> only_range f h a b.
Proof. intros (? & ? & ?) (? & ? & ?). split_and!; congruence. Qed.

Lemma only_range_mono f g a b a' b' :
  (a' <= a)%nat -> (b <= b')%nat -> only_range f g a b -> only_range f g a' b'.
Proof.
  intros Ha Hb (Hl & H1 & H2). split; [done|]. split.
  - apply (f_equal (take a')) in H1. by rewrite !take_take, Nat.min_l in H1 by lia.
  - apply (f_equal (drop (b' - b))) in H2. rewrite !drop_drop in H2.
    by replace (b + (b' - b))%nat with b' in H2 by lia.
Qed.

Lemma write_inside f off b :
  (off + length b <= length f)%nat -> write f off b = take off f ++ b ++ drop (off + length b) f.
Proof.
  intros Hle. unfold write. destruct b as [|x b].
  - cbn [app length]. by rewrite Nat.add_0_r, take_drop.
  - by replace (off - length f)%nat with 0%nat by lia; rewrite app_nil_r.
Qed.

Lemma length_write f off b : (off + length b <= length f)%nat -> length (write f off b) = length f.
Proof. intros. rewrite write_inside, !length_app, length_take, length_drop by done. lia. Qed.

Lemma only_range_write f off b a e :
  (a <= off)%nat -> (off + length b <= e)%nat -> (e <= length f)%nat ->
  only_range f (write f off b) a e.
Proof.
  intros Ha Hb He. apply (only_range_mono _ _ off (off + length b)); [done..|].
  split; [apply length_write; lia|]. rewrite write_inside by lia. split.
  - by rewrite take_app_le, take_take, Nat.min_id by (rewrite length_take; lia).
  - rewrite app_assoc, drop_app_ge by (rewrite length_app, length_take; lia).
    rewrite length_app, length_take, Nat.min_l by lia. by rewrite Nat.sub_diag, drop_0.
Qed.

Lemma length_rng f a n : (a + n <= length f)%nat -> length (rng f a n) = n.
Proof. intros. unfold rng. rewrite length_take, length_drop. lia. Qed.

Lemma length_rng_le f a n : (length (rng f a n) <= n)%nat.
Proof. unfold rng. rewrite length_take. lia. Qed.

Lemma rng_add f a n m : rng f a (n + m) = rng f a n ++ rng f (a + n) m.
Proof. unfold rng. by rewrite <- drop_drop, take_take_drop. Qed.

Lemma rng_write f off b : (off + length b <= length f)%nat -> rng (write f off b) off (length b) = b.
Proof.
  intros. rewrite write_inside by done. unfold rng.
  rewrite drop_app_length' by (rewrite length_take; lia). by rewrite take_app_length.
Qed.

(** Reading outside the range. *)
Lemma rng_only f f' a b s n :
  only_range f f' a b -> (s + n <= a \/ b <= s)%nat -> rng f' s n = rng f s n.
Proof.
  intros (Hl & H1 & H2) Hs. unfold rng. destruct Hs as [Hs|Hs].
  - rewrite !take_drop_commute.
    apply (f_equal (take (s + n))) in H1. by rewrite !take_take, Nat.min_l in H1 by lia; rewrite H1.
  - apply (f_equal (drop (s - b))) in H2. rewrite !drop_drop in H2.
    by replace (b + (s - b))%nat with s in H2 by lia; rewrite H2.
Qed.

Lemma contents_Some fs name f : fs !! name = Some f -> contents fs name = f.
Proof. unfold contents. by intros ->. Qed.

Lemma contents_insert fs name f : contents (<[name := f]> fs) name = f.
Proof. unfold contents. by rewrite lookup_insert_eq. Qed.

Lemma u64_id x : 0 <= x < 2 ^ 64 -> u64 x = x.
Proof. apply u64_small. Qed.

(** ** The layout of an index *)

(** Chunks one after the other, inside the first [T] bytes. *)
Record layout (i : Index) (T : Z) : Prop := {
  lay_total : Length i = T /\ 0 <= T < 2 ^ 63;
  lay_in k c : Chunks i !! k = Some c -> 0 <= Start c /\ 0 <= CSize c /\ Start c + CSize c <= T;
  lay_order j k c d : (j < k)%nat -> Chunks i !! j = Some c -> Chunks i !! k = Some d ->
    Start c + CSize c <= Start d
}.

Lemma total_size_app cs cs' : total_size (cs ++ cs') = total_size cs + total_size cs'.
Proof. unfold total_size. induction cs as [|c cs IH]; cbn; [done|]. lia. Qed.

Lemma contiguous_at mx : forall cs off k c,
  contiguous mx off cs -> 0 <= off -> off + total_size cs < 2 ^ 63 -> cs !! k = Some c ->
  Start c = off + total_size (take k cs) /\ 0 <= CSize c.
Proof.
  induction cs as [|d cs IH]; intros off k c Hc Hoff Htot Hk; [by rewrite lookup_nil in Hk|].
  destruct Hc as (Hs & [Hsize _] & _ & Hc). pose proof (total_size_nonneg _ _ _ Hc).
  cbn [total_size foldr] in Htot. fold (total_size cs) in Htot.
  destruct k as [|k]; cbn in Hk.
  - injection Hk as ->. cbn. lia.
  - rewrite u64_id in Hc by lia.
    destruct (IH _ _ _ Hc ltac:(lia) ltac:(lia) Hk) as [-> ?].
    cbn [take total_size foldr]. fold (total_size (take k cs)). lia.
Qed.

Lemma total_size_take_mono mx off cs j k :
  contiguous mx off cs -> (j <= k)%nat -> total_size (take j cs) <= total_size (take k cs).
Proof.
  revert off j k. induction cs as [|c cs IH]; intros off j k Hc Hjk; [by rewrite !take_nil|].
  destruct Hc as (_ & [Hs _] & _ & Hc). destruct j as [|j], k as [|k]; cbn [take]; [done| |lia|].
  - specialize (IH _ 0%nat k Hc ltac:(lia)). rewrite take_0 in IH. unfold total_size in *. cbn in *. lia.
  - specialize (IH _ j k Hc ltac:(lia)). unfold total_size in *. cbn. lia.
Qed.

(** The indexes IndexFromReader accepts have this layout, if their length fits. *)
Lemma contiguous_layout i :
  contiguous (ChunkSizeMax i) 0 (Chunks i) -> total_size (Chunks i) < 2 ^ 63 ->
  layout i (total_size (Chunks i)).
Proof.
  intros Hc Htot. pose proof (total_size_nonneg _ _ _ Hc).
  assert (Hnext : forall k c, Chunks i !! k = Some c ->
    0 <= Start c /\ 0 <= CSize c /\ Start c = total_size (take k (Chunks i)) /\
    Start c + CSize c = total_size (take (S k) (Chunks i))).
  { intros k c Hk. destruct (contiguous_at _ _ _ _ _ Hc ltac:(lia) ltac:(lia) Hk) as [E ?].
    assert (0 <= total_size (take k (Chunks i)))
      by (apply (total_size_take_mono _ _ _ 0 k Hc); lia).
    rewrite (take_S_r _ _ _ Hk), total_size_app. cbn. lia. }
  assert (Hle : forall k, total_size (take k (Chunks i)) <= total_size (Chunks i)).
  { intros k. rewrite <- (take_ge (Chunks i) (length (Chunks i) + k)) at 2 by lia.
    apply (total_size_take_mono _ _ _ _ _ Hc). lia. }
  split.
  - split; [by eapply Length_total|]. lia.
  - intros k c Hk. destruct (Hnext k c Hk) as (? & ? & ? & E). rewrite E. specialize (Hle (S k)). lia.
  - intros j k c d Hjk Hj Hk. destruct (Hnext j c Hj) as (_ & _ & _ & ->).
    destruct (Hnext k d Hk) as (_ & _ & -> & _). apply (total_size_take_mono _ _ _ _ _ Hc). lia.
Qed.

(** The bytes of a chunk's place. *)
Definition place (f : bytes) (c : IndexChunk) : bytes := rng f (Z.to_nat (Start c)) (Z.to_nat (CSize c)).

(** The file [T] is what an index without empty chunks describes: the chunks follow each other from
    its first byte to its last. *)
Record describes (i : Index) (T : bytes) : Prop := {
  de_size : Z.of_nat (length T) < 2 ^ 62;
  de_first c : Chunks i !! 0%nat = Some c -> Start c = 0;
  de_next k c d : Chunks i !! k = Some c -> Chunks i !! S k = Some d -> Start d = Start c + CSize c;
  de_last c : last (Chunks i) = Some c -> Start c + CSize c = Z.of_nat (length T);
  de_pos c : c ∈ Chunks i -> 0 < CSize c;
  de_some : Chunks i <> []
}.

Lemma contiguous_describes i T :
  contiguous (ChunkSizeMax i) 0 (Chunks i) -> Forall (fun c => 0 < CSize c) (Chunks i) ->
  total_size (Chunks i) = Z.of_nat (length T) -> Z.of_nat (length T) < 2 ^ 62 -> Chunks i <> [] ->
  describes i T.
Proof.
  intros Hc Hp Ht Hl Hne.
  assert (Hat : forall k c, Chunks i !! k = Some c -> Start c = total_size (take k (Chunks i))).
  { intros k c Hk. destruct (contiguous_at _ _ _ _ _ Hc ltac:(lia) ltac:(lia) Hk). lia. }
  split; try done.
  - intros c Hk. by rewrite (Hat _ _ Hk).
  - intros k c d Hk Hd. rewrite (Hat _ _ Hk), (Hat _ _ Hd), (take_S_r _ _ _ Hk), total_size_app. cbn. lia.
  - intros c Hlast. rewrite last_lookup in Hlast. rewrite (Hat _ _ Hlast).
    pose proof (take_ge (Chunks i) (S (pred (length (Chunks i)))) ltac:(lia)) as E.
    rewrite (take_S_r _ _ _ Hlast) in E. rewrite <- Ht, <- E, total_size_app, E. cbn. lia.
  - intros c Hin. by rewrite Forall_forall in Hp; apply Hp.
Qed.

Lemma describes_range i T k c :
  describes i T -> Chunks i !! k = Some c -> 0 <= Start c /\ 0 < CSize c /\ Start c + CSize c <= Z.of_nat (length T).
Proof.
  intros Hd Hk. assert (Hs : forall k c, Chunks i !! k = Some c -> 0 <= Start c).
  { intros j. induction j as [|j IH]; intros d Hj; [by rewrite (de_first _ _ Hd d Hj)|].
    destruct (Chunks i !! j) as [x|] eqn:Hx.
    - rewrite (de_next _ _ Hd j x d Hx Hj). specialize (IH x eq_refl).
      pose proof (de_pos _ _ Hd x (list_elem_of_lookup_2 _ _ _ Hx)). lia.
    - apply lookup_ge_None in Hx. apply lookup_lt_Some in Hj. lia. }
  split; [by apply (Hs k)|]. split; [by eapply (de_pos _ _ Hd), list_elem_of_lookup_2|].
  assert (He : forall n k c, (length (Chunks i) - k <= n)%nat -> Chunks i !! k = Some c ->
    Start c + CSize c <= Z.of_nat (length T)).
  { induction n as [|n IH]; intros j d Hn Hj; pose proof (lookup_lt_Some _ _ _ Hj); [lia|].
    destruct (Chunks i !! S j) as [x|] eqn:Hx.
    - pose proof (IH (S j) x ltac:(lia) Hx). rewrite (de_next _ _ Hd j d x Hj Hx) in *.
      pose proof (de_pos _ _ Hd x (list_elem_of_lookup_2 _ _ _ Hx)). lia.
    - apply lookup_ge_None in Hx. rewrite (de_last _ _ Hd d); [lia|]. rewrite last_lookup.
      by replace (pred (length (Chunks i))) with j by lia. }
  by eapply He.
Qed.

Lemma describes_mono i T j k c d :
  describes i T -> Chunks i !! j = Some c -> Chunks i !! k = Some d -> (j < k)%nat ->
  Start c + CSize c <= Start d.
Proof.
  intros Hd Hj Hk Hjk. revert d Hk. induction k as [|k IH]; intros d Hk; [lia|].
  destruct (Chunks i !! k) as [x|] eqn:Hx.
  - rewrite (de_next _ _ Hd k x d Hx Hk). destruct (decide (j = k)) as [->|].
    + rewrite Hj in Hx. injection Hx as ->. lia.
    + specialize (IH ltac:(lia) x eq_refl).
      pose proof (de_pos _ _ Hd x (list_elem_of_lookup_2 _ _ _ Hx)). lia.
  - apply lookup_ge_None in Hx. apply lookup_lt_Some in Hk. lia.
Qed.

Lemma describes_Length i T : describes i T -> Length i = Z.of_nat (length T).
Proof.
  intros Hd. unfold Length. destruct (last (Chunks i)) as [c|] eqn:Hl.
  - pose proof (de_size _ _ Hd). rewrite (de_last _ _ Hd c Hl), u64_small, i64_small by mach_lia. done.
  - apply last_None in Hl. by destruct (de_some _ _ Hd).
Qed.

Lemma length_place i T k c :
  describes i T -> Chunks i !! k = Some c -> length (place T c) = Z.to_nat (CSize c).
Proof.
  intros Hd Hk. destruct (describes_range _ _ _ _ Hd Hk) as (? & ? & ?).
  unfold place. apply length_rng. lia.
Qed.

(** The places one after the other are the file. *)
Lemma describes_take i T k :
  describes i T -> (k <= length (Chunks i))%nat ->
  concat (map (place T) (take k (Chunks i))) =
  take (match Chunks i !! k with Some c => Z.to_nat (Start c) | None => length T end) T.
Proof.
  intros Hd. induction k as [|k IH]; intros Hk.
  - destruct (Chunks i !! 0%nat) as [c|] eqn:E.
    + by rewrite (de_first _ _ Hd c E).
    + apply lookup_ge_None in E. destruct (de_some _ _ Hd). by apply length_zero_iff_nil; lia.
  - destruct (lookup_lt_is_Some_2 (Chunks i) k) as [c Hc]; [lia|].
    rewrite (take_S_r _ _ _ Hc), map_app, concat_app, IH, Hc by lia. cbn. rewrite app_nil_r.
    destruct (describes_range _ _ _ _ Hd Hc) as (? & ? & ?).
    assert (E : (match Chunks i !! S k with Some d => Z.to_nat (Start d) | None => length T end) =
      (Z.to_nat (Start c) + Z.to_nat (CSize c))%nat).
    { destruct (Chunks i !! S k) as [d|] eqn:Hn.
      - rewrite (de_next _ _ Hd k c d Hc Hn). lia.
      - apply lookup_ge_None in Hn. pose proof (lookup_lt_Some _ _ _ Hc).
        assert (last (Chunks i) = Some c) as Hl
          by (rewrite last_lookup; by replace (pred (length (Chunks i))) with k by lia).
        pose proof (de_last _ _ Hd c Hl). lia. }
    rewrite E. unfold place, rng. apply take_take_drop.
Qed.

Lemma describes_concat i T : describes i T -> concat (map (place T) (Chunks i)) = T.
Proof.
  intros Hd. rewrite <- (take_ge (Chunks i) (length (Chunks i))) by lia.
  rewrite (describes_take _ _ _ Hd) by lia. rewrite lookup_ge_None_2 by lia. apply firstn_all.
Qed.

(** ** Fetching a chunk *)

(** [s.GetChunk(id)] and the chunk's data; a nil chunk without an error is dereferenced. *)
Definition fetch `{Codec} {W} (s : Store W) (i : ChunkID) (w : W) : outcome bytes * W :=
  match sGetChunk s i w with
  | ((_, Some err), w) => (Err err, w)
  | ((None, None), w) => (Panic, w)
  | ((Some c, None), w) => (fst (Data c), w)
  end.

(** The store may fail, but when it does not it has the chunks of the file. *)
Definition serves `{Codec} {W} (s : Store W) (i : Index) (T : bytes) : Prop :=
  forall c w r w', c ∈ Chunks i -> fetch s (ID c) w = (r, w') ->
    match r with Ok b => b = place T c | Err _ => True | Panic | NoFuel => False end.

(** ** sort.Search *)

(** The smallest index from 0 to n where [f] holds, by bisection: the loop [for i < j]. *)
Fixpoint Search_loop (fuel i j : nat) (f : nat -> bool) : nat :=
  match fuel with
  | O => i
  | S fuel =>
    if decide (i < j)%nat then
      let h := Nat.div2 (i + j) in
      if f h then Search_loop fuel i h f else Search_loop fuel (S h) j f
    else i
  end.

Definition Search (n : nat) (f : nat -> bool) : nat := Search_loop n 0 n f.

Lemma Search_loop_spec f fuel : forall i j,
  (forall a b, (a <= b)%nat -> f a = true -> f b = true) -> (j - i <= fuel)%nat -> (i <= j)%nat ->
  (forall k, (k < i)%nat -> f k = false) ->
  let r := Search_loop fuel i j f in
  (i <= r <= j)%nat /\ (forall k, (k < r)%nat -> f k = false) /\ ((r < j)%nat -> f r = true).
Proof.
  induction fuel as [|fuel IH]; intros i j Hm Hf Hij Hlt; cbn [Search_loop].
  - repeat split; try lia. done.
  - goal_decide Hd; [|repeat split; try lia; done].
    set (h := Nat.div2 (i + j)).
    assert (Hh : (i <= h < j)%nat) by (unfold h; rewrite Nat.div2_div; split; [apply Nat.div_le_lower_bound|apply Nat.Div0.div_lt_upper_bound]; lia).
    destruct (f h) eqn:Hfh.
    + destruct (IH i h Hm) as (? & ? & Hr); [lia|lia|done|]. cbn. repeat split; [lia|lia|done|].
      intros _. destruct (decide (Search_loop fuel i h f < h)%nat); [by apply Hr|].
      by replace (Search_loop fuel i h f) with h by lia.
    + destruct (IH (S h) j Hm) as (? & ? & ?); [lia|lia| |cbn; repeat split; try lia; done].
      intros k Hk. destruct (f k) eqn:E; [|done]. rewrite (Hm k h) in Hfh by (done || lia). done.
Qed.

Lemma Search_spec n f :
  (forall a b, (a <= b)%nat -> f a = true -> f b = true) ->
  (Search n f <= n)%nat /\ (forall k, (k < Search n f)%nat -> f k = false) /\
  ((Search n f < n)%nat -> f (Search n f) = true).
Proof.
  intros Hm. destruct (Search_loop_spec f n 0 n Hm) as (? & ? & ?); [lia|lia|lia|].
  unfold Search. repeat split; [lia|done|done].
Qed.

(** The chunk at a position of the file, as the source looks for it. *)
Definition chunk_ends_after (cs : list IndexChunk) (newPos : Z) (i : nat) : bool :=
  match cs !! i with Some c => bool_decide (newPos < i64 (u64 (Start c + CSize c))) | None => true end.

Lemma chunk_ends_after_mono i T p a b :
  describes i T -> (a <= b)%nat -> chunk_ends_after (Chunks i) p a = true -> chunk_ends_after (Chunks i) p b = true.
Proof.
  unfold chunk_ends_after. intros Hdesc Hab Ha. destruct (Chunks i !! b) as [d|] eqn:Hb; [|done].
  destruct (Chunks i !! a) as [c|] eqn:Hc.
  2:{ apply lookup_ge_None in Hc. apply lookup_lt_Some in Hb. lia. }
  apply bool_decide_eq_true in Ha. apply bool_decide_eq_true.
  destruct (describes_range _ _ _ _ Hdesc Hb) as (? & ? & ?), (describes_range _ _ _ _ Hdesc Hc) as (? & ? & ?).
  pose proof (de_size _ _ Hdesc). rewrite u64_small, i64_small in * by mach_lia.
  destruct (decide (a = b)) as [->|]; [congruence|].
  pose proof (describes_mono _ _ a b c d Hdesc Hc Hb ltac:(lia)). lia.
Qed.

(** The chunk the bisection finds. *)
Lemma Search_chunk i T q :
  describes i T ->
  0 <= q -> is_i64 q ->
  let n := Search (length (Chunks i)) (chunk_ends_after (Chunks i) q) in
  let k := if decide (length (Chunks i) <= n)%nat then pred (length (Chunks i)) else n in
  exists c, Chunks i !! k = Some c /\ Start c <= q /\
    (q <= Z.of_nat (length T) -> q <= Start c + CSize c) /\
    (q < Start c + CSize c \/ k = pred (length (Chunks i))).
Proof.
  intros Hdesc Hq Hi n k.
  destruct (Search_spec (length (Chunks i)) (chunk_ends_after (Chunks i) q)) as (Hn & Hlow & Hhigh);
    [intros a b; by apply (chunk_ends_after_mono i T)|]. fold n in Hn, Hlow, Hhigh.
  assert (Hne : (0 < length (Chunks i))%nat).
  { pose proof (de_some _ _ Hdesc). destruct (Chunks i); [done|cbn; lia]. }
  assert (Hlt : (k < length (Chunks i))%nat) by (unfold k; case_decide; lia).
  destruct (lookup_lt_is_Some_2 _ _ Hlt) as [c Hc]. exists c. split; [done|].
  destruct (describes_range _ _ _ _ Hdesc Hc) as (Hs0 & Hsz & Hend). pose proof (de_size _ _ Hdesc).
  assert (Hf : forall j d, Chunks i !! j = Some d -> chunk_ends_after (Chunks i) q j = bool_decide (q < Start d + CSize d)).
  { intros j d Hj. unfold chunk_ends_after. rewrite Hj.
    destruct (describes_range _ _ _ _ Hdesc Hj) as (? & ? & ?).
    by rewrite u64_small, i64_small by mach_lia. }
  split; [|split].
  - destruct (decide (k = 0%nat)) as [E|E]; [rewrite E in Hc; by rewrite (de_first _ _ Hdesc c Hc)|].
    destruct (lookup_lt_is_Some_2 (Chunks i) (pred k)) as [b Hb]; [lia|].
    assert (Hkb : Chunks i !! S (pred k) = Some c) by (by replace (S (pred k)) with k by lia).
    rewrite (de_next _ _ Hdesc _ b c Hb Hkb).
    assert (Hfb : chunk_ends_after (Chunks i) q (pred k) = false).
    { apply Hlow. unfold k in *. case_decide; lia. }
    rewrite (Hf _ _ Hb) in Hfb. apply bool_decide_eq_false in Hfb. lia.
  - intros Hle. unfold k in Hc. case_decide as Hd.
    + rewrite <- last_lookup in Hc. by rewrite (de_last _ _ Hdesc c Hc).
    + specialize (Hhigh ltac:(lia)). rewrite (Hf _ _ Hc) in Hhigh. apply bool_decide_eq_true in Hhigh. lia.
  - unfold k in *. case_decide as Hd; [by right|left]. specialize (Hhigh ltac:(lia)).
    rewrite (Hf _ _ Hc) in Hhigh. by apply bool_decide_eq_true in Hhigh.
Qed.
