(* ===== verification/ReadSeeker.v ===== *)
(** * ReadSeeker: reading a file through its index (readseeker.go)

    [IndexPos] is a position in the file an index describes, with the chunk that was loaded last.
    [at_pos] is what its fields mean; the main theorem is that any sequence of Seek and Read calls
    behaves like the same calls on the plain file, as long as the store answers. *)

From S2P Require Import Prelude Format Index Chunk Stores Files.

(** ** The reader *)

Record IndexPos := mkIndexPos {
  rIndex : Index;
  rLength : Z;
  pos : Z;
  curChunkID : ChunkID;
  curChunk : bytes;
  curChunkIdx : nat;
  curChunkOffset : Z;
  nullChunk : NullChunk
}.

Inductive Whence := SeekStart | SeekCurrent | SeekEnd | OtherWhence.

Section readseeker.

Context `{Codec} {W : Type} (s : Store W).

(** An index without chunks panics. *)
Definition NewIndexReadSeeker (i : Index) : outcome IndexPos :=
  match Chunks i with
  | [] => Panic
  | c :: _ => nc ← NewNullChunk (ChunkSizeMax i); Ok (mkIndexPos i (Length i) 0 (ID c) [] 0 0 nc)
  end.

Definition with_chunk (ip : IndexPos) (b : bytes) : IndexPos :=
  mkIndexPos (rIndex ip) (rLength ip) (pos ip) (curChunkID ip) b (curChunkIdx ip) (curChunkOffset ip) (nullChunk ip).

(** The general case of findOffset: the chunk is found by bisection. *)
Definition bisect (ip : IndexPos) (newPos : Z) : outcome (Z * option error * IndexPos) :=
  let chunks := Chunks (rIndex ip) in
  let n := Search (length chunks) (chunk_ends_after chunks newPos) in
  let newChunkIdx := if decide (length chunks <= n)%nat then pred (length chunks) else n in
  match chunks !! newChunkIdx with
  | None => Panic
  | Some newChunk =>
    if decide (newPos < i64 (Start newChunk)) then
      Ok (pos ip, Some (Errorf "seek found chunk beginning after the position"), ip)
    else if decide (newPos > i64 (u64 (Start newChunk + CSize newChunk))) then
      Ok (pos ip, Some (Errorf "seek found chunk ending before the position"), ip)
    else
      Ok (newPos, None,
          mkIndexPos (rIndex ip) (rLength ip) newPos (ID newChunk)
            (if decide (ID newChunk <> curChunkID ip) then [] else curChunk ip)
            newChunkIdx (i64 (newPos - i64 (Start newChunk))) (nullChunk ip))
  end.

(** findOffset: the position afterwards, an error, and the new state. *)
Definition findOffset (ip : IndexPos) (newPos : Z) : outcome (Z * option error * IndexPos) :=
  let delta := i64 (newPos - pos ip) in
  if decide (delta = 0) then Ok (pos ip, None, ip)
  else
    inside ← (if decide (0 <= i64 (delta + curChunkOffset ip)) then
                match Chunks (rIndex ip) !! curChunkIdx ip with
                | Some c => Ok (bool_decide (i64 (delta + curChunkOffset ip) < i64 (CSize c)))
                | None => Panic
                end
              else Ok false);
    if inside : bool then
      let p := i64 (pos ip + delta) in
      Ok (p, None, mkIndexPos (rIndex ip) (rLength ip) p (curChunkID ip) (curChunk ip) (curChunkIdx ip)
                     (i64 (curChunkOffset ip + delta)) (nullChunk ip))
    else bisect ip newPos.

Definition loadChunk (ip : IndexPos) (w : W) : outcome IndexPos * W :=
  if decide (curChunkID ip = nID (nullChunk ip)) then (Ok (with_chunk ip (nData (nullChunk ip))), w)
  else
    match fetch s (curChunkID ip) w with
    | (Ok b, w) => (Ok (with_chunk ip b), w)
    | (Err e, w) => (Err e, w)
    | (Panic, w) => (Panic, w)
    | (NoFuel, w) => (NoFuel, w)
    end.

Definition Seek (ip : IndexPos) (offset : Z) (whence : Whence) : outcome (Z * option error * IndexPos) :=
  let to newPos :=
    if decide (newPos < 0) then Ok (pos ip, Some (Errorf "unable to seek before start of file"), ip)
    else
      '(newOffset, err, ip') ← findOffset ip newPos;
      Ok (newOffset, match err with
                     | None => if decide (newPos > rLength ip) then Some ErrEOF else None
                     | Some e => Some e
                     end, ip') in
  match whence with
  | SeekStart => to offset
  | SeekCurrent => to (i64 (pos ip + offset))
  | SeekEnd => to (i64 (rLength ip + offset))
  | OtherWhence => Ok (pos ip, Some (Errorf "invalid whence"), ip)
  end.

(** The loop of Read; [remaining] is the room left. Each round copies at least one byte, so [S
    remaining] rounds are enough. *)
Fixpoint Read_loop (fuel remaining : nat) (ip : IndexPos) (w : W)
  : outcome (bytes * option error * IndexPos) * W :=
  match fuel with
  | O => (NoFuel, w)
  | S fuel =>
    if decide (remaining = 0%nat) then (Ok ([], None, ip), w)
    else
      match (if decide (curChunk ip = []) then loadChunk ip w else (Ok ip, w)) with
      | (Err e, w) => (Ok ([], Some e, ip), w)
      | (Panic, w) => (Panic, w)
      | (NoFuel, w) => (NoFuel, w)
      | (Ok ip, w) =>
        if decide (0 <= curChunkOffset ip <= Z.of_nat (length (curChunk ip))) then
          let chunkRemainingBytes := drop (Z.to_nat (curChunkOffset ip)) (curChunk ip) in
          if decide (chunkRemainingBytes = [] /\ curChunkIdx ip = pred (length (Chunks (rIndex ip))))
          then (Ok ([], None, ip), w)
          else
            let copied := take remaining chunkRemainingBytes in
            match Seek ip (Z.of_nat (length copied)) SeekCurrent with
            | Ok (_, Some e, ip) => (Ok (copied, Some e, ip), w)
            | Ok (_, None, ip) =>
              match Read_loop fuel (remaining - length copied) ip w with
              | (Ok (b, e, ip), w) => (Ok (copied ++ b, e, ip), w)
              | r => r
              end
            | Err e => (Err e, w)
            | Panic => (Panic, w)
            | NoFuel => (NoFuel, w)
            end
        else (Panic, w)
      end
  end.

(** Read into a buffer of [n] bytes. *)
Definition Read (ip : IndexPos) (n : nat) (w : W) : outcome (bytes * option error * IndexPos) * W :=
  if decide (pos ip = rLength ip) then (Ok ([], Some ErrEOF, ip), w)
  else Read_loop (S n) n ip w.

(** ** What the fields mean *)

Context (i : Index) (T : bytes).
Hypothesis Hdesc : describes i T.
Hypothesis Hserves : serves s i T.

(** The null chunk is where its ID is. *)
Definition null_ok (nc : NullChunk) : Prop := forall c, c ∈ Chunks i -> ID c = nID nc -> nData nc = place T c.

Record at_pos (ip : IndexPos) (p : nat) : Prop := {
  ap_index : rIndex ip = i;
  ap_length : rLength ip = Z.of_nat (length T);
  ap_null : null_ok (nullChunk ip);
  ap_pos : pos ip = Z.of_nat p;
  ap_chunk : exists c, Chunks i !! curChunkIdx ip = Some c /\ curChunkID ip = ID c /\
    (curChunk ip = [] \/ forall d, d ∈ Chunks i -> ID d = ID c -> curChunk ip = place T d) /\
    Start c <= Z.of_nat p <= Start c + CSize c /\ curChunkOffset ip = Z.of_nat p - Start c;
  ap_in : forall c, Chunks i !! curChunkIdx ip = Some c ->
    Z.of_nat p < Start c + CSize c \/ curChunkIdx ip = pred (length (Chunks i))
}.

Lemma at_pos_le ip p : at_pos ip p -> (p <= length T)%nat.
Proof.
  intros Hp. destruct (ap_chunk _ _ Hp) as (c & Hc & _ & _ & ? & _).
  destruct (describes_range _ _ _ _ Hdesc Hc) as (? & ? & ?). lia.
Qed.

Lemma bisect_spec ip p q :
  at_pos ip p -> 0 <= q -> is_i64 q ->
  if decide (q <= Z.of_nat (length T)) then
    exists ip', bisect ip q = Ok (q, None, ip') /\ at_pos ip' (Z.to_nat q)
  else exists e, bisect ip q = Ok (Z.of_nat p, Some e, ip).
Proof using Hdesc.
  clear Hserves. intros Hp Hq Hi. pose proof (de_size _ _ Hdesc).
  destruct Hp as [Ei El En Ep (c & Hc & Eid & Hdata & _ & _) _].
  unfold bisect. rewrite Ei, Ep. destruct (Search_chunk i T q Hdesc Hq Hi) as (d & Hd & Hstart & Hend & Hk).
  set (k := if decide (length (Chunks i) <= _)%nat then pred _ else _) in *. rewrite Hd.
  destruct (describes_range _ _ _ _ Hdesc Hd) as (? & ? & ?).
  rewrite (i64_small (Start d)) by mach_lia. destruct (decide (q < Start d)); [lia|].
  rewrite (u64_small (Start d + _)), (i64_small (Start d + _)) by mach_lia.
  case_decide as Hle; (case_decide as Hgt; [try lia|]); [|by eexists|lia].
  rewrite i64_small by mach_lia. eexists. split; [done|].
  split; cbn [rIndex rLength nullChunk ReadSeeker.pos curChunkIdx]; try done; [lia| |].
  - exists d. cbn. split; [done|]. split; [done|]. split; [|split; lia].
    case_decide as Eidd; [by left|]. rewrite Eid in Eidd.
    destruct Hdata as [->|Hdata]; [by left|right]. intros d' Hd' E. apply Hdata; [done|congruence].
  - intros d' Hd'. rewrite Hd in Hd'. injection Hd' as <-. destruct Hk; [left; lia|by right].
Qed.

Lemma findOffset_spec ip p q :
  at_pos ip p -> 0 <= q -> is_i64 q ->
  if decide (q <= Z.of_nat (length T)) then
    exists ip', findOffset ip q = Ok (q, None, ip') /\ at_pos ip' (Z.to_nat q)
  else exists e, findOffset ip q = Ok (Z.of_nat p, Some e, ip).
Proof using Hdesc.
  clear Hserves. intros Hp Hq Hi. pose proof (at_pos_le _ _ Hp) as Hple. pose proof (de_size _ _ Hdesc).
  pose proof (bisect_spec _ _ _ Hp Hq Hi) as Hb.
  destruct Hp as [Ei El En Ep (c & Hc & Eid & Hdata & Hin & Eoff) Hlt].
  destruct (describes_range _ _ _ _ Hdesc Hc) as (? & ? & ?).
  unfold findOffset. rewrite Ep, Eoff, (i64_small (q - _)) by mach_lia.
  destruct (decide (q - Z.of_nat p = 0)) as [E|Hne].
  { rewrite decide_True by lia. exists ip. split; [by replace q with (Z.of_nat p) by lia|].
    replace (Z.to_nat q) with p by lia. split; try done. by exists c. }
  replace (q - Z.of_nat p + (Z.of_nat p - Start c)) with (q - Start c) by lia.
  rewrite (i64_small (q - Start c)), Ei, Hc, (i64_small (CSize c)) by mach_lia.
  destruct (decide (0 <= q - Start c)) as [Hge|Hlow]; cbn [mbind outcome_bind]; [|exact Hb].
  destruct (bool_decide (q - Start c < CSize c)) eqn:Hbd; [|exact Hb]. clear Hb.
  apply bool_decide_eq_true in Hbd. rewrite decide_True by lia.
  replace (Z.of_nat p + (q - Z.of_nat p)) with q by lia. rewrite (i64_small q) by done.
  replace (Z.of_nat p - Start c + (q - Z.of_nat p)) with (q - Start c) by lia.
  rewrite i64_small by mach_lia. eexists. split; [done|].
  split; cbn [rIndex rLength nullChunk ReadSeeker.pos curChunkIdx]; try done; [lia| |].
  - exists c. cbn. repeat split; (done || lia).
  - intros d Hd. rewrite Hc in Hd. injection Hd as <-. left. lia.
Qed.

(** ** Seek and Read on the plain file *)

Inductive op := OSeek (offset : Z) (whence : Whence) | ORead (n : nat).

Inductive result := RSeek (p : Z) (e : option error) | RRead (b : bytes) (e : option error).

Definition target (p : nat) (offset : Z) (whence : Whence) : option Z :=
  match whence with
  | SeekStart => Some offset
  | SeekCurrent => Some (i64 (Z.of_nat p + offset))
  | SeekEnd => Some (i64 (Z.of_nat (length T) + offset))
  | OtherWhence => None
  end.

(** The store fails on some chunk of the file, in some world. *)
Definition may_fail : Prop := exists c w e w', c ∈ Chunks i /\ fetch s (ID c) w = (Err e, w').

(** What a call does at byte [p] of the file: a read is only cut short by a failure of the store. *)
Inductive file_step (p : nat) : op -> result -> nat -> Prop :=
| seek_to offset whence q :
    target p offset whence = Some q -> 0 <= q <= Z.of_nat (length T) ->
    file_step p (OSeek offset whence) (RSeek q None) (Z.to_nat q)
| seek_bad offset whence e :
    (forall q, target p offset whence = Some q -> q < 0 \/ Z.of_nat (length T) < q) ->
    file_step p (OSeek offset whence) (RSeek (Z.of_nat p) (Some e)) p
| read_end n :
    p = length T -> file_step p (ORead n) (RRead [] (Some ErrEOF)) p
| read_some n :
    (p < length T)%nat ->
    file_step p (ORead n) (RRead (rng T p (Nat.min n (length T - p))) None) (p + Nat.min n (length T - p))
| read_failed n m e :
    (m < Nat.min n (length T - p))%nat -> may_fail ->
    file_step p (ORead n) (RRead (rng T p m) (Some e)) (p + m).

Inductive file_trace : nat -> list op -> list result -> Prop :=
| trace_nil p : file_trace p [] []
| trace_cons p q o r os rs : file_step p o r q -> file_trace q os rs -> file_trace p (o :: os) (r :: rs).

Definition do_op (o : op) (ip : IndexPos) (w : W) : outcome (result * IndexPos) * W :=
  match o with
  | OSeek offset whence =>
    (('(p, e, ip) ← Seek ip offset whence; Ok (RSeek p e, ip)), w)
  | ORead n =>
    match Read ip n w with
    | (Ok (b, e, ip), w) => (Ok (RRead b e, ip), w)
    | (Err e, w) => (Err e, w)
    | (Panic, w) => (Panic, w)
    | (NoFuel, w) => (NoFuel, w)
    end
  end.

Fixpoint run_ops (os : list op) (ip : IndexPos) (w : W) : outcome (list result) * W :=
  match os with
  | [] => (Ok [], w)
  | o :: os =>
    match do_op o ip w with
    | (Ok (r, ip), w) => let '(rs, w) := run_ops os ip w in (rs ← rs; Ok (r :: rs), w)
    | (Err e, w) => (Err e, w)
    | (Panic, w) => (Panic, w)
    | (NoFuel, w) => (NoFuel, w)
    end
  end.

Definition op_ok (o : op) : Prop := match o with OSeek offset _ => is_i64 offset | ORead _ => True end.

Lemma Seek_spec ip p offset whence :
  at_pos ip p -> is_i64 offset ->
  exists x e ip' q, Seek ip offset whence = Ok (x, e, ip') /\ at_pos ip' q /\
    file_step p (OSeek offset whence) (RSeek x e) q /\
    (forall z, target p offset whence = Some z -> 0 <= z <= Z.of_nat (length T) ->
      e = None /\ q = Z.to_nat z).
Proof using Hdesc.
  clear Hserves. intros Hp Ho.
  set (to newPos := if decide (newPos < 0) then Ok (pos ip, Some (Errorf "unable to seek before start of file"), ip)
    else '(newOffset, err, ip') ← findOffset ip newPos;
      Ok (newOffset, match err with
                     | None => if decide (newPos > rLength ip) then Some ErrEOF else None
                     | Some e => Some e
                     end, ip')).
  assert (Hto : forall z, target p offset whence = Some z -> is_i64 z ->
    exists x e ip' q, to z = Ok (x, e, ip') /\ at_pos ip' q /\
      file_step p (OSeek offset whence) (RSeek x e) q /\
      (forall z', Some z = Some z' -> 0 <= z' <= Z.of_nat (length T) -> e = None /\ q = Z.to_nat z')).
  { intros z Hz Hi. unfold to. destruct (decide (z < 0)) as [Hneg|Hpos].
    - eexists _, _, ip, p. rewrite (ap_pos _ _ Hp). split; [done|]. split; [done|]. split.
      + apply seek_bad. intros q Hq. rewrite Hz in Hq. injection Hq as <-. by left.
      + intros z' [= <-]. lia.
    - pose proof (findOffset_spec _ _ z Hp ltac:(lia) Hi) as Hf. case_decide as Hle.
      + destruct Hf as (ip' & -> & Hp'). cbn. rewrite (ap_length _ _ Hp), decide_False by lia.
        eexists _, _, ip', (Z.to_nat z). split; [done|]. split; [done|]. split.
        * apply seek_to; [done|lia].
        * by intros z' [= <-].
      + destruct Hf as (e & ->). cbn. eexists _, _, ip, p. split; [done|]. split; [done|]. split.
        * apply seek_bad. intros q Hq. rewrite Hz in Hq. injection Hq as <-. right. lia.
        * intros z' [= <-]. lia. }
  pose proof (ap_pos _ _ Hp) as E1. pose proof (ap_length _ _ Hp) as E2.
  unfold Seek. fold to. destruct whence; cbn [target] in *.
  - by apply Hto.
  - replace (i64 (pos ip + offset)) with (i64 (Z.of_nat p + offset)) by (by rewrite E1).
    apply Hto; [done|apply i64_range].
  - replace (i64 (rLength ip + offset)) with (i64 (Z.of_nat (length T) + offset)) by (by rewrite E2).
    apply Hto; [done|apply i64_range].
  - eexists _, _, ip, p. rewrite E1. split; [done|]. split; [done|]. split; [|done]. by apply seek_bad.
Qed.

Lemma loadChunk_at_pos ip p w :
  at_pos ip p -> exists r w', loadChunk ip w = (r, w') /\
    match r with
    | Ok ip' => at_pos ip' p /\ forall c, Chunks i !! curChunkIdx ip' = Some c -> curChunk ip' = place T c
    | Err _ => may_fail
    | _ => False
    end.
Proof using Hdesc Hserves.
  intros Hp. destruct Hp as [Ei El En Ep (c & Hc & Eid & Hdata & Hin & Eoff) Hlt].
  assert (Hcin : c ∈ Chunks i) by (by eapply list_elem_of_lookup_2).
  assert (Hok : forall b, (forall d, d ∈ Chunks i -> ID d = ID c -> b = place T d) ->
    at_pos (with_chunk ip b) p /\
    forall d, Chunks i !! curChunkIdx (with_chunk ip b) = Some d -> curChunk (with_chunk ip b) = place T d).
  { intros b Hb. split; [split; try done; exists c; cbn; by auto|]. cbn. intros d Hd. rewrite Hc in Hd.
    injection Hd as <-. by apply Hb. }
  unfold loadChunk. destruct (decide (curChunkID ip = nID (nullChunk ip))) as [Hnull|].
  { eexists _, _. split; [done|]. apply Hok. intros d Hd E. apply En; [done|congruence]. }
  destruct (fetch s (curChunkID ip) w) as [r w'] eqn:Hf. rewrite Eid in Hf.
  pose proof (Hserves c w r w' Hcin Hf) as Hr. destruct r as [b|e| |]; try done.
  - eexists _, _. split; [done|]. apply Hok. intros d Hd E. rewrite <- E in Hf.
    by apply (Hserves d w (Ok b) w' Hd Hf).
  - eexists _, _. split; [done|]. by exists c, w, e, w'.
Qed.

(** Seeking from the last chunk to the end of the file keeps the chunk. *)
Lemma Seek_to_end ip p m x e ip' c :
  at_pos ip p -> Chunks i !! curChunkIdx ip = Some c -> Start c + CSize c = Z.of_nat (length T) ->
  Z.of_nat p + m = Z.of_nat (length T) -> 0 <= m ->
  Seek ip m SeekCurrent = Ok (x, e, ip') -> curChunk ip' = curChunk ip.
Proof using Hdesc.
  clear Hserves. intros Hp Hc Hend Hm Hm0. pose proof (de_size _ _ Hdesc).
  unfold Seek. rewrite (ap_pos _ _ Hp), i64_small, Hm by mach_lia. rewrite decide_False by lia.
  unfold findOffset. rewrite (ap_index _ _ Hp), Hc. destruct (decide (i64 (_ - _) = 0)); [cbn; by intros [= _ _ <-]|].
  assert (Hb : forall y, bisect ip (Z.of_nat (length T)) = Ok y -> curChunk (snd y) = curChunk ip).
  { unfold bisect. rewrite (ap_index _ _ Hp). intros [[y1 y2] y3].
    destruct (Search_chunk i T (Z.of_nat (length T)) Hdesc ltac:(lia) ltac:(mach_lia)) as (d & Hd & _ & _ & Hk).
    set (k := if decide (length (Chunks i) <= _)%nat then pred _ else _) in *. rewrite Hd.
    destruct (describes_range _ _ _ _ Hdesc Hd) as (? & ? & ?).
    assert (d = c) as ->.
    { destruct (decide (k = curChunkIdx ip)) as [E|Hne]; [rewrite E in Hd; congruence|].
      pose proof (lookup_lt_Some _ _ _ Hc). destruct Hk as [|Hk]; [lia|].
      destruct (describes_range _ _ _ _ Hdesc Hc) as (? & ? & ?).
      pose proof (describes_mono _ _ _ _ _ _ Hdesc Hc Hd ltac:(lia)). lia. }
    destruct (ap_chunk _ _ Hp) as (c' & Hc' & Eid & _). rewrite Hc in Hc'. injection Hc' as <-.
    case_decide; [by intros [= _ _ <-]|]. case_decide; [by intros [= _ _ <-]|]. intros [= _ _ <-]. cbn.
    by rewrite decide_False by auto. }
  assert (Hgo : (bisect ip (Z.of_nat (length T)) ≫= fun '(newOffset, err, ip') =>
      Ok (newOffset, match err with
                     | None => if decide (Z.of_nat (length T) > rLength ip) then Some ErrEOF else None
                     | Some e => Some e
                     end, ip')) = Ok (x, e, ip') -> curChunk ip' = curChunk ip).
  { destruct (bisect ip _) as [[[y1 y2] y3]| | |]; try done. cbn. intros [= _ _ <-]. by apply (Hb (y1, y2, y3)). }
  destruct (decide (0 <= _)); cbn [mbind outcome_bind]; [|exact Hgo].
  destruct (bool_decide _); [|exact Hgo]. cbn. by intros [= _ _ <-].
Qed.

Lemma Read_loop_spec fuel : forall remaining ip p w,
  at_pos ip p -> (remaining < fuel)%nat -> (p < length T)%nat \/ curChunk ip <> [] ->
  exists b e ip' w', Read_loop fuel remaining ip w = (Ok (b, e, ip'), w') /\
    at_pos ip' (p + length b) /\ b = rng T p (length b) /\ (length b <= remaining)%nat /\
    match e with
    | None => length b = Nat.min remaining (length T - p)
    | Some e => (length b < Nat.min remaining (length T - p))%nat /\ may_fail
    end.
Proof using Hdesc Hserves.
  induction fuel as [|fuel IH]; intros remaining ip p w Hp Hf Hin0; [lia|]. cbn [Read_loop].
  pose proof (at_pos_le _ _ Hp) as Hple. pose proof (de_size _ _ Hdesc).
  destruct (decide (remaining = 0%nat)) as [->|Hr].
  { exists [], None, ip, w. cbn. by rewrite Nat.add_0_r. }
  assert (Hload : exists r w1, (if decide (curChunk ip = []) then loadChunk ip w else (Ok ip, w)) = (r, w1) /\
    match r with
    | Ok ip' => at_pos ip' p /\ forall c, Chunks i !! curChunkIdx ip' = Some c -> curChunk ip' = place T c
    | Err _ => may_fail /\ (p < length T)%nat
    | _ => False
    end).
  { case_decide as Hnil.
    { destruct Hin0 as [Hlt|]; [|done]. destruct (loadChunk_at_pos ip p w Hp) as (r & w1 & E & Hr1).
      exists r, w1. split; [done|]. by destruct r. }
    eexists _, _. split; [done|]. split; [done|].
    destruct (ap_chunk _ _ Hp) as (c & Hc & _ & [Hd|Hd] & _); [done|]. intros d Hd'. rewrite Hc in Hd'.
    injection Hd' as <-. apply Hd; [by eapply list_elem_of_lookup_2|done]. }
  destruct Hload as (r & w1 & -> & Hr1). destruct r as [ip1|e| |]; try done.
  2:{ destruct Hr1 as [Hfail Hlt]. exists [], (Some e), ip, w1. cbn. rewrite Nat.add_0_r. split_and!; try done; lia. }
  destruct Hr1 as [Hp1 Hdata]. destruct (ap_chunk _ _ Hp1) as (c & Hc & _ & _ & Hin & Eoff).
  destruct (describes_range _ _ _ _ Hdesc Hc) as (? & ? & ?).
  pose proof (length_place _ _ _ _ Hdesc Hc) as Hlen. rewrite (Hdata c Hc), Eoff, Hlen, decide_True by lia.
  assert (Erest : drop (Z.to_nat (Z.of_nat p - Start c)) (place T c) = rng T p (Z.to_nat (Start c + CSize c) - p)).
  { unfold place, rng. rewrite skipn_firstn_comm, drop_drop. f_equal; [lia|]. f_equal. lia. }
  rewrite Erest. set (k := (Z.to_nat (Start c + CSize c) - p)%nat).
  assert (Hk : length (rng T p k) = k) by (apply length_rng; lia).
  case_decide as Hend.
  - destruct Hend as [Hnil Hlast]. rewrite Hnil in Hk. cbn in Hk. rewrite Hlast in Hc.
    rewrite (ap_index _ _ Hp1), <- last_lookup in Hc. pose proof (de_last _ _ Hdesc c Hc).
    exists [], None, ip1, w1. cbn. rewrite Nat.add_0_r. split_and!; try done; lia.
  - assert (0 < k)%nat.
    { destruct (decide (0 < k)%nat); [done|]. exfalso. apply Hend.
      replace k with 0%nat by lia. split; [done|]. rewrite (ap_index _ _ Hp1).
      destruct (ap_in _ _ Hp1 c Hc); [lia|done]. }
    assert (Ecop : take remaining (rng T p k) = rng T p (Nat.min remaining k)) by (unfold rng; by rewrite take_take).
    rewrite Ecop. set (m := Nat.min remaining k). rewrite (length_rng T p m) by lia.
    destruct (Seek_spec ip1 p (Z.of_nat m) SeekCurrent Hp1 ltac:(mach_lia)) as (x & e & ip2 & q & Es & Hp2 & _ & Hq).
    rewrite Es.
    cbn [target] in Hq. rewrite i64_small in Hq by mach_lia. destruct (Hq _ eq_refl) as [-> ->]; [lia|].
    replace (Z.to_nat (Z.of_nat p + Z.of_nat m)) with (p + m)%nat in Hp2 by lia.
    assert (Hin2 : (p + m < length T)%nat \/ curChunk ip2 <> []).
    { destruct (decide (p + m < length T)%nat); [by left|right].
      rewrite (Seek_to_end ip1 p (Z.of_nat m) x None ip2 c) by (done || lia). rewrite (Hdata c Hc).
      intros E%(f_equal length). rewrite Hlen in E. cbn in E. lia. }
    destruct (IH (remaining - m)%nat ip2 (p + m)%nat w1 Hp2 ltac:(lia) Hin2) as (b & e & ip3 & w3 & -> & Hp3 & Eb & Hbl & He).
    exists (rng T p m ++ b), e, ip3, w3. split; [done|]. rewrite length_app, (length_rng T p m) by lia.
    split; [by rewrite Nat.add_assoc|]. split; [rewrite rng_add, <- Eb; done|]. split; [lia|].
    destruct e; [destruct He; split; [lia|done]|lia].
Qed.

Lemma Read_spec ip p n w :
  at_pos ip p ->
  exists b e ip' q w', Read ip n w = (Ok (b, e, ip'), w') /\ at_pos ip' q /\
    file_step p (ORead n) (RRead b e) q.
Proof using Hdesc Hserves.
  intros Hp. unfold Read. pose proof (at_pos_le _ _ Hp). rewrite (ap_pos _ _ Hp), (ap_length _ _ Hp).
  destruct (decide (Z.of_nat p = Z.of_nat (length T))) as [E|Hne].
  - eexists _, _, ip, p, w. split; [done|]. split; [done|]. apply read_end. lia.
  - destruct (Read_loop_spec (S n) n ip p w Hp ltac:(lia)) as (b & e & ip' & w' & -> & Hp' & Eb & Hb & He); [left; lia|].
    exists b, e, ip', (p + length b)%nat, w'. split; [done|]. split; [done|]. destruct e as [e|].
    + destruct He as [Hlt Hfail]. rewrite Eb at 1. by apply read_failed.
    + rewrite He in Eb |- *. rewrite Eb. apply read_some. lia.
Qed.

Lemma do_op_spec ip p o w :
  at_pos ip p -> op_ok o ->
  exists r ip' q w', do_op o ip w = (Ok (r, ip'), w') /\ at_pos ip' q /\ file_step p o r q.
Proof using Hdesc Hserves.
  intros Hp Ho. destruct o as [offset whence|n]; cbn [do_op].
  - destruct (Seek_spec ip p offset whence Hp Ho) as (x & e & ip' & q & -> & ? & ? & _). by eexists _, ip', q, w.
  - destruct (Read_spec ip p n w Hp) as (b & e & ip' & q & w' & -> & ? & ?). by eexists _, ip', q, w'.
Qed.

Lemma new_at_pos ip :
  NewIndexReadSeeker i = Ok ip -> null_ok (nullChunk ip) -> at_pos ip 0.
Proof using Hdesc.
  clear Hserves. unfold NewIndexReadSeeker. destruct (Chunks i) as [|c cs] eqn:Ec; [done|].
  destruct (NewNullChunk _) as [nc| | |]; try done. cbn. intros [= <-] Hn.
  assert (Hc : Chunks i !! 0%nat = Some c) by by rewrite Ec.
  destruct (describes_range _ _ _ _ Hdesc Hc) as (? & ? & ?). pose proof (de_first _ _ Hdesc c Hc).
  split; cbn; try done.
  - by apply describes_Length.
  - exists c. split; [done|]. split; [done|]. split; [by left|]. lia.
  - intros d Hd. rewrite Hc in Hd. injection Hd as <-. left. lia.
Qed.


End readseeker.

(** ** An example *)

#[local] Instance ex_codec_rs : Codec := toy_codec.

Definition ex_text : bytes := str "hello world".

Definition ex_idx : Index :=
  mkIndex (mkHeader 0 0) 0 1 2 4
    [mkIndexChunk (Sum (str "hell")) 0 4; mkIndexChunk (Sum (str "o wo")) 4 4; mkIndexChunk (Sum (str "rld")) 8 3].

(** A store that has the text's chunks and nothing else. *)
Definition ex_get (i : ChunkID) (w : unit) : GetResult * unit :=
  match list_find (fun c => ID c = i) (Chunks ex_idx) with
  | Some (_, c) => ((Some (NewChunk (place ex_text c)), None), w)
  | None => ((None, Some (ChunkMissing i)), w)
  end.

Definition ex_store_rs : Store unit :=
  mkStore ex_get (fun _ w => ((true, None), w)) None (fun w => (None, w)) (str "text").

Lemma ex_describes : describes ex_idx ex_text.
Proof.
  apply contiguous_describes; try (vm_compute; done).
  repeat constructor.
Qed.

Lemma ex_serves : serves ex_store_rs ex_idx ex_text.
Proof.
  intros c w r w' Hc. cbn [Chunks ex_idx] in Hc.
  repeat (apply elem_of_cons in Hc as [->|Hc]; [vm_compute; by intros [= <- _]|]).
  by apply elem_of_nil in Hc.
Qed.

Definition ex_ops : list op :=
  [OSeek 2 SeekStart; ORead 5; OSeek (-1) SeekEnd; ORead 5; ORead 5; OSeek 1 SeekCurrent].

Definition ex_ip : IndexPos :=
  match NewIndexReadSeeker ex_idx with Ok ip => ip | _ => mkIndexPos ex_idx 0 0 [] [] 0 0 (mkNullChunk [] []) end.

Definition ex_results : list result :=
  [RSeek 2 None; RRead (str "llo w") None; RSeek 10 None; RRead (str "d") None; RRead [] (Some ErrEOF);
   RSeek 11 (Some (Errorf "seek found chunk ending before the position"))].

