(* ===== verification/Sparse.v ===== *)
(** * Sparse: the sparse file that caches a remote file (sparse-file.go)

    A file is filled with chunks as they are read. The loader keeps a bitmap of the chunks that are
    in the file, and each chunk has a sync.Once around its loading. The bitmap is a package of its
    own: the class [Bitmap] has its documented behaviour. Loads are atomic: two loads of a chunk
    exclude each other, and loads of different chunks write different places. *)

From S2P Require Import Prelude Format Index Chunk Stores Files.

(** ** Bitmaps (github.com/boljen/go-bitmap) *)

(** The bytes of a bitmap of [n] bits. *)
Definition bitmap_bytes (n : nat) : nat := if decide (n mod 8 = 0)%nat then (n / 8)%nat else (1 + n / 8)%nat.

Class Bitmap := {
  bm_New : nat -> bytes;
  bm_Get : bytes -> nat -> outcome bool;
  bm_Set : bytes -> nat -> bool -> outcome bytes;
  bm_New_length n : length (bm_New n) = bitmap_bytes n;
  bm_Get_New n k : (k / 8 < bitmap_bytes n)%nat -> bm_Get (bm_New n) k = Ok false;
  bm_Get_range b k : if decide (k / 8 < length b)%nat then is_ok (bm_Get b k) = true else bm_Get b k = Panic;
  bm_Set_spec b k v : (k / 8 < length b)%nat -> exists b', bm_Set b k v = Ok b' /\ length b' = length b /\
    forall j, (j / 8 < length b)%nat -> bm_Get b' j = if decide (j = k) then Ok v else bm_Get b j
}.

(** Eight bits to a byte. *)
Definition bits_Get (b : bytes) (k : nat) : outcome bool :=
  match b !! (k / 8)%nat with
  | Some x => Ok (Z.testbit (byte.unsigned x) (Z.of_nat (k mod 8)))
  | None => Panic
  end.

Definition bits_Set (b : bytes) (k : nat) (v : bool) : outcome bytes :=
  match b !! (k / 8)%nat with
  | Some x =>
    let x := byte.unsigned x in
    let i := Z.of_nat (k mod 8) in
    Ok (<[(k / 8)%nat := byte.of_Z (if v then Z.setbit x i else Z.clearbit x i)]> b)
  | None => Panic
  end.

Lemma byte_unsigned_of_Z z : 0 <= z < 256 -> byte.unsigned (byte.of_Z z) = z.
Proof. intros. rewrite byte.unsigned_of_Z. unfold byte.wrap. by rewrite Z.mod_small. Qed.

Lemma set_bit_range x i v :
  0 <= x < 256 -> 0 <= i < 8 -> 0 <= (if v : bool then Z.setbit x i else Z.clearbit x i) < 256.
Proof.
  intros Hx Hi. assert (Hb : forall n, 8 <= n -> Z.testbit x n = false).
  { intros n Hn. apply Z.bits_above_log2; [lia|]. destruct (decide (x = 0)) as [->|]; [cbn; lia|].
    apply Z.log2_lt_pow2; [lia|]. apply Z.lt_le_trans with (2 ^ 8); [lia|]. apply Z.pow_le_mono_r; lia. }
  set (y := if v then _ else _). assert (Hy : y = y mod 2 ^ 8).
  { apply Z.bits_inj'. intros n Hn. rewrite Z.testbit_mod_pow2 by lia.
    destruct (decide (n < 8)) as [Hlt|Hge]; [by rewrite (proj2 (Z.ltb_lt n 8)) by lia|].
    rewrite (proj2 (Z.ltb_ge n 8)) by lia. unfold y. destruct v.
    - rewrite Z.setbit_neq by lia. apply Hb. lia.
    - rewrite Z.clearbit_neq by lia. apply Hb. lia. }
  rewrite Hy. pose proof (Z.mod_pos_bound y (2 ^ 8)). lia.
Qed.

#[export, refine] Instance bits : Bitmap := {
  bm_New n := replicate (bitmap_bytes n) Byte.x00;
  bm_Get := bits_Get;
  bm_Set := bits_Set
}.
Proof.
  - intros n. apply length_replicate.
  - intros n k Hk. unfold bits_Get. rewrite lookup_replicate_2 by done. cbn. by rewrite Z.testbit_0_l.
  - intros b k. unfold bits_Get. case_decide as Hk.
    + by destruct (lookup_lt_is_Some_2 b (k / 8) Hk) as [x ->].
    + by rewrite lookup_ge_None_2 by lia.
  - intros b k v Hk. unfold bits_Set. destruct (lookup_lt_is_Some_2 b (k / 8) Hk) as [x Hx]. rewrite Hx.
    eexists. split; [done|]. split; [apply length_insert|]. intros j Hj. unfold bits_Get.
    pose proof (byte.unsigned_range x) as Hr. pose proof (Nat.mod_upper_bound k 8). pose proof (Nat.mod_upper_bound j 8).
    destruct (decide (k / 8 = j / 8)%nat) as [E|Hne].
    + rewrite <- E, list_lookup_insert_eq by done. rewrite byte_unsigned_of_Z by (apply set_bit_range; lia).
      destruct (decide (j = k)) as [->|Hjk].
      * f_equal. destruct v; [by rewrite Z.setbit_eq by lia|by rewrite Z.clearbit_eq].
      * rewrite Hx. f_equal. assert (j mod 8 <> k mod 8)%nat.
        { intros Em. apply Hjk. rewrite (Nat.div_mod_eq j 8), (Nat.div_mod_eq k 8). lia. }
        destruct v; [by rewrite Z.setbit_neq by lia|by rewrite Z.clearbit_neq by lia].
    + rewrite list_lookup_insert_ne by done. rewrite decide_False; [done|]. by intros ->.
Defined.

Section sparse.

Context `{Codec} `{Bitmap} {W : Type} (s : Store W).

(** Opening the file and writing a chunk to it: an error after some bytes, or no error. *)
Context (disk : W -> option (nat * error) * W).

(** ** The loader *)

Record sparseFileLoader := mkLoader {
  lname : bytes;
  ldone : bytes;
  tried : gset nat;                 (* the chunks whose once has run *)
  lchunks : list IndexChunk;
  lnull : NullChunk
}.

Record SparseFileOptions := mkSparseOptions { StateSaveFile : bytes; StateInitFile : bytes }.

Record SparseFile := mkSparseFile { sf_name : bytes; sf_idx : Index; sf_opt : SparseFileOptions; loader : sparseFileLoader }.

Definition newSparseFileLoader (name : bytes) (i : Index) : outcome sparseFileLoader :=
  nc ← NewNullChunk (ChunkSizeMax i);
  Ok (mkLoader name (bm_New (length (Chunks i))) ∅ (Chunks i) nc).

(** The first and the last chunk of a byte range. *)
Fixpoint last_chunk (cs : list IndexChunk) (e : Z) (k : nat) : nat :=
  match cs with
  | [] => k
  | c :: cs => if decide (e < Start c) then k else last_chunk cs e (S k)
  end.

Definition indexRange (l : sparseFileLoader) (start len : Z) : Z * Z :=
  let e := u64 (start + len - 1) in
  let n := length (lchunks l) in
  let firstChunk := Search n (chunk_ends_after (lchunks l) start) in
  if decide (len < 1) then (Z.of_nat firstChunk, Z.of_nat firstChunk)
  else if decide (n <= firstChunk)%nat then (Z.of_nat n - 1, Z.of_nat n - 1)
  else (Z.of_nat firstChunk, Z.of_nat (last_chunk (drop (S firstChunk) (lchunks l)) e firstChunk)).

(** The state: files, the loader and the world of the store. *)
Record SW := mkSW { files : FS; ld : sparseFileLoader; world : W }.

Definition set_done (l : sparseFileLoader) (b : bytes) : sparseFileLoader :=
  mkLoader (lname l) b (tried l) (lchunks l) (lnull l).

(** The part of loadChunk inside once.Do. *)
Definition load_once (i : nat) (c : IndexChunk) (w : SW) : outcome (option error) * SW :=
  let l := mkLoader (lname (ld w)) (ldone (ld w)) ({[ i ]} ∪ tried (ld w)) (lchunks (ld w)) (lnull (ld w)) in
  match fetch s (ID c) (world w) with
  | (Ok b, w') =>
    match disk w' with
    | (Some (n, e), w') =>
      (Ok (Some e), mkSW (<[lname l := write (contents (files w) (lname l)) (Z.to_nat (Start c)) (take n b)]> (files w)) l w')
    | (None, w') =>
      if decide (i64 (Start c) < 0) then (Ok (Some (Errorf "negative offset")), mkSW (files w) l w')
      else
        let fs := <[lname l := write (contents (files w) (lname l)) (Z.to_nat (Start c)) b]> (files w) in
        match bm_Set (ldone l) i true with
        | Ok d => (Ok None, mkSW fs (set_done l d) w')
        | Err e => (Err e, mkSW fs l w')
        | Panic => (Panic, mkSW fs l w')
        | NoFuel => (NoFuel, mkSW fs l w')
        end
    end
  | (Err e, w') => (Ok (Some e), mkSW (files w) l w')
  | (Panic, w') => (Panic, mkSW (files w) l w')
  | (NoFuel, w') => (NoFuel, mkSW (files w) l w')
  end.

Definition loadChunk (i : nat) (w : SW) : outcome (option error) * SW :=
  match lchunks (ld w) !! i with
  | None => (Panic, w)
  | Some c => if decide (i ∈ tried (ld w)) then (Ok None, w) else load_once i c w
  end.

(** The chunks from [i] on that have to be loaded; a place outside the bitmap or the index panics. *)
Fixpoint chunks_needed (l : sparseFileLoader) (n : nat) (i : Z) : outcome (list nat) :=
  match n with
  | O => Ok []
  | S n =>
    if decide (i < 0) then Panic
    else
      b ← bm_Get (ldone l) (Z.to_nat i);
      if b : bool then chunks_needed l n (i + 1)
      else
        match lchunks l !! Z.to_nat i with
        | None => Panic
        | Some c =>
          r ← chunks_needed l n (i + 1);
          Ok (if decide (ID c = nID (lnull l)) then r else Z.to_nat i :: r)
        end
  end.

Fixpoint load_all (ks : list nat) (w : SW) : outcome (option error) * SW :=
  match ks with
  | [] => (Ok None, w)
  | i :: ks =>
    match loadChunk i w with
    | (Ok None, w) => load_all ks w
    | r => r
    end
  end.

Definition loadRange (start len : Z) (w : SW) : outcome (option error) * SW :=
  let '(first, last) := indexRange (ld w) start len in
  match chunks_needed (ld w) (Z.to_nat (last - first + 1)) first with
  | Ok needed => load_all needed w
  | Err e => (Err e, w)
  | Panic => (Panic, w)
  | NoFuel => (NoFuel, w)
  end.

(** ReadAt of an open file: what there is, and io.EOF when that is less than asked for. *)
Definition file_ReadAt (f : bytes) (n : nat) (offset : Z) : bytes * option error :=
  if decide (offset < 0) then ([], Some (Errorf "negative offset"))
  else
    let b := rng f (Z.to_nat offset) n in
    (b, if decide (length b < n)%nat then Some ErrEOF else None).

Definition ReadAt (n : nat) (offset : Z) (w : SW) : outcome (bytes * option error) * SW :=
  match loadRange offset (Z.of_nat n) w with
  | (Ok (Some e), w) => (Ok ([], Some e), w)
  | (Ok None, w) => (Ok (file_ReadAt (contents (files w) (lname (ld w))) n offset), w)
  | (Err e, w) => (Err e, w)
  | (Panic, w) => (Panic, w)
  | (NoFuel, w) => (NoFuel, w)
  end.

(** ** The state file *)

(** The file is created, and written in one call that may fail after some bytes. *)
Definition WriteState (opt : SparseFileOptions) (w : SW) : option error * SW :=
  if decide (StateSaveFile opt = []) then (None, w)
  else
    match disk (world w) with
    | (Some (n, e), w') =>
      (Some e, mkSW (<[StateSaveFile opt := take n (ldone (ld w))]> (files w)) (ld w) w')
    | (None, w') => (None, mkSW (<[StateSaveFile opt := ldone (ld w)]> (files w)) (ld w) w')
    end.

Definition stateFromReader (l : sparseFileLoader) (b : bytes) : outcome bytes :=
  let chunks := length (lchunks l) in
  if decide ((chunks mod 8 = 0 /\ length b <> chunks / 8) \/ (chunks mod 8 <> 0 /\ length b <> 1 + chunks / 8))%nat
  then Err (Errorf "sparse state file does not match the index")
  else Ok b.

Definition loadState (l : sparseFileLoader) (b : bytes) : outcome sparseFileLoader :=
  done ← stateFromReader l b; Ok (set_done l done).

(** The chunks the workers of preloadChunksFromState load in the background. *)
Definition preload (l : sparseFileLoader) (b : bytes) : outcome (list nat) :=
  state ← stateFromReader l b;
  Ok (filter (fun k => bm_Get state k = Ok true) (seq 0 (length (lchunks l)))).

Definition NewSparseFile (name : bytes) (i : Index) (opt : SparseFileOptions) (fs : FS)
  : outcome (SparseFile * list nat) * FS :=
  let fs := if decide (fs !! name = None) then <[name := []]> fs else fs in
  match newSparseFileLoader name i with
  | Ok l =>
    let sparseFileMatch := bool_decide (Z.of_nat (length (contents fs name)) = Length i) in
    let restored :=
      if sparseFileMatch && bool_decide (StateSaveFile opt <> []) then
        match fs !! StateSaveFile opt with
        | Some b => match loadState l b with Ok l => Some l | _ => None end
        | None => None
        end
      else None in
    match restored with
    | Some l => (Ok (mkSparseFile name i opt l, []), fs)
    | None =>
      if decide (Length i < 0) then (Err (Errorf "truncate: invalid argument"), fs)
      else
        let fs := <[name := truncate (contents fs name) (Z.to_nat (Length i))]> fs in
        if decide (StateInitFile opt = []) then (Ok (mkSparseFile name i opt l, []), fs)
        else
          match fs !! StateInitFile opt with
          | None => (Err ErrNotExist, fs)
          | Some b => (ks ← preload l b; Ok (mkSparseFile name i opt l, ks), fs)
          end
    end
  | Err e => (Err e, fs)
  | Panic => (Panic, fs)
  | NoFuel => (NoFuel, fs)
  end.

(** ** Histories: reads, background loads, saved states and restarts *)

Inductive op := SRead (n : nat) (offset : Z) | SPreload (k : nat) | SSave | SRestart.

Inductive result := SBytes (b : bytes) (e : option error) | SLoaded (e : option error) | SDone (e : option error).

Definition do_op (name : bytes) (i : Index) (opt : SparseFileOptions) (o : op) (w : SW) : outcome result * SW :=
  match o with
  | SRead n offset => let '(r, w) := ReadAt n offset w in ('(b, e) ← r; Ok (SBytes b e), w)
  | SPreload k => let '(r, w) := loadChunk k w in (e ← r; Ok (SLoaded e), w)
  | SSave => let '(e, w) := WriteState opt w in (Ok (SDone e), w)
  | SRestart =>
    match NewSparseFile name i opt (files w) with
    | (Ok (sf, _), fs) => (Ok (SDone None), mkSW fs (loader sf) (world w))
    | (Err e, fs) => (Ok (SDone (Some e)), mkSW fs (ld w) (world w))
    | (Panic, fs) => (Panic, mkSW fs (ld w) (world w))
    | (NoFuel, fs) => (NoFuel, mkSW fs (ld w) (world w))
    end
  end.

Fixpoint run_ops (name : bytes) (i : Index) (opt : SparseFileOptions) (os : list op) (w : SW)
  : outcome (list result) * SW :=
  match os with
  | [] => (Ok [], w)
  | o :: os =>
    match do_op name i opt o w with
    | (Ok r, w) => let '(rs, w) := run_ops name i opt os w in (rs ← rs; Ok (r :: rs), w)
    | (Err e, w) => (Err e, w)
    | (Panic, w) => (Panic, w)
    | (NoFuel, w) => (NoFuel, w)
    end
  end.

(** ** What a loader knows *)

Lemma bitmap_covers n k : (k < n)%nat -> (k / 8 < bitmap_bytes n)%nat.
Proof using Type.
  clear. intros Hk. unfold bitmap_bytes. pose proof (Nat.div_mod_eq n 8). pose proof (Nat.div_mod_eq k 8).
  pose proof (Nat.mod_upper_bound n 8 ltac:(lia)). pose proof (Nat.mod_upper_bound k 8 ltac:(lia)).
  case_decide; lia.
Qed.

Lemma fits_length n m :
  ~ ((n mod 8 = 0 /\ m <> n / 8) \/ (n mod 8 <> 0 /\ m <> 1 + n / 8))%nat -> m = bitmap_bytes n.
Proof using Type.
  clear. unfold bitmap_bytes. intros Hn. apply dec_stable. intros Hm. apply Hn. case_decide; [left|right]; done.
Qed.

Context (i : Index) (T : bytes).
Hypothesis Hdesc : describes i T.
Hypothesis Hserves : serves s i T.

(** Chunks with the ID of the null chunk are zeros. *)
Definition null_zeros (nc : NullChunk) : Prop :=
  forall c, c ∈ Chunks i -> ID c = nID nc -> place T c = replicate (Z.to_nat (CSize c)) Byte.x00.

(** The chunks that are marked, and the null chunks, are in the file; a chunk that was tried is
    marked, as long as no load has failed. *)
Record sinv (name : bytes) (opt : SparseFileOptions) (w : SW) : Prop := {
  si_name : lname (ld w) = name;
  si_chunks : lchunks (ld w) = Chunks i;
  si_file : exists f, files w !! name = Some f /\ length f = length T /\
    forall k c, Chunks i !! k = Some c -> bm_Get (ldone (ld w)) k = Ok true \/ ID c = nID (lnull (ld w)) ->
      place f c = place T c;
  si_done : length (ldone (ld w)) = bitmap_bytes (length (Chunks i));
  si_tried k : k ∈ tried (ld w) -> bm_Get (ldone (ld w)) k = Ok true;
  si_null : NewNullChunk (ChunkSizeMax i) = Ok (lnull (ld w));
  si_saved b f : StateSaveFile opt <> [] -> files w !! StateSaveFile opt = Some b ->
    length b = bitmap_bytes (length (Chunks i)) -> files w !! name = Some f ->
    forall k c, Chunks i !! k = Some c -> bm_Get b k = Ok true -> place f c = place T c;
  si_names : StateSaveFile opt <> name
}.

Lemma bm_Get_ok name opt w k :
  sinv name opt w -> (k < length (Chunks i))%nat -> exists b, bm_Get (ldone (ld w)) k = Ok b.
Proof using Type.
  intros Hi Hk. pose proof (bm_Get_range (ldone (ld w)) k) as Hr.
  rewrite (si_done _ _ _ Hi), decide_True in Hr by by apply bitmap_covers.
  destruct (bm_Get _ _) as [b| | |]; try done. by exists b.
Qed.

(** Writing a chunk to its place changes no other place. *)
Lemma place_write f k c j d :
  length f = length T -> Chunks i !! k = Some c -> Chunks i !! j = Some d ->
  place (write f (Z.to_nat (Start c)) (place T c)) d = if decide (j = k) then place T d else place f d.
Proof using Hdesc.
  intros Hl Hk Hj. destruct (describes_range _ _ _ _ Hdesc Hk) as (? & ? & ?).
  destruct (describes_range _ _ _ _ Hdesc Hj) as (? & ? & ?).
  pose proof (length_place _ _ _ _ Hdesc Hk) as Hlen. case_decide as E.
  - subst j. rewrite Hk in Hj. injection Hj as <-. unfold place at 1. rewrite <- Hlen. apply rng_write. lia.
  - assert (Ho : only_range f (write f (Z.to_nat (Start c)) (place T c)) (Z.to_nat (Start c)) (Z.to_nat (Start c + CSize c))).
    { apply only_range_write; lia. }
    unfold place at 1. rewrite (rng_only _ _ _ _ _ _ Ho); [done|].
    destruct (decide (j < k)%nat).
    + pose proof (describes_mono _ _ _ _ _ _ Hdesc Hj Hk ltac:(lia)). lia.
    + pose proof (describes_mono _ _ _ _ _ _ Hdesc Hk Hj ltac:(lia)). lia.
Qed.

(** What can fail: the store on a chunk of the file, or the disk. *)
Definition may_fail : Prop :=
  (exists c w e w', c ∈ Chunks i /\ fetch s (ID c) w = (Err e, w')) \/ (exists w x w', disk w = (Some x, w')).

(** A load either fails, with an error, or leaves the chunk in the file and marked. *)
Lemma loadChunk_spec name opt w k :
  sinv name opt w -> (k < length (Chunks i))%nat ->
  exists e w', loadChunk k w = (Ok e, w') /\
    match e with
    | None => sinv name opt w' /\ bm_Get (ldone (ld w')) k = Ok true /\
        forall j, bm_Get (ldone (ld w)) j = Ok true -> bm_Get (ldone (ld w')) j = Ok true
    | Some _ => may_fail
    end.
Proof using Hdesc Hserves.
  intros Hi Hk. unfold loadChunk. rewrite (si_chunks _ _ _ Hi).
  destruct (lookup_lt_is_Some_2 _ _ Hk) as [c Hc]. rewrite Hc.
  destruct (decide (k ∈ tried (ld w))) as [Ht|Ht].
  { exists None, w. split; [done|]. split; [done|]. split; [by apply (si_tried _ _ _ Hi)|done]. }
  unfold load_once. destruct (fetch s (ID c) (world w)) as [r w1] eqn:Hf.
  pose proof (Hserves c _ _ _ (list_elem_of_lookup_2 _ _ _ Hc) Hf) as Hr.
  destruct r as [b|e| |]; try done; [subst b|].
  2:{ eexists _, _. split; [done|]. left. eexists c, _, _, _. split; [by eapply list_elem_of_lookup_2|exact Hf]. }
  destruct (disk w1) as [[[n e]|] w2] eqn:Hdk.
  { eexists _, _. split; [done|]. right. by eexists _, _, _. }
  destruct (describes_range _ _ _ _ Hdesc Hc) as (? & ? & ?). pose proof (de_size _ _ Hdesc).
  rewrite i64_small, decide_False by mach_lia. cbn [ldone].
  destruct (bm_Set_spec (ldone (ld w)) k true) as (d & -> & Hdl & Hdg).
  { rewrite (si_done _ _ _ Hi). by apply bitmap_covers. }
  assert (Hmark : forall j, bm_Get (ldone (ld w)) j = Ok true -> bm_Get d j = Ok true).
  { intros j Hj. pose proof (bm_Get_range (ldone (ld w)) j) as Hjr. case_decide as Hjd; [|by rewrite Hj in Hjr].
    rewrite Hdg by done. by case_decide. }
  assert (Hkd : (k / 8 < length (ldone (ld w)))%nat) by (rewrite (si_done _ _ _ Hi); by apply bitmap_covers).
  destruct (si_file _ _ _ Hi) as (f & Hfile & Hfl & Hgood).
  pose proof (length_place _ _ _ _ Hdesc Hc) as Hlen.
  eexists _, _. split; [done|]. cbn. split; [|split; [rewrite Hdg by done; by rewrite decide_True|done]].
  split; cbn; try apply Hi.
  - exists (write f (Z.to_nat (Start c)) (place T c)). rewrite (si_name _ _ _ Hi), lookup_insert_eq.
    rewrite (contents_Some _ _ _ Hfile). split; [done|].
    pose proof (length_place _ _ _ _ Hdesc Hc). split; [rewrite length_write; lia|].
    intros j x Hj Hjd. rewrite (place_write f k c j x Hfl Hc Hj). case_decide as Ejk; [done|].
    apply (Hgood j x Hj). destruct Hjd as [Hjd|]; [left|by right].
    rewrite Hdg, decide_False in Hjd; [done|done|]. rewrite (si_done _ _ _ Hi). apply bitmap_covers.
    by eapply lookup_lt_Some.
  - rewrite Hdl. apply (si_done _ _ _ Hi).
  - intros j Hj. apply elem_of_union in Hj as [Hj|Hj].
    + apply elem_of_singleton in Hj as ->. rewrite Hdg by done. by rewrite decide_True.
    + by apply Hmark, (si_tried _ _ _ Hi).
  - intros b f' Hsn Hs Hb Hf' j x Hj Hjb. rewrite (si_name _ _ _ Hi), lookup_insert_eq in Hf'. injection Hf' as <-.
    rewrite (contents_Some _ _ _ Hfile), (place_write f k c j x Hfl Hc Hj). case_decide; [done|].
    rewrite (si_name _ _ _ Hi), lookup_insert_ne in Hs by (apply not_eq_sym, (si_names _ _ _ Hi)).
    by apply (si_saved _ _ _ Hi b f Hsn Hs Hb Hfile j).
Qed.

Lemma load_all_spec name opt : forall ks w,
  sinv name opt w -> (forall k, k ∈ ks -> (k < length (Chunks i))%nat) ->
  exists e w', load_all ks w = (Ok e, w') /\
    match e with
    | None => sinv name opt w' /\ (forall k, k ∈ ks -> bm_Get (ldone (ld w')) k = Ok true) /\
        forall j, bm_Get (ldone (ld w)) j = Ok true -> bm_Get (ldone (ld w')) j = Ok true
    | Some _ => may_fail
    end.
Proof using Hdesc Hserves.
  induction ks as [|k ks IH]; intros w Hi Hks; cbn [load_all].
  - exists None, w. split; [done|]. split; [done|]. split; [|done]. by intros k Hk%elem_of_nil.
  - destruct (loadChunk_spec name opt w k Hi) as ([e|] & w1 & -> & H1).
    + apply Hks, elem_of_cons. by left.
    + by eexists _, _.
    + destruct H1 as (Hi1 & Hk1 & Hm1). destruct (IH w1 Hi1) as ([e|] & w2 & -> & H2).
      * intros j Hj. apply Hks, elem_of_cons. by right.
      * by eexists _, _.
      * destruct H2 as (Hi2 & Hk2 & Hm2). exists None, w2. split; [done|]. split; [done|]. split.
        -- intros j Hj. apply elem_of_cons in Hj as [->|Hj]; auto.
        -- auto.
Qed.

(** ** The chunks of a range *)

Lemma last_chunk_spec e : forall cs k,
  exists m, last_chunk cs e k = (k + m)%nat /\ (m <= length cs)%nat /\
    forall j, (j < length cs)%nat -> (forall a d, (a <= j)%nat -> cs !! a = Some d -> Start d <= e) -> (j < m)%nat.
Proof using Type.
  clear. induction cs as [|c cs IH]; intros k; cbn [last_chunk].
  - exists 0%nat. cbn. repeat split; lia.
  - case_decide as He.
    + exists 0%nat. split; [lia|]. split; [lia|]. intros j _ Hall. specialize (Hall 0%nat c ltac:(lia) eq_refl). lia.
    + destruct (IH (S k)) as (m & -> & Hm & Hj). exists (S m). split; [lia|]. split; [cbn; lia|].
      intros [|j] Hl Hall; [lia|]. cbn in Hl. specialize (Hj j ltac:(lia)). 
      apply -> Nat.succ_lt_mono. apply Hj. intros a d Ha Hd. apply (Hall (S a) d); [lia|done].
Qed.

Lemma indexRange_spec l start len :
  lchunks l = Chunks i -> is_i64 start -> is_i64 (start + len) -> 0 <= len -> (0 < len \/ start < Z.of_nat (length T)) ->
  exists a b, indexRange l start len = (Z.of_nat a, Z.of_nat b) /\ (a <= b < length (Chunks i))%nat /\
    (0 <= start -> forall k c, Chunks i !! k = Some c -> Start c < start + len -> start < Start c + CSize c ->
      (a <= k <= b)%nat).
Proof using Hdesc.
  clear Hserves. intros El Hs Hsl Hlen Hcase. unfold indexRange. rewrite El.
  set (n := length (Chunks i)). pose proof (de_size _ _ Hdesc).
  assert (Hne : (0 < n)%nat).
  { pose proof (de_some _ _ Hdesc). unfold n. destruct (Chunks i); [done|cbn; lia]. }
  assert (Hends : forall k c, Chunks i !! k = Some c ->
    chunk_ends_after (Chunks i) start k = bool_decide (start < Start c + CSize c)).
  { intros k c Hk. unfold chunk_ends_after. rewrite Hk. destruct (describes_range _ _ _ _ Hdesc Hk) as (? & ? & ?).
    by rewrite u64_small, i64_small by mach_lia. }
  destruct (Search_spec n (chunk_ends_after (Chunks i) start)) as (Hn & Hlow & Hhigh);
    [intros a b; by apply (chunk_ends_after_mono i T)|].
  set (f := Search n _) in *.
  assert (Hfirst : forall k c, Chunks i !! k = Some c -> start < Start c + CSize c -> (f <= k)%nat).
  { intros k c Hk Hin. destruct (decide (f <= k)%nat); [done|]. specialize (Hlow k ltac:(lia)).
    rewrite (Hends k c Hk) in Hlow. apply bool_decide_eq_false in Hlow. lia. }
  assert (Hlast : start < Z.of_nat (length T) -> (f < n)%nat).
  { intros Hlt. destruct (last (Chunks i)) as [c|] eqn:Hl; [|apply last_None in Hl; by destruct (de_some _ _ Hdesc)].
    pose proof (de_last _ _ Hdesc c Hl). rewrite last_lookup in Hl. fold n in Hl.
    pose proof (Hfirst _ _ Hl ltac:(lia)). lia. }
  destruct (decide (len < 1)) as [Hl0|Hl1].
  { specialize (Hlast ltac:(lia)). exists f, f. split; [done|]. split; [lia|]. intros _ k c Hk Hke Hks.
    pose proof (Hfirst k c Hk Hks). destruct (decide (k = f)); [lia|].
    destruct (lookup_lt_is_Some_2 (Chunks i) f Hlast) as [d Hd].
    pose proof (describes_mono _ _ _ _ _ _ Hdesc Hd Hk ltac:(lia)).
    specialize (Hhigh Hlast). rewrite (Hends f d Hd) in Hhigh. apply bool_decide_eq_true in Hhigh. lia. }
  destruct (decide (n <= f)%nat) as [Hend|Hin].
  { exists (n - 1)%nat, (n - 1)%nat. split; [f_equal; lia|]. split; [lia|]. intros _ k c Hk _ Hke.
    pose proof (Hfirst k c Hk Hke). apply lookup_lt_Some in Hk. fold n in Hk. lia. }
  destruct (last_chunk_spec (u64 (start + len - 1)) (drop (S f) (Chunks i)) f) as (m & -> & Hm & Hj).
  rewrite length_drop in Hm, Hj. fold n in Hm, Hj.
  exists f, (f + m)%nat. split; [done|]. split; [lia|]. intros Hs0 k c Hk Hke Hks.
  pose proof (Hfirst k c Hk Hks). split; [done|]. pose proof (lookup_lt_Some _ _ _ Hk) as Hkn. fold n in Hkn.
  destruct (decide (k = f)); [lia|]. assert (k - S f < m)%nat; [|lia]. apply Hj; [lia|].
  intros a d Ha Hd. rewrite lookup_drop in Hd. rewrite u64_small by mach_lia.
  destruct (decide (S f + a = k)%nat) as [E|]; [rewrite E in Hd; rewrite Hk in Hd; injection Hd as <-; lia|].
  pose proof (describes_mono _ _ _ _ _ _ Hdesc Hd Hk ltac:(lia)).
  destruct (describes_range _ _ _ _ Hdesc Hd) as (? & ? & ?). lia.
Qed.

Lemma chunks_needed_spec name opt w : sinv name opt w -> forall n k,
  (k + n <= length (Chunks i))%nat ->
  exists l, chunks_needed (ld w) n (Z.of_nat k) = Ok l /\ (forall j, j ∈ l -> (j < length (Chunks i))%nat) /\
    forall j c, (k <= j < k + n)%nat -> Chunks i !! j = Some c ->
      j ∈ l \/ bm_Get (ldone (ld w)) j = Ok true \/ ID c = nID (lnull (ld w)).
Proof using Type.
  intros Hi. induction n as [|n IH]; intros k Hk; cbn [chunks_needed].
  - exists []. split; [done|]. split; [by intros j Hj%elem_of_nil|]. intros. lia.
  - rewrite decide_False, Nat2Z.id by lia. replace (Z.of_nat k + 1) with (Z.of_nat (S k)) by lia.
    destruct (IH (S k) ltac:(lia)) as (l & El & Hl & Hin).
    destruct (bm_Get_ok name opt w k Hi ltac:(lia)) as (b & Hb). rewrite Hb, El. cbn [mbind outcome_bind]. destruct b.
    + exists l. split; [done|]. split; [done|]. intros j c Hj Hc.
      destruct (decide (j = k)) as [->|]; [by right; left|]. apply Hin; [lia|done].
    + rewrite (si_chunks _ _ _ Hi). destruct (lookup_lt_is_Some_2 (Chunks i) k ltac:(lia)) as [c Hc]. rewrite Hc.
      eexists. split; [done|]. case_decide as Hn.
      * split; [done|]. intros j c' Hj Hc'. destruct (decide (j = k)) as [->|]; [|apply Hin; [lia|done]].
        rewrite Hc in Hc'. injection Hc' as <-. by right; right.
      * split; [intros j [->|Hj]%elem_of_cons; [lia|auto]|]. intros j c' Hj Hc'.
        destruct (decide (j = k)) as [->|]; [left; apply elem_of_cons; by left|].
        destruct (Hin j c' ltac:(lia) Hc') as [|]; [left; apply elem_of_cons; by right|by right].
Qed.

Lemma rng_by_places f a n :
  length f = length T ->
  (forall k c, Chunks i !! k = Some c -> Start c < Z.of_nat a + Z.of_nat n -> Z.of_nat a < Start c + CSize c ->
    place f c = place T c) ->
  rng f a n = rng T a n.
Proof using Hdesc.
  clear Hserves. intros Hl Hp. apply list_eq. intros j. unfold rng.
  destruct (decide (j < n)%nat) as [Hj|Hj]; [|by rewrite !lookup_take_ge by lia].
  rewrite !lookup_take_lt, !lookup_drop by lia.
  destruct (decide (a + j < length T)%nat) as [Hin|]; [|by rewrite !lookup_ge_None_2 by lia].
  pose proof (de_size _ _ Hdesc).
  destruct (Search_chunk i T (Z.of_nat (a + j)) Hdesc ltac:(lia) ltac:(mach_lia)) as (c & Hc & Hs & He & Hend).
  set (k := if decide (length (Chunks i) <= _)%nat then pred _ else _) in *.
  destruct (describes_range _ _ _ _ Hdesc Hc) as (? & ? & ?).
  assert (Hlt : Z.of_nat (a + j) < Start c + CSize c).
  { destruct Hend as [|Hk]; [done|]. rewrite Hk, <- last_lookup in Hc. rewrite (de_last _ _ Hdesc c Hc). lia. }
  pose proof (Hp k c Hc ltac:(lia) ltac:(lia)) as E.
  apply (f_equal (fun l => l !! (a + j - Z.to_nat (Start c))%nat)) in E. unfold place, rng in E.
  rewrite !lookup_take_lt, !lookup_drop in E by lia.
  by replace (Z.to_nat (Start c) + (a + j - Z.to_nat (Start c)))%nat with (a + j)%nat in E by lia.
Qed.

(** ** Every operation keeps what the loader knows *)

Context (name : bytes) (opt : SparseFileOptions).

Lemma ReadAt_spec w n offset :
  sinv name opt w -> is_i64 offset -> is_i64 (offset + Z.of_nat n) ->
  ((0 < n)%nat \/ offset < Z.of_nat (length T)) ->
  exists r w', ReadAt n offset w = (Ok r, w') /\
    ((sinv name opt w' /\ r = file_ReadAt T n offset) \/ (may_fail /\ exists e, r = ([], Some e))).
Proof using Hdesc Hserves.
  intros Hi Ho Hon Hcase. unfold ReadAt, loadRange.
  destruct (indexRange_spec (ld w) offset (Z.of_nat n)) as (a & b & -> & Hab & Hrange);
    [apply Hi|done|done|lia|lia|].
  replace (Z.to_nat (Z.of_nat b - Z.of_nat a + 1)) with (S b - a)%nat by lia.
  destruct (chunks_needed_spec name opt w Hi (S b - a) a ltac:(lia)) as (l & -> & Hl & Hneed).
  destruct (load_all_spec name opt l w Hi Hl) as ([e|] & w' & -> & Hw').
  { eexists _, _. split; [done|]. right. split; [done|]. by exists e. }
  destruct Hw' as (Hi' & Hdone & Hmono). eexists _, w'. split; [done|]. left. split; [done|].
  destruct (si_file _ _ _ Hi') as (f & Hf & Hfl & Hgood).
  rewrite (si_name _ _ _ Hi'), (contents_Some _ _ _ Hf). unfold file_ReadAt.
  case_decide as Hneg; [done|].
  assert (E : rng f (Z.to_nat offset) n = rng T (Z.to_nat offset) n).
  { apply rng_by_places; [done|]. intros k c Hk Hs He. apply (Hgood k c Hk).
    assert (Hkr : (a <= k <= b)%nat) by (apply (Hrange ltac:(lia) k c Hk); lia).
    destruct (Hneed k c ltac:(lia) Hk) as [Hin|[Hd|Hn]]; [left; auto|left; auto|right].
    pose proof (si_null _ _ _ Hi) as E1. pose proof (si_null _ _ _ Hi') as E2. rewrite E1 in E2.
    injection E2 as E2. by rewrite <- E2. }
  by rewrite E.
Qed.

(** Marked chunks of a saved state that fits are in the file: restored, they make a good loader; so
    does an empty bitmap. *)
Lemma fresh_sinv w f d nc :
  StateSaveFile opt <> name -> files w !! name = Some f -> length f = length T ->
  ld w = mkLoader name d ∅ (Chunks i) nc -> NewNullChunk (ChunkSizeMax i) = Ok nc ->
  length d = bitmap_bytes (length (Chunks i)) ->
  (forall k c, Chunks i !! k = Some c -> bm_Get d k = Ok true \/ ID c = nID nc -> place f c = place T c) ->
  (forall b, StateSaveFile opt <> [] -> files w !! StateSaveFile opt = Some b ->
    length b = bitmap_bytes (length (Chunks i)) ->
    forall k c, Chunks i !! k = Some c -> bm_Get b k = Ok true -> place f c = place T c) ->
  sinv name opt w.
Proof using Type.
  clear. intros Hn Hf Hl El Hnc Hd Hgood Hsaved. split; rewrite ?El; cbn; try done.
  - by exists f.
  - intros b f' Hsn Hb Hbl Hf'. rewrite Hf in Hf'. injection Hf' as <-. by apply Hsaved.
Qed.

Lemma NewSparseFile_restart w :
  sinv name opt w ->
  exists r fs, NewSparseFile name i opt (files w) = (r, fs) /\
    match r with
    | Ok (sf, _) => sinv name opt (mkSW fs (loader sf) (world w))
    | Err _ => StateInitFile opt <> []
    | _ => False
    end.
Proof using Hdesc.
  clear Hserves. intros Hi. destruct (si_file _ _ _ Hi) as (f & Hf & Hfl & Hgood).
  unfold NewSparseFile. rewrite decide_False by (by rewrite Hf). unfold newSparseFileLoader.
  rewrite (si_null _ _ _ Hi). cbn [mbind outcome_bind].
  rewrite (contents_Some _ _ _ Hf), Hfl, (describes_Length _ _ Hdesc), bool_decide_true by done. cbn [andb].
  set (l := mkLoader name (bm_New (length (Chunks i))) ∅ (Chunks i) (lnull (ld w))).
  assert (Hnew : sinv name opt (mkSW (files w) l (world w))).
  { apply (fresh_sinv _ f (bm_New (length (Chunks i))) (lnull (ld w))); cbn; try done; try apply Hi.
    - apply bm_New_length.
    - intros k c Hk [Hd|Hn]; [|apply (Hgood k c Hk); by right].
      rewrite bm_Get_New in Hd by (apply bitmap_covers; by eapply lookup_lt_Some). done.
    - intros b Hs Hb Hbl. by apply (si_saved _ _ _ Hi b f Hs Hb Hbl Hf). }
  assert (Hrest : exists r fs,
    (if decide (Z.of_nat (length T) < 0) then (Err (Errorf "truncate: invalid argument"), files w)
     else
        let fs := <[name := truncate f (Z.to_nat (Z.of_nat (length T)))]> (files w) in
        if decide (StateInitFile opt = []) then (Ok (mkSparseFile name i opt l, []), fs)
        else
          match fs !! StateInitFile opt with
          | None => (Err ErrNotExist, fs)
          | Some b => (ks ← preload l b; Ok (mkSparseFile name i opt l, ks), fs)
          end) = (r, fs) /\
    match r with
    | Ok (sf, _) => sinv name opt (mkSW fs (loader sf) (world w))
    | Err _ => StateInitFile opt <> []
    | _ => False
    end).
  { rewrite decide_False by lia.
    assert (E : <[name := truncate f (Z.to_nat (Z.of_nat (length T)))]> (files w) = files w).
    { apply insert_id. rewrite Hf. f_equal. unfold truncate. rewrite Nat2Z.id, <- Hfl, take_ge, Nat.sub_diag by lia.
      by rewrite app_nil_r. }
    cbv zeta. rewrite E. case_decide as Hini; [by eexists _, _|].
    destruct (files w !! StateInitFile opt) as [b|]; [|by eexists _, _].
    eexists _, _. split; [done|]. unfold preload, stateFromReader. by case_decide. }
  destruct (bool_decide (StateSaveFile opt <> [])) eqn:Hsn; [|exact Hrest].
  apply bool_decide_eq_true in Hsn.
  destruct (files w !! StateSaveFile opt) as [b|] eqn:Hb; [|exact Hrest].
  unfold loadState, stateFromReader. cbn [lchunks l].
  destruct (decide (_ \/ _)) as [Hbad|Hbad]; cbn [mbind outcome_bind]; [exact Hrest|].
  eexists _, _. split; [done|]. cbn.
  assert (Hbl : length b = bitmap_bytes (length (Chunks i))) by by apply fits_length.
  apply (fresh_sinv _ f b (lnull (ld w))); cbn; try done; try apply Hi.
  - intros k c Hk [Hd|Hn]; [|apply (Hgood k c Hk); by right].
    by apply (si_saved _ _ _ Hi b f Hsn Hb Hbl Hf k).
  - intros b' Hs Hb' Hbl'. by apply (si_saved _ _ _ Hi b' f Hs Hb' Hbl' Hf).
Qed.

Lemma WriteState_spec w :
  sinv name opt w -> exists e w', WriteState opt w = (e, w') /\ sinv name opt w'.
Proof using Type.
  intros Hi. unfold WriteState. case_decide as Hsn; [by eexists _, _|].
  destruct (si_file _ _ _ Hi) as (f & Hf & Hfl & Hgood).
  assert (Hkeep : forall d x, (length d = bitmap_bytes (length (Chunks i)) -> d = ldone (ld w)) ->
    sinv name opt (mkSW (<[StateSaveFile opt := d]> (files w)) (ld w) x)).
  { intros d x Hd. split; cbn; try apply Hi.
    - exists f. rewrite lookup_insert_ne by apply (si_names _ _ _ Hi). done.
    - intros b f' _ Hb Hbl Hf'. rewrite lookup_insert_eq in Hb. injection Hb as <-.
      rewrite lookup_insert_ne, Hf in Hf' by apply (si_names _ _ _ Hi). injection Hf' as <-.
      rewrite (Hd Hbl). intros k c Hk Hg. apply (Hgood k c Hk). by left. }
  destruct (disk (world w)) as [[[n e]|] x]; eexists _, _; (split; [done|]); apply Hkeep; [|done].
  intros Hl. apply take_ge. rewrite length_take in Hl. pose proof (si_done _ _ _ Hi). lia.
Qed.

(** ** Histories *)

(** A read of no bytes at the end of the file is outside the index. *)
Definition op_ok (o : op) : Prop :=
  match o with
  | SRead n offset =>
    is_i64 offset /\ is_i64 (offset + Z.of_nat n) /\ ((0 < n)%nat \/ offset < Z.of_nat (length T))
  | SPreload k => (k < length (Chunks i))%nat
  | _ => True
  end.

(** Until a load or a restart fails, and reports it, every read is the read of the file. *)
Inductive sparse_trace : list op -> list result -> Prop :=
| st_nil : sparse_trace [] []
| st_read n offset b e os rs :
    (b, e) = file_ReadAt T n offset -> sparse_trace os rs ->
    sparse_trace (SRead n offset :: os) (SBytes b e :: rs)
| st_load k os rs : sparse_trace os rs -> sparse_trace (SPreload k :: os) (SLoaded None :: rs)
| st_save e os rs : sparse_trace os rs -> sparse_trace (SSave :: os) (SDone e :: rs)
| st_restart os rs : sparse_trace os rs -> sparse_trace (SRestart :: os) (SDone None :: rs)
| st_read_failed n offset e os r : may_fail -> sparse_trace (SRead n offset :: os) (SBytes [] (Some e) :: r)
| st_load_failed k e os r : may_fail -> sparse_trace (SPreload k :: os) (SLoaded (Some e) :: r)
| st_restart_failed e os r : StateInitFile opt <> [] -> sparse_trace (SRestart :: os) (SDone (Some e) :: r).

(** Also after a failed load no operation panics. *)
Record winv (w : SW) : Prop := {
  wi_chunks : lchunks (ld w) = Chunks i;
  wi_done : length (ldone (ld w)) = bitmap_bytes (length (Chunks i))
}.

Lemma sinv_winv w : sinv name opt w -> winv w.
Proof using Type. intros Hi. split; apply Hi. Qed.

Lemma loadChunk_total w k :
  winv w -> (k < length (Chunks i))%nat -> exists e w', loadChunk k w = (Ok e, w') /\ winv w'.
Proof using Hdesc Hserves.
  intros Hi Hk. unfold loadChunk. rewrite (wi_chunks _ Hi).
  destruct (lookup_lt_is_Some_2 _ _ Hk) as [c Hc]. rewrite Hc. case_decide; [by eexists _, _|].
  unfold load_once. destruct (fetch s (ID c) (world w)) as [r w1] eqn:Hf.
  pose proof (Hserves c _ _ _ (list_elem_of_lookup_2 _ _ _ Hc) Hf) as Hr.
  assert (Hkeep : forall fs x, winv (mkSW fs (mkLoader (lname (ld w)) (ldone (ld w)) ({[k]} ∪ tried (ld w))
    (lchunks (ld w)) (lnull (ld w))) x)) by (intros; split; apply Hi).
  destruct r as [b|e| |]; try done; [|by eexists _, _].
  destruct (disk w1) as [[[n e]|] w2]; [by eexists _, _|]. case_decide; [by eexists _, _|]. cbn [ldone].
  destruct (bm_Set_spec (ldone (ld w)) k true) as (d & -> & Hdl & _).
  { rewrite (wi_done _ Hi). by apply bitmap_covers. }
  eexists _, _. split; [done|]. split; cbn; [apply Hi|]. rewrite Hdl. apply Hi.
Qed.

Lemma load_all_total : forall ks w,
  winv w -> (forall k, k ∈ ks -> (k < length (Chunks i))%nat) -> exists e w', load_all ks w = (Ok e, w') /\ winv w'.
Proof using Hdesc Hserves.
  induction ks as [|k ks IH]; intros w Hi Hks; cbn [load_all]; [by eexists _, _|].
  destruct (loadChunk_total w k Hi) as ([e|] & w1 & -> & Hi1); [apply Hks, elem_of_cons; by left|by eexists _, _|].
  apply IH; [done|]. intros j Hj. apply Hks, elem_of_cons. by right.
Qed.

Lemma chunks_needed_total w : winv w -> forall n k,
  (k + n <= length (Chunks i))%nat ->
  exists l, chunks_needed (ld w) n (Z.of_nat k) = Ok l /\ forall j, j ∈ l -> (j < length (Chunks i))%nat.
Proof using Type.
  intros Hi. induction n as [|n IH]; intros k Hk; cbn [chunks_needed].
  - exists []. split; [done|]. by intros j Hj%elem_of_nil.
  - rewrite decide_False, Nat2Z.id by lia. replace (Z.of_nat k + 1) with (Z.of_nat (S k)) by lia.
    destruct (IH (S k) ltac:(lia)) as (l & El & Hl). rewrite El.
    pose proof (bm_Get_range (ldone (ld w)) k) as Hr.
    rewrite (wi_done _ Hi), decide_True in Hr by (apply bitmap_covers; lia).
    destruct (bm_Get _ _) as [[]| | |]; try done; cbn [mbind outcome_bind]; [by exists l|].
    rewrite (wi_chunks _ Hi). destruct (lookup_lt_is_Some_2 (Chunks i) k ltac:(lia)) as [c ->].
    eexists. split; [done|]. case_decide; [done|]. intros j [->|Hj]%elem_of_cons; [lia|auto].
Qed.

Lemma do_op_total w o : winv w -> op_ok o -> is_ok (NewNullChunk (ChunkSizeMax i)) = true ->
  exists r w', do_op name i opt o w = (Ok r, w') /\ winv w'.
Proof using Hdesc Hserves.
  intros Hi Ho Hnull. destruct o as [n offset|k| |]; cbn [do_op].
  - destruct Ho as (? & ? & ?). unfold ReadAt, loadRange.
    destruct (indexRange_spec (ld w) offset (Z.of_nat n)) as (a & b & -> & Hab & _);
      [apply Hi|done|done|lia|lia|].
    destruct (chunks_needed_total w Hi (Z.to_nat (Z.of_nat b - Z.of_nat a + 1)) a ltac:(lia)) as (l & -> & Hl).
    destruct (load_all_total l w Hi Hl) as ([e|] & w' & -> & Hw'); cbn; [by eexists _, _|].
    destruct (file_ReadAt _ _ _). cbn. by eexists _, _.
  - destruct (loadChunk_total w k Hi Ho) as (e & w' & -> & ?). cbn. by eexists _, _.
  - unfold WriteState. case_decide; [by eexists _, _|].
    destruct (disk (world w)) as [[[n e]|] x]; eexists _, _; (split; [done|]); split; apply Hi.
  - unfold NewSparseFile, newSparseFileLoader. destruct (NewNullChunk _) as [nc| | |]; try done.
    cbn [mbind outcome_bind]. set (fs := if decide _ then _ else _).
    set (l := mkLoader name (bm_New (length (Chunks i))) ∅ (Chunks i) nc).
    assert (Hl : forall fs x, winv (mkSW fs l x)) by (intros; split; [done|apply bm_New_length]).
    set (restored := if _ && _ then _ else _).
    assert (Hres : forall l', restored = Some l' -> forall fs x, winv (mkSW fs l' x)).
    { unfold restored. intros l' E. destruct (_ && _); [|done]. destruct (fs !! StateSaveFile opt) as [b|]; [|done].
      unfold loadState, stateFromReader in E. cbn [lchunks l] in E.
      destruct (decide (_ \/ _)) as [|Hfit]; cbn in E; [done|]. injection E as <-.
      intros. split; cbn; [done|]. by apply fits_length. }
    destruct restored as [l'|]; [eexists _, _; split; [done|by apply Hres]|].
    rewrite (describes_Length _ _ Hdesc), decide_False by lia.
    case_decide; [by eexists _, _|]. destruct (_ !! StateInitFile opt) as [b|]; [|eexists _, _; split; [done|split; apply Hi]].
    unfold preload, stateFromReader. cbn [lchunks l].
    destruct (decide (_ \/ _)); cbn; eexists _, _; (split; [done|]); [split; apply Hi|done].
Qed.

Lemma run_ops_total os : forall w, winv w -> Forall op_ok os -> is_ok (NewNullChunk (ChunkSizeMax i)) = true ->
  exists rs w', run_ops name i opt os w = (Ok rs, w').
Proof using Hdesc Hserves.
  induction os as [|o os IH]; intros w Hi Hos Hn; cbn [run_ops]; [by eexists _, _|].
  apply Forall_cons in Hos as [Ho Hos]. destruct (do_op_total w o Hi Ho Hn) as (r & w1 & -> & Hi1).
  destruct (IH w1 Hi1 Hos Hn) as (rs & w2 & ->). by eexists _, _.
Qed.

Lemma run_ops_spec os : forall w,
  sinv name opt w -> Forall op_ok os ->
  exists rs w', run_ops name i opt os w = (Ok rs, w') /\ sparse_trace os rs.
Proof using Hdesc Hserves.
  induction os as [|o os IH]; intros w Hi Hos; [eexists _, _; split; [done|constructor]|].
  apply Forall_cons in Hos as [Ho Hos].
  assert (Hn : is_ok (NewNullChunk (ChunkSizeMax i)) = true) by by rewrite (si_null _ _ _ Hi).
  destruct (do_op_total w o (sinv_winv w Hi) Ho Hn) as (r & w1 & Eo & Hi1).
  assert (Hgo : sinv name opt w1 -> (forall rs, sparse_trace os rs -> sparse_trace (o :: os) (r :: rs)) ->
    exists rs w', run_ops name i opt (o :: os) w = (Ok rs, w') /\ sparse_trace (o :: os) rs).
  { intros Hs Htr. cbn [run_ops]. rewrite Eo. destruct (IH w1 Hs Hos) as (rs & w2 & -> & ?).
    eexists _, _. split; [done|]. by apply Htr. }
  assert (Hstop : (forall rs, sparse_trace (o :: os) (r :: rs)) ->
    exists rs w', run_ops name i opt (o :: os) w = (Ok rs, w') /\ sparse_trace (o :: os) rs).
  { intros Htr. cbn [run_ops]. rewrite Eo. destruct (run_ops_total os w1 Hi1 Hos Hn) as (rs & w2 & ->).
    eexists _, _. split; [done|]. by apply Htr. }
  destruct o as [n offset|k| |]; cbn [do_op] in Eo.
  - destruct Ho as (Ho1 & Ho2 & Ho3). destruct (ReadAt_spec w n offset Hi Ho1 Ho2 Ho3) as ([b e] & w' & Er & Hr).
    rewrite Er in Eo. cbn in Eo. injection Eo as <- <-. destruct Hr as [[Hs Hr]|[Hf [e' [= -> ->]]]].
    + apply Hgo; [done|]. intros rs. by constructor.
    + apply Hstop. intros rs. by constructor.
  - destruct (loadChunk_spec name opt w k Hi Ho) as (e & w' & Er & Hr).
    rewrite Er in Eo. cbn in Eo. injection Eo as <- <-. destruct e as [e|].
    + apply Hstop. intros rs. by constructor.
    + apply Hgo; [apply Hr|]. intros rs. by constructor.
  - destruct (WriteState_spec w Hi) as (e & w' & Er & Hr). rewrite Er in Eo. injection Eo as <- <-.
    apply Hgo; [done|]. intros rs. by constructor.
  - destruct (NewSparseFile_restart w Hi) as (r0 & fs & Er & Hr). rewrite Er in Eo.
    destruct r0 as [[sf ks]|e| |]; try done; injection Eo as <- <-.
    + apply Hgo; [done|]. intros rs. by constructor.
    + apply Hstop. intros rs. by constructor.
Qed.

Lemma NewSparseFile_fresh fs sf ks fs' w :
  NewSparseFile name i opt fs = (Ok (sf, ks), fs') -> fs !! name = None \/ fs !! name = Some [] ->
  StateSaveFile opt <> name -> fs !! StateSaveFile opt = None ->
  (forall nc, NewNullChunk (ChunkSizeMax i) = Ok nc -> null_zeros nc) ->
  sinv name opt (mkSW fs' (loader sf) w).
Proof using Hdesc.
  clear Hserves. intros Hnew Hfs Hn Hsv Hz. unfold NewSparseFile in Hnew.
  set (fs0 := if decide _ then _ else _) in Hnew.
  assert (Hf0 : fs0 !! name = Some []).
  { unfold fs0. destruct Hfs as [E|E]; rewrite E; [rewrite decide_True by done; by rewrite lookup_insert_eq|].
    by rewrite decide_False. }
  assert (Hs0 : fs0 !! StateSaveFile opt = None).
  { unfold fs0. destruct (decide (fs !! name = None)); [|done]. by rewrite lookup_insert_ne by (by apply not_eq_sym). }
  unfold newSparseFileLoader in Hnew. destruct (NewNullChunk _) as [nc| | |] eqn:Hnc; try done.
  cbn [mbind outcome_bind] in Hnew. rewrite (contents_Some _ _ _ Hf0), (describes_Length _ _ Hdesc) in Hnew.
  assert (HT : (0 < length T)%nat).
  { pose proof (de_some _ _ Hdesc). destruct (Chunks i) as [|c cs] eqn:Ec; [done|].
    assert (Hc : Chunks i !! 0%nat = Some c) by by rewrite Ec.
    destruct (describes_range _ _ _ _ Hdesc Hc) as (? & ? & ?). lia. }
  rewrite bool_decide_false in Hnew by (cbn; lia). cbn [andb] in Hnew.
  rewrite decide_False, Nat2Z.id in Hnew by lia.
  set (l := mkLoader name (bm_New (length (Chunks i))) ∅ (Chunks i) nc) in *.
  set (fs1 := <[name := truncate [] (length T)]> fs0) in *.
  assert (Hfresh : sinv name opt (mkSW fs1 l w)).
  { apply (fresh_sinv _ (replicate (length T) Byte.x00) (bm_New (length (Chunks i))) nc); try done.
    - cbn. unfold fs1. rewrite lookup_insert_eq. unfold truncate. by rewrite take_nil, Nat.sub_0_r.
    - by rewrite length_replicate.
    - apply bm_New_length.
    - intros k c Hk [Hd|Hnull].
      + rewrite bm_Get_New in Hd by (apply bitmap_covers; by eapply lookup_lt_Some). done.
      + rewrite (Hz nc eq_refl c (list_elem_of_lookup_2 _ _ _ Hk) Hnull).
        destruct (describes_range _ _ _ _ Hdesc Hk) as (? & ? & ?). unfold place, rng.
        rewrite drop_replicate, take_replicate. f_equal. lia.
    - cbn. intros b _ Hb. unfold fs1 in Hb. by rewrite lookup_insert_ne, Hs0 in Hb by (by apply not_eq_sym). }
  destruct (decide (StateInitFile opt = [])); [by injection Hnew as <- _ <-|].
  destruct (fs1 !! StateInitFile opt) as [b|]; [|done].
  destruct (preload l b) as [ks'| | |]; try done. by injection Hnew as <- _ <-.
Qed.

(** C9. Reading a sparse file is reading the file of its index: from a new sparse file on, for every
    sequence of reads, background loads, saves of the state and restarts (with the last saved
    state, an older one, or none), every read returns the bytes and the end of file that a read
    of the complete file would, until a load fails; no operation panics. *)
Theorem sparse_file_reads os fs sf ks fs' w :
  NewSparseFile name i opt fs = (Ok (sf, ks), fs') -> fs !! name = None \/ fs !! name = Some [] ->
  StateSaveFile opt <> name -> fs !! StateSaveFile opt = None ->
  (forall nc, NewNullChunk (ChunkSizeMax i) = Ok nc -> null_zeros nc) ->
  Forall op_ok os ->
  exists rs w', run_ops name i opt os (mkSW fs' (loader sf) w) = (Ok rs, w') /\ sparse_trace os rs.
Proof using Hdesc Hserves.
  intros Hnew Hfs Hn Hsv Hz Hos. apply run_ops_spec; [|done]. by eapply NewSparseFile_fresh.
Qed.

End sparse.

(** ** Examples *)

#[local] Instance ex_codec_sp : Codec := toy_codec.

(** Two chunks and a null chunk between them. *)
Definition ex_sp_text : bytes := str "abcd" ++ replicate 4 Byte.x00 ++ str "xyz".

Definition ex_sp_idx : Index :=
  mkIndex (mkHeader 0 0) 0 1 2 4
    [mkIndexChunk (Sum (str "abcd")) 0 4; mkIndexChunk (Sum (replicate 4 Byte.x00)) 4 4;
     mkIndexChunk (Sum (str "xyz")) 8 3].

(** A store whose first [w] requests fail. *)
Definition ex_sp_get (j : ChunkID) (w : nat) : GetResult * nat :=
  match w with
  | S w => ((None, Some (Errorf "connection reset")), w)
  | O =>
    match list_find (fun c => ID c = j) (Chunks ex_sp_idx) with
    | Some (_, c) => ((Some (NewChunk (place ex_sp_text c)), None), O)
    | None => ((None, Some (ChunkMissing j)), O)
    end
  end.

Definition ex_sp_store : Store nat :=
  mkStore ex_sp_get (fun _ w => ((true, None), w)) None (fun w => (None, w)) (str "flaky").

Definition ex_disk (w : nat) : option (nat * error) * nat := (None, w).

Lemma ex_sp_describes : describes ex_sp_idx ex_sp_text.
Proof. apply contiguous_describes; try (vm_compute; done). repeat constructor. Qed.

Lemma ex_sp_serves : serves ex_sp_store ex_sp_idx ex_sp_text.
Proof.
  intros c w r w' Hc. cbn [Chunks ex_sp_idx] in Hc. destruct w as [|w].
  - repeat (apply elem_of_cons in Hc as [->|Hc]; [vm_compute; by intros [= <- _]|]). by apply elem_of_nil in Hc.
  - cbn. by intros [= <- _].
Qed.

Definition ex_opt : SparseFileOptions := mkSparseOptions (str "state") [].

Definition ex_name : bytes := str "cache".

Definition ex_file (fs : FS) : SparseFile :=
  match fst (NewSparseFile ex_name ex_sp_idx ex_opt fs) with
  | Ok (sf, _) => sf
  | _ => mkSparseFile [] ex_sp_idx ex_opt (mkLoader [] [] ∅ [] (mkNullChunk [] []))
  end.

Definition ex_loader (fs : FS) : sparseFileLoader := loader (ex_file fs).

Definition ex_fs (fs : FS) : FS := snd (NewSparseFile ex_name ex_sp_idx ex_opt fs).

Definition ex_start (w : nat) (fs : FS) : SW := mkSW (ex_fs fs) (ex_loader fs) w.

Lemma ex_sp_new : NewSparseFile ex_name ex_sp_idx ex_opt ∅ = (Ok (ex_file ∅, []), ex_fs ∅).
Proof.
  assert (E : match fst (NewSparseFile ex_name ex_sp_idx ex_opt ∅) with Ok (_, []) => true | _ => false end = true)
    by (vm_compute; reflexivity).
  unfold ex_file, ex_fs. by destruct (NewSparseFile ex_name ex_sp_idx ex_opt ∅) as [[[sf [|]]| | |] fs].
Qed.

Definition ex_history : list op := [SRead 4 2; SSave; SRead 2 8; SRestart; SRead 20 6; SRead 1 0].

Definition ex_reads : list result :=
  [SBytes (str "cd" ++ replicate 2 Byte.x00) None; SDone None; SBytes (str "xy") None; SDone None;
   SBytes (replicate 2 Byte.x00 ++ str "xyz") (Some ErrEOF); SBytes (str "a") None].

Lemma sparse_file_reads_witness :
  sparse_trace ex_sp_store ex_disk ex_sp_idx ex_sp_text ex_opt ex_history ex_reads.
Proof.
  destruct (sparse_file_reads ex_sp_store ex_disk ex_sp_idx ex_sp_text ex_sp_describes ex_sp_serves ex_name ex_opt
    ex_history ∅ _ _ _ 0%nat ex_sp_new) as (rs & w & Hr & Ht).
  - by left.
  - done.
  - done.
  - intros nc Hnc c Hc. vm_compute in Hnc. injection Hnc as <-. cbn [Chunks ex_sp_idx] in Hc.
    repeat (apply elem_of_cons in Hc as [->|Hc]; [vm_compute; done|]). by apply elem_of_nil in Hc.
  - repeat constructor; (vm_compute; done).
  - cbn [loader] in Hr. change (mkSW (ex_fs ∅) (loader (ex_file ∅)) 0%nat) with (ex_start 0 ∅) in Hr.
    assert (Er : fst (run_ops ex_sp_store ex_disk ex_name ex_sp_idx ex_opt ex_history (ex_start 0 ∅)) = Ok ex_reads)
      by (vm_compute; reflexivity).
    rewrite Hr in Er. cbn in Er. injection Er as ->. exact Ht.
Defined.

(** After a load that failed, its sync.Once never loads again: the next read of the chunk returns
    zeros, and no error. *)
Example failed_load_reads_zeros :
  fst (run_ops ex_sp_store ex_disk ex_name ex_sp_idx ex_opt [SRead 4 0; SRead 4 0] (ex_start 1 ∅)) =
  Ok [SBytes [] (Some (Errorf "connection reset")); SBytes (replicate 4 Byte.x00) None].
Proof. vm_compute. reflexivity. Qed.

(** A file that is there already is not blank: its contents are returned for the null chunks. *)
Example stale_contents_are_read :
  fst (run_ops ex_sp_store ex_disk ex_name ex_sp_idx ex_opt [SRead 11 0] (ex_start 0 {[ ex_name := str "OLDCONTENTS" ]})) =
  Ok [SBytes (str "abcdONTExyz") None].
Proof. vm_compute. reflexivity. Qed.

(** A read of no bytes at the end of the file is out of range. *)
Example empty_read_at_the_end_panics :
  fst (ReadAt ex_sp_store ex_disk 0 11 (ex_start 0 ∅)) = Panic.
Proof. vm_compute. reflexivity. Qed.
