(* ===== verification/Protocol.v ===== *)
(** * Protocol: the casync protocol over a pipe (protocol.go, protocolserver.go, remotessh.go)

    Messages with a length and a type; the client's requests and the server's loop. A peer is the
    bytes it still has to read and the writer it writes to, so both ends of a session are
    functions of what the other one sends; the session theorem ties the two ends together. Starting
    the ssh process and the pool of sessions are outside. *)

From S2P Require Import Prelude Format Index Chunk Names Stores.

(** ** Constants (const.go) *)

Definition CaProtocolHello : Z := 0x3c71d0948ca5fbee.
Definition CaProtocolRequest : Z := 0x8ab427e0f89d9210.
Definition CaProtocolChunk : Z := 0x5213dd180a84bc8c.
Definition CaProtocolMissing : Z := 0xd010f9fac82b7b6c.
Definition CaProtocolGoodbye : Z := 0xad205dbf1a3686c3.
Definition CaProtocolAbort : Z := 0xe7d9136b7efea352.
Definition CaProtocolReadableStore : Z := 0x1.
Definition CaProtocolPullChunks : Z := 0x40.
Definition CaProtocolRequestHighPriority : Z := 1.
Definition CaProtocolChunkCompressed : Z := 1.

(** ** Messages *)

Record Message := mkMessage { mType : Z; Body : bytes }.

Record Protocol := mkProtocol { p_in : bytes; p_out : Writer; initialized : bool }.

Definition NewProtocol (r : bytes) (w : Writer) : Protocol := mkProtocol r w false.

(** A Go method on a protocol handler: a result or an error, and the handler afterwards. *)
Definition pr (A : Type) : Type := Protocol -> outcome A * Protocol.

#[export] Instance pr_ret : MRet pr := fun A a p => (Ok a, p).
#[export] Instance pr_bind : MBind pr := fun A B f m p =>
  match m p with
  | (Ok a, p) => f a p
  | (Err e, p) => (Err e, p)
  | (Panic, p) => (Panic, p)
  | (NoFuel, p) => (NoFuel, p)
  end.

Section protocol.

Context `{Codec} (e_end : error).

Definition pr_fail {A} (e : error) : pr A := fun p => (Err e, p).

Definition check (b : bool) (msg : string) : pr unit := fun p =>
  if b then (Ok tt, p) else (Err (Errorf msg), p).

(** [if !p.initialized { return errors.New(..) }] *)
Definition need_initialized : pr unit := fun p => check (initialized p) "protocol not initialized" p.

(** [errors.Wrap] around the error of a call. *)
Definition wrapping {A} (msg : string) (m : pr A) : pr A := fun p =>
  match m p with (Err e, p) => (Err (Wrapped e msg), p) | r => r end.

Definition message_bytes (m : Message) : bytes :=
  PutUint64 (16 + Z.of_nat (length (Body m))) ++ PutUint64 (mType m) ++ Body m.

Definition WriteMessage (m : Message) : pr unit := fun p =>
  match Format.Copy (message_bytes m, None) (p_out p) with
  | (_, Some e, w) => (Err e, mkProtocol (p_in p) w (initialized p))
  | (_, None, w) => (Ok tt, mkProtocol (p_in p) w (initialized p))
  end.

Definition read_message : rd Message :=
  len ← ReadUint64 e_end;
  if decide (len < 16) then rd_err (Errorf "message length too short")
  else
    b ← ReadN e_end (len - 8);
    mret (mkMessage (Uint64 (take 8 b)) (drop 8 b)).

Definition ReadMessage : pr Message := fun p =>
  let '(r, s) := read_message (p_in p) in (r, mkProtocol s (p_out p) (initialized p)).

(** ** The handshake *)

Definition SendHello (flags : Z) : pr unit := WriteMessage (mkMessage CaProtocolHello (PutUint64 flags)).

Definition RecvHello : pr Z :=
  m ← ReadMessage;
  if decide (mType m <> CaProtocolHello) then pr_fail (Errorf "expected protocol hello")
  else if decide (length (Body m) <> 8%nat) then pr_fail (Errorf "unexpected length of hello msg")
  else mret (Uint64 (Body m)).

(** Both directions at once: one goroutine writes and the other one reads, and the error of the
    writer comes first. *)
Definition Initialize (flags : Z) : pr Z := fun p =>
  let '(sendErr, p) := SendHello flags p in
  let '(recv, p) := RecvHello p in
  match sendErr, recv with
  | Err e, (Ok _ | Err _) => (Err e, p)
  | Ok _, Ok f => (Ok f, mkProtocol (p_in p) (p_out p) true)
  | Ok _, Err e => (Err e, p)
  | Panic, _ | _, Panic => (Panic, p)
  | NoFuel, _ | _, NoFuel => (NoFuel, p)
  end.

(** ** Requests and responses *)

Definition SendProtocolRequest (i : ChunkID) (flags : Z) : pr unit :=
  _ ← need_initialized; WriteMessage (mkMessage CaProtocolRequest (PutUint64 flags ++ i)).

Definition SendProtocolChunk (i : ChunkID) (flags : Z) (chunk : bytes) : pr unit :=
  _ ← need_initialized; WriteMessage (mkMessage CaProtocolChunk (PutUint64 flags ++ i ++ chunk)).

Definition SendMissing (i : ChunkID) : pr unit :=
  _ ← need_initialized; WriteMessage (mkMessage CaProtocolMissing i).

Definition SendGoodbye : pr unit :=
  _ ← need_initialized; WriteMessage (mkMessage CaProtocolGoodbye []).

Definition RequestChunk (i : ChunkID) : pr Chunk :=
  _ ← need_initialized;
  _ ← SendProtocolRequest i CaProtocolRequestHighPriority;
  m ← ReadMessage;
  if decide (mType m = CaProtocolMissing) then pr_fail (ChunkMissing i)
  else if decide (mType m = CaProtocolChunk) then
    if decide (length (Body m) < 40)%nat then pr_fail (Errorf "received chunk too small")
    else fun p => (NewChunkFromStorage i (drop 40 (Body m)) [Compressor] false, p)
  else pr_fail (Errorf "unexpected protocol message type").

(** RemoteSSH: HasChunk asks for the chunk, and Close says goodbye. *)
Definition HasChunk (i : ChunkID) : Protocol -> (bool * option error) * Protocol := fun p =>
  match RequestChunk i p with
  | (Ok _, p) => ((true, None), p)
  | (Err e, p) => ((false, Some e), p)
  | (_, p) => ((false, None), p)
  end.

(** The session StartProtocol opens, once the command runs. *)
Definition StartProtocol : pr unit :=
  flags ← Initialize CaProtocolPullChunks;
  if decide (Z.land flags CaProtocolReadableStore = 0) then pr_fail (Errorf "server not offering chunks")
  else mret tt.

(** ** The server *)

Context {W : Type} (s : Store W).

(** One request: [Ok (Some r)] ends the session with [r]. *)
Definition serve_request (m : Message) (w : W) : Protocol -> outcome (option (option error)) * Protocol * W := fun p =>
  if decide (length (Body m) < 40)%nat then (Ok (Some (Some (Errorf "protocol request too small"))), p, w)
  else
    match ChunkIDFromSlice (take 32 (drop 8 (Body m))) with
    | Ok i =>
      match sGetChunk s i w with
      | ((_, Some (ChunkMissing _)), w) =>
        match SendMissing i p with
        | (Err e, p) => (Ok (Some (Some (Wrapped e "failed to send to client"))), p, w)
        | (Ok _, p) => (Ok (Some None), p, w)       (* errors.Wrap of a nil error *)
        | (Panic, p) => (Panic, p, w)
        | (NoFuel, p) => (NoFuel, p, w)
        end
      | ((_, Some e), w) => (Ok (Some (Some (Wrapped e "unable to read chunk from store"))), p, w)
      | ((None, None), w) => (Panic, p, w)
      | ((Some chunk, None), w) =>
        match Storage chunk [Compressor] with
        | (Ok b, chunk) =>
          match SendProtocolChunk (fst (ChunkID_ chunk)) CaProtocolChunkCompressed b p with
          | (Err e, p) => (Ok (Some (Some (Wrapped e "failed to send chunk data"))), p, w)
          | (Ok _, p) => (Ok None, p, w)
          | (Panic, p) => (Panic, p, w)
          | (NoFuel, p) => (NoFuel, p, w)
          end
        | (Err e, _) => (Ok (Some (Some e)), p, w)
        | (Panic, _) => (Panic, p, w)
        | (NoFuel, _) => (NoFuel, p, w)
        end
      end
    | Err e => (Ok (Some (Some (Wrapped e "unable to decode requested chunk id"))), p, w)
    | Panic => (Panic, p, w)
    | NoFuel => (NoFuel, p, w)
    end.

(** The loop of Serve; [stop k] tells whether the context is done before message [k]. A message has
    at least 16 bytes, so the bytes to read are fuel enough. *)
Fixpoint serve_loop (fuel : nat) (stop : nat -> bool) (k : nat) (p : Protocol) (w : W)
  : outcome (option error) * Protocol * W :=
  match fuel with
  | O => (NoFuel, p, w)
  | S fuel =>
    if stop k then (Ok None, p, w)
    else
      match ReadMessage p with
      | (Err e, p) => (Ok (Some (Wrapped e "failed to read protocol message from client")), p, w)
      | (Panic, p) => (Panic, p, w)
      | (NoFuel, p) => (NoFuel, p, w)
      | (Ok m, p) =>
        if decide (mType m = CaProtocolRequest) then
          match serve_request m w p with
          | (Ok None, p, w) => serve_loop fuel stop (S k) p w
          | (Ok (Some r), p, w) => (Ok r, p, w)
          | (Err e, p, w) => (Err e, p, w)
          | (Panic, p, w) => (Panic, p, w)
          | (NoFuel, p, w) => (NoFuel, p, w)
          end
        else if decide (mType m = CaProtocolAbort) then (Ok (Some (Errorf "client aborted connection")), p, w)
        else if decide (mType m = CaProtocolGoodbye) then (Ok None, p, w)
        else (Ok (Some (Errorf "unexpected command from client")), p, w)
      end
  end.

Definition Serve (stop : nat -> bool) (p : Protocol) (w : W) : outcome (option error) * Protocol * W :=
  match Initialize CaProtocolReadableStore p with
  | (Ok flags, p) =>
    if decide (Z.land flags CaProtocolPullChunks = 0) then
      (Ok (Some (Errorf "client is not requesting chunks")), p, w)
    else serve_loop (S (length (p_in p))) stop 0 p w
  | (Err e, p) => (Ok (Some (Wrapped e "failed to perform protocol handshake")), p, w)
  | (Panic, p) => (Panic, p, w)
  | (NoFuel, p) => (NoFuel, p, w)
  end.

(** ** The client of a session *)

(** [RequestChunk] and the data of the chunk. *)
Definition fetch_chunk (i : ChunkID) : pr bytes := fun p =>
  match RequestChunk i p with
  | (Ok c, p) => (plain c, p)
  | (Err e, p) => (Err e, p)
  | (Panic, p) => (Panic, p)
  | (NoFuel, p) => (NoFuel, p)
  end.

(** The requests of a session of the pool, one after the other, whatever they return. *)
Fixpoint fetch_all (ids : list ChunkID) (p : Protocol) : list (outcome bytes) * Protocol :=
  match ids with
  | [] => ([], p)
  | i :: ids =>
    let '(r, p) := fetch_chunk i p in
    let '(rs, p) := fetch_all ids p in (r :: rs, p)
  end.

Definition client (ids : list ChunkID) (p : Protocol) : outcome (list (outcome bytes)) * Protocol :=
  match StartProtocol p with
  | (Ok _, p) => let '(rs, p) := fetch_all ids p in let '(_, p) := SendGoodbye p in (Ok rs, p)
  | (Err e, p) => (Err e, p)
  | (Panic, p) => (Panic, p)
  | (NoFuel, p) => (NoFuel, p)
  end.

(** ** Messages *)

Definition message_ok (m : Message) : Prop :=
  is_u64 (mType m) /\ Z.of_nat (length (Body m)) + 8 <= maxAlloc.

Lemma read_message_app m rest :
  message_ok m -> read_message (message_bytes m ++ rest) = (Ok m, rest).
Proof.
  intros [Ht Hb]. unfold read_message, message_bytes. rewrite <- !app_assoc.
  erewrite rd_bind_ok by apply ReadUint64_app. rewrite u64_small by mach_lia.
  rewrite decide_False by lia.
  set (b := PutUint64 (mType m) ++ Body m).
  assert (Hl : 16 + Z.of_nat (length (Body m)) - 8 = Z.of_nat (length b)).
  { unfold b. rewrite length_app, length_PutUint64. lia. }
  rewrite app_assoc. fold b. erewrite rd_bind_ok.
  2:{ unfold ReadN. apply make_ReadFull_app; [exact Hl|mach_lia]. }
  unfold b. rewrite drop_app_length' by (by rewrite length_PutUint64).
  rewrite take_app_length' by (by rewrite length_PutUint64).
  rewrite <- (app_nil_r (PutUint64 (mType m))), Uint64_app, u64_small by done.
  by destruct m.
Qed.

Lemma ReadMessage_app m rest w b :
  message_ok m -> ReadMessage (mkProtocol (message_bytes m ++ rest) w b) = (Ok m, mkProtocol rest w b).
Proof. intros Hm. unfold ReadMessage. cbn [p_in p_out initialized]. by rewrite read_message_app. Qed.

End protocol.

(** ** A session: the two ends together *)

Section session.

Context `{Codec} {W : Type} (s : Store W) (inv : W -> Prop) (view : W -> ChunkID -> option bytes).
Context `{!ReadSpec inv s view} (w : W) (Hw : inv w).

(** The ends of the two streams, and the errors of the writers, which are never reached. *)
Context (e_server e_client we : error).

(** Messages fit in memory. *)
Context (small_chunks : forall i c w' b c', sGetChunk s i w = ((Some c, None), w') ->
  Storage c [Compressor] = (Ok b, c') -> Z.of_nat (length b) + 48 <= maxAlloc).

Definition hello (flags : Z) : bytes := message_bytes (mkMessage CaProtocolHello (PutUint64 flags)).
Definition request (i : ChunkID) : bytes :=
  message_bytes (mkMessage CaProtocolRequest (PutUint64 CaProtocolRequestHighPriority ++ i)).
Definition goodbye : bytes := message_bytes (mkMessage CaProtocolGoodbye []).

(** A peer with unread bytes [r] that has written [o]. *)
Definition peer (r o : bytes) : Protocol := mkProtocol r (mkWriter o None we) true.

(** What the requests return: the data of the chunks up to the first that is missing; with that one the
    server ends the session. *)
Fixpoint session (ids : list ChunkID) : list (outcome bytes) :=
  match ids with
  | [] => []
  | i :: ids =>
    match view w i with
    | Some d => Ok d :: session ids
    | None => Err (ChunkMissing i) :: map (fun _ => Err e_client) ids
    end
  end.

Definition ids_ok (ids : list ChunkID) : Prop :=
  Forall (fun i => length i = 32%nat /\ view w i <> Some []) ids.

Lemma WriteMessage_peer m r o : WriteMessage m (peer r o) = (Ok tt, peer r (o ++ message_bytes m)).
Proof. done. Qed.

Lemma request_ok i : length i = 32%nat ->
  message_ok (mkMessage CaProtocolRequest (PutUint64 CaProtocolRequestHighPriority ++ i)).
Proof. intros Hi. split; [done|]. cbn [Body]. rewrite length_app, length_PutUint64, Hi. mach_lia. Qed.

(** A request, once the answer is there to be read, and when the server is gone. *)
Lemma RequestChunk_message i m r o :
  message_ok m ->
  RequestChunk e_client i (peer (message_bytes m ++ r) o) =
  (if decide (mType m = CaProtocolMissing) then Err (ChunkMissing i)
   else if decide (mType m = CaProtocolChunk) then
     if decide (length (Body m) < 40)%nat then Err (Errorf "received chunk too small")
     else NewChunkFromStorage i (drop 40 (Body m)) [Compressor] false
   else Err (Errorf "unexpected protocol message type"), peer r (o ++ request i)).
Proof using Type.
  intros Hm. transitivity ((m ← ReadMessage e_client;
    if decide (mType m = CaProtocolMissing) then pr_fail (ChunkMissing i)
    else if decide (mType m = CaProtocolChunk) then
      if decide (length (Body m) < 40)%nat then pr_fail (Errorf "received chunk too small")
      else fun p => (NewChunkFromStorage i (drop 40 (Body m)) [Compressor] false, p)
    else pr_fail (Errorf "unexpected protocol message type")) (peer (message_bytes m ++ r) (o ++ request i))); [done|].
  unfold mbind, pr_bind, peer. rewrite ReadMessage_app by done. by repeat case_decide.
Qed.

Lemma RequestChunk_dead i o : RequestChunk e_client i (peer [] o) = (Err e_client, peer [] (o ++ request i)).
Proof using Type. done. Qed.

Lemma fetch_dead ids : forall o,
  fetch_all e_client ids (peer [] o) =
  (map (fun _ => Err e_client) ids, peer [] (o ++ concat (map request ids))).
Proof using Type.
  clear. induction ids as [|i ids IH]; intros o; cbn [fetch_all map concat]; [by rewrite app_nil_r|].
  unfold fetch_chunk. by rewrite RequestChunk_dead, IH, app_assoc.
Qed.

Lemma Storage_sends c i d b c' :
  holds c i d -> Storage c [Compressor] = (Ok b, c') -> fst (ChunkID_ c') = i.
Proof using Type.
  intros (_ & Hid & _) Hs. pose proof (reaches_observable c c') as Hr. rewrite <- Hid.
  apply Hr. pose proof (reach_Storage c c' [Compressor]) as Hst. rewrite Hs in Hst. apply Hst, reach_refl.
Qed.

(** The server's loop answers the requests, and its answers are what the client takes them for. *)
Lemma session_loop ids : forall fuel k o co,
  ids_ok ids -> (length ids < fuel)%nat ->
  exists r ps, serve_loop e_server s fuel (fun _ => false) k (peer (concat (map request ids) ++ goodbye) o) w = (Ok None, ps, w) /\
    w_out (p_out ps) = o ++ r /\
    fetch_all e_client ids (peer r co) = (session ids, peer [] (co ++ concat (map request ids))).
Proof using All.
  induction ids as [|i ids IH]; intros fuel k o co Hids Hfuel; (destruct fuel as [|fuel]; [cbn in Hfuel; lia|]).
  - cbn [map concat app serve_loop fetch_all session].
    unfold goodbye, peer at 1. rewrite <- (app_nil_r (message_bytes _)), ReadMessage_app by (split; [done|cbn; mach_lia]).
    cbn [mType]. rewrite !decide_False, decide_True by done. eexists [], _. split; [done|].
    cbn. by rewrite !app_nil_r.
  - apply Forall_cons in Hids as [[Hi Hne] Hids]. cbn [map concat fetch_all session]. cbn [length] in Hfuel.
    cbn [serve_loop]. unfold peer at 1. unfold request at 1.
    rewrite <- app_assoc, ReadMessage_app by by apply request_ok.
    fold (peer (concat (map request ids) ++ goodbye) o). cbn [mType]. rewrite decide_True by done.
    unfold serve_request. cbn [Body]. rewrite decide_False by (rewrite length_app, length_PutUint64; lia).
    rewrite drop_app_length' by (by rewrite length_PutUint64).
    rewrite take_ge by lia. unfold ChunkIDFromSlice. rewrite decide_False by (intros Hx; by apply Hx).
    destruct (view w i) as [d|] eqn:Hv.
    + destruct (spec_hit inv i w d Hw Hv) as (c & Hget & Hc). rewrite Hget.
      assert (Hd : d <> []) by (intros ->; by apply Hne).
      destruct (Storage_ok c [Compressor] i d Hc Hd) as (b & Hb & Hbne & Hbd).
      destruct (Storage c [Compressor]) as [sb c'] eqn:Hst. cbn [fst] in Hb. subst sb.
      rewrite (Storage_sends _ _ _ _ _ Hc Hst).
      pose proof (small_chunks _ _ _ _ _ Hget Hst) as Hsmall.
      set (m := mkMessage CaProtocolChunk (PutUint64 CaProtocolChunkCompressed ++ i ++ b)).
      change (SendProtocolChunk i CaProtocolChunkCompressed b (peer (concat (map request ids) ++ goodbye) o))
        with ((Ok tt, peer (concat (map request ids) ++ goodbye) (o ++ message_bytes m)) : outcome unit * Protocol).
      destruct (IH fuel (S k) (o ++ message_bytes m) (co ++ request i) Hids ltac:(lia)) as (r & ps & Hs & Ho & Hf).
      exists (message_bytes m ++ r), ps. split; [exact Hs|]. split; [by rewrite Ho, app_assoc|].
      unfold fetch_chunk. rewrite RequestChunk_message.
      2:{ split; [done|]. cbn [Body m]. rewrite !length_app, length_PutUint64, Hi. lia. }
      cbn [mType m Body]. rewrite decide_False, decide_True by done.
      rewrite decide_False by (rewrite !length_app, length_PutUint64; lia).
      rewrite app_assoc, drop_app_length' by (rewrite length_app, length_PutUint64, Hi; done).
      destruct Hc as (_ & _ & Hsum & _).
      destruct (NewChunkFromStorage_holds i b d [Compressor] false Hbd Hbne Hd Hsum) as (c2 & -> & (Hp & _)).
      rewrite Hp, Hf. by rewrite app_assoc.
    + rewrite (spec_miss inv i w Hw Hv). set (m := mkMessage CaProtocolMissing i).
      change (SendMissing i (peer (concat (map request ids) ++ goodbye) o))
        with ((Ok tt, peer (concat (map request ids) ++ goodbye) (o ++ message_bytes m)) : outcome unit * Protocol).
      exists (message_bytes m), (peer (concat (map request ids) ++ goodbye) (o ++ message_bytes m)).
      split; [done|]. split; [done|].
      unfold fetch_chunk. rewrite <- (app_nil_r (message_bytes m)), RequestChunk_message.
      2:{ split; [done|]. cbn [Body m]. rewrite Hi. mach_lia. }
      cbn [mType m]. rewrite decide_True by done. by rewrite fetch_dead, app_assoc.
Qed.

Lemma hello_ok f : message_ok (mkMessage CaProtocolHello (PutUint64 f)).
Proof using Type. split; [done|]. cbn [Body]. rewrite length_PutUint64. mach_lia. Qed.

Lemma Initialize_hello e f g rest o :
  Initialize e f (mkProtocol (hello g ++ rest) (mkWriter o None we) false) = (Ok (u64 g), peer rest (o ++ hello f)).
Proof using Type.
  unfold Initialize.
  change (SendHello f (mkProtocol (hello g ++ rest) (mkWriter o None we) false))
    with ((Ok tt, mkProtocol (hello g ++ rest) (mkWriter (o ++ hello f) None we) false) : outcome unit * Protocol).
  unfold RecvHello, mbind, pr_bind. unfold hello at 1. rewrite ReadMessage_app by apply hello_ok.
  cbn [mType Body]. rewrite decide_False, decide_False by (rewrite ?length_PutUint64; auto).
  by rewrite Uint64_PutUint64.
Qed.

(** C11. A session over a pipe: the server of a store that behaves as a map, reading what the client
    of [ids] writes, answers so that the client, reading that, gets the data of every chunk up to
    the first one the store does not have, and ChunkMissing for that one. There the server ends
    the session, without an error, and every later request finds the pipe closed. *)
Theorem session_delivers ids :
  ids_ok ids ->
  let cin := hello CaProtocolPullChunks ++ concat (map request ids) ++ goodbye in
  exists ps pc,
    Serve e_server s (fun _ => false) (NewProtocol cin (mkWriter [] None we)) w = (Ok None, ps, w) /\
    client e_client ids (NewProtocol (w_out (p_out ps)) (mkWriter [] None we)) = (Ok (session ids), pc) /\
    w_out (p_out pc) = cin.
Proof using All.
  intros Hids cin.
  destruct (session_loop ids (S (length (concat (map request ids) ++ goodbye))) 0 (hello CaProtocolReadableStore)
    (hello CaProtocolPullChunks) Hids) as (r & ps & Hs & Ho & Hf).
  { rewrite length_app. clear. induction ids as [|i ids IH]; cbn [map concat length]; [lia|].
    rewrite length_app. unfold request at 1, message_bytes. rewrite !length_app, !length_PutUint64. lia. }
  exists ps. eexists. split; [|split].
  - unfold Serve, NewProtocol, cin. rewrite Initialize_hello. rewrite decide_False by done.
    cbn [p_in peer app]. exact Hs.
  - unfold client, StartProtocol, mbind, pr_bind, NewProtocol. rewrite Ho, Initialize_hello.
    rewrite decide_False by done. cbn [mret pr_ret app]. rewrite Hf. reflexivity.
  - cbn. unfold cin. by rewrite <- app_assoc.
Qed.

End session.

Lemma ReadFull_inv e n s b s' : ReadFull e n s = (Ok b, s') -> s = b ++ s' /\ length b = n.
Proof.
  unfold ReadFull. goal_decide Hn; [|by case_decide]. intros [= <- <-].
  rewrite take_drop, length_take. split; [done|lia].
Qed.

Lemma ReadUint64_inv e s v s' : ReadUint64 e s = (Ok v, s') -> s = PutUint64 v ++ s' /\ is_u64 v.
Proof.
  intros (b & s1 & Hb & [= <- <-])%rd_bind_inv. apply ReadFull_inv in Hb as [-> Hl].
  rewrite PutUint64_Uint64 by done. split; [done|apply Uint64_range].
Qed.

(** Messages are read as they are written, and nothing else is: a read returns a message exactly
    when the bytes begin with its encoding, and leaves the bytes that follow. (A length field
    above what can be allocated panics instead, which is below.) *)
Theorem message_parse_print e p m p' :
  ReadMessage e p = (Ok m, p') <->
  message_ok m /\ p_in p = message_bytes m ++ p_in p' /\ p_out p' = p_out p /\ initialized p' = initialized p.
Proof.
  split.
  - unfold ReadMessage. destruct (read_message e (p_in p)) as [r s] eqn:Hr. intros [= -> <-]. cbn.
    unfold read_message in Hr. apply rd_bind_inv in Hr as (len & s1 & Hlen & Hr).
    apply ReadUint64_inv in Hlen as [-> Hlen]. destruct (decide (len < 16)) as [|Hge]; [done|].
    apply rd_bind_inv in Hr as (b & s2 & Hb & [= <- <-]).
    unfold ReadN, make_ReadFull in Hb. destruct (decide (maxAlloc < len - 8)) as [|Hmax]; [done|].
    apply ReadFull_inv in Hb as [-> Hl].
    assert (E : PutUint64 (Uint64 (take 8 b)) = take 8 b) by (apply PutUint64_Uint64; rewrite length_take; lia).
    split; [|split; [|done]].
    + split; cbn; [apply Uint64_range|]. rewrite length_drop. lia.
    + unfold message_bytes. cbn [mType Body]. rewrite E, length_drop, <- !app_assoc.
      replace (16 + Z.of_nat (length b - 8)) with len by lia. by rewrite (app_assoc (take 8 b)), take_drop.
  - intros (Hm & Hin & Ho & Hi). destruct p as [i o b], p' as [i' o' b']. cbn in *. subst.
    by apply ReadMessage_app.
Qed.

Lemma message_parse_print_witness :
  ReadMessage ErrEOF (mkProtocol (message_bytes (mkMessage CaProtocolMissing (str "id")) ++ str "rest") (mkWriter [] None ErrEOF) true) =
  (Ok (mkMessage CaProtocolMissing (str "id")), mkProtocol (str "rest") (mkWriter [] None ErrEOF) true).
Proof. apply message_parse_print. split; [split; [done|cbn; mach_lia]|done]. Defined.

(** A peer that announces a huge message makes the other one panic. *)
Example huge_message_panics :
  fst (ReadMessage ErrEOF (mkProtocol (PutUint64 (2 ^ 63)) (mkWriter [] None ErrEOF) true)) = Panic.
Proof. vm_compute. reflexivity. Qed.

(** A session with a store that has one chunk: it is delivered, the next one is reported missing, and
    after that the server is gone. *)
Lemma ex_small i c w' b c' :
  sGetChunk ex_remote i ex_world = ((Some c, None), w') -> Storage (H := toy_codec) c [Compressor] = (Ok b, c') ->
  Z.of_nat (length b) + 48 <= maxAlloc.
Proof.
  cbn [sGetChunk ex_remote]. unfold ex_get, ex_view. destruct (snd ex_world !! i) as [d|] eqn:Hi; [|done].
  change (({[ ex_id := str "data" ]} : gmap bytes bytes) !! i = Some d) in Hi.
  apply lookup_singleton_Some in Hi as [<- <-].
  let d := eval vm_compute in (str "data") in change (str "data") with d. cbv iota.
  rewrite decide_True by (vm_compute; reflexivity). intros [= <- <-] Hst.
  apply (f_equal fst) in Hst. cbn [fst] in Hst.
  let x := eval vm_compute in (fst (Storage (H := toy_codec) (ex_chunk ex_id (str "data")) [Compressor])) in change (x = Ok b) in Hst.
  injection Hst as <-. cbn [length]. mach_lia.
Qed.

Lemma session_delivers_witness :
  exists ps pc,
    Serve (H := toy_codec) ErrEOF ex_remote (fun _ => false)
      (NewProtocol (hello CaProtocolPullChunks ++ concat (map request [ex_id; zero_id; ex_id]) ++ goodbye)
         (mkWriter [] None ErrEOF)) ex_world = (Ok None, ps, ex_world) /\
    client (H := toy_codec) ErrEOF [ex_id; zero_id; ex_id] (NewProtocol (w_out (p_out ps)) (mkWriter [] None ErrEOF)) =
    (Ok [Ok (str "data"); Err (ChunkMissing zero_id); Err ErrEOF], pc).
Proof.
  destruct (session_delivers (H := toy_codec) ex_remote (fun _ => True) (fun w => ex_view (snd w)) (ReadSpec0 := ex_read_spec _ _ _ _)
    ex_world I ErrEOF ErrEOF ErrEOF ex_small [ex_id; zero_id; ex_id]) as (ps & pc & Hs & Hc & _).
  - repeat constructor; vm_compute; intros E; discriminate E.
  - exists ps, pc. split; [exact Hs|]. rewrite Hc. vm_compute. reflexivity.
Defined.
