(* ===== verification/Dedup.v ===== *)
(** * Dedup: concurrent requests (dedupqueue.go, writededupqueue.go)

    The deduplication queue as a labelled state machine: threads run the code of GetChunk (or
    HasChunk, or StoreChunk, which share it) step by step, a step being what one thread does
    between two points where others can interfere. Upstream calls return anything, at any time.
    The invariant [inv] is proved for all interleavings. *)

From S2P Require Import Prelude Format Index Chunk Stores.

(** ** The queue *)

Section dedup.

(** What the upstream call returns (a chunk and an error, a boolean and an error, an error). *)
Context {R : Type}.

(** A request on the heap: its result once markDone was called. *)
Record request := mkRequest { rq_id : ChunkID; rq_done : option R }.

(** Where a thread is in the code. *)
Inductive thread :=
| Waiting (i : ChunkID) (n : nat)              (* blocked in req.wait() *)
| Leading (i : ChunkID) (n : nat)              (* stored the request, about to call upstream *)
| Called (i : ChunkID) (n : nat) (r : R)       (* upstream returned, about to call markDone *)
| Marked (i : ChunkID) (n : nat) (r : R)       (* about to delete the request *)
| Returned (i : ChunkID) (r : R).

Record state := mkState {
  queue : gmap ChunkID nat;          (* q.requests *)
  heap : list request;               (* every request made so far *)
  threads : gmap nat thread;
  calls : list (ChunkID * R)         (* the upstream calls that returned *)
}.

Definition initial : state := mkState ∅ [] ∅ [].

Definition set_thread (s : state) (t : nat) (p : thread) : gmap nat thread := <[t := p]> (threads s).

(** loadOrStore, under the queue's lock: the request and whether it is in flight. *)
Definition loadOrStore (s : state) (i : ChunkID) : nat * bool * state :=
  match queue s !! i with
  | Some n => (n, true, s)
  | None =>
    let n := length (heap s) in
    (n, false, mkState (<[i := n]> (queue s)) (heap s ++ [mkRequest i None]) (threads s) (calls s))
  end.

(** The steps; markDone closes a channel, which must not happen twice. *)
Inductive step : state -> state -> Prop :=
| step_arrive s t i n inflight s1 :
    threads s !! t = None -> loadOrStore s i = (n, inflight, s1) ->
    step s (mkState (queue s1) (heap s1)
              (set_thread s t (if inflight then Waiting i n else Leading i n)) (calls s1))
(* WriteDedupQueue.GetChunk: wait if the chunk is just being stored *)
| step_join s t i n :
    threads s !! t = None -> queue s !! i = Some n ->
    step s (mkState (queue s) (heap s) (set_thread s t (Waiting i n)) (calls s))
| step_call s t i n r :
    threads s !! t = Some (Leading i n) ->
    step s (mkState (queue s) (heap s) (set_thread s t (Called i n r)) (calls s ++ [(i, r)]))
| step_mark s t i n r :
    threads s !! t = Some (Called i n r) -> heap s !! n = Some (mkRequest i None) ->
    step s (mkState (queue s) (<[n := mkRequest i (Some r)]> (heap s))
              (set_thread s t (Marked i n r)) (calls s))
| step_delete s t i n r :
    threads s !! t = Some (Marked i n r) ->
    step s (mkState (delete i (queue s)) (heap s) (set_thread s t (Returned i r)) (calls s))
| step_wake s t i n r :
    threads s !! t = Some (Waiting i n) -> heap s !! n = Some (mkRequest i (Some r)) ->
    step s (mkState (queue s) (heap s) (set_thread s t (Returned i r)) (calls s)).

Inductive reachable : state -> Prop :=
| reach_init : reachable initial
| reach_step s s' : reachable s -> step s s' -> reachable s'.

(** The request a thread is responsible for. *)
Definition leads (p : thread) : option (ChunkID * nat) :=
  match p with
  | Leading i n | Called i n _ | Marked i n _ => Some (i, n)
  | _ => None
  end.

(** ** The invariant *)

Record inv (s : state) : Prop := {
  inv_queue i n : queue s !! i = Some n ->
    (exists t p, threads s !! t = Some p /\ leads p = Some (i, n)) /\
    exists d, heap s !! n = Some (mkRequest i d);
  inv_leader t p i n : threads s !! t = Some p -> leads p = Some (i, n) -> queue s !! i = Some n;
  inv_unique t t' p p' i n n' : threads s !! t = Some p -> threads s !! t' = Some p' ->
    leads p = Some (i, n) -> leads p' = Some (i, n') -> t = t';
  inv_heap t p : threads s !! t = Some p ->
    match p with
    | Waiting i n => exists d, heap s !! n = Some (mkRequest i d) /\
        (d = None -> queue s !! i = Some n)
    | Leading i n => heap s !! n = Some (mkRequest i None)
    | Called i n r => heap s !! n = Some (mkRequest i None) /\ (i, r) ∈ calls s
    | Marked i n r => heap s !! n = Some (mkRequest i (Some r))
    | Returned i r => (i, r) ∈ calls s
    end;
  inv_calls n i r : heap s !! n = Some (mkRequest i (Some r)) -> (i, r) ∈ calls s
}.

Lemma inv_initial : inv initial.
Proof.
  split; cbn [initial queue threads heap].
  - intros i n. by rewrite lookup_empty.
  - intros t p i n. by rewrite lookup_empty.
  - intros t t' p p' i n n'. by rewrite lookup_empty.
  - intros t p. by rewrite lookup_empty.
  - intros n i r. by rewrite lookup_nil.
Qed.

(** A step that only moves one thread, keeping its responsibility. *)
Lemma inv_move s t p' h' c' :
  inv s -> threads s !! t ≫= leads = leads p' ->
  (forall n i d, heap s !! n = Some (mkRequest i d) -> exists d', h' !! n = Some (mkRequest i d')) ->
  (forall x, x ∈ calls s -> x ∈ c') ->
  (forall t'' p'', t'' <> t -> threads s !! t'' = Some p'' ->
    match p'' with
    | Leading i n => h' !! n = Some (mkRequest i None)
    | Called i n r => h' !! n = Some (mkRequest i None)
    | Marked i n r => h' !! n = Some (mkRequest i (Some r))
    | Waiting i n => exists d, h' !! n = Some (mkRequest i d) /\ (d = None -> queue s !! i = Some n)
    | Returned _ _ => True
    end) ->
  match p' with
    | Waiting i n => exists d, h' !! n = Some (mkRequest i d) /\ (d = None -> queue s !! i = Some n)
    | Leading i n => h' !! n = Some (mkRequest i None)
    | Called i n r => h' !! n = Some (mkRequest i None) /\ (i, r) ∈ c'
    | Marked i n r => h' !! n = Some (mkRequest i (Some r))
    | Returned i r => (i, r) ∈ c'
  end ->
  (forall n i r, h' !! n = Some (mkRequest i (Some r)) -> (i, r) ∈ c') ->
  inv (mkState (queue s) h' (set_thread s t p') c').
Proof.
  intros Hi Hl Hh Hc Hothers Hself Hcalls.
  assert (Hback : forall u pu j m, <[t:=p']> (threads s) !! u = Some pu -> leads pu = Some (j, m) ->
      exists pu', threads s !! u = Some pu' /\ leads pu' = Some (j, m)).
  { intros u pu j m Hu Hlu. destruct (decide (u = t)) as [->|Hne].
    - rewrite lookup_insert_eq in Hu. injection Hu as <-. rewrite Hlu in Hl.
      destruct (threads s !! t) as [p|]; [by exists p|done].
    - rewrite lookup_insert_ne in Hu by done. by exists pu. }
  unfold set_thread. split; cbn [queue heap threads calls].
  - intros i n Hq. destruct (inv_queue s Hi i n Hq) as [(t'' & p'' & Ht'' & Hl'') (d & Hd)].
    split; [|by eapply Hh]. destruct (decide (t'' = t)) as [->|Hne].
    + exists t, p'. rewrite lookup_insert_eq. split; [done|]. rewrite Ht'' in Hl. by rewrite <- Hl.
    + exists t'', p''. by rewrite lookup_insert_ne.
  - intros t'' p'' i n Hp Hlp. destruct (Hback _ _ _ _ Hp Hlp) as (p & Hp' & Hlp').
    by apply (inv_leader s Hi t'' p).
  - intros t1 t2 p1 p2 i n n' Hp1 Hp2 Hl1 Hl2.
    destruct (Hback _ _ _ _ Hp1 Hl1) as (p1' & ? & ?), (Hback _ _ _ _ Hp2 Hl2) as (p2' & ? & ?).
    by eapply (inv_unique s Hi t1 t2 p1' p2').
  - intros t'' p'' Hp. destruct (decide (t'' = t)) as [->|Hne].
    + rewrite lookup_insert_eq in Hp. injection Hp as <-. exact Hself.
    + rewrite lookup_insert_ne in Hp by done. specialize (Hothers t'' p'' Hne Hp).
      pose proof (inv_heap s Hi t'' p'' Hp) as Hold.
      destruct p''; try done; [split; [done|apply Hc, Hold]|by apply Hc].
  - exact Hcalls.
Qed.

(** Steps that leave the requests alone. *)
Lemma inv_move_thread s t p' c' :
  inv s -> threads s !! t ≫= leads = leads p' ->
  (forall x, x ∈ calls s -> x ∈ c') ->
  match p' with
    | Waiting i n => exists d, heap s !! n = Some (mkRequest i d) /\ (d = None -> queue s !! i = Some n)
    | Leading i n => heap s !! n = Some (mkRequest i None)
    | Called i n r => heap s !! n = Some (mkRequest i None) /\ (i, r) ∈ c'
    | Marked i n r => heap s !! n = Some (mkRequest i (Some r))
    | Returned i r => (i, r) ∈ c'
  end ->
  inv (mkState (queue s) (heap s) (set_thread s t p') c').
Proof.
  intros Hi Hl Hc Hself. apply inv_move; try done; eauto.
  - intros t'' p'' _ Hp. pose proof (inv_heap s Hi t'' p'' Hp) as Hold. destruct p''; try done.
    by destruct Hold.
  - intros n i r Hn. apply Hc. by apply (inv_calls s Hi n).
Qed.

(** A waiter that found the request in the queue. *)
Lemma inv_wait s t i n :
  inv s -> threads s !! t = None -> queue s !! i = Some n ->
  inv (mkState (queue s) (heap s) (set_thread s t (Waiting i n)) (calls s)).
Proof.
  intros Hi Hnone Hq. apply inv_move_thread; try done; [by rewrite Hnone|].
  destruct (inv_queue s Hi i n Hq) as [_ (d & Hd)]. by exists d.
Qed.

(** The first request for an ID enters the queue. *)
Lemma inv_enter s t i :
  inv s -> threads s !! t = None -> queue s !! i = None ->
  inv (mkState (<[i := length (heap s)]> (queue s)) (heap s ++ [mkRequest i None])
         (set_thread s t (Leading i (length (heap s)))) (calls s)).
Proof.
  intros Hi Hnone Hq.
  assert (Hold : forall n x, heap s !! n = Some x -> (heap s ++ [mkRequest i None]) !! n = Some x)
    by (intros; by apply lookup_app_l_Some).
  assert (Hnew : (heap s ++ [mkRequest i None]) !! length (heap s) = Some (mkRequest i None))
    by (by apply list_lookup_middle).
  assert (Hne : forall t' p' j m, threads s !! t' = Some p' -> leads p' = Some (j, m) -> j <> i).
  { intros t' p' j m Hp Hlp ->. by rewrite (inv_leader s Hi t' p' i m Hp Hlp) in Hq. }
  unfold set_thread. split; cbn [queue heap threads calls].
  - intros j n. destruct (decide (j = i)) as [->|Hji].
    + rewrite lookup_insert_eq. intros [= <-]. split; [|by exists None].
      exists t, (Leading i (length (heap s))). by rewrite lookup_insert_eq.
    + rewrite lookup_insert_ne by done. intros Hj.
      destruct (inv_queue s Hi j n Hj) as [(t' & p' & Hp & Hlp) (d & Hd)].
      split; [|exists d; by apply Hold]. exists t', p'. rewrite lookup_insert_ne; [done|congruence].
  - intros t' p' j n. destruct (decide (t' = t)) as [->|Htt].
    + rewrite lookup_insert_eq. intros [= <-] [= <- <-]. by rewrite lookup_insert_eq.
    + rewrite lookup_insert_ne by done. intros Hp Hlp.
      rewrite lookup_insert_ne; [by eapply (inv_leader s Hi)|]. apply not_eq_sym. by eapply Hne.
  - intros t1 t2 p1 p2 j n n' H1 H2 L1 L2.
    destruct (decide (t1 = t)) as [->|Ht1], (decide (t2 = t)) as [->|Ht2]; try done.
    + rewrite lookup_insert_eq in H1. rewrite lookup_insert_ne in H2 by done.
      injection H1 as <-. injection L1 as <- <-. by destruct (Hne _ _ _ _ H2 L2).
    + rewrite lookup_insert_eq in H2. rewrite lookup_insert_ne in H1 by done.
      injection H2 as <-. injection L2 as <- <-. by destruct (Hne _ _ _ _ H1 L1).
    + rewrite lookup_insert_ne in H1 by done. rewrite lookup_insert_ne in H2 by done.
      by eapply (inv_unique s Hi t1 t2 p1 p2).
  - intros t' p'. destruct (decide (t' = t)) as [->|Htt].
    + rewrite lookup_insert_eq. by intros [= <-].
    + rewrite lookup_insert_ne by done. intros Hp. pose proof (inv_heap s Hi t' p' Hp) as Hx.
      destruct p' as [j m|j m|j m r|j m r|j r]; [|auto|destruct Hx; auto|auto|done].
      destruct Hx as (d & Hd & Himp). exists d. split; [auto|]. intros Hn.
      rewrite lookup_insert_ne; [auto|]. intros ->. specialize (Himp Hn). congruence.
  - intros n j r Hn. apply lookup_app_Some in Hn as [Hn|[_ Hn]]; [by apply (inv_calls s Hi n)|].
    by apply list_lookup_singleton_Some in Hn as [_ [=]].
Qed.

(** The leader drops its request and returns. *)
Lemma inv_leave s t i n r :
  inv s -> threads s !! t = Some (Marked i n r) ->
  inv (mkState (delete i (queue s)) (heap s) (set_thread s t (Returned i r)) (calls s)).
Proof.
  intros Hi Ht.
  assert (Hq : queue s !! i = Some n) by (by eapply (inv_leader s Hi)).
  assert (Hd : heap s !! n = Some (mkRequest i (Some r))) by (exact (inv_heap s Hi t _ Ht)).
  assert (Hne : forall t' p' j m, t' <> t -> threads s !! t' = Some p' -> leads p' = Some (j, m) -> i <> j).
  { intros t' p' j m Htt Hp Hlp <-. apply Htt. by eapply (inv_unique s Hi t' t). }
  unfold set_thread. split; cbn [queue heap threads calls].
  - intros j m Hj. apply lookup_delete_Some in Hj as [Hji Hj].
    destruct (inv_queue s Hi j m Hj) as [(t' & p' & Hp & Hlp) Hx]. split; [|done].
    exists t', p'. rewrite lookup_insert_ne; [done|]. intros <-. rewrite Ht in Hp.
    injection Hp as <-. by injection Hlp as <- <-.
  - intros t' p' j m Hp Hlp. destruct (decide (t' = t)) as [->|Htt].
    + rewrite lookup_insert_eq in Hp. by injection Hp as <-.
    + rewrite lookup_insert_ne in Hp by done. rewrite lookup_delete_ne by (by eapply Hne).
      by eapply (inv_leader s Hi).
  - intros t1 t2 p1 p2 j m m' H1 H2 L1 L2.
    destruct (decide (t1 = t)) as [->|Ht1]; [rewrite lookup_insert_eq in H1; by injection H1 as <-|].
    destruct (decide (t2 = t)) as [->|Ht2]; [rewrite lookup_insert_eq in H2; by injection H2 as <-|].
    rewrite lookup_insert_ne in H1 by done. rewrite lookup_insert_ne in H2 by done.
    by eapply (inv_unique s Hi t1 t2 p1 p2).
  - intros t' p' Hp. destruct (decide (t' = t)) as [->|Htt].
    + rewrite lookup_insert_eq in Hp. injection Hp as <-. by apply (inv_calls s Hi n).
    + rewrite lookup_insert_ne in Hp by done. pose proof (inv_heap s Hi t' p' Hp) as Hx.
      destruct p' as [j m| | | |]; try done. destruct Hx as (d & Hdd & Himp). exists d.
      split; [done|]. intros Hn. rewrite lookup_delete_ne; [auto|]. intros <-.
      specialize (Himp Hn). congruence.
  - exact (inv_calls s Hi).
Qed.

(** The leader publishes its result. *)
Lemma inv_mark s t i n r :
  inv s -> threads s !! t = Some (Called i n r) ->
  inv (mkState (queue s) (<[n := mkRequest i (Some r)]> (heap s)) (set_thread s t (Marked i n r)) (calls s)).
Proof.
  intros Hi Ht. destruct (inv_heap s Hi t _ Ht) as [Hn Hin].
  assert (Hlt : (n < length (heap s))%nat) by (by eapply lookup_lt_Some).
  assert (Hq : queue s !! i = Some n) by (by eapply (inv_leader s Hi)).
  assert (Hoth : forall t' p' j m, t' <> t -> threads s !! t' = Some p' -> leads p' = Some (j, m) ->
    forall x, heap s !! m = Some (mkRequest j x) -> n <> m).
  { intros t' p' j m Htt Hp Hlp x Hx <-. rewrite Hn in Hx. injection Hx as <- _.
    apply Htt. by eapply (inv_unique s Hi t' t). }
  assert (Hkeep : forall m j d, heap s !! m = Some (mkRequest j d) ->
      exists d', <[n:=mkRequest i (Some r)]> (heap s) !! m = Some (mkRequest j d')
        /\ (d' = None -> d = None)).
  { intros m j d Hm. destruct (decide (n = m)) as [<-|Hnm].
    - rewrite list_lookup_insert_eq by done. exists (Some r). rewrite Hn in Hm. by injection Hm as <- _.
    - rewrite list_lookup_insert_ne by done. by exists d. }
  apply inv_move; try done.
  - by rewrite Ht.
  - intros m j d Hm. destruct (Hkeep m j d Hm) as (d' & ? & _). by exists d'.
  - intros t' p' Htt Hp. pose proof (inv_heap s Hi t' p' Hp) as Hx.
    destruct p' as [j m|j m|j m r'|j m r'|j r']; try done.
    + destruct Hx as (d & Hm & Himp). destruct (Hkeep m j d Hm) as (d' & ? & Hd'). exists d'. auto.
    + rewrite list_lookup_insert_ne; [done|]. by eapply (Hoth t' _ j m).
    + destruct Hx as [Hx _]. rewrite list_lookup_insert_ne; [done|]. by eapply (Hoth t' _ j m).
    + rewrite list_lookup_insert_ne; [done|]. by eapply (Hoth t' _ j m).
  - by rewrite list_lookup_insert_eq.
  - intros m j x Hm. destruct (decide (n = m)) as [<-|Hnm].
    + rewrite list_lookup_insert_eq in Hm by done. by injection Hm as <- <-.
    + rewrite list_lookup_insert_ne in Hm by done. by apply (inv_calls s Hi m).
Qed.

Lemma inv_step s s' : inv s -> step s s' -> inv s'.
Proof.
  intros Hi Hs. destruct Hs as [s t i n inflight s1 Hnone Hls|s t i n Hnone Hq|s t i n r Ht
    |s t i n r Ht Hh|s t i n r Ht|s t i n r Ht Hh].
  - unfold loadOrStore in Hls. destruct (queue s !! i) as [m|] eqn:Hq; injection Hls as <- <- <-.
    + by apply inv_wait.
    + cbn [queue heap calls]. by apply inv_enter.
  - by apply inv_wait.
  - pose proof (inv_heap s Hi t _ Ht) as Hn. apply inv_move_thread; [done|by rewrite Ht|set_solver|].
    split; [done|]. set_solver.
  - by apply inv_mark.
  - by eapply inv_leave.
  - apply inv_move_thread; [done|by rewrite Ht|done|]. by apply (inv_calls s Hi n).
Qed.

Lemma inv_reachable s : reachable s -> inv s.
Proof. induction 1; [apply inv_initial|by eapply inv_step]. Qed.

(** ** Theorems *)

(** C16. For every interleaving of any number of threads over the queue: at most one of them is
    between loadOrStore and the return of the upstream call for an ID, so there is at most one
    upstream call in flight per ID; every result handed out, to the caller that made the call or to
    one that waited, is the result of an upstream call for that very ID; and when a thread reaches
    markDone its request is still unmarked, so the channel is never closed twice. *)
Theorem dedup_one_call s :
  reachable s ->
  (forall t t' i n n', threads s !! t = Some (Leading i n) -> threads s !! t' = Some (Leading i n') ->
    t = t') /\
  (forall t i r, threads s !! t = Some (Returned i r) -> (i, r) ∈ calls s) /\
  (forall t i n r, threads s !! t = Some (Called i n r) -> heap s !! n = Some (mkRequest i None)).
Proof.
  intros Hi%inv_reachable. split; [|split].
  - intros t t' i n n' Ht Ht'. by eapply (inv_unique s Hi t t').
  - intros t i r Ht. exact (inv_heap s Hi t _ Ht).
  - intros t i n r Ht. exact (proj1 (inv_heap s Hi t _ Ht)).
Qed.

(** The leader of a request runs to its end. *)
Lemma finish_leader s t p i n (r0 : R) :
  inv s -> threads s !! t = Some p -> leads p = Some (i, n) ->
  exists s' r, rtc step s s' /\ threads s' = <[t := Returned i r]> (threads s) /\
    heap s' !! n = Some (mkRequest i (Some r)).
Proof.
  assert (Hmarked : forall s r, inv s -> threads s !! t = Some (Marked i n r) ->
    exists s' r', rtc step s s' /\ threads s' = <[t := Returned i r']> (threads s) /\
      heap s' !! n = Some (mkRequest i (Some r'))).
  { clear. intros s r Hi Ht. eexists _, r. split; [eapply rtc_once, step_delete, Ht|].
    split; [done|]. exact (inv_heap s Hi t _ Ht). }
  assert (Hcalled : forall s r, inv s -> threads s !! t = Some (Called i n r) ->
    exists s' r', rtc step s s' /\ threads s' = <[t := Returned i r']> (threads s) /\
      heap s' !! n = Some (mkRequest i (Some r'))).
  { intros s1 r Hi Ht. pose proof (step_mark _ _ _ _ _ Ht (proj1 (inv_heap _ Hi t _ Ht))) as Hs.
    edestruct (Hmarked _ r (inv_step _ _ Hi Hs)) as (s' & r' & Hr & Hth & Hh);
      [apply lookup_insert_eq|].
    exists s', r'. split; [by eapply rtc_l|]. split; [|done]. rewrite Hth. apply insert_insert_eq. }
  intros Hi Ht Hl. destruct p as [| i' n'|i' n' r|i' n' r|]; try done; injection Hl as -> ->; eauto.
  pose proof (step_call _ _ _ _ r0 Ht) as Hs.
  edestruct (Hcalled _ r0 (inv_step _ _ Hi Hs)) as (s' & r' & Hr & Hth & Hh); [apply lookup_insert_eq|].
  exists s', r'. split; [by eapply rtc_l|]. split; [|done]. rewrite Hth. apply insert_insert_eq.
Qed.

(** The threads of [s] are those of [s'], and results once returned stay. *)
Definition settles (s s' : state) : Prop :=
  forall t, (is_Some (threads s !! t) <-> is_Some (threads s' !! t)) /\
    forall i r, threads s !! t = Some (Returned i r) -> threads s' !! t = Some (Returned i r).

Lemma settles_trans s1 s2 s3 : settles s1 s2 -> settles s2 s3 -> settles s1 s3.
Proof. intros H1 H2 t. destruct (H1 t), (H2 t). split; [by etrans|eauto]. Qed.

Lemma settles_insert s s' t p i r :
  threads s !! t = Some p -> (forall i r, p <> Returned i r) ->
  threads s' = <[t := Returned i r]> (threads s) -> settles s s'.
Proof.
  intros Ht Hp E u. rewrite E. destruct (decide (u = t)) as [->|Hne].
  - rewrite lookup_insert_eq, Ht. split; [split; by eexists|]. intros j x [= Hx]. by destruct (Hp j x).
  - by rewrite lookup_insert_ne.
Qed.

Lemma rtc_inv s s' : inv s -> rtc step s s' -> inv s'.
Proof. intros Hi Hr. induction Hr; [done|]. eauto using inv_step. Qed.

(** Any thread can be run to its end by steps of the threads already there. *)
Lemma finish_thread s t p (r0 : R) :
  inv s -> threads s !! t = Some p ->
  exists s' i r, rtc step s s' /\ threads s' !! t = Some (Returned i r) /\ settles s s'.
Proof.
  intros Hi Ht. destruct (leads p) as [[i n]|] eqn:Hl.
  - destruct (finish_leader s t p i n r0 Hi Ht Hl) as (s' & r & Hr & Hth & _).
    exists s', i, r. split; [done|]. split; [by rewrite Hth, lookup_insert_eq|].
    eapply settles_insert; [exact Ht| |exact Hth]. intros j x ->. done.
  - destruct p as [i n| | | |i r]; try done; [|by exists s, i, r].
    assert (Hwake : forall s' r, threads s' !! t = Some (Waiting i n) ->
      heap s' !! n = Some (mkRequest i (Some r)) -> settles s s' -> rtc step s s' ->
      exists s' i r, rtc step s s' /\ threads s' !! t = Some (Returned i r) /\ settles s s').
    { intros s' r Ht' Hh Hset Hr. eexists _, i, r. split; [eapply rtc_r; [done|by eapply step_wake]|].
      cbn [threads]. unfold set_thread. split; [apply lookup_insert_eq|].
      eapply settles_trans; [done|]. by eapply settles_insert. }
    destruct (inv_heap s Hi t _ Ht) as ([r|] & Hh & Hq).
    + by apply (Hwake s r).
    + specialize (Hq eq_refl). destruct (inv_queue s Hi i n Hq) as [(t' & p' & Ht' & Hl') _].
      destruct (finish_leader s t' p' i n r0 Hi Ht' Hl') as (s' & r & Hr & Hth & Hh').
      apply (Hwake s' r); try done.
      * rewrite Hth, lookup_insert_ne; [done|]. intros ->. rewrite Ht in Ht'. by injection Ht' as <-.
      * eapply settles_insert; [exact Ht'| |exact Hth]. by intros j x ->.
Qed.

(** C17. No caller is ever stuck: from any state of the queue that any interleaving can reach,
    as long as upstream calls return, the threads present can run until every one of them has
    returned, each with the result of an upstream call for its ID. *)
Theorem dedup_finishes s (r0 : R) :
  reachable s ->
  exists s', rtc step s s' /\ dom (threads s') = dom (threads s) /\
    forall t, t ∈ dom (threads s) -> exists i r, threads s' !! t = Some (Returned i r) /\ (i, r) ∈ calls s'.
Proof.
  intros Hi%inv_reachable.
  assert (Hl : forall l : list nat, (forall t, t ∈ l -> is_Some (threads s !! t)) ->
    exists s', rtc step s s' /\ settles s s' /\
      forall t, t ∈ l -> exists i r, threads s' !! t = Some (Returned i r)).
  { induction l as [|t l IH]; intros Hl.
    - exists s. split; [done|]. split; [by intros t|]. intros t. by rewrite elem_of_nil.
    - destruct IH as (s1 & Hr1 & Hset1 & Hl1); [intros u Hu; apply Hl; by constructor|].
      destruct (proj1 (proj1 (Hset1 t))) as [p Hp]; [apply Hl; by constructor|].
      destruct (finish_thread s1 t p r0 (rtc_inv _ _ Hi Hr1) Hp) as (s2 & i & r & Hr2 & Ht & Hset2).
      exists s2. split; [by etrans|]. split; [by eapply settles_trans|].
      intros u [->|Hu]%elem_of_cons; [by exists i, r|].
      destruct (Hl1 u Hu) as (j & x & Hx). exists j, x. by apply Hset2. }
  destruct (Hl (elements (dom (threads s)))) as (s' & Hr & Hset & Hall).
  { intros t Ht. by apply elem_of_dom, elem_of_elements. }
  exists s'. split; [done|]. split.
  - apply set_eq. intros t. rewrite !elem_of_dom. symmetry. apply Hset.
  - intros t Ht. destruct (Hall t) as (i & r & Hx); [by apply elem_of_elements|].
    exists i, r. split; [done|]. exact (inv_heap s' (rtc_inv _ _ Hi Hr) t _ Hx).
Qed.

End dedup.

(** ** WriteDedupQueue: three queues side by side

    GetChunk first looks the chunk up in the queue of stores in progress, and waits there if it is
    found ([step_join] on that queue); otherwise it goes through the queue of requests. A result of
    the store queue is the chunk and the error of StoreChunk. *)

Record wstate (C : Type) := mkWState {
  getChunkQueue : state (R := option C * option error);
  hasChunkQueue : state (R := bool * option error);
  storeChunkQueue : state (R := option C * option error)
}.
Arguments mkWState {C}.
Arguments getChunkQueue {C}.
Arguments hasChunkQueue {C}.
Arguments storeChunkQueue {C}.

Definition NewWriteDedupQueue {C} : wstate C := mkWState initial initial initial.

Inductive wstep {C} : wstate C -> wstate C -> Prop :=
| wstep_get w g : step (getChunkQueue w) g ->
    wstep w (mkWState g (hasChunkQueue w) (storeChunkQueue w))
| wstep_has w h : step (hasChunkQueue w) h ->
    wstep w (mkWState (getChunkQueue w) h (storeChunkQueue w))
| wstep_store w s : step (storeChunkQueue w) s ->
    wstep w (mkWState (getChunkQueue w) (hasChunkQueue w) s).

(** Each queue goes through states the theorems above are about. *)
Lemma write_dedup_queues {C} (w : wstate C) :
  rtc wstep NewWriteDedupQueue w ->
  reachable (getChunkQueue w) /\ reachable (hasChunkQueue w) /\ reachable (storeChunkQueue w).
Proof.
  intros Hr. cut (forall w0 : wstate C,
    reachable (getChunkQueue w0) /\ reachable (hasChunkQueue w0) /\ reachable (storeChunkQueue w0) ->
    rtc wstep w0 w ->
    reachable (getChunkQueue w) /\ reachable (hasChunkQueue w) /\ reachable (storeChunkQueue w)).
  { intros H. eapply H; [|exact Hr]. repeat split; apply reach_init. }
  clear Hr. intros w0 H0 Hr. induction Hr as [|w1 w2 w3 Hs Hr IH]; [done|]. apply IH.
  destruct H0 as (H1 & H2 & H3). destruct Hs; cbn; repeat split; eauto using reach_step.
Qed.

(** ** A concrete run: two threads ask for one chunk, one upstream call *)

Definition ex_dedup : state (R := nat) :=
  mkState ∅ [mkRequest [Byte.x00] (Some 7%nat)]
    {[0%nat := Returned [Byte.x00] 7%nat; 1%nat := Returned [Byte.x00] 7%nat]} [([Byte.x00], 7%nat)].

Lemma ex_dedup_reachable : reachable ex_dedup.
Proof.
  pose (i := [Byte.x00] : ChunkID).
  pose proof (reach_step (R:=nat) _ _ reach_init (step_arrive initial 0%nat i 0%nat false _ eq_refl eq_refl)) as H1.
  match type of H1 with reachable ?s => pose proof (reach_step s _ H1 (step_arrive s 1%nat i 0%nat true _ eq_refl eq_refl)) as H2 end.
  match type of H2 with reachable ?s => pose proof (reach_step s _ H2 (step_call s 0%nat i 0%nat 7%nat eq_refl)) as H3 end.
  match type of H3 with reachable ?s => pose proof (reach_step s _ H3 (step_mark s 0%nat i 0%nat 7%nat eq_refl eq_refl)) as H4 end.
  match type of H4 with reachable ?s => pose proof (reach_step s _ H4 (step_delete s 0%nat i 0%nat 7%nat eq_refl)) as H5 end.
  match type of H5 with reachable ?s => exact (reach_step s _ H5 (step_wake s 1%nat i 0%nat 7%nat eq_refl eq_refl)) end.
Defined.

Example dedup_one_call_witness :
  [Byte.x00; Byte.x01] <> [Byte.x00] /\ ([Byte.x00], 7%nat) ∈ calls ex_dedup.
Proof.
  split; [done|].
  apply (proj1 (proj2 (dedup_one_call ex_dedup ex_dedup_reachable)) 1%nat). reflexivity.
Defined.

Example dedup_finishes_witness :
  exists s', rtc step ex_dedup s' /\ dom (threads s') = dom (threads ex_dedup).
Proof.
  destruct (dedup_finishes ex_dedup 0%nat ex_dedup_reachable) as (s' & Hr & Hd & _).
  by exists s'.
Defined.
