(* ===== verification/Seed.v ===== *)
(** * Seed: seed.go, fileseed.go, nullseed.go, selfseed.go and sequencer.go

    Seeds are files whose chunks can be copied instead of fetched. This file has the matching of
    an index against seeds and the plan the sequencer makes of it; Assemble.v has the writing.
    A pointer to a seed is its place in the sequencer's list, and the [isInvalid] flag a field
    that is updated there. Opening temporary files and asking the file system whether it can
    clone blocks is outside: [CanClone] is a parameter where it is used. *)

From S2P Require Import Prelude Format Index Chunk.

(** ** Segments (seed.go) *)

Definition DefaultBlockSize : Z := 4096.

(** A contiguous section of an index, from chunk [first] to chunk [last]. *)
Record IndexSegment := mkIndexSegment { seg_index : Index; first : nat; last_ : nat }.

Definition lengthChunks (s : IndexSegment) : nat := (last_ s - first s + 1)%nat.

(** An element or slice outside the index panics. *)
Definition chunk_at (i : Index) (k : nat) : outcome IndexChunk :=
  match Chunks i !! k with Some c => Ok c | None => Panic end.

Definition start (s : IndexSegment) : outcome Z := c ← chunk_at (seg_index s) (first s); Ok (Start c).

Definition end_ (s : IndexSegment) : outcome Z :=
  c ← chunk_at (seg_index s) (last_ s); Ok (u64 (Start c + CSize c)).

Definition lengthBytes (s : IndexSegment) : outcome Z :=
  e ← end_ s; b ← start s; Ok (u64 (e - b)).

Definition chunks (s : IndexSegment) : outcome (list IndexChunk) :=
  if decide (last_ s < length (Chunks (seg_index s)))%nat
  then Ok (take (lengthChunks s) (drop (first s) (Chunks (seg_index s))))
  else Panic.

(** What a seed offers: a range of a file, or a run of zeros to be made of the block file. *)
Inductive SeedSegment :=
| fileSeedSegment (file : bytes) (cs : list IndexChunk) (canReflink : bool)
| nullChunkSection (from to : Z) (blockfile : bytes) (canReflink : bool).

Definition FileName (s : SeedSegment) : bytes :=
  match s with fileSeedSegment f _ _ => f | nullChunkSection _ _ _ _ => [] end.

Definition Size (s : SeedSegment) : Z :=
  match s with
  | fileSeedSegment _ cs _ =>
    match cs, last cs with
    | c :: _, Some l => u64 (Start l + CSize l - Start c)
    | _, _ => 0
    end
  | nullChunkSection from to _ _ => u64 (to - from)
  end.

(** ** File seeds (fileseed.go) *)

Record FileSeed := mkFileSeed {
  srcFile : bytes;
  fsIndex : Index;
  pos : gmap ChunkID (list nat);
  fsCanReflink : bool;
  isInvalid : bool
}.

(** [for i, c := range chunks { pos[c.ID] = append(pos[c.ID], i) }] *)
Fixpoint add_positions (i : nat) (cs : list IndexChunk) (m : gmap ChunkID (list nat))
  : gmap ChunkID (list nat) :=
  match cs with
  | [] => m
  | c :: cs => add_positions (S i) cs (<[ID c := default [] (m !! ID c) ++ [i]]> m)
  end.

Definition NewIndexSeed (CanClone : bytes -> bytes -> bool) (dstFile src : bytes) (i : Index) : FileSeed :=
  mkFileSeed src i (add_positions 0 (Chunks i) ∅) (CanClone dstFile src) false.

(** The loop of maxMatchFrom: [cs] are the chunks from [sp] on; the result is the final dp. *)
Fixpoint match_to (src : list IndexChunk) (limit : nat) (cs : list IndexChunk) (sp dp : nat) : nat :=
  if decide (limit <> 0 /\ sp = limit)%nat then dp
  else
    match src !! dp, cs with
    | Some d, c :: cs => if decide (ID c = ID d) then match_to src limit cs (S sp) (S dp) else dp
    | _, _ => dp
    end.

Definition maxMatchFrom (s : FileSeed) (cs : list IndexChunk) (p limit : nat) : list IndexChunk :=
  match cs with
  | [] => []
  | _ => take (match_to (Chunks (fsIndex s)) limit cs 0 p - p) (drop p (Chunks (fsIndex s)))
  end.

(** The loop over the positions of the first chunk. *)
Fixpoint longest (s : FileSeed) (cs : list IndexChunk) (limit : nat) (ps : list nat)
  (mtch : list IndexChunk) (max : nat) : list IndexChunk * nat :=
  match ps with
  | [] => (mtch, max)
  | p :: ps =>
    let m := maxMatchFrom s cs p limit in
    let '(mtch, max) := if decide (max < length m)%nat then (m, length m) else (mtch, max) in
    if decide (limit <> 0 /\ limit = max)%nat then (mtch, max)
    else longest s cs limit ps mtch max
  end.

(** The longest sequence without reflinks. *)
Definition reflink_limit (canReflink : bool) : nat := if canReflink then 0 else 100.

Definition file_LongestMatchWith (s : FileSeed) (cs : list IndexChunk) : nat * option SeedSegment :=
  match cs with
  | [] => (0%nat, None)
  | c :: _ =>
    if decide (Chunks (fsIndex s) = [] \/ isInvalid s = true) then (0%nat, None)
    else
      match pos s !! ID c with
      | None => (0%nat, None)
      | Some ps =>
        let '(mtch, max) := longest s cs (reflink_limit (fsCanReflink s)) ps [] 0 in
        (max, Some (fileSeedSegment (srcFile s) mtch (fsCanReflink s)))
      end
  end.

Definition file_SetInvalid (s : FileSeed) (v : bool) : FileSeed :=
  mkFileSeed (srcFile s) (fsIndex s) (pos s) (fsCanReflink s) v.

(** RegenerateIndex: a new index of the seed's file, made with the chunk sizes of the old one. *)
Definition file_RegenerateIndex (IndexFromFile : bytes -> Z -> Z -> Z -> outcome Index)
  (s : FileSeed) : outcome FileSeed :=
  let i := fsIndex s in
  i ← IndexFromFile (srcFile s) (ChunkSizeMin i) (ChunkSizeAvg i) (ChunkSizeMax i);
  Ok (mkFileSeed (srcFile s) i (add_positions 0 (Chunks i) ∅) (fsCanReflink s) false).

(** ** The null chunk seed (nullseed.go) *)

Record nullChunkSeed := mkNullSeed { nsID : ChunkID; blockfile : bytes; nsCanReflink : bool }.

(** The block file has a block of zeros when blocks can be cloned, and is empty otherwise. *)
Definition newNullChunkSeed `{Codec} (canClone : bool) (blocksize max : Z) : outcome nullChunkSeed :=
  nc ← NewNullChunk max;
  Ok (mkNullSeed (nID nc) (if canClone then replicate (Z.to_nat blocksize) Byte.x00 else []) canClone).

(** How many of the chunks are null chunks, up to the limit. *)
Fixpoint null_run (s : nullChunkSeed) (limit : nat) (cs : list IndexChunk) (n : nat) : nat :=
  match cs with
  | [] => n
  | c :: cs =>
    if decide (limit <> 0 /\ limit = n)%nat then n
    else if decide (ID c = nsID s) then null_run s limit cs (S n)
    else n
  end.

Definition null_LongestMatchWith (s : nullChunkSeed) (cs : list IndexChunk) : nat * option SeedSegment :=
  let n := null_run s (reflink_limit (nsCanReflink s)) cs 0 in
  match cs, cs !! Nat.pred n with
  | c :: _, Some l =>
    if decide (n = 0%nat) then (0%nat, None)
    else (n, Some (nullChunkSection (Start c) (u64 (Start l + CSize l)) (blockfile s) (nsCanReflink s)))
  | _, _ => (0%nat, None)
  end.

(** ** Seeds *)

Inductive Seed := SFile (s : FileSeed) | SNull (s : nullChunkSeed).

Definition LongestMatchWith (s : Seed) (cs : list IndexChunk) : nat * option SeedSegment :=
  match s with SFile s => file_LongestMatchWith s cs | SNull s => null_LongestMatchWith s cs end.

Definition IsInvalid (s : Seed) : bool :=
  match s with SFile s => isInvalid s | SNull _ => false end.

(** A null seed panics: it is never expected to be invalid, and cannot be regenerated. *)
Definition SetInvalid (s : Seed) (v : bool) : outcome Seed :=
  match s with SFile s => Ok (SFile (file_SetInvalid s v)) | SNull _ => Panic end.

Definition RegenerateIndex (IndexFromFile : bytes -> Z -> Z -> Z -> outcome Index) (s : Seed)
  : outcome Seed :=
  match s with
  | SFile s => s ← file_RegenerateIndex IndexFromFile s; Ok (SFile s)
  | SNull _ => Panic
  end.

(** ** The sequencer (sequencer.go) *)

Record SeedSequencer := mkSequencer { seeds : list Seed; sqIndex : Index; current : nat }.

(** A candidate names its seed by its place in the list; without a source it names none. *)
Record SeedSegmentCandidate := mkCandidate {
  seed : option nat;
  source : option SeedSegment;
  indexSegment : IndexSegment
}.

Abbreviation Plan := (list SeedSegmentCandidate).

Definition NewSeedSequencer (i : Index) (src : list Seed) : SeedSequencer := mkSequencer src i 0.

(** The loop of Next over the seeds, [k] being the place of the first. *)
Fixpoint best_match (ss : list Seed) (cs : list IndexChunk) (k : nat)
  (best : option nat * option SeedSegment * nat * Z) : option nat * option SeedSegment * nat * Z :=
  match ss with
  | [] => best
  | s :: ss =>
    let best :=
      match LongestMatchWith s cs with
      | (n, Some m) =>
        let '(_, _, _, max) := best in
        if decide (0 < n /\ (max < Size m)%Z)%nat then (Some k, Some m, n, Size m) else best
      | (_, None) => best
      end in
    best_match ss cs (S k) best
  end.

Definition Next (r : SeedSequencer) : SeedSegmentCandidate * bool * SeedSequencer :=
  let '(sd, src, advance, _) :=
    best_match (seeds r) (drop (current r) (Chunks (sqIndex r))) 0 (None, None, 1%nat, 0) in
  let segment := mkIndexSegment (sqIndex r) (current r) (current r + advance - 1) in
  let cur := (current r + advance)%nat in
  (mkCandidate sd src segment, bool_decide (length (Chunks (sqIndex r)) <= cur)%nat,
   mkSequencer (seeds r) (sqIndex r) cur).

(** The loop of Plan; [fuel] bounds the number of segments. *)
Fixpoint plan_loop (fuel : nat) (r : SeedSequencer) : outcome (Plan * SeedSequencer) :=
  match fuel with
  | O => NoFuel
  | S fuel =>
    let '(c, done_, r) := Next r in
    if done_ then Ok ([c], r)
    else '(p, r) ← plan_loop fuel r; Ok (c :: p, r)
  end.

Definition MakePlan (r : SeedSequencer) : outcome (Plan * SeedSequencer) :=
  plan_loop (S (length (Chunks (sqIndex r)))) r.

Definition Rewind (r : SeedSequencer) : SeedSequencer := mkSequencer (seeds r) (sqIndex r) 0.

Definition isFileSeed (c : SeedSegmentCandidate) : bool :=
  match source c with Some s => bool_decide (FileName s <> []) | None => false end.

(** RegenerateInvalidSeeds: an error keeps the seeds regenerated before it. *)
Fixpoint RegenerateInvalidSeeds (IndexFromFile : bytes -> Z -> Z -> Z -> outcome Index) (ss : list Seed)
  : outcome unit * list Seed :=
  match ss with
  | [] => (Ok tt, [])
  | s :: ss =>
    if IsInvalid s then
      match RegenerateIndex IndexFromFile s with
      | Ok s => let '(r, ss) := RegenerateInvalidSeeds IndexFromFile ss in (r, s :: ss)
      | Err e => (Err e, s :: ss)
      | Panic => (Panic, s :: ss)
      | NoFuel => (NoFuel, s :: ss)
      end
    else let '(r, ss) := RegenerateInvalidSeeds IndexFromFile ss in (r, s :: ss)
  end.

(** ** The self seed (selfseed.go) *)

Record selfSeed := mkSelfSeed {
  ssFile : bytes;
  ssIndex : Index;
  ssPos : gmap ChunkID (list nat);
  ssCanReflink : bool;
  written : nat;
  cache : gmap nat nat
}.

Definition newSelfSeed (CanClone : bytes -> bytes -> bool) (file : bytes) (i : Index) : selfSeed :=
  mkSelfSeed file i ∅ (CanClone file file) 0 ∅.

(** The loop of add: move on while the next segment is in the cache. A segment beyond the index
    panics. *)
Fixpoint add_loop (fuel : nat) (s : selfSeed) : outcome selfSeed :=
  match fuel with
  | O => NoFuel
  | S fuel =>
    match cache s !! written s with
    | None => Ok s
    | Some next =>
      if decide (next <= length (Chunks (ssIndex s)))%nat then
        add_loop fuel (mkSelfSeed (ssFile s) (ssIndex s)
          (add_positions (written s) (take (next - written s) (drop (written s) (Chunks (ssIndex s)))) (ssPos s))
          (ssCanReflink s) next (delete (written s) (cache s)))
      else Panic
    end
  end.

Definition add (s : selfSeed) (segment : IndexSegment) : outcome selfSeed :=
  let c := <[first segment := (last_ segment + 1)%nat]> (cache s) in
  add_loop (S (size c)) (mkSelfSeed (ssFile s) (ssIndex s) (ssPos s) (ssCanReflink s) (written s) c).

Definition getChunk (s : selfSeed) (i : ChunkID) : outcome (option SeedSegment) :=
  match ssPos s !! i with
  | None => Ok None
  | Some [] => Panic
  | Some (p :: _) =>
    Ok (Some (fileSeedSegment (ssFile s) (take 1 (drop p (Chunks (ssIndex s)))) (ssCanReflink s)))
  end.

(** ** Matching: what LongestMatchWith finds *)

Abbreviation ids := (map ID).

(** The first [k] chunks of [cs] and of [l] have the same IDs. *)
Definition agree (k : nat) (cs l : list IndexChunk) : Prop :=
  (k <= length cs)%nat /\ (k <= length l)%nat /\ ids (take k cs) = ids (take k l).

Lemma agree_0 cs l : agree 0 cs l.
Proof. repeat split; lia. Qed.

Lemma agree_S k c d cs l : agree (S k) (c :: cs) (d :: l) <-> ID c = ID d /\ agree k cs l.
Proof.
  unfold agree. cbn [length take map]. split.
  - intros (H1 & H2 & [= E E']). repeat split; [done|lia|lia|done].
  - intros (E & H1 & H2 & E'). repeat split; [lia|lia|]. by rewrite E, E'.
Qed.

Lemma agree_mono j k cs l : (j <= k)%nat -> agree k cs l -> agree j cs l.
Proof.
  intros Hjk (H1 & H2 & E). repeat split; [lia|lia|].
  apply (f_equal (take j)) in E. by rewrite !firstn_map, !take_take, !Nat.min_l in E by lia.
Qed.

(** The run found by the loop of maxMatchFrom: it agrees, and none within the limit is longer. *)
Lemma match_to_spec src limit cs : forall sp dp,
  (limit <> 0 -> sp <= limit)%nat ->
  exists n, match_to src limit cs sp dp = (dp + n)%nat /\ agree n cs (drop dp src) /\
    (limit <> 0 -> sp + n <= limit)%nat /\
    forall k, (limit <> 0 -> sp + k <= limit)%nat -> agree k cs (drop dp src) -> (k <= n)%nat.
Proof.
  induction cs as [|c cs IH]; intros sp dp Hsp; cbn [match_to].
  - exists 0%nat. repeat split; try lia.
    + goal_decide Hl; [lia|]. destruct (src !! dp); lia.
    + by intros k _ (H & _).
  - goal_decide Hl.
    { exists 0%nat. split; [lia|]. split; [apply agree_0|]. split; lia. }
    destruct (src !! dp) as [d|] eqn:Hd.
    + rewrite (drop_S _ _ _ Hd). goal_decide Hid.
      * destruct (IH (S sp) (S dp)) as (n & -> & Ha & Hb & Hmax); [lia|].
        exists (S n). split; [lia|]. split; [by apply agree_S|]. split; [lia|].
        intros [|k] Hk Hak; [lia|]. apply agree_S in Hak as [_ Hak].
        specialize (Hmax k ltac:(lia) Hak). lia.
      * exists 0%nat. split; [lia|]. split; [apply agree_0|]. split; [lia|].
        intros [|k] _ Hak; [lia|]. by apply agree_S in Hak as [? _].
    + exists 0%nat. split; [lia|]. split; [apply agree_0|]. split; [lia|].
      intros k _ (_ & Hk & _). apply lookup_ge_None in Hd. rewrite length_drop in Hk. lia.
Qed.

(** A run within the limit of a seed. *)
Definition allowed (limit k : nat) : Prop := (limit <> 0 -> k <= limit)%nat.

Lemma maxMatchFrom_spec s cs p limit :
  exists n, maxMatchFrom s cs p limit = take n (drop p (Chunks (fsIndex s))) /\
    length (maxMatchFrom s cs p limit) = n /\
    agree n cs (drop p (Chunks (fsIndex s))) /\ allowed limit n /\
    forall k, allowed limit k -> agree k cs (drop p (Chunks (fsIndex s))) -> (k <= n)%nat.
Proof.
  destruct (match_to_spec (Chunks (fsIndex s)) limit cs 0 p) as (n & Hn & Ha & Hlim & Hmax); [lia|].
  exists n. assert (E : maxMatchFrom s cs p limit = take n (drop p (Chunks (fsIndex s)))).
  { unfold maxMatchFrom. destruct cs as [|c cs].
    - destruct Ha as (Ha & _). cbn in Ha. by replace n with 0%nat by lia.
    - rewrite Hn. f_equal. lia. }
  split; [done|]. split; [|exact (conj Ha (conj Hlim Hmax))].
  rewrite E, length_take. destruct Ha as (_ & Ha & _). lia.
Qed.

(** The positions of a list of chunks, by ID. *)
Lemma add_positions_spec cs : forall i m x p,
  p ∈ default [] (add_positions i cs m !! x) <->
  p ∈ default [] (m !! x) \/ exists k c, p = (i + k)%nat /\ cs !! k = Some c /\ ID c = x.
Proof.
  induction cs as [|c cs IH]; intros i m x p; cbn [add_positions].
  - split; [by left|]. intros [H|(k & c & _ & H & _)]; [done|by rewrite lookup_nil in H].
  - rewrite IH. destruct (decide (ID c = x)) as [<-|Hne].
    + rewrite lookup_insert_eq. cbn [from_option Datatypes.id]. rewrite elem_of_app, list_elem_of_singleton. split.
      * intros [[H| ->]|(k & d & -> & Hk & Hd)]; [by left| |].
        -- right. exists 0%nat, c. by rewrite Nat.add_0_r.
        -- right. exists (S k), d. split; [lia|done].
      * intros [H|([|k] & d & -> & Hk & Hd)]; [by left; left| |].
        -- left. right. lia.
        -- right. exists k, d. split; [lia|done].
    + rewrite lookup_insert_ne by done. split.
      * intros [H|(k & d & -> & Hk & Hd)]; [by left|]. right. exists (S k), d. split; [lia|done].
      * intros [H|([|k] & d & -> & Hk & Hd)]; [by left|cbn in Hk; congruence|].
        right. exists k, d. split; [lia|done].
Qed.

Lemma add_positions_nonempty cs : forall i m x,
  m !! x <> Some [] -> add_positions i cs m !! x <> Some [].
Proof.
  induction cs as [|c cs IH]; intros i m x Hm; cbn [add_positions]; [done|]. apply IH.
  destruct (decide (ID c = x)) as [<-|Hne]; [|by rewrite lookup_insert_ne].
  rewrite lookup_insert_eq. intros [= E]. by destruct (default [] (m !! ID c)).
Qed.

Lemma add_positions_app cs cs' : forall i m,
  add_positions i (cs ++ cs') m = add_positions (i + length cs) cs' (add_positions i cs m).
Proof.
  induction cs as [|c cs IH]; intros i m; cbn [add_positions app length]; [by rewrite Nat.add_0_r|].
  rewrite IH. f_equal. lia.
Qed.

(** The table of a file seed describes its index, as NewIndexSeed and RegenerateIndex leave it. *)
Definition file_seed_ok (s : FileSeed) : Prop := pos s = add_positions 0 (Chunks (fsIndex s)) ∅.

Lemma file_seed_pos s x p :
  file_seed_ok s ->
  p ∈ default [] (pos s !! x) <-> exists c, Chunks (fsIndex s) !! p = Some c /\ ID c = x.
Proof.
  intros ->. rewrite add_positions_spec, lookup_empty. cbn. rewrite elem_of_nil. split.
  - intros [?|(k & c & -> & H)]; [done|by exists c].
  - intros (c & H). right. by exists p, c.
Qed.

Lemma longest_spec s cs limit ps : forall mtch max,
  allowed limit max -> length mtch = max ->
  (max = 0%nat \/ exists p, mtch = take max (drop p (Chunks (fsIndex s))) /\
                          agree max cs (drop p (Chunks (fsIndex s)))) ->
  let '(m, n) := longest s cs limit ps mtch max in
  allowed limit n /\ length m = n /\ (max <= n)%nat /\
  (n = 0%nat \/ exists p, m = take n (drop p (Chunks (fsIndex s))) /\
                          agree n cs (drop p (Chunks (fsIndex s)))) /\
  forall p k, p ∈ ps -> allowed limit k -> agree k cs (drop p (Chunks (fsIndex s))) -> (k <= n)%nat.
Proof.
  induction ps as [|p ps IH]; intros mtch max Hlim Hlen Hm; cbn [longest].
  - repeat split; auto. intros p k Hp. by apply not_elem_of_nil in Hp.
  - destruct (maxMatchFrom_spec s cs p limit) as (n & E & Elen & Ha & Hn & Hmax).
    assert (Hstep : exists mtch' max',
      (if decide (max < length (maxMatchFrom s cs p limit))%nat
       then (maxMatchFrom s cs p limit, length (maxMatchFrom s cs p limit)) else (mtch, max)) = (mtch', max') /\
      allowed limit max' /\ length mtch' = max' /\ (max <= max')%nat /\ (n <= max')%nat /\
      (max' = 0%nat \/ exists p, mtch' = take max' (drop p (Chunks (fsIndex s))) /\
                          agree max' cs (drop p (Chunks (fsIndex s))))).
    { destruct (decide (max < length (maxMatchFrom s cs p limit))%nat) as [Hlt|Hge].
      - exists (maxMatchFrom s cs p limit), n. rewrite Elen in *. repeat split; auto; try lia.
        right. by exists p.
      - exists mtch, max. rewrite Elen in Hge. repeat split; auto; lia. }
    destruct Hstep as (mtch' & max' & -> & Hlim' & Hlen' & Hge & Hn' & Hm').
    goal_decide Hbreak.
    + repeat split; auto. intros q k _ Hk _. unfold allowed in Hk. lia.
    + specialize (IH mtch' max' Hlim' Hlen' Hm').
      destruct (longest s cs limit ps mtch' max') as [m r]. destruct IH as (? & ? & ? & ? & Hall).
      repeat split; auto; [lia|]. intros q k [->|Hq]%elem_of_cons Hk Hak; [|by eapply Hall].
      specialize (Hmax k Hk Hak). lia.
Qed.

(** LongestMatchWith of a file seed, on every branch. *)
Lemma file_match_spec s cs :
  file_seed_ok s ->
  let '(n, m) := file_LongestMatchWith s cs in
  (isInvalid s = true -> n = 0%nat) /\ allowed (reflink_limit (fsCanReflink s)) n /\
  (isInvalid s = false -> forall p k, allowed (reflink_limit (fsCanReflink s)) k ->
    agree k cs (drop p (Chunks (fsIndex s))) -> (k <= n)%nat) /\
  (n <> 0%nat -> exists p,
    m = Some (fileSeedSegment (srcFile s) (take n (drop p (Chunks (fsIndex s)))) (fsCanReflink s)) /\
    agree n cs (drop p (Chunks (fsIndex s)))).
Proof.
  intros Hok. unfold file_LongestMatchWith.
  assert (Hnone : forall (P : Prop), (cs = [] \/ Chunks (fsIndex s) = [] \/ isInvalid s = true) ->
    (isInvalid s = true -> 0%nat = 0%nat) /\ allowed (reflink_limit (fsCanReflink s)) 0 /\
    (isInvalid s = false -> forall p k, allowed (reflink_limit (fsCanReflink s)) k ->
      agree k cs (drop p (Chunks (fsIndex s))) -> (k <= 0)%nat) /\ (0%nat <> 0%nat -> P)).
  { intros P Hc. split; [done|]. split; [unfold allowed; lia|]. split; [|done].
    intros Hv p k _ (H1 & H2 & _). destruct Hc as [->|[E|E]]; [done| |congruence].
    rewrite E, drop_nil in H2. done. }
  destruct cs as [|c cs]; [apply Hnone; by left|].
  goal_decide Hv.
  { apply Hnone. by right. }
  assert (Hpos : forall p k, k <> 0%nat -> agree k (c :: cs) (drop p (Chunks (fsIndex s))) ->
    p ∈ default [] (pos s !! ID c)).
  { intros p [|k] Hk Hak; [done|]. apply file_seed_pos; [done|].
    destruct (drop p (Chunks (fsIndex s))) as [|d l] eqn:E;
      [by destruct Hak as (_ & ?%Nat.nle_succ_0 & _)|].
    apply agree_S in Hak as [Eid _]. exists d. split; [|done].
    rewrite <- (Nat.add_0_r p), <- lookup_drop, E. done. }
  destruct (pos s !! ID c) as [ps|].
  - pose proof (longest_spec s (c :: cs) (reflink_limit (fsCanReflink s)) ps [] 0) as Hl.
    destruct (longest s (c :: cs) _ ps [] 0) as [m n].
    destruct Hl as (Hlim & Hlen & _ & Hm & Hmax); [unfold allowed; lia|done|by left|].
    split; [intros Hi; destruct Hv; by right|]. split; [done|]. split.
    + intros _ p [|k] Hk Hak; [lia|]. eapply Hmax; [|done|exact Hak]. by eapply (Hpos p (S k)).
    + intros Hn. destruct Hm as [?|(p & -> & Ha)]; [done|]. by exists p.
  - split; [done|]. split; [unfold allowed; lia|]. split; [|done].
    intros _ p [|k] _ Hak; [lia|]. specialize (Hpos p (S k) ltac:(lia) Hak). set_solver.
Qed.

(** C14. What a file seed offers is a longest match: with the positions of its index, LongestMatchWith
    returns a number of chunks within the limit (100 without reflinks), no run of chunks anywhere
    in the seed's index that is within the limit and agrees with the wanted chunks is longer, and
    if the number is not zero the segment is such a run of that length. An invalid seed offers
    nothing. *)
Theorem longest_match_maximal s cs :
  file_seed_ok s ->
  let '(n, m) := file_LongestMatchWith s cs in
  (isInvalid s = true -> n = 0%nat) /\ allowed (reflink_limit (fsCanReflink s)) n /\
  (isInvalid s = false -> forall p k, allowed (reflink_limit (fsCanReflink s)) k ->
    agree k cs (drop p (Chunks (fsIndex s))) -> (k <= n)%nat) /\
  (n <> 0%nat -> exists p,
    m = Some (fileSeedSegment (srcFile s) (take n (drop p (Chunks (fsIndex s)))) (fsCanReflink s)) /\
    agree n cs (drop p (Chunks (fsIndex s)))).
Proof. apply file_match_spec. Qed.

(** ** Plans *)

(** What a segment of any seed says about the chunks it is offered for. *)
Definition offers (ss : list Seed) (k : nat) (m : SeedSegment) (cs : list IndexChunk) : Prop :=
  match ss !! k, m with
  | Some (SFile s), fileSeedSegment f l r =>
    f = srcFile s /\ r = fsCanReflink s /\ ids l = ids cs /\ isInvalid s = false /\
    exists p, l = take (length cs) (drop p (Chunks (fsIndex s)))
  | Some (SNull s), nullChunkSection from to b r =>
    Forall (fun c => ID c = nsID s) cs /\ b = blockfile s /\ r = nsCanReflink s /\
    (from = default 0 (Start <$> head cs)) /\
    (to = default 0 ((fun l => u64 (Start l + CSize l)) <$> last cs))
  | _, _ => False
  end.

Definition seed_ok (s : Seed) : Prop := match s with SFile s => file_seed_ok s | SNull _ => True end.

Lemma null_run_spec s limit cs : forall n,
  exists k, null_run s limit cs n = (n + k)%nat /\ (k <= length cs)%nat /\
    Forall (fun c => ID c = nsID s) (take k cs).
Proof.
  induction cs as [|c cs IH]; intros n; cbn [null_run].
  - exists 0%nat. split; [lia|done].
  - goal_decide Hl; [exists 0%nat; split; [lia|]; split; [lia|done]|].
    goal_decide Hid; [|exists 0%nat; split; [lia|]; split; [lia|done]].
    destruct (IH (S n)) as (k & -> & Hk & Hall). exists (S k). split; [lia|]. cbn [length take].
    split; [lia|]. by constructor.
Qed.

(** Every seed keeps to the interface: a match is offered for as many of the wanted chunks. *)
Lemma LongestMatchWith_offers ss k s cs n m :
  ss !! k = Some s -> seed_ok s -> LongestMatchWith s cs = (n, Some m) -> n <> 0%nat ->
  (n <= length cs)%nat /\ offers ss k m (take n cs).
Proof.
  intros Hk Hok Hm Hn. unfold offers. rewrite Hk. destruct s as [s|s]; cbn in Hm, Hok.
  - pose proof (file_match_spec s cs Hok) as Hl. rewrite Hm in Hl.
    destruct Hl as (Hinv & _ & _ & Hl). destruct (Hl Hn) as (p & [= ->] & (H1 & H2 & E)).
    split; [done|]. repeat split; auto.
    + destruct (isInvalid s) eqn:Ei; [|done]. by destruct Hn, Hinv.
    + exists p. by rewrite length_take, Nat.min_l.
  - unfold null_LongestMatchWith in Hm.
    destruct (null_run_spec s (reflink_limit (nsCanReflink s)) cs 0) as (j & Hj & Hlen & Hall).
    rewrite Hj in Hm. cbn [Nat.add] in Hm. destruct cs as [|c cs]; [done|].
    destruct ((c :: cs) !! Nat.pred j) as [l|] eqn:Hl; [|done].
    destruct (decide (j = 0%nat)); [congruence|]. injection Hm as <- <-.
    split; [done|]. split; [done|]. split; [done|]. split; [done|]. split.
    + by destruct j.
    + rewrite last_lookup, length_take, Nat.min_l by done. by rewrite lookup_take_lt, Hl by lia.
Qed.

(** The chunks of a segment that lies in its index. *)
Definition seg_chunks (s : IndexSegment) : list IndexChunk :=
  take (lengthChunks s) (drop (first s) (Chunks (seg_index s))).

(** A plan from chunk [a] on: segments that follow each other up to the end of the index; one
    without a source is a single chunk, the others have what a seed offers for their chunks, and
    no seed had a larger match at that place. *)
Fixpoint plan_covers (ss : list Seed) (i : Index) (a : nat) (p : Plan) : Prop :=
  match p with
  | [] => a = length (Chunks i)
  | c :: p =>
    let g := indexSegment c in
    (seg_index g = i /\ first g = a /\ (a <= last_ g < length (Chunks i))%nat) /\
    match source c with
    | None => seed c = None /\ last_ g = a
    | Some m => exists k, seed c = Some k /\ offers ss k m (seg_chunks g)
    end /\
    (forall k s n m, ss !! k = Some s -> LongestMatchWith s (drop a (Chunks i)) = (n, Some m) ->
      n <> 0%nat -> Size m <= default 0 (Size <$> source c)) /\
    plan_covers ss i (S (last_ g)) p
  end.

(** What the loop of Next has found among the seeds it has seen. *)
Definition best_ok (all : list Seed) (cs : list IndexChunk)
  (b : option nat * option SeedSegment * nat * Z) : Prop :=
  let '(sd, src, n, max) := b in
  match src with
  | None => sd = None /\ n = 1%nat /\ max = 0
  | Some m => exists k, sd = Some k /\ (0 < n <= length cs)%nat /\ offers all k m (take n cs) /\ max = Size m
  end.

Lemma Size_nonneg m : 0 <= Size m.
Proof.
  destruct m as [f l r|from to b r]; cbn; [|apply u64_range].
  destruct l as [|c l]; [done|]. destruct (last (c :: l)); [apply u64_range|done].
Qed.

Lemma best_match_spec pre ss cs best :
  Forall seed_ok ss -> best_ok (pre ++ ss) cs best ->
  let '(sd, src, n, max) := best_match ss cs (length pre) best in
  best_ok (pre ++ ss) cs (sd, src, n, max) /\ (snd best <= max)%Z /\
  forall k s n' m, ss !! k = Some s -> LongestMatchWith s cs = (n', Some m) -> n' <> 0%nat -> Size m <= max.
Proof.
  intros Hok. revert pre best. induction Hok as [|s ss Hs Hok IH]; intros pre best Hb; cbn [best_match].
  - destruct best as [[[sd src] n] max]. split; [done|]. split; [cbn; lia|].
    intros k s n' m Hk. by rewrite lookup_nil in Hk.
  - assert (Happ : pre ++ s :: ss = (pre ++ [s]) ++ ss) by (by rewrite <- app_assoc).
    assert (Hlen : S (length pre) = length (pre ++ [s])) by (rewrite length_app; cbn; lia).
    match goal with |- context [best_match ss cs _ ?b] => set (best' := b) end.
    assert (Hb' : best_ok (pre ++ s :: ss) cs best' /\ (snd best <= snd best')%Z /\
      forall n' m, LongestMatchWith s cs = (n', Some m) -> n' <> 0%nat -> Size m <= snd best').
    { unfold best'. destruct best as [[[sd src] n] max].
      destruct (LongestMatchWith s cs) as [n' [m|]] eqn:Em; [|split; [done|split; [cbn; lia|done]]].
      goal_decide Hlt; [|split; [done|]; split; [cbn; lia|]; intros ? ? [= <- <-] ?; cbn; lia].
      split; [|split; [cbn; lia|intros ? ? [= <- <-] _; cbn; lia]].
      destruct (LongestMatchWith_offers (pre ++ s :: ss) (length pre) s cs n' m) as [Hle Hof];
        [by apply list_lookup_middle|done|done|lia|].
      exists (length pre). repeat split; [lia|lia|done]. }
    destruct Hb' as (Hb' & Hge & Hsize). rewrite Hlen. rewrite Happ in Hb' |- *.
    specialize (IH (pre ++ [s]) best' Hb').
    destruct (best_match ss cs (length (pre ++ [s])) best') as [[[sd src] n] max].
    destruct IH as (IH1 & IH2 & IH3). split; [done|]. split; [lia|].
    intros [|k] s' n' m Hk Hm Hn; [|by eapply IH3].
    injection Hk as <-. specialize (Hsize n' m Hm Hn). lia.
Qed.

Lemma best_match_max ss cs :
  Forall seed_ok ss ->
  let '(sd, src, n, max) := best_match ss cs 0 (None, None, 1%nat, 0) in
  best_ok ss cs (sd, src, n, max) /\ max = default 0 (Size <$> src) /\
  forall k s n' m, ss !! k = Some s -> LongestMatchWith s cs = (n', Some m) -> n' <> 0%nat -> Size m <= max.
Proof.
  intros Hok. pose proof (best_match_spec [] ss cs (None, None, 1%nat, 0) Hok) as Hb.
  cbn [length app] in Hb. destruct (best_match ss cs 0 _) as [[[sd src] n] max].
  destruct Hb as (H1 & _ & H3); [done|]. split; [done|]. split; [|done].
  destruct src as [m|]; [by destruct H1 as (k & _ & _ & _ & ->)|by destruct H1 as (_ & _ & ->)].
Qed.

Lemma plan_loop_spec ss i (Hok : Forall seed_ok ss) : forall fuel a,
  (a < length (Chunks i))%nat -> (length (Chunks i) - a < fuel)%nat ->
  exists p r, plan_loop fuel (mkSequencer ss i a) = Ok (p, r) /\ seeds r = ss /\ sqIndex r = i /\
    plan_covers ss i a p.
Proof.
  induction fuel as [|fuel IH]; intros a Ha Hfuel; [lia|].
  cbn [plan_loop]. unfold Next. cbn [seeds sqIndex current].
  pose proof (best_match_max ss (drop a (Chunks i)) Hok) as Hb.
  destruct (best_match ss (drop a (Chunks i)) 0 _) as [[[sd src] n] max].
  destruct Hb as (Hb & -> & Hmax).
  assert (Hn : (0 < n)%nat /\ (a + n <= length (Chunks i))%nat).
  { destruct src as [m|]; cbn in Hb.
    - destruct Hb as (k & _ & Hn & _). rewrite length_drop in Hn. lia.
    - destruct Hb as (_ & -> & _). lia. }
  assert (Hhead : forall p, plan_covers ss i (a + n) p ->
    plan_covers ss i a (mkCandidate sd src (mkIndexSegment i a (a + n - 1)) :: p)).
  { intros p Hp. cbn. split; [split; [done|split; [done|lia]]|]. split; [|split; [done|]].
    - destruct src as [m|]; cbn in Hb.
      + destruct Hb as (k & -> & _ & Hof & _). exists k. split; [done|].
        unfold seg_chunks, lengthChunks. cbn. by replace (a + n - 1 - a + 1)%nat with n by lia.
      + destruct Hb as (-> & -> & _). split; [done|lia].
    - by replace (S (a + n - 1)) with (a + n)%nat by lia. }
  case_bool_decide as Hend.
  - eexists _, _. split; [done|]. split; [done|]. split; [done|]. apply Hhead. cbn. lia.
  - destruct (IH (a + n)%nat) as (p & r & -> & Hr & Hr' & Hp); [lia|lia|].
    eexists _, _. split; [done|]. split; [done|]. split; [done|]. by apply Hhead.
Qed.

Lemma MakePlan_spec ss i :
  Chunks i <> [] -> Forall seed_ok ss ->
  exists p r, MakePlan (NewSeedSequencer i ss) = Ok (p, r) /\ seeds r = ss /\ sqIndex r = i /\
    plan_covers ss i 0 p.
Proof.
  intros Hne Hok. unfold MakePlan, NewSeedSequencer. cbn [sqIndex].
  destruct (Chunks i) as [|c cs] eqn:E; [done|]. rewrite <- E.
  apply plan_loop_spec; [done|rewrite E; cbn; lia|lia].
Qed.

(** C15. Plan terminates on every non-empty index, and its segments follow each other without gap or
    overlap from the first chunk to the last; a segment without a source is one chunk, for the
    store; a segment with a source has one that a seed in the list offers for exactly these
    chunks, ID by ID, from a contiguous range of the seed; and no seed had a larger match at that
    place. *)
Theorem plan_correct ss i :
  Chunks i <> [] -> Forall seed_ok ss ->
  exists p r, MakePlan (NewSeedSequencer i ss) = Ok (p, r) /\ plan_covers ss i 0 p.
Proof. intros Hne Hok. destruct (MakePlan_spec ss i Hne Hok) as (p & r & ? & _ & _ & ?). by exists p, r. Qed.

(** On an empty index, Plan makes a segment of a chunk that does not exist. *)
Example plan_of_nothing ss i :
  Chunks i = [] -> (forall s, s ∈ ss -> fst (LongestMatchWith s []) = 0%nat) ->
  MakePlan (NewSeedSequencer i ss) =
    Ok ([mkCandidate None None (mkIndexSegment i 0 0)], mkSequencer ss i 1).
Proof.
  intros E Hss. unfold MakePlan, NewSeedSequencer. cbn [sqIndex]. rewrite E. cbn.
  unfold Next. cbn [seeds sqIndex current]. rewrite E. cbn [drop].
  assert (Hb : forall k, best_match ss [] k (None, None, 1%nat, 0) = (None, None, 1%nat, 0)).
  { induction ss as [|s ss IH]; intros k; cbn [best_match]; [done|].
    destruct (LongestMatchWith s []) as [n [m|]] eqn:Em.
    - pose proof (Hss s ltac:(set_solver)) as Hn. rewrite Em in Hn. cbn in Hn. subst n.
      goal_decide Hd; [lia|]. apply IH. set_solver.
    - apply IH. set_solver. }
  by rewrite Hb.
Qed.

(** ** The self seed: segments may be added in any order *)

(** What the self seed knows, [added] being the segments passed to add so far: the positions
    recorded are those of the chunks before [written], all of which were added, and the cache has
    the segments that are ahead. *)
Record self_seed_inv (s : selfSeed) (added : IndexSegment -> Prop) : Prop := {
  ssi_pos : ssPos s = add_positions 0 (take (written s) (Chunks (ssIndex s))) ∅;
  ssi_written : (written s <= length (Chunks (ssIndex s)))%nat;
  ssi_done k : (k < written s)%nat -> exists g, added g /\ (first g <= k <= last_ g /\ last_ g < written s)%nat;
  ssi_cache a b : cache s !! a = Some b ->
    (a < b <= length (Chunks (ssIndex s)))%nat /\ exists g, added g /\ first g = a /\ b = S (last_ g);
  ssi_next g : added g -> (last_ g < written s)%nat \/ cache s !! first g = Some (S (last_ g));
}.

(** Segments are disjoint when they start at different chunks, as those of a plan are. *)
Definition well_placed (i : Index) (g : IndexSegment) : Prop :=
  (first g <= last_ g < length (Chunks i))%nat.

Lemma add_loop_spec added : forall fuel s,
  self_seed_inv s added -> (size (cache s) < fuel)%nat ->
  exists s', add_loop fuel s = Ok s' /\ self_seed_inv s' added /\ cache s' !! written s' = None /\
    ssIndex s' = ssIndex s /\ ssFile s' = ssFile s /\ ssCanReflink s' = ssCanReflink s /\
    (written s <= written s')%nat.
Proof.
  induction fuel as [|fuel IH]; intros s Hi Hfuel; [lia|]. cbn [add_loop].
  destruct (cache s !! written s) as [next|] eqn:Hc; [|by exists s].
  destruct (ssi_cache _ _ Hi _ _ Hc) as ([Hlt Hle] & g & Hg & Hfirst & ->).
  goal_decide Hd; [|lia].
  match goal with |- context [add_loop fuel ?x] => set (s1 := x) end.
  destruct (IH s1) as (s' & Hs' & Hi' & Hn & E1 & E2 & E3 & Hw).
  - unfold s1. split; cbn [ssPos ssIndex written cache].
    + rewrite (ssi_pos _ _ Hi). set (cs := Chunks (ssIndex s)) in *.
      assert (E : take (S (last_ g)) cs =
        take (written s) cs ++ take (S (last_ g) - written s) (drop (written s) cs)).
      { rewrite <- (take_drop (written s) cs) at 1. rewrite take_app, length_take, Nat.min_l by lia.
        f_equal. by rewrite take_take, Nat.min_r by lia. }
      rewrite E, add_positions_app, length_take, Nat.min_l by lia. done.
    + done.
    + intros k Hk. destruct (decide (k < written s)%nat) as [Hlt'|]; [|exists g; split; [done|lia]].
      destruct (ssi_done _ _ Hi k Hlt') as (h & Hh & Hr). exists h. split; [done|lia].
    + intros a b Hab. apply lookup_delete_Some in Hab as [_ Hab]. by apply (ssi_cache _ _ Hi).
    + intros h Hh. destruct (ssi_next _ _ Hi h Hh) as [H|H]; [left; lia|].
      destruct (decide (first h = written s)) as [E|Hne]; [left|right; by rewrite lookup_delete_ne].
      rewrite E, Hc in H. injection H as H. lia.
  - assert (size (cache s) <> 0%nat).
    { intros E%map_size_empty_iff. by rewrite E, lookup_empty in Hc. }
    unfold s1. cbn [cache]. rewrite map_size_delete, Hc. lia.
  - exists s'. split; [done|]. split; [done|]. split; [done|]. split; [done|]. split; [done|].
    split; [done|]. cbn in Hw. lia.
Qed.

Lemma add_spec s added g :
  self_seed_inv s added -> cache s !! written s = None -> well_placed (ssIndex s) g ->
  (forall h, added h -> first h <> first g) -> (written s <= first g)%nat ->
  exists s', add s g = Ok s' /\ self_seed_inv s' (fun h => h = g \/ added h) /\
    cache s' !! written s' = None /\
    ssIndex s' = ssIndex s /\ ssFile s' = ssFile s /\ ssCanReflink s' = ssCanReflink s.
Proof.
  intros Hi Hn Hg Hnew Hge. unfold add, well_placed in *.
  match goal with |- context [add_loop _ ?x] => set (s1 := x) end.
  destruct (add_loop_spec (fun h => h = g \/ added h) (S (size (<[first g:=(last_ g + 1)%nat]> (cache s)))) s1)
    as (s' & Hs' & Hi' & Hn' & E1 & E2 & E3 & _).
  - unfold s1. split; cbn [ssPos ssIndex written cache].
    + apply (ssi_pos _ _ Hi).
    + apply (ssi_written _ _ Hi).
    + intros k Hk. destruct (ssi_done _ _ Hi k Hk) as (h & Hh & ?). exists h. split; [by right|done].
    + intros a b [[<- <-]|[Hne Hab]]%lookup_insert_Some.
      * split; [lia|]. exists g. split; [by left|]. split; [done|lia].
      * destruct (ssi_cache _ _ Hi a b Hab) as (? & h & ? & ?). split; [done|]. exists h. split; [by right|done].
    + intros h [->|Hh].
      * right. rewrite lookup_insert_eq. f_equal. lia.
      * destruct (ssi_next _ _ Hi h Hh); [by left|right].
        rewrite lookup_insert_ne; [done|]. by apply not_eq_sym, Hnew.
  - cbn. lia.
  - by exists s'.
Qed.

(** Adding the segments of a list one after the other. *)
Fixpoint add_all (s : selfSeed) (gs : list IndexSegment) : outcome selfSeed :=
  match gs with
  | [] => Ok s
  | g :: gs => s ← add s g; add_all s gs
  end.

(** The segments of a plan are disjoint. *)
Definition disjoint_segments (i : Index) (gs : list IndexSegment) : Prop :=
  Forall (well_placed i) gs /\ NoDup (map first gs) /\
  (forall g h, g ∈ gs -> h ∈ gs -> (first g < first h)%nat -> (last_ g < first h)%nat).

Lemma NoDup_first gs g h :
  NoDup (map first gs) -> g ∈ gs -> h ∈ gs -> first g = first h -> g = h.
Proof.
  intros Hnd Hg Hh E. induction gs as [|x gs IH]; [by apply not_elem_of_nil in Hg|].
  cbn in Hnd. apply NoDup_cons in Hnd as [Hx Hnd].
  apply elem_of_cons in Hg as [->|Hg], Hh as [->|Hh]; [done| | |by apply IH].
  - destruct Hx. rewrite E. by apply (list_elem_of_fmap_2 first).
  - destruct Hx. rewrite <- E. by apply (list_elem_of_fmap_2 first).
Qed.

(** One more segment of a disjoint list. *)
Lemma add_disjoint i gs s (added : IndexSegment -> Prop) g :
  disjoint_segments i gs -> (forall h, added h -> h ∈ gs) -> g ∈ gs -> ~ added g ->
  ssIndex s = i -> self_seed_inv s added -> cache s !! written s = None ->
  exists s', add s g = Ok s' /\ self_seed_inv s' (fun h => h = g \/ added h) /\
    cache s' !! written s' = None /\
    ssIndex s' = ssIndex s /\ ssFile s' = ssFile s /\ ssCanReflink s' = ssCanReflink s.
Proof.
  intros (Hall & Hnd & Hdis) Hsub Hg Hnew E Hi Hn.
  assert (Hne : forall h, added h -> first h <> first g).
  { intros h Hh Ef. apply Hnew. by rewrite <- (NoDup_first gs h g Hnd (Hsub h Hh) Hg Ef). }
  apply add_spec; try done.
  - rewrite E. rewrite Forall_forall in Hall. by apply Hall.
  - destruct (decide (written s <= first g)%nat) as [|Hlt]; [done|exfalso].
    destruct (ssi_done _ _ Hi (first g)) as (h & Hh & Hr); [lia|].
    specialize (Hdis h g (Hsub h Hh) Hg). specialize (Hne h Hh). lia.
Qed.

Lemma newSelfSeed_inv canClone file i : self_seed_inv (newSelfSeed canClone file i) (fun _ => False).
Proof. split; cbn; intros; try done; lia. Qed.

Lemma self_seed_inv_iff s P Q : (forall g, P g <-> Q g) -> self_seed_inv s P -> self_seed_inv s Q.
Proof.
  intros HPQ Hi. split; try apply Hi.
  - intros k Hk. destruct (ssi_done _ _ Hi k Hk) as (g & ? & ?). exists g. by rewrite <- HPQ.
  - intros a b Hab. destruct (ssi_cache _ _ Hi a b Hab) as (? & g & ? & ?). split; [done|].
    exists g. by rewrite <- HPQ.
  - intros g Hg. apply (ssi_next _ _ Hi). by apply HPQ.
Qed.

Lemma add_all_spec i gs : forall l s (added : IndexSegment -> Prop),
  disjoint_segments i gs -> (forall h, added h -> h ∈ gs) -> l ⊆ gs -> NoDup l ->
  (forall g, g ∈ l -> ~ added g) -> ssIndex s = i ->
  self_seed_inv s added -> cache s !! written s = None ->
  exists s', add_all s l = Ok s' /\ self_seed_inv s' (fun h => h ∈ l \/ added h) /\
    cache s' !! written s' = None /\ ssIndex s' = i.
Proof.
  induction l as [|g l IH]; intros s added Hdis Hsub Hl Hnd Hnew E Hi Hn; cbn [add_all].
  - exists s. split; [done|]. split; [|done]. revert Hi. apply self_seed_inv_iff. intros h. rewrite elem_of_nil. tauto.
  - apply NoDup_cons in Hnd as [Hgl Hnd].
    destruct (add_disjoint i gs s added g) as (s1 & -> & Hi1 & Hn1 & E1 & _); try done; [by apply Hl; left|by apply Hnew; left|].
    cbn [mbind outcome_bind].
    destruct (IH s1 (fun h => h = g \/ added h)) as (s' & Hs' & Hi' & Hn' & E'); try done.
    + intros h [->|Hh]; [apply Hl; by left|by apply Hsub].
    + intros h Hh. apply Hl. by right.
    + intros h Hh [->|Ha]; [done|]. apply (Hnew h); [by right|done].
    + congruence.
    + exists s'. split; [done|]. split; [|done]. revert Hi'. apply self_seed_inv_iff. intros h. rewrite elem_of_cons. tauto.
Qed.

(** The self seed does not depend on the order in which segments are finished: after any part
    [gs] of a plan's segments has been added, in any order, the position map is exactly the table of
    the chunks before [written], each of them lies in an added segment, no added segment starts
    at [written], and if the segments cover the index, [written] is its end. *)
Theorem self_seed_prefix canClone file i gs :
  disjoint_segments i gs ->
  exists s, add_all (newSelfSeed canClone file i) gs = Ok s /\
    ssPos s = add_positions 0 (take (written s) (Chunks i)) ∅ /\
    (forall k, (k < written s)%nat -> exists g, g ∈ gs /\ (first g <= k <= last_ g)%nat) /\
    (forall g, g ∈ gs -> first g <> written s) /\
    ((forall k, (k < length (Chunks i))%nat ->
        exists g, g ∈ gs /\ (first g <= k <= last_ g)%nat) -> written s = length (Chunks i)).
Proof.
  intros Hdis. assert (Hnd : NoDup gs) by (eapply NoDup_fmap_1, Hdis).
  destruct (add_all_spec i gs gs (newSelfSeed canClone file i) (fun _ => False))
    as (s & Hs & Hi & Hn & E); try done; [by auto|apply newSelfSeed_inv|].
  exists s. split; [done|]. rewrite <- E. split; [apply (ssi_pos _ _ Hi)|].
  assert (Hdone : forall k, (k < written s)%nat ->
    exists g, g ∈ gs /\ (first g <= k <= last_ g /\ last_ g < written s)%nat).
  { intros k Hk. destruct (ssi_done _ _ Hi k Hk) as (g & [Hg|[]] & ?). by exists g. }
  assert (Hfirst : forall g, g ∈ gs -> first g <> written s).
  { intros g Hg Ef. destruct (ssi_next _ _ Hi g (or_introl Hg)) as [H|H]; [|congruence].
    pose proof (proj1 (Forall_forall _ _) (proj1 Hdis) g Hg) as Hw. unfold well_placed in Hw. lia. }
  split; [intros k Hk; destruct (Hdone k Hk) as (g & ? & ?); exists g; split; [done|lia]|].
  split; [done|]. intros Hcov. pose proof (ssi_written _ _ Hi).
  destruct (decide (written s = length (Chunks (ssIndex s)))) as [|Hne]; [done|exfalso].
  destruct (Hcov (written s)) as (g & Hg & Hr); [lia|]. specialize (Hfirst g Hg).
  destruct (Hdone (first g)) as (h & Hh & Hr'); [lia|].
  destruct Hdis as (_ & Hf & Hdis). specialize (Hdis h g Hh Hg).
  assert (h <> g) by (intros ->; lia). assert (first h <> first g) by eauto using NoDup_first. lia.
Qed.

(** ** Concrete instances *)

Definition ex_mk_index (l : list IndexChunk) : Index := mkIndex (mkHeader 48 CaFormatIndex) 0 1 4 8 l.

Definition ex_target : Index :=
  ex_mk_index [mkIndexChunk [Byte.x01] 0 4; mkIndexChunk [Byte.x02] 4 4; mkIndexChunk [Byte.x03] 8 4].

Definition ex_seed : FileSeed :=
  NewIndexSeed (fun _ _ => false) (str "out") (str "seed")
    (ex_mk_index [mkIndexChunk [Byte.x02] 0 4; mkIndexChunk [Byte.x03] 4 4]).

Lemma longest_match_maximal_witness :
  file_seed_ok ex_seed /\
  forall p k, (k <= 100)%nat -> agree k (drop 1 (Chunks ex_target)) (drop p (Chunks (fsIndex ex_seed))) ->
    (k <= 2)%nat.
Proof.
  split; [reflexivity|].
  destruct (longest_match_maximal ex_seed (drop 1 (Chunks ex_target)) eq_refl) as (_ & _ & H & _).
  intros p k Hk. refine (H eq_refl p k (fun _ => Hk)).
Defined.

Lemma plan_correct_witness :
  seed_ok (SFile ex_seed) /\
  exists p r, MakePlan (NewSeedSequencer ex_target [SFile ex_seed]) = Ok (p, r) /\
    plan_covers [SFile ex_seed] ex_target 0 p.
Proof.
  split; [reflexivity|]. apply (plan_correct [SFile ex_seed] ex_target); [discriminate|].
  constructor; [reflexivity|constructor].
Defined.

(** The plan fetches the first chunk and takes the other two from the seed. *)
Example ex_plan :
  match MakePlan (NewSeedSequencer ex_target [SFile ex_seed]) with
  | Ok (p, _) => map (fun c => (seed c, first (indexSegment c), last_ (indexSegment c))) p
  | _ => []
  end = [(None, 0, 0); (Some 0, 1, 2)]%nat.
Proof. vm_compute. reflexivity. Qed.

Lemma self_seed_prefix_witness :
  let gs := [mkIndexSegment ex_target 1 2; mkIndexSegment ex_target 0 0] in
  disjoint_segments ex_target gs /\
  exists s, add_all (newSelfSeed (fun _ _ => false) (str "out") ex_target) gs = Ok s /\
    ssPos s = add_positions 0 (take (written s) (Chunks ex_target)) ∅.
Proof.
  intros gs. assert (Hd : disjoint_segments ex_target gs).
  { split; [|split].
    - repeat constructor; cbn; lia.
    - repeat constructor; set_solver.
    - intros g h Hg Hh. unfold gs in Hg, Hh.
      apply elem_of_cons in Hg as [->|[->|Hg%not_elem_of_nil]%elem_of_cons],
        Hh as [->|[->|Hh%not_elem_of_nil]%elem_of_cons]; cbn; try done; lia. }
  split; [exact Hd|].
  destruct (self_seed_prefix (fun _ _ => false) (str "out") ex_target gs Hd) as (s & H1 & H2 & _).
  exists s. split; [exact H1|exact H2].
Defined.
