(* ===== verification/Assemble.v ===== *)
(** * Assemble: writing the output of an extraction (assemble.go, extractstats.go, blocksize.go and
      the writing parts of fileseed.go and nullseed.go, sequencer.go's Validate)

    A file is its bytes, the file system a map from paths to files. Workers take the segments of
    a plan in some order; a segment is finished before the next one is looked at, which is what
    concurrent workers amount to as long as segments only touch their own range of the file and
    finished ranges: both are proved here, for chunks that have two blocks of the file system or are not
    cloned. The main theorem: when AssembleFile returns without an error and was not cancelled, every
    chunk of the index is in its place in the file, whatever the seeds contained, whatever order the
    workers took, and whatever the file contained before. The examples at the end show an extraction that
    clones, one that was interrupted, and one that a chunk of less than two blocks corrupts. *)

From S2P Require Import Prelude Format Index Chunk Stores Files Seed.

(** ** Statistics (extractstats.go) *)

Record ExtractStats := mkStats {
  ChunksFromSeeds : Z;
  ChunksFromStore : Z;
  ChunksInPlace : Z;
  BytesCopied : Z;
  BytesCloned : Z;
  Blocksize : Z;
  BytesTotal : Z;
  ChunksTotal : nat;
  Seeds : nat
}.

Definition incChunksFromStore (s : ExtractStats) : ExtractStats :=
  mkStats (ChunksFromSeeds s) (u64 (ChunksFromStore s + 1)) (ChunksInPlace s) (BytesCopied s)
    (BytesCloned s) (Blocksize s) (BytesTotal s) (ChunksTotal s) (Seeds s).
Definition incChunksInPlace (s : ExtractStats) : ExtractStats :=
  mkStats (ChunksFromSeeds s) (ChunksFromStore s) (u64 (ChunksInPlace s + 1)) (BytesCopied s)
    (BytesCloned s) (Blocksize s) (BytesTotal s) (ChunksTotal s) (Seeds s).
Definition addChunksFromSeed (n : Z) (s : ExtractStats) : ExtractStats :=
  mkStats (u64 (ChunksFromSeeds s + n)) (ChunksFromStore s) (ChunksInPlace s) (BytesCopied s)
    (BytesCloned s) (Blocksize s) (BytesTotal s) (ChunksTotal s) (Seeds s).
Definition addBytesCopied (n : Z) (s : ExtractStats) : ExtractStats :=
  mkStats (ChunksFromSeeds s) (ChunksFromStore s) (ChunksInPlace s) (u64 (BytesCopied s + n))
    (BytesCloned s) (Blocksize s) (BytesTotal s) (ChunksTotal s) (Seeds s).
Definition addBytesCloned (n : Z) (s : ExtractStats) : ExtractStats :=
  mkStats (ChunksFromSeeds s) (ChunksFromStore s) (ChunksInPlace s) (BytesCopied s)
    (u64 (BytesCloned s + n)) (Blocksize s) (BytesTotal s) (ChunksTotal s) (Seeds s).

(** ** The environment: what the operating system decides *)

Record Env := mkEnv {
  CanClone : bytes -> bytes -> bool;
  (* the FICLONERANGE ioctl: destination, source, source offset, length, destination offset *)
  ioctl_clone : bytes -> bytes -> Z -> Z -> Z -> option error * bytes;
  stat_error : bytes -> option error;          (* os.Stat fails, for another reason than absence *)
  isDevice : bytes -> bool;
  stat_blksize : bytes -> option Z;
  CreateTemp : outcome bytes;                  (* the path of the block file *)
  IndexFromFile : FS -> bytes -> Z -> Z -> Z -> outcome Index
}.

Definition blocksizeOfFile (env : Env) (name : bytes) : Z :=
  match stat_blksize env name with Some b => b | None => DefaultBlockSize end.

(** InvalidSeedAction: what to do with a seed that does not match its index. *)
Inductive InvalidSeedAction := BailOut | Skip | Regenerate.

#[global] Instance InvalidSeedAction_eq_dec : EqDecision InvalidSeedAction.
Proof. solve_decision. Defined.

(** ** Writing a segment *)

Section writing.

Context `{Codec} (env : Env).

(** What WriteInto returns: bytes copied, bytes cloned, error. *)
Abbreviation WriteResult := (Z * Z * option error)%type.

(** fileSeedSegment.copy: seek both files, then copy at most [length] bytes. *)
Definition copy_file (fs : FS) (dst src : bytes) (srcOffset length dstOffset : Z) : WriteResult * FS :=
  if decide (i64 dstOffset < 0 \/ i64 srcOffset < 0) then ((0, 0, Some (Errorf "invalid seek")), fs)
  else
    let b := rng (contents fs src) (Z.to_nat (i64 srcOffset)) (Z.to_nat (i64 length)) in
    ((Z.of_nat (List.length b), 0, None),
     <[dst := write (contents fs dst) (Z.to_nat (i64 dstOffset)) b]> fs).

(** nullChunkSection.copy: zeros instead of a file. *)
Definition copy_null (fs : FS) (dst : bytes) (offset length : Z) : WriteResult * FS :=
  if decide (i64 offset < 0) then ((0, 0, Some (Errorf "invalid seek")), fs)
  else
    let b := replicate (Z.to_nat (i64 length)) Byte.x00 in
    ((Z.of_nat (List.length b), 0, None),
     <[dst := write (contents fs dst) (Z.to_nat (i64 offset)) b]> fs).

(** CloneRange: the error is wrapped, and the destination is what the system made of it. *)
Definition CloneRange (fs : FS) (dst : bytes) (src : bytes) (srcOffset srcLength dstOffset : Z)
  : option error * FS :=
  let '(e, f) := ioctl_clone env (contents fs dst) src srcOffset srcLength dstOffset in
  (errors_Wrap e "failure cloning blocks", <[dst := f]> fs).

(** fileSeedSegment.clone; a block size of zero is a division by zero. *)
Definition clone_file (fs : FS) (dst src : bytes) (srcOffset srcLength dstOffset blocksize : Z)
  : outcome WriteResult * FS :=
  if decide (blocksize = 0) then (Panic, fs)
  else if decide (srcOffset mod blocksize <> dstOffset mod blocksize) then
    (Ok (0, 0, Some (Errorf "reflink ranges not aligned")), fs)
  else
    let srcAlignStart := u64 ((srcOffset / blocksize + 1) * blocksize) in
    let srcAlignEnd := u64 (srcOffset + srcLength) / blocksize * blocksize in
    let dstAlignStart := u64 ((dstOffset / blocksize + 1) * blocksize) in
    let alignLength := u64 (srcAlignEnd - srcAlignStart) in
    let dstAlignEnd := u64 (dstAlignStart + alignLength) in
    match copy_file fs dst src srcOffset (u64 (srcAlignStart - srcOffset)) dstOffset with
    | ((c1, _, Some err), fs) => (Ok (c1, 0, Some err), fs)
    | ((c1, _, None), fs) =>
      match copy_file fs dst src srcAlignEnd (u64 (srcOffset + srcLength - srcAlignEnd)) dstAlignEnd with
      | ((c2, _, Some err), fs) => (Ok (u64 (c1 + c2), 0, Some err), fs)
      | ((c2, _, None), fs) =>
        let '(e, fs) := CloneRange fs dst (contents fs src) srcAlignStart alignLength dstAlignStart in
        (Ok (u64 (c1 + c2), alignLength, e), fs)
      end
    end.

(** The loop of nullChunkSection.clone over the blocks. *)
Fixpoint clone_blocks (fuel : nat) (fs : FS) (dst block : bytes) (blkOffset dstAlignEnd blocksize cloned : Z)
  : outcome (Z * option error) * FS :=
  match fuel with
  | O => (NoFuel, fs)
  | S fuel =>
    if decide (blkOffset < dstAlignEnd) then
      match CloneRange fs dst block 0 blocksize blkOffset with
      | (Some err, fs) => (Ok (cloned, Some err), fs)
      | (None, fs) =>
        clone_blocks fuel fs dst block (u64 (blkOffset + blocksize)) dstAlignEnd blocksize
          (u64 (cloned + blocksize))
      end
    else (Ok (cloned, None), fs)
  end.

Definition clone_null (fs : FS) (dst block : bytes) (offset length blocksize : Z)
  : outcome WriteResult * FS :=
  if decide (blocksize = 0) then (Panic, fs)
  else
    let dstAlignStart := u64 ((offset / blocksize + 1) * blocksize) in
    let dstAlignEnd := u64 (offset + length) / blocksize * blocksize in
    match copy_null fs dst offset (u64 (dstAlignStart - offset)) with
    | ((c1, _, Some err), fs) => (Ok (c1, 0, Some err), fs)
    | ((c1, _, None), fs) =>
      match copy_null fs dst dstAlignEnd (u64 (offset + length - dstAlignEnd)) with
      | ((c2, _, Some err), fs) => (Ok (u64 (c1 + c2), 0, Some err), fs)
      | ((c2, _, None), fs) =>
        let blocks := Z.to_nat ((dstAlignEnd - dstAlignStart) / blocksize) in
        match clone_blocks (S (S blocks)) fs dst block dstAlignStart dstAlignEnd blocksize 0 with
        | (Ok (cloned, e), fs) => (Ok (u64 (c1 + c2), cloned, e), fs)
        | (Err e, fs) => (Err e, fs)
        | (Panic, fs) => (Panic, fs)
        | (NoFuel, fs) => (NoFuel, fs)
        end
      end
    end.

(** WriteInto of both kinds of segments. *)
Definition WriteInto (m : SeedSegment) (fs : FS) (dst : bytes) (offset length blocksize : Z)
  (isBlank : bool) : outcome WriteResult * FS :=
  if decide (length <> Size m) then (Ok (0, 0, Some (Errorf "wrong size")), fs)
  else
    match m with
    | fileSeedSegment file cs canReflink =>
      match fs !! file, cs with
      | None, _ => (Ok (0, 0, Some ErrNotExist), fs)
      | Some _, [] => (Panic, fs)
      | Some _, c :: _ =>
        if canReflink then
          if decide (blocksize = 0) then (Panic, fs)
          else if decide (Start c mod blocksize <> offset mod blocksize) then
            let '(r, fs) := copy_file fs dst file (Start c) length offset in (Ok r, fs)
          else clone_file fs dst file (Start c) length offset blocksize
        else let '(r, fs) := copy_file fs dst file (Start c) length offset in (Ok r, fs)
      end
    | nullChunkSection _ _ block canReflink =>
      if canReflink then clone_null fs dst block offset length blocksize
      else if isBlank then (Ok (0, 0, None), fs)
      else let '(r, fs) := copy_null fs dst offset (Size m) in (Ok r, fs)
    end.

(** fileSeedSegment.Validate compares the segment's chunks with the file; a null section is
    always valid. *)
Fixpoint validate_chunks (f : bytes) (cs : list IndexChunk) : outcome unit :=
  match cs with
  | [] => Ok tt
  | c :: cs =>
    b ← ReadAt f (CSize c) (i64 (Start c));
    if decide (Sum b = ID c) then validate_chunks f cs
    else Err (Errorf "seed index doesn't match its data")
  end.

Definition Validate_segment (m : SeedSegment) (f : bytes) : outcome unit :=
  match m with
  | fileSeedSegment _ cs _ => validate_chunks f cs
  | nullChunkSection _ _ _ _ => Ok tt
  end.

(** ** The state of an extraction, and programs on it *)

Context {W : Type}.

Record AW := mkAW { aFS : FS; aSeed : selfSeed; aStats : ExtractStats; aStore : W }.

Definition prog (A : Type) : Type := AW -> outcome A * AW.

#[local] Instance prog_ret : MRet prog := fun A a w => (Ok a, w).
#[local] Instance prog_bind : MBind prog := fun A B f m w =>
  match m w with
  | (Ok a, w) => f a w
  | (Err e, w) => (Err e, w)
  | (Panic, w) => (Panic, w)
  | (NoFuel, w) => (NoFuel, w)
  end.

Definition fail {A} (e : error) : prog A := fun w => (Err e, w).
Definition lift {A} (m : outcome A) : prog A := fun w => (m, w).
Definition count (f : ExtractStats -> ExtractStats) : prog unit := fun w =>
  (Ok tt, mkAW (aFS w) (aSeed w) (f (aStats w)) (aStore w)).
Definition read_file (name : bytes) (n off : Z) : prog bytes := fun w =>
  (ReadAt (contents (aFS w) name) n off, w).
Definition write_file (name : bytes) (off : Z) (b : bytes) : prog unit := fun w =>
  if decide (off < 0) then (Err (Errorf "negative offset"), w)
  else (Ok tt, mkAW (<[name := write (contents (aFS w) name) (Z.to_nat off) b]> (aFS w))
                 (aSeed w) (aStats w) (aStore w)).

(** WriteInto, its error returned, and the bytes copied and cloned. *)
Definition write_segment (m : SeedSegment) (name : bytes) (offset length blocksize : Z) (isBlank : bool)
  : prog (Z * Z) := fun w =>
  match WriteInto m (aFS w) name offset length blocksize isBlank with
  | (Ok (copied, cloned, None), fs) => (Ok (copied, cloned), mkAW fs (aSeed w) (aStats w) (aStore w))
  | (Ok (_, _, Some e), fs) => (Err e, mkAW fs (aSeed w) (aStats w) (aStore w))
  | (Err e, fs) => (Err e, mkAW fs (aSeed w) (aStats w) (aStore w))
  | (Panic, fs) => (Panic, mkAW fs (aSeed w) (aStats w) (aStore w))
  | (NoFuel, fs) => (NoFuel, mkAW fs (aSeed w) (aStats w) (aStore w))
  end.

(** [s.GetChunk(c.ID)] and the chunk's data. *)
Definition get_chunk (s : Store W) (i : ChunkID) : prog bytes := fun w =>
  match sGetChunk s i (aStore w) with
  | ((_, Some err), w') => (Err err, mkAW (aFS w) (aSeed w) (aStats w) w')
  | ((None, None), w') => (Panic, mkAW (aFS w) (aSeed w) (aStats w) w')
  | ((Some c, None), w') => (fst (Data c), mkAW (aFS w) (aSeed w) (aStats w) w')
  end.

Definition self_get (i : ChunkID) : prog (option SeedSegment) := fun w => (getChunk (aSeed w) i, w).

Definition self_add (g : IndexSegment) : prog unit := fun w =>
  match add (aSeed w) g with
  | Ok ss => (Ok tt, mkAW (aFS w) ss (aStats w) (aStore w))
  | Err e => (Err e, w)
  | Panic => (Panic, w)
  | NoFuel => (NoFuel, w)
  end.

(** The part of writeChunk after the in-place check. *)
Definition fetch_chunk (c : IndexChunk) (name : bytes) (blocksize : Z) (s : Store W) (isBlank : bool)
  : prog unit :=
  segment ← self_get (ID c);
  match segment with
  | Some segment =>
    '(copied, cloned) ← write_segment segment name (Start c) (CSize c) blocksize isBlank;
    _ ← count (addBytesCopied copied);
    count (addBytesCloned cloned)
  | None =>
    _ ← count incChunksFromStore;
    b ← get_chunk s (ID c);
    if decide (CSize c <> Z.of_nat (length b)) then fail (Errorf "unexpected size for chunk")
    else write_file name (i64 (Start c)) b
  end.

Definition writeChunk (c : IndexChunk) (name : bytes) (blocksize : Z) (s : Store W) (isBlank : bool)
  : prog unit :=
  if isBlank then fetch_chunk c name blocksize s isBlank
  else
    b ← read_file name (CSize c) (i64 (Start c));
    if decide (Sum b = ID c) then count incChunksInPlace
    else fetch_chunk c name blocksize s isBlank.

(** The check of the written chunks of a segment. *)
Fixpoint check_written (cs : list IndexChunk) (name : bytes) (blocksize : Z) (s : Store W)
  (isBlank : bool) (action : InvalidSeedAction) : prog unit :=
  match cs with
  | [] => mret tt
  | c :: cs =>
    b ← read_file name (CSize c) (i64 (Start c));
    _ ← (if decide (Sum b <> ID c) then
           if decide (action = Regenerate) then writeChunk c name blocksize s isBlank
           else fail (Errorf "written data doesn't match its expected hash value")
         else mret tt);
    check_written cs name blocksize s isBlank action
  end.

(** What a worker does with a job. *)
Definition run_job (name : bytes) (blocksize : Z) (s : Store W) (isBlank : bool)
  (action : InvalidSeedAction) (job : SeedSegmentCandidate) : prog unit :=
  let g := indexSegment job in
  match source job with
  | Some m =>
    _ ← count (addChunksFromSeed (Z.of_nat (lengthChunks g)));
    offset ← lift (start g);
    length ← lift (lengthBytes g);
    '(copied, cloned) ← write_segment m name offset length blocksize isBlank;
    cs ← lift (chunks g);
    _ ← check_written cs name blocksize s isBlank action;
    _ ← count (addBytesCopied copied);
    _ ← count (addBytesCloned cloned);
    self_add g
  | None =>
    cs ← lift (chunks g);
    match cs with
    | [c] => _ ← writeChunk c name blocksize s isBlank; self_add g
    | _ => lift Panic
    end
  end.

(** The workers, in the order in which they take the jobs; an error stops them. *)
Fixpoint run_jobs (name : bytes) (blocksize : Z) (s : Store W) (isBlank : bool)
  (action : InvalidSeedAction) (jobs : list SeedSegmentCandidate) : prog unit :=
  match jobs with
  | [] => mret tt
  | job :: jobs =>
    _ ← run_job name blocksize s isBlank action job;
    run_jobs name blocksize s isBlank action jobs
  end.

(** ** Validation of a plan (sequencer.go) *)

(** [s.seed.SetInvalid(true)] on the seed a candidate points to. *)
Definition invalidate (ss : list Seed) (k : option nat) : outcome (list Seed) :=
  match k with
  | None => Panic
  | Some k =>
    match ss !! k with
    | None => Panic
    | Some s => s ← SetInvalid s true; Ok (<[k := s]> ss)
    end
  end.

(** Opening the seeds of the plan; the first that cannot be opened is invalid. *)
Fixpoint open_seeds (fs : FS) (p : Plan) (ss : list Seed) : outcome (option error * list Seed) :=
  match p with
  | [] => Ok (None, ss)
  | c :: p =>
    match source c with
    | Some m =>
      if decide (FileName m = []) then open_seeds fs p ss
      else
        match fs !! FileName m with
        | Some _ => open_seeds fs p ss
        | None => ss ← invalidate ss (seed c); Ok (Some ErrNotExist, ss)
        end
    | None => open_seeds fs p ss
    end
  end.

(** The jobs the workers take, in that order: each that fails makes its seed invalid, and the first
    error is the result. *)
Fixpoint validate_jobs (fs : FS) (jobs : list SeedSegmentCandidate) (gErr : option error) (ss : list Seed)
  : outcome (option error * list Seed) :=
  match jobs with
  | [] => Ok (gErr, ss)
  | c :: jobs =>
    match source c with
    | None => Panic
    | Some m =>
      match Validate_segment m (contents fs (FileName m)) with
      | Ok _ => validate_jobs fs jobs gErr ss
      | Err e =>
        ss ← invalidate ss (seed c);
        validate_jobs fs jobs (match gErr with None => Some e | _ => gErr end) ss
      | Panic => Panic
      | NoFuel => NoFuel
      end
    end
  end.

(** [taken] are the file seed segments of the plan that the workers take before they stop. *)
Definition Validate (fs : FS) (p : Plan) (taken : list SeedSegmentCandidate) (ss : list Seed)
  : outcome (option error * list Seed) :=
  r ← open_seeds fs p ss;
  match r with
  | (Some err, ss) => Ok (Some err, ss)
  | (None, ss) => validate_jobs fs taken None ss
  end.

(** The loop around Validate: [taken] is the workers' choice in each attempt. *)
Fixpoint find_plan (fuel attempt : nat) (fs : FS) (taken : nat -> Plan -> list SeedSegmentCandidate)
  (action : InvalidSeedAction) (r : SeedSequencer) : outcome (outcome Plan) :=
  match fuel with
  | O => NoFuel
  | S fuel =>
    '(p, r) ← MakePlan r;
    '(e, ss) ← Validate fs p (taken attempt p) (seeds r);
    let r := mkSequencer ss (sqIndex r) (current r) in
    match e with
    | None => Ok (Ok p)
    | Some err =>
      match action with
      | BailOut => Ok (Err err)
      | Skip => find_plan fuel (S attempt) fs taken action (Rewind r)
      | Regenerate =>
        match RegenerateInvalidSeeds (IndexFromFile env fs) (seeds r) with
        | (Ok _, ss) =>
          find_plan fuel (S attempt) fs taken action (Rewind (mkSequencer ss (sqIndex r) (current r)))
        | (Err err, _) => Ok (Err err)
        | (Panic, _) => Panic
        | (NoFuel, _) => NoFuel
        end
      end
    end
  end.

(** ** AssembleFile *)

(** The target: created if it is missing, and then as long as the index says. *)
Definition prepare_target (name : bytes) (i : Index) (fs : FS) : outcome (bool * FS) :=
  '(isBlank, isBlkDevice, fs) ←
    match stat_error env name, fs !! name with
    | Some e, _ => Err e
    | None, None => Ok (true, false, <[name := []]> fs)
    | None, Some f =>
      if isDevice env name then Ok (false, true, fs) else Ok (bool_decide (f = []), false, fs)
    end;
  if isBlkDevice : bool then Ok (isBlank, fs)
  else if decide (Length i < 0) then Err (Errorf "truncate: invalid argument")
  else Ok (isBlank, <[name := truncate (contents fs name) (Z.to_nat (Length i))]> fs).

(** The jobs that are handed out: when the context is done ([case <-ctx.Done(): break loop]) after
    [k] of them, the rest of the plan is dropped, and g.Wait still returns nil. *)
Definition handed (cut : option nat) (p : Plan) : list SeedSegmentCandidate :=
  match cut with None => p | Some k => take k p end.

(** [taken] and [order] are the choices of the (one or more) workers, [cut] says when the context was
    cancelled, if it was; [fuel] bounds the attempts to find a valid plan. *)
Definition AssembleFile (fuel : nat) (name : bytes) (i : Index) (s : Store W) (fileSeeds : list FileSeed)
  (action : InvalidSeedAction) (taken : nat -> Plan -> list SeedSegmentCandidate)
  (order : list SeedSegmentCandidate -> list SeedSegmentCandidate) (cut : option nat) (fs : FS) (w : W)
  : outcome (outcome unit * AW) :=
  '(isBlank, fs) ← prepare_target name i fs;
  let blocksize := blocksizeOfFile env name in
  block ← CreateTemp env;
  ns ← newNullChunkSeed (CanClone env name block) blocksize (ChunkSizeMax i);
  let ss := SNull ns :: map SFile fileSeeds in
  let stats := mkStats 0 0 0 0 0 blocksize (Length i) (length (Chunks i)) (length ss) in
  p ← find_plan fuel 1 fs taken action (NewSeedSequencer i ss);
  match p with
  | Err e => Err e
  | Panic => Panic
  | NoFuel => NoFuel
  | Ok p =>
    Ok (run_jobs name blocksize s isBlank action (order (handed cut p))
          (mkAW fs (newSelfSeed (CanClone env) name i) stats w))
  end.

End writing.

(** ** WriteInto stays in its range *)

(** The documented behaviour of FICLONERANGE: a successful clone of a positive length has written
    these bytes of the source, which must have them. *)
Definition clone_law (env : Env) : Prop :=
  forall dst src so len d dst', ioctl_clone env dst src so len d = (None, dst') -> 0 < len ->
    so + len <= Z.of_nat (length src) /\
    dst' = write dst (Z.to_nat d) (rng src (Z.to_nat so) (Z.to_nat len)).

Lemma copy_file_offset fs dst src so len d c x fs' :
  copy_file fs dst src so len d = ((c, x, None), fs') -> is_u64 so -> so < 2 ^ 63.
Proof.
  intros Hc Hso. unfold copy_file in Hc.
  destruct (decide (i64 d < 0 \/ i64 so < 0)) as [|Hn]; [done|].
  destruct (decide (so < 2 ^ 63)) as [|Hge]; [done|exfalso]. apply Hn. right. unfold i64, is_u64 in *.
  replace (so + 2 ^ 63) with (so - 2 ^ 63 + 1 * 2 ^ 64) by lia. rewrite Z.mod_add, Z.mod_small; lia.
Qed.

Lemma copy_file_spec fs dst src so len d c x fs' f :
  copy_file fs dst src so len d = ((c, x, None), fs') -> fs !! dst = Some f ->
  0 <= d < 2 ^ 63 -> 0 <= len < 2 ^ 63 -> is_u64 so ->
  fs' = <[dst := write f (Z.to_nat d) (rng (contents fs src) (Z.to_nat so) (Z.to_nat len))]> fs.
Proof.
  intros Hc Hf Hd Hlen Hso. pose proof (copy_file_offset _ _ _ _ _ _ _ _ _ Hc Hso).
  unfold copy_file in Hc. destruct (decide (i64 d < 0 \/ i64 so < 0)) as [|Hn]; [done|].
  injection Hc as _ _ <-.
  rewrite (i64_small d), (i64_small so), (i64_small len) by (unfold is_i64, is_u64 in *; lia).
  by rewrite (contents_Some _ _ _ Hf).
Qed.

Lemma copy_null_spec fs dst len d c x fs' f :
  copy_null fs dst d len = ((c, x, None), fs') -> fs !! dst = Some f ->
  0 <= d < 2 ^ 63 -> 0 <= len < 2 ^ 63 ->
  fs' = <[dst := write f (Z.to_nat d) (replicate (Z.to_nat len) Byte.x00)]> fs.
Proof.
  intros Hc Hf Hd Hlen. unfold copy_null in Hc.
  destruct (decide (i64 d < 0)) as [|Hn]; [done|]. injection Hc as _ _ <-.
  rewrite (i64_small d), (i64_small len) by mach_lia. by rewrite (contents_Some _ _ _ Hf).
Qed.

(** The arithmetic of the aligned part: for ranges of at least two blocks, at the same place in a
    block. *)
Lemma align_spec so d len bs :
  0 < bs -> 2 * bs <= len -> 0 <= so -> 0 <= d -> so mod bs = d mod bs ->
  let A := (so / bs + 1) * bs in let E := (so + len) / bs * bs in let A' := (d / bs + 1) * bs in
  so < A /\ A < E /\ E <= so + len /\ A' - d = A - so /\ A - so <= bs /\ so + len - E < bs.
Proof.
  intros Hbs Hlen Hso Hd Hmod. cbn zeta.
  pose proof (Z.div_mod so bs ltac:(lia)) as H1. pose proof (Z.div_mod d bs ltac:(lia)) as H2.
  pose proof (Z.div_mod (so + len) bs ltac:(lia)) as H3.
  pose proof (Z.mod_pos_bound so bs Hbs). pose proof (Z.mod_pos_bound (so + len) bs Hbs).
  assert (so / bs + 2 <= (so + len) / bs) by (apply Z.div_le_lower_bound; nia).
  nia.
Qed.

(** The blocks of the aligned part for a range by itself (a null section). *)
Lemma align_null d len bs :
  0 < bs -> 2 * bs <= len -> 0 <= d ->
  let A := (d / bs + 1) * bs in let E := (d + len) / bs * bs in
  d < A /\ A < E /\ E <= d + len /\ A - d <= bs /\ d + len - E < bs.
Proof. intros. destruct (align_spec d d len bs) as (? & ? & ? & ? & ? & ?); auto. Qed.

(** Three writes side by side, as clone_file makes them. *)
Lemma three_writes f d n1 n2 n3 b1 b2 b3 :
  (d + n1 + n2 + n3 <= length f)%nat ->
  (length b1 <= n1)%nat -> (length b2 <= n2)%nat -> (length b3 <= n3)%nat ->
  let g := write (write (write f d b1) (d + n1 + n2) b3) (d + n1) b2 in
  only_range f g d (d + n1 + n2 + n3) /\
  (length b1 = n1 -> length b2 = n2 -> length b3 = n3 -> rng g d (n1 + n2 + n3) = b1 ++ b2 ++ b3).
Proof.
  intros Hle H1 H2 H3. cbn zeta. set (f1 := write f d b1). set (f3 := write f1 (d + n1 + n2) b3).
  assert (O1 : only_range f f1 d (d + n1)) by (apply only_range_write; lia).
  assert (L1 : length f1 = length f) by (apply O1).
  assert (O3 : only_range f1 f3 (d + n1 + n2) (d + n1 + n2 + n3)) by (apply only_range_write; lia).
  assert (L3 : length f3 = length f1) by (apply O3).
  assert (O2 : only_range f3 (write f3 (d + n1) b2) (d + n1) (d + n1 + n2)) by (apply only_range_write; lia).
  split.
  - eapply only_range_trans; [eapply only_range_mono, O1; lia|].
    eapply only_range_trans; [eapply only_range_mono, O3; lia|]. eapply only_range_mono, O2; lia.
  - intros E1 E2 E3. rewrite rng_add, rng_add, <- app_assoc. f_equal; [|f_equal].
    + rewrite (rng_only _ _ _ _ _ _ O2), (rng_only _ _ _ _ _ _ O3) by lia.
      rewrite <- E1. apply rng_write. lia.
    + rewrite <- E2. apply rng_write. lia.
    + rewrite Nat.add_assoc, (rng_only _ _ _ _ _ _ O2) by lia. rewrite <- E3. apply rng_write. lia.
Qed.



(** What a write of [len] bytes at [d] of [f] must be: only this range, and the source's bytes where
    the source has them and is not the range itself. *)
Definition writes (fs : FS) (dst src : bytes) (f f' : bytes) (so len d : nat) : Prop :=
  only_range f f' d (d + len) /\
  (forall g, fs !! src = Some g -> (so + len <= length g)%nat ->
     (src <> dst \/ (so + len <= d \/ d + len <= so)%nat) -> rng f' d len = rng g so len).

(** Other contents of the source while the destination is being written. *)
Lemma source_unchanged fs dst src f f1 so len d n s m :
  fs !! dst = Some f -> only_range f f1 d (d + n) -> (n <= len)%nat ->
  (src <> dst \/ (so + len <= d \/ d + len <= so)%nat) ->
  (so <= s)%nat -> (s + m <= so + len)%nat ->
  rng (contents (<[dst := f1]> fs) src) s m = rng (contents fs src) s m.
Proof.
  intros Hf Ho Hn Hsrc Hs Hm. destruct (decide (src = dst)) as [->|Hne].
  - rewrite contents_insert, (contents_Some _ _ _ Hf). apply (rng_only _ _ _ _ _ _ Ho).
    destruct Hsrc as [?|Hsrc]; [done|lia].
  - unfold contents. by rewrite lookup_insert_ne.
Qed.

(** Three copies side by side from one source, the third to be written last. *)
Lemma three_copies fs dst src f so d n1 n2 n3 :
  fs !! dst = Some f -> (d + n1 + n2 + n3 <= length f)%nat ->
  let f1 := write f d (rng (contents fs src) so n1) in
  let f3 := write f1 (d + n1 + n2) (rng (contents (<[dst := f1]> fs) src) (so + n1 + n2) n3) in
  let f2 := write f3 (d + n1) (rng (contents (<[dst := f3]> fs) src) (so + n1) n2) in
  writes fs dst src f f2 so (n1 + n2 + n3) d.
Proof.
  intros Hf Hle. cbn zeta. set (b1 := rng (contents fs src) so n1). set (f1 := write f d b1).
  set (b3 := rng _ (so + n1 + n2) n3). set (f3 := write f1 (d + n1 + n2) b3).
  set (b2 := rng _ (so + n1) n2).
  assert (H1 : (length b1 <= n1)%nat) by apply length_rng_le.
  assert (H2 : (length b2 <= n2)%nat) by apply length_rng_le.
  assert (H3 : (length b3 <= n3)%nat) by apply length_rng_le.
  destruct (three_writes f d n1 n2 n3 b1 b2 b3 Hle H1 H2 H3) as [Ho He]. split.
  - eapply only_range_mono, Ho; lia.
  - intros g Hg Hlen Hsrc.
    assert (O1 : only_range f f1 d (d + n1)) by (apply only_range_write; lia).
    assert (L1 : length f1 = length f) by (apply O1).
    assert (O3 : only_range f f3 d (d + (n1 + n2 + n3))).
    { eapply only_range_trans; [eapply only_range_mono, O1; lia|]. apply only_range_write; lia. }
    assert (E3 : b3 = rng (contents fs src) (so + n1 + n2) n3).
    { unfold b3. eapply source_unchanged; [exact Hf|exact O1| |exact Hsrc| |]; lia. }
    assert (E2 : b2 = rng (contents fs src) (so + n1) n2).
    { unfold b2. eapply source_unchanged; [exact Hf|exact O3| |exact Hsrc| |]; lia. }
    rewrite (contents_Some _ _ _ Hg) in E2, E3.
    etransitivity; [apply He|].
    + unfold b1. rewrite (contents_Some _ _ _ Hg). apply length_rng. lia.
    + rewrite E2. apply length_rng. lia.
    + rewrite E3. apply length_rng. lia.
    + unfold b1. rewrite (contents_Some _ _ _ Hg), E2, E3, !rng_add, <- app_assoc. by rewrite Nat.add_assoc.
Qed.

Lemma clone_file_spec env fs dst src so len d bs c1 c2 fs' f :
  clone_law env -> clone_file env fs dst src so len d bs = (Ok (c1, c2, None), fs') ->
  fs !! dst = Some f -> Z.of_nat (length f) < 2 ^ 63 -> 0 <= d -> d + len <= Z.of_nat (length f) ->
  is_u64 so -> 0 < bs -> 2 * bs <= len ->
  exists f', fs' = <[dst := f']> fs /\ writes fs dst src f f' (Z.to_nat so) (Z.to_nat len) (Z.to_nat d).
Proof.
  intros Hlaw Hc Hf Hflen Hd Hle Hso Hbs Hlen. unfold clone_file in Hc.
  destruct (decide (bs = 0)); [done|].
  destruct (decide (so mod bs <> d mod bs)) as [|Hmod]; [done|]. apply dec_stable in Hmod.
  set (A := (so / bs + 1) * bs) in *. set (A' := (d / bs + 1) * bs) in *.
  destruct (copy_file fs dst src so (u64 (u64 A - so)) d) as [[[n1 x1] [err|]] fs1] eqn:Hc1; [done|].
  pose proof (copy_file_offset _ _ _ _ _ _ _ _ _ Hc1 Hso) as Hso'.
  destruct (align_spec so d len bs) as (HA & HAE & HE & HA' & Hb1 & Hb3); try done; [apply Hso|].
  fold A A' in HA, HAE, HA', Hb1. unfold is_u64 in Hso.
  rewrite (u64_id A), (u64_id (so + len)), (u64_id A') in * by lia.
  set (E := (so + len) / bs * bs) in *.
  rewrite (u64_id (A - so)), (u64_id (E - A)), (u64_id (A' + (E - A))),
    (u64_id (so + len - E)) in * by lia.
  pose proof (copy_file_spec _ _ _ _ _ _ _ _ _ _ Hc1 Hf ltac:(lia) ltac:(lia) Hso) as E1.
  set (f1 := write f (Z.to_nat d) _) in E1.
  destruct (copy_file fs1 dst src E (so + len - E) (A' + (E - A))) as [[[n3 x3] [err|]] fs3] eqn:Hc3; [done|].
  assert (Hf1 : fs1 !! dst = Some f1) by (rewrite E1; apply lookup_insert_eq).
  pose proof (copy_file_spec _ _ _ _ _ _ _ _ _ _ Hc3 Hf1 ltac:(lia) ltac:(lia) ltac:(mach_lia)) as E3.
  set (f3 := write f1 _ _) in E3.
  assert (Hf3 : fs3 !! dst = Some f3) by (rewrite E3; apply lookup_insert_eq).
  unfold CloneRange in Hc. rewrite (contents_Some _ _ _ Hf3) in Hc.
  destruct (ioctl_clone env f3 (contents fs3 src) A (E - A) A') as [e f2] eqn:Hio.
  injection Hc as _ _ He <-. destruct e; [done|].
  destruct (Hlaw _ _ _ _ _ _ Hio ltac:(lia)) as [_ ->].
  assert (Hcol : forall x : bytes, <[dst := x]> fs3 = <[dst := x]> fs)
    by (intros; by rewrite E3, E1, !insert_insert_eq).
  eexists. split; [apply Hcol|].
  replace (Z.to_nat len) with (Z.to_nat (A - so) + Z.to_nat (E - A) + Z.to_nat (so + len - E))%nat by lia.
  assert (Hcontents : contents fs3 src = contents (<[dst := f3]> fs) src)
    by (by rewrite E3, E1, insert_insert_eq).
  rewrite Hcontents. unfold f3, f1. rewrite E1.
  replace (Z.to_nat A') with (Z.to_nat d + Z.to_nat (A - so))%nat by lia.
  replace (Z.to_nat (A' + (E - A))) with (Z.to_nat d + Z.to_nat (A - so) + Z.to_nat (E - A))%nat by lia.
  replace (Z.to_nat A) with (Z.to_nat so + Z.to_nat (A - so))%nat by lia.
  replace (Z.to_nat E) with (Z.to_nat so + Z.to_nat (A - so) + Z.to_nat (E - A))%nat by lia.
  apply three_copies; [done|lia].
Qed.

(** [fs'] has the file [dst] changed in a range, and no other file. *)
Definition changes (fs fs' : FS) (dst f : bytes) (a b : nat) : Prop :=
  exists f', fs' = <[dst := f']> fs /\ only_range f f' a b.

Lemma changes_trans fs fs1 fs2 dst f f1 a b :
  fs1 = <[dst := f1]> fs -> only_range f f1 a b -> changes fs1 fs2 dst f1 a b -> changes fs fs2 dst f a b.
Proof.
  intros -> Ho (f2 & -> & Ho2). exists f2. rewrite insert_insert_eq. split; [done|].
  by eapply only_range_trans.
Qed.

Lemma copy_null_changes fs dst len d c x fs' f :
  copy_null fs dst d len = ((c, x, None), fs') -> fs !! dst = Some f ->
  0 <= d -> 0 <= len -> d + len <= Z.of_nat (length f) -> Z.of_nat (length f) < 2 ^ 63 ->
  changes fs fs' dst f (Z.to_nat d) (Z.to_nat (d + len)).
Proof.
  intros Hc Hf Hd Hlen Hle Hf63.
  rewrite (copy_null_spec _ _ _ _ _ _ _ _ Hc Hf) by lia. eexists. split; [done|].
  apply only_range_write; rewrite ?length_replicate; lia.
Qed.

Lemma clone_blocks_spec env dst block bs a b (Hlaw : clone_law env) (Hbs : 0 < bs) :
  forall fuel fs k E cl cl' fs' f,
  clone_blocks env fuel fs dst block k E bs cl = (Ok (cl', None), fs') ->
  fs !! dst = Some f -> Z.of_nat (length f) < 2 ^ 63 ->
  0 <= a <= k -> (exists j, 0 <= j /\ E = k + j * bs) \/ E <= k -> E <= b -> b <= Z.of_nat (length f) ->
  changes fs fs' dst f (Z.to_nat a) (Z.to_nat b).
Proof.
  induction fuel as [|fuel IH]; intros fs k E cl cl' fs' f Hc Hf Hf63 Ha Hj HE Hb; [done|].
  cbn [clone_blocks] in Hc. destruct (decide (k < E)) as [Hlt|Hge].
  - unfold CloneRange in Hc. rewrite (contents_Some _ _ _ Hf) in Hc.
    destruct (ioctl_clone env f block 0 bs k) as [[e|] f1] eqn:Hio; [done|]. cbn in Hc.
    destruct (Hlaw _ _ _ _ _ _ Hio Hbs) as [Hlen ->].
    destruct Hj as [(j & Hj & HEj)|?]; [|lia]. assert (1 <= j) by nia.
    assert (Hlb : (length (rng block (Z.to_nat 0) (Z.to_nat bs)) <= Z.to_nat bs)%nat) by apply length_rng_le.
    assert (Ho : only_range f (write f (Z.to_nat k) (rng block (Z.to_nat 0) (Z.to_nat bs)))
      (Z.to_nat a) (Z.to_nat b)) by (apply only_range_write; nia).
    assert (Hl1 := proj1 Ho).
    eapply changes_trans; [reflexivity|exact Ho|].
    eapply IH; [exact Hc|apply lookup_insert_eq|by rewrite Hl1| | |done|by rewrite Hl1].
    + rewrite u64_id by nia. lia.
    + left. exists (j - 1). rewrite u64_id by nia. nia.
  - injection Hc as _ <-. exists f. rewrite insert_id by done. by split.
Qed.

Lemma clone_null_changes env fs dst block d len bs c1 c2 fs' f :
  clone_law env -> clone_null env fs dst block d len bs = (Ok (c1, c2, None), fs') ->
  fs !! dst = Some f -> Z.of_nat (length f) < 2 ^ 63 -> 0 <= d -> d + len <= Z.of_nat (length f) ->
  0 < bs -> 2 * bs <= len ->
  changes fs fs' dst f (Z.to_nat d) (Z.to_nat (d + len)).
Proof.
  intros Hlaw Hc Hf Hf63 Hd Hle Hbs Hlen. unfold clone_null in Hc.
  destruct (decide (bs = 0)); [done|].
  destruct (align_null d len bs) as (HA & HAE & HE & Hb1 & Hb3); try done.
  set (A := (d / bs + 1) * bs) in *.
  rewrite (u64_id A), (u64_id (d + len)) in * by lia. set (E := (d + len) / bs * bs) in *.
  rewrite (u64_id (A - d)), (u64_id (d + len - E)) in * by lia.
  destruct (copy_null fs dst d (A - d)) as [[[n1 x1] [err|]] fs1] eqn:Hc1; [done|].
  destruct (copy_null_changes _ _ _ _ _ _ _ _ Hc1 Hf) as (f1 & E1 & O1); [lia..|].
  assert (Hf1 : fs1 !! dst = Some f1) by (rewrite E1; apply lookup_insert_eq).
  assert (L1 : length f1 = length f) by apply O1.
  destruct (copy_null fs1 dst E (d + len - E)) as [[[n3 x3] [err|]] fs3] eqn:Hc3; [done|].
  destruct (copy_null_changes _ _ _ _ _ _ _ _ Hc3 Hf1) as (f3 & E3 & O3); [lia..|].
  assert (Hf3 : fs3 !! dst = Some f3) by (rewrite E3; apply lookup_insert_eq).
  assert (L3 : length f3 = length f1) by apply O3.
  eapply changes_trans; [exact E1|eapply only_range_mono, O1; lia|].
  eapply changes_trans; [exact E3|eapply only_range_mono, O3; lia|].
  destruct (clone_blocks env _ fs3 dst block A E bs 0) as [[[cl e]|e| |] fs4] eqn:Hcb; try done.
  injection Hc as _ _ -> <-.
  eapply (clone_blocks_spec env dst block bs d (d + len) Hlaw Hbs); [exact Hcb|done|lia|lia| |lia|lia].
  left. exists ((d + len) / bs - (d / bs + 1)). unfold A, E in *. nia.
Qed.

(** Whether a segment is written by cloning. *)
Definition reflinks (m : SeedSegment) : bool :=
  match m with fileSeedSegment _ _ r | nullChunkSection _ _ _ r => r end.

(** Cloning is safe on ranges of at least two blocks: with less, the areas before the first and after
    the last aligned block overlap and more than the range is written. *)
Definition reflink_safe (m : SeedSegment) (bs len : Z) : Prop :=
  reflinks m = true -> 0 < bs /\ 2 * bs <= len.

(** The offsets of a segment's chunks are those of a seed's index: 64-bit words. *)
Definition offsets_ok (m : SeedSegment) : Prop :=
  match m with fileSeedSegment _ (c :: _) _ => is_u64 (Start c) | _ => True end.

Lemma copy_file_writes fs dst src f so len d c x fs' :
  copy_file fs dst src so len d = ((c, x, None), fs') -> fs !! dst = Some f ->
  Z.of_nat (length f) < 2 ^ 63 -> 0 <= d -> 0 <= len -> d + len <= Z.of_nat (length f) -> is_u64 so ->
  exists f', fs' = <[dst := f']> fs /\ writes fs dst src f f' (Z.to_nat so) (Z.to_nat len) (Z.to_nat d).
Proof.
  intros Hc Hf Hf63 Hd Hlen Hle Hso. rewrite (copy_file_spec _ _ _ _ _ _ _ _ _ _ Hc Hf) by (done || lia).
  pose proof (length_rng_le (contents fs src) (Z.to_nat so) (Z.to_nat len)) as Hl.
  eexists. split; [done|]. split; [apply only_range_write; lia|].
  intros g Hg Hgl _. rewrite (contents_Some _ _ _ Hg) in *.
  rewrite <- (length_rng g (Z.to_nat so) (Z.to_nat len)) at 2 by lia. apply rng_write.
  rewrite length_rng; lia.
Qed.

(** WriteInto, when it returns no error: the destination changes in the range only, and a file
    segment has become a copy of its source. *)
Lemma WriteInto_spec env m fs dst d len bs isBlank c1 c2 fs' f :
  clone_law env -> WriteInto env m fs dst d len bs isBlank = (Ok (c1, c2, None), fs') ->
  fs !! dst = Some f -> Z.of_nat (length f) < 2 ^ 63 -> 0 <= d -> 0 <= len ->
  d + len <= Z.of_nat (length f) -> reflink_safe m bs len -> offsets_ok m ->
  len = Size m /\
  exists f', fs' = <[dst := f']> fs /\ only_range f f' (Z.to_nat d) (Z.to_nat (d + len)) /\
    match m with
    | fileSeedSegment file (c :: _) _ =>
      writes fs dst file f f' (Z.to_nat (Start c)) (Z.to_nat len) (Z.to_nat d)
    | _ => True
    end.
Proof.
  intros Hlaw Hw Hf Hf63 Hd Hlen Hle Hsafe Hoff. unfold WriteInto in Hw.
  destruct (decide (len <> Size m)) as [|Hsize]; [done|]. apply dec_stable in Hsize.
  split; [done|]. replace (Z.to_nat (d + len)) with (Z.to_nat d + Z.to_nat len)%nat by lia.
  destruct m as [file cs r|from to block r]; cbn [reflink_safe reflinks offsets_ok] in *.
  - destruct (fs !! file) as [g|]; [|done]. destruct cs as [|c cs]; [done|].
    assert (Hcopy : forall r fs'', copy_file fs dst file (Start c) len d = (r, fs'') ->
      (Ok r, fs'') = (Ok (c1, c2, None), fs') ->
      exists f', fs' = <[dst := f']> fs /\ only_range f f' (Z.to_nat d) (Z.to_nat d + Z.to_nat len) /\
        writes fs dst file f f' (Z.to_nat (Start c)) (Z.to_nat len) (Z.to_nat d)).
    { intros r' fs'' Hc [= -> ->].
      destruct (copy_file_writes _ _ _ _ _ _ _ _ _ _ Hc Hf) as (f' & E & Hwr); [done..|].
      exists f'. split; [done|]. split; [apply Hwr|done]. }
    destruct r.
    + destruct (Hsafe eq_refl) as [Hbs H2]. destruct (decide (bs = 0)); [done|].
      destruct (decide (Start c mod bs <> d mod bs)).
      * destruct (copy_file fs dst file (Start c) len d) as [r' fs''] eqn:Hc. by eapply Hcopy.
      * destruct (clone_file_spec _ _ _ _ _ _ _ _ _ _ _ _ Hlaw Hw Hf) as (f' & E & Hwr); [done..|].
        exists f'. split; [done|]. split; [apply Hwr|done].
    + destruct (copy_file fs dst file (Start c) len d) as [r' fs''] eqn:Hc. by eapply Hcopy.
  - assert (Hch : changes fs fs' dst f (Z.to_nat d) (Z.to_nat (d + len)) ->
      exists f', fs' = <[dst := f']> fs /\ only_range f f' (Z.to_nat d) (Z.to_nat d + Z.to_nat len) /\ True).
    { intros (f' & ? & ?). exists f'.
      by replace (Z.to_nat d + Z.to_nat len)%nat with (Z.to_nat (d + len)) by lia. }
    apply Hch. destruct r.
    + destruct (Hsafe eq_refl) as [Hbs H2].
      by eapply clone_null_changes.
    + destruct isBlank.
      * injection Hw as _ _ <-. exists f. by rewrite insert_id.
      * destruct (copy_null fs dst d _) as [r' fs''] eqn:Hc. injection Hw as -> ->.
        rewrite <- Hsize in Hc. by eapply copy_null_changes.
Qed.

(** ** Running a job *)

Section jobs.

Context `{Codec} (env : Env) {W : Type} (s : Store W).
Context (name : bytes) (i : Index) (T bs : Z) (isBlank : bool) (action : InvalidSeedAction).

(** The store hands out verified chunks: [NewChunkFromStorage_verifies] for the stores that do not
    skip verification. *)
Definition verified_store : Prop :=
  forall id w c w' d, sGetChunk s id w = ((Some c, None), w') -> fst (Data c) = Ok d -> Sum d = id.

Context (Hstore : verified_store) (Hlaw : clone_law env) (Hlay : layout i T).

Lemma prog_bind_ok {A B} (f : A -> prog B) (m : prog A) (w : AW (W := W)) b w' :
  prog_bind A B f m w = (Ok b, w') -> exists a w1, m w = (Ok a, w1) /\ f a w1 = (Ok b, w').
Proof. unfold prog_bind. destruct (m w) as [[a|e| |] w1]; intros E; try discriminate; eauto. Qed.

Definition good (f : bytes) (c : IndexChunk) : Prop := Sum (place f c) = ID c.

(** A chunk that lies in the range from [a] to [b] of a file of [T] bytes. *)
Definition inside (a b : Z) (c : IndexChunk) : Prop :=
  0 <= a <= Start c /\ 0 <= CSize c /\ Start c + CSize c <= b <= T.

(** A chunk of the index that is not in the segment. *)
Definition outside (g : IndexSegment) (d : IndexChunk) : Prop :=
  exists j, Chunks i !! j = Some d /\ ~ (first g <= j <= last_ g)%nat.

(** What the self seed may offer while the segment [g], the range from [a] to [b], is being written: one
    chunk, finished, and elsewhere. *)
Definition self_ok (g : IndexSegment) (f : bytes) (ss : selfSeed) (a b : Z) : Prop :=
  forall id m, getChunk ss id = Ok (Some m) ->
    exists d, m = fileSeedSegment name [d] (ssCanReflink ss) /\ ID d = id /\ good f d /\
      0 <= Start d /\ 0 <= CSize d /\ Start d + CSize d <= T /\
      (Start d + CSize d <= a \/ b <= Start d) /\ outside g d.

Lemma good_only f f' a b d :
  0 <= a <= b -> only_range f f' (Z.to_nat a) (Z.to_nat b) -> good f d ->
  0 <= Start d -> 0 <= CSize d -> (Start d + CSize d <= a \/ b <= Start d) -> good f' d.
Proof.
  intros Hab Ho Hg H1 H2 Hd. unfold good, place in *. erewrite rng_only; [done|exact Ho|lia].
Qed.

Lemma self_ok_only g f f' ss a b :
  0 <= a <= b -> only_range f f' (Z.to_nat a) (Z.to_nat b) -> self_ok g f ss a b -> self_ok g f' ss a b.
Proof.
  intros Hab Ho Hs id m Hm. destruct (Hs id m Hm) as (d & ? & ? & ? & ? & ? & ? & ? & ?).
  exists d. split_and!; try done. by eapply good_only.
Qed.

(** When blocks are cloned within the target, chunks that are there twice have at least two of them. *)
Definition self_safe (g : IndexSegment) (ss : selfSeed) (c : IndexChunk) : Prop :=
  ssCanReflink ss = true -> 0 < bs /\ forall d, outside g d -> ID d = ID c -> 2 * bs <= CSize c.

(** One step of a program has changed the range from [a] to [b] of the target and nothing else that
    matters, and kept the self seed. *)
Definition steps_in (w w' : AW (W := W)) (a b : Z) (P : bytes -> Prop) : Prop :=
  forall f, aFS w !! name = Some f -> Z.of_nat (length f) = T ->
    aSeed w' = aSeed w /\ exists f', aFS w' = <[name := f']> (aFS w) /\
      only_range f f' (Z.to_nat a) (Z.to_nat b) /\ P f'.

Lemma ReadAt_place f c b :
  0 <= Start c < 2 ^ 63 -> ReadAt f (CSize c) (i64 (Start c)) = Ok b -> b = place f c.
Proof.
  intros Hc Hr. unfold ReadAt in Hr. rewrite i64_small in Hr by mach_lia.
  destruct (decide (maxAlloc < CSize c)); [done|]. destruct (decide (Start c < 0)); [done|].
  destruct (decide _); [|done]. by injection Hr as <-.
Qed.

Lemma fetch_chunk_spec sg c w w' a b f :
  fetch_chunk env c name bs s isBlank w = (Ok tt, w') -> inside a b c ->
  aFS w !! name = Some f -> Z.of_nat (length f) = T ->
  self_ok sg f (aSeed w) a b -> self_safe sg (aSeed w) c ->
  steps_in w w' (Start c) (Start c + CSize c) (fun f' => good f' c).
Proof.
  intros Hr (Ha & Hc & Hb) Hf HT Hself Hsafe g Hg _. rewrite Hf in Hg. injection Hg as <-.
  destruct (lay_total _ _ Hlay) as [_ HT63].
  unfold fetch_chunk in Hr. apply prog_bind_ok in Hr as (m & w1 & Hm & Hr). injection Hm as Hm <-.
  destruct m as [m|].
  - destruct (Hself _ _ Hm) as (d & -> & Hid & Hgood & Hd0 & Hd1 & Hd2 & Hdis & Hout).
    apply prog_bind_ok in Hr as ([c1 c2] & w2 & Hw & Hr). unfold write_segment in Hw.
    destruct (WriteInto env _ (aFS w) name _ _ _ _) as [[[[x y] [e|]]|e| |] fs'] eqn:HW; try done.
    injection Hw as -> -> <-.
    destruct (WriteInto_spec _ _ _ _ _ _ _ _ _ _ _ _ Hlaw HW Hf) as (Hsz & f' & E & Ho & Hwr);
      [lia..| | |].
    { intros Hre. destruct (Hsafe Hre) as [? H2]. split; [done|by eapply H2]. }
    { cbn. mach_lia. }
    injection Hr as <-. split; [done|]. exists f'. cbn. split; [done|]. split; [done|].
    assert (E2 : CSize c = CSize d).
    { rewrite Hsz. cbn. rewrite u64_id; lia. }
    unfold good, place in *. rewrite <- Hid, <- Hgood. f_equal.
    destruct Hwr as [_ Hex]. rewrite <- E2. apply (Hex f Hf); [lia|]. right. lia.
  - apply prog_bind_ok in Hr as ([] & w2 & Hw & Hr). injection Hw as <-.
    apply prog_bind_ok in Hr as (dat & w3 & Hget & Hr). unfold get_chunk in Hget. cbn in Hget.
    destruct (sGetChunk s (ID c) (aStore w)) as [[[ch|] [e|]] w4] eqn:Hs; try done.
    injection Hget as Hdat <-. destruct (decide (CSize c <> Z.of_nat (length dat))) as [|Hlen]; [done|].
    apply dec_stable in Hlen. unfold write_file in Hr. cbn in Hr. rewrite i64_small in Hr by mach_lia.
    destruct (decide (Start c < 0)); [done|]. injection Hr as <-. split; [done|].
    rewrite (contents_Some _ _ _ Hf). eexists. split; [done|]. split.
    + apply only_range_write; lia.
    + unfold good, place. rewrite Hlen, Nat2Z.id, rng_write by lia. by eapply Hstore.
Qed.

Lemma writeChunk_spec sg c w w' a b f :
  writeChunk env c name bs s isBlank w = (Ok tt, w') -> inside a b c ->
  aFS w !! name = Some f -> Z.of_nat (length f) = T ->
  self_ok sg f (aSeed w) a b -> self_safe sg (aSeed w) c ->
  steps_in w w' (Start c) (Start c + CSize c) (fun f' => good f' c).
Proof.
  intros Hr Hin Hf HT Hself Hsafe. unfold writeChunk in Hr. destruct isBlank eqn:Hbl.
  { rewrite <- Hbl in Hr. by eapply fetch_chunk_spec. }
  apply prog_bind_ok in Hr as (dat & w1 & Hrd & Hr). unfold read_file in Hrd.
  rewrite (contents_Some _ _ _ Hf) in Hrd. injection Hrd as Hrd <-.
  destruct (lay_total _ _ Hlay) as [_ HT63].
  apply ReadAt_place in Hrd as ->; [|unfold inside in Hin; lia].
  destruct (decide (Sum (place f c) = ID c)) as [Heq|].
  - injection Hr as <-. intros g Hg _. rewrite Hf in Hg. injection Hg as <-. split; [done|].
    exists f. rewrite insert_id by done. done.
  - rewrite <- Hbl in Hr. by eapply fetch_chunk_spec.
Qed.

(** The chunks of a segment, checked one after the other. *)
Lemma check_written_spec sg a b : forall cs w w' a0 f,
  check_written env cs name bs s isBlank action w = (Ok tt, w') ->
  Forall (inside a b) cs -> StronglySorted (fun c d => Start c + CSize c <= Start d) cs ->
  a <= a0 -> a0 <= b -> Forall (fun c => a0 <= Start c) cs ->
  aFS w !! name = Some f -> Z.of_nat (length f) = T ->
  self_ok sg f (aSeed w) a b -> Forall (self_safe sg (aSeed w)) cs -> 0 <= a ->
  aSeed w' = aSeed w /\ exists f', aFS w' = <[name := f']> (aFS w) /\
    only_range f f' (Z.to_nat a0) (Z.to_nat b) /\ Forall (good f') cs.
Proof.
  induction cs as [|c cs IH]; intros w w' a0 f Hr Hin Hsort Ha0 Hab Hfrom Hf HT Hself Hsafe Ha.
  - injection Hr as <-. split; [done|]. exists f. by rewrite insert_id.
  - apply Forall_cons in Hin as [Hc Hin], Hsafe as [Hsc Hsafe], Hfrom as [Hc0 Hfrom].
    apply StronglySorted_inv in Hsort as [Hsort Hnext]. cbn [check_written] in Hr.
    destruct (lay_total _ _ Hlay) as [_ HT63].
    apply prog_bind_ok in Hr as (dat & w1 & Hrd & Hr). unfold read_file in Hrd.
    rewrite (contents_Some _ _ _ Hf) in Hrd. injection Hrd as Hrd <-.
    apply ReadAt_place in Hrd as ->; [|unfold inside in Hc; lia].
    apply prog_bind_ok in Hr as ([] & w2 & Hfix & Hr).
    assert (Hstep : aSeed w2 = aSeed w /\ exists f1, aFS w2 = <[name := f1]> (aFS w) /\
      only_range f f1 (Z.to_nat (Start c)) (Z.to_nat (Start c + CSize c)) /\ good f1 c).
    { destruct (decide (Sum (place f c) <> ID c)) as [Hbad|Hgood].
      - destruct (decide (action = Regenerate)); [|done].
        by eapply (writeChunk_spec sg c w w2 a b f Hfix).
      - injection Hfix as <-. split; [done|]. exists f. rewrite insert_id by done.
        by apply dec_stable in Hgood. }
    destruct Hstep as (E2 & f1 & Ef1 & Ho1 & Hg1). unfold inside in Hc.
    assert (Hf1 : aFS w2 !! name = Some f1) by (rewrite Ef1; apply lookup_insert_eq).
    assert (HT1 : Z.of_nat (length f1) = T) by (rewrite <- HT; f_equal; apply Ho1).
    destruct (IH w2 w' (Start c + CSize c) f1 Hr) as (E3 & f2 & Ef2 & Ho2 & Hg2); try done; try lia.
    + rewrite E2. apply (self_ok_only sg f f1 (aSeed w) a b); [lia| |done].
      eapply only_range_mono, Ho1; lia.
    + by rewrite E2.
    + split; [congruence|]. exists f2. rewrite Ef2, Ef1, insert_insert_eq. split; [done|]. split.
      * eapply only_range_trans; eapply only_range_mono; [..|exact Ho1| | |exact Ho2]; lia.
      * constructor; [|done]. apply (good_only f1 f2 (Start c + CSize c) b); [lia|done|done|lia|lia|]. lia.
Qed.

(** ** Segments in their index *)

Lemma seg_chunks_lookup g c :
  seg_index g = i -> well_placed i g ->
  c ∈ seg_chunks g <-> exists k, (first g <= k <= last_ g)%nat /\ Chunks i !! k = Some c.
Proof.
  intros E Hg. unfold seg_chunks, lengthChunks, well_placed in *. rewrite E. rewrite list_elem_of_lookup. split.
  - intros [j Hj]. apply lookup_take_Some in Hj as [Hj Hlt]. rewrite lookup_drop in Hj.
    exists (first g + j)%nat. split; [lia|done].
  - intros (k & Hk & Hc). exists (k - first g)%nat. rewrite lookup_take_lt by lia.
    rewrite lookup_drop. by replace (first g + (k - first g))%nat with k by lia.
Qed.

(** The range of a segment. *)
Definition seg_range (g : IndexSegment) (a b : Z) : Prop :=
  start g = Ok a /\ lengthBytes g = Ok (b - a) /\ chunks g = Ok (seg_chunks g) /\
  0 <= a <= b /\ b <= T /\ Forall (inside a b) (seg_chunks g) /\
  StronglySorted (fun c d => Start c + CSize c <= Start d) (seg_chunks g) /\
  (exists c, c ∈ seg_chunks g /\ CSize c <= b - a) /\
  forall k d, Chunks i !! k = Some d ->
    ((k < first g)%nat -> Start d + CSize d <= a) /\ ((last_ g < k)%nat -> b <= Start d).

Lemma sorted_sublist n m :
  StronglySorted (fun c d => Start c + CSize c <= Start d) (take n (drop m (Chunks i))).
Proof.
  assert (Hall : StronglySorted (fun c d => Start c + CSize c <= Start d) (Chunks i)).
  { assert (Hord := lay_order _ _ Hlay). induction (Chunks i) as [|c l IH]; constructor.
    - apply IH. intros j k d e Hjk Hj Hk. apply (Hord (S j) (S k)); [lia|done|done].
    - apply Forall_lookup. intros k d Hk. apply (Hord 0%nat (S k)); [lia|done|done]. }
  rewrite <- (take_drop m (Chunks i)) in Hall. apply StronglySorted_app_1_r in Hall.
  rewrite <- (take_drop n (drop m (Chunks i))) in Hall. by apply StronglySorted_app_1_l in Hall.
Qed.

Lemma seg_range_exists g : seg_index g = i -> well_placed i g -> exists a b, seg_range g a b.
Proof.
  intros E Hg. pose proof Hg as [Hle Hlt]. destruct (lay_total _ _ Hlay) as [_ HT63].
  destruct (lookup_lt_is_Some_2 (Chunks i) (first g)) as [cf Hcf]; [lia|].
  destruct (lookup_lt_is_Some_2 (Chunks i) (last_ g)) as [cl Hcl]; [lia|].
  destruct (lay_in _ _ Hlay _ _ Hcf) as (? & ? & ?), (lay_in _ _ Hlay _ _ Hcl) as (? & ? & ?).
  assert (Hfl : Start cf + CSize cf <= Start cl + CSize cl).
  { destruct (decide (first g = last_ g)) as [Efl|].
    - rewrite Efl in Hcf. assert (cf = cl) as -> by congruence. done.
    - assert (Start cf + CSize cf <= Start cl) by (eapply (lay_order _ _ Hlay (first g)); [|done|done]; lia). lia. }
  exists (Start cf), (Start cl + CSize cl).
  assert (Hin : forall c, c ∈ seg_chunks g -> inside (Start cf) (Start cl + CSize cl) c).
  { intros c (k & Hk & Hc)%seg_chunks_lookup; [|done|done].
    destruct (lay_in _ _ Hlay _ _ Hc) as (? & ? & ?). split; [|split; [done|]].
    - destruct (decide (first g = k)) as [<-|]; [assert (cf = c) as -> by congruence; lia|].
      assert (Start cf + CSize cf <= Start c) by (eapply (lay_order _ _ Hlay (first g) k); [lia|done..]). lia.
    - destruct (decide (k = last_ g)) as [->|]; [assert (cl = c) as -> by congruence; lia|].
      assert (Start c + CSize c <= Start cl) by (eapply (lay_order _ _ Hlay k (last_ g)); [lia|done..]). lia. }
  unfold seg_range, start, lengthBytes, end_, start, chunk_at, chunks. rewrite E, Hcf, Hcl.
  cbn [mbind outcome_bind].
  split_and!; try done; try lia.
  - f_equal. rewrite (u64_id (Start cl + CSize cl)), u64_id by lia. done.
  - rewrite decide_True by lia. unfold seg_chunks. by rewrite E.
  - apply Forall_forall. auto.
  - unfold seg_chunks. rewrite E. apply sorted_sublist.
  - exists cf. split; [|lia]. apply seg_chunks_lookup; [done|done|]. exists (first g). split; [lia|done].
  - intros k d Hk. split; intros Hlt'.
    + eapply (lay_order _ _ Hlay k (first g)); done.
    + eapply (lay_order _ _ Hlay (last_ g) k); done.
Qed.

(** ** The state between two jobs *)

Context (gs : list IndexSegment) (Hgs : disjoint_segments i gs) (Hidx : Forall (fun g => seg_index g = i) gs).

Lemma gs_facts g : g ∈ gs -> seg_index g = i /\ well_placed i g.
Proof.
  intros Hg. split; [exact (proj1 (Forall_forall _ _) Hidx g Hg)|].
  exact (proj1 (Forall_forall _ _) (proj1 Hgs) g Hg).
Qed.

(** The chunks of the finished segments [D] are in place, the self seed knows them, and the other
    files are as they were. *)
Record job_inv (fs0 : FS) (r : bool) (D : IndexSegment -> Prop) (w : AW (W := W)) (f : bytes) : Prop := {
  ji_fs : aFS w = <[name := f]> fs0;
  ji_len : Z.of_nat (length f) = T;
  ji_good g c : D g -> c ∈ seg_chunks g -> good f c;
  ji_sub g : D g -> g ∈ gs;
  ji_self : self_seed_inv (aSeed w) D;
  ji_next : cache (aSeed w) !! written (aSeed w) = None;
  ji_index : ssIndex (aSeed w) = i;
  ji_file : ssFile (aSeed w) = name;
  ji_reflink : ssCanReflink (aSeed w) = r
}.

(** The finished parts of the file are what the self seed offers. *)
Lemma job_self_ok fs0 r D w f g a b :
  job_inv fs0 r D w f -> g ∈ gs -> ~ D g -> seg_range g a b -> self_ok g f (aSeed w) a b.
Proof.
  intros Hi Hg Hnew (_ & _ & _ & _ & _ & _ & _ & _ & Hout) id m Hm.
  destruct Hgs as (_ & Hnd & Hdis). pose proof (ji_self _ _ _ _ _ Hi) as Hss.
  unfold getChunk in Hm. destruct (ssPos (aSeed w) !! id) as [[|p ps]|] eqn:Hp; try done.
  injection Hm as <-. rewrite (ji_file _ _ _ _ _ Hi), (ji_index _ _ _ _ _ Hi) in *.
  assert (Hpin : p ∈ default [] (ssPos (aSeed w) !! id)) by (rewrite Hp; left).
  rewrite (ssi_pos _ _ Hss), (ji_index _ _ _ _ _ Hi) in Hpin.
  apply add_positions_spec in Hpin as [Hpin|(k & c & -> & Hk & Hid)].
  { rewrite lookup_empty in Hpin. by apply not_elem_of_nil in Hpin. }
  apply lookup_take_Some in Hk as [Hk Hlt]. cbn [Nat.add] in *.
  destruct (ssi_done _ _ Hss k Hlt) as (h & Hh & [Hr _]).
  pose proof (ji_sub _ _ _ _ _ Hi h Hh) as Hhgs. destruct (gs_facts h Hhgs) as [Ehi Hhw].
  exists c. assert (Hc : c ∈ seg_chunks h) by (apply seg_chunks_lookup; [done|done|by exists k]).
  destruct (lay_in _ _ Hlay _ _ Hk) as (? & ? & ?).
  split_and!; try done.
  - by rewrite (drop_S _ _ _ Hk).
  - by eapply ji_good.
  - assert (Hne : h <> g) by (intros ->; done).
    assert (Hnf : first h <> first g) by (intros E; apply Hne; by apply (NoDup_first gs)).
    destruct (Hout k c Hk) as [Hbef Haft].
    destruct (decide (first h < first g)%nat).
    + left. apply Hbef. specialize (Hdis h g Hhgs Hg). lia.
    + right. apply Haft. specialize (Hdis g h Hg Hhgs). lia.
  - exists k. split; [done|]. assert (Hne : h <> g) by (intros ->; done).
    assert (Hnf : first h <> first g) by (intros E; apply Hne; by apply (NoDup_first gs)).
    destruct (decide (first h < first g)%nat); [specialize (Hdis h g Hhgs Hg)|specialize (Hdis g h Hg Hhgs)]; lia.
Qed.

(** What a plan says of a job: its source is cloned only if the segment's chunks have two blocks. *)
Definition twins_long : Prop := 0 < bs /\
  forall j k c d, j <> k -> Chunks i !! j = Some c -> Chunks i !! k = Some d -> ID d = ID c -> 2 * bs <= CSize c.

Definition job_ok (job : SeedSegmentCandidate) : Prop :=
  indexSegment job ∈ gs /\
  match source job with
  | None => last_ (indexSegment job) = first (indexSegment job)
  | Some m => offsets_ok m /\
      (reflinks m = true -> 0 < bs /\ forall c, c ∈ seg_chunks (indexSegment job) -> 2 * bs <= CSize c)
  end.

(** The last step of a job: its segment joins the finished ones. *)
Lemma finish_job fs0 r D w w1 w' g a b f f1 :
  job_inv fs0 r D w f -> g ∈ gs -> ~ D g -> seg_range g a b ->
  aSeed w1 = aSeed w -> aFS w1 = <[name := f1]> (aFS w) -> only_range f f1 (Z.to_nat a) (Z.to_nat b) ->
  Forall (good f1) (seg_chunks g) -> self_add g w1 = (Ok tt, w') ->
  job_inv fs0 r (fun h => h = g \/ D h) w' f1.
Proof.
  intros Hi Hg Hnew Hrange Es Ef Ho Hgood Hadd. unfold self_add in Hadd. rewrite Es in Hadd.
  destruct (add_disjoint i gs (aSeed w) D g) as (ss & Hss & Hinv & Hn & E1 & E2 & E3); try done;
    [apply (ji_sub _ _ _ _ _ Hi)|apply Hi|apply Hi|apply Hi|].
  rewrite Hss in Hadd. injection Hadd as <-. destruct Hi as [Hfs Hlen Hgd Hsub _ _ Hix Hfile Href].
  split; cbn [aFS aSeed]; try done; try congruence.
  - rewrite Ef, Hfs. apply insert_insert_eq.
  - rewrite <- Hlen. f_equal. apply Ho.
  - intros h c [->|Hh] Hc; [by eapply Forall_forall in Hgood|].
    destruct Hrange as (_ & _ & _ & Hab & _ & _ & _ & _ & Hout).
    destruct Hgs as (_ & Hnd & Hdis). pose proof (Hsub h Hh) as Hhgs.
    destruct (gs_facts h Hhgs) as [Ehi Hhw].
    assert (Hnf : first h <> first g).
    { intros E. apply Hnew. by rewrite <- (NoDup_first gs h g Hnd Hhgs Hg E). }
    specialize (Hgd h c Hh Hc). apply seg_chunks_lookup in Hc as (k & Hk & Hc); [|done|done].
    destruct (lay_in _ _ Hlay _ _ Hc) as (? & ? & ?), (Hout k c Hc) as [Hbef Haft].
    apply (good_only f f1 a b); try done.
    destruct (decide (first h < first g)%nat).
    + left. apply Hbef. specialize (Hdis h g Hhgs Hg). lia.
    + right. apply Haft. specialize (Hdis g h Hg Hhgs). lia.
  - intros h [->|Hh]; [done|by apply Hsub].
Qed.

Lemma self_safe_all (ss : selfSeed) (r : bool) g :
  ssCanReflink ss = r -> (r = true -> twins_long) -> seg_index g = i -> well_placed i g ->
  Forall (self_safe g ss) (seg_chunks g).
Proof.
  intros Er Hr E Hw. apply Forall_forall. intros c (k & Hk & Hc)%seg_chunks_lookup Href; [|done|done].
  rewrite Er in Href. destruct (Hr Href) as [? Hall]. split; [done|]. intros d (j & Hj & Hout) Hid.
  apply (Hall k j c d); [|done..]. intros ->. by apply Hout.
Qed.

Lemma run_job_spec fs0 r D w w' job f :
  job_inv fs0 r D w f -> job_ok job -> ~ D (indexSegment job) -> (r = true -> twins_long) ->
  run_job env name bs s isBlank action job w = (Ok tt, w') ->
  exists f', job_inv fs0 r (fun h => h = indexSegment job \/ D h) w' f'.
Proof.
  intros Hi [Hg Hsrc] Hnew Hr Hrun. set (g := indexSegment job) in *.
  destruct (gs_facts g Hg) as [Eg Hw]. destruct (seg_range_exists g Eg Hw) as (a & b & Hrange).
  pose proof (job_self_ok _ _ _ _ _ _ _ _ Hi Hg Hnew Hrange) as Hself.
  pose proof (self_safe_all (aSeed w) r g (ji_reflink _ _ _ _ _ Hi) Hr Eg Hw) as Hsafe.
  pose proof Hrange as (Hstart & Hlenb & Hchunks & Hab & HbT & Hin & Hsort & (c0 & Hc0 & Hc0b) & _).
  assert (Hf : aFS w !! name = Some f) by (rewrite (ji_fs _ _ _ _ _ Hi); apply lookup_insert_eq).
  pose proof (ji_len _ _ _ _ _ Hi) as HT. destruct (lay_total _ _ Hlay) as [_ HT63].
  unfold run_job in Hrun. fold g in Hrun. destruct (source job) as [m|].
  - destruct Hsrc as [Hoff Href].
    apply prog_bind_ok in Hrun as ([] & w1 & Hcount & Hrun). injection Hcount as <-.
    apply prog_bind_ok in Hrun as (offset & w1 & Ho & Hrun). rewrite Hstart in Ho. injection Ho as <- <-.
    apply prog_bind_ok in Hrun as (len & w1 & Hl & Hrun). rewrite Hlenb in Hl. injection Hl as <- <-.
    apply prog_bind_ok in Hrun as ([c1 c2] & w1 & Hws & Hrun). unfold write_segment in Hws. cbn in Hws.
    destruct (WriteInto env m (aFS w) name a (b - a) bs isBlank) as [[[[x y] [e|]]|e| |] fs'] eqn:HW; try done.
    injection Hws as -> -> <-.
    destruct (WriteInto_spec _ _ _ _ _ _ _ _ _ _ _ _ Hlaw HW Hf) as (_ & f1 & Ef1 & Ho1 & _);
      [lia..| |done|].
    { intros Hre. destruct (Href Hre) as [? Hall]. split; [done|]. specialize (Hall c0 Hc0). lia. }
    replace (a + (b - a)) with b in Ho1 by lia.
    apply prog_bind_ok in Hrun as (cs & w1 & Hcs & Hrun). rewrite Hchunks in Hcs. injection Hcs as <- <-.
    apply prog_bind_ok in Hrun as ([] & w2 & Hcheck & Hrun).
    destruct (check_written_spec g a b _ _ _ a f1 Hcheck) as (Es & f2 & Ef2 & Ho2 & Hgood); cbn; try done; try lia.
    + eapply Forall_impl; [exact Hin|]. intros c Hc. apply Hc.
    + rewrite Ef1. apply lookup_insert_eq.
    + rewrite <- HT. f_equal. apply Ho1.
    + by eapply self_ok_only.
    + apply prog_bind_ok in Hrun as ([] & w3 & Hc3 & Hrun). injection Hc3 as <-.
      apply prog_bind_ok in Hrun as ([] & w4 & Hc4 & Hrun). injection Hc4 as <-.
      exists f2. eapply finish_job; [..|exact Hrun]; try done; [|by eapply only_range_trans].
      cbn. rewrite Ef2. cbn. rewrite Ef1. apply insert_insert_eq.
  - apply prog_bind_ok in Hrun as (cs & w1 & Hcs & Hrun). rewrite Hchunks in Hcs. injection Hcs as <- <-.
    destruct (seg_chunks g) as [|c [|d l]] eqn:Eseg; [done| |done].
    apply prog_bind_ok in Hrun as ([] & w1 & Hwc & Hrun).
    apply Forall_cons in Hin as [Hc _], Hsafe as [Hsc _].
    destruct (writeChunk_spec g c w w1 a b f Hwc Hc Hf HT Hself Hsc f Hf HT) as (Es & f1 & Ef1 & Ho1 & Hg1).
    exists f1. eapply finish_job; [..|exact Hrun]; try done.
    + unfold inside in Hc. eapply only_range_mono, Ho1; lia.
    + rewrite Eseg. by constructor.
Qed.

Lemma run_jobs_spec fs0 r : forall jobs D w w' f,
  job_inv fs0 r D w f -> Forall job_ok jobs -> NoDup (map indexSegment jobs) ->
  (forall job, job ∈ jobs -> ~ D (indexSegment job)) -> (r = true -> twins_long) ->
  run_jobs env name bs s isBlank action jobs w = (Ok tt, w') ->
  exists f', job_inv fs0 r (fun h => h ∈ map indexSegment jobs \/ D h) w' f'.
Proof.
  induction jobs as [|job jobs IH]; intros D w w' f Hi Hok Hnd Hnew Hr Hrun.
  - injection Hrun as <-. exists f. destruct Hi as [? ? Hgd Hsub Hself ? ? ? ?]. split; try done.
    + intros g c [Hg|Hg]; [by apply not_elem_of_nil in Hg|by apply Hgd].
    + intros g [Hg|Hg]; [by apply not_elem_of_nil in Hg|by apply Hsub].
    + revert Hself. apply self_seed_inv_iff. intros h. cbn. rewrite elem_of_nil. tauto.
  - apply prog_bind_ok in Hrun as ([] & w1 & Hjob & Hrun).
    apply Forall_cons in Hok as [Hj Hok]. cbn in Hnd. apply NoDup_cons in Hnd as [Hx Hnd].
    destruct (run_job_spec fs0 r D w w1 job f Hi Hj (Hnew job ltac:(by left)) Hr Hjob) as (f1 & Hi1).
    destruct (IH _ w1 w' f1 Hi1 Hok Hnd) as (f' & Hi'); try done.
    { intros job' Hj' [E|HD]; [|apply (Hnew job'); [by right|done]].
      apply Hx. rewrite <- E. by apply (list_elem_of_fmap_2 indexSegment). }
    exists f'. destruct Hi' as [? ? Hgd Hsub Hself ? ? ? ?]. cbn [map].
    assert (Hiff : forall h, h ∈ map indexSegment jobs \/ h = indexSegment job \/ D h <->
      h ∈ indexSegment job :: map indexSegment jobs \/ D h) by (intros h; rewrite elem_of_cons; tauto).
    split; try done.
    + intros g c Hg. apply Hgd. by apply Hiff.
    + intros g Hg. apply Hsub. by apply Hiff.
    + revert Hself. by apply self_seed_inv_iff.
Qed.

End jobs.

(** ** Validation only marks seeds *)

(** What Validate does to the seeds keeps every property that does not depend on the mark. *)
Section marks.

Context `{Codec} (P : Seed -> Prop) (Hmark : forall s, P (SFile s) -> P (SFile (file_SetInvalid s true))).

Lemma invalidate_good ss k ss' : Forall P ss -> invalidate ss k = Ok ss' -> Forall P ss'.
Proof.
  intros Hall Hi. unfold invalidate in Hi. destruct k as [k|]; [|done].
  destruct (ss !! k) as [[s|s]|] eqn:Hk; try done. injection Hi as <-.
  apply Forall_insert; [done|]. apply Hmark. exact (Forall_lookup_1 _ _ _ _ Hall Hk).
Qed.

Lemma open_seeds_good fs p : forall ss e ss',
  Forall P ss -> open_seeds fs p ss = Ok (e, ss') -> Forall P ss'.
Proof.
  induction p as [|c p IH]; intros ss e ss' Hall Ho; cbn in Ho; [by injection Ho as _ <-|].
  destruct (source c) as [m|]; [|by eapply IH]. destruct (decide _); [by eapply IH|].
  destruct (fs !! FileName m); [by eapply IH|].
  destruct (invalidate ss (seed c)) as [ss1| | |] eqn:Hi; try done. injection Ho as _ <-.
  by eapply invalidate_good.
Qed.

Lemma validate_jobs_good fs jobs : forall g ss e ss',
  Forall P ss -> validate_jobs fs jobs g ss = Ok (e, ss') -> Forall P ss'.
Proof.
  induction jobs as [|c jobs IH]; intros g ss e ss' Hall Hv; cbn in Hv; [by injection Hv as _ <-|].
  destruct (source c) as [m|]; [|done]. destruct (Validate_segment m _); try done; [by eapply IH|].
  destruct (invalidate ss (seed c)) as [ss1| | |] eqn:Hi; try done.
  eapply IH; [|exact Hv]. by eapply invalidate_good.
Qed.

Lemma Validate_good fs p taken ss e ss' :
  Forall P ss -> Validate fs p taken ss = Ok (e, ss') -> Forall P ss'.
Proof.
  intros Hall Hv. unfold Validate in Hv.
  destruct (open_seeds fs p ss) as [[[e1|] ss1]| | |] eqn:Ho; try done; cbn in Hv.
  - injection Hv as _ <-. by eapply open_seeds_good.
  - eapply validate_jobs_good; [|exact Hv]. by eapply open_seeds_good.
Qed.

End marks.

(** ** The plan that is executed *)

Section plans.

Context `{Codec} (env : Env) {W : Type}.
Context (i : Index) (bs : Z) (action : InvalidSeedAction).

(** All chunks with this ID have at least two blocks. *)
Definition two_blocks (id : ChunkID) : Prop :=
  0 < bs /\ forall c, c ∈ Chunks i -> ID c = id -> 2 * bs <= CSize c.

(** The indexes regenerated for seeds are about chunks of two blocks too. *)
Definition regenerated_two_blocks : Prop := action = Regenerate ->
  forall fs f a b c j, IndexFromFile env fs f a b c = Ok j -> Forall (fun c => two_blocks (ID c)) (Chunks j).

(** A seed whose table is that of its index and whose offsets are 64-bit words; if it can be cloned from,
    what it has are chunks of two blocks. *)
Definition seed_good (s : Seed) : Prop :=
  match s with
  | SFile s => file_seed_ok s /\
      (fsCanReflink s = true -> Forall (fun c => two_blocks (ID c)) (Chunks (fsIndex s)) /\ regenerated_two_blocks) /\
      Forall (fun c => is_u64 (Start c)) (Chunks (fsIndex s))
  | SNull s => nsCanReflink s = true -> two_blocks (nsID s)
  end.

Lemma seed_good_ok ss : Forall seed_good ss -> Forall seed_ok ss.
Proof. intros Hall. eapply Forall_impl; [exact Hall|]. intros [s|s]; [by intros [? _]|done]. Qed.

Lemma seed_good_mark s : seed_good (SFile s) -> seed_good (SFile (file_SetInvalid s true)).
Proof. done. Qed.

(** IndexFromFile makes indexes of 64-bit words. *)
Definition index_words : Prop :=
  forall fs f a b c i, IndexFromFile env fs f a b c = Ok i -> Forall (fun c => is_u64 (Start c)) (Chunks i).

Lemma RegenerateInvalidSeeds_good fs (Hwords : index_words) (Hact : action = Regenerate) ss : forall r ss',
  Forall seed_good ss -> RegenerateInvalidSeeds (IndexFromFile env fs) ss = (r, ss') ->
  Forall seed_good ss'.
Proof.
  induction ss as [|s ss IH]; intros r ss' Hall Hr; cbn in Hr; [by injection Hr as _ <-|].
  apply Forall_cons in Hall as [Hs Hall].
  destruct (IsInvalid s); [|destruct (RegenerateInvalidSeeds _ ss) as [r1 ss1] eqn:E; injection Hr as _ <-;
    constructor; [done|by eapply IH]].
  destruct s as [s|s]; cbn in Hr; [|injection Hr as _ <-; by constructor].
  unfold file_RegenerateIndex in Hr.
  destruct (IndexFromFile env fs _ _ _ _) as [j|e| |] eqn:Ej; cbn in Hr; try (injection Hr as _ <-; by constructor).
  destruct (RegenerateInvalidSeeds _ ss) as [r1 ss1] eqn:E. injection Hr as _ <-.
  constructor; [|by eapply IH]. destruct Hs as (_ & Hr2 & _). split; [done|]. split; [|by eapply Hwords].
  intros Hr. destruct (Hr2 Hr) as [_ Hgen]. split; [by eapply Hgen|done].
Qed.

Lemma find_plan_spec fs taken (Hne : Chunks i <> []) (Hwords : index_words) : forall fuel n ss p,
  Forall seed_good ss -> find_plan env fuel n fs taken action (mkSequencer ss i 0) = Ok (Ok p) ->
  exists ss', Forall seed_good ss' /\ plan_covers ss' i 0 p.
Proof.
  induction fuel as [|fuel IH]; intros n ss p Hall Hf; [done|]. cbn [find_plan] in Hf.
  destruct (MakePlan_spec ss i Hne (seed_good_ok ss Hall)) as (q & r & Hq & Er & Ei & Hcov).
  unfold NewSeedSequencer in Hq. rewrite Hq in Hf. cbn [mbind outcome_bind] in Hf. rewrite Er, Ei in Hf.
  destruct (Validate fs q (taken n q) ss) as [[[e|] ss1]| | |] eqn:Hv; try done; cbn in Hf.
  - pose proof (Validate_good seed_good seed_good_mark _ _ _ _ _ _ Hall Hv) as Hall1.
    destruct action eqn:Hact; [done|by eapply IH|].
    destruct (RegenerateInvalidSeeds (IndexFromFile env fs) ss1) as [[u|e'| |] ss2] eqn:Hr; try done.
    eapply IH; [|exact Hf]. by eapply RegenerateInvalidSeeds_good.
  - injection Hf as ->. by exists ss.
Qed.

(** The segments of a plan. *)
Lemma plan_covers_segments ss : forall p a,
  plan_covers ss i a p ->
  Forall (fun g => seg_index g = i /\ well_placed i g /\ (a <= first g)%nat) (map indexSegment p) /\
  NoDup (map first (map indexSegment p)) /\
  (forall g h, g ∈ map indexSegment p -> h ∈ map indexSegment p ->
     (first g < first h)%nat -> (last_ g < first h)%nat) /\
  (forall k, (a <= k < length (Chunks i))%nat ->
     exists g, g ∈ map indexSegment p /\ (first g <= k <= last_ g)%nat).
Proof.
  induction p as [|c p IH]; intros a Hp; cbn [map].
  - cbn in Hp. split; [constructor|]. split; [constructor|]. split; [intros g h Hg; by apply not_elem_of_nil in Hg|].
    lia.
  - destruct Hp as ((Ei & Ef & Hl) & _ & _ & Hp). specialize (IH _ Hp) as (Hall & Hnd & Hdis & Hcov).
    set (g0 := indexSegment c) in *.
    assert (Hge : forall h, h ∈ map indexSegment p -> (S (last_ g0) <= first h)%nat).
    { intros h Hh. rewrite Forall_forall in Hall. by apply Hall. }
    split; [|split; [|split]].
    + constructor; [split; [done|]; split; [|lia]; unfold well_placed; lia|].
      eapply Forall_impl; [exact Hall|]. intros g (? & ? & ?). split; [done|]. split; [done|lia].
    + constructor; [|done]. intros (h & Eh & Hh)%list_elem_of_fmap. specialize (Hge h Hh). lia.
    + intros g h Hg Hh Hlt. apply elem_of_cons in Hg as [->|Hg], Hh as [->|Hh].
      * lia.
      * specialize (Hge h Hh). lia.
      * specialize (Hge g Hg). lia.
      * by apply Hdis.
    + intros k Hk. destruct (decide (k <= last_ g0)%nat).
      * exists g0. split; [by left|lia].
      * destruct (Hcov k) as (g & Hg & ?); [lia|]. exists g. split; [by right|done].
Qed.

Lemma offers_job ss k m cs :
  Forall seed_good ss -> offers ss k m cs ->
  offsets_ok m /\ (reflinks m = true -> Forall (fun c => two_blocks (ID c)) cs).
Proof.
  intros Hall Ho. unfold offers in Ho. destruct (ss !! k) as [[s|s]|] eqn:Hk; [| |done].
  - destruct m as [f l r|]; [|done]. destruct Ho as (-> & -> & Hids & _ & p & Hl).
    destruct (Forall_lookup_1 _ _ _ _ Hall Hk) as (_ & Hr & Hw).
    assert (Hsub : forall c, c ∈ l -> c ∈ Chunks (fsIndex s)).
    { intros c Hc. rewrite Hl in Hc. apply list_elem_of_lookup in Hc as [j Hj].
      apply lookup_take_Some in Hj as [Hj _]. rewrite lookup_drop in Hj. by eapply list_elem_of_lookup_2. }
    split.
    + cbn. destruct l as [|c l']; [done|]. rewrite Forall_forall in Hw. apply Hw, Hsub. by left.
    + intros Href. destruct (Hr Href) as [Hlong _]. rewrite Forall_forall in Hlong. apply Forall_forall. intros c Hc.
      assert (ID c ∈ ids l) as (d & -> & Hd)%list_elem_of_fmap by (rewrite Hids; by apply list_elem_of_fmap_2).
      by apply Hlong, Hsub.
  - destruct m as [|from to b r]; [done|]. destruct Ho as (Hids & _ & -> & _).
    split; [done|]. intros Href. eapply Forall_impl; [exact Hids|]. intros c ->.
    exact (Forall_lookup_1 _ _ _ _ Hall Hk Href).
Qed.

Lemma plan_covers_jobs ss : forall p a,
  Forall seed_good ss -> plan_covers ss i a p ->
  Forall (fun job => match source job with
    | None => last_ (indexSegment job) = first (indexSegment job)
    | Some m => offsets_ok m /\
        (reflinks m = true -> 0 < bs /\ forall c, c ∈ seg_chunks (indexSegment job) -> 2 * bs <= CSize c) end) p.
Proof.
  induction p as [|c p IH]; intros a Hall Hp; constructor.
  - destruct Hp as ((Ei & Ef & Hlast) & Hs & _). destruct (source c) as [m|].
    + destruct Hs as (k & _ & Ho). destruct (offers_job _ _ _ _ Hall Ho) as [H1 H2]. split; [done|].
      intros Href. specialize (H2 Href). rewrite Forall_forall in H2.
      assert (Hin : forall d, d ∈ seg_chunks (indexSegment c) -> d ∈ Chunks i).
      { intros d [j Hj]%list_elem_of_lookup. unfold seg_chunks in Hj. rewrite Ei in Hj.
        apply lookup_take_Some in Hj as [Hj _]. rewrite lookup_drop in Hj. by eapply list_elem_of_lookup_2. }
      assert (Hne : exists d, d ∈ seg_chunks (indexSegment c)).
      { unfold seg_chunks, lengthChunks. rewrite Ei. destruct (lookup_lt_is_Some_2 (Chunks i) a) as [d Hd]; [lia|].
        exists d. eapply (list_elem_of_lookup_2 _ 0%nat). rewrite lookup_take_lt by lia. rewrite lookup_drop, Ef.
        by rewrite Nat.add_0_r. }
      destruct Hne as [d Hd]. split; [by apply (H2 d Hd)|]. intros e He. destruct (H2 e He) as [_ Hle].
      apply Hle; [by apply Hin|done].
    + destruct Hs as [_ Hs]. by rewrite Hs.
  - eapply IH; [done|]. apply Hp.
Qed.

End plans.

Lemma length_truncate f n : length (truncate f n) = n.
Proof. unfold truncate. rewrite length_app, length_take, length_replicate. lia. Qed.

(** The target after it was prepared: as long as the index, no other file touched. *)
Lemma prepare_target_spec env name i T fs isBlank fs' :
  layout i T -> isDevice env name = false -> prepare_target env name i fs = Ok (isBlank, fs') ->
  exists f, fs' = <[name := f]> fs /\ Z.of_nat (length f) = T.
Proof.
  intros [[HT HT63] _ _] Hdev Hp. unfold prepare_target in Hp. rewrite Hdev in Hp.
  destruct (stat_error env name); [done|]. destruct (fs !! name) as [f|] eqn:Hf;
    cbn in Hp; destruct (decide (Length i < 0)); try done; injection Hp as _ <-.
  - eexists. split; [done|]. rewrite length_truncate. lia.
  - eexists. split; [by rewrite insert_insert_eq|]. rewrite length_truncate. lia.
Qed.

(** Where blocks are cloned, every range to clone has two of them, as fileSeedSegment.clone and
    nullChunkSection.clone need: the null chunks if the file of zeros can be cloned, the chunks that are
    in the index twice if the target can be cloned from itself, and the chunks of file seeds that can be
    cloned (also after these have been regenerated). A short last chunk that no seed has is no obstacle. *)
Record clones_fit `{Codec} (env : Env) (name : bytes) (i : Index) (action : InvalidSeedAction) (fileSeeds : list FileSeed) : Prop := {
  cf_null block nc : CreateTemp env = Ok block -> CanClone env name block = true ->
    NewNullChunk (ChunkSizeMax i) = Ok nc -> two_blocks i (blocksizeOfFile env name) (nID nc);
  cf_self : CanClone env name name = true -> twins_long i (blocksizeOfFile env name);
  cf_seeds s c : s ∈ fileSeeds -> fsCanReflink s = true -> c ∈ Chunks (fsIndex s) ->
    two_blocks i (blocksizeOfFile env name) (ID c);
  cf_regenerated s : s ∈ fileSeeds -> fsCanReflink s = true ->
    regenerated_two_blocks env i (blocksizeOfFile env name) action
}.

(** Where nothing can be cloned there is nothing to ask for. *)
Lemma clones_fit_none `{Codec} env name i action :
  (forall a b, CanClone env a b = false) -> clones_fit env name i action [].
Proof.
  intros Hn. split.
  - intros block nc _ Hc. by rewrite Hn in Hc.
  - by rewrite Hn.
  - intros s c Hs. by apply not_elem_of_nil in Hs.
  - intros s Hs. by apply not_elem_of_nil in Hs.
Qed.

(** The indexes of the seeds, as NewIndexSeed and IndexFromReader make them. *)
Definition seed_words (s : FileSeed) : Prop :=
  file_seed_ok s /\ Forall (fun c => is_u64 (Start c)) (Chunks (fsIndex s)).

(** The chunks the jobs handed out are about: all of them, or at least as many as there were jobs. *)
Definition was_handed (cut : option nat) (k : nat) : Prop :=
  match cut with None => True | Some m => (k < m)%nat end.

(** The first segments of a plan have the first chunks. *)
Lemma handed_covers ss i p cut : plan_covers ss i 0 p ->
  forall k, (k < length (Chunks i))%nat -> was_handed cut k ->
  exists g, g ∈ map indexSegment (handed cut p) /\ (first g <= k <= last_ g)%nat.
Proof.
  intros Hp k Hk Hcut.
  assert (Hgen : forall p a m, plan_covers ss i a p -> (a <= k)%nat -> (k < a + m)%nat ->
    exists g, g ∈ map indexSegment (take m p) /\ (first g <= k <= last_ g)%nat).
  { clear p cut Hp Hcut. induction p as [|c p IH]; intros a m Hp Ha Hm; [cbn in Hp; lia|].
    destruct Hp as ((Ei & Ef & Hl) & _ & _ & Hp). destruct m as [|m]; [lia|]. cbn [take map].
    destruct (decide (k <= last_ (indexSegment c))%nat).
    - exists (indexSegment c). split; [by left|lia].
    - destruct (IH _ m Hp) as (g & Hg & ?); [lia|lia|]. exists g. split; [by right|done]. }
  destruct cut as [m|]; cbn [handed was_handed] in *; [by apply (Hgen p 0%nat m Hp); lia|].
  destruct (Hgen p 0%nat (S k + length p)%nat Hp) as (g & Hg & ?); [lia|lia|]. exists g. split; [|done].
  by rewrite take_ge in Hg by lia.
Qed.

Lemma handed_sub cut p : exists l, p = handed cut p ++ l.
Proof. destruct cut as [m|]; cbn; [exists (drop m p); by rewrite take_drop|exists []; by rewrite app_nil_r]. Qed.

Lemma AssembleFile_places `{Codec} {W} (env : Env) (s : Store W) fuel name i T fileSeeds action
    taken order cut fs (w : W) w' :
  verified_store s -> clone_law env -> index_words env ->
  layout i T -> Chunks i <> [] -> isDevice env name = false ->
  Forall seed_words fileSeeds -> clones_fit env name i action fileSeeds ->
  (forall p, order p ≡ₚ p) ->
  AssembleFile env fuel name i s fileSeeds action taken order cut fs w = Ok (Ok tt, w') ->
  exists f, aFS w' = <[name := f]> fs /\ Z.of_nat (length f) = T /\
    forall k c, Chunks i !! k = Some c -> was_handed cut k -> Sum (place f c) = ID c.
Proof.
  intros Hstore Hlaw Hwords Hlay Hne Hdev Hseeds [Hnull Hself Hfile Hgen] Horder Ha. unfold AssembleFile in Ha.
  set (bs := blocksizeOfFile env name) in *.
  destruct (prepare_target env name i fs) as [[isBlank fs1]| | |] eqn:Hprep; try done. cbn in Ha.
  destruct (prepare_target_spec _ _ _ _ _ _ _ Hlay Hdev Hprep) as (f0 & -> & Hf0).
  destruct (CreateTemp env) as [block| | |] eqn:Hblock; try done. cbn in Ha.
  destruct (newNullChunkSeed (CanClone env name block) _ _) as [ns| | |] eqn:Hns; try done. cbn in Ha.
  destruct (find_plan env fuel 1 _ taken action _) as [[p|e| |]| | |] eqn:Hplan; try done. cbn in Ha.
  injection Ha as Hrun.
  assert (Hgood : Forall (seed_good env i bs action) (SNull ns :: map SFile fileSeeds)).
  { constructor.
    - unfold newNullChunkSeed in Hns. destruct (NewNullChunk _) as [nc| | |] eqn:Hnc; try done.
      injection Hns as <-. cbn. intros Hc. by apply (Hnull block nc).
    - apply Forall_fmap, Forall_forall. intros x Hx. rewrite Forall_forall in Hseeds.
      destruct (Hseeds x Hx) as [H1 H2]. split; [done|]. split; [|done]. intros Hc. split; [|by eapply Hgen].
      apply Forall_forall. intros c. by eapply Hfile. }
  destruct (find_plan_spec env i bs action _ taken Hne Hwords fuel 1%nat _ p Hgood Hplan)
    as (ss & Hgood' & Hcov).
  destruct (plan_covers_segments i ss p 0 Hcov) as (Hall & Hnd & Hdis & Htotal).
  assert (Hgs : disjoint_segments i (map indexSegment p)).
  { split; [|done]. eapply Forall_impl; [exact Hall|]. by intros g (_ & ? & _). }
  match type of Hrun with run_jobs _ _ _ _ _ _ _ ?w0 = _ => set (w1 := w0) in * end.
  destruct (handed_sub cut p) as [rest Hsub].
  destruct (run_jobs_spec env s name i T bs isBlank action Hstore Hlaw Hlay (map indexSegment p) Hgs
    ltac:(eapply Forall_impl; [exact Hall|]; by intros g [? _])
    fs (CanClone env name name) (order (handed cut p)) (fun _ => False) w1 w' f0) as (f & Hi); [..|exact Hrun|].
  - split; cbn; try done. apply newSelfSeed_inv.
  - apply Forall_forall. intros job Hjob. rewrite Horder in Hjob.
    assert (Hjp : job ∈ p) by (rewrite Hsub; apply elem_of_app; by left). split.
    + by apply list_elem_of_fmap_2.
    + pose proof (plan_covers_jobs env i bs action ss p 0 Hgood' Hcov) as Hjobs.
      rewrite Forall_forall in Hjobs. by apply Hjobs.
  - rewrite Horder. apply (NoDup_fmap_1 first). rewrite Hsub, map_app, map_app in Hnd.
    by apply NoDup_app in Hnd as [? _].
  - auto.
  - exact Hself.
  - exists f. split; [apply Hi|]. split; [apply Hi|]. intros k c Hk Hcut.
    destruct (handed_covers ss i p cut Hcov k) as (g & Hg & Hr); [by eapply lookup_lt_Some|done|].
    assert (Hgp : g ∈ map indexSegment p) by (rewrite Hsub, map_app; apply elem_of_app; by left).
    apply (ji_good _ _ _ _ _ _ _ _ _ Hi g c).
    + left. by rewrite Horder.
    + rewrite Forall_forall in Hall. destruct (Hall g Hgp) as (? & ? & _).
      eapply seg_chunks_lookup; [done|done|]. by exists k.
Qed.

(** C5. What AssembleFile writes is what the index says. If it returns without an error and was not
    cancelled then the target, a regular file, has the length of the index and every chunk's place holds
    data with the chunk's ID, and no other file was touched: for every content of the seed files and
    however wrong their indexes are, for every content the target had before, for all three actions on
    invalid seeds, for every choice of the workers which jobs to validate and in which order to write
    them. If it was cancelled after [m] jobs it returns without an error all the same, and at least the
    first [m] chunks are in place. It is assumed that the store verifies chunks, that a successful
    FICLONERANGE has cloned what it was asked to, and that the chunks to be cloned have at least two
    blocks of the file system (clones_fit; short_clone_corrupts shows what happens otherwise). *)
Theorem assembled_file_correct `{Codec} {W} (env : Env) (s : Store W) fuel name i T fileSeeds action
    taken order cut fs (w : W) w' :
  verified_store s -> clone_law env -> index_words env ->
  layout i T -> Chunks i <> [] -> isDevice env name = false ->
  Forall seed_words fileSeeds -> clones_fit env name i action fileSeeds ->
  (forall p, order p ≡ₚ p) ->
  AssembleFile env fuel name i s fileSeeds action taken order cut fs w = Ok (Ok tt, w') ->
  exists f, aFS w' = <[name := f]> fs /\ Z.of_nat (length f) = T /\
    forall k c, Chunks i !! k = Some c -> was_handed cut k -> Sum (place f c) = ID c.
Proof. apply AssembleFile_places. Qed.

(** ** Skipping invalid seeds terminates *)

Definition usable (s : Seed) : bool := negb (IsInvalid s).

(** How many seeds a plan can still use. *)
Definition usable_seeds (ss : list Seed) : nat := length (filter (fun s => usable s = true) ss).

Lemma usable_insert ss k s s' :
  ss !! k = Some s -> (usable s' = true -> usable s = true) ->
  (usable_seeds (<[k := s']> ss) <= usable_seeds ss)%nat /\
  (usable s = true -> usable s' = false -> (usable_seeds (<[k := s']> ss) < usable_seeds ss)%nat).
Proof.
  intros Hk Himp. unfold usable_seeds. revert k Hk. induction ss as [|a ss IH]; intros [|k] Hk; cbn in Hk; try done.
  - injection Hk as ->. change (<[0%nat := s']> (s :: ss)) with (s' :: ss). rewrite !filter_cons.
    destruct (decide (usable s' = true)) as [A|A], (decide (usable s = true)) as [B|B]; cbn [length];
      split; try lia; try (intros; congruence); destruct B; auto.
  - change (<[S k := s']> (a :: ss)) with (a :: <[k := s']> ss). rewrite !filter_cons.
    destruct (IH k Hk) as [H1 H2].
    goal_decide Hd; cbn [length]; split; try lia; intros Ha Hb; specialize (H2 Ha Hb); lia.
Qed.

Lemma invalidate_usable ss k ss' :
  invalidate ss (Some k) = Ok ss' ->
  (usable_seeds ss' <= usable_seeds ss)%nat /\
  (forall s, ss !! k = Some s -> usable s = true -> (usable_seeds ss' < usable_seeds ss)%nat).
Proof.
  cbn. destruct (ss !! k) as [[s|s]|] eqn:Hk; try done. intros [= <-].
  destruct (usable_insert ss k (SFile s) (SFile (file_SetInvalid s true)) Hk) as [H1 H2]; [done|].
  split; [done|]. intros s' [= <-] Hu. by apply H2.
Qed.

Lemma invalidate_some ss k ss' : invalidate ss k = Ok ss' -> exists j, k = Some j.
Proof. destruct k as [j|]; [by exists j|done]. Qed.

(** Every error of Validate comes with a seed that was usable when the plan was made: the first
    one invalidated. *)
Lemma validate_jobs_usable `{Codec} fs jobs : forall g ss e ss',
  validate_jobs fs jobs g ss = Ok (e, ss') ->
  (usable_seeds ss' <= usable_seeds ss)%nat /\
  (g = None -> e <> None ->
   Forall (fun c => exists k s, seed c = Some k /\ ss !! k = Some s /\ usable s = true) jobs ->
   (usable_seeds ss' < usable_seeds ss)%nat).
Proof.
  induction jobs as [|c jobs IH]; intros g ss e ss' Hv; cbn in Hv.
  { injection Hv as <- <-. split; [done|]. by intros ->. }
  destruct (source c) as [m|]; [|done]. destruct (Validate_segment m _) as [u|e1| |]; try done.
  - destruct (IH _ _ _ _ Hv) as [H1 H2]. split; [done|]. intros Hg He [_ Hall]%Forall_cons. auto.
  - destruct (invalidate ss (seed c)) as [ss1| | |] eqn:Hi; try done.
    destruct (invalidate_some _ _ _ Hi) as [k Hk]. rewrite Hk in Hi.
    destruct (invalidate_usable _ _ _ Hi) as [H1 H2]. destruct (IH _ _ _ _ Hv) as [H3 _].
    split; [lia|]. intros _ _ [(k' & s & Ek & Hs & Hu) _]%Forall_cons.
    assert (k' = k) as -> by congruence. specialize (H2 s Hs Hu). lia.
Qed.

Lemma open_seeds_usable fs p : forall ss e ss',
  open_seeds fs p ss = Ok (e, ss') ->
  match e with
  | None => ss' = ss
  | Some _ => Exists (fun c => isFileSeed c = true /\
      exists k, seed c = Some k /\ invalidate ss (Some k) = Ok ss') p
  end.
Proof.
  induction p as [|c p IH]; intros ss e ss' Ho; cbn in Ho; [by injection Ho as <- <-|].
  assert (Hcons : open_seeds fs p ss = Ok (e, ss') ->
    match e with None => ss' = ss | Some _ => Exists (fun c => isFileSeed c = true /\
      exists k, seed c = Some k /\ invalidate ss (Some k) = Ok ss') (c :: p) end).
  { intros Ho'. specialize (IH _ _ _ Ho'). destruct e; [by right|done]. }
  destruct (source c) as [m|] eqn:Hsrc; [|by apply Hcons].
  destruct (decide (FileName m = [])) as [|Hn]; [by apply Hcons|].
  destruct (fs !! FileName m); [by apply Hcons|].
  destruct (invalidate ss (seed c)) as [ss1| | |] eqn:Hi; try done.
  injection Ho as <- <-. left. split.
  - unfold isFileSeed. rewrite Hsrc. by apply bool_decide_eq_true.
  - destruct (invalidate_some _ _ _ Hi) as [k Hk]. rewrite Hk in Hi. by exists k.
Qed.

(** A candidate of a plan with a source points to a usable seed. *)
Lemma plan_covers_usable ss i : forall p a c,
  plan_covers ss i a p -> c ∈ p -> isFileSeed c = true ->
  exists k s, seed c = Some k /\ ss !! k = Some s /\ usable s = true.
Proof.
  induction p as [|d p IH]; intros a c Hp Hc Hf; [by apply not_elem_of_nil in Hc|].
  destruct Hp as (_ & Hs & _ & Hp). apply elem_of_cons in Hc as [->|Hc]; [|by eapply IH].
  unfold isFileSeed in Hf. destruct (source d) as [m|]; [|done].
  destruct Hs as (k & Hk & Ho). unfold offers in Ho. destruct (ss !! k) as [[s|s]|] eqn:Hss; [| |done].
  - destruct m; [|done]. destruct Ho as (_ & _ & _ & Hinv & _). exists k, (SFile s).
    unfold usable. cbn. by rewrite Hinv.
  - by exists k, (SNull s).
Qed.

Lemma Validate_usable `{Codec} fs p ss i a taken e ss' :
  plan_covers ss i a p -> (forall c, c ∈ taken -> c ∈ p /\ isFileSeed c = true) ->
  Validate fs p taken ss = Ok (Some e, ss') -> (usable_seeds ss' < usable_seeds ss)%nat.
Proof.
  intros Hp Htaken Hv. unfold Validate in Hv.
  destruct (open_seeds fs p ss) as [[e1 ss1]| | |] eqn:Ho; try done. cbn in Hv.
  apply open_seeds_usable in Ho. destruct e1 as [e1|].
  - injection Hv as -> ->. apply Exists_exists in Ho as (c & Hc & Hf & k & Hk & Hi).
    destruct (plan_covers_usable ss i p a c Hp Hc Hf) as (k' & s & Hk' & Hs & Hu).
    assert (k' = k) as -> by congruence. by apply (invalidate_usable _ _ _ Hi) with s.
  - subst ss1. destruct (validate_jobs_usable _ _ _ _ _ _ Hv) as [_ Hlt]. apply Hlt; [done|done|].
    apply Forall_forall. intros c Hc. destruct (Htaken c Hc) as [Hcp Hf].
    by eapply plan_covers_usable.
Qed.

Lemma ReadAt_fuel f n off : ReadAt f n off <> NoFuel.
Proof. unfold ReadAt. repeat (let Hd := fresh in goal_decide Hd); done. Qed.

Lemma Validate_segment_fuel `{Codec} m f : Validate_segment m f <> NoFuel.
Proof.
  destruct m as [file cs r|]; [|done]. cbn. induction cs as [|c cs IH]; cbn; [done|].
  pose proof (ReadAt_fuel f (CSize c) (i64 (Start c))) as Hr.
  destruct (ReadAt f _ _); try done. cbn. goal_decide Hd; done.
Qed.

Lemma invalidate_fuel ss k : invalidate ss k <> NoFuel.
Proof. destruct k as [k|]; [|done]. cbn. by destruct (ss !! k) as [[s|s]|]. Qed.

Lemma Validate_fuel `{Codec} fs p taken ss : Validate fs p taken ss <> NoFuel.
Proof.
  assert (Hopen : open_seeds fs p ss <> NoFuel).
  { induction p as [|c p IH]; [done|]. cbn. destruct (source c) as [m|]; [|done]. goal_decide Hd; [done|].
    destruct (fs !! FileName m); [done|]. pose proof (invalidate_fuel ss (seed c)).
    by destruct (invalidate ss (seed c)). }
  assert (Hjobs : forall g ss, validate_jobs fs taken g ss <> NoFuel).
  { induction taken as [|c jobs IH]; intros g ss1; [done|]. cbn. destruct (source c) as [m|]; [|done].
    pose proof (Validate_segment_fuel m (contents fs (FileName m))) as Hv.
    destruct (Validate_segment m _); try done.
    pose proof (invalidate_fuel ss1 (seed c)). destruct (invalidate ss1 (seed c)); try done. apply IH. }
  unfold Validate. destruct (open_seeds fs p ss) as [[[e|] ss1]| | |]; try done. apply Hjobs.
Qed.

(** With the action to skip invalid seeds, the search for a plan ends: whichever jobs the
    workers take, every failed validation makes a seed invalid that the plan used, and an invalid
    seed is in no later plan, so the number of usable seeds bounds the number of attempts. *)
Theorem skip_terminates `{Codec} env i fs taken n ss fuel :
  Chunks i <> [] -> Forall seed_ok ss -> (usable_seeds ss < fuel)%nat ->
  (forall n p c, c ∈ taken n p -> c ∈ p /\ isFileSeed c = true) ->
  find_plan env fuel n fs taken Skip (NewSeedSequencer i ss) <> NoFuel.
Proof.
  intros Hne Hok Hfuel Htaken. unfold NewSeedSequencer. revert n ss Hok Hfuel.
  induction fuel as [|fuel IH]; intros n ss Hok Hfuel; [lia|]. cbn [find_plan].
  destruct (MakePlan_spec ss i Hne Hok) as (q & r & Hq & Er & Ei & Hcov).
  unfold NewSeedSequencer in Hq. rewrite Hq. cbn [mbind outcome_bind]. rewrite Er, Ei.
  destruct (Validate fs q (taken n q) ss) as [[[e|] ss1]|e| |] eqn:Hv; cbn [mbind outcome_bind]; try done.
  - pose proof (Validate_usable fs q ss i 0 _ e ss1 Hcov (Htaken n q) Hv) as Hlt.
    apply IH; [|cbn [seeds]; lia]. by eapply (Validate_good seed_ok).
  - by apply Validate_fuel in Hv.
Qed.

(** ** A concrete extraction *)

(** A world without clones, seeds that cannot be regenerated. *)
Definition ex_env : Env :=
  mkEnv (fun _ _ => false) (fun dst _ _ _ _ => (Some (Errorf "not supported"), dst))
    (fun _ => None) (fun _ => false) (fun _ => Some 4096) (Ok (str ".tmp-block"))
    (fun _ _ _ _ _ => Err (Errorf "no chunker")).

Definition toy_sum (d : bytes) : ChunkID := Sum (Codec := toy_codec) d.

(** A store that has every chunk of four bytes, and verifies what it hands out. *)
Definition ex_chunk_store : Store unit :=
  mkStore
    (fun i w => match NewChunkWithID (H := toy_codec) i (take 4 i) false with
                | Ok c => ((Some c, None), w)
                | Err e => ((None, Some e), w)
                | _ => ((None, Some (Errorf "panic")), w)
                end)
    (fun i w => ((true, None), w)) None (fun w => (None, w)) (str "toy").

Definition ex_blob_index : Index :=
  ex_mk_index [mkIndexChunk (toy_sum (str "aaaa")) 0 4; mkIndexChunk (toy_sum (str "bbbb")) 4 4;
               mkIndexChunk (toy_sum (str "cccc")) 8 4; mkIndexChunk (toy_sum (str "aaaa")) 12 4].

(** A seed whose index is right for the second chunk and wrong for the third, as its file has
    changed. *)
Definition ex_stale_seed : FileSeed :=
  NewIndexSeed (fun _ _ => false) (str "out") (str "seed")
    (ex_mk_index [mkIndexChunk (toy_sum (str "bbbb")) 0 4; mkIndexChunk (toy_sum (str "cccc")) 4 4]).

Definition ex_fs (seed : bytes) : FS := {[ str "seed" := seed; str "other" := str "x" ]}.

(** All file seed segments are validated, in the order of the plan. *)
Definition ex_taken (_ : nat) (p : Plan) : list SeedSegmentCandidate :=
  filter (fun c => isFileSeed c = true) p.

Definition ex_assemble (seed : bytes) : outcome (outcome unit * AW (W := unit)) :=
  AssembleFile (H := toy_codec) ex_env 3 (str "out") ex_blob_index ex_chunk_store [ex_stale_seed] Skip
    ex_taken (@reverse _) None (ex_fs seed) ().

Definition ex_final : AW (W := unit) :=
  match ex_assemble (str "bbbbcccc") with
  | Ok (_, w) => w
  | _ => mkAW ∅ (newSelfSeed (fun _ _ => false) [] ex_blob_index) (mkStats 0 0 0 0 0 0 0 0 0) ()
  end.

(** The final target: with a good seed, and with a stale one that is skipped. *)
Example ex_assembled : contents (aFS ex_final) (str "out") = str "aaaabbbbccccaaaa".
Proof. vm_compute. reflexivity. Qed.

Example ex_assembled_stale : is_ok (ex_assemble (str "bbbbcxcc")) = true.
Proof. vm_compute. reflexivity. Qed.

(** A chunk that passed the verification has data that hashes to its ID. *)
Lemma verify_chunk_sum `{Codec} i c c' d :
  verify_chunk i c false = Ok c' -> idCalculated c = false -> fst (Data c') = Ok d -> Sum d = i.
Proof.
  intros Hv Hc Hd. change (plain c' = Ok d) in Hd.
  rewrite (proj1 (verify_chunk_plain _ _ _ _ Hv)) in Hd.
  destruct (proj2 (verify_chunk_id _ _ _ Hv) Hc) as [(b & Hb & Hs)|[Hp _]]; [congruence|].
  by rewrite Hd in Hp.
Qed.

(** A store that has these pieces, and verifies what it hands out. *)
Definition ex_pieces (ps : list bytes) : Store unit :=
  mkStore
    (fun i w => match filter (fun d => toy_sum d = i) ps with
                | d :: _ =>
                  match NewChunkWithID (H := toy_codec) i d false with
                  | Ok c => ((Some c, None), w)
                  | Err e => ((None, Some e), w)
                  | _ => ((None, Some (Errorf "panic")), w)
                  end
                | [] => ((None, Some (ChunkMissing i)), w)
                end)
    (fun i w => ((true, None), w)) None (fun w => (None, w)) (str "pieces").

Lemma ex_verified ps : verified_store (H := toy_codec) (ex_pieces ps).
Proof.
  intros id w c w' d Hg Hd. cbn [sGetChunk ex_pieces] in Hg. unfold NewChunkWithID in Hg.
  destruct (filter _ ps) as [|b l]; [done|].
  destruct (verify_chunk id _ false) as [c'|e| |] eqn:Hv; try done. injection Hg as <- _.
  by apply (verify_chunk_sum (H := toy_codec) _ _ _ _ Hv).
Qed.

(** A file system with blocks of [bs] bytes that can clone between all files. As documented for
    FICLONERANGE, a length of zero clones up to the end of the source. *)
Definition ex_clone_env (bs : Z) : Env :=
  mkEnv (fun _ _ => true)
    (fun dst src so len d =>
       if decide (len = 0) then (None, write dst (Z.to_nat d) (drop (Z.to_nat so) src))
       else if decide (so + len <= Z.of_nat (length src)) then
         (None, write dst (Z.to_nat d) (rng src (Z.to_nat so) (Z.to_nat len)))
       else (Some (Errorf "EINVAL"), dst))
    (fun _ => None) (fun _ => false) (fun _ => Some bs) (Ok (str ".tmp-block"))
    (fun _ _ _ _ _ => Err (Errorf "no chunker")).

Lemma ex_clone_law bs : clone_law (ex_clone_env bs).
Proof.
  intros dst src so len d dst' He Hlen. cbn [ioctl_clone ex_clone_env] in He.
  rewrite decide_False in He by lia.
  destruct (decide (so + len <= Z.of_nat (length src))); [|done]. by injection He as <-.
Qed.

(** Thirteen bytes: a chunk that is there twice, one that a cloneable seed has, and a short rest. *)
Definition ex_cloned_index : Index :=
  ex_mk_index [mkIndexChunk (toy_sum (str "aaaa")) 0 4; mkIndexChunk (toy_sum (str "bbbb")) 4 4;
               mkIndexChunk (toy_sum (str "aaaa")) 8 4; mkIndexChunk (toy_sum (str "c")) 12 1].

Definition ex_cloned_seed : FileSeed :=
  NewIndexSeed (fun _ _ => true) (str "out") (str "seed")
    (ex_mk_index [mkIndexChunk (toy_sum (str "bbbb")) 0 4]).

Definition ex_cloned_store : Store unit := ex_pieces [str "aaaa"; str "c"].

Definition ex_cloned (cut : option nat) : outcome (outcome unit * AW (W := unit)) :=
  AssembleFile (H := toy_codec) (ex_clone_env 2) 3 (str "out") ex_cloned_index ex_cloned_store [ex_cloned_seed]
    Skip ex_taken (fun p => p) cut {[ str "seed" := str "bbbb" ]} ().

Definition ex_world_of (r : outcome (outcome unit * AW (W := unit))) : AW (W := unit) :=
  match r with
  | Ok (_, w) => w
  | _ => mkAW ∅ (newSelfSeed (fun _ _ => false) [] ex_blob_index) (mkStats 0 0 0 0 0 0 0 0 0) ()
  end.

Definition ex_succeeds (r : outcome (outcome unit * AW (W := unit))) : bool :=
  match r with Ok (Ok tt, _) => true | _ => false end.

Lemma ex_succeeds_run r : ex_succeeds r = true -> r = Ok (Ok tt, ex_world_of r).
Proof. by destruct r as [[[[]| | |] w]| | |]. Qed.

Lemma ex_cloned_layout : layout ex_cloned_index 13.
Proof.
  apply (contiguous_layout ex_cloned_index); [|by vm_compute].
  repeat split; by vm_compute.
Qed.

(** All chunks of the example with an ID other than that of the short one have two blocks. *)
Lemma ex_cloned_two_blocks id : id <> toy_sum (str "c") -> two_blocks ex_cloned_index 2 id.
Proof.
  intros Hid. split; [lia|]. intros c Hc Hi. unfold ex_cloned_index, ex_mk_index in Hc. cbn [Chunks] in Hc.
  repeat (apply elem_of_cons in Hc as [->|Hc]; [cbn in *; first [lia|by subst id]|]).
  by apply not_elem_of_nil in Hc.
Qed.

Lemma ex_twins : twins_long ex_cloned_index 2.
Proof.
  split; [lia|]. intros j k c d Hjk Hj Hk Hid.
  apply (ex_cloned_two_blocks (ID c)); [|by eapply list_elem_of_lookup_2|done]. intros Hc.
  assert (Hlast : forall n e, Chunks ex_cloned_index !! n = Some e -> ID e = toy_sum (str "c") -> n = 3%nat).
  { intros n e Hn He. do 4 (destruct n as [|n]; [injection Hn as <-; first [done|by vm_compute in He]|]). done. }
  apply Hjk. rewrite (Hlast j c Hj Hc). symmetry. apply (Hlast k d Hk). congruence.
Qed.

Lemma ex_clones_fit : clones_fit (H := toy_codec) (ex_clone_env 2) (str "out") ex_cloned_index Skip [ex_cloned_seed].
Proof.
  split.
  - intros block nc _ _ Hn. apply ex_cloned_two_blocks.
    assert (E : (nID <$> NewNullChunk (H := toy_codec) (ChunkSizeMax ex_cloned_index)) = Ok (toy_sum (replicate 8 Byte.x00)))
      by (vm_compute; reflexivity).
    rewrite Hn in E. injection E as ->. vm_compute. discriminate.
  - intros _. apply ex_twins.
  - intros s c ->%list_elem_of_singleton _ Hc. apply ex_cloned_two_blocks.
    unfold ex_cloned_seed in Hc. cbn in Hc. apply elem_of_cons in Hc as [->|[]%elem_of_nil]. vm_compute. discriminate.
  - intros s _ _ Ha. discriminate Ha.
Qed.

Lemma assembled_file_correct_witness :
  exists f, aFS (ex_world_of (ex_cloned None)) = <[str "out" := f]> {[ str "seed" := str "bbbb" ]} /\ Z.of_nat (length f) = 13 /\
    forall k c, Chunks ex_cloned_index !! k = Some c -> was_handed None k -> toy_sum (place f c) = ID c.
Proof.
  refine (assembled_file_correct (H := toy_codec) (ex_clone_env 2) ex_cloned_store 3 (str "out") ex_cloned_index 13
    [ex_cloned_seed] Skip ex_taken (fun p => p) None {[ str "seed" := str "bbbb" ]} () (ex_world_of (ex_cloned None))
    (ex_verified _) (ex_clone_law 2) _ ex_cloned_layout _ _ _ ex_clones_fit _ (ex_succeeds_run (ex_cloned None) _)).
  - discriminate.
  - discriminate.
  - reflexivity.
  - constructor; [|constructor]. split; [reflexivity|]. repeat constructor; by vm_compute.
  - reflexivity.
  - vm_compute. reflexivity.
Defined.

(** The same extraction: blocks were cloned, from the seed and from the target itself. *)
Example ex_cloned_result :
  let w := ex_world_of (ex_cloned None) in
  (contents (aFS w) (str "out"), BytesCloned (aStats w)) = (str "aaaabbbbaaaac", 4).
Proof. vm_compute. reflexivity. Qed.

(** Cancelled after one job, AssembleFile succeeds too, with a target of the right length that only
    has the first chunk. *)
Example interrupted_extraction :
  (ex_succeeds (ex_cloned (Some 1%nat)),
   contents (aFS (ex_world_of (ex_cloned (Some 1%nat)))) (str "out"))
  = (true, str "aaaa" ++ replicate 9 Byte.x00).
Proof. vm_compute. reflexivity. Qed.

(** A chunk of less than two blocks between two block boundaries is cloned with length zero, that is to
    the end of the seed, over what follows it in the target. Here it is written last. *)
Definition ex_short_index (a c : string) : Index :=
  ex_mk_index [mkIndexChunk (toy_sum (str a)) 0 6; mkIndexChunk (toy_sum (str "bbbb")) 6 4;
               mkIndexChunk (toy_sum (str c)) 10 6].

Definition ex_short_clone : outcome (outcome unit * AW (W := unit)) :=
  AssembleFile (H := toy_codec) (ex_clone_env 4) 3 (str "out") (ex_short_index "aaaaaa" "cccccc")
    (ex_pieces [str "aaaaaa"; str "cccccc"])
    [NewIndexSeed (fun _ _ => true) (str "out") (str "seed") (ex_short_index "xxxxxx" "yyyyyy")]
    Skip ex_taken (@reverse _) None {[ str "seed" := str "xxxxxxbbbbyyyyyy" ]} ().

Example short_clone_corrupts :
  (ex_succeeds ex_short_clone, contents (aFS (ex_world_of ex_short_clone)) (str "out"))
  = (true, str "aaaaaabbbbyyyyyy").
Proof. vm_compute. reflexivity. Qed.

Lemma skip_terminates_witness :
  find_plan (H := toy_codec) ex_env 2 1 (ex_fs (str "bbbbcxcc")) ex_taken Skip
    (NewSeedSequencer ex_blob_index [SFile ex_stale_seed]) <> NoFuel.
Proof.
  apply skip_terminates.
  - discriminate.
  - constructor; [reflexivity|constructor].
  - vm_compute. lia.
  - intros n p c Hc. apply list_elem_of_filter in Hc as [? ?]. done.
Defined.

(** An index without chunks, as the index of an empty file, makes a worker panic: the plan has a
    segment of a chunk that does not exist. *)
Example ex_empty_index :
  fst <$> AssembleFile (H := toy_codec) ex_env 1 (str "out") (ex_mk_index []) ex_chunk_store [] Skip
    ex_taken (fun p => p) None ∅ () = Ok Panic.
Proof. vm_compute. reflexivity. Qed.
