(* ===== verification/Make.v ===== *)
(** * Make: chunking a file in parallel (make.go)

    [IndexFromFile] starts [n] chunkers at equal distances in the file; each stops when it meets
    a chunk the next one has too, and the index is put together from what is left in their
    buckets. The workers are a transition system: a step is what one worker does between two
    points where another can interfere, the channel of results is a list, and the chunkers are the
    ones of Chunker.v. The invariant holds for every interleaving of any number of workers; it
    gives that the index is always a beginning of the sequential one, and when it is all of it. *)

From S2P Require Import Prelude Format Index Chunk Rolling Boundary Chunker.

(** ** The pieces of a worker *)

(** Why a worker stopped: it met its successor, it was at the end of the file, or it failed. *)
Inductive stop_reason := InSync | AtEOF | Failed (e : error).

(** Where a worker is in its loop. *)
Inductive point :=
| Idle                                  (* at the top *)
| Sent (c : IndexChunk)                 (* the chunk is in the bucket *)
| Zeroes (c : IndexChunk) (n : Z)       (* syncWith answered: not in sync, n zeros *)
| Nulls (nc : IndexChunk) (m : nat)     (* m null chunks to send after nc *)
| Checking                              (* about to look whether the next worker is gone *)
| Stopped (r : stop_reason).

Record pChunker := mkPChunker {
  results : list IndexChunk;            (* the bucket: what was sent and not yet received *)
  closed : bool;                        (* the results channel is closed *)
  chunker : Chunker.Chunker;
  offset : Z;
  next : nat;                           (* the place of the next worker, or their number for nil *)
  sync : IndexChunk;                    (* the last chunk received from the bucket *)
  at_ : point
}.

(** The zero value of a chunk: the initial [sync], and what a closed channel delivers. *)
Definition zero_chunk : IndexChunk := mkIndexChunk zero_id 0 0.

Definition stopped (w : pChunker) : bool := match at_ w with Stopped _ => true | _ => false end.

Definition active (w : pChunker) : bool := negb (stopped w).

Definition set_at (w : pChunker) (p : point) : pChunker :=
  mkPChunker (results w) (closed w) (chunker w) (offset w) (next w) (sync w) p.

Section make.

Context `{Codec} (nullChunk : NullChunk).

Definition null_len : Z := Z.of_nat (length (nData nullChunk)).

(** ** syncWith *)

(** The first loop: receive until the last chunk received is not before [start]. The answer tells
    whether it got there; a closed channel leaves the zero chunk. *)
Fixpoint sync_loop (start : Z) (prev s : IndexChunk) (rs : list IndexChunk) (cl : bool)
  : bool * IndexChunk * IndexChunk * list IndexChunk :=
  if decide (Start s < start) then
    match rs with
    | [] => (false, s, if cl then zero_chunk else s, [])
    | c :: rs => sync_loop start s c rs cl
    end
  else (true, prev, s, rs).

(** The loop over further null chunks. *)
Fixpoint null_loop (n : Z) (s : IndexChunk) (rs : list IndexChunk) (cl : bool)
  : Z * IndexChunk * list IndexChunk :=
  match rs with
  | [] => (n, if cl then zero_chunk else s, [])
  | c :: rs =>
    if decide (ID c <> nID nullChunk) then (n, c, rs) else null_loop (u64 (n + null_len)) c rs cl
  end.

Definition with_sync (w : pChunker) (s : IndexChunk) (rs : list IndexChunk) : pChunker :=
  mkPChunker rs (closed w) (chunker w) (offset w) (next w) s (at_ w).

Definition syncWith (w : pChunker) (chunk : IndexChunk) : bool * Z * pChunker :=
  let '(ok, prev, s, rs) := sync_loop (Start chunk) zero_chunk (sync w) (results w) (closed w) in
  if negb ok then (false, 0, with_sync w s rs)
  else if decide (Start chunk = Start s /\ CSize chunk = CSize s) then (true, 0, with_sync w s rs)
  else if decide (ID s = nID nullChunk /\ ID prev = nID nullChunk) then
    let n := u64 (u64 (Start prev + CSize prev) - Start chunk) in
    let '(n, s, rs) := null_loop n s rs (closed w) in
    (false, n, with_sync w s rs)
  else (false, 0, with_sync w s rs).

(** ** One step of a worker *)

(** What happens to a worker: it goes on, it is interrupted, or it closes its channel. *)
Inductive event := Run | Interrupt | Close.

(** The worker at place [i] in its loop; [None] when it cannot make this step. *)
Definition run_worker (ws : list pChunker) (i : nat) (w : pChunker) : option (list pChunker) :=
  match at_ w with
  | Idle =>
    match Chunker.Next (chunker w) with
    | Ok (_, _, Some e, c) =>
      Some (<[i := mkPChunker (results w) (closed w) c (offset w) (next w) (sync w) (Stopped (Failed e))]> ws)
    | Ok (start, b, None, c) =>
      if decide (b = []) then
        Some (<[i := mkPChunker (results w) (closed w) c (offset w) (next w) (sync w) (Stopped AtEOF)]> ws)
      else
        let chunk := mkIndexChunk (Sum b) (u64 (start + offset w)) (Z.of_nat (length b)) in
        Some (<[i := mkPChunker (results w ++ [chunk]) (closed w) c (offset w) (next w) (sync w) (Sent chunk)]> ws)
    | _ => None
    end
  | Sent chunk =>
    match ws !! next w with
    | None => Some (<[i := set_at w Idle]> ws)
    | Some w' =>
      let '(inSync, zeroes, w') := syncWith w' chunk in
      Some (<[i := set_at w (if inSync : bool then Stopped InSync else Zeroes chunk zeroes)]>
              (<[next w := w']> ws))
    end
  | Zeroes chunk zeroes =>
    if decide (null_len = 0) then None
    else
      let numNullChunks := Z.quot (i64 zeroes) null_len in
      if decide (0 < numNullChunks) then
        match Chunker.Advance (chunker w) (numNullChunks * null_len) with
        | Ok (None, c) =>
          Some (<[i := mkPChunker (results w) (closed w) c (offset w) (next w) (sync w)
                         (Nulls chunk (Z.to_nat numNullChunks))]> ws)
        | Ok (Some e, c) =>
          Some (<[i := mkPChunker (results w) (closed w) c (offset w) (next w) (sync w)
                         (Stopped (Failed e))]> ws)
        | _ => None
        end
      else Some (<[i := set_at w Checking]> ws)
  | Nulls nc (S m) =>
    let nc := mkIndexChunk (nID nullChunk) (u64 (Start nc + CSize nc)) null_len in
    Some (<[i := mkPChunker (results w ++ [nc]) (closed w) (chunker w) (offset w) (next w) (sync w)
                   (Nulls nc m)]> ws)
  | Nulls nc O => Some (<[i := set_at w Checking]> ws)
  | Checking =>
    match ws !! next w with
    | None => Some (<[i := set_at w Idle]> ws)
    | Some w' =>
      let nx := if negb (active w') && bool_decide (results w' = []) then next w' else next w in
      Some (<[i := mkPChunker (results w) (closed w) (chunker w) (offset w) nx (sync w) Idle]> ws)
    end
  | Stopped _ => None
  end.

Definition do_step (ws : list pChunker) (i : nat) (ev : event) : option (list pChunker) :=
  match ws !! i with
  | None => None
  | Some w =>
    match ev with
    | Run => run_worker ws i w
    | Interrupt =>
      match at_ w with
      | Idle => Some (<[i := set_at w (Stopped (Failed Interrupted))]> ws)
      | _ => None
      end
    | Close =>
      if stopped w && negb (closed w) then
        Some (<[i := mkPChunker (results w) true (chunker w) (offset w) (next w) (sync w) (at_ w)]> ws)
      else None
    end
  end.

(** The scheduler picks a worker and what happens to it. *)
Fixpoint run_schedule (ws : list pChunker) (l : list (nat * event)) : option (list pChunker) :=
  match l with
  | [] => Some ws
  | (i, ev) :: l => match do_step ws i ev with Some ws => run_schedule ws l | None => None end
  end.

(** ** IndexFromFile *)

(** The number of workers, for a file of [size] bytes. *)
Definition worker_count (size max : Z) (n : Z) : Z :=
  let nn := u64 (size / max + 1) in if decide (nn < u64 n) then nn else n.

(** A file opened and read from [start] on. *)
Definition file_reader (s : bytes) (start : nat) : Reader := mkReader [(drop start s, None)] true.

(** Worker [i] of [n]. *)
Definition new_worker (s : bytes) (min avg max : Z) (span : Z) (i : nat) : outcome pChunker :=
  let start := u64 (span * Z.of_nat i) in
  if decide (min = 0) then Panic          (* the capacity of the bucket: (size-start)/min+1 *)
  else
  c ← Chunker.NewChunker (file_reader s (Z.to_nat start)) min avg max;
  Ok (mkPChunker [] false c start (S i) zero_chunk Idle).

Fixpoint new_workers (s : bytes) (min avg max span : Z) (i k : nat) : outcome (list pChunker) :=
  match k with
  | O => Ok []
  | S k =>
    w ← new_worker s min avg max span i;
    ws ← new_workers s min avg max span (S i) k;
    Ok (w :: ws)
  end.

Definition start_workers (s : bytes) (n min avg max : Z) : outcome (list pChunker) :=
  if decide (max = 0) then Panic
  else
    let n := worker_count (Z.of_nat (length s)) max n in
    if decide (n = 0) then Panic
    else new_workers s min avg max (Z.of_nat (length s) / n) 0 (Z.to_nat n).

(** The loop that puts the index together: the buckets in order, each read until it is closed, up to
    a worker that has failed or was at the end of the file; [None] while it has to wait. *)
Fixpoint collect (ws : list pChunker) : option (outcome (list IndexChunk)) :=
  match ws with
  | [] => Some (Ok [])
  | w :: ws =>
    if closed w then
      match at_ w with
      | Stopped (Failed e) => Some (Err e)
      | Stopped AtEOF => Some (Ok (results w))
      | _ =>
        match collect ws with
        | Some (Ok l) => Some (Ok (results w ++ l))
        | r => r
        end
      end
    else None
  end.

(** The header of the index: the flags of a catar file are copied. *)
Definition index_flags (e_end : error) (s : bytes) : Z :=
  let digestFlag := match Algorithm_ with SHA512_256 => CaFormatSHA512256 | SHA256 => 0 end in
  let flags := Z.lor CaFormatExcludeNoDump digestFlag in
  match Format.Next e_end (NewFormatDecoder s) with
  | (Ok (Some (FormatEntry _ f _ _ _ _ _)), _) => Z.lor flags f
  | _ => flags
  end.

Definition make_index (e_end : error) (s : bytes) (min avg max : Z) (l : list IndexChunk) : Index :=
  mkIndex (mkHeader 0 0) (index_flags e_end s) min avg max l.

End make.

(** ** The sequential chunks of the file *)

Section reference.

Context `{Codec} (s : bytes) (t : BoundaryTest) (mn mx : nat).
Hypothesis sizes : (WindowSize <= mn < mx)%nat.

(** The chunk that starts at byte [p], and where it ends. *)
Definition cut (p : nat) : nat := cut_point t mn mx (drop p s).

Definition chunk_from (p : nat) : IndexChunk :=
  mkIndexChunk (Sum (take (cut p) (drop p s))) (Z.of_nat p) (Z.of_nat (cut p)).

(** [l] are the sequential chunks from byte [a] to byte [b]. *)
Fixpoint run (a : nat) (l : list IndexChunk) (b : nat) : Prop :=
  match l with
  | [] => a = b
  | c :: l => (a < length s)%nat /\ c = chunk_from a /\ run (a + cut a) l b
  end.

(** The chunks of the index a single chunker makes. *)
Definition sequential : list IndexChunk :=
  map (fun '(st, b) => mkIndexChunk (Sum b) st (Z.of_nat (length b))) (chunks t mn mx (length s) 0 s).

Lemma cut_range p :
  (p < length s)%nat -> (0 < cut p)%nat /\ (p + cut p <= length s)%nat /\ (cut p <= mx)%nat.
Proof using sizes.
  intros Hp. unfold cut. destruct (cut_point_range t mn mx (drop p s) ltac:(lia)) as (_ & H2 & _).
  destruct (cut_point_pos t mn mx sizes (drop p s)) as [H3 H4].
  { intros E%(f_equal length). rewrite length_drop in E. cbn in E. lia. }
  rewrite length_drop in H4. lia.
Qed.

Lemma run_snoc a l b :
  run a l b -> (b < length s)%nat -> run a (l ++ [chunk_from b]) (b + cut b).
Proof using Type. revert a. induction l as [|c l IH]; intros a; cbn; [by intros ->|]. intros (? & ? & ?). auto. Qed.

Lemma run_app a l b l' c : run a l b -> run b l' c -> run a (l ++ l') c.
Proof using Type. revert a. induction l as [|x l IH]; intros a; cbn; [by intros ->|]. intros (? & ? & ?). auto. Qed.

(** Runs from 0 are the beginnings of the sequential list. *)
Lemma run_prefix a l b pos :
  run a l b -> (a <= length s)%nat -> pos = Z.of_nat a -> Z.of_nat (length s) < 2 ^ 64 ->
  exists l', map (fun '(st, b) => mkIndexChunk (Sum b) st (Z.of_nat (length b)))
               (chunks t mn mx (length (drop a s)) pos (drop a s)) = l ++ l' /\
             (b = length s -> l' = []) /\ (b <= length s)%nat.
Proof using sizes.
  intros Hr Ha -> Hlen. revert a Hr Ha. induction l as [|c l IH]; intros a Hr Ha.
  - cbn in Hr. subst b. eexists. split; [reflexivity|]. split; [|done]. intros ->. by rewrite drop_all.
  - destruct Hr as (Hlt & -> & Hr). destruct (cut_range a Hlt) as (Hc1 & Hc2 & _).
    destruct (IH _ Hr Hc2) as (l' & E & Hl' & Hb). exists l'. split; [|done].
    rewrite (chunks_cons t mn mx sizes).
    + cbn [map app]. f_equal.
      * unfold chunk_from. rewrite u64_small by mach_lia. f_equal. rewrite length_take, length_drop.
        fold (cut a). lia.
      * rewrite <- E, !drop_drop. fold (cut a). by rewrite Nat2Z.inj_add.
    + intros E'%(f_equal length). rewrite length_drop in E'. cbn in E'. lia.
Qed.

Lemma run_sequential l b :
  run 0 l b -> Z.of_nat (length s) < 2 ^ 64 ->
  l `prefix_of` sequential /\ (b = length s -> l = sequential).
Proof using sizes.
  intros Hr Hlen. destruct (run_prefix 0 l b 0 Hr ltac:(lia) eq_refl Hlen) as (l' & E & Hl' & _).
  rewrite drop_0 in E. fold sequential in E. split; [by exists l'|].
  intros Hb. rewrite (Hl' Hb), app_nil_r in E. done.
Qed.

(** ** Runs of zeros *)

Definition zeros (a n : nat) : Prop :=
  (a + n <= length s)%nat /\ take n (drop a s) = replicate n Byte.x00.

Lemma zeros_sub a n b m : zeros a n -> (a <= b)%nat -> (b + m <= a + n)%nat -> zeros b m.
Proof using Type.
  clear sizes.
  intros [Hl E] Hb Hm. split; [lia|].
  apply (f_equal (fun l => take m (drop (b - a) l))) in E.
  rewrite skipn_firstn_comm, take_take, drop_drop, drop_replicate, take_replicate in E.
  rewrite Nat.min_l in E by lia. replace (a + (b - a))%nat with b in E by lia.
  exact E.
Qed.

Lemma zeros_app a n m : zeros a n -> zeros (a + n) m -> zeros a (n + m).
Proof using Type.
  clear sizes.
  intros [Hl E] [Hl' E']. split; [lia|].
  rewrite <- take_take_drop, drop_drop, E, E', replicate_add. done.
Qed.

(** Where a chunk is the null chunk, the data is; and then it is wherever there are enough zeros. *)
Definition null_cuts : Prop := forall a, zeros a mx -> cut a = mx.

Lemma null_cut a : zeros a mx -> cut a = mx -> null_cuts.
Proof using sizes.
  assert (Hz : forall a, zeros a mx -> cut a = cut_point t mn mx (replicate mx Byte.x00)).
  { intros b [Hl E]. unfold cut. rewrite <- (take_drop mx (drop b s)), E.
    apply cut_point_buffer; [done|]. left. by rewrite length_replicate. }
  intros Ha E b Hb. by rewrite (Hz b Hb), <- (Hz a Ha).
Qed.

End reference.

(** ** The workers' invariant *)

Section invariant.

Context `{Codec} (s : bytes) (t : BoundaryTest) (mn mx : nat).
Hypothesis sizes : (WindowSize <= mn < mx)%nat.
Hypothesis fits : Z.of_nat (length s) < 2 ^ 62.

(** The null chunk; no other data has its ID, and it is not the zero ID. *)
Context (nullChunk : NullChunk).
Hypothesis null_data : nData nullChunk = replicate mx Byte.x00.
Hypothesis null_id : nID nullChunk = Sum (nData nullChunk).
Hypothesis null_unique : forall b, Sum b = nID nullChunk -> b = nData nullChunk.
Hypothesis null_not_zero : nID nullChunk <> zero_id.

Abbreviation cut := (cut s t mn mx).
Abbreviation chunk_from := (chunk_from s t mn mx).
Abbreviation run := (run s t mn mx).
Abbreviation zeros := (zeros s).
Abbreviation null_cuts := (null_cuts s t mn mx).

Lemma null_len_mx : null_len nullChunk = Z.of_nat mx.
Proof. unfold null_len. by rewrite null_data, length_replicate. Qed.

Lemma mx_pos : (0 < mx)%nat.
Proof. unfold WindowSize in sizes. lia. Qed.

(** A chunk with the ID of the null chunk is one. *)
Lemma chunk_from_null a :
  (a < length s)%nat -> ID (chunk_from a) = nID nullChunk -> zeros a mx /\ cut a = mx /\ null_cuts.
Proof.
  intros Ha E. apply null_unique in E. rewrite null_data in E.
  destruct (cut_range s t mn mx sizes a Ha) as (Hc1 & Hc2 & Hc3).
  assert (Hcut : cut a = mx).
  { apply (f_equal length) in E. rewrite length_take, length_drop, length_replicate in E. lia. }
  assert (Hz : zeros a mx) by (rewrite Hcut in E; split; [lia|exact E]).
  split; [done|]. split; [done|]. by apply (null_cut s t mn mx sizes a).
Qed.

Lemma null_chunk_from p :
  null_cuts -> zeros p mx -> chunk_from p = mkIndexChunk (nID nullChunk) (Z.of_nat p) (null_len nullChunk).
Proof.
  intros Hn Hz. unfold Make.chunk_from. rewrite (Hn p Hz), null_len_mx, null_id, null_data.
  by rewrite (proj2 Hz).
Qed.

(** The last chunk received from a bucket that goes on at byte [b]: none, or the one before [b]. *)
Definition sync_ok (y : IndexChunk) (b : nat) : Prop :=
  y = zero_chunk \/ exists a, (a < length s)%nat /\ y = chunk_from a /\ (a + cut a)%nat = b.

(** A worker whose bucket has the chunks from byte [b] to byte [p]. *)
Record worker_ok (w : pChunker) (b p : nat) : Prop := {
  wo_run : run b (results w) p;
  wo_le : (p <= length s)%nat;
  wo_sync : sync_ok (sync w) b;
  wo_chunker : stopped w = false -> exists q,
    represents t mn mx (chunker w) (drop q s) ErrEOF (Z.of_nat q - offset w) /\
    seekable (Chunker.r (chunker w)) = true /\ (q <= length s)%nat /\
    match at_ w with
    | Nulls nc m => q = (p + m * mx)%nat /\ Start nc + CSize nc = Z.of_nat p /\ zeros p (m * mx) /\ null_cuts
    | _ => q = p
    end;
  wo_at : match at_ w with
    | Sent c => exists a, (a < length s)%nat /\ c = chunk_from a /\ (a + cut a)%nat = p
    | Zeroes c n => exists a, (a < length s)%nat /\ c = chunk_from a /\ (a + cut a)%nat = p /\
        0 <= n <= Z.of_nat (length s) /\ (Z.of_nat mx <= n -> zeros a (Z.to_nat n + mx) /\ null_cuts)
    | Stopped AtEOF => p = length s
    | _ => True
    end
}.

Lemma sync_loop_spec start cl : forall rs prev y b p ok prev' y' rs',
  sync_loop start prev y rs cl = (ok, prev', y', rs') -> run b rs p -> sync_ok y b ->
  exists b', run b' rs' p /\ sync_ok y' b' /\ (rs = [] -> rs' = []) /\
    (ok = true -> start <= Start y' /\
      ((prev' = prev /\ y' = y) \/ prev' = zero_chunk \/
       exists a1 a2, prev' = chunk_from a1 /\ y' = chunk_from a2 /\ (a1 < length s)%nat /\ (a2 < length s)%nat /\
         (a1 + cut a1)%nat = a2 /\ Z.of_nat a1 < start)).
Proof.
  induction rs as [|c rs IH]; intros prev y b p ok prev' y' rs' Hl Hr Hy; cbn [sync_loop] in Hl.
  - destruct (decide (Start y < start)) as [Hlt|Hge]; injection Hl as <- <- <- <-.
    + exists p. cbn in Hr. subst b. split; [done|]. split; [destruct cl; [by left|done]|]. by split.
    + exists b. split; [done|]. split; [done|]. split; [done|]. intros _. split; [lia|by left].
  - destruct (decide (Start y < start)) as [Hlt|Hge].
    + destruct Hr as (Hb & -> & Hr).
      assert (Hy' : sync_ok (chunk_from b) (b + cut b)) by (right; by exists b).
      destruct (IH _ _ _ _ _ _ _ _ Hl Hr Hy') as (b' & Hr' & Hsy & _ & Hok).
      exists b'. split; [done|]. split; [done|]. split; [done|]. intros Hok'.
      destruct (Hok Hok') as [Hge [[-> ->]|Hprev]]; (split; [done|]); [|by right].
      right. destruct Hy as [->|(a & Ha & -> & Hab)]; [by left|right].
      exists a, b. split; [done|]. split; [done|]. split; [done|]. split; [done|]. split; [done|]. exact Hlt.
    + injection Hl as <- <- <- <-. exists b. split; [done|]. split; [done|]. split; [done|].
      intros _. split; [lia|by left].
Qed.

Lemma null_loop_spec cl a : forall rs n y b p n' y' rs',
  null_loop nullChunk n y rs cl = (n', y', rs') -> run b rs p -> sync_ok y b ->
  0 <= n -> zeros a (Z.to_nat n + mx) -> (a + Z.to_nat n + mx)%nat = b ->
  exists b', run b' rs' p /\ sync_ok y' b' /\ (rs = [] -> rs' = []) /\
    0 <= n' <= Z.of_nat (length s) /\ zeros a (Z.to_nat n' + mx).
Proof.
  induction rs as [|c rs IH]; intros n y b p n' y' rs' Hl Hr Hy Hn Hz Hab; cbn [null_loop] in Hl.
  - injection Hl as <- <- <-. exists p. cbn in Hr. subst b. split; [done|].
    split; [destruct cl; [by left|done]|]. split; [done|]. pose proof (proj1 Hz). split; [lia|done].
  - destruct Hr as (Hb & -> & Hr).
    assert (Hy' : sync_ok (chunk_from b) (b + cut b)) by (right; by exists b).
    destruct (decide (ID (chunk_from b) <> nID nullChunk)) as [Hne|Heq].
    + injection Hl as <- <- <-. exists (b + cut b)%nat. split; [done|]. split; [done|]. split; [done|].
      pose proof (proj1 Hz). split; [lia|done].
    + apply dec_stable in Heq. destruct (chunk_from_null b Hb Heq) as (Hzb & Hcut & _).
      pose proof (proj1 Hzb). rewrite null_len_mx, u64_small in Hl by mach_lia.
      destruct (IH _ _ _ _ _ _ _ Hl Hr Hy') as (b' & Hr' & Hsy & _ & Hn' & Hz'); [lia| |lia|].
      * replace (Z.to_nat (n + Z.of_nat mx) + mx)%nat with (Z.to_nat n + mx + mx)%nat by lia.
        apply zeros_app; [done|]. by replace (a + (Z.to_nat n + mx))%nat with b by lia.
      * exists b'. done.
Qed.

(** syncWith consumes a part of the bucket of the next worker; it reports a match only when the
    bucket goes on where the chunk ends, and zeros only where there are zeros. *)
Lemma syncWith_spec w b p a r n w' :
  worker_ok w b p -> (a < length s)%nat -> syncWith nullChunk w (chunk_from a) = (r, n, w') ->
  exists b', worker_ok w' b' p /\ at_ w' = at_ w /\ next w' = next w /\ closed w' = closed w /\
    (results w = [] -> results w' = []) /\
    (r = true -> (a + cut a)%nat = b') /\
    0 <= n <= Z.of_nat (length s) /\ (Z.of_nat mx <= n -> zeros a (Z.to_nat n + mx) /\ null_cuts).
Proof.
  intros [Hrun Hle Hsync Hch Hat] Ha Hs. unfold syncWith in Hs. pose proof mx_pos.
  destruct (sync_loop (Start (chunk_from a)) zero_chunk (sync w) (results w) (closed w)) as [[[ok prev] y] rs] eqn:Hl.
  destruct (sync_loop_spec _ _ _ _ _ _ _ _ _ _ _ Hl Hrun Hsync) as (b' & Hr' & Hy' & Hnil & Hok).
  assert (Hkeep : forall y'' rs'' b'', run b'' rs'' p -> sync_ok y'' b'' -> worker_ok (with_sync w y'' rs'') b'' p).
  { intros y'' rs'' b'' ? ?. by split. }
  destruct ok; cbn [negb] in Hs.
  2:{ injection Hs as <- <- <-. exists b'. split; [by apply Hkeep|]. repeat split; try done; lia. }
  destruct (Hok eq_refl) as [Hge Hprev].
  destruct (decide (Start (chunk_from a) = Start y /\ CSize (chunk_from a) = CSize y)) as [[E1 E2]|Hne].
  { injection Hs as <- <- <-. exists b'. split; [by apply Hkeep|].
    split_and!; try done; try lia. intros _. destruct (cut_range s t mn mx sizes a Ha) as (Hc & _).
    destruct Hy' as [->|(a' & Ha' & -> & Hb')]; cbn in E1, E2; [lia|].
    apply Nat2Z.inj in E1. by subst a'. }
  destruct (decide (ID y = nID nullChunk /\ ID prev = nID nullChunk)) as [[Ey Ep]|Hnn].
  2:{ injection Hs as <- <- <-. exists b'. split; [by apply Hkeep|]. repeat split; try done; lia. }
  destruct Hprev as [[-> _]|[->|(a1 & a2 & -> & -> & Ha1 & Ha2 & Ea & Hlt)]];
    [by destruct null_not_zero|by destruct null_not_zero|].
  destruct (chunk_from_null a1 Ha1 Ep) as (Hz1 & Hc1 & Hcuts), (chunk_from_null a2 Ha2 Ey) as (Hz2 & Hc2 & _).
  cbn [Start CSize Make.chunk_from] in Hs, Hge, Hlt. fold (cut a1) in Hs. rewrite Hc1 in Hs, Ea.
  pose proof (proj1 Hz1). pose proof (proj1 Hz2).
  rewrite (u64_small (Z.of_nat a1 + _)), u64_small in Hs by mach_lia.
  destruct (null_loop nullChunk _ (chunk_from a2) rs (closed w)) as [[n1 y1] rs1] eqn:Hnl.
  injection Hs as <- <- <-.
  destruct Hy' as [Hy'|(a2' & Ha2' & E2' & Hb')].
  { exfalso. apply (f_equal ID) in Hy'. rewrite Ey in Hy'. by apply null_not_zero. }
  assert (a2' = a2) as ->. { apply (f_equal Start) in E2'. cbn in E2'. lia. }
  fold (cut a2) in Hb'. rewrite Hc2 in Hb'.
  destruct (null_loop_spec (closed w) a _ _ _ _ _ _ _ _ Hnl Hr') as (b1 & Hr1 & Hy1 & Hnil1 & Hn1 & Hz);
    [right; exists a2; split; [done|]; split; [done|]; fold (cut a2); lia|lia| |lia|].
  - replace (Z.to_nat _ + mx)%nat with (a2 - a + mx)%nat by lia.
    apply zeros_sub with a1 (mx + mx)%nat; [|lia|lia]. apply zeros_app; [done|]. by rewrite Ea.
  - exists b1. split; [by apply Hkeep|]. split_and!; try done; try lia. auto.
Qed.

(** ** The invariant of all workers *)

(** Worker [i] has been skipped by one before it. *)
Definition passed (ws : list pChunker) (i : nat) : Prop :=
  exists k w, (k < i)%nat /\ ws !! k = Some w /\ (i < next w)%nat.

(** [B i] is where the bucket of worker [i] begins and [P i] where it ends. Between a worker and its
    next one there are only workers that are done and have nothing left; a worker that stopped in
    sync with its next one ends where that one's bucket begins, as long as nobody has skipped
    it. *)
Record minv (ws : list pChunker) (B P : nat -> nat) : Prop := {
  mi_ok i w : ws !! i = Some w -> worker_ok w (B i) (P i);
  mi_next i w : ws !! i = Some w -> (i < next w <= length ws)%nat;
  mi_between i w k : ws !! i = Some w -> (i < k < next w)%nat ->
    exists w', ws !! k = Some w' /\ stopped w' = true /\ results w' = [] /\ (next w' <= next w)%nat;
  mi_sync i w : ws !! i = Some w -> at_ w = Stopped InSync ->
    (next w < length ws)%nat /\ (~ passed ws i -> P i = B (next w));
  mi_closed i w : ws !! i = Some w -> closed w = true -> stopped w = true;
  mi_zero : B 0%nat = 0%nat
}.

Definition upd (f : nat -> nat) (i x : nat) : nat -> nat := fun k => if decide (k = i) then x else f k.

Lemma upd_eq f i x : upd f i x i = x.
Proof. unfold upd. by rewrite decide_True. Qed.

Lemma upd_ne f i x k : k <> i -> upd f i x k = f k.
Proof. intros. unfold upd. by rewrite decide_False. Qed.

(** Skipping only depends on the next pointers. *)
Lemma passed_set ws i w w' k :
  ws !! i = Some w -> next w' = next w -> passed (<[i := w']> ws) k <-> passed ws k.
Proof.
  intros Hi En. assert (Hlt : (i < length ws)%nat) by (by eapply lookup_lt_Some).
  split; intros (j & x & Hjk & Hj & Hx).
  - destruct (decide (i = j)) as [<-|Hne].
    + rewrite list_lookup_insert_eq in Hj by done. injection Hj as <-. exists i, w.
      by rewrite <- En.
    + rewrite list_lookup_insert_ne in Hj by done. by exists j, x.
  - destruct (decide (i = j)) as [<-|Hne].
    + rewrite Hi in Hj. injection Hj as <-. exists i, w'. rewrite list_lookup_insert_eq by done.
      by rewrite En.
    + exists j, x. by rewrite list_lookup_insert_ne.
Qed.

(** A worker changes and keeps its next pointer. *)
Lemma minv_set ws B P i w w' b' p' :
  minv ws B P -> ws !! i = Some w -> worker_ok w' b' p' -> next w' = next w ->
  (closed w' = true -> stopped w' = true) ->
  (stopped w = true -> stopped w' = true /\ (results w = [] -> results w' = [])) ->
  (at_ w' = Stopped InSync -> (next w < length ws)%nat /\ (~ passed ws i -> p' = B (next w))) ->
  (forall k x, ws !! k = Some x -> k <> i -> at_ x = Stopped InSync -> next x = i -> ~ passed ws k -> b' = B i) ->
  (i = 0%nat -> b' = B i) ->
  minv (<[i := w']> ws) (upd B i b') (upd P i p').
Proof.
  intros Hi Hw Hok En Hcl Hstop Hsync Hin Hz.
  assert (Hlt : (i < length ws)%nat) by (by eapply lookup_lt_Some).
  assert (Hnext : forall k x, ws !! k = Some x -> (k < next x)%nat) by (intros; by eapply (mi_next _ _ _ Hi)).
  split.
  - intros k x Hk. destruct (decide (i = k)) as [<-|Hne].
    + rewrite list_lookup_insert_eq in Hk by done. injection Hk as <-. by rewrite !upd_eq.
    + rewrite list_lookup_insert_ne in Hk by done. rewrite !upd_ne by done. by apply (mi_ok _ _ _ Hi).
  - intros k x Hk. rewrite length_insert. destruct (decide (i = k)) as [<-|Hne].
    + rewrite list_lookup_insert_eq in Hk by done. injection Hk as <-. rewrite En.
      by apply (mi_next _ _ _ Hi).
    + rewrite list_lookup_insert_ne in Hk by done. by apply (mi_next _ _ _ Hi).
  - intros k x m Hk Hm.
    assert (Hold : exists x0, ws !! k = Some x0 /\ next x0 = next x).
    { destruct (decide (i = k)) as [<-|Hne].
      - rewrite list_lookup_insert_eq in Hk by done. injection Hk as <-. by exists w.
      - rewrite list_lookup_insert_ne in Hk by done. by exists x. }
    destruct Hold as (x0 & Hx0 & Ex). rewrite <- Ex in *.
    destruct (mi_between _ _ _ Hi k x0 m Hx0 Hm) as (y & Hy & Hs & Hr & Hn).
    destruct (decide (i = m)) as [<-|Hne].
    + exists w'. rewrite list_lookup_insert_eq by done. rewrite Hw in Hy. injection Hy as <-.
      destruct (Hstop Hs) as [? Hr']. rewrite En. auto.
    + exists y. by rewrite list_lookup_insert_ne.
  - intros k x Hk Hx. rewrite length_insert, (passed_set ws i w w' k Hw En).
    destruct (decide (i = k)) as [<-|Hne].
    + rewrite list_lookup_insert_eq in Hk by done. injection Hk as <-. rewrite En, upd_eq, upd_ne.
      * by apply Hsync.
      * specialize (Hnext _ _ Hw). lia.
    + rewrite list_lookup_insert_ne in Hk by done. destruct (mi_sync _ _ _ Hi k x Hk Hx) as [Hl Hp].
      split; [done|]. intros Hnp. rewrite upd_ne by done. unfold upd.
      destruct (decide (next x = i)) as [E|]; [|by apply Hp].
      rewrite (Hin k x Hk) by done. rewrite <- E. by apply Hp.
  - intros k x Hk. destruct (decide (i = k)) as [<-|Hne].
    + rewrite list_lookup_insert_eq in Hk by done. by injection Hk as <-.
    + rewrite list_lookup_insert_ne in Hk by done. by apply (mi_closed _ _ _ Hi k).
  - unfold upd. destruct (decide (0%nat = i)) as [<-|]; [rewrite Hz by done|]; apply (mi_zero _ _ _ Hi).
Qed.

(** A running worker moves on, its bucket still beginning at the same byte. *)
Lemma minv_run ws B P i w w' p' :
  minv ws B P -> ws !! i = Some w -> stopped w = false -> worker_ok w' (B i) p' -> next w' = next w ->
  closed w' = closed w ->
  (at_ w' = Stopped InSync -> (next w < length ws)%nat /\ p' = B (next w)) ->
  minv (<[i := w']> ws) (upd B i (B i)) (upd P i p').
Proof.
  intros Hi Hw Hs Hok En Ec Hsync. apply minv_set with w; try done.
  - intros Hc. rewrite Ec in Hc. by rewrite (mi_closed _ _ _ Hi i w Hw Hc) in Hs.
  - by rewrite Hs.
  - intros Ha. destruct (Hsync Ha). auto.
Qed.

(** A running worker [i] receives from the bucket of its next worker. *)
Lemma minv_consume ws B P i w j x x' b' :
  minv ws B P -> ws !! i = Some w -> stopped w = false -> next w = j -> ws !! j = Some x ->
  worker_ok x' b' (P j) -> at_ x' = at_ x -> next x' = next x -> closed x' = closed x ->
  (results x = [] -> results x' = []) ->
  minv (<[j := x']> ws) (upd B j b') (upd P j (P j)).
Proof.
  intros Hi Hw Hs <- Hx Hok Ea En Ec Hr.
  assert (Est : stopped x' = stopped x) by (unfold stopped; by rewrite Ea).
  apply minv_set with x; try done.
  - rewrite Ec, Est. apply (mi_closed _ _ _ Hi _ x Hx).
  - by rewrite Est.
  - rewrite Ea. intros Hin. by apply (mi_sync _ _ _ Hi _ x Hx).
  - intros k y Hk Hne Hy Hny Hnp. exfalso.
    pose proof (mi_next _ _ _ Hi k y Hk). pose proof (mi_next _ _ _ Hi i w Hw).
    destruct (decide (k = i)) as [->|Hki].
    + rewrite Hw in Hk. injection Hk as <-. unfold stopped in Hs. by rewrite Hy in Hs.
    + destruct (decide (k < i)%nat).
      * destruct (mi_between _ _ _ Hi k y i Hk) as (w0 & Hw0 & Hst & _); [lia|].
        rewrite Hw in Hw0. injection Hw0 as <-. by rewrite Hs in Hst.
      * apply Hnp. exists i, w. split; [lia|]. split; [done|lia].
  - pose proof (mi_next _ _ _ Hi i w Hw). lia.
Qed.

(** A worker skips its next one, which is done and has nothing left. *)
Lemma minv_skip ws B P i w w' x :
  minv ws B P -> ws !! i = Some w -> stopped w = false -> ws !! next w = Some x ->
  stopped x = true -> results x = [] ->
  worker_ok w' (B i) (P i) -> next w' = next x -> stopped w' = false -> closed w' = closed w ->
  minv (<[i := w']> ws) B P.
Proof.
  intros Hi Hw Hs Hx Hsx Hrx Hok En Hs' Ec.
  assert (Hlt : (i < length ws)%nat) by (by eapply lookup_lt_Some).
  pose proof (mi_next _ _ _ Hi i w Hw). pose proof (mi_next _ _ _ Hi _ x Hx).
  split.
  - intros k y Hk. destruct (decide (i = k)) as [<-|Hne].
    + rewrite list_lookup_insert_eq in Hk by done. by injection Hk as <-.
    + rewrite list_lookup_insert_ne in Hk by done. by apply (mi_ok _ _ _ Hi).
  - intros k y Hk. rewrite length_insert. destruct (decide (i = k)) as [<-|Hne].
    + rewrite list_lookup_insert_eq in Hk by done. injection Hk as <-. lia.
    + rewrite list_lookup_insert_ne in Hk by done. by apply (mi_next _ _ _ Hi).
  - intros k y m Hk Hm. destruct (decide (i = k)) as [<-|Hne].
    + rewrite list_lookup_insert_eq in Hk by done. injection Hk as <-. rewrite En in *.
      destruct (decide (m < next w)%nat); [|destruct (decide (m = next w)) as [->|]].
      * destruct (mi_between _ _ _ Hi i w m Hw) as (z & Hz & ? & ? & ?); [lia|].
        exists z. rewrite list_lookup_insert_ne by lia. split_and!; try done. lia.
      * exists x. rewrite list_lookup_insert_ne by lia. done.
      * destruct (mi_between _ _ _ Hi _ x m Hx) as (z & Hz & ? & ? & ?); [lia|].
        exists z. by rewrite list_lookup_insert_ne by lia.
    + rewrite list_lookup_insert_ne in Hk by done.
      destruct (mi_between _ _ _ Hi k y m Hk Hm) as (z & Hz & Hsz & ?). exists z.
      rewrite list_lookup_insert_ne; [done|]. intros <-. congruence.
  - intros k y Hk Hy. rewrite length_insert. destruct (decide (i = k)) as [<-|Hne].
    + rewrite list_lookup_insert_eq in Hk by done. injection Hk as <-.
      unfold stopped in Hs'. by rewrite Hy in Hs'.
    + rewrite list_lookup_insert_ne in Hk by done. destruct (mi_sync _ _ _ Hi k y Hk Hy) as [Hl Hp].
      split; [done|]. intros Hnp. apply Hp. intros (j & z & Hjk & Hj & Hz). apply Hnp.
      destruct (decide (i = j)) as [<-|].
      * exists i, w'. rewrite Hw in Hj. injection Hj as <-. rewrite list_lookup_insert_eq by done.
        split; [done|]. split; [done|]. lia.
      * exists j, z. by rewrite list_lookup_insert_ne.
  - intros k y Hk Hc. destruct (decide (i = k)) as [<-|Hne].
    + rewrite list_lookup_insert_eq in Hk by done. injection Hk as <-. rewrite Ec in Hc.
      by rewrite (mi_closed _ _ _ Hi i w Hw Hc) in Hs.
    + rewrite list_lookup_insert_ne in Hk by done. by apply (mi_closed _ _ _ Hi k y).
  - apply (mi_zero _ _ _ Hi).
Qed.

(** ** The work left *)

Definition stage (w : pChunker) : nat :=
  match at_ w with
  | Idle => 2 | Checking => 3 | Nulls _ _ => 4 | Zeroes _ _ => 5 | Sent _ => 6
  | Stopped _ => if closed w then 0 else 1
  end.

(** What worker [w], whose bucket ends at byte [p], has left to do. *)
Definition work (w : pChunker) (p : nat) : nat := (8 * (length s - p) + stage w)%nat.

Fixpoint total (ws : list pChunker) (P : nat -> nat) : nat :=
  match ws with
  | [] => 0
  | w :: ws => work w (P 0%nat) + total ws (fun i => P (S i))
  end%nat.

Lemma total_ext ws P Q : (forall i, (i < length ws)%nat -> P i = Q i) -> total ws P = total ws Q.
Proof using Type.
  clear. revert P Q. induction ws as [|w ws IH]; intros P Q E; [done|]. cbn.
  rewrite (E 0%nat) by (cbn; lia). f_equal. apply IH. intros i Hi. apply E. cbn. lia.
Qed.

Lemma total_set ws i w w' P p' :
  ws !! i = Some w ->
  (total (<[i := w']> ws) (upd P i p') + work w (P i) = total ws P + work w' p')%nat.
Proof using Type.
  clear. revert i P. induction ws as [|x ws IH]; intros [|i] P Hi; [done|done| |].
  - injection Hi as ->. change (<[0%nat := w']> (w :: ws)) with (w' :: ws). cbn [total].
    rewrite upd_eq, (total_ext ws (fun k => upd P 0 p' (S k)) (fun k => P (S k))); [lia|].
    intros k _. by rewrite upd_ne.
  - change (<[S i := w']> (x :: ws)) with (x :: <[i := w']> ws). cbn [total].
    rewrite upd_ne by done. specialize (IH i (fun k => P (S k)) Hi).
    rewrite (total_ext _ (fun k => upd P (S i) p' (S k)) (upd (fun k => P (S k)) i p')); [lia|].
    intros k _. unfold upd. repeat case_decide; (done || lia).
Qed.

(** ** Every step keeps the invariant and leaves less to do *)

Definition better (ws : list pChunker) (P : nat -> nat) (ws' : list pChunker) : Prop :=
  length ws' = length ws /\ exists B' P', minv ws' B' P' /\ (total ws' P' < total ws P)%nat.

Lemma step_to ws B P i w w' p' :
  minv ws B P -> ws !! i = Some w -> stopped w = false -> worker_ok w' (B i) p' -> next w' = next w ->
  closed w' = closed w ->
  (at_ w' = Stopped InSync -> (next w < length ws)%nat /\ p' = B (next w)) ->
  (work w' p' < work w (P i))%nat ->
  better ws P (<[i := w']> ws).
Proof.
  intros Hi Hw Hs Hok En Ec Hin Hwork. split; [apply length_insert|].
  exists (upd B i (B i)), (upd P i p'). split; [by apply minv_run with w|].
  pose proof (total_set ws i w w' P p' Hw). lia.
Qed.

(** A running worker keeps its chunker and its bucket and goes to another place of its loop. *)
Lemma worker_ok_at w b p pt :
  worker_ok w b p ->
  match at_ w with Nulls _ m => m = 0%nat | _ => True end ->
  match pt with
  | Idle | Checking | Stopped InSync | Stopped (Failed _) => True
  | Zeroes c n => exists a, (a < length s)%nat /\ c = chunk_from a /\ (a + cut a)%nat = p /\
      0 <= n <= Z.of_nat (length s) /\ (Z.of_nat mx <= n -> zeros a (Z.to_nat n + mx) /\ null_cuts)
  | _ => False
  end ->
  stopped w = false ->
  worker_ok (set_at w pt) b p.
Proof.
  intros [Hrun Hle Hsync Hch Hat] Hm Hpt Hs. split; cbn; try done.
  - intros Hs'. destruct (Hch Hs) as (q & Hr & Hse & Hq & Hp). exists q.
    split; [done|]. split; [done|]. split; [done|].
    assert (q = p) as -> by (destruct (at_ w); try done; subst; lia).
    by destruct pt as [| | | | |[]].
  - by destruct pt as [| | | | |[]].
Qed.

Lemma step_idle ws B P i w ws' :
  minv ws B P -> ws !! i = Some w -> at_ w = Idle -> run_worker nullChunk ws i w = Some ws' ->
  better ws P ws'.
Proof.
  intros Hi Hw Ha. unfold run_worker. rewrite Ha.
  assert (Hs : stopped w = false) by (unfold stopped; by rewrite Ha).
  destruct (mi_ok _ _ _ Hi i w Hw) as [Hrun Hle Hsync Hch _].
  destruct (Hch Hs) as (q & Hr & Hse & Hq & Hp). rewrite Ha in Hp. subst q.
  destruct (Next_step _ _ _ _ _ _ _ Hr) as (c' & [(EN & Hr' & _)|(_ & He)]); [|done].
  pose proof (Next_seekable _ _ _ _ _ EN) as Hsk. rewrite EN. fold (cut (P i)) in *.
  destruct (decide (take (cut (P i)) (drop (P i) s) = [])) as [Hnil|Hne]; intros [= <-].
  - apply step_to with B w (P i); try done.
    + split; try done. cbn. destruct (decide (P i < length s)%nat) as [Hlt|]; [|lia].
      apply (f_equal length) in Hnil. rewrite length_take, length_drop in Hnil. cbn in Hnil.
      destruct (cut_range s t mn mx sizes (P i) Hlt) as (? & ? & _). lia.
    + unfold work, stage. cbn. rewrite Ha. destruct (closed w); lia.
  - assert (Hlt : (P i < length s)%nat).
    { destruct (decide (P i < length s)%nat); [done|]. rewrite drop_ge, take_nil in Hne by lia. done. }
    destruct (cut_range s t mn mx sizes (P i) Hlt) as (Hc1 & Hc2 & _). fold (cut (P i)) in *.
    assert (Ec : mkIndexChunk (Sum (take (cut (P i)) (drop (P i) s)))
                   (u64 (u64 (Z.of_nat (P i) - offset w) + offset w))
                   (Z.of_nat (length (take (cut (P i)) (drop (P i) s)))) = chunk_from (P i)).
    { unfold Make.chunk_from. rewrite u64_add_l, length_take, length_drop, Nat.min_l by lia.
      rewrite u64_small by mach_lia. f_equal. lia. }
    rewrite Ec.
    apply step_to with B w (P i + cut (P i))%nat; try done.
    + split; cbn; try done.
      * by apply run_snoc.
      * intros _. exists (P i + cut (P i))%nat. split; [|by rewrite Hsk].
        rewrite drop_drop in Hr'.
        replace (Z.of_nat (P i + cut (P i)) - offset w)
          with (Z.of_nat (P i) - offset w + Z.of_nat (cut (P i))) by lia. exact Hr'.
      * by exists (P i).
    + unfold work, stage. cbn. rewrite Ha. lia.
Qed.

Lemma step_nulls ws B P i w nc m ws' :
  minv ws B P -> ws !! i = Some w -> at_ w = Nulls nc m -> run_worker nullChunk ws i w = Some ws' ->
  better ws P ws'.
Proof.
  intros Hi Hw Ha. unfold run_worker. rewrite Ha.
  assert (Hs : stopped w = false) by (unfold stopped; by rewrite Ha).
  pose proof (mi_ok _ _ _ Hi i w Hw) as Hok. pose proof Hok as [Hrun Hle Hsync Hch _].
  pose proof mx_pos.
  destruct m as [|m]; intros [= <-].
  - apply step_to with B w (P i); try done.
    + apply worker_ok_at; try done. by rewrite Ha.
    + unfold work, stage. cbn. rewrite Ha. lia.
  - destruct (Hch Hs) as (q & Hr & Hse & Hq & Hp). rewrite Ha in Hp. destruct Hp as (-> & Hnc & Hz & Hn).
    assert (Hz1 : zeros (P i) mx) by (apply zeros_sub with (P i) (S m * mx)%nat; [done|lia|lia]).
    pose proof (proj1 Hz) as Hzl. rewrite Hnc, u64_small by mach_lia.
    rewrite <- (null_chunk_from (P i)) by done.
    apply step_to with B w (P i + mx)%nat; try done.
    + split; cbn -[Z.mul Nat.mul]; try done.
      * assert (Hcut : cut (P i) = mx) by by apply Hn. replace (P i + mx)%nat with (P i + cut (P i))%nat by lia.
        apply run_snoc; [done|lia].
      * lia.
      * intros _. exists (P i + S m * mx)%nat. split_and!; try done; [lia| |].
        -- rewrite (Hn _ Hz1). lia.
        -- apply zeros_sub with (P i) (S m * mx)%nat; [done|lia|lia].
    + unfold work, stage. cbn -[Nat.mul]. rewrite Ha. lia.
Qed.

Lemma step_sent ws B P i w c ws' :
  minv ws B P -> ws !! i = Some w -> at_ w = Sent c -> run_worker nullChunk ws i w = Some ws' ->
  better ws P ws'.
Proof.
  intros Hi Hw Ha. unfold run_worker. rewrite Ha.
  assert (Hs : stopped w = false) by (unfold stopped; by rewrite Ha).
  pose proof (mi_ok _ _ _ Hi i w Hw) as Hok. pose proof (wo_at _ _ _ Hok) as Hat. rewrite Ha in Hat.
  destruct Hat as (a & Hal & -> & Hap). pose proof (mi_next _ _ _ Hi i w Hw).
  destruct (ws !! next w) as [x|] eqn:Hx.
  2:{ intros [= <-]. apply step_to with B w (P i); try done.
      - apply worker_ok_at; try done. by rewrite Ha.
      - unfold work, stage. cbn. rewrite Ha. lia. }
  destruct (syncWith nullChunk x (chunk_from a)) as [[r n] x'] eqn:Es.
  destruct (syncWith_spec _ _ _ _ _ _ _ (mi_ok _ _ _ Hi _ x Hx) Hal Es)
    as (b' & Hokx & Eax & Enx & Ecx & Hnil & Hsync & Hn & Hz).
  pose proof (minv_consume _ _ _ _ _ _ _ _ _ Hi Hw Hs eq_refl Hx Hokx Eax Enx Ecx Hnil) as Hi'.
  set (ws1 := <[next w := x']> ws) in *.
  assert (Hw1 : ws1 !! i = Some w) by (unfold ws1; by rewrite list_lookup_insert_ne by lia).
  assert (Et : total ws1 (upd P (next w) (P (next w))) = total ws P).
  { pose proof (total_set ws (next w) x x' P (P (next w)) Hx). fold ws1 in H1.
    unfold work, stage in H1. rewrite Eax, Ecx in H1. lia. }
  intros [= <-].
  destruct (step_to ws1 _ _ i w (set_at w (if r then Stopped InSync else Zeroes (chunk_from a) n)) (P i) Hi' Hw1)
    as (Hl & B2 & P2 & Hi2 & Ht); try done.
  - rewrite upd_ne by lia. apply worker_ok_at; try done; [by rewrite Ha|].
    destruct r; [done|]. by exists a.
  - cbn. intros Hr. destruct r; [|done]. unfold ws1. rewrite length_insert, upd_eq, <- Hap.
    split; [by eapply lookup_lt_Some|auto].
  - rewrite upd_ne by lia. unfold work, stage. cbn. rewrite Ha. destruct r, (closed w); lia.
  - split; [rewrite Hl; apply length_insert|]. exists B2, P2. rewrite <- Et. done.
Qed.

Lemma step_zeroes ws B P i w c n ws' :
  minv ws B P -> ws !! i = Some w -> at_ w = Zeroes c n -> run_worker nullChunk ws i w = Some ws' ->
  better ws P ws'.
Proof.
  intros Hi Hw Ha. unfold run_worker. rewrite Ha, null_len_mx. pose proof mx_pos.
  assert (Hs : stopped w = false) by (unfold stopped; by rewrite Ha).
  pose proof (mi_ok _ _ _ Hi i w Hw) as Hok. pose proof Hok as [Hrun Hle Hsync Hch Hat].
  rewrite Ha in Hat. destruct Hat as (a & Hal & -> & Hap & Hn & Hz).
  destruct (Hch Hs) as (q & Hr & Hse & Hq & Hp). rewrite Ha in Hp. subst q.
  rewrite decide_False by lia. rewrite i64_small, Z.quot_div_nonneg by mach_lia.
  destruct (decide (0 < n / Z.of_nat mx)) as [Hm|Hm].
  2:{ intros [= <-]. apply step_to with B w (P i); try done.
      - apply worker_ok_at; try done. by rewrite Ha.
      - unfold work, stage. cbn. rewrite Ha. lia. }
  set (m := Z.to_nat (n / Z.of_nat mx)).
  assert (Em : n / Z.of_nat mx = Z.of_nat m) by lia. rewrite Em in *.
  pose proof (Z.mul_div_le n (Z.of_nat mx) ltac:(lia)) as Hmn. rewrite Em in Hmn.
  destruct Hz as [Hz Hcuts]; [nia|]. pose proof (proj1 Hz) as Hzl.
  assert (Hcut : cut a = mx).
  { apply Hcuts. apply zeros_sub with a (Z.to_nat n + mx)%nat; [done|lia|lia]. }
  assert (Hmz : zeros (P i) (m * mx)) by (apply zeros_sub with a (Z.to_nat n + mx)%nat; [done|lia|lia]).
  destruct (Advance_represents _ _ _ _ _ _ (Z.of_nat m * Z.of_nat mx) Hr) as (c' & EA & Hr' & Hse');
    [by left|pose proof (proj1 Hmz); rewrite length_drop; nia|].
  rewrite EA. intros [= <-].
  apply step_to with B w (P i); try done.
  - split; cbn -[Z.mul Nat.mul]; try done.
    intros _. exists (P i + m * mx)%nat. split_and!; try done; [| |apply Hmz|].
    + rewrite drop_drop in Hr'.
      replace (Z.to_nat (Z.of_nat m * Z.of_nat mx)) with (m * mx)%nat in Hr' by lia.
      replace (Z.of_nat (P i + m * mx) - offset w)
        with (Z.of_nat (P i) - offset w + Z.of_nat m * Z.of_nat mx) by lia. exact Hr'.
    + by rewrite Hse'.
    + change (Z.of_nat a + Z.of_nat (cut a) = Z.of_nat (P i)). lia.
  - unfold work, stage. cbn. rewrite Ha. lia.
Qed.

Lemma step_checking ws B P i w ws' :
  minv ws B P -> ws !! i = Some w -> at_ w = Checking -> run_worker nullChunk ws i w = Some ws' ->
  better ws P ws'.
Proof.
  intros Hi Hw Ha. unfold run_worker. rewrite Ha.
  assert (Hs : stopped w = false) by (unfold stopped; by rewrite Ha).
  pose proof (mi_ok _ _ _ Hi i w Hw) as Hok.
  assert (Hok' : worker_ok (set_at w Idle) (B i) (P i)) by (apply worker_ok_at; try done; by rewrite Ha).
  assert (Hwork : (work (set_at w Idle) (P i) < work w (P i))%nat).
  { unfold work, stage. cbn. rewrite Ha. lia. }
  destruct (ws !! next w) as [x|] eqn:Hx; [|intros [= <-]; by apply step_to with B w (P i)].
  destruct (negb (active x) && bool_decide (results x = [])) eqn:Hskip; intros [= <-].
  2:{ change (mkPChunker (results w) (closed w) (chunker w) (offset w) (next w) (sync w) Idle)
        with (set_at w Idle). by apply step_to with B w (P i). }
  apply andb_true_iff in Hskip as [Hact Hnil]. apply bool_decide_eq_true in Hnil.
  unfold active in Hact. rewrite negb_involutive in Hact.
  set (w' := mkPChunker (results w) (closed w) (chunker w) (offset w) (next x) (sync w) Idle).
  split; [apply length_insert|]. exists B, P. split.
  - apply minv_skip with w x; try done. by destruct Hok'.
  - pose proof (total_set ws i w w' P (P i) Hw) as Ht.
    rewrite (total_ext _ (upd P i (P i)) P) in Ht.
    2:{ intros k _. unfold upd. by case_decide; subst. }
    change (work w' (P i)) with (work (set_at w Idle) (P i)) in Ht. lia.
Qed.

Lemma do_step_better ws B P i ev ws' :
  minv ws B P -> do_step nullChunk ws i ev = Some ws' -> better ws P ws'.
Proof.
  intros Hi. unfold do_step. destruct (ws !! i) as [w|] eqn:Hw; [|done]. destruct ev.
  - destruct (at_ w) eqn:Ha; [by eapply step_idle|by eapply step_sent|by eapply step_zeroes|
      by eapply step_nulls|by eapply step_checking|]. unfold run_worker. by rewrite Ha.
  - destruct (at_ w) eqn:Ha; try done. intros [= <-].
    assert (Hs : stopped w = false) by (unfold stopped; by rewrite Ha).
    apply step_to with B w (P i); try done.
    + apply worker_ok_at; try done; [by apply (mi_ok _ _ _ Hi)|by rewrite Ha].
    + unfold work, stage. cbn. rewrite Ha. destruct (closed w); lia.
  - destruct (stopped w) eqn:Hs; [|done]. destruct (closed w) eqn:Hc; [done|]. intros [= <-].
    set (w' := mkPChunker _ _ _ _ _ _ _). split; [apply length_insert|].
    exists (upd B i (B i)), (upd P i (P i)). split.
    + apply minv_set with w; try done.
      * by destruct (mi_ok _ _ _ Hi i w Hw).
      * intros Ha. by apply (mi_sync _ _ _ Hi i w Hw).
    + pose proof (total_set ws i w w' P (P i) Hw) as Ht.
      assert (work w' (P i) < work w (P i))%nat; [|lia].
      unfold work, stage, stopped in *. cbn. destruct (at_ w); try done. rewrite Hc. lia.
Qed.

Lemma run_schedule_minv l : forall ws B P ws',
  minv ws B P -> run_schedule nullChunk ws l = Some ws' ->
  length ws' = length ws /\ exists B' P', minv ws' B' P' /\ (length l + total ws' P' <= total ws P)%nat.
Proof.
  induction l as [|[i ev] l IH]; intros ws B P ws' Hi Hl; cbn in Hl.
  - injection Hl as <-. split; [done|]. exists B, P. cbn. split; [done|lia].
  - destruct (do_step nullChunk ws i ev) as [ws1|] eqn:Hd; [|done].
    destruct (do_step_better _ _ _ _ _ _ Hi Hd) as (E1 & B1 & P1 & Hi1 & Ht1).
    destruct (IH _ _ _ _ Hi1 Hl) as (E2 & B2 & P2 & Hi2 & Ht2).
    split; [congruence|]. exists B2, P2. split; [done|]. cbn. lia.
Qed.

(** ** What is left in the buckets *)

(** The collected chunks are a run of chunks, from the bucket of the first worker that has not been
    skipped, which ends at the end of the file if the worker where reading stops has not been
    skipped either. *)
Definition at_eof (w : pChunker) : Prop := at_ w = Stopped AtEOF.

Lemma collect_run ws B P : minv ws B P -> forall rest i j l,
  drop i ws = rest -> (i <= j <= length ws)%nat -> ~ passed ws j ->
  (forall k w, ws !! k = Some w -> (i <= k < j)%nat -> results w = [] /\ passed ws k) ->
  collect rest = Some (Ok l) ->
  exists e, run (B j) l e /\
    ((j < length ws)%nat ->
     (forall k w, ws !! k = Some w -> at_eof w -> (forall k' w', (i <= k' < k)%nat -> ws !! k' = Some w' -> ~ at_eof w') ->
       (i <= k)%nat -> ~ passed ws k) -> e = length s).
Proof.
  intros Hi. induction rest as [|w rest IH]; intros i j l Hd Hij Hnp Hskip Hc.
  - injection Hc as <-. exists (B j). split; [done|]. intros Hj.
    apply (f_equal length) in Hd. rewrite length_drop in Hd. cbn in Hd. lia.
  - assert (Hw : ws !! i = Some w) by (rewrite <- (Nat.add_0_r i), <- lookup_drop, Hd; done).
    assert (Hd' : drop (S i) ws = rest).
    { replace (S i) with (i + 1)%nat by lia. by rewrite <- drop_drop, Hd. }
    assert (Hlt : (i < length ws)%nat) by (by eapply lookup_lt_Some).
    cbn [collect] in Hc. destruct (closed w) eqn:Hcl; [|done].
    pose proof (mi_closed _ _ _ Hi i w Hw Hcl) as Hst. pose proof (mi_next _ _ _ Hi i w Hw).
    destruct (mi_ok _ _ _ Hi i w Hw) as [Hrun _ _ _ Hat].
    destruct (at_ w) as [|c|c n|nc m| |[| |e]] eqn:Ha; try (unfold stopped in Hst; by rewrite Ha in Hst).
    + (* in sync: its next worker goes on *)
      destruct (collect rest) as [[l'| | |]|] eqn:Hcr; try done. injection Hc as <-.
      destruct (decide (i = j)) as [->|Hne].
      * destruct (mi_sync _ _ _ Hi j w Hw Ha) as [Hnl Hpb]. specialize (Hpb Hnp).
        assert (Hnp' : ~ passed ws (next w)).
        { intros (k & x & Hk & Hx & Hnx).
          destruct (decide (k < j)%nat).
          - apply Hnp. exists k, x. split; [lia|]. split; [done|lia].
          - destruct (decide (k = j)) as [->|]; [rewrite Hw in Hx; injection Hx as <-; lia|].
            destruct (mi_between _ _ _ Hi j w k Hw) as (y & Hy & _ & _ & Hny); [lia|].
            rewrite Hx in Hy. injection Hy as <-. lia. }
        destruct (IH (S j) (next w) l' Hd') as (e & Hr & He); [lia|done| |done|].
        { intros k x Hx Hk. destruct (mi_between _ _ _ Hi j w k Hw) as (y & Hy & ? & ? & ?); [lia|].
          rewrite Hx in Hy. injection Hy as <-. split; [done|]. exists j, w. split; [lia|]. split; [done|lia]. }
        exists e. split; [apply run_app with (P j); [done|by rewrite Hpb]|].
        intros Hj Hall. apply He; [lia|]. intros k x Hx Hex Hfirst Hk. apply (Hall k x Hx Hex); [|lia].
        intros k' x' Hk' Hx'. destruct (decide (k' = j)) as [->|].
        -- rewrite Hw in Hx'. injection Hx' as <-. unfold at_eof. by rewrite Ha.
        -- apply (Hfirst k'); [lia|done].
      * destruct (Hskip i w Hw) as [-> _]; [lia|].
        destruct (IH (S i) j l' Hd') as (e & Hr & He); [lia|done| |done|].
        { intros k x Hx Hk. apply Hskip; [done|lia]. }
        exists e. split; [done|].
        intros Hj Hall. apply He; [lia|]. intros k x Hx Hex Hfirst Hk. apply (Hall k x Hx Hex); [|lia].
        intros k' x' Hk' Hx'. destruct (decide (k' = i)) as [->|].
        -- rewrite Hw in Hx'. injection Hx' as <-. unfold at_eof. by rewrite Ha.
        -- apply (Hfirst k'); [lia|done].
    + injection Hc as <-. destruct (decide (i = j)) as [->|Hne].
      * exists (P j). split; [done|]. intros _ _. done.
      * destruct (Hskip i w Hw) as [-> Hpi]; [lia|]. exists (B j). split; [done|].
        intros Hj Hall. exfalso. apply (Hall i w Hw Ha); [|lia|done]. intros k' x' Hk'. lia.
Qed.

(** A worker that has not stopped can always go on. *)
Lemma run_worker_progress ws B P i w :
  minv ws B P -> ws !! i = Some w -> stopped w = false -> run_worker nullChunk ws i w <> None.
Proof.
  intros Hi Hw Hs. unfold run_worker.
  pose proof (mi_ok _ _ _ Hi i w Hw) as [Hrun Hle Hsync Hch Hat]. pose proof mx_pos.
  destruct (Hch Hs) as (q & Hr & Hse & Hq & Hp).
  destruct (at_ w) as [|c|c n|nc [|m]| |r] eqn:Ha; try done.
  - destruct (Next_step _ _ _ _ _ _ _ Hr) as (c' & [(-> & _ & _)|(-> & _)]); [|done]. by case_decide.
  - destruct (ws !! next w); [|done]. by destruct (syncWith _ _ _) as [[? ?] ?].
  - rewrite null_len_mx, decide_False by lia. destruct Hat as (a & Hal & -> & Hap & Hn & Hz).
    rewrite i64_small, Z.quot_div_nonneg by mach_lia. case_decide as Hm; [|done]. subst q.
    pose proof (Z.mul_div_le n (Z.of_nat mx) ltac:(lia)) as Hmn.
    destruct Hz as [Hz Hcuts]; [nia|]. pose proof (proj1 Hz).
    assert (cut a = mx) by (apply Hcuts; apply zeros_sub with a (Z.to_nat n + mx)%nat; [done|lia|lia]).
    destruct (Advance_represents _ _ _ _ _ _ (n / Z.of_nat mx * Z.of_nat mx) Hr) as (c' & -> & _);
      [by left|rewrite length_drop; lia|done].
  - by destruct (ws !! next w).
  - unfold stopped in Hs. by rewrite Ha in Hs.
Qed.

Lemma all_closed_collect ws : Forall (fun w => closed w = true) ws -> exists r, collect ws = Some r.
Proof using Type.
  clear. induction 1 as [|w ws Hw _ [r IH]]; [by eexists|]. cbn. rewrite Hw, IH.
  destruct (at_ w) as [| | | | |[| |e]]; destruct r; by eexists.
Qed.

Lemma stuck_collect ws B P :
  minv ws B P -> (forall i ev, ev <> Interrupt -> do_step nullChunk ws i ev = None) ->
  exists r, collect ws = Some r.
Proof.
  intros Hi Hstuck. apply all_closed_collect. apply Forall_lookup. intros i w Hw.
  destruct (closed w) eqn:Hc; [done|].
  destruct (stopped w) eqn:Hs.
  - specialize (Hstuck i Close ltac:(done)). unfold do_step in Hstuck. by rewrite Hw, Hs, Hc in Hstuck.
  - specialize (Hstuck i Run ltac:(done)). unfold do_step in Hstuck. rewrite Hw in Hstuck.
    by apply (run_worker_progress _ _ _ _ _ Hi Hw Hs) in Hstuck.
Qed.

(** Reading the buckets of all workers. *)
Lemma collect_sequential ws B P l :
  minv ws B P -> (0 < length ws)%nat -> collect ws = Some (Ok l) ->
  l `prefix_of` sequential s t mn mx /\
  ((forall k w, ws !! k = Some w -> at_eof w -> (forall k' w', (k' < k)%nat -> ws !! k' = Some w' -> ~ at_eof w') ->
     ~ passed ws k) -> l = sequential s t mn mx).
Proof.
  intros Hi Hl Hc.
  destruct (collect_run ws B P Hi ws 0 0 l) as (e & Hr & He); [done|lia| |lia|done|].
  { intros (k & w & Hk & _). lia. }
  rewrite (mi_zero _ _ _ Hi) in Hr.
  destruct (run_sequential s t mn mx sizes l e Hr ltac:(lia)) as [Hpre Hall]. split; [done|].
  intros Hno. apply Hall, He; [done|]. intros k w Hw Hew Hfirst _. apply (Hno k w Hw Hew).
  intros k' w' Hk'. apply Hfirst. lia.
Qed.

(** With two workers reading never stops at a skipped one. *)
Lemma collect_two ws B P l :
  minv ws B P -> (length ws <= 2)%nat -> collect ws = Some (Ok l) ->
  forall k w, ws !! k = Some w -> at_eof w -> (forall k' w', (k' < k)%nat -> ws !! k' = Some w' -> ~ at_eof w') ->
     ~ passed ws k.
Proof.
  intros Hi Hl Hc k w Hw Hew Hfirst (j & x & Hjk & Hx & Hn).
  assert (k < length ws)%nat by (by eapply lookup_lt_Some). replace j with 0%nat in * by lia.
  replace k with 1%nat in * by lia. destruct ws as [|y ws]; [done|]. injection Hx as ->.
  specialize (Hfirst 0%nat x ltac:(lia) eq_refl). cbn in Hc. destruct (closed x) eqn:Hcl; [|done].
  pose proof (mi_closed _ _ _ Hi 0%nat x eq_refl Hcl) as Hst.
  pose proof (mi_sync _ _ _ Hi 0%nat x eq_refl) as Hin. unfold stopped, at_eof in *.
  destruct (at_ x) as [| | | | |[| |]]; try done. destruct (Hin eq_refl) as [? _]. lia.
Qed.

End invariant.

(** ** The first state *)

Section start.

Context `{Codec} (s : bytes) (mn avg mx : Z) (t : BoundaryTest).
Hypothesis sizes : mn < mx.
Hypothesis max_fits : 10 * mx <= maxAlloc.
Hypothesis fits : Z.of_nat (length s) < 2 ^ 62.
Hypothesis discriminator : precompute (discriminatorFromAvg avg) = Ok t.

Lemma new_workers_ok span n : forall k i ws,
  new_workers s mn avg mx span i k = Ok ws -> 0 <= span -> span * Z.of_nat n <= Z.of_nat (length s) ->
  (i + k = n)%nat ->
  length ws = k /\ (k = 0%nat \/ ChunkerWindowSize <= mn) /\ forall j w, ws !! j = Some w ->
    worker_ok s t (Z.to_nat mn) (Z.to_nat mx) w (Z.to_nat span * (i + j)) (Z.to_nat span * (i + j)) /\
    next w = S (i + j) /\ at_ w = Idle /\ closed w = false.
Proof.
  induction k as [|k IH]; intros i ws Hws Hsp Hlen Hik; cbn [new_workers] in Hws.
  - injection Hws as <-. split; [done|]. split; [by left|]. intros j w Hj. done.
  - apply outcome_bind_ok in Hws as (w & Hw & Hws). apply outcome_bind_ok in Hws as (ws' & Hws & [= <-]).
    destruct (IH _ _ Hws Hsp Hlen ltac:(lia)) as (El & _ & Hall).
    unfold new_worker in Hw. destruct (decide (mn = 0)) as [|Hm]; [done|]. rewrite u64_small in Hw by mach_lia.
    apply outcome_bind_ok in Hw as (c & Hc & [= <-]).
    pose proof (NewChunker_represents _ _ _ _ _ Hc sizes max_fits) as Hr.
    destruct (NewChunker_inv _ _ _ _ _ Hc) as (Hmn & Hmx & t' & Ht & Ec). rewrite discriminator in Ht.
    injection Ht as <-. subst c. cbn -[Z.mul] in Hr.
    split; [cbn; lia|]. split; [right; lia|]. intros [|j] w Hj.
    + injection Hj as <-. rewrite Nat.add_0_r. split; [|done].
      split; cbn -[Z.mul Nat.mul]; try done; [lia|by left|].
      intros _. exists (Z.to_nat span * i)%nat. split; [|split; [done|split; [lia|done]]].
      assert (E : Z.to_nat (span * Z.of_nat i) = (Z.to_nat span * i)%nat) by lia.
      rewrite E, app_nil_r in Hr. rewrite E. replace (Z.of_nat (Z.to_nat span * i) - span * Z.of_nat i) with 0 by lia. exact Hr.
    + replace (i + S j)%nat with (S i + j)%nat by lia. by apply Hall.
Qed.

Lemma worker_count_pos n :
  0 <= mn -> is_i64 n -> worker_count (Z.of_nat (length s)) mx n <> 0 ->
  0 < worker_count (Z.of_nat (length s)) mx n.
Proof.
  intros Hmn Hn. unfold worker_count.
  assert (0 <= Z.of_nat (length s) / mx <= Z.of_nat (length s)).
  { split; [apply Z.div_pos; lia|]. apply Z.div_le_upper_bound; nia. }
  rewrite u64_small by mach_lia. case_decide as Hlt; intros; [lia|].
  destruct (decide (n < 0)); [|lia]. exfalso. apply Hlt. unfold u64.
  replace (n mod 2 ^ 64) with (n + 2 ^ 64); [mach_lia|].
  rewrite <- (Z.mod_small (n + 2 ^ 64) (2 ^ 64)) by mach_lia.
  rewrite <- (Z_mod_plus_full n 1 (2 ^ 64)). f_equal.
Qed.

Lemma start_workers_minv n ws :
  0 <= mn -> is_i64 n -> start_workers s n mn avg mx = Ok ws ->
  (WindowSize <= Z.to_nat mn < Z.to_nat mx)%nat /\ (0 < length ws)%nat /\
  exists B, minv s t (Z.to_nat mn) (Z.to_nat mx) ws B B /\
    (total s ws B <= length ws * (8 * length s + 2))%nat.
Proof.
  intros Hmn Hn. unfold start_workers. destruct (decide (mx = 0)) as [|Hmx0]; [done|].
  destruct (decide (worker_count _ _ _ = 0)) as [|Hn0]; [done|]. intros Hws.
  pose proof (worker_count_pos n Hmn Hn Hn0) as Hpos.
  set (k := worker_count _ _ _) in *. set (span := Z.of_nat (length s) / k) in *.
  assert (Hsp : 0 <= span) by (apply Z.div_pos; lia).
  pose proof (Z.mul_div_le (Z.of_nat (length s)) k Hpos) as Hle. fold span in Hle.
  destruct (new_workers_ok span (Z.to_nat k) _ _ _ Hws Hsp) as (El & Hsz & Hall); [lia|lia|].
  destruct Hsz as [?|Hsz]; [lia|].
  split; [unfold ChunkerWindowSize, WindowSize in *; lia|]. split; [lia|].
  exists (fun j => (Z.to_nat span * j)%nat). split.
  - split.
    + intros i w Hw. by destruct (Hall i w Hw).
    + intros i w Hw. destruct (Hall i w Hw) as (_ & -> & _).
      assert (i < length ws)%nat by (by eapply lookup_lt_Some). lia.
    + intros i w j Hw Hj. destruct (Hall i w Hw) as (_ & E & _). rewrite E in Hj. lia.
    + intros i w Hw. destruct (Hall i w Hw) as (_ & _ & -> & _). done.
    + intros i w Hw. destruct (Hall i w Hw) as (_ & _ & _ & ->). done.
    + lia.
  - generalize (fun j => (Z.to_nat span * j)%nat) as P.
    assert (Hst : Forall (fun w => at_ w = Idle) ws).
    { apply Forall_lookup. intros i w Hw. by destruct (Hall i w Hw) as (_ & _ & ? & _). }
    clear -Hst. induction Hst as [|w ws Hw _ IH]; intros P; [cbn; lia|]. cbn -[Nat.mul].
    specialize (IH (fun j => P (S j))). unfold work, stage. rewrite Hw. lia.
Qed.

End start.

(** ** The properties *)

Section properties.

Context `{Codec} (s : bytes) (n mn avg mx : Z) (t : BoundaryTest) (nullChunk : NullChunk) (ws : list pChunker).
Hypothesis mn_range : 0 <= mn < mx.
Hypothesis max_fits : 10 * mx <= maxAlloc.
Hypothesis n_int : is_i64 n.
Hypothesis file_fits : Z.of_nat (length s) < 2 ^ 62.
Hypothesis discriminator : precompute (discriminatorFromAvg avg) = Ok t.
Hypothesis workers : start_workers s n mn avg mx = Ok ws.

(** No other chunk has the ID of the null chunk, and it is not the zero ID. *)
Hypothesis null : NewNullChunk mx = Ok nullChunk.
Hypothesis null_unique : forall b, Sum b = nID nullChunk -> b = nData nullChunk.
Hypothesis null_not_zero : nID nullChunk <> zero_id.

Lemma null_facts :
  nData nullChunk = replicate (Z.to_nat mx) Byte.x00 /\ nID nullChunk = Sum (nData nullChunk).
Proof using null mn_range max_fits.
  clear -null mn_range max_fits.
  unfold NewNullChunk in null. rewrite i64_small in null by mach_lia.
  destruct (decide _); [done|]. by injection null as <-.
Qed.

Lemma schedule_sequential l ws' chunks :
  run_schedule nullChunk ws l = Some ws' -> collect ws' = Some (Ok chunks) ->
  let reference := sequential s t (Z.to_nat mn) (Z.to_nat mx) in
  chunks `prefix_of` reference /\
  ((forall k w, ws' !! k = Some w -> at_eof w ->
      (forall k' w', (k' < k)%nat -> ws' !! k' = Some w' -> ~ at_eof w') -> ~ passed ws' k) ->
   chunks = reference) /\
  ((length ws <= 2)%nat -> chunks = reference).
Proof using All.
  intros Hl Hc reference. destruct null_facts as [E1 E2].
  destruct (start_workers_minv s mn avg mx t ltac:(lia) max_fits file_fits discriminator n ws) as (Hsz & Hpos & B & Hi & _);
    [lia|done..|].
  destruct (run_schedule_minv s t _ _ Hsz file_fits nullChunk E1 E2 null_unique null_not_zero l ws B B ws' Hi Hl)
    as (El & B' & P' & Hi' & _).
  destruct (collect_sequential s t _ _ Hsz file_fits ws' B' P' chunks Hi') as [Hpre Hall]; [lia|done|].
  split; [done|]. split; [done|]. intros H2. apply Hall.
  eapply collect_two; [exact Hsz|exact Hi'|lia|exact Hc].
Qed.

(** C8. However the workers are interleaved, the index that IndexFromFile puts together from their
    buckets is a beginning of the list of chunks a single chunker makes; it is the whole list when
    the first worker at the end of the file has not been skipped by one before it, and so with one
    or two workers always. *)
Theorem parallel_index l ws' chunks :
  run_schedule nullChunk ws l = Some ws' -> collect ws' = Some (Ok chunks) ->
  let reference := sequential s t (Z.to_nat mn) (Z.to_nat mx) in
  chunks `prefix_of` reference /\
  ((forall k w, ws' !! k = Some w -> at_eof w ->
      (forall k' w', (k' < k)%nat -> ws' !! k' = Some w' -> ~ at_eof w') -> ~ passed ws' k) ->
   chunks = reference) /\
  ((length ws <= 2)%nat -> chunks = reference).
Proof using All. apply schedule_sequential. Qed.

(** The workers finish: no interleaving of them has more steps than a bound in the size of the
    file, and when no worker can make another step all buckets are closed and the index is put
    together, or an error is reported. *)
Theorem workers_terminate l ws' :
  run_schedule nullChunk ws l = Some ws' ->
  (length l <= length ws * (8 * length s + 2))%nat /\
  ((forall i ev, ev <> Interrupt -> do_step nullChunk ws' i ev = None) -> exists r, collect ws' = Some r).
Proof using All.
  intros Hl. destruct null_facts as [E1 E2].
  destruct (start_workers_minv s mn avg mx t ltac:(lia) max_fits file_fits discriminator n ws) as (Hsz & Hpos & B & Hi & Ht);
    [lia|done..|].
  destruct (run_schedule_minv s t _ _ Hsz file_fits nullChunk E1 E2 null_unique null_not_zero l ws B B ws' Hi Hl)
    as (El & B' & P' & Hi' & Ht').
  split; [lia|]. by apply (stuck_collect s t _ _ Hsz file_fits nullChunk E1 ws' B' P').
Qed.

End properties.

(** ** Examples *)

(** A digest under which only the null chunk of 96 bytes has its ID. *)
Definition ex_Sum (b : bytes) : bytes :=
  if decide (b = replicate 96 Byte.x00) then replicate 32 Byte.xff
  else Byte.x01 :: take 31 (b ++ replicate 32 Byte.x00).

Lemma ex_Sum_length b : length (ex_Sum b) = 32%nat.
Proof.
  unfold ex_Sum. case_decide; [done|]. cbn [length]. rewrite length_take, length_app, length_replicate. lia.
Qed.

#[local] Instance ex_codec : Codec := {|
  Algorithm_ := SHA512_256;
  Sum := ex_Sum;
  Compress b := Byte.x5a :: b;
  Decompress := toy_Decompress;
  length_Sum := ex_Sum_length;
  Decompress_Compress b := eq_refl;
  Decompress_nil := eq_refl;
  Decompress_total := toy_Decompress_total
|}.

Definition ex_null : NullChunk := mkNullChunk (replicate 96 Byte.x00) (replicate 32 Byte.xff).

Lemma ex_null_unique b : Sum b = nID ex_null -> b = nData ex_null.
Proof. cbn. unfold ex_Sum. case_decide as E; [done|]. intros [=]. Qed.

(** A sparse file: zeros up to its last byte. *)
Definition ex_file : bytes := replicate 431 Byte.x00 ++ [Byte.x01].

Definition runs (i k : nat) : list (nat * event) := replicate k (i, Run).

(** Two workers. *)
Definition ex_workers (n : Z) : list pChunker :=
  match start_workers ex_file n 48 64 96 with Ok ws => ws | _ => [] end.

Lemma ex_started : start_workers ex_file 2 48 64 96 = Ok (ex_workers 2).
Proof. vm_compute. reflexivity. Qed.

Definition ex_schedule : list (nat * event) :=
  runs 1 5 ++ runs 0 12 ++ runs 1 2 ++ runs 0 7 ++ [(1%nat, Close); (0%nat, Close)].

Definition ex_final : list pChunker :=
  match run_schedule ex_null (ex_workers 2) ex_schedule with Some ws => ws | None => [] end.

Lemma ex_finished : run_schedule ex_null (ex_workers 2) ex_schedule = Some ex_final.
Proof. vm_compute. reflexivity. Qed.

Definition ex_chunks : list IndexChunk :=
  match collect ex_final with Some (Ok l) => l | _ => [] end.

Lemma ex_collect : collect ex_final = Some (Ok ex_chunks).
Proof. vm_compute. reflexivity. Qed.

Lemma ex_discriminator : precompute (discriminatorFromAvg 64) = Ok ex_test.
Proof. vm_compute. reflexivity. Qed.

Lemma ex_NewNullChunk : NewNullChunk 96 = Ok ex_null.
Proof. vm_compute. reflexivity. Qed.

Lemma parallel_index_witness :
  length ex_chunks = 5%nat /\ ex_chunks = sequential ex_file ex_test 48 96.
Proof.
  split; [vm_compute; reflexivity|].
  apply (parallel_index ex_file 2 48 64 96 ex_test ex_null (ex_workers 2)) with ex_schedule ex_final;
    [lia|unfold maxAlloc; lia|mach_lia|vm_compute; reflexivity|exact ex_discriminator|exact ex_started|
     exact ex_NewNullChunk|exact ex_null_unique|done|exact ex_finished|exact ex_collect|vm_compute; lia].
Defined.

Lemma workers_terminate_witness : (length ex_schedule <= 2 * (8 * 432 + 2))%nat.
Proof.
  apply (workers_terminate ex_file 2 48 64 96 ex_test ex_null (ex_workers 2)) with ex_final;
    [lia|unfold maxAlloc; lia|mach_lia|vm_compute; reflexivity|exact ex_discriminator|exact ex_started|
     exact ex_NewNullChunk|exact ex_null_unique|done|exact ex_finished].
Defined.

(** With three workers the index can miss the end of the file, and no error is reported: worker 1
    reaches the end of the file, worker 0 takes all of its chunks looking for null chunks and goes
    on to worker 2, and finds a chunk of worker 2 that it has too. The buckets are read up to
    worker 1, which was at the end of the file. *)
Definition ex_schedule3 : list (nat * event) :=
  runs 1 13 ++ [(1%nat, Close)] ++ runs 0 12 ++ runs 2 1 ++ runs 0 2 ++ [(0%nat, Close)] ++
  runs 2 4 ++ [(2%nat, Close)].

Example index_truncated :
  match run_schedule ex_null (ex_workers 3) ex_schedule3 with
  | Some ws => collect ws = Some (Ok (take 4 (sequential ex_file ex_test 48 96)))
  | None => False
  end /\ length (sequential ex_file ex_test 48 96) = 5%nat.
Proof. vm_compute. split; reflexivity. Qed.
