(* ===== verification/Archive.v ===== *)
(** * Archive: archive.go and untar.go

    A catar archive is a sequence of elements; the decoder puts the elements of a directory
    entry together to a node. [element] is the switch of ArchiveDecoder.Next, [next_loop] its
    loop and [make_node] what follows the loop. An element that belongs to the next node is
    kept in [last_] for the next call. UnTar hands the nodes to a FilesystemWriter, an
    interface whose CreateFile reads as much of the payload as it likes.

    The theorem of this file is that decoding ends on every input: each node takes bytes from
    the stream. What decoding an archive gives is the subject of Catar. *)

From S2P Require Import Prelude FileMode Format Path.

(** A nil map and an empty one are the same. *)
Abbreviation Xattrs := (@gmap bytes (@list_eq_dec byte byte_eq_dec) (@list_countable byte byte_eq_dec byte_countable) bytes).

(** The fields NodeDirectory, NodeFile, NodeSymlink and NodeDevice have in common. *)
Record NodeAttrs := mkAttrs {
  Name : bytes;
  UID : Z;
  GID : Z;
  Mode : Z;
  MTime : Z;
  nXattrs : Xattrs
}.

(** The data of a NodeFile is read from the decoder. *)
Inductive Node :=
| NodeDirectory (a : NodeAttrs)
| NodeFile (a : NodeAttrs) (nSize : Z)
| NodeSymlink (a : NodeAttrs) (Target : bytes)
| NodeDevice (a : NodeAttrs) (Major Minor : Z).

Record ArchiveDecoder := mkArchiveDecoder { ad : FormatDecoder; dir : bytes; last_ : option Decoded }.

Definition NewArchiveDecoder (s : bytes) : ArchiveDecoder := mkArchiveDecoder (NewFormatDecoder s) dot None.

(** ** Next *)

Record Entry := mkEntry { eUID : Z; eGID : Z; eMode : Z; eMTime : Z }.

(** The local variables of Next; of the payload, its header's size. *)
Record Found := mkFound {
  entry : option Entry;
  payload : option Z;
  symlink : option bytes;
  device : option (Z * Z);
  xattrs : Xattrs;
  name : bytes
}.

Definition nothing : Found := mkFound None None None None ∅ [].

Definition set_last (a : ArchiveDecoder) (l : option Decoded) : ArchiveDecoder := mkArchiveDecoder (ad a) (dir a) l.
Definition set_dir (a : ArchiveDecoder) (d : bytes) : ArchiveDecoder := mkArchiveDecoder (ad a) d (last_ a).

(** The case of the switch for one element: whether the loop is left, and the variables. *)
Definition element (c : Decoded) (f : Found) (a : ArchiveDecoder) : outcome (bool * Found * ArchiveDecoder) :=
  let '(mkFound en pl sy dv xa nm) := f in
  match c with
  | FormatEntry _ _ mode _ uid gid mtime =>
    match en with
    | Some _ => Err (InvalidFormat "")
    | None => Ok (false, mkFound (Some (mkEntry uid gid mode mtime)) pl sy dv xa nm, a)
    end
  | FormatUser _ _ | FormatGroup _ _ | FormatSELinux _ _ | FormatACLUser _ _ _ _ | FormatACLGroup _ _ _ _
  | FormatACLGroupObj _ _ | FormatACLDefault _ _ _ _ _ | FormatFCaps _ _ => Ok (false, f, a)
  | FormatPayload h _ =>
    match en with
    | None => Err (InvalidFormat "")
    | Some _ => Ok (true, mkFound en (Some (Size h)) sy dv xa nm, a)
    end
  | FormatXAttr _ nv =>
    match en, list_find (fun b => b = Byte.x00) nv with
    | Some _, Some (idx, _) =>
      Ok (false, mkFound en pl sy dv (<[take idx nv := drop (S idx) nv]> xa) nm, a)
    | _, _ => Err (InvalidFormat "")
    end
  | FormatSymlink _ target =>
    match en with
    | None => Err (InvalidFormat "")
    | Some _ => Ok (false, mkFound en pl (Some target) dv xa nm, a)
    end
  | FormatDevice _ major minor =>
    match en with
    | None => Err (InvalidFormat "")
    | Some _ => Ok (false, mkFound en pl sy (Some (major, minor)) xa nm, a)
    end
  | FormatFilename _ n =>
    match en with
    | Some _ => Ok (true, f, set_last a (Some c))
    | None => Ok (false, mkFound en pl sy dv xa n, a)
    end
  | FormatGoodbye _ _ =>
    match en with
    | Some _ => Ok (true, f, set_last a (Some c))
    | None => Ok (false, f, set_dir a (Dir (dir a)))
    end
  | FormatIndex _ _ _ _ _ | FormatTable _ _ => Err (Errorf "unsupported element in archive")
  end.

Definition attrs (n : bytes) (en : Entry) (xa : Xattrs) : NodeAttrs :=
  mkAttrs n (eUID en) (eGID en) (eMode en) (eMTime en) xa.

(** The node of what the loop found; without an entry its fields panic. *)
Definition make_node (f : Found) (a : ArchiveDecoder) : outcome (option Node * ArchiveDecoder) :=
  let n := Join (dir a) (name f) in
  match entry f with
  | None => Panic
  | Some en =>
    match payload f, device f, symlink f with
    | None, None, None => Ok (Some (NodeDirectory (attrs n en (xattrs f))), set_dir a n)
    | Some size, _, _ => Ok (Some (NodeFile (attrs n en (xattrs f)) (u64 (size - 16))), a)
    | None, Some (major, minor), _ => Ok (Some (NodeDevice (attrs n en (xattrs f)) major minor), a)
    | None, None, Some target => Ok (Some (NodeSymlink (attrs n en (xattrs f)) target), a)
    end
  end.

Section decoding.

(** The error at the end of the stream. *)
Context (e_end : error).

(** The element left over from the last call, or the next one of the stream. *)
Definition next_element (a : ArchiveDecoder) : outcome (option Decoded) * ArchiveDecoder :=
  match last_ a with
  | Some c => (Ok (Some c), set_last a None)
  | None => let '(c, d) := Format.Next e_end (ad a) in (c, mkArchiveDecoder d (dir a) None)
  end.

Fixpoint next_loop (fuel : nat) (f : Found) (a : ArchiveDecoder) : outcome (option Found) * ArchiveDecoder :=
  match fuel with
  | O => (NoFuel, a)
  | S fuel =>
    match next_element a with
    | (Ok (Some c), a) =>
      match element c f a with
      | Ok (true, f, a) => (Ok (Some f), a)
      | Ok (false, f, a) => next_loop fuel f a
      | Err e => (Err e, a)
      | Panic => (Panic, a)
      | NoFuel => (NoFuel, a)
      end
    | (Ok None, a) => (Ok None, a)
    | (Err e, a) => (Err e, a)
    | (Panic, a) => (Panic, a)
    | (NoFuel, a) => (NoFuel, a)
    end
  end.

(** Every turn but the one for the left over element takes bytes from the stream. *)
Definition bound (a : ArchiveDecoder) : nat :=
  S (length (d_stream (ad a)) + match last_ a with Some _ => 1 | None => 0 end)%nat.

Definition finish_node (r : outcome (option Found) * ArchiveDecoder) : outcome (option Node) * ArchiveDecoder :=
  match r with
  | (Ok None, a) => (Ok None, a)
  | (Ok (Some f), a) =>
    match make_node f a with
    | Ok (n, a) => (Ok n, a)
    | Err e => (Err e, a)
    | Panic => (Panic, a)
    | NoFuel => (NoFuel, a)
    end
  | (Err e, a) => (Err e, a)
  | (Panic, a) => (Panic, a)
  | (NoFuel, a) => (NoFuel, a)
  end.

(** A node, or nil at the end. *)
Definition Next (a : ArchiveDecoder) : outcome (option Node) * ArchiveDecoder :=
  finish_node (next_loop (bound a) nothing a).

(** What the reader of a NodeFile gives before its error or its end. *)
Definition payload_source (d : FormatDecoder) : Source :=
  let b := fst (ReadPayload d (length (d_stream d))) in
  (b, match d_advance d with
      | Some limit =>
        if decide (limit <= Z.of_nat (length b) \/ e_end = ErrEOF) then None else Some e_end
      | None => None
      end).

(** ** UnTar *)

(** Where the nodes go. CreateFile is given what it can read, and says how much it read. *)
Class FilesystemWriter (W : Type) := {
  CreateDir : NodeAttrs -> W -> option error * W;
  CreateFile : NodeAttrs -> Z -> Source -> W -> nat * option error * W;
  CreateSymlink : NodeAttrs -> bytes -> W -> option error * W;
  CreateDevice : NodeAttrs -> Z -> Z -> W -> option error * W
}.

Context `{FilesystemWriter W}.

(** One node, and the decoder after it. *)
Definition create (n : Node) (a : ArchiveDecoder) (w : W) : option error * ArchiveDecoder * W :=
  match n with
  | NodeDirectory at_ => let '(e, w) := CreateDir at_ w in (e, a, w)
  | NodeFile at_ size =>
    let '(k, e, w) := CreateFile at_ size (payload_source (ad a)) w in
    (e, mkArchiveDecoder (snd (ReadPayload (ad a) k)) (dir a) (last_ a), w)
  | NodeSymlink at_ target => let '(e, w) := CreateSymlink at_ target w in (e, a, w)
  | NodeDevice at_ major minor => let '(e, w) := CreateDevice at_ major minor w in (e, a, w)
  end.

(** [stop k]: the context is done when it is asked for the k-th time. *)
Context (stop : nat -> bool).

Fixpoint untar_loop (fuel k : nat) (a : ArchiveDecoder) (w : W) : outcome unit * W :=
  match fuel with
  | O => (NoFuel, w)
  | S fuel =>
    if stop k then (Err Interrupted, w)
    else
      match Next a with
      | (Ok None, _) => (Ok tt, w)
      | (Ok (Some n), a) =>
        match create n a w with
        | (Some e, _, w) => (Err e, w)
        | (None, a, w) => untar_loop fuel (S k) a w
        end
      | (Err e, _) => (Err e, w)
      | (Panic, _) => (Panic, w)
      | (NoFuel, _) => (NoFuel, w)
      end
  end.

(** Every node takes at least one byte from the stream. *)
Definition UnTar (s : bytes) (w : W) : outcome unit * W :=
  untar_loop (S (length s)) 0 (NewArchiveDecoder s) w.

End decoding.

(** ** Decoding ends *)

Section ends.

Context (e_end : error).

Abbreviation stream a := (d_stream (ad a)).

Lemma element_same c f a b f' a' :
  element c f a = Ok (b, f', a') ->
  ad a' = ad a /\ (b = false -> last_ a' = last_ a) /\ (entry f = None -> b = false).
Proof.
  destruct f as [en pl sy dv xa nm].
  destruct c; cbn [element]; destruct en; try destruct (list_find _ _) as [[]|]; intros [= <- <- <-];
    by cbn.
Qed.

Lemma element_ends c f a : element c f a <> NoFuel.
Proof.
  destruct f as [en pl sy dv xa nm].
  destruct c; cbn [element]; destruct en; try destruct (list_find _ _) as [[]|]; done.
Qed.

Lemma next_element_takes a :
  fst (next_element e_end a) <> NoFuel /\
  (length (stream (snd (next_element e_end a))) <= length (stream a))%nat /\
  last_ (snd (next_element e_end a)) = None /\
  (last_ a = None -> forall c, fst (next_element e_end a) = Ok (Some c) ->
    (length (stream (snd (next_element e_end a))) < length (stream a))%nat).
Proof.
  unfold next_element. destruct (last_ a) as [c|] eqn:El; [by cbn|].
  destruct (Next_takes e_end (ad a)) as (H1 & H2 & H3).
  destruct (Format.Next e_end (ad a)) as [r d]. cbn in *. auto.
Qed.

Lemma next_loop_ends fuel f a :
  (bound a <= fuel)%nat -> fst (next_loop e_end fuel f a) <> NoFuel.
Proof.
  unfold bound. revert f a. induction fuel as [|fuel IH]; intros f a Hf; [lia|]. cbn [next_loop].
  destruct (next_element_takes a) as (H1 & H2 & H3 & H4).
  destruct (next_element e_end a) as [[[c|]|e| |] a1]; cbn [fst snd] in *; try done.
  pose proof (element_ends c f a1). destruct (element c f a1) as [[[b f'] a']|e| |] eqn:Ee; try done.
  apply element_same in Ee as (E1 & E2 & _). destruct b; [done|]. apply IH.
  rewrite E1, (E2 eq_refl), H3. destruct (last_ a) as [l|]; [lia|]. specialize (H4 eq_refl c eq_refl). lia.
Qed.

Lemma next_loop_stream fuel f a :
  (length (stream (snd (next_loop e_end fuel f a))) <= length (stream a))%nat.
Proof.
  revert f a. induction fuel as [|fuel IH]; intros f a; [done|]. cbn [next_loop].
  destruct (next_element_takes a) as (_ & H2 & _).
  destruct (next_element e_end a) as [[[c|]|e| |] a1]; cbn [fst snd] in *; try done.
  destruct (element c f a1) as [[[b f'] a']|e| |] eqn:Ee; try done.
  apply element_same in Ee as (E1 & _). rewrite <- E1 in H2. destruct b; [done|].
  specialize (IH f' a'). lia.
Qed.

(** What the loop finds took bytes from the stream: the left over element is no entry. *)
Lemma next_loop_takes fuel f a f' :
  entry f = None \/ last_ a = None -> fst (next_loop e_end fuel f a) = Ok (Some f') ->
  (length (stream (snd (next_loop e_end fuel f a))) < length (stream a))%nat.
Proof.
  revert f a. induction fuel as [|fuel IH]; intros f a Hs; [done|]. cbn [next_loop].
  destruct (next_element_takes a) as (_ & H2 & H3 & H4).
  destruct (next_element e_end a) as [[[c|]|e| |] a1] eqn:En; cbn [fst snd] in *; try done.
  destruct (element c f a1) as [[[b f1] a2]|e| |] eqn:Ee; try done.
  apply element_same in Ee as (E1 & E2 & E3). destruct (last_ a) as [l|] eqn:El.
  - destruct Hs as [Hs|]; [|done]. rewrite (E3 Hs). intros Hr.
    assert (last_ a2 = None) as Hl by (by rewrite E2, H3 by auto).
    specialize (IH f1 a2 (or_intror Hl) Hr). rewrite E1 in IH. lia.
  - specialize (H4 eq_refl c eq_refl). rewrite <- E1 in H4. destruct b; [by cbn|].
    intros _. pose proof (next_loop_stream fuel f1 a2). lia.
Qed.

Lemma make_node_same f a n a' : make_node f a = Ok (n, a') -> ad a' = ad a.
Proof.
  unfold make_node. destruct (entry f), (payload f), (device f) as [[]|], (symlink f); by intros [= <- <-].
Qed.

Lemma make_node_ends f a : make_node f a <> NoFuel.
Proof. unfold make_node. by destruct (entry f), (payload f), (device f) as [[]|], (symlink f). Qed.

(** The decoder returns on every stream, and a node it returns took bytes from it. *)
Lemma Next_node_takes a :
  fst (Next e_end a) <> NoFuel /\
  forall n, fst (Next e_end a) = Ok (Some n) ->
    (length (stream (snd (Next e_end a))) < length (stream a))%nat.
Proof.
  unfold Next. pose proof (next_loop_ends (bound a) nothing a ltac:(lia)) as H1.
  pose proof (next_loop_takes (bound a) nothing a) as H2.
  destruct (next_loop e_end (bound a) nothing a) as [[[f|]|e| |] a1]; cbn [finish_node fst snd] in *; try done.
  pose proof (make_node_ends f a1). specialize (H2 f (or_introl eq_refl) eq_refl).
  destruct (make_node f a1) as [[n a2]|e| |] eqn:Em; try done.
  apply make_node_same in Em. cbn. rewrite Em. done.
Qed.

Context `{FilesystemWriter W} (stop : nat -> bool).

Lemma create_stream n a w :
  (length (stream (snd (fst (create e_end n a w)))) <= length (stream a))%nat.
Proof.
  destruct n; cbn [create]; try (by destruct (_ : option error * W)).
  destruct (CreateFile _ _ _ _) as [[k e] w']. cbn. apply length_ReadPayload.
Qed.

Lemma untar_loop_ends fuel k a w :
  (length (stream a) < fuel)%nat -> fst (untar_loop e_end stop fuel k a w) <> NoFuel.
Proof.
  revert k a w. induction fuel as [|fuel IH]; intros k a w Hf; [lia|]. cbn [untar_loop].
  destruct (stop k); [done|]. destruct (Next_node_takes a) as [H1 H2].
  destruct (Next e_end a) as [[[n|]|e| |] a1]; cbn [fst snd] in *; try done.
  specialize (H2 n eq_refl). pose proof (create_stream n a1 w).
  destruct (create e_end n a1 w) as [[[e|] a2] w']; cbn [fst snd] in *; [done|]. apply IH. lia.
Qed.

End ends.

(** C28. Extracting an archive ends, whatever the archive holds, however the stream ends, whatever the
    writer does and reads of the files' contents, and whenever the operation is interrupted: UnTar
    returns (or panics) after at most as many nodes as the archive has bytes, and the loop of Next that
    puts one node together ends as well. *)
Theorem UnTar_terminates {W} {HW : FilesystemWriter W} e_end stop s (w : W) :
  fst (UnTar e_end stop s w) <> NoFuel /\
  forall a, fst (Next e_end a) <> NoFuel.
Proof.
  split; [apply untar_loop_ends; cbn; lia|]. intros a. apply Next_node_takes.
Qed.

(** ** The decoder without fuel *)

Section runs.

Context (e_end : error) `{FilesystemWriter W}.

Lemma next_loop_mono fuel fuel' f a :
  fst (next_loop e_end fuel f a) <> NoFuel -> (fuel <= fuel')%nat ->
  next_loop e_end fuel' f a = next_loop e_end fuel f a.
Proof.
  revert fuel' f a. induction fuel as [|fuel IH]; intros fuel' f a Hn Hf; [done|].
  destruct fuel' as [|fuel']; [lia|]. cbn [next_loop] in *.
  destruct (next_element e_end a) as [[[c|]|e| |] a1]; try done.
  destruct (element c f a1) as [[[[] f'] a']|e| |]; try done. apply IH; [done|lia].
Qed.

Lemma next_loop_fuel fuel f a :
  (bound a <= fuel)%nat -> next_loop e_end fuel f a = next_loop e_end (bound a) f a.
Proof. intros Hf. apply next_loop_mono; [by apply next_loop_ends|done]. Qed.

Context (stop : nat -> bool) (never_stops : forall k, stop k = false).

Lemma untar_loop_mono fuel fuel' k k' a (w : W) :
  fst (untar_loop e_end stop fuel k a w) <> NoFuel -> (fuel <= fuel')%nat ->
  untar_loop e_end stop fuel' k' a w = untar_loop e_end stop fuel k a w.
Proof using never_stops.
  revert fuel' k k' a w. induction fuel as [|fuel IH]; intros fuel' k k' a w Hn Hf; [done|].
  destruct fuel' as [|fuel']; [lia|]. cbn [untar_loop] in *. rewrite !never_stops in *.
  destruct (Next e_end a) as [[[n|]|e| |] a1]; try done.
  destruct (create e_end n a1 w) as [[[e|] a2] w']; [done|]. apply IH; [done|lia].
Qed.

(** The rest of an extraction. *)
Definition run (a : ArchiveDecoder) (w : W) : outcome unit * W :=
  untar_loop e_end stop (S (length (d_stream (ad a)))) 0 a w.

Lemma run_fuel fuel k a (w : W) :
  (length (d_stream (ad a)) < fuel)%nat -> untar_loop e_end stop fuel k a w = run a w.
Proof using never_stops. intros Hf. apply untar_loop_mono; [by apply untar_loop_ends; lia|lia]. Qed.

(** What happens with the result of the loop of Next. *)
Definition finish_run (r : outcome (option Found) * ArchiveDecoder) (w : W) : outcome unit * W :=
  match finish_node r with
  | (Ok None, _) => (Ok tt, w)
  | (Ok (Some n), a) =>
    match create e_end n a w with
    | (Some e, _, w) => (Err e, w)
    | (None, a, w) => run a w
    end
  | (Err e, _) => (Err e, w)
  | (Panic, _) => (Panic, w)
  | (NoFuel, _) => (NoFuel, w)
  end.

(** The rest of an extraction from inside the loop of Next. *)
Definition resume (f : Found) (a : ArchiveDecoder) (w : W) : outcome unit * W :=
  finish_run (next_loop e_end (bound a) f a) w.

Lemma run_resume a w : run a w = resume nothing a w.
Proof using never_stops.
  unfold run at 1. cbn [untar_loop]. rewrite never_stops. unfold resume, finish_run.
  destruct (Next_node_takes e_end a) as [_ Ht]. unfold Next in *.
  destruct (finish_node (next_loop e_end (bound a) nothing a)) as [[[n|]|e| |] a1]; try done.
  specialize (Ht n eq_refl). cbn [snd] in Ht. pose proof (create_stream e_end n a1 w) as Hc.
  destruct (create e_end n a1 w) as [[[e|] a2] w']; [done|]. apply run_fuel. cbn in Hc. lia.
Qed.

Lemma resume_cont f a w c a1 f' a2 :
  next_element e_end a = (Ok (Some c), a1) -> element c f a1 = Ok (false, f', a2) ->
  resume f a w = resume f' a2 w.
Proof.
  intros Hn He. unfold resume. f_equal. unfold bound at 1. cbn [next_loop]. rewrite Hn, He.
  apply next_loop_fuel. destruct (next_element_takes e_end a) as (_ & H2 & H3 & H4).
  rewrite Hn in *. cbn [fst snd] in *. apply element_same in He as (E1 & E2 & _).
  unfold bound. rewrite E1, (E2 eq_refl), H3.
  destruct (last_ a) as [l|]; [lia|]. specialize (H4 eq_refl c eq_refl). lia.
Qed.

Lemma resume_break f a w c a1 f' a2 :
  next_element e_end a = (Ok (Some c), a1) -> element c f a1 = Ok (true, f', a2) ->
  resume f a w = finish_run (Ok (Some f'), a2) w.
Proof. intros Hn He. unfold resume, bound. cbn [next_loop]. by rewrite Hn, He. Qed.

Lemma resume_end f a w a1 : next_element e_end a = (Ok None, a1) -> resume f a w = (Ok tt, w).
Proof. intros Hn. unfold resume, bound. cbn [next_loop]. by rewrite Hn. Qed.

End runs.
