(* ===== verification/Tar.v ===== *)
(** * Tar: tar.go, and File of filesystem.go

    Tar reads the files of a directory tree in the order of a walk and writes the archive:
    for every file its entry and extended attributes, and for a directory its items and the
    search tree over them. The reader of the file system is the list of the files it returns
    and the error after them. [tar] is the recursion, with the loop over the items of a
    directory in [tar_items]; they share the fuel.

    The theorems: Tar never panics and accounts for every byte it writes, on every branch. That
    UnTar of what Tar wrote creates the nodes of a tree is in Catar. *)

From S2P Require Import Prelude FileMode Format Goodbye Path Archive.

(** ** Feature flags (const.go) *)

Definition CaFormatWith32BitUIDs : Z := 0x2.
Definition CaFormatWithNSecTime : Z := 0x20.
Definition CaFormatWithPermissions : Z := 0x100.
Definition CaFormatWithSymlinks : Z := 0x200.
Definition CaFormatWithDeviceNodes : Z := 0x400.
Definition CaFormatWithFIFOs : Z := 0x800.
Definition CaFormatWithSockets : Z := 0x1000.
Definition CaFormatWithXattrs : Z := 0x10000000.
Definition CaFormatExcludeFile : Z := 0x1000000000000000.

Definition TarFeatureFlags : Z :=
  lors [CaFormatWith32BitUIDs; CaFormatWithNSecTime; CaFormatWithPermissions; CaFormatWithSymlinks;
        CaFormatWithDeviceNodes; CaFormatWithFIFOs; CaFormatWithSockets; CaFormatWithXattrs;
        CaFormatSHA512256; CaFormatExcludeNoDump; CaFormatExcludeFile].

(** ** Files (filesystem.go) *)

Record File := mkFile {
  fName : bytes;
  fPath : bytes;
  fMode : Z;
  fSize : Z;
  LinkTarget : bytes;
  ModTime : Z;
  Uid : Z;
  Gid : Z;
  DevMajor : Z;
  DevMinor : Z;
  fXattrs : Xattrs;
  fData : Source
}.

(** Bytewise order, that of Go's strings. *)
Fixpoint bytes_leb (a b : bytes) : bool :=
  match a, b with
  | [], _ => true
  | _, [] => false
  | x :: a, y :: b =>
    if decide (byte.unsigned x < byte.unsigned y) then true
    else if decide (x = y) then bytes_leb a b else false
  end.

Definition bytes_le (a b : bytes) : Prop := bytes_leb a b = true.

#[global] Instance bytes_le_dec : RelDecision bytes_le.
Proof. unfold bytes_le. intros a b. apply _. Defined.

(** ** The state of tar: the files to come, the one given back, the output, and how often the
    context was asked *)

Record TarState := mkTar { files : list File; buf : option File; out : Writer; tick : nat }.

(** Bytes written, and an error. *)
Definition tm : Type := TarState -> outcome (Z * option error) * TarState.

(** [nn, err = m(); n += nn; if err != nil { return n, err }] *)
Definition step (n : Z) (m : tm) (k : Z -> tm) : tm := fun t =>
  match m t with
  | (Ok (nn, None), t) => k (n + nn) t
  | (Ok (nn, Some e), t) => (Ok (n + nn, Some e), t)
  | (Err e, t) => (Err e, t)
  | (Panic, t) => (Panic, t)
  | (NoFuel, t) => (NoFuel, t)
  end.

Definition finish (n : Z) (e : option error) : tm := fun t => (Ok (n, e), t).

Definition enc (v : FormatElement Source) : tm := fun t =>
  let '(n, e, w) := Encode v (out t) in (Ok (n, e), mkTar (files t) (buf t) w (tick t)).

(** A loop of elements. *)
Fixpoint enc_all (n : Z) (vs : list (FormatElement Source)) (k : Z -> tm) : tm :=
  match vs with
  | [] => k n
  | v :: vs => step n (enc v) (fun n => enc_all n vs k)
  end.

(** The elements tar makes of a file. *)
Definition entry_of (f : File) : FormatElement Source :=
  FormatEntry (mkHeader 64 CaFormatEntry) TarFeatureFlags (fMode f) 0 (Uid f) (Gid f) (ModTime f).

(** Extended attributes, sorted by key. *)
Definition xattr_keys (f : File) : list bytes := merge_sort bytes_le (map fst (map_to_list (fXattrs f))).

Definition xattr_of (f : File) (key : bytes) : FormatElement Source :=
  let value := default [] (fXattrs f !! key) in
  FormatXAttr (mkHeader (u64 (Z.of_nat (length key) + 1 + Z.of_nat (length value) + 1 + 16)) CaFormatXAttr)
    (key ++ [Byte.x00] ++ value).

Definition filename_of (name : bytes) : FormatElement Source :=
  FormatFilename (mkHeader (u64 (16 + Z.of_nat (length name) + 1)) CaFormatFilename) name.

Definition payload_elt (f : File) : FormatElement Source :=
  FormatPayload (mkHeader (u64 (16 + fSize f)) CaFormatPayload) (fData f).

Definition symlink_of (f : File) : FormatElement Source :=
  FormatSymlink (mkHeader (u64 (16 + Z.of_nat (length (LinkTarget f)) + 1)) CaFormatSymlink) (LinkTarget f).

Definition device_of (f : File) : FormatElement Source :=
  FormatDevice (mkHeader 32 CaFormatDevice) (DevMajor f) (DevMinor f).

(** The items of the goodbye element: offsets from its start, in search tree order, and the tail
    marker. *)
Definition goodbye_items_of (n : Z) (items : list FormatGoodbyeItem) : outcome (list FormatGoodbyeItem) :=
  items ← makeGoodbyeBST (map (fun i => mkGoodbyeItem (u64 (u64 n - gOffset i)) (gSize i) (gHash i)) items);
  Ok (items ++ [mkGoodbyeItem (u64 n) (u64 (16 + Z.of_nat (length items) * 24 + 24)) CaFormatGoodbyeTailMarker]).

Definition goodbye_of (items : list FormatGoodbyeItem) : FormatElement Source :=
  FormatGoodbye (mkHeader (u64 (16 + Z.of_nat (length items) * 24)) CaFormatGoodbye) items.

Definition encode_goodbye (n : Z) (items : list FormatGoodbyeItem) : tm := fun t =>
  match goodbye_items_of n items with
  | Ok items => step n (enc (goodbye_of items)) (fun n => finish n None) t
  | Err e => (Err e, t)
  | Panic => (Panic, t)
  | NoFuel => (NoFuel, t)
  end.

Definition supported (f : File) : bool :=
  IsDir (fMode f) || IsRegular (fMode f) || IsSymlink (fMode f) || IsDevice (fMode f).

Section tar.

(** sip.go: SipHash of a name. [stop k]: the context is done when it is asked for the k-th
    time. [fs_end]: the error of the file system reader after its files, io.EOF if all is well. *)
Context (SipHash : bytes -> Z) (stop : nat -> bool) (fs_end : error).

(** fsBufReader *)
Definition fs_Next (t : TarState) : (File + error) * TarState :=
  match buf t with
  | Some f => (inl f, mkTar (files t) None (out t) (tick t))
  | None =>
    match files t with
    | f :: fs => (inl f, mkTar fs None (out t) (tick t))
    | [] => (inr fs_end, t)
    end
  end.

Definition Buffer (f : File) (t : TarState) : outcome TarState :=
  match buf t with
  | Some _ => Panic
  | None => Ok (mkTar (files t) (Some f) (out t) (tick t))
  end.

Fixpoint tar (fuel : nat) (f : File) {struct fuel} : tm := fun t =>
  match fuel with
  | O => (NoFuel, t)
  | S fuel =>
    let t' := mkTar (files t) (buf t) (out t) (S (tick t)) in
    if stop (tick t) then (Ok (0, Some Interrupted), t')
    else if negb (supported f) then (Ok (0, None), t')
    else
      step 0 (enc (entry_of f)) (fun n =>
      enc_all n (map (xattr_of f) (xattr_keys f)) (fun n =>
        if IsDir (fMode f) then tar_items fuel (fPath f) n []
        else if IsRegular (fMode f) then step n (enc (payload_elt f)) (fun n => finish n None)
        else if IsSymlink (fMode f) then step n (enc (symlink_of f)) (fun n => finish n None)
        else if IsDevice (fMode f) then step n (enc (device_of f)) (fun n => finish n None)
        else finish n (Some (Errorf "unable to determine node type")))) t'
  end
with tar_items (fuel : nat) (dir : bytes) (n : Z) (items : list FormatGoodbyeItem) {struct fuel} : tm := fun t =>
  match fuel with
  | O => (NoFuel, t)
  | S fuel =>
    match fs_Next t with
    | (inr e, t) => if decide (e = ErrEOF) then encode_goodbye n items t else (Ok (n, Some e), t)
    | (inl f, t) =>
      if decide (Dir (fPath f) <> dir) then
        match Buffer f t with
        | Ok t => encode_goodbye n items t
        | _ => (Panic, t)
        end
      else
        let start := n in
        let name := Base (fName f) in
        step n (enc (filename_of name)) (fun n =>
        step n (tar fuel f) (fun n =>
        tar_items fuel dir n (items ++ [mkGoodbyeItem (u64 start) (u64 (n - start)) (SipHash name)]))) t
    end
  end.

(** A call takes a file, or is the loop for the next: twice the number of files is fuel enough. *)
Definition Tar (w : Writer) (fs : list File) : outcome (Z * option error) * TarState :=
  let t := mkTar fs None w 0 in
  if stop 0 then (Ok (0, Some Interrupted), mkTar fs None w 1)
  else
    match fs_Next (mkTar fs None w 1) with
    | (inr e, t) => (Ok (0, Some e), t)
    | (inl f, t) => tar (S (S (2 * length fs))) f t
    end.

End tar.

(** ** Tar accounts for what it writes *)

(** How many files are still to come. *)
Definition rem (t : TarState) : nat := (length (files t) + match buf t with Some _ => 1 | None => 0 end)%nat.

Definition wrote (t t' : TarState) (n : Z) : Prop :=
  exists b, w_out (out t') = w_out (out t) ++ b /\ n = Z.of_nat (length b).

(** [m], which starts with a count of [n] bytes, ends with the right count on at most [r] files. *)
Definition accounts (r : nat) (n : Z) (m : tm) : Prop := forall t, (rem t <= r)%nat ->
  exists n' e t', m t = (Ok (n', e), t') /\ wrote t t' (n' - n) /\ (rem t' <= rem t)%nat.

Lemma wrote_refl t t' : out t' = out t -> wrote t t' 0.
Proof. intros E. exists []. by rewrite E, app_nil_r. Qed.

Lemma wrote_trans t t1 t2 n m : wrote t t1 n -> wrote t1 t2 m -> wrote t t2 (n + m).
Proof.
  intros (b & H1 & ->) (b' & H2 & ->). exists (b ++ b'). rewrite H2, H1, <- app_assoc.
  split; [done|]. rewrite length_app. lia.
Qed.

Lemma accounts_finish r n e : accounts r n (finish n e).
Proof.
  intros t _. exists n, e, t. split; [done|]. split; [|done]. rewrite Z.sub_diag. by apply wrote_refl.
Qed.

Lemma accounts_step r n m k :
  accounts r 0 m -> (forall n, accounts r n (k n)) -> accounts r n (step n m k).
Proof.
  intros Hm Hk t Ht. destruct (Hm t Ht) as (nn & e & t1 & E & Hw & Hr). rewrite Z.sub_0_r in Hw.
  unfold step. rewrite E. destruct e as [e|].
  - exists (n + nn), (Some e), t1. split; [done|]. split; [|done]. by replace (n + nn - n) with nn by lia.
  - destruct (Hk (n + nn) t1) as (n' & e & t2 & E2 & Hw2 & Hr2); [lia|]. exists n', e, t2.
    split; [done|]. split; [|lia]. replace (n' - n) with (nn + (n' - (n + nn))) by lia.
    by apply wrote_trans with t1.
Qed.

Lemma accounts_enc r v : accounts r 0 (enc v).
Proof.
  intros t _. unfold enc. rewrite Encode_Copy. unfold Copy. generalize (encoding v) as b. intros b.
  destruct (w_room (out t)) as [room|]; [case_decide|]; do 3 eexists; (split; [reflexivity|]);
    rewrite Z.sub_0_r; (split; [|done]); eexists; (split; [reflexivity|]); try done.
  rewrite length_take. lia.
Qed.

Lemma accounts_enc_all r n vs k : (forall n, accounts r n (k n)) -> accounts r n (enc_all n vs k).
Proof.
  intros Hk. revert n. induction vs as [|v vs IH]; intros n; [apply Hk|].
  apply accounts_step; [apply accounts_enc|]. apply IH.
Qed.

Lemma goodbye_items_of_ok n items : exists out, goodbye_items_of n items = Ok out.
Proof.
  unfold goodbye_items_of. set (l := map _ items).
  destruct (makeGoodbyeBST_spec l) as (o & -> & _). by eexists.
Qed.

Lemma accounts_goodbye r n items : accounts r n (encode_goodbye n items).
Proof.
  intros t Ht. unfold encode_goodbye. destruct (goodbye_items_of_ok n items) as [o ->].
  apply (accounts_step r); [apply accounts_enc| |done]. intros. apply accounts_finish.
Qed.

Section accounting.

Context (SipHash : bytes -> Z) (stop : nat -> bool) (fs_end : error).

Lemma tar_accounts fuel :
  (forall r f, (2 * r + 1 < fuel)%nat -> accounts r 0 (tar SipHash stop fs_end fuel f)) /\
  (forall r d n items, (2 * r < fuel)%nat -> accounts r n (tar_items SipHash stop fs_end fuel d n items)).
Proof.
  induction fuel as [|fuel [IHt IHi]]; [split; intros; lia|]. split.
  - intros r f Hf t Ht. cbn [tar]. set (t' := mkTar (files t) (buf t) (out t) (S (tick t))).
    assert (wrote t t' 0) as Hw by (by apply wrote_refl).
    destruct (stop (tick t)); [by exists 0, (Some Interrupted), t'|].
    destruct (negb (supported f)); [by exists 0, None, t'|].
    cut (accounts r 0 (fun t => step 0 (enc (entry_of f)) (fun n =>
      enc_all n (map (xattr_of f) (xattr_keys f)) (fun n =>
        if IsDir (fMode f) then tar_items SipHash stop fs_end fuel (fPath f) n []
        else if IsRegular (fMode f) then step n (enc (payload_elt f)) (fun n => finish n None)
        else if IsSymlink (fMode f) then step n (enc (symlink_of f)) (fun n => finish n None)
        else if IsDevice (fMode f) then step n (enc (device_of f)) (fun n => finish n None)
        else finish n (Some (Errorf "unable to determine node type")))) t)).
    { intros H. destruct (H t' Ht) as (n' & e & t2 & E & Hw2 & Hr). exists n', e, t2.
      split; [exact E|]. split; [|exact Hr]. by apply (wrote_trans t t' t2 0 (n' - 0)). }
    apply accounts_step; [apply accounts_enc|]. intros n. apply accounts_enc_all. clear n. intros n.
    destruct (IsDir _); [apply IHi; lia|].
    repeat (case_match; [apply accounts_step; [apply accounts_enc|intros; apply accounts_finish]|]).
    apply accounts_finish.
  - intros r d n items Hf t Ht. cbn [tar_items].
    assert (match fs_Next fs_end t with
            | (inl f, t') => out t' = out t /\ rem t = S (rem t') /\ buf t' = None
            | (inr e, t') => t' = t
            end) as HN.
    { unfold fs_Next, rem. destruct t as [[|f fs] [b|] o k]; cbn; lia || auto with lia. }
    destruct (fs_Next fs_end t) as [[f|e] t']; [|subst t'].
    + destruct HN as (Ho & Hr & Hb). assert (wrote t t' 0) as Hw by (by apply wrote_refl).
      assert (forall m, accounts (rem t') n m ->
        exists n' e t2, m t' = (Ok (n', e), t2) /\ wrote t t2 (n' - n) /\ (rem t2 <= rem t)%nat) as Hcont.
      { intros m Hm. destruct (Hm t') as (n' & e & t2 & E & Hw2 & Hr2); [done|]. exists n', e, t2.
        split; [exact E|]. split; [|lia]. by apply (wrote_trans t t' t2 0 (n' - n)). }
      case_decide.
      * unfold Buffer. rewrite Hb. set (tb := mkTar _ _ _ _).
        destruct (accounts_goodbye r n items tb) as (n' & e & t2 & E & Hw2 & Hr2).
        { unfold rem in *. subst tb. cbn in *. rewrite Hb in Hr. lia. }
        exists n', e, t2. split; [exact E|]. unfold rem in *. subst tb. cbn in *. rewrite Hb in Hr.
        split; [|lia]. apply (wrote_trans t t' t2 0 (n' - n)); [done|]. done.
      * apply Hcont. apply accounts_step; [apply accounts_enc|]. intros n1.
        apply accounts_step; [apply IHt; lia|]. intros n2. apply IHi. lia.
    + case_decide; [by apply (accounts_goodbye r)|]. by apply (accounts_finish r n).
Qed.

(** C29. Tar always returns, whatever files the reader hands out and in whatever order, whether the
    writer fails, the reader fails or the operation is interrupted: it never panics (a file is never
    given back twice, and the search tree of the items is always built), and the bytes it reports are
    exactly the bytes it appended to the output. *)
Theorem Tar_accounts w fs :
  exists n e t, Tar SipHash stop fs_end w fs = (Ok (n, e), t) /\
    exists b, w_out (out t) = w_out w ++ b /\ n = Z.of_nat (length b).
Proof.
  unfold Tar. destruct (stop 0).
  { do 3 eexists. split; [reflexivity|]. exists []. by rewrite app_nil_r. }
  destruct fs as [|f fs]; cbn [fs_Next buf files].
  { do 3 eexists. split; [reflexivity|]. exists []. by rewrite app_nil_r. }
  set (t := mkTar fs None w 1).
  destruct (proj1 (tar_accounts (S (S (2 * length (f :: fs))))) (length fs) f ltac:(cbn; lia) t)
    as (n & e & t' & E & (b & Hb & Hn) & _).
  { unfold rem. cbn. lia. }
  exists n, e, t'. split; [exact E|]. exists b. split; [exact Hb|lia].
Qed.

End accounting.
