(* ===== verification/Catar.v ===== *)
(** * Catar: archives of directory trees

    A directory tree is a file with the trees of its items. [walk] lists its files in the order
    in which a file system reader hands them out; [nodes] lists the nodes an archive of the tree
    holds, with their names in the archive. The theorem is that extracting what Tar wrote for
    the files of a tree creates exactly the nodes of the tree: UnTar inverts Tar. Files of other
    types, like sockets, are left out by Tar, which leaves a file name without an entry in the
    archive; the decoder skips it. *)

From S2P Require Import Prelude FileMode Format Goodbye Path Archive Tar.

Inductive Tree := TNode (f : File) (items : list Tree).

Definition tfile (t : Tree) : File := match t with TNode f _ => f end.

(** The name of an item in its directory. *)
Definition base (t : Tree) : bytes := Base (fName (tfile t)).

Section tree_ind.

Context (P : Tree -> Prop) (H : forall f l, Forall P l -> P (TNode f l)).

Fixpoint tree_rect_list (t : Tree) : P t :=
  match t with
  | TNode f l =>
    H f l ((fix items (l : list Tree) : Forall P l :=
              match l with
              | [] => Forall_nil_2 _
              | t :: l => Forall_cons_2 _ _ _ (tree_rect_list t) (items l)
              end) l)
  end.

End tree_ind.

(** A directory before its items. *)
Fixpoint walk (t : Tree) : list File :=
  match t with TNode f l => f :: concat (map walk l) end.

(** The nodes of an archive of the tree whose root has the elements [st] of a name. *)
Fixpoint nodes (st : list bytes) (t : Tree) : list (bytes * File) :=
  match t with
  | TNode f l =>
    if supported f then
      (render false st, f) :: concat (map (fun c => nodes (st ++ [Base (fName (tfile c))]) c) l)
    else []
  end.

(** ** What a tree has to satisfy *)

Record file_ok (f : File) : Prop := {
  ok_mode : valid_filemode (fMode f) = true;
  ok_uid : is_i64 (Uid f);
  ok_gid : is_i64 (Gid f);
  ok_mtime : is_i64 (ModTime f);
  ok_major : is_u64 (DevMajor f);
  ok_minor : is_u64 (DevMinor f);
  ok_xattrs : Forall (fun k => Byte.x00 ∉ k) (map fst (map_to_list (fXattrs f)));
  (* the size announced is that of the data, and reading it does not fail *)
  ok_data : IsRegular (fMode f) = true -> fSize f = Z.of_nat (length (fst (fData f))) /\ snd (fData f) = None
}.

(** The path of an item is that of its directory and its name; only directories have items. *)
Inductive tree_ok (r : bool) : list bytes -> Tree -> Prop :=
| tree_ok_intro st f l :
    fPath f = render r st ->
    (supported f = true -> file_ok f) ->
    (IsDir (fMode f) = false -> l = []) ->
    Forall (fun c => valid_name (base c) /\ tree_ok r (st ++ [base c]) c) l ->
    tree_ok r st (TNode f l).

(** ** The elements of a tree *)

Definition leaf_of (f : File) : FormatElement Source :=
  if IsRegular (fMode f) then payload_elt f
  else if IsSymlink (fMode f) then symlink_of f else device_of f.

Definition head_of (f : File) : list (FormatElement Source) :=
  entry_of f :: map (xattr_of f) (xattr_keys f).

Inductive tree_els : Tree -> list (FormatElement Source) -> Prop :=
| els_skip f l : supported f = false -> tree_els (TNode f l) []
| els_leaf f l : supported f = true -> IsDir (fMode f) = false -> tree_els (TNode f l) (head_of f ++ [leaf_of f])
| els_dir f l es its :
    IsDir (fMode f) = true -> items_els l es ->
    Forall (fun i => is_u64 (gOffset i) /\ is_u64 (gSize i) /\ is_u64 (gHash i)) its ->
    (gHash <$> last its) = Some CaFormatGoodbyeTailMarker ->
    tree_els (TNode f l) (head_of f ++ es ++ [goodbye_of its])
with items_els : list Tree -> list (FormatElement Source) -> Prop :=
| items_nil : items_els [] []
| items_cons t l es es' :
    tree_els t es -> items_els l es' -> items_els (t :: l) (filename_of (base t) :: es ++ es').

Definition encodings (es : list (FormatElement Source)) : bytes := concat (map encoding es).

Lemma encodings_app es es' : encodings (es ++ es') = encodings es ++ encodings es'.
Proof. unfold encodings. by rewrite map_app, concat_app. Qed.

Lemma encodings_cons v es : encodings (v :: es) = encoding v ++ encodings es.
Proof. done. Qed.

Lemma encodings_one v : encodings [v] = encoding v.
Proof. apply app_nil_r. Qed.

(** ** What Tar writes for a tree *)

Section writing.

Context (SipHash : bytes -> Z) (SipHash_u64 : forall b, is_u64 (SipHash b)).

Definition never (_ : nat) : bool := false.

Definition pending (ts : TarState) : list File := option_list (buf ts) ++ files ts.

Definition grown (w : Writer) (b : bytes) : Writer := mkWriter (w_out w ++ b) None (w_err w).

(** From [ts] on, [m] adds [b] to the output and its length to the count, and leaves [rest]. *)
Definition emits (n : Z) (m : tm) (ts : TarState) (b : bytes) (rest : list File) : Prop :=
  exists ts', m ts = (Ok (n + Z.of_nat (length b), None), ts') /\
    out ts' = grown (out ts) b /\ pending ts' = rest.

Lemma grown_grown w b b' : grown (grown w b) b' = grown w (b ++ b').
Proof. unfold grown. cbn. by rewrite app_assoc. Qed.

Lemma grown_nil w : w_room w = None -> grown w [] = w.
Proof. destruct w; cbn. intros ->. unfold grown. cbn. by rewrite app_nil_r. Qed.

Lemma emits_finish n ts : w_room (out ts) = None -> emits n (finish n None) ts [] (pending ts).
Proof.
  intros H. exists ts. rewrite Z.add_0_r, grown_nil by done. done.
Qed.

Lemma emits_step n m k ts b b' rest1 rest :
  emits 0 m ts b rest1 ->
  (forall ts1, out ts1 = grown (out ts) b -> pending ts1 = rest1 ->
    emits (n + Z.of_nat (length b)) (k (n + Z.of_nat (length b))) ts1 b' rest) ->
  emits n (step n m k) ts (b ++ b') rest.
Proof.
  intros (ts1 & E & Ho & Hp) Hk. destruct (Hk ts1 Ho Hp) as (ts2 & E2 & Ho2 & Hp2).
  exists ts2. unfold step. rewrite E, Z.add_0_l, E2, Ho2, Ho, grown_grown, length_app.
  split; [|done]. do 3 f_equal. lia.
Qed.

Lemma emits_enc v ts :
  w_room (out ts) = None -> source_err v = None -> emits 0 (enc v) ts (encoding v) (pending ts).
Proof.
  intros Hw Hs. unfold emits, enc. rewrite Encode_Copy. unfold Copy. rewrite Hw, Hs. by eexists.
Qed.

Lemma enc_all_runs n vs ts :
  w_room (out ts) = None -> Forall (fun v => source_err v = None) vs ->
  exists ts1, out ts1 = grown (out ts) (encodings vs) /\ pending ts1 = pending ts /\
    forall k, enc_all n vs k ts = k (n + Z.of_nat (length (encodings vs))) ts1.
Proof.
  intros Hw Hvs. revert n ts Hw. induction Hvs as [|v vs Hv Hvs IH]; intros n ts Hw.
  - exists ts. rewrite grown_nil by done. cbn. by rewrite Z.add_0_r.
  - destruct (emits_enc v ts Hw Hv) as (ts1 & E & Ho & Hp).
    destruct (IH (n + Z.of_nat (length (encoding v))) ts1) as (ts2 & Ho2 & Hp2 & E2); [by rewrite Ho|].
    exists ts2. rewrite Ho2, Ho, grown_grown, Hp2. split; [done|]. split; [done|]. intros k.
    cbn [enc_all]. unfold step. rewrite E, Z.add_0_l, E2, encodings_cons, length_app, Nat2Z.inj_add.
    by rewrite Z.add_assoc.
Qed.

Lemma emits_last n v ts : w_room (out ts) = None -> source_err v = None ->
  emits n (step n (enc v) (fun n => finish n None)) ts (encoding v) (pending ts).
Proof.
  intros Hw Hs. rewrite <- (app_nil_r (encoding v)). eapply emits_step; [by apply emits_enc|].
  intros ts1 Ho <-. apply emits_finish. by rewrite Ho.
Qed.

(** A file of another type of the items read so far. *)
Definition items_fit (items : list FormatGoodbyeItem) : Prop :=
  Forall (fun i => is_u64 (gOffset i) /\ is_u64 (gSize i) /\ is_u64 (gHash i)) items.

Lemma goodbye_fits n items its :
  items_fit items -> goodbye_items_of n items = Ok its ->
  items_fit its /\ (gHash <$> last its) = Some CaFormatGoodbyeTailMarker.
Proof.
  intros Hi. unfold goodbye_items_of. intros (l & Hl & [= <-])%outcome_bind_ok. split.
  - apply Forall_app. split.
    + eapply makeGoodbyeBST_Forall; [| |exact Hl].
      * cbn. by vm_compute.
      * apply Forall_map. eapply Forall_impl; [exact Hi|]. cbn. intros i (_ & H2 & H3).
        split; [apply u64_range|done].
    + constructor; [|constructor]. cbn. split; [apply u64_range|]. split; [apply u64_range|by vm_compute].
  - by rewrite last_snoc.
Qed.

Lemma emits_goodbye n items ts : w_room (out ts) = None -> items_fit items ->
  exists its, items_fit its /\ (gHash <$> last its) = Some CaFormatGoodbyeTailMarker /\
    emits n (encode_goodbye n items) ts (encoding (goodbye_of its)) (pending ts).
Proof.
  intros Hw Hi. destruct (goodbye_items_of_ok n items) as [its Hits]. exists its.
  destruct (goodbye_fits n items its Hi Hits) as [H1 H2]. split; [done|]. split; [done|].
  unfold emits, encode_goodbye. rewrite Hits. by apply emits_last.
Qed.

(** The next file, if any, is an item of a directory above those with path [st]. *)
Definition rest_ok (r : bool) (st : list bytes) (rest : list File) : Prop :=
  match rest with
  | [] => True
  | h :: _ => exists s c, fPath h = render r (s ++ [c]) /\ normal r (s ++ [c]) /\ (length s < length st)%nat
  end.

Lemma rest_outside r st h rest :
  normal r st -> rest_ok r st (h :: rest) -> Dir (fPath h) <> render r st.
Proof.
  intros Hn (s & c & Hp & Hs & Hl) E. rewrite Hp, Dir_snoc in E by done.
  apply render_inj in E as ->; [lia| |done].
  destruct Hs as [H1 H2]. split; [by apply norm_prefix in H1|]. by apply Forall_app in H2 as [? _].
Qed.

Lemma fs_Next_pending ts h rest : pending ts = h :: rest ->
  exists ts', fs_Next ErrEOF ts = (inl h, ts') /\ pending ts' = rest /\ buf ts' = None /\ out ts' = out ts.
Proof.
  destruct ts as [fs [b|] o k]; unfold pending, fs_Next; cbn; [intros [= -> <-]|intros ->]; by eexists.
Qed.

Lemma fs_Next_end ts : pending ts = [] -> fs_Next ErrEOF ts = (inr ErrEOF, ts).
Proof. destruct ts as [fs [b|] o k]; unfold pending, fs_Next; cbn; [done|by intros ->]. Qed.

Abbreviation tar_ := (tar SipHash never ErrEOF).
Abbreviation tar_items_ := (tar_items SipHash never ErrEOF).

Definition tar_ok (t : Tree) : Prop := forall r st rest fuel ts,
  tree_ok r st t -> normal r st -> rest_ok r st rest ->
  pending ts = concat (map walk (match t with TNode _ l => l end)) ++ rest ->
  w_room (out ts) = None -> (2 * length (pending ts) + 1 < fuel)%nat ->
  exists es, tree_els t es /\ emits 0 (tar_ fuel (tfile t)) ts (encodings es) rest.

Lemma emits_move n m ts ts' b rest :
  out ts' = out ts -> emits n m ts' b rest -> forall m', m' ts = m ts' -> emits n m' ts b rest.
Proof. intros Ho (t2 & E & Ho2 & Hp) m' Hm. exists t2. by rewrite Hm, <- Ho. Qed.

(** The loop over the items of a directory with path [st]. *)
Lemma tar_items_ok r st l :
  Forall tar_ok l -> Forall (fun c => valid_name (base c) /\ tree_ok r (st ++ [base c]) c) l ->
  normal r st -> forall n items rest fuel ts,
  rest_ok r st rest -> pending ts = concat (map walk l) ++ rest -> w_room (out ts) = None ->
  (2 * length (pending ts) < fuel)%nat -> items_fit items ->
  exists es its, items_els l es /\ items_fit its /\ (gHash <$> last its) = Some CaFormatGoodbyeTailMarker /\
    emits n (tar_items_ fuel (render r st) n items) ts (encodings es ++ encoding (goodbye_of its)) rest.
Proof.
  intros Hl. induction Hl as [|t l Ht Hl IH]; intros Hall Hn n items rest fuel ts Hrest Hp Hw Hf Hi;
    (destruct fuel as [|fuel]; [lia|]).
  - cbn [map concat app] in Hp. subst rest. destruct (pending ts) as [|h rest] eqn:Ep.
    + destruct (emits_goodbye n items ts Hw Hi) as (its & H1 & H2 & H3). rewrite Ep in H3.
      exists [], its. split; [constructor|]. split; [done|]. split; [done|].
      eapply emits_move; [|exact H3|]; [done|]. cbn [tar_items]. rewrite fs_Next_end by done.
      by rewrite decide_True.
    + destruct (fs_Next_pending ts h rest Ep) as (ts' & E & Hp' & Hb & Ho).
      set (tb := mkTar (files ts') (Some h) (out ts') (tick ts')).
      destruct (emits_goodbye n items tb) as (its & H1 & H2 & H3); [by cbn; rewrite Ho|done|].
      exists [], its. split; [constructor|]. split; [done|]. split; [done|].
      assert (pending tb = h :: rest) as Hpb.
      { unfold pending in Hp' |- *. rewrite Hb in Hp'. cbn in *. by rewrite Hp'. }
      rewrite Hpb in H3. eapply emits_move; [|exact H3|]; [done|]. cbn [tar_items]. rewrite E.
      rewrite decide_True by (by apply (rest_outside r st h rest)). unfold Buffer. by rewrite Hb.
  - inversion_clear Hall as [|? ? [Hv Hok] Hall']. destruct t as [f sub].
    assert (fPath f = render r (st ++ [base (TNode f sub)])) as Hpath by (by inversion Hok).
    cbn [map concat walk app] in Hp. rewrite <- app_assoc in Hp. cbn [app] in Hp.
    destruct (fs_Next_pending ts f _ Hp) as (ts' & E & Hp' & Hb & Ho).
    assert (normal r (st ++ [base (TNode f sub)])) as Hn2 by (by apply normal_snoc).
    assert (rest_ok r (st ++ [base (TNode f sub)]) (concat (map walk l) ++ rest)) as Hrest2.
    { destruct l as [|[g sub'] l].
      - cbn. destruct rest as [|h rest]; [done|]. destruct Hrest as (s & c & ? & ? & ?).
        exists s, c. rewrite length_app. cbn. split; [done|]. split; [done|lia].
      - cbn. inversion_clear Hall' as [|? ? [Hv' Hok'] _]. exists st, (base (TNode g sub')).
        split; [by inversion Hok'|]. split; [by apply normal_snoc|]. rewrite length_app. cbn. lia. }
    assert (length (pending ts) = S (length (pending ts'))) as Hlen by (by rewrite Hp, Hp').
    assert (exists es es' its, tree_els (TNode f sub) es /\ items_els l es' /\ items_fit its /\
      (gHash <$> last its) = Some CaFormatGoodbyeTailMarker /\
      emits n (step n (enc (filename_of (Base (fName f)))) (fun n1 =>
        step n1 (tar_ fuel f) (fun n2 => tar_items_ fuel (render r st) n2
          (items ++ [mkGoodbyeItem (u64 n) (u64 (n2 - n)) (SipHash (Base (fName f)))])))) ts'
        (encoding (filename_of (Base (fName f))) ++ encodings es ++ encodings es' ++ encoding (goodbye_of its)) rest)
      as (es & es' & its & H1 & H2 & H3 & H4 & H5).
    { set (v := filename_of (Base (fName f))).
      destruct (emits_enc v ts') as (ts1 & E1 & Ho1 & Hp1); [by rewrite Ho|done|].
      destruct (Ht r _ _ fuel ts1 Hok Hn2 Hrest2) as (es & Hes & ts2 & E2 & Ho2 & Hp2);
        [by rewrite Hp1, Hp'|by rewrite Ho1|rewrite Hp1; lia|].
      cbn [tfile] in E2. rewrite Z.add_0_l in E1, E2.
      set (n1 := n + Z.of_nat (length (encoding v))). set (n2 := n1 + Z.of_nat (length (encodings es))).
      destruct (IH Hall' Hn n2 (items ++ [mkGoodbyeItem (u64 n) (u64 (n2 - n)) (SipHash (Base (fName f)))])
        rest fuel ts2 Hrest Hp2) as (es' & its & Hes' & Hits & Hl2 & ts3 & E3 & Ho3 & Hp3).
      - by rewrite Ho2.
      - rewrite Hp2. rewrite Hp', length_app in Hlen. lia.
      - apply Forall_app. split; [done|]. constructor; [|constructor]. cbn.
        split; [apply u64_range|]. split; [apply u64_range|apply SipHash_u64].
      - exists es, es', its. split; [done|]. split; [done|]. split; [done|]. split; [done|].
        exists ts3. split_and!; [|by rewrite Ho3, Ho2, Ho1, !grown_grown|done].
        unfold step at 1. rewrite E1. fold n1. unfold step. rewrite E2. fold n2. rewrite E3.
        rewrite !length_app. do 3 f_equal. subst n1 n2. lia. }
    exists (filename_of (base (TNode f sub)) :: es ++ es'), its. split; [by constructor|].
    split; [done|]. split; [done|]. rewrite encodings_cons, encodings_app, <- !app_assoc.
    eapply emits_move; [|exact H5|]; [done|]. cbn [tar_items]. rewrite E, Hpath, Dir_snoc by done.
    by rewrite decide_False by tauto.
Qed.

Lemma source_err_xattrs f keys : Forall (fun v => source_err v = None) (map (xattr_of f) keys).
Proof. apply Forall_map. by apply Forall_true. Qed.

Lemma supported_leaf f : supported f = true -> IsDir (fMode f) = false ->
  IsRegular (fMode f) = true \/ (IsRegular (fMode f) = false /\ IsSymlink (fMode f) = true) \/
  (IsRegular (fMode f) = false /\ IsSymlink (fMode f) = false /\ IsDevice (fMode f) = true).
Proof.
  unfold supported. destruct (IsDir _), (IsRegular _), (IsSymlink _), (IsDevice _); cbn; try done; auto.
Qed.

(** Up to the switch on the type. *)
Lemma head_runs f ts : w_room (out ts) = None ->
  exists ts1, out ts1 = grown (out ts) (encodings (head_of f)) /\ pending ts1 = pending ts /\
    forall k, step 0 (enc (entry_of f)) (fun n => enc_all n (map (xattr_of f) (xattr_keys f)) k) ts =
      k (Z.of_nat (length (encodings (head_of f)))) ts1.
Proof.
  intros Hw. destruct (enc_all_runs 0 (head_of f) ts Hw) as (ts1 & Ho & Hp & E).
  - constructor; [done|apply source_err_xattrs].
  - exists ts1. split; [done|]. split; [done|]. intros k. exact (E k).
Qed.

(** [m] goes on from [ts1], where the output has grown by [b]. *)
Lemma emits_after n ts ts1 b b' m m' rest :
  out ts1 = grown (out ts) b -> m ts = m' ts1 -> emits n m' ts1 b' rest ->
  n = Z.of_nat (length b) -> emits 0 m ts (b ++ b') rest.
Proof.
  intros Ho E (ts2 & E2 & Ho2 & Hp2) ->. exists ts2. rewrite E, E2, Ho2, Ho, grown_grown, length_app.
  split; [|done]. do 3 f_equal. lia.
Qed.

Lemma leaf_runs f n fuel ts : file_ok f -> supported f = true -> IsDir (fMode f) = false -> w_room (out ts) = None ->
  emits n (if IsDir (fMode f) then tar_items_ fuel (fPath f) n []
        else if IsRegular (fMode f) then step n (enc (payload_elt f)) (fun n => finish n None)
        else if IsSymlink (fMode f) then step n (enc (symlink_of f)) (fun n => finish n None)
        else if IsDevice (fMode f) then step n (enc (device_of f)) (fun n => finish n None)
        else finish n (Some (Errorf "unable to determine node type"))) ts (encoding (leaf_of f)) (pending ts).
Proof.
  intros Hf Hs Hd Hw. rewrite Hd. unfold leaf_of.
  destruct (supported_leaf f Hs Hd) as [Hr|[[Hr Hl]|(Hr & Hl & Hv)]]; rewrite Hr; try rewrite Hl; try rewrite Hv;
    apply emits_last; try done.
  destruct (ok_data f Hf Hr) as [_ H]. cbn. by destruct (fData f).
Qed.

Lemma tar_tree_ok t : tar_ok t.
Proof.
  induction t as [f l IH] using tree_rect_list.
  intros r st rest fuel ts Hok Hn Hrest Hp Hw Hf.
  inversion_clear Hok as [? ? ? Hpath Hfile Hdir Hall].
  destruct fuel as [|fuel]; [lia|]. cbn [tfile].
  set (ts' := mkTar (files ts) (buf ts) (out ts) (S (tick ts))).
  destruct (supported f) eqn:Hs.
  2:{ assert (IsDir (fMode f) = false) as Hd.
      { unfold supported in Hs. by destruct (IsDir (fMode f)). }
      rewrite (Hdir Hd) in *. cbn in Hp. exists []. split; [by constructor|].
      exists ts'. cbn [tar]. rewrite Hs. cbn. rewrite grown_nil by done. by rewrite <- Hp. }
  destruct (head_runs f ts' Hw) as (ts1 & Ho & Hp1 & E).
  assert (w_room (out ts1) = None) as Hw1 by (by rewrite Ho).
  destruct (IsDir (fMode f)) eqn:Hd.
  - destruct (tar_items_ok r st l IH Hall Hn (Z.of_nat (length (encodings (head_of f)))) [] rest fuel ts1
      Hrest) as (es & its & Hes & Hits & Hlast & Hem); [by rewrite Hp1|done|rewrite Hp1; unfold pending in *; cbn in *; lia|constructor|].
    exists (head_of f ++ es ++ [goodbye_of its]). split; [by constructor|].
    rewrite !encodings_app, encodings_one.
    eapply (emits_after _ ts ts1); [exact Ho| |exact Hem|done].
    cbn [tar]. rewrite Hs. cbn [never negb]. rewrite E. cbv beta. by rewrite Hd, Hpath.
  - rewrite (Hdir eq_refl) in *. cbn in Hp. exists (head_of f ++ [leaf_of f]). split; [by constructor|].
    rewrite encodings_app, encodings_one. rewrite <- Hp. change (pending ts) with (pending ts'). rewrite <- Hp1.
    eapply (emits_after _ ts ts1); [exact Ho| |apply (leaf_runs f _ fuel); auto|done].
    cbn [tar]. rewrite Hs. cbn [never negb]. by rewrite E.
Qed.

(** Tar of the files of a tree writes the elements of the tree. *)
Lemma Tar_tree r st t w : tree_ok r st t -> normal r st -> w_room w = None ->
  exists es ts, tree_els t es /\
    Tar SipHash never ErrEOF w (walk t) = (Ok (Z.of_nat (length (encodings es)), None), ts) /\
    out ts = grown w (encodings es).
Proof.
  intros Hok Hn Hw. destruct t as [f l].
  destruct (tar_tree_ok (TNode f l) r st [] (S (S (2 * length (walk (TNode f l)))))
    (mkTar (concat (map walk l)) None w 1)) as (es & Hes & ts & E & Ho & _); try done.
  - cbn. by rewrite app_nil_r.
  - unfold pending. cbn. lia.
  - exists es, ts. split; [done|]. split; [|done]. exact E.
Qed.

End writing.

(** ** The elements are well formed when the archive is not too long *)

Definition short (es : list (FormatElement Source)) : Prop := Z.of_nat (length (encodings es)) <= maxAlloc.

Lemma short_app es es' : short (es ++ es') -> short es /\ short es'.
Proof. unfold short. rewrite encodings_app, length_app. lia. Qed.

Lemma short_cons v es : short (v :: es) -> short [v] /\ short es.
Proof. apply (short_app [v] es). Qed.

Lemma length_encoding v : length (encoding v) = (16 + length (body v))%nat.
Proof. unfold encoding. rewrite length_app, length_words. done. Qed.

Lemma short_body v : short [v] -> 16 + Z.of_nat (length (body v)) <= maxAlloc.
Proof. unfold short. rewrite encodings_one, length_encoding. lia. Qed.

Lemma wf_entry f : file_ok f -> well_formed (entry_of f).
Proof. intros []. cbn. split_and!; try done. Qed.

(** The size of a header, computed in 64 bits, does not overflow. *)
Lemma wf_string s t b :
  16 + Z.of_nat (length (b ++ [Byte.x00])) <= maxAlloc -> s = 16 + Z.of_nat (length b) + 1 ->
  string_header (mkHeader (u64 s) t) t 16 b.
Proof.
  rewrite length_app. cbn [length]. intros H ->. rewrite u64_small by mach_lia. split; [done|lia].
Qed.

Lemma wf_xattr f key : short [xattr_of f key] -> well_formed (xattr_of f key).
Proof. intros Hs%short_body. apply wf_string; [exact Hs|]. rewrite !length_app. cbn [length]. lia. Qed.

Lemma wf_filename n : short [filename_of n] -> well_formed (filename_of n).
Proof. intros Hs%short_body. by apply wf_string. Qed.

Lemma wf_goodbye its : items_fit its -> (gHash <$> last its) = Some CaFormatGoodbyeTailMarker ->
  short [goodbye_of its] -> well_formed (goodbye_of its).
Proof.
  intros Hi Hl Hs%short_body. cbn [body goodbye_of] in Hs. rewrite length_goodbye_bytes in Hs.
  cbn [well_formed goodbye_of]. rewrite u64_small by mach_lia. split; [f_equal; lia|]. split; [lia|done].
Qed.

Lemma wf_leaf f : file_ok f -> short [leaf_of f] -> well_formed (leaf_of f).
Proof.
  intros Hf. unfold leaf_of.
  destruct (IsRegular (fMode f)) eqn:Hr; [|destruct (IsSymlink (fMode f))]; intros Hs%short_body.
  - destruct (ok_data f Hf Hr) as [Hz He]. cbn [body payload_elt] in Hs. cbn [well_formed payload_elt].
    rewrite Hz, u64_small by mach_lia. split; [done|]. split; [mach_lia|done].
  - by apply wf_string.
  - split; [done|]. split; [apply (ok_major f Hf)|apply (ok_minor f Hf)].
Qed.

Lemma wf_head f : file_ok f -> short (head_of f) -> Forall well_formed (head_of f).
Proof.
  intros Hf [_ Hs]%short_cons. constructor; [by apply wf_entry|].
  induction (xattr_keys f) as [|k ks IH]; [constructor|].
  apply short_cons in Hs as [H1 H2]. constructor; [by apply wf_xattr|by apply IH].
Qed.

Lemma wf_tree t : forall r st es, tree_ok r st t -> tree_els t es -> short es -> Forall well_formed es.
Proof.
  induction t as [f l IH] using tree_rect_list. intros r st es Hok Hels Hs.
  inversion_clear Hok as [? ? ? _ Hfile Hdir Hall].
  inversion Hels as [? ? Hsup|? ? Hsup Hd|? ? es' its Hd Hes Hits Hlast]; subst; [constructor| |].
  - apply short_app in Hs as [H1 H2]. apply Forall_app. split; [by apply wf_head; [apply Hfile|]|].
    constructor; [|constructor]. by apply wf_leaf; [apply Hfile|].
  - assert (supported f = true) as Hsup by (unfold supported; by rewrite Hd).
    apply short_app in Hs as [H1 [H2 H3]%short_app]. apply Forall_app.
    split; [by apply wf_head; [apply Hfile|]|]. apply Forall_app. split.
    2:{ constructor; [|constructor]. by apply wf_goodbye. }
    clear Hels H1 H3 Hdir. revert es' Hes H2. induction IH as [|c l Hc IH IHl]; intros es' Hes Hs.
    + inversion Hes. constructor.
    + inversion Hes as [|? ? e1 e2 Ht Hl2]; subst. inversion_clear Hall as [|? ? [_ Hok] Hall'].
      apply short_cons in Hs as [H1 [H2 H3]%short_app]. constructor; [by apply wf_filename|].
      apply Forall_app. split; [by eapply Hc|by apply IHl].
Qed.

(** ** Decoding the elements of a tree *)

Section reading.

Context `{FilesystemWriter W}.

Abbreviation resume_ := (resume ErrEOF never).

(** A decoder in front of elements: the next call of Next does what it does on their encodings. *)
Definition dec_at (d : FormatDecoder) (es : list (FormatElement Source)) : Prop :=
  Format.Next ErrEOF d = Format.Next ErrEOF (NewFormatDecoder (encodings es)).

Definition plain (v : FormatElement Source) : Prop := payload_limit v = None.

(** An archive decoder in front of elements, the first of which it may already hold. *)
Definition arch_at (a : ArchiveDecoder) (es : list (FormatElement Source)) : Prop :=
  match last_ a with
  | Some c => exists v es', es = v :: es' /\ c = decoded v /\ plain v /\ dec_at (ad a) es'
  | None => dec_at (ad a) es
  end.

Lemma plain_payload v : plain v -> payload_of v = [].
Proof. unfold plain. by destruct v. Qed.

Lemma next_plain a v es : arch_at a (v :: es) -> plain v -> well_formed v ->
  exists d, next_element ErrEOF a = (Ok (Some (decoded v)), mkArchiveDecoder d (dir a) None) /\ dec_at d es.
Proof.
  unfold arch_at, next_element. intros Ha Hp Hv. destruct (last_ a) as [c|].
  - destruct Ha as (v' & es' & [= <- <-] & -> & _ & Hd). by exists (ad a).
  - rewrite Ha, encodings_cons, (Next_element _ _ _ Hv), (plain_payload v Hp), Hp. by eexists.
Qed.

Lemma next_payload a h src es : arch_at a (FormatPayload h src :: es) -> well_formed (FormatPayload h src) ->
  let d := mkDecoder (fst src ++ encodings es) (Some (Z.of_nat (length (fst src)))) in
  next_element ErrEOF a = (Ok (Some (decoded (FormatPayload h src))), mkArchiveDecoder d (dir a) None) /\
  payload_source ErrEOF d = (fst src, None) /\ forall k, dec_at (snd (ReadPayload d k)) es.
Proof.
  intros Ha Hv d. unfold arch_at, next_element in *. destruct (last_ a) as [c|].
  { destruct Ha as (v' & es' & [= <- <-] & _ & Hp & _). done. }
  split; [by rewrite Ha, encodings_cons, (Next_element _ _ _ Hv)|]. split.
  - unfold payload_source.
    destruct (Next_after_payload ErrEOF (FormatPayload h src) (encodings es) (length (d_stream d))) as [E _].
    cbn [payload_of payload_limit] in E. fold d in E. rewrite E. cbn [d_stream d_advance d].
    rewrite take_ge by (rewrite length_app; lia). by rewrite decide_True by tauto.
  - intros k. apply (Next_after_payload ErrEOF (FormatPayload h src) (encodings es) k).
Qed.

Lemma next_end a : arch_at a [] -> exists a', next_element ErrEOF a = (Ok None, a').
Proof.
  unfold arch_at, next_element. destruct (last_ a) as [c|]; [by intros (? & ? & ? & _)|].
  intros ->. cbn. by eexists.
Qed.

Definition named (n : bytes) : Found := mkFound None None None None ∅ n.

Definition entry_found (f : File) (n : bytes) (xa : Xattrs) : Found :=
  mkFound (Some (mkEntry (Uid f) (Gid f) (fMode f) (ModTime f))) None None None xa n.

Lemma find_nul key (value : bytes) : (Byte.x00 ∉ key) ->
  list_find (fun b => b = Byte.x00) (key ++ [Byte.x00] ++ value) = Some (length key, Byte.x00).
Proof.
  intros Hk. apply list_find_Some. split; [|split; [done|]].
  - rewrite lookup_app_r, Nat.sub_diag by lia. done.
  - intros j b Hj Hlt ->. rewrite lookup_app_l in Hj by done. by apply list_elem_of_lookup_2 in Hj.
Qed.

(** The entry and the extended attributes. *)
Lemma resume_xattrs f nm ks es xa a w :
  Forall (fun k => Byte.x00 ∉ k) ks -> Forall well_formed (map (xattr_of f) ks) ->
  arch_at a (map (xattr_of f) ks ++ es) ->
  exists a', resume_ (entry_found f nm xa) a w =
    resume_ (entry_found f nm (foldl (fun m k => <[k := default [] (fXattrs f !! k)]> m) xa ks)) a' w /\
    arch_at a' es /\ dir a' = dir a.
Proof.
  intros Hk. revert xa a. induction Hk as [|k ks Hk Hks IH]; intros xa a Hwf Ha; [by exists a|].
  cbn [map app] in *. inversion_clear Hwf as [|? ? Hv Hwf'].
  destruct (next_plain a _ _ Ha eq_refl Hv) as (d & E & Hd).
  destruct (IH (<[k := default [] (fXattrs f !! k)]> xa) (mkArchiveDecoder d (dir a) None) Hwf' Hd)
    as (a' & E' & Ha' & Hdir).
  exists a'. split; [|done]. cbn [foldl]. rewrite <- E'. eapply resume_cont; [exact E|].
  cbn [decoded xattr_of element entry_found]. rewrite find_nul by done.
  rewrite take_app_length. do 3 f_equal. unfold entry_found. do 2 f_equal.
  change (S (length k)) with (1 + length k)%nat. rewrite Nat.add_comm, <- drop_drop, drop_app_length. done.
Qed.

Lemma lookup_fold (X m : Xattrs) ks k :
  foldl (fun m k => <[k := default [] (X !! k)]> m) m ks !! k =
  if decide (k ∈ ks) then Some (default [] (X !! k)) else m !! k.
Proof.
  revert m. induction ks as [|k' ks IH]; intros m; cbn [foldl]; [done|]. rewrite IH.
  destruct (decide (k ∈ ks)) as [Hk|Hk].
  - rewrite decide_True by (by apply elem_of_cons; right). done.
  - destruct (decide (k = k')) as [->|Hne].
    + rewrite lookup_insert_eq, decide_True by (apply elem_of_cons; by left). done.
    + rewrite lookup_insert_ne, decide_False by (rewrite ?elem_of_cons; naive_solver). done.
Qed.

Lemma xattrs_read f :
  foldl (fun m k => <[k := default [] (fXattrs f !! k)]> m) ∅ (xattr_keys f) = fXattrs f.
Proof.
  apply map_eq. intros k. rewrite lookup_fold, lookup_empty. unfold xattr_keys.
  assert (k ∈ merge_sort bytes_le (map fst (map_to_list (fXattrs f))) <-> is_Some (fXattrs f !! k)) as Hin.
  { rewrite merge_sort_Permutation, list_elem_of_fmap. split.
    - intros ([k' v] & -> & Hv%elem_of_map_to_list). by eexists.
    - intros [v Hv]. exists (k, v). split; [done|]. by apply elem_of_map_to_list. }
  destruct (decide _) as [Hk|Hk].
  - apply Hin in Hk as [v ->]. done.
  - destruct (fXattrs f !! k); [|done]. destruct Hk. apply Hin. by eexists.
Qed.

Lemma resume_head f nm es a w :
  file_ok f -> Forall well_formed (head_of f) -> arch_at a (head_of f ++ es) ->
  exists a', resume_ (named nm) a w = resume_ (entry_found f nm (fXattrs f)) a' w /\
    arch_at a' es /\ dir a' = dir a.
Proof.
  intros Hf Hwf Ha. inversion_clear Hwf as [|? ? Hv Hwf'].
  destruct (next_plain a _ _ Ha eq_refl Hv) as (d & E & Hd).
  destruct (resume_xattrs f nm (xattr_keys f) es ∅ (mkArchiveDecoder d (dir a) None) w) as (a' & E' & Ha' & Hdir);
    [|done|done|].
  { unfold xattr_keys. rewrite merge_sort_Permutation. apply (ok_xattrs f Hf). }
  rewrite xattrs_read in E'. exists a'. split; [|done]. rewrite <- E'. by eapply resume_cont; [exact E|].
Qed.

(** ** The nodes of a file and of a tree *)

Definition create_file (n : bytes) (f : File) (w : W) : option error * W :=
  let a := mkAttrs n (Uid f) (Gid f) (fMode f) (ModTime f) (fXattrs f) in
  if IsDir (fMode f) then CreateDir a w
  else if IsRegular (fMode f) then
    let '(_, e, w) := CreateFile a (fSize f) (fst (fData f), None) w in (e, w)
  else if IsSymlink (fMode f) then CreateSymlink a (LinkTarget f) w
  else CreateDevice a (DevMajor f) (DevMinor f) w.

Fixpoint create_all (l : list (bytes * File)) (w : W) : option error * W :=
  match l with
  | [] => (None, w)
  | (n, f) :: l =>
    match create_file n f w with
    | (None, w) => create_all l w
    | (Some e, w) => (Some e, w)
    end
  end.

Lemma create_all_app l l' w :
  create_all (l ++ l') w =
  match create_all l w with (None, w) => create_all l' w | (Some e, w) => (Some e, w) end.
Proof.
  revert w. induction l as [|[n f] l IH]; intros w; [done|]. cbn.
  by destruct (create_file n f w) as [[e|] w'].
Qed.

(** What follows an entry that is not a regular file tells the decoder that it is complete. *)
Definition is_sep (v : FormatElement Source) : Prop :=
  match v with FormatFilename _ _ | FormatGoodbye _ _ => True | _ => False end.

Definition complete (f : File) (rest : list (FormatElement Source)) : Prop :=
  match rest with [] => IsDir (fMode f) = true \/ IsRegular (fMode f) = true | v :: _ => is_sep v end.

(** The extraction from [a] on creates a node and goes on, or stops with the error. *)
Definition creates (r : outcome unit * W) (c : option error * W) (ok : W -> outcome unit * W -> Prop) : Prop :=
  match c with
  | (None, w) => ok w r
  | (Some e, w) => r = (Err e, w)
  end.

Lemma never_stops k : never k = false.
Proof. done. Qed.

Lemma sep_element v f (nm : bytes) (sy : option bytes) (dv : option (Z * Z)) (xa : Xattrs) a en :
  is_sep v -> f = mkFound (Some en) None sy dv xa nm ->
  element (decoded v) f a = Ok (true, f, set_last a (Some (decoded v))).
Proof. intros Hv ->. by destruct v. Qed.

Lemma sep_plain v : is_sep v -> plain v.
Proof. by destruct v. Qed.

(** An entry ended by a separator, up to the creation of its node. *)
Lemma resume_sep v es en (sy : option bytes) (dv : option (Z * Z)) (xa : Xattrs) (nm : bytes) a w n a' :
  arch_at a (v :: es) -> is_sep v -> well_formed v ->
  (forall d, make_node (mkFound (Some en) None sy dv xa nm) (mkArchiveDecoder d (dir a) (Some (decoded v))) =
    Ok (Some n, mkArchiveDecoder d a' (Some (decoded v)))) ->
  exists d, resume_ (mkFound (Some en) None sy dv xa nm) a w =
    match create ErrEOF n (mkArchiveDecoder d a' (Some (decoded v))) w with
    | (Some e, _, w) => (Err e, w)
    | (None, a, w) => resume_ nothing a w
    end /\ arch_at (mkArchiveDecoder d a' (Some (decoded v))) (v :: es).
Proof.
  intros Ha Hv Hwf Hn. destruct (next_plain a _ _ Ha (sep_plain v Hv) Hwf) as (d & E & Hd).
  exists d. split.
  - rewrite (resume_break _ _ _ _ _ _ _ _ _ E (sep_element v _ nm sy dv xa _ en Hv eq_refl)).
    unfold finish_run, finish_node, set_last. cbn [ad dir]. rewrite Hn.
    destruct (create _ _ _ _) as [[[e|] a2] w']; [done|]. apply run_resume, never_stops.
  - exists v, es. split; [done|]. split; [done|]. split; [by apply sep_plain|done].
Qed.

(** After the node, the decoder is in front of what follows. *)
Definition goes_on (es : list (FormatElement Source)) (d : bytes) (w : W) (r : outcome unit * W) : Prop :=
  exists nm a, r = resume_ (named nm) a w /\ arch_at a es /\ dir a = d.

Lemma resume_file f nm es a w :
  file_ok f -> IsRegular (fMode f) = true -> IsDir (fMode f) = false ->
  well_formed (payload_elt f) -> arch_at a (payload_elt f :: es) ->
  creates (resume_ (entry_found f nm (fXattrs f)) a w) (create_file (Join (dir a) nm) f w) (goes_on es (dir a)).
Proof.
  intros Hf Hr Hd Hv Ha. destruct (next_payload a _ _ _ Ha Hv) as (E & Hsrc & Hrest).
  set (d := mkDecoder _ _) in *.
  erewrite resume_break; [|exact E|reflexivity].
  unfold finish_run, finish_node, make_node, create. cbn [entry payload device symlink name xattrs ad dir last_ attrs eUID eGID eMode eMTime].
  destruct (ok_data f Hf Hr) as [Hz _]. cbn in Hv. destruct Hv as (Hh & Hm & _). injection Hh as Hh. cbn [Size].
  rewrite Hsrc. rewrite Hh. replace (16 + Z.of_nat (length (fData f).1) - 16) with (fSize f) by lia.
  rewrite u64_small by (rewrite Hz; mach_lia).
  unfold create_file, creates. rewrite Hd, Hr.
  change (mkAttrs (Join (dir a) nm) (Uid f) (Gid f) (fMode f) (ModTime f) (fXattrs f)) with
    (attrs (Join (dir a) nm) (mkEntry (Uid f) (Gid f) (fMode f) (ModTime f)) (fXattrs f)).
  destruct (CreateFile _ _ _ w) as [[k [e|]] w']; [done|].
  exists [], (mkArchiveDecoder (snd (ReadPayload d k)) (dir a) None).
  split; [apply (run_resume ErrEOF never never_stops)|]. split; [apply Hrest|done].
Qed.

Lemma resume_leaf f nm v es a w :
  supported f = true -> IsDir (fMode f) = false -> IsRegular (fMode f) = false ->
  well_formed (leaf_of f) -> well_formed v -> is_sep v -> arch_at a (leaf_of f :: v :: es) ->
  creates (resume_ (entry_found f nm (fXattrs f)) a w) (create_file (Join (dir a) nm) f w) (goes_on (v :: es) (dir a)).
Proof.
  intros Hs Hd Hr Hwl Hwv Hv Ha. unfold leaf_of in *. rewrite Hr in *. unfold create_file. rewrite Hd, Hr.
  set (en := mkEntry (Uid f) (Gid f) (fMode f) (ModTime f)).
  assert (plain (if IsSymlink (fMode f) then symlink_of f else device_of f)) as Hp by (by destruct (IsSymlink _)).
  destruct (next_plain a _ _ Ha Hp Hwl) as (d & E & Hdec).
  set (a1 := mkArchiveDecoder d (dir a) None) in *. assert (arch_at a1 (v :: es)) as Ha1 by done.
  destruct (IsSymlink (fMode f)).
  - rewrite (resume_cont ErrEOF never (entry_found f nm (fXattrs f)) _ _ _ _ (mkFound (Some en) None (Some (LinkTarget f)) None (fXattrs f) nm) a1 E eq_refl).
    destruct (resume_sep v es en (Some (LinkTarget f)) None (fXattrs f) nm a1 w
      (NodeSymlink (attrs (Join (dir a) nm) en (fXattrs f)) (LinkTarget f)) (dir a) Ha1 Hv Hwv) as (d2 & -> & Ha2);
      [done|].
    cbn [create]. unfold creates, attrs. cbn [eUID eGID eMode eMTime en].
    destruct (CreateSymlink _ _ w) as [[e|] w']; [done|]. by eexists [], _.
  - rewrite (resume_cont ErrEOF never (entry_found f nm (fXattrs f)) _ _ _ _ (mkFound (Some en) None None (Some (DevMajor f, DevMinor f)) (fXattrs f) nm) a1 E eq_refl).
    destruct (resume_sep v es en None (Some (DevMajor f, DevMinor f)) (fXattrs f) nm a1 w
      (NodeDevice (attrs (Join (dir a) nm) en (fXattrs f)) (DevMajor f) (DevMinor f)) (dir a) Ha1 Hv Hwv)
      as (d2 & -> & Ha2); [done|].
    cbn [create]. unfold creates, attrs. cbn [eUID eGID eMode eMTime en].
    destruct (CreateDevice _ _ _ w) as [[e|] w']; [done|]. by eexists [], _.
Qed.

Lemma resume_dir f nm v es a w :
  IsDir (fMode f) = true -> well_formed v -> is_sep v -> arch_at a (v :: es) ->
  creates (resume_ (entry_found f nm (fXattrs f)) a w) (create_file (Join (dir a) nm) f w)
    (goes_on (v :: es) (Join (dir a) nm)).
Proof.
  intros Hd Hwv Hv Ha. unfold create_file. rewrite Hd.
  set (en := mkEntry (Uid f) (Gid f) (fMode f) (ModTime f)).
  destruct (resume_sep v es en None None (fXattrs f) nm a w
    (NodeDirectory (attrs (Join (dir a) nm) en (fXattrs f))) (Join (dir a) nm) Ha Hv Hwv) as (d & E & Ha2); [done|].
  unfold entry_found. fold en. rewrite E.
  cbn [create]. unfold creates, attrs. cbn [eUID eGID eMode eMTime en].
  destruct (CreateDir _ w) as [[e|] w']; [done|]. by eexists [], _.
Qed.

(** The elements of the tree create its nodes, and leave the decoder in the directory it was in,
    or above the tree's own directory. *)
Definition decodes (t : Tree) : Prop := forall r pst st nm es rest a w,
  tree_ok r pst t -> tree_els t es -> Forall well_formed (es ++ rest) -> arch_at a (es ++ rest) ->
  complete (tfile t) rest -> Join (dir a) nm = render false st -> normal false st ->
  creates (resume_ (named nm) a w) (create_all (nodes st t) w)
    (goes_on rest (if IsDir (fMode (tfile t)) then Dir (render false st) else dir a)).

Lemma items_decode r pst l st es g rest :
  Forall decodes l -> Forall (fun c => valid_name (base c) /\ tree_ok r (pst ++ [base c]) c) l ->
  items_els l es -> normal false st ->
  Forall well_formed (es ++ g :: rest) -> (exists h its, g = FormatGoodbye h its) ->
  forall nm a w, arch_at a (es ++ g :: rest) -> dir a = render false st ->
  creates (resume_ (named nm) a w) (create_all (concat (map (fun c => nodes (st ++ [Base (fName (tfile c))]) c) l)) w)
    (goes_on rest (Dir (render false st))).
Proof.
  intros Hl Hall Hels Hn. revert es Hels. induction Hl as [|c l Hc Hl IH]; intros es Hels Hwf Hg nm a w Ha Hdir.
  - inversion Hels; subst. destruct Hg as (h & its & ->). cbn [app map concat create_all creates] in *.
    inversion_clear Hwf as [|? ? Hv _]. destruct (next_plain a _ _ Ha eq_refl Hv) as (d & E & Hd).
    exists nm, (set_dir (mkArchiveDecoder d (dir a) None) (Dir (dir a))).
    split; [|split; [done|by rewrite <- Hdir]]. by erewrite resume_cont; [|exact E|reflexivity].
  - inversion Hels as [|? ? e1 e2 Ht Hl2]; subst. inversion_clear Hall as [|? ? [Hvn Hok] Hall'].
    cbn [app] in *. inversion_clear Hwf as [|? ? Hv Hwf']. rewrite <- app_assoc in *.
    destruct (next_plain a _ _ Ha eq_refl Hv) as (d & E & Hd).
    set (a1 := mkArchiveDecoder d (dir a) None) in *. cbn [map concat]. rewrite create_all_app.
    erewrite resume_cont; [|exact E|reflexivity].
    change (mkFound None None None None ∅ (base c)) with (named (base c)).
    assert (complete (tfile c) (e2 ++ g :: rest)) as Hcomp.
    { destruct Hg as (h & its & ->). inversion Hl2; subst; done. }
    specialize (Hc r (pst ++ [base c]) (st ++ [base c]) (base c) e1 (e2 ++ g :: rest) a1 w Hok Ht Hwf' Hd Hcomp).
    cbn [dir a1] in Hc. rewrite Hdir in Hc.
    specialize (Hc (Join_name false st (base c) Hn Hvn) (normal_snoc false st _ Hn Hvn)).
    unfold base in Hc at 3. destruct (create_all (nodes _ c) w) as [[e|] w']; [exact Hc|].
    destruct Hc as (nm' & a' & -> & Ha' & Hdir').
    refine (IH Hall' e2 Hl2 _ Hg nm' a' w' Ha' _); [by apply Forall_app in Hwf' as [_ ?]|].
    rewrite Hdir'. destruct (IsDir _); [|done]. apply Dir_snoc. by apply normal_snoc.
Qed.

Lemma creates_bind l l' r d1 es1 (ok : W -> outcome unit * W -> Prop) w :
  creates r (create_all l w) (goes_on es1 d1) ->
  (forall nm a w, arch_at a es1 -> dir a = d1 -> creates (resume_ (named nm) a w) (create_all l' w) ok) ->
  creates r (create_all (l ++ l') w) ok.
Proof.
  intros H1 H2. rewrite create_all_app. destruct (create_all l w) as [[e|] w']; [done|].
  destruct H1 as (nm & a & -> & Ha & Hd). by apply H2.
Qed.

Lemma tree_decodes t : decodes t.
Proof.
  induction t as [f l IH] using tree_rect_list.
  intros r pst st nm es rest a w Hok Hels Hwf Ha Hcomp Hj Hn. cbn [tfile] in *.
  inversion_clear Hok as [? ? ? _ Hfile Hdir Hall].
  inversion Hels as [? ? Hsup|? ? Hsup Hd|? ? es' its Hd Hes Hits Hlast]; subst; cbn [nodes].
  - rewrite Hsup. assert (IsDir (fMode f) = false) as ->.
    { unfold supported in Hsup. by destruct (IsDir (fMode f)). }
    by exists nm, a.
  - rewrite Hsup, Hd, (Hdir Hd). cbn [map concat].
    apply Forall_app in Hwf as [[Hwh Hwl]%Forall_app Hwr]. inversion_clear Hwl as [|? ? Hwl' _].
    rewrite <- app_assoc in Ha. specialize (Hfile Hsup).
    destruct (resume_head f nm _ a w Hfile Hwh Ha) as (a' & -> & Ha' & Hda). cbn [app] in Ha'.
    rewrite <- Hda in *. rewrite <- Hj.
    assert (creates (resume_ (entry_found f nm (fXattrs f)) a' w) (create_file (Join (dir a') nm) f w)
      (goes_on rest (dir a'))) as H1.
    { destruct (IsRegular (fMode f)) eqn:Hr.
      - unfold leaf_of in *. rewrite Hr in *. by apply resume_file.
      - destruct rest as [|v rest]; [destruct Hcomp; congruence|]. cbn in Hcomp. inversion_clear Hwr.
        by apply resume_leaf. }
    cbn [create_all]. by destruct (create_file _ _ _) as [[e|] w'].
  - assert (supported f = true) as Hsup by (unfold supported; by rewrite Hd). rewrite Hsup, Hd.
    rewrite <- !app_assoc in *. apply Forall_app in Hwf as [Hwh Hwr].
    destruct (resume_head f nm _ a w (Hfile Hsup) Hwh Ha) as (a' & -> & Ha' & Hda).
    rewrite <- Hda in *. cbn [app] in *.
    apply (creates_bind [(render false st, f)] _ _ (render false st) (es' ++ goodbye_of its :: rest)).
    + assert (exists v tl, es' ++ goodbye_of its :: rest = v :: tl /\ is_sep v) as (v & tl & Ev & Hv).
      { inversion Hes; subst; by do 2 eexists. }
      rewrite Ev in *. inversion_clear Hwr as [|? ? Hwv _]. cbn [create_all]. rewrite <- Hj.
      pose proof (resume_dir f nm v tl a' w Hd Hwv Hv Ha') as Hdd.
      destruct (create_file (Join (dir a') nm) f w) as [[e|] w']; done.
    + intros nm' a2 w2 Ha2 Hd2. apply (items_decode r pst l st es' (goodbye_of its)); try done.
      by do 2 eexists.
Qed.

(** Extraction of the elements of a tree. *)
Lemma UnTar_tree r pst t es (w : W) :
  tree_ok r pst t -> tree_els t es -> Forall well_formed es ->
  (supported (tfile t) = true -> IsDir (fMode (tfile t)) = true \/ IsRegular (fMode (tfile t)) = true) ->
  UnTar ErrEOF never (encodings es) w =
  match create_all (nodes [] t) w with (None, w) => (Ok tt, w) | (Some e, w) => (Err e, w) end.
Proof.
  intros Hok Hels Hwf Hroot. change (UnTar ErrEOF never (encodings es) w) with
    (run ErrEOF never (NewArchiveDecoder (encodings es)) w).
  rewrite run_resume by apply never_stops. change nothing with (named []).
  assert (arch_at (NewArchiveDecoder (encodings es)) es) as Ha by done.
  assert (normal false []) as Hn by done.
  destruct (supported (tfile t)) eqn:Hs.
  - pose proof (tree_decodes t r pst [] [] es [] (NewArchiveDecoder (encodings es)) w Hok Hels) as H1.
    rewrite app_nil_r in H1. specialize (H1 Hwf Ha (Hroot eq_refl) eq_refl Hn).
    destruct (create_all (nodes [] t) w) as [[e|] w']; [exact H1|].
    destruct H1 as (nm & a & -> & Ha' & _). destruct (next_end a Ha') as [a2 E]. by eapply resume_end.
  - destruct t as [f l]. cbn [tfile nodes] in *. rewrite Hs. inversion Hels as [|? ? Hs'|? ? ? ? Hd]; subst.
    + destruct (next_end _ Ha) as [a2 E]. by eapply resume_end.
    + congruence.
    + unfold supported in Hs. by rewrite Hd in Hs.
Qed.

End reading.

(** C7. Extraction inverts archiving. For a directory tree of any shape, whose paths are those of a
    walk and whose sizes are those of the files: Tar succeeds and reports the length of what it wrote;
    and as long as that is not too long for the decoder's buffers, UnTar of it, to any writer, which may
    fail at any node and read as much of every file as it likes, does exactly what creating the nodes of
    the tree one after the other does: every directory, file, symlink and device in the order of the walk,
    under its name relative to the root, with its owner, mode, time, extended attributes and contents.
    Files of unsupported types leave no trace. The root has to be a directory or a regular file. *)
Theorem UnTar_inverts_Tar SipHash r st t wr :
  (forall b, is_u64 (SipHash b)) -> tree_ok r st t -> normal r st ->
  (supported (tfile t) = true -> IsDir (fMode (tfile t)) = true \/ IsRegular (fMode (tfile t)) = true) ->
  w_room wr = None ->
  exists archive ts,
    Tar SipHash never ErrEOF wr (walk t) = (Ok (Z.of_nat (length archive), None), ts) /\
    out ts = mkWriter (w_out wr ++ archive) None (w_err wr) /\
    (Z.of_nat (length archive) <= maxAlloc -> forall W (HW : FilesystemWriter W) (w : W),
      UnTar ErrEOF never archive w =
      match create_all (nodes [] t) w with (None, w) => (Ok tt, w) | (Some e, w) => (Err e, w) end).
Proof.
  intros Hsip Hok Hn Hroot Hw. destruct (Tar_tree SipHash Hsip r st t wr Hok Hn Hw) as (es & ts & Hels & E & Ho).
  exists (encodings es), ts. split; [exact E|]. split; [exact Ho|]. intros Hs W HW w.
  apply (UnTar_tree r st); try done. by eapply wf_tree.
Qed.

(** ** Examples *)

(** A writer that notes what it is asked to create, and reads the first byte of every file. *)
Inductive Created := Dir_ (n : bytes) | File_ (n : bytes) (size : Z) (b : bytes) | Symlink_ (n t : bytes) | Device_ (n : bytes) (major minor : Z).

#[export] Instance ex_writer : FilesystemWriter (list Created) := {|
  CreateDir := fun a w => (None, w ++ [Dir_ (Name a)]);
  CreateFile := fun a size src w => (1%nat, None, w ++ [File_ (Name a) size (fst src)]);
  CreateSymlink := fun a t w => (None, w ++ [Symlink_ (Name a) t]);
  CreateDevice := fun a major minor w => (None, w ++ [Device_ (Name a) major minor])
|}.

Definition ex_file (path name : string) (mode : Z) (data link : string) : File :=
  mkFile (str name) (str path) mode (Z.of_nat (length (str data))) (str link) 1000000000 0 1000 8 1
    {[ str "user.k" := str "v" ]} (str data, None).

Definition ex_hash (b : bytes) : Z := u64 (foldr (fun x h => byte.unsigned x + 31 * h) 7 b).

(** src/a, src/d (with a socket and a symlink), src/z (a device) *)
Definition ex_tree : Tree :=
  TNode (ex_file "/src" "src" (Z.lor ModeDir 493) "" "")
    [TNode (ex_file "/src/a" "a" 420 "hello" "") [];
     TNode (ex_file "/src/d" "d" (Z.lor ModeDir 493) "" "")
       [TNode (ex_file "/src/d/s" "s" (Z.lor ModeSocket 493) "" "") [];
        TNode (ex_file "/src/d/t" "t" (Z.lor ModeSymlink 511) "" "../a") []];
     TNode (ex_file "/src/z" "z" (Z.lor ModeDevice 438) "" "") []].

Lemma ex_file_ok path name mode data link : valid_filemode mode = true -> file_ok (ex_file path name mode data link).
Proof.
  intros Hm. constructor.
  all: cbn [fMode Uid Gid ModTime DevMajor DevMinor fXattrs fSize fData ex_file fst snd].
  all: try exact Hm.
  all: try (intros _; done).
  all: refine (bool_decide_unpack _ _); by vm_compute.
Qed.

Ltac tree_ok_tac :=
  apply tree_ok_intro; [by vm_compute|intros _; apply ex_file_ok; by vm_compute|by intros|];
  repeat (apply Forall_cons_2; [split; [refine (bool_decide_unpack _ _); by vm_compute|tree_ok_tac]|]); apply Forall_nil_2.

Lemma ex_tree_ok : tree_ok true [str "src"] ex_tree.
Proof. unfold ex_tree. tree_ok_tac. Qed.

Definition ex_archive : Writer := mkWriter [] None ErrUnexpectedEOF.

Definition ex_log : list Created :=
  [Dir_ (str "."); File_ (str "a") 5 (str "hello"); Dir_ (str "d"); Symlink_ (str "d/t") (str "../a");
   Device_ (str "z") 8 1].

Lemma UnTar_inverts_Tar_witness :
  exists archive ts,
    Tar ex_hash never ErrEOF ex_archive (walk ex_tree) = (Ok (Z.of_nat (length archive), None), ts) /\
    UnTar ErrEOF never archive [] = (Ok tt, ex_log).
Proof.
  destruct (UnTar_inverts_Tar ex_hash true [str "src"] ex_tree ex_archive) as (archive & ts & E & Ho & Hu).
  - intros b. apply u64_range.
  - apply ex_tree_ok.
  - refine (bool_decide_unpack _ _); by vm_compute.
  - intros _. left. by vm_compute.
  - done.
  - exists archive, ts. split; [exact E|].
    assert (fst (Tar ex_hash never ErrEOF ex_archive (walk ex_tree)) = Ok (809, None)) as El by (vm_compute; reflexivity).
    rewrite E in El. cbn [fst] in El. injection El as El.
    rewrite (Hu ltac:(rewrite El; by vm_compute) _ ex_writer []). by vm_compute.
Defined.

Definition ex_bytes (fs : list File) : bytes := w_out (out (snd (Tar ex_hash never ErrEOF ex_archive fs))).

(** A symlink as the root is lost: nothing tells the decoder that its entry is complete. *)
Example root_symlink_is_lost :
  UnTar ErrEOF never (ex_bytes [ex_file "/t" "t" (Z.lor ModeSymlink 511) "" "../a"]) [] = (Ok tt, []).
Proof. vm_compute. reflexivity. Qed.

(** A file that grows while it is read makes an archive that cannot be read, without an error. *)
Definition ex_grown : list File :=
  [ex_file "." "." (Z.lor ModeDir 493) "" "";
   mkFile (str "f") (str "f") 420 2 [] 0 0 0 0 0 ∅ (str "hello, world, this is a longer file", None)].

Example grown_file_breaks_archive :
  is_ok (fst (Tar ex_hash never ErrEOF ex_archive ex_grown)) = true /\
  fst (UnTar ErrEOF never (ex_bytes ex_grown) []) = Err (Errorf "unsupported header type").
Proof. split; vm_compute; reflexivity. Qed.

(** Names are not checked: an entry called ".." is created outside of the target directory. *)
Example names_escape :
  UnTar ErrEOF never
    (encodings [entry_of (ex_file "." "." (Z.lor ModeDir 493) "" ""); filename_of (str "../../etc");
                entry_of (ex_file "etc" "etc" (Z.lor ModeDir 493) "" ""); goodbye_of [mkGoodbyeItem 0 0 CaFormatGoodbyeTailMarker]])
    [] = (Ok tt, [Dir_ (str "."); Dir_ (str "../../etc")]).
Proof. vm_compute. reflexivity. Qed.

(** An archive cut off after an entry loses it, without an error. *)
Example cut_archive_is_accepted :
  UnTar ErrEOF never
    (encodings [entry_of (ex_file "." "." (Z.lor ModeDir 493) "" ""); filename_of (str "d");
                entry_of (ex_file "d" "d" (Z.lor ModeDir 493) "" "")])
    [] = (Ok tt, [Dir_ (str ".")]).
Proof. vm_compute. reflexivity. Qed.
