(* ===== verification/MtreeFS.v ===== *)
(** * MtreeFS: archives as mtree listings (mtreefs.go)

    MtreeFS is a FilesystemWriter that prints a line per node. The theorem reads the lines back: what
    is printed for an archive describes the nodes of the tree it was made from. The reader of such a
    listing is a definition of this file, after mtree(5): fields separated by blanks, the first one the
    name with backslash and three octal digits for some characters, the others keywords with values. *)

From S2P Require Import Prelude Text FileMode Format Goodbye Path Index Chunk Names Url Stores Archive Tar Catar.

(** ** The writer *)

Definition newline : byte := Byte.x0a.
Definition backslash : byte := Byte.x5c.

(** fmt.Fprintln, its error ignored. *)
Definition Fprintln (line : bytes) (w : Writer) : Writer := snd (Copy (line ++ [newline], None) w).

Definition escaped (c : byte) : bool :=
  bool_decide (c = backslash) || bool_decide (c = Byte.x23) || (byte.unsigned c <? 32) || (126 <? byte.unsigned c).

Definition mtreeByte (c : byte) : bytes :=
  if escaped c then backslash :: fmt_0o 3 (byte.unsigned c) else [c].

Definition mtreeFilename (s : bytes) : bytes := concat (map mtreeByte s).

(** time.Time's Unix and Nanosecond, of nanoseconds since 1970. *)
Definition Unix (t : Z) : Z := t / 10 ^ 9.
Definition Nanosecond (t : Z) : Z := t mod 10 ^ 9.

Definition mode_field (n : NodeAttrs) : bytes := str "mode=" ++ fmt_0o 4 (Z.land (Mode n) ModePerm).
Definition uid_field (n : NodeAttrs) : bytes := str "uid=" ++ fmt_d (UID n).
Definition gid_field (n : NodeAttrs) : bytes := str "gid=" ++ fmt_d (GID n).
Definition seconds (n : NodeAttrs) : bytes := str "time=" ++ fmt_d (Unix (MTime n)) ++ str ".".
(** %9d: blanks in front of the nanoseconds *)
Definition time_field (n : NodeAttrs) : bytes := seconds n ++ fmt_sd 9 (Nanosecond (MTime n)).
(** %09d *)
Definition file_time_field (n : NodeAttrs) : bytes := seconds n ++ fmt_0d 9 (Nanosecond (MTime n)).

Definition line_of (attr : list bytes) : bytes := Stores.Join attr [space].

Definition dir_fields (n : NodeAttrs) : list bytes :=
  [mtreeFilename (Name n); str "type=dir"; mode_field n; uid_field n; gid_field n].

Definition symlink_fields (n : NodeAttrs) (target : bytes) : list bytes :=
  [mtreeFilename (Name n); str "type=link"; mode_field n; str "target=" ++ mtreeFilename target; uid_field n; gid_field n].

(** os.FileMode has no such bit. *)
Definition modeChar : Z := 0x4000.

Definition device_fields (n : NodeAttrs) : list bytes :=
  [mtreeFilename (Name n); if has (Mode n) modeChar then str "type=char" else str "type=block";
   mode_field n; uid_field n; gid_field n].

Section mtree.

Context `{Codec}.

(** [algorithm] is Digest.Algorithm(), and Sum its sum. *)
Definition digest_field (data : bytes) : bytes :=
  match Algorithm_ with
  | SHA512_256 => str "sha512256digest=" ++ EncodeToString (Sum data)
  | SHA256 => str "sha256digest=" ++ EncodeToString (Sum data)
  end.

Definition file_fields (n : NodeAttrs) (size : Z) (data : bytes) : list bytes :=
  [mtreeFilename (Name n); str "type=file"; mode_field n; uid_field n; gid_field n; str "size=" ++ fmt_d size;
   file_time_field n; digest_field data].

(** The data is read to its end; an error of reading it is returned and nothing is printed. *)
Definition Mtree_CreateFile (n : NodeAttrs) (size : Z) (data : Source) (w : Writer) : nat * option error * Writer :=
  match snd data with
  | Some e => (length (fst data), Some e, w)
  | None => (length (fst data), None, Fprintln (line_of (file_fields n size (fst data))) w)
  end.

Definition Mtree_CreateDir (n : NodeAttrs) (w : Writer) : option error * Writer :=
  (None, Fprintln (line_of (dir_fields n ++ [time_field n])) w).

Definition Mtree_CreateSymlink (n : NodeAttrs) (target : bytes) (w : Writer) : option error * Writer :=
  (None, Fprintln (line_of (symlink_fields n target ++ [time_field n])) w).

Definition Mtree_CreateDevice (n : NodeAttrs) (major minor : Z) (w : Writer) : option error * Writer :=
  (None, Fprintln (line_of (device_fields n ++ [time_field n])) w).

#[export] Instance MtreeFS_writer : FilesystemWriter Writer := {|
  CreateDir := Mtree_CreateDir;
  CreateFile := Mtree_CreateFile;
  CreateSymlink := Mtree_CreateSymlink;
  CreateDevice := Mtree_CreateDevice
|}.

(** The first line; its error is returned. *)
Definition NewMtreeFS (w : Writer) : option error * Writer :=
  let '(_, e, w) := Copy (str "#mtree v1.0" ++ [newline], None) w in (e, w).

End mtree.

(** ** Reading a listing *)

Record MtreeEntry := mkMtreeEntry {
  me_path : bytes;
  me_type : bytes;
  me_mode : option Z;
  me_uid : option Z;
  me_gid : option Z;
  me_size : option Z;
  me_target : option bytes;
  me_time : option (Z * Z);
  me_digest : option bytes
}.

Fixpoint unescape_octal (s : bytes) : bytes :=
  match s with
  | [] => []
  | c :: s' =>
    if decide (c = backslash) then
      match s' with
      | a :: b :: d :: r =>
        match ParseUint 8 [a; b; d] with
        | Some z => byte.of_Z z :: unescape_octal r
        | None => c :: unescape_octal s'
        end
      | _ => c :: unescape_octal s'
      end
    else c :: unescape_octal s'
  end.

Fixpoint after (p s : bytes) : option bytes :=
  match p, s with
  | [], _ => Some s
  | c :: p, d :: s => if decide (c = d) then after p s else None
  | _ :: _, [] => None
  end.

(** The value of a keyword. *)
Fixpoint keyword (key : bytes) (fields : list bytes) : option bytes :=
  match fields with
  | [] => None
  | f :: fields => match after key f with Some v => Some v | None => keyword key fields end
  end.

Definition parse_int (s : bytes) : option Z := match Atoi s with Ok z => Some z | _ => None end.

Definition parse_time (s : bytes) : option (Z * Z) :=
  '(a, b) ← Cut s Byte.x2e; sec ← parse_int a; ns ← ParseUint 10 b; Some (sec, ns).

Definition parse_hex (s : bytes) : option bytes := match DecodeString s with Ok b => Some b | _ => None end.

Definition parse_fields (p : bytes) (fs : list bytes) : option MtreeEntry :=
  ty ← keyword (str "type=") fs;
  Some (mkMtreeEntry (unescape_octal p) ty
    (keyword (str "mode=") fs ≫= ParseUint 8) (keyword (str "uid=") fs ≫= parse_int)
    (keyword (str "gid=") fs ≫= parse_int) (keyword (str "size=") fs ≫= ParseUint 10)
    (unescape_octal <$> keyword (str "target=") fs) (keyword (str "time=") fs ≫= parse_time)
    (match keyword (str "sha512256digest=") fs with
     | Some h => parse_hex h
     | None => keyword (str "sha256digest=") fs ≫= parse_hex
     end)).

Definition blank_separated (line : bytes) : list bytes := filter (.≠ []) (Split line space).

Definition parse_line (line : bytes) : option MtreeEntry :=
  match blank_separated line with
  | [] => None
  | p :: fs => parse_fields p fs
  end.

Definition parse_listing (out : bytes) : option (list MtreeEntry) :=
  match Split out newline with
  | first :: lines => if decide (first = str "#mtree v1.0") then mapM parse_line (filter (.≠ []) lines) else None
  | [] => None
  end.

(** What is printed can be read like this. *)
Definition described `{Codec} (nf : bytes * File) : MtreeEntry :=
  let '(n, f) := nf in
  let regular := negb (IsDir (fMode f)) && IsRegular (fMode f) in
  let link := negb (IsDir (fMode f)) && negb (IsRegular (fMode f)) && IsSymlink (fMode f) in
  mkMtreeEntry n
    (if IsDir (fMode f) then str "dir" else if regular then str "file" else if link then str "link" else str "block")
    (Some (Z.land (fMode f) ModePerm)) (Some (Uid f)) (Some (Gid f))
    (if regular then Some (fSize f) else None) (if link then Some (LinkTarget f) else None)
    (* with blanks the nanoseconds are lost *)
    (if regular || bool_decide (10 ^ 8 <= Nanosecond (ModTime f)) then Some (Unix (ModTime f), Nanosecond (ModTime f)) else None)
    (if regular then Some (Sum (fst (fData f))) else None).

(** ** Escaping *)

(** Characters that separate neither fields nor lines. *)
Definition visible (c : byte) : bool := 32 <? byte.unsigned c.
Abbreviation clean s := (Forall (fun c => visible c = true) s).

Definition mtreeByte_ok (c : byte) : bool :=
  bool_decide (unescape_octal (mtreeByte c) = [c]) &&
  match mtreeByte c with
  | [d] => negb (bool_decide (d = backslash)) && (bool_decide (c = space) || visible d)
  | [e; a; b; d] =>
    bool_decide (e = backslash) && bool_decide (ParseUint 8 [a; b; d] = Some (byte.unsigned c)) &&
    visible a && visible b && visible d && bool_decide (byte.of_Z (byte.unsigned c) = c)
  | _ => false
  end.

Lemma mtreeByte_all c : mtreeByte_ok c = true.
Proof. destruct c; vm_compute; reflexivity. Qed.

(** Reading an escaped name gives the name. *)
Lemma unescape_mtreeFilename s : unescape_octal (mtreeFilename s) = s.
Proof.
  unfold mtreeFilename. induction s as [|c s IH]; [done|]. cbn [map concat].
  pose proof (mtreeByte_all c) as Hc. unfold mtreeByte_ok in Hc. apply andb_true_iff in Hc as [H1 H2].
  apply bool_decide_eq_true in H1.
  destruct (mtreeByte c) as [|e [|a [|b [|d [|? ?]]]]]; try done.
  - apply andb_true_iff in H2 as [H2 _]. apply negb_true_iff, bool_decide_eq_false in H2.
    cbn [unescape_octal] in H1. rewrite decide_False in H1 by done. injection H1 as ->.
    cbn [app unescape_octal]. rewrite decide_False by done. by rewrite IH.
  - rewrite !andb_true_iff, !bool_decide_eq_true in H2. destruct H2 as (((((-> & Hp) & _) & _) & _) & Hc).
    cbn [app unescape_octal]. rewrite decide_True by done. by rewrite Hp, IH, Hc.
Qed.

Lemma clean_mtreeFilename s : (space ∉ s) -> clean (mtreeFilename s).
Proof.
  unfold mtreeFilename. induction s as [|c s IH]; [constructor|]. intros [Hc Hs]%not_elem_of_cons.
  cbn [map concat]. apply Forall_app. split; [|by apply IH].
  pose proof (mtreeByte_all c) as Hb. unfold mtreeByte_ok in Hb. apply andb_true_iff in Hb as [_ H2].
  destruct (mtreeByte c) as [|e [|a [|b [|d [|? ?]]]]]; try done.
  - apply andb_true_iff in H2 as [_ [H2%bool_decide_eq_true|H2]%orb_true_iff]; [congruence|]. by repeat constructor.
  - rewrite !andb_true_iff, !bool_decide_eq_true in H2. destruct H2 as (((((-> & _) & ?) & ?) & ?) & _).
    by repeat constructor.
Qed.

Lemma mtreeFilename_ne s : s <> [] -> mtreeFilename s <> [].
Proof.
  intros Hs E. apply Hs. rewrite <- (unescape_mtreeFilename s), E. done.
Qed.

(** ** Numbers *)

Lemma clean_FormatUint base n : 2 <= base <= 10 -> 0 <= n -> clean (FormatUint base n).
Proof.
  intros Hb Hn. eapply Forall_impl; [by apply FormatUint_digits|]. intros c. unfold is_decimal, visible. lia.
Qed.

Lemma clean_fmt_d n : clean (fmt_d n).
Proof.
  unfold fmt_d. goal_decide Hn; [constructor; [done|]|]; apply clean_FormatUint; lia.
Qed.

Lemma clean_pad w s : clean s -> clean (pad zero w s).
Proof. intros Hs. unfold pad. apply Forall_app. split; [|done]. by apply Forall_replicate. Qed.

Lemma clean_hex b : clean (EncodeToString b).
Proof.
  unfold EncodeToString. induction b as [|c b IH]; [constructor|]. cbn [map concat]. apply Forall_app.
  split; [|done]. destruct c; vm_compute; by repeat constructor.
Qed.

Lemma parse_int_fmt_d n : is_i64 n -> parse_int (fmt_d n) = Some n.
Proof.
  intros Hn. unfold parse_int, fmt_d. goal_decide Hlt.
  - unfold Atoi. rewrite decide_True by done. rewrite ParseUint_FormatUint by lia.
    rewrite decide_True by mach_lia. f_equal. lia.
  - rewrite Atoi_FormatUint by mach_lia. done.
Qed.

Lemma fmt_d_nonneg n : 0 <= n -> fmt_d n = FormatUint 10 n.
Proof. intros Hn. unfold fmt_d. rewrite decide_False by lia. done. Qed.

Lemma decimal_pow n k : 0 <= k -> 10 ^ k <= n -> (Z.to_nat k < length (FormatUint 10 n))%nat.
Proof.
  intros Hk. unfold FormatUint. rewrite length_rev.
  assert (forall fuel m j, Z.log2 m < Z.of_nat fuel -> 10 ^ Z.of_nat j <= m -> (j < length (rev_digits fuel 10 m))%nat) as Hgen.
  { induction fuel as [|fuel IH]; intros m j Hf Hj.
    { pose proof (Z.log2_nonneg m). lia. }
    cbn [rev_digits length]. destruct j as [|j]; [lia|].
    replace (Z.of_nat (S j)) with (Z.of_nat j + 1) in Hj by lia. rewrite Z.pow_add_r in Hj by lia.
    pose proof (Z.pow_pos_nonneg 10 (Z.of_nat j) ltac:(lia) ltac:(lia)).
    assert (10 ^ Z.of_nat j <= m / 10) by (apply Z.div_le_lower_bound; lia).
    rewrite decide_False by lia. apply -> Nat.succ_lt_mono. apply IH; [|done].
    assert (Z.log2 (m / 10) <= Z.log2 (m / 2)) as Hlog.
    { apply Z.log2_le_mono. apply Z.div_le_compat_l; lia. }
    change (m / 2) with (m / 2 ^ 1) in Hlog. rewrite <- Z.shiftr_div_pow2, Z.log2_shiftr in Hlog by lia.
    assert (1 <= Z.log2 m) by (apply (Z.log2_le_mono 2 m); lia). lia. }
  intros Hn. apply Hgen; [pose proof (Z.log2_nonneg n); lia|]. by rewrite Z2Nat.id.
Qed.

Lemma decimal_small n k : 0 < k -> 0 <= n < 10 ^ k -> (length (FormatUint 10 n) <= Z.to_nat k)%nat.
Proof.
  intros Hk. unfold FormatUint. rewrite length_rev.
  assert (forall fuel m j, 0 <= m < 10 ^ (Z.of_nat j + 1) -> (length (rev_digits fuel 10 m) <= S j)%nat) as Hgen.
  { induction fuel as [|fuel IH]; intros m j Hm; cbn [rev_digits length]; [lia|].
    goal_decide Hd; cbn [length]; [lia|]. destruct j as [|j].
    { cbn in Hm. rewrite Z.div_small in Hd by lia. done. }
    apply -> Nat.succ_le_mono. apply IH. split; [apply Z.div_pos; lia|].
    apply Z.div_lt_upper_bound; [lia|]. replace (Z.of_nat (S j) + 1) with (Z.of_nat j + 1 + 1) in Hm by lia.
    rewrite Z.pow_add_r in Hm by lia. lia. }
  intros Hn. replace (Z.to_nat k) with (S (Z.to_nat (k - 1))) by lia. apply Hgen.
  rewrite Z2Nat.id by lia. by replace (k - 1 + 1) with k by lia.
Qed.

(** ** Fields and lines *)

Definition field_ok (f : bytes) : Prop := clean f /\ f <> [].

Lemma clean_space s : clean s -> space ∉ s.
Proof. intros Hs Hin. rewrite Forall_forall in Hs. by specialize (Hs space Hin). Qed.

Lemma clean_newline s : clean s -> newline ∉ s.
Proof. intros Hs Hin. rewrite Forall_forall in Hs. by specialize (Hs newline Hin). Qed.

Lemma Join_snoc_cons (f : bytes) fs : fs <> [] -> line_of (f :: fs) = f ++ space :: line_of fs.
Proof. unfold line_of. by destruct fs. Qed.

Lemma blank_separated_line fs tail : Forall field_ok fs ->
  blank_separated (line_of (fs ++ [tail])) = fs ++ blank_separated tail.
Proof.
  unfold blank_separated. induction 1 as [|f fs [Hf Hne] _ IH]; [done|]. cbn [app].
  rewrite Join_snoc_cons by (by destruct fs). rewrite Split_app by by apply clean_space.
  rewrite filter_cons_True by done. by rewrite IH.
Qed.

Lemma line_no_newline fs tail : Forall field_ok fs -> newline ∉ tail -> newline ∉ line_of (fs ++ [tail]).
Proof.
  intros Hfs Ht. induction Hfs as [|f fs [Hf Hne] _ IH]; [done|]. cbn [app].
  rewrite Join_snoc_cons by (by destruct fs). rewrite not_elem_of_app, not_elem_of_cons.
  split; [by apply clean_newline|]. by split.
Qed.

Lemma blank_separated_clean f : field_ok f -> blank_separated f = [f].
Proof.
  intros [Hf Hne]. unfold blank_separated. rewrite Split_no_sep by by apply clean_space.
  rewrite filter_cons_True by done. done.
Qed.

Lemma blank_separated_fields fs : Forall field_ok fs -> fs <> [] -> blank_separated (line_of fs) = fs.
Proof.
  intros Hfs Hne. destruct (exists_last Hne) as (fs' & f & ->). apply Forall_app in Hfs as [Hfs Hf].
  apply Forall_cons in Hf as [Hf _]. rewrite blank_separated_line by exact Hfs. by rewrite blank_separated_clean by exact Hf.
Qed.

Lemma fields_no_newline fs : Forall field_ok fs -> newline ∉ line_of fs.
Proof.
  intros Hfs. destruct (decide (fs = [])) as [->|Hne]; [apply not_elem_of_nil|].
  destruct (exists_last Hne) as (fs' & f & ->). apply Forall_app in Hfs as [Hfs Hf]. apply Forall_cons in Hf as [Hf _].
  apply line_no_newline; [exact Hfs|]. by apply clean_newline, Hf.
Qed.

Lemma blank_separated_blanks k s : blank_separated (replicate k space ++ s) = blank_separated s.
Proof.
  unfold blank_separated. induction k as [|k IH]; [done|]. cbn [replicate app].
  change (space :: replicate k space ++ s) with ([] ++ space :: replicate k space ++ s).
  rewrite Split_app by apply not_elem_of_nil. rewrite filter_cons_False by (intros Hn; by apply Hn). exact IH.
Qed.

Lemma after_app p s : after p (p ++ s) = Some s.
Proof. induction p as [|c p IH]; [done|]. cbn [app after]. by rewrite decide_True. Qed.

(** Digits start no keyword. *)
Lemma after_digits key d : is_decimal (hd zero key) = false -> Forall (fun c => is_decimal c = true) d -> after key d = None.
Proof.
  intros Hc Hd. destruct key as [|c key]; [done|]. destruct d as [|e d]; [done|]. cbn [after hd] in *.
  apply Forall_cons in Hd as [He _]. rewrite decide_False by congruence. done.
Qed.

Section times.

Context (n : NodeAttrs) (mtime : is_i64 (MTime n)).

Lemma time_range : is_i64 (Unix (MTime n)) /\ 0 <= Nanosecond (MTime n) < 10 ^ 9.
Proof using mtime.
  unfold Unix, Nanosecond. split; [|by apply Z.mod_pos_bound].
  unfold is_i64 in *. split; [apply Z.div_le_lower_bound; lia|apply Z.div_lt_upper_bound; lia].
Qed.

Lemma clean_seconds : field_ok (seconds n).
Proof using Type.
  split; [|done]. unfold seconds. apply Forall_app. split; [by repeat constructor|]. apply Forall_app.
  split; [apply clean_fmt_d|by repeat constructor].
Qed.

Lemma parse_time_seconds d : keyword (str "time=") [seconds n ++ d] ≫= parse_time =
  (ns ← ParseUint 10 d; Some (Unix (MTime n), ns)).
Proof using mtime.
  unfold seconds. rewrite <- !app_assoc. cbn [keyword]. rewrite after_app. cbn [mbind option_bind].
  unfold parse_time. change (str ".") with [Byte.x2e]. cbn [app].
  rewrite Cut_app.
  - cbn [mbind option_bind]. rewrite parse_int_fmt_d by apply time_range. done.
  - intros Hin. assert (clean (fmt_d (Unix (MTime n))) /\ Forall (fun c => is_decimal c = true \/ c = Byte.x2d) (fmt_d (Unix (MTime n)))) as [_ Hd].
    { split; [apply clean_fmt_d|]. unfold fmt_d. goal_decide H0; [constructor; [by right|]|];
        (eapply Forall_impl; [apply FormatUint_digits; lia|by left]). }
    rewrite Forall_forall in Hd. by destruct (Hd _ Hin).
Qed.

(** What is left of a time printed with %9d. *)
Lemma time_tokens : exists toks, blank_separated (time_field n) = toks /\
  keyword (str "time=") toks ≫= parse_time =
    (if bool_decide (10 ^ 8 <= Nanosecond (MTime n)) then Some (Unix (MTime n), Nanosecond (MTime n)) else None) /\
  Forall (fun key => keyword (str key) toks = None) ["size="; "target="; "sha512256digest="; "sha256digest="]%string.
Proof using mtime.
  destruct time_range as [_ Hns]. set (ns := Nanosecond (MTime n)) in *.
  assert (Hd : Forall (fun c => is_decimal c = true) (FormatUint 10 ns)) by (apply FormatUint_digits; lia).
  assert (Hc : clean (FormatUint 10 ns)) by (apply clean_FormatUint; lia).
  destruct (decide (10 ^ 8 <= ns)) as [Hbig|Hsmall].
  - exists [time_field n].
    assert (Ep : time_field n = seconds n ++ FormatUint 10 ns).
    { unfold time_field, fmt_sd, pad. fold ns. rewrite fmt_d_nonneg by lia.
      pose proof (decimal_pow ns 8 ltac:(lia) Hbig) as Hl. change (Z.to_nat 8) with 8%nat in Hl.
      replace (9 - length (FormatUint 10 ns))%nat with 0%nat by lia. done. }
    split; [|split].
    + apply blank_separated_clean. rewrite Ep. destruct clean_seconds as [H1 H2]. split; [by apply Forall_app|].
      intros [E _]%app_eq_nil. done.
    + rewrite Ep, parse_time_seconds, bool_decide_true by done. by rewrite ParseUint_FormatUint by lia.
    + unfold time_field, seconds. repeat constructor.
  - exists [seconds n ++ []; FormatUint 10 ns].
    split; [|split].
    + unfold time_field, fmt_sd, pad. fold ns. rewrite fmt_d_nonneg by lia.
      pose proof (decimal_small ns 8 ltac:(lia) ltac:(lia)) as Hl. change (Z.to_nat 8) with 8%nat in Hl.
      replace (9 - length (FormatUint 10 ns))%nat with (S (8 - length (FormatUint 10 ns))) by lia.
      cbn [replicate app]. unfold blank_separated. rewrite Split_app by (apply clean_space, clean_seconds).
      rewrite filter_cons_True by done. rewrite app_nil_r. f_equal.
      change (filter (.≠ []) (Split ?s space)) with (blank_separated s).
      rewrite blank_separated_blanks. apply blank_separated_clean. split; [done|apply FormatUint_ne].
    + rewrite bool_decide_false by done. unfold seconds. rewrite <- !app_assoc. cbn [keyword]. rewrite after_app.
      pose proof (parse_time_seconds []) as Ht. unfold seconds in Ht. rewrite <- !app_assoc in Ht.
      cbn [keyword] in Ht. rewrite after_app in Ht. exact Ht.
    + repeat (apply Forall_cons_2; [|try apply Forall_nil_2]); unfold seconds; cbn [keyword];
        change (after (str ?k) ((str "time=" ++ ?x) ++ [])) with (@None bytes); cbn iota;
        by rewrite after_digits.
Qed.

End times.

(** ** A line per node *)

Lemma field_ok_app (k : string) v : field_ok (str k) -> clean v -> field_ok (str k ++ v).
Proof.
  intros [Hk Hne] Hv. split; [by apply Forall_app|]. intros [E _]%app_eq_nil. done.
Qed.

Lemma field_ok_const (k : string) : forallb visible (str k) = true -> str k <> [] -> field_ok (str k).
Proof. intros Hk Hne. split; [|done]. apply Forall_forall. intros c Hc. rewrite forallb_forall in Hk. by apply Hk, list_elem_of_In. Qed.

Lemma perm_nonneg m : 0 <= Z.land m ModePerm.
Proof. apply Z.land_nonneg. right. unfold ModePerm. lia. Qed.

(** The keywords of a line, when what follows has none of them. *)
Lemma parse_fields_timed p (ty m u g : bytes) toks :
  Forall (fun key => keyword (str key) toks = None) ["size="; "target="; "sha512256digest="; "sha256digest="]%string ->
  parse_fields p ([str "type=" ++ ty; str "mode=" ++ m; str "uid=" ++ u; str "gid=" ++ g] ++ toks) =
  Some (mkMtreeEntry (unescape_octal p) ty (ParseUint 8 m) (parse_int u) (parse_int g) None None
    (keyword (str "time=") toks ≫= parse_time) None).
Proof.
  rewrite !Forall_cons. intros (K1 & K2 & K3 & K4 & _). unfold parse_fields.
  change (keyword (str "size=") _) with (keyword (str "size=") toks).
  change (keyword (str "target=") _) with (keyword (str "target=") toks).
  change (keyword (str "sha512256digest=") _) with (keyword (str "sha512256digest=") toks).
  change (keyword (str "sha256digest=") _) with (keyword (str "sha256digest=") toks).
  rewrite K1, K2, K3, K4. reflexivity.
Qed.

Lemma parse_fields_link p (m t u g : bytes) toks :
  Forall (fun key => keyword (str key) toks = None) ["size="; "target="; "sha512256digest="; "sha256digest="]%string ->
  parse_fields p ([str "type=link"; str "mode=" ++ m; str "target=" ++ t; str "uid=" ++ u; str "gid=" ++ g] ++ toks) =
  Some (mkMtreeEntry (unescape_octal p) (str "link") (ParseUint 8 m) (parse_int u) (parse_int g) None
    (Some (unescape_octal t)) (keyword (str "time=") toks ≫= parse_time) None).
Proof.
  rewrite !Forall_cons. intros (K1 & K2 & K3 & K4 & _). unfold parse_fields.
  change (keyword (str "size=") _) with (keyword (str "size=") toks).
  change (keyword (str "sha512256digest=") _) with (keyword (str "sha512256digest=") toks).
  change (keyword (str "sha256digest=") _) with (keyword (str "sha256digest=") toks).
  rewrite K1, K3, K4. reflexivity.
Qed.

Lemma parse_fields_file p (m u g s t h : bytes) (d : string) : d = "sha512256digest="%string \/ d = "sha256digest="%string ->
  parse_fields p [str "type=file"; str "mode=" ++ m; str "uid=" ++ u; str "gid=" ++ g; str "size=" ++ s; str "time=" ++ t; str d ++ h] =
  Some (mkMtreeEntry (unescape_octal p) (str "file") (ParseUint 8 m) (parse_int u) (parse_int g) (ParseUint 10 s) None
    (parse_time t) (parse_hex h)).
Proof. intros [-> | ->]; reflexivity. Qed.

Section lines.

Context `{Codec} (n : NodeAttrs).
Hypothesis name_ok : Name n <> [] /\ space ∉ Name n.
Hypothesis ranges : is_i64 (UID n) /\ is_i64 (GID n) /\ is_i64 (MTime n).

Lemma common_fields :
  field_ok (mtreeFilename (Name n)) /\ field_ok (mode_field n) /\ field_ok (uid_field n) /\ field_ok (gid_field n).
Proof using name_ok.
  destruct name_ok as [H1 H2]. split; [split; [by apply clean_mtreeFilename|by apply mtreeFilename_ne]|].
  split_and!; apply field_ok_app; try (by apply field_ok_const); try apply clean_fmt_d.
  apply clean_pad, clean_FormatUint; [lia|apply perm_nonneg].
Qed.

Lemma mode_read : ParseUint 8 (fmt_0o 4 (Z.land (Mode n) ModePerm)) = Some (Z.land (Mode n) ModePerm).
Proof using Type. apply ParseUint_pad; [lia|apply perm_nonneg]. Qed.

Lemma parse_timed p fs : Forall field_ok (p :: fs) -> exists toks,
  parse_line (line_of ((p :: fs) ++ [time_field n])) = parse_fields p (fs ++ toks) /\
  keyword (str "time=") toks ≫= parse_time =
    (if bool_decide (10 ^ 8 <= Nanosecond (MTime n)) then Some (Unix (MTime n), Nanosecond (MTime n)) else None) /\
  Forall (fun key => keyword (str key) toks = None) ["size="; "target="; "sha512256digest="; "sha256digest="]%string.
Proof using ranges.
  intros Hfs. destruct (time_tokens n (proj2 (proj2 ranges))) as (toks & Ht & H1 & H2). exists toks. split; [|done].
  unfold parse_line. rewrite blank_separated_line by done. by rewrite Ht.
Qed.

Lemma timed_fields_ok (ty : string) : forallb visible (str ty) = true ->
  Forall field_ok [mtreeFilename (Name n); str "type=" ++ str ty; mode_field n; uid_field n; gid_field n].
Proof using name_ok.
  intros Hty. destruct common_fields as (F1 & F2 & F3 & F4).
  repeat (apply Forall_cons_2; [try done|]); [|apply Forall_nil_2]. apply field_ok_app; [by apply field_ok_const|].
  apply Forall_forall. intros c Hc. rewrite forallb_forall in Hty. by apply Hty, list_elem_of_In.
Qed.

Lemma link_fields_ok target : (space ∉ target) -> Forall field_ok (symlink_fields n target).
Proof using name_ok.
  intros Ht. destruct common_fields as (F1 & F2 & F3 & F4). unfold symlink_fields.
  repeat (apply Forall_cons_2; [try done|]); [by apply field_ok_const| |apply Forall_nil_2].
  apply field_ok_app; [by apply field_ok_const|by apply clean_mtreeFilename].
Qed.

Lemma file_fields_ok size data : 0 <= size -> Forall field_ok (file_fields n size data).
Proof using name_ok ranges.
  intros Hs. destruct common_fields as (F1 & F2 & F3 & F4).
  destruct (time_range n (proj2 (proj2 ranges))) as [_ Hns]. unfold file_fields.
  repeat (apply Forall_cons_2; [try done|]); [by apply field_ok_const| | | |apply Forall_nil_2].
  - apply field_ok_app; [by apply field_ok_const|apply clean_fmt_d].
  - destruct (clean_seconds n) as [S1 S2]. split; [|intros [E _]%app_eq_nil; done]. apply Forall_app. split; [done|].
    apply clean_pad, clean_FormatUint; lia.
  - unfold digest_field. destruct Algorithm_; (apply field_ok_app; [by apply field_ok_const|apply clean_hex]).
Qed.

Lemma time_field_newline : newline ∉ time_field n.
Proof using Type.
  unfold time_field, fmt_sd, pad. rewrite !not_elem_of_app. split; [apply clean_newline, clean_seconds|]. split.
  - intros Hin. apply elem_of_replicate in Hin as [E _]. done.
  - apply clean_newline, clean_fmt_d.
Qed.

Lemma timed_entry (ty : string) : forallb visible (str ty) = true ->
  parse_line (line_of ([mtreeFilename (Name n); str "type=" ++ str ty; mode_field n; uid_field n; gid_field n] ++ [time_field n])) =
  Some (mkMtreeEntry (Name n) (str ty) (Some (Z.land (Mode n) ModePerm)) (Some (UID n)) (Some (GID n)) None None
    (if bool_decide (10 ^ 8 <= Nanosecond (MTime n)) then Some (Unix (MTime n), Nanosecond (MTime n)) else None) None).
Proof using name_ok ranges.
  intros Hty. destruct ranges as (R1 & R2 & R3).
  destruct (parse_timed _ _ (timed_fields_ok ty Hty)) as (toks & -> & Htime & Hkeys).
  unfold mode_field, uid_field, gid_field. rewrite parse_fields_timed by done.
  by rewrite unescape_mtreeFilename, mode_read, !parse_int_fmt_d, Htime.
Qed.

Lemma link_entry target : (space ∉ target) ->
  parse_line (line_of (symlink_fields n target ++ [time_field n])) =
  Some (mkMtreeEntry (Name n) (str "link") (Some (Z.land (Mode n) ModePerm)) (Some (UID n)) (Some (GID n)) None (Some target)
    (if bool_decide (10 ^ 8 <= Nanosecond (MTime n)) then Some (Unix (MTime n), Nanosecond (MTime n)) else None) None).
Proof using name_ok ranges.
  intros Ht. destruct ranges as (R1 & R2 & R3).
  destruct (parse_timed _ _ (link_fields_ok target Ht)) as (toks & E & Htime & Hkeys). unfold symlink_fields. rewrite E.
  unfold mode_field, uid_field, gid_field. rewrite parse_fields_link by done.
  by rewrite !unescape_mtreeFilename, mode_read, !parse_int_fmt_d, Htime.
Qed.

Lemma file_entry size data : 0 <= size ->
  parse_line (line_of (file_fields n size data)) =
  Some (mkMtreeEntry (Name n) (str "file") (Some (Z.land (Mode n) ModePerm)) (Some (UID n)) (Some (GID n)) (Some size) None
    (Some (Unix (MTime n), Nanosecond (MTime n))) (Some (Sum data))).
Proof using name_ok ranges.
  intros Hs. destruct ranges as (R1 & R2 & R3). destruct (time_range n R3) as [_ Hns].
  assert (Ed : exists d : string, digest_field data = str d ++ EncodeToString (Sum data) /\
    (d = "sha512256digest="%string \/ d = "sha256digest="%string)) by (unfold digest_field; destruct Algorithm_; eauto).
  destruct Ed as (d & Ed & Hd). pose proof (file_fields_ok size data Hs) as Hfs.
  unfold parse_line. rewrite blank_separated_fields by done.
  unfold file_fields, mode_field, uid_field, gid_field, file_time_field, seconds. rewrite Ed, <- !app_assoc.
  rewrite parse_fields_file by done. rewrite unescape_mtreeFilename, mode_read, !parse_int_fmt_d by done.
  rewrite fmt_d_nonneg, ParseUint_FormatUint by lia.
  pose proof (parse_time_seconds n R3 (fmt_0d 9 (Nanosecond (MTime n)))) as Ht. unfold seconds in Ht.
  rewrite <- !app_assoc in Ht. cbn [keyword] in Ht. rewrite after_app in Ht. cbn [mbind option_bind] in Ht.
  rewrite Ht. unfold fmt_0d. rewrite ParseUint_pad by lia. cbn [mbind option_bind].
  unfold parse_hex. by rewrite DecodeString_EncodeToString.
Qed.

End lines.

(** ** The listing of a tree *)

Definition no_modeChar (m : Z) : bool := negb (has (StatModeToFilemode m) modeChar).

Lemma no_modeChar_all : all_from no_modeChar (Z.to_nat (2 ^ 16)) 0 = true.
Proof. vm_compute. reflexivity. Qed.

(** No mode of a file has the bit the writer tests for character devices. *)
Lemma filemode_no_modeChar m : valid_filemode m = true -> has m modeChar = false.
Proof.
  unfold valid_filemode, valid_stat_mode. rewrite !andb_true_iff, !bool_decide_eq_true. intros (Hm & Hr & _).
  pose proof (all_from_spec no_modeChar (Z.to_nat (2 ^ 16)) 0 (FilemodeToStatMode m) no_modeChar_all) as Hall.
  unfold no_modeChar in Hall. rewrite Hm in Hall. apply negb_true_iff, Hall. lia.
Qed.

Section listing.

Context `{Codec}.

Definition attrs_of (nf : bytes * File) : NodeAttrs :=
  let '(n, f) := nf in mkAttrs n (Uid f) (Gid f) (fMode f) (ModTime f) (fXattrs f).

Definition node_line (nf : bytes * File) : bytes :=
  let a := attrs_of nf in
  let f := snd nf in
  line_of
    (if IsDir (fMode f) then dir_fields a ++ [time_field a]
     else if IsRegular (fMode f) then file_fields a (fSize f) (fst (fData f))
     else if IsSymlink (fMode f) then symlink_fields a (LinkTarget f) ++ [time_field a]
     else device_fields a ++ [time_field a]).

(** Names that a listing separated by blanks can carry. *)
Definition printable (nf : bytes * File) : Prop :=
  (space ∉ fst nf) /\ (IsSymlink (fMode (snd nf)) = true -> space ∉ LinkTarget (snd nf)).

Definition node_ok (nf : bytes * File) : Prop := fst nf <> [] /\ file_ok (snd nf).

Lemma created_line n f (w : Writer) :
  create_file n f w = (None, Fprintln (node_line (n, f)) w).
Proof.
  unfold create_file, node_line. cbn [attrs_of snd]. cbn [CreateDir CreateFile CreateSymlink CreateDevice MtreeFS_writer].
  destruct (IsDir (fMode f)); [done|]. destruct (IsRegular (fMode f)); [done|]. by destruct (IsSymlink (fMode f)).
Qed.

Lemma created_lines l : forall b e,
  create_all l (mkWriter b None e) =
  (None, mkWriter (b ++ concat (map (fun nf => node_line nf ++ [newline]) l)) None e).
Proof.
  induction l as [|[n f] l IH]; intros b e; cbn [create_all map concat].
  { by rewrite app_nil_r. }
  rewrite created_line. unfold Fprintln. cbn [Copy w_room snd w_out w_err]. rewrite IH. by rewrite <- app_assoc.
Qed.

Lemma node_line_read nf : node_ok nf -> printable nf -> parse_line (node_line nf) = Some (described nf).
Proof.
  destruct nf as [n f]. intros [Hne Hf] [Hn Ht]. cbn [fst snd] in *. destruct Hf as [Hmode H1 H2 H3 _ _ _ Hdata].
  unfold node_line, described. cbn [attrs_of snd].
  set (a := mkAttrs n (Uid f) (Gid f) (fMode f) (ModTime f) (fXattrs f)).
  assert (Hname : Name a <> [] /\ space ∉ Name a) by done.
  assert (Hr : is_i64 (UID a) /\ is_i64 (GID a) /\ is_i64 (MTime a)) by done.
  destruct (IsDir (fMode f)) eqn:Ed.
  { by apply (timed_entry a Hname Hr "dir"). }
  destruct (IsRegular (fMode f)) eqn:Er.
  { destruct (Hdata eq_refl) as [Hsz _]. apply (file_entry a Hname Hr). lia. }
  destruct (IsSymlink (fMode f)) eqn:Es.
  { cbn [negb andb orb]. apply (link_entry a Hname Hr). by apply Ht. }
  cbn [negb andb orb]. unfold device_fields. rewrite filemode_no_modeChar by exact Hmode.
  by apply (timed_entry a Hname Hr "block").
Qed.

Lemma node_line_newline nf : node_ok nf -> printable nf -> newline ∉ node_line nf.
Proof.
  destruct nf as [n f]. intros [Hne Hf] [Hn Ht]. cbn [fst snd] in *. destruct Hf as [Hmode H1 H2 H3 _ _ _ Hdata].
  unfold node_line. cbn [attrs_of snd]. set (a := mkAttrs n (Uid f) (Gid f) (fMode f) (ModTime f) (fXattrs f)).
  assert (Hname : Name a <> [] /\ space ∉ Name a) by done.
  assert (Hr : is_i64 (UID a) /\ is_i64 (GID a) /\ is_i64 (MTime a)) by done.
  destruct (IsDir (fMode f)).
  { apply line_no_newline; [by apply (timed_fields_ok a Hname "dir")|apply time_field_newline]. }
  destruct (IsRegular (fMode f)) eqn:Er.
  { destruct (Hdata eq_refl) as [Hsz _]. apply fields_no_newline. apply file_fields_ok; [done|done|lia]. }
  destruct (IsSymlink (fMode f)).
  { apply line_no_newline; [apply link_fields_ok; [done|by apply Ht]|apply time_field_newline]. }
  apply line_no_newline; [|apply time_field_newline]. unfold device_fields. rewrite filemode_no_modeChar by exact Hmode.
  by apply (timed_fields_ok a Hname "block").
Qed.

Lemma Split_lines ls : Forall (fun l => newline ∉ l) ls ->
  Split (concat (map (fun l => l ++ [newline]) ls)) newline = ls ++ [[]].
Proof.
  induction 1 as [|l ls Hl _ IH]; [done|]. cbn [map concat]. rewrite <- app_assoc. cbn [app].
  rewrite Split_app by done. by rewrite IH.
Qed.

(** A listing is read back as what it describes. *)
Lemma parse_listing_lines l : Forall (fun nf => node_ok nf /\ printable nf) l ->
  parse_listing (str "#mtree v1.0" ++ [newline] ++ concat (map (fun nf => node_line nf ++ [newline]) l)) =
  Some (map described l).
Proof.
  intros Hl. unfold parse_listing.
  change ([newline] ++ ?x) with (newline :: x).
  rewrite Split_app by (refine (bool_decide_unpack _ _); by vm_compute).
  rewrite <- (map_map node_line (fun l => l ++ [newline])), Split_lines.
  - rewrite decide_True by done. rewrite filter_app.
    induction Hl as [|nf l [Hok Hp] _ IH]; [done|]. cbn [map]. 
    pose proof (node_line_read nf Hok Hp) as Hread.
    rewrite filter_cons_True by (intros E; by rewrite E in Hread). cbn [app mapM]. by rewrite Hread, IH.
  - apply Forall_map. eapply Forall_impl; [exact Hl|]. intros nf [? ?]. by apply node_line_newline.
Qed.

Lemma nodes_ok r t : forall pst st, tree_ok r pst t -> normal false st -> Forall node_ok (nodes st t).
Proof.
  induction t as [f l IH] using tree_rect_list. intros pst st Hok Hn. inversion_clear Hok as [? ? ? _ Hf _ Hl].
  cbn [nodes]. destruct (supported f); [|constructor]. constructor; [split; [by apply render_ne|by apply Hf]|].
  apply Forall_concat, Forall_map. rewrite Forall_forall in IH, Hl. apply Forall_forall. intros c Hc.
  destruct (Hl c Hc) as [Hv Hc']. apply (IH c Hc (pst ++ [base c])); [done|]. by apply normal_snoc.
Qed.

(** C24. The listing of an archive describes its tree. For a directory tree as in UnTar_inverts_Tar
    whose names have no blanks: Tar makes an archive of it, extracting the archive to an mtree writer
    prints a listing without an error, and a reader of mtree(5) finds in it exactly the nodes of the
    tree in order, with their paths, whatever other characters these have, types, permissions and
    owners, the sizes, times and digests of files and the targets of symlinks, with two exceptions that
    are faults of the listing: a character device is listed as a block device, and of directories,
    symlinks and devices the time is lost when it has less than 10^8 nanoseconds. *)
Theorem mtree_describes SipHash r st t wr e :
  (forall b, is_u64 (SipHash b)) -> tree_ok r st t -> normal r st ->
  (supported (tfile t) = true -> IsDir (fMode (tfile t)) = true \/ IsRegular (fMode (tfile t)) = true) ->
  w_room wr = None -> Forall printable (nodes [] t) ->
  exists archive ts,
    Tar SipHash never ErrEOF wr (walk t) = (Ok (Z.of_nat (length archive), None), ts) /\
    out ts = mkWriter (w_out wr ++ archive) None (w_err wr) /\
    (Z.of_nat (length archive) <= maxAlloc -> exists w w',
      NewMtreeFS (mkWriter [] None e) = (None, w) /\
      UnTar ErrEOF never archive w = (Ok tt, w') /\
      parse_listing (w_out w') = Some (map described (nodes [] t))).
Proof.
  intros Hsip Hok Hn Hroot Hw Hp. destruct (Tar_tree SipHash Hsip r st t wr Hok Hn Hw) as (es & ts & Hels & E & Ho).
  exists (encodings es), ts. split; [exact E|]. split; [exact Ho|]. intros Hs.
  exists (mkWriter (str "#mtree v1.0" ++ [newline]) None e). eexists. split; [reflexivity|].
  rewrite (UnTar_tree r st t es) by (done || by eapply wf_tree). rewrite created_lines. split; [reflexivity|].
  cbn [w_out]. rewrite <- app_assoc. apply parse_listing_lines.
  pose proof (nodes_ok r t st [] Hok ltac:(done)) as Hno. rewrite Forall_forall in Hno, Hp. apply Forall_forall. auto.
Qed.

End listing.

(** ** Examples *)

(** A directory with a file, a symlink and a character device. *)
Definition ex_mtree : Tree :=
  TNode (ex_file "/src" "src" (Z.lor ModeDir 493) "" "")
    [TNode (ex_file "/src/a" "a" 420 "hello" "") [];
     TNode (ex_file "/src/l" "l" (Z.lor ModeSymlink 511) "" "../a") [];
     TNode (ex_file "/src/z" "z" (Z.lor (Z.lor ModeDevice ModeCharDevice) 438) "" "") []].

Lemma ex_mtree_ok : tree_ok true [str "src"] ex_mtree.
Proof. unfold ex_mtree. tree_ok_tac. Qed.

#[local] Instance ex_codec_mtree : Codec := toy_codec.

Lemma mtree_describes_witness :
  exists archive ts w w',
    Tar ex_hash never ErrEOF ex_archive (walk ex_mtree) = (Ok (Z.of_nat (length archive), None), ts) /\
    NewMtreeFS (mkWriter [] None ErrEOF) = (None, w) /\
    UnTar ErrEOF never archive w = (Ok tt, w') /\
    map me_type <$> parse_listing (w_out w') = Some [str "dir"; str "file"; str "link"; str "block"].
Proof.
  destruct (mtree_describes ex_hash true [str "src"] ex_mtree ex_archive ErrEOF) as (archive & ts & E & Ho & Hu).
  - intros b. apply u64_range.
  - apply ex_mtree_ok.
  - refine (bool_decide_unpack _ _); by vm_compute.
  - intros _. left. by vm_compute.
  - done.
  - refine (bool_decide_unpack _ _); by vm_compute.
  - assert (fst (Tar ex_hash never ErrEOF ex_archive (walk ex_mtree)) = Ok (596, None)) as El by (vm_compute; reflexivity).
    rewrite E in El. cbn [fst] in El. injection El as El.
    destruct (Hu ltac:(rewrite El; by vm_compute)) as (w & w' & H1 & H2 & H3).
    exists archive, ts, w, w'. split_and!; [exact E|exact H1|exact H2|]. rewrite H3. by vm_compute.
Defined.

(** The lines of the tree's directory and of its device: blanks in the times. *)
Example mtree_dir_line : node_line (str ".", ex_file "/src" "src" (Z.lor ModeDir 493) "" "") =
  str ". type=dir mode=0755 uid=0 gid=1000 time=1.        0".
Proof. vm_compute. reflexivity. Qed.

(** A blank in a name is not escaped, and ends the name for a reader. *)
Example blanks_cut_names :
  me_path <$> parse_line (node_line (str "my file", ex_file "/src/a" "a" 420 "hello" "")) = Some (str "my").
Proof. vm_compute. reflexivity. Qed.
