(* ===== verification/TarFS.v ===== *)
(** * TarFS: GNU tar archives as target and as source (tarfs.go)

    TarWriter is a FilesystemWriter that writes a header, and for files the data, to the writer of
    Go's archive/tar; TarReader hands out the entries of a tar archive as files. archive/tar is
    modelled by what the code uses of it: an archive is a list of headers with their data, and reading
    it back gives the headers up to the part of the time the format has no place for. The theorem is
    about going from a catar to a tar archive and back. *)

From S2P Require Import Prelude FileMode Format Goodbye Path Archive Tar Catar.

(** ** archive/tar *)

Inductive Typeflag := TypeReg | TypeDir | TypeSymlink | TypeChar | TypeBlock | TypeFifo | TypeOther.

#[global] Instance Typeflag_eq_dec : EqDecision Typeflag.
Proof. solve_decision. Defined.

Record Header := mkTarHeader {
  h_type : Typeflag;
  h_name : bytes;
  h_linkname : bytes;
  h_uid : Z;
  h_gid : Z;
  h_mode : Z;
  h_size : Z;
  h_mtime : Z;
  h_xattrs : Xattrs;
  h_major : Z;
  h_minor : Z;
  h_gnu : bool                        (* Format: FormatGNU, or not specified *)
}.

(** The entries written so far, the last one first. *)
Definition TarArchive : Type := list (Header * bytes).

(** The data an entry announces: only regular files have any. *)
Definition announced (h : Header) : Z := match h_type h with TypeReg => h_size h | _ => 0 end.

(** Writer.Flush: the last entry has to be complete. *)
Definition complete_entry (a : TarArchive) : bool :=
  match a with [] => true | (h, d) :: _ => bool_decide (Z.of_nat (length d) = announced h) end.

(** GNU's format has no place for extended attributes. *)
Definition WriteHeader (h : Header) (a : TarArchive) : option error * TarArchive :=
  if negb (complete_entry a) then (Some (Errorf "archive/tar: missed writing"), a)
  else if h_gnu h && negb (bool_decide (h_xattrs h = ∅)) then (Some (Errorf "archive/tar: cannot encode header"), a)
  else (None, (h, []) :: a).

(** io.Copy to the writer: what is more than announced is refused. *)
Definition CopyData (src : Source) (a : TarArchive) : nat * option error * TarArchive :=
  match a with
  | [] => (0%nat, Some (Errorf "archive/tar: write too long"), a)
  | (h, d) :: a =>
    let room := Z.to_nat (announced h - Z.of_nat (length d)) in
    if decide (length (fst src) <= room)%nat then (length (fst src), snd src, (h, d ++ fst src) :: a)
    else (length (fst src), Some (Errorf "archive/tar: write too long"), (h, d ++ take room (fst src)) :: a)
  end.

(** The mode Header.FileInfo gives: permissions and special bits of the header's mode, its type by
    these or by the type flag. *)
Definition header_mode (h : Header) : Z :=
  let m := Z.land (h_mode h) ModePerm in
  let m := if has (h_mode h) S_ISUID then Z.lor m ModeSetuid else m in
  let m := if has (h_mode h) S_ISGID then Z.lor m ModeSetgid else m in
  let m := if has (h_mode h) S_ISVTX then Z.lor m ModeSticky else m in
  let t := Z.ldiff (u32 (h_mode h)) 0xfff in
  let m :=
    if decide (t = S_IFDIR) then Z.lor m ModeDir
    else if decide (t = S_IFIFO) then Z.lor m ModeNamedPipe
    else if decide (t = S_IFLNK) then Z.lor m ModeSymlink
    else if decide (t = S_IFBLK) then Z.lor m ModeDevice
    else if decide (t = S_IFCHR) then Z.lor m (Z.lor ModeDevice ModeCharDevice)
    else if decide (t = S_IFSOCK) then Z.lor m ModeSocket
    else m in
  match h_type h with
  | TypeSymlink => Z.lor m ModeSymlink
  | TypeChar => Z.lor m (Z.lor ModeDevice ModeCharDevice)
  | TypeBlock => Z.lor m ModeDevice
  | TypeDir => Z.lor m ModeDir
  | TypeFifo => Z.lor m ModeNamedPipe
  | TypeReg | TypeOther => m
  end.

Definition header_base (h : Header) : bytes :=
  if IsDir (header_mode h) then Base (Clean (h_name h)) else Base (h_name h).

(** ** TarWriter *)

Definition tar_CreateDir (n : NodeAttrs) : TarArchive -> option error * TarArchive :=
  WriteHeader (mkTarHeader TypeDir (Name n) [] (UID n) (GID n) (Mode n) 0 (MTime n) (nXattrs n) 0 0 true).

Definition tar_CreateFile (n : NodeAttrs) (size : Z) (data : Source) (a : TarArchive) : nat * option error * TarArchive :=
  match WriteHeader (mkTarHeader TypeReg (Name n) [] (UID n) (GID n) (Mode n) (i64 size) (MTime n) (nXattrs n) 0 0 true) a with
  | (Some e, a) => (0%nat, Some e, a)
  | (None, a) => CopyData data a
  end.

Definition tar_CreateSymlink (n : NodeAttrs) (target : bytes) : TarArchive -> option error * TarArchive :=
  WriteHeader (mkTarHeader TypeSymlink (Name n) target (UID n) (GID n) (Mode n) 0 (MTime n) (nXattrs n) 0 0 true).

Definition modeChar : Z := 0x4000.

Definition tar_CreateDevice (n : NodeAttrs) (major minor : Z) : TarArchive -> option error * TarArchive :=
  let typ := if has (Mode n) modeChar then TypeChar else TypeBlock in
  WriteHeader (mkTarHeader typ (Name n) [] (UID n) (GID n) (Mode n) 0 (MTime n) (nXattrs n) (i64 major) (i64 minor) false).

#[export] Instance TarWriter : FilesystemWriter TarArchive := {|
  CreateDir := tar_CreateDir;
  CreateFile := tar_CreateFile;
  CreateSymlink := tar_CreateSymlink;
  CreateDevice := tar_CreateDevice
|}.

(** Close fails when the last entry is not complete. *)
Definition tar_Close (a : TarArchive) : option error :=
  if complete_entry a then None else Some (Errorf "archive/tar: missed writing").

(** ** TarReader *)

(** The entries to come, the error after them, and the root to be handed out first. *)
Record TarReader := mkTarReader { tr_entries : list (Header * Source); tr_end : error; tr_root : option File }.

Definition root_file : File :=
  mkFile dot dot (Z.lor ModeDir 493) 0 [] 0 0 0 0 0 ∅ ([], None).

Definition NewTarReader (entries : list (Header * Source)) (end_ : error) (AddRoot : bool) : TarReader :=
  mkTarReader entries end_ (if AddRoot then Some root_file else None).

Definition file_of_header (h : Header) (data : Source) : File :=
  mkFile (header_base h) (Clean (h_name h)) (header_mode h) (u64 (h_size h)) (h_linkname h) (h_mtime h)
    (h_uid h) (h_gid h) (u64 (h_major h)) (u64 (h_minor h)) (h_xattrs h) data.

Definition tar_Next (fs : TarReader) : (error + File) * TarReader :=
  match tr_root fs with
  | Some f => (inr f, mkTarReader (tr_entries fs) (tr_end fs) None)
  | None =>
    match tr_entries fs with
    | [] => (inl (tr_end fs), fs)
    | (h, data) :: rest => (inr (file_of_header h data), mkTarReader rest (tr_end fs) None)
    end
  end.

(** All the files, as Tar asks for them one after the other. *)
Fixpoint all_files (fuel : nat) (fs : TarReader) : list File * error :=
  match fuel with
  | O => ([], tr_end fs)
  | S fuel =>
    match tar_Next fs with
    | (inr f, fs) => let '(l, e) := all_files fuel fs in (f :: l, e)
    | (inl e, _) => ([], e)
    end
  end.

(** ** Modes in a tar archive *)

(** What is left of a mode: the permissions and the type, devices being block devices. *)
Definition tar_mode (m : Z) : Z :=
  Z.lor (Z.land m ModePerm)
    (if IsDir m then ModeDir else if IsRegular m then 0 else if IsSymlink m then ModeSymlink else ModeDevice).

Definition tar_type (m : Z) : Typeflag :=
  if IsDir m then TypeDir else if IsRegular m then TypeReg else if IsSymlink m then TypeSymlink else TypeBlock.

Definition header_with (t : Typeflag) (m : Z) : Header := mkTarHeader t [] [] 0 0 m 0 0 ∅ 0 0 true.

Definition tar_mode_ok (x : Z) : bool :=
  let m := StatModeToFilemode x in
  negb (valid_stat_mode x) ||
  negb (IsDir m || IsRegular m || IsSymlink m || IsDevice m) ||
  (bool_decide (header_mode (header_with (tar_type m) m) = tar_mode m) && valid_filemode (tar_mode m) &&
   negb (has m modeChar) && eqb (IsDir (tar_mode m)) (IsDir m) && eqb (IsRegular (tar_mode m)) (IsRegular m) &&
   eqb (IsSymlink (tar_mode m)) (IsSymlink m) &&
   (IsDir (tar_mode m) || IsRegular (tar_mode m) || IsSymlink (tar_mode m) || IsDevice (tar_mode m))).

Lemma tar_mode_all : all_from tar_mode_ok (Z.to_nat (2 ^ 16)) 0 = true.
Proof. vm_compute. reflexivity. Qed.

Lemma tar_mode_facts f : supported f = true -> valid_filemode (fMode f) = true ->
  let m := fMode f in
  (forall h, h_type h = tar_type m -> h_mode h = m -> header_mode h = tar_mode m) /\
  valid_filemode (tar_mode m) = true /\ has m modeChar = false /\
  IsDir (tar_mode m) = IsDir m /\ IsRegular (tar_mode m) = IsRegular m /\ IsSymlink (tar_mode m) = IsSymlink m /\
  (IsDir (tar_mode m) || IsRegular (tar_mode m) || IsSymlink (tar_mode m) || IsDevice (tar_mode m)) = true.
Proof.
  intros Hs Hv. unfold valid_filemode in Hv. apply andb_true_iff in Hv as [Hm Hst]. apply bool_decide_eq_true in Hm.
  cbv zeta. unfold supported in Hs. set (x := FilemodeToStatMode (fMode f)) in *.
  assert (0 <= x < 2 ^ 16) as Hr by (unfold valid_stat_mode in Hst; apply andb_true_iff in Hst as [Hst _]; by apply bool_decide_eq_true in Hst).
  pose proof (all_from_spec _ _ _ x tar_mode_all ltac:(lia)) as Hok. unfold tar_mode_ok in Hok. cbv zeta in Hok.
  rewrite Hm, Hst, Hs in Hok. cbn [negb orb] in Hok.
  rewrite !andb_true_iff, !eqb_true_iff, bool_decide_eq_true, negb_true_iff in Hok.
  destruct Hok as ((((((H1 & H2) & H3) & H4) & H5) & H6) & H7). split_and!; try done.
  intros h Ht Hmode. rewrite <- H1. unfold header_mode. cbn [h_mode h_type header_with]. by rewrite Ht, Hmode.
Qed.

Lemma IsRegular_not_dir m : IsRegular m = true -> IsDir m = false.
Proof.
  unfold IsRegular, IsDir, has. intros Hr%bool_decide_eq_true. apply negb_false_iff, bool_decide_eq_true.
  assert (ModeDir = Z.land ModeType ModeDir) as -> by (by vm_compute). by rewrite Z.land_assoc, Hr, Z.land_0_l.
Qed.

(** ** From nodes to entries and back *)

Section round_trip.

(** The time read back for a header: the format holds seconds only. *)
Context (read_time : Header -> Z) (read_time_ok : forall h, is_i64 (read_time h)).

Definition data_of (f : File) : bytes := if IsRegular (fMode f) && negb (IsDir (fMode f)) then fst (fData f) else [].

Definition header_of (n : bytes) (f : File) : Header :=
  let t := tar_type (fMode f) in
  mkTarHeader t n (match t with TypeSymlink => LinkTarget f | _ => [] end) (Uid f) (Gid f) (fMode f)
    (match t with TypeReg => i64 (fSize f) | _ => 0 end) (ModTime f) (fXattrs f)
    (match t with TypeBlock => i64 (DevMajor f) | _ => 0 end) (match t with TypeBlock => i64 (DevMinor f) | _ => 0 end)
    (match t with TypeBlock => false | _ => true end).

Definition entry_of_node (nf : bytes * File) : Header * bytes := (header_of (fst nf) (snd nf), data_of (snd nf)).

Definition reread (e : Header * bytes) : Header * Source :=
  let h := fst e in
  (mkTarHeader (h_type h) (h_name h) (h_linkname h) (h_uid h) (h_gid h) (h_mode h) (h_size h) (read_time h) (h_xattrs h)
     (h_major h) (h_minor h) (h_gnu h), (snd e, None)).

(** The file a node comes back as. *)
Definition back (n : bytes) (f : File) : File :=
  let '(h, data) := reread (entry_of_node (n, f)) in file_of_header h data.

(** A node that a tar archive can hold. *)
Definition tarable (nf : bytes * File) : Prop :=
  supported (snd nf) = true /\ file_ok (snd nf) /\ fXattrs (snd nf) = ∅ /\
  (IsRegular (fMode (snd nf)) = true -> fSize (snd nf) < 2 ^ 63).

Lemma entry_complete nf a : tarable nf -> complete_entry (entry_of_node nf :: a) = true.
Proof using Type.
  destruct nf as [n f]. intros (Hs & Hf & _ & Hsz). cbn [snd] in *. unfold complete_entry, entry_of_node, data_of, announced.
  cbn [fst snd h_type header_of h_size]. unfold tar_type.
  destruct (IsDir (fMode f)) eqn:Ed; [by rewrite andb_false_r|].
  destruct (IsRegular (fMode f)) eqn:Er; [|by destruct (IsSymlink (fMode f))].
  destruct (ok_data f Hf Er) as [E _]. specialize (Hsz eq_refl). cbn [andb negb].
  rewrite i64_small by mach_lia. by rewrite bool_decide_true.
Qed.

Lemma create_entry n f a : tarable (n, f) -> complete_entry a = true ->
  create_file n f a = (None, entry_of_node (n, f) :: a).
Proof using Type.
  intros Ht Ha. pose proof (entry_complete (n, f) a Ht) as Hc. destruct Ht as (Hs & Hf & Hx & Hsz). cbn [snd] in *.
  destruct (tar_mode_facts f Hs (ok_mode f Hf)) as (_ & _ & Hchar & _).
  unfold create_file. cbn [CreateDir CreateFile CreateSymlink CreateDevice TarWriter].
  unfold tar_CreateDir, tar_CreateFile, tar_CreateSymlink, tar_CreateDevice, WriteHeader.
  cbn [Name UID GID Mode MTime nXattrs h_gnu h_xattrs]. rewrite Ha, Hx, Hchar, bool_decide_true by done. cbn [negb andb].
  unfold entry_of_node, header_of, data_of, tar_type in *. cbn [fst snd] in *. rewrite Hx.
  destruct (IsDir (fMode f)) eqn:Ed; [by rewrite andb_false_r|].
  destruct (IsRegular (fMode f)) eqn:Er.
  - destruct (ok_data f Hf Er) as [E E2]. specialize (Hsz eq_refl). cbn [CopyData announced h_type h_size length fst snd andb negb].
    rewrite i64_small by mach_lia. rewrite decide_True by lia. done.
  - by destruct (IsSymlink (fMode f)).
Qed.

Lemma create_entries l : Forall tarable l -> forall a, complete_entry a = true ->
  create_all l a = (None, rev (map entry_of_node l) ++ a) /\
  complete_entry (rev (map entry_of_node l) ++ a) = true.
Proof using Type.
  induction 1 as [|[n f] l Hnf _ IH]; intros a Ha; [done|]. cbn [create_all map rev].
  rewrite create_entry by done. rewrite <- app_assoc. apply IH. by apply entry_complete.
Qed.

Lemma all_files_entries es e fuel : (length es < fuel)%nat ->
  all_files fuel (mkTarReader es e None) = (map (fun h => file_of_header (fst h) (snd h)) es, e).
Proof using Type.
  revert fuel. induction es as [|[h d] es IH]; intros [|fuel] Hf; cbn [length] in Hf; try lia; [done|].
  cbn [all_files tar_Next tr_root tr_entries tr_end map]. by rewrite IH by lia.
Qed.

Lemma back_files l : map (fun h => file_of_header (fst h) (snd h)) (map reread (map entry_of_node l)) =
  map (fun nf => back (fst nf) (snd nf)) l.
Proof using Type. rewrite !map_map. apply map_ext. by intros [n f]. Qed.

(** What a node comes back with. *)
Record came_back (f g : File) : Prop := {
  cb_mode : fMode g = tar_mode (fMode f);
  cb_owner : Uid g = Uid f /\ Gid g = Gid f;
  cb_data : IsRegular (fMode f) = true -> IsDir (fMode f) = false -> fSize g = fSize f /\ fData g = fData f;
  cb_target : IsSymlink (fMode f) = true -> IsDir (fMode f) = false -> IsRegular (fMode f) = false -> LinkTarget g = LinkTarget f;
  cb_device : tar_type (fMode f) = TypeBlock -> DevMajor g = DevMajor f /\ DevMinor g = DevMinor f
}.

Lemma u64_i64_id x : is_u64 x -> u64 (i64 x) = x.
Proof. intros Hx. rewrite u64_i64. by apply u64_small. Qed.

Lemma back_came n f : tarable (n, f) -> came_back f (back n f).
Proof using Type.
  intros (Hs & Hf & Hx & Hsz). cbn [snd] in *. destruct (tar_mode_facts f Hs (ok_mode f Hf)) as (Hmode & _).
  unfold back, reread, entry_of_node, header_of, file_of_header. cbn [fst snd].
  split; cbn [fMode Uid Gid fSize fData LinkTarget DevMajor DevMinor h_size h_linkname h_major h_minor h_type h_mode].
  - by apply Hmode.
  - done.
  - intros Hr Hd. destruct (ok_data f Hf Hr) as [E E2]. specialize (Hsz Hr). unfold tar_type, data_of. rewrite Hd, Hr.
    cbn [andb negb]. split; [rewrite u64_i64_id by mach_lia; done|]. destruct (fData f) as [b e]. cbn in *. by subst.
  - intros Hl Hd Hr. unfold tar_type. by rewrite Hd, Hr, Hl.
  - intros ->. split; apply u64_i64_id; apply Hf.
Qed.

Lemma back_ok n f : tarable (n, f) -> file_ok (back n f) /\ supported (back n f) = true /\
  IsDir (fMode (back n f)) = IsDir (fMode f) /\ IsRegular (fMode (back n f)) = IsRegular (fMode f).
Proof using read_time_ok.
  intros Ht. pose proof (back_came n f Ht) as [Cm [Cu Cg] Cd _ _]. destruct Ht as (Hs & Hf & Hx & Hsz). cbn [snd] in *.
  destruct (tar_mode_facts f Hs (ok_mode f Hf)) as (Hmode & Hv & _ & Hd & Hr & Hl & Hsup).
  rewrite Cm. unfold supported. rewrite Cm. split_and!; [|done|done|done]. split.
  - by rewrite Cm.
  - rewrite Cu. apply Hf.
  - rewrite Cg. apply Hf.
  - apply read_time_ok.
  - apply u64_range.
  - apply u64_range.
  - unfold back, reread, entry_of_node, header_of, file_of_header. cbn [fst snd fXattrs h_xattrs].
    rewrite Hx, map_to_list_empty. constructor.
  - rewrite Cm, Hr. intros Hreg. destruct (IsDir (fMode f)) eqn:Ed.
    + rewrite IsRegular_not_dir in Ed by done. done.
    + destruct (Cd Hreg eq_refl) as [-> ->]. by apply Hf.
Qed.

(** The tree of the files that come back; what a tar archive does not hold is left out. *)
Fixpoint retar (st : list bytes) (t : Tree) : Tree :=
  match t with
  | TNode f l =>
    TNode (back (render false st) f)
      (concat (map (fun c => if supported (tfile c) then [retar (st ++ [base c]) c] else []) l))
  end.

Lemma walk_retar t : forall st, supported (tfile t) = true ->
  walk (retar st t) = map (fun nf => back (fst nf) (snd nf)) (nodes st t).
Proof using Type.
  induction t as [f l IH] using tree_rect_list. intros st Hs. cbn [tfile] in Hs. cbn [retar walk nodes]. rewrite Hs.
  cbn [map fst snd]. f_equal. rewrite concat_map, !map_map. induction IH as [|c l Hc _ IHl]; [done|].
  cbn [map concat]. destruct (supported (tfile c)) eqn:Ec.
  - cbn [app map concat]. rewrite Hc, map_app by done. f_equal. exact IHl.
  - destruct c as [g m]. cbn [tfile nodes] in *. rewrite Ec. exact IHl.
Qed.

Lemma tfile_retar st t : tfile (retar st t) = back (render false st) (tfile t).
Proof using Type. by destruct t. Qed.

Lemma Base_render st c : normal false st -> valid_name c -> Base (render false (st ++ [c])) = c.
Proof.
  intros Hn Hc. unfold render. rewrite decide_False by (by destruct st).
  destruct (decide (st = [])) as [->|Hst]; [by apply Base_name|].
  assert (join_slash (st ++ [c]) = join_slash st ++ slash :: c) as ->.
  { clear Hn. induction st as [|a st IH]; [done|]. destruct st as [|b st]; [done|].
    change (join_slash ((a :: b :: st) ++ [c])) with (a ++ slash :: join_slash ((b :: st) ++ [c])).
    rewrite IH by done. cbn [join_slash]. by rewrite <- app_assoc. }
  by apply Base_last.
Qed.

Lemma base_retar st c t : normal false (st ++ [c]) -> normal false st -> valid_name c -> base (retar (st ++ [c]) t) = c.
Proof using Type.
  intros Hn' Hn Hc. unfold base. rewrite tfile_retar. unfold back, reread, entry_of_node, file_of_header, header_base.
  cbn [fst snd fName header_of h_name]. rewrite Clean_render by done. destruct (IsDir _); rewrite Base_render by done; by apply Base_name.
Qed.

(** Only directories have items. *)
Lemma nodes_tarable_items st f l : supported f = true -> Forall tarable (nodes st (TNode f l)) ->
  tarable (render false st, f) /\
  Forall (fun c => Forall tarable (nodes (st ++ [base c]) c)) l.
Proof using Type.
  intros Hs. cbn [nodes]. rewrite Hs. rewrite Forall_cons. intros [H1 H2]. split; [done|].
  rewrite Forall_concat, Forall_map in H2. exact H2.
Qed.

Lemma retar_ok r t : forall pst st, supported (tfile t) = true -> tree_ok r pst t -> normal false st ->
  Forall tarable (nodes st t) -> tree_ok false st (retar st t).
Proof using read_time_ok.
  induction t as [f l IH] using tree_rect_list. intros pst st Hs Hok Hn Hnodes. cbn [tfile] in Hs.
  inversion_clear Hok as [? ? ? _ Hf Hd Hl]. apply nodes_tarable_items in Hnodes as [Hnf Hitems]; [|done].
  destruct (back_ok _ f Hnf) as (Hbf & _ & Hbd & _). cbn [retar]. apply tree_ok_intro.
  - unfold back, reread, entry_of_node, file_of_header. cbn [fst snd fPath header_of h_name]. by apply Clean_render.
  - done.
  - rewrite Hbd. intros E. by rewrite (Hd E).
  - apply Forall_concat, Forall_map. rewrite Forall_forall in IH, Hl, Hitems. apply Forall_forall. intros c Hc.
    destruct (Hl c Hc) as [Hv Hc']. destruct (supported (tfile c)) eqn:Ec; [|constructor]. constructor; [|constructor].
    assert (Hn' : normal false (st ++ [base c])) by (by apply normal_snoc).
    rewrite base_retar by done. split; [done|]. by apply (IH c Hc (pst ++ [base c])); [| | |apply Hitems].
Qed.

Lemma nodes_retar r t : forall pst st, supported (tfile t) = true -> tree_ok r pst t -> normal false st ->
  Forall tarable (nodes st t) ->
  nodes st (retar st t) = map (fun nf => (fst nf, back (fst nf) (snd nf))) (nodes st t).
Proof using read_time_ok.
  induction t as [f l IH] using tree_rect_list. intros pst st Hs Hok Hn Hnodes. cbn [tfile] in Hs.
  inversion_clear Hok as [? ? ? _ Hf Hd Hl]. apply nodes_tarable_items in Hnodes as [Hnf Hitems]; [|done].
  destruct (back_ok _ f Hnf) as (_ & Hbs & _). cbn [retar nodes]. rewrite Hs, Hbs. cbn [map fst snd]. f_equal.
  rewrite concat_map, !map_map. clear Hd Hnf Hbs Hf. induction IH as [|c l Hc _ IHl]; [done|].
  apply Forall_cons in Hl as [[Hv Hc'] Hl]. apply Forall_cons in Hitems as [Hi Hitems].
  cbn [map concat]. rewrite map_app, concat_app. destruct (supported (tfile c)) eqn:Ec.
  - cbn [app map concat]. rewrite app_nil_r. assert (Hn' : normal false (st ++ [base c])) by (by apply normal_snoc).
    change (Base (fName (tfile (retar (st ++ [base c]) c)))) with (base (retar (st ++ [base c]) c)).
    rewrite base_retar by done. rewrite (Hc (pst ++ [base c])) by done. f_equal. by apply IHl.
  - destruct c as [g m]. cbn [tfile nodes] in *. rewrite Ec. by apply IHl.
Qed.

End round_trip.

(** ** Examples *)

Definition ex_plain (path name : string) (mode : Z) (data link : string) : File :=
  mkFile (str name) (str path) mode (Z.of_nat (length (str data))) (str link) 1500000000 0 1000 8 1 ∅ (str data, None).

Definition ex_tar_tree : Tree :=
  TNode (ex_plain "/src" "src" (Z.lor ModeDir 493) "" "")
    [TNode (ex_plain "/src/a" "a" (Z.lor ModeSetuid 420) "hello" "") [];
     TNode (ex_plain "/src/l" "l" (Z.lor ModeSymlink 511) "" "../a") [];
     TNode (ex_plain "/src/s" "s" (Z.lor ModeSocket 511) "" "") [];
     TNode (ex_plain "/src/z" "z" (Z.lor (Z.lor ModeDevice ModeCharDevice) 438) "" "") []].

Lemma ex_plain_ok path name mode data link : valid_filemode mode = true -> file_ok (ex_plain path name mode data link).
Proof.
  intros Hm. constructor.
  all: cbn [fMode Uid Gid ModTime DevMajor DevMinor fXattrs fSize fData ex_plain fst snd].
  all: try exact Hm.
  all: try (intros _; done).
  all: refine (bool_decide_unpack _ _); by vm_compute.
Qed.

Lemma ex_tar_tree_ok : tree_ok true [str "src"] ex_tar_tree.
Proof.
  unfold ex_tar_tree.
  repeat (apply tree_ok_intro; [by vm_compute|intros _; apply ex_plain_ok; by vm_compute|by intros|];
    repeat (apply Forall_cons_2; [split; [refine (bool_decide_unpack _ _); by vm_compute|]|]); try apply Forall_nil_2).
Qed.

Definition ex_read_time (h : Header) : Z := i64 (1000000000 * (h_mtime h / 1000000000)).

Lemma ex_tarable : Forall tarable (nodes [] ex_tar_tree).
Proof.
  cbn [nodes ex_tar_tree]. repeat (match goal with |- context [if supported ?f then _ else _] =>
    let b := eval vm_compute in (supported f) in change (supported f) with b; cbn iota end).
  cbn [map concat app].
  repeat (apply Forall_cons_2; [unfold tarable; cbn [snd]; split_and!; [by vm_compute|apply ex_plain_ok; by vm_compute|done|intros _; by vm_compute]|]).
  apply Forall_nil_2.
Qed.

Definition ex_back_log : list Created :=
  [Dir_ (str "."); File_ (str "a") 5 (str "hello"); Symlink_ (str "l") (str "../a"); Device_ (str "z") 8 1].

(** The second archive. *)
Definition ex_again : outcome (Z * option error) :=
  let a := snd (UnTar ErrEOF never (ex_bytes (walk ex_tar_tree)) ([] : TarArchive)) in
  let '(files, e) := all_files (S (length a)) (NewTarReader (map (reread ex_read_time) (rev a)) ErrEOF false) in
  fst (Tar ex_hash never e ex_archive files).


