(* ===== verification/Http.v ===== *)
(** * Http: chunks over HTTP (httphandler.go, httphandlerbase.go, remotehttp.go)

    [ServeHTTP] is the handler of a chunk server over any store, a function from requests to
    responses. The client asks a server through a network that may lose a request, lose its
    answer, or answer for the server (a proxy), at every attempt; [net] says what happens to
    the n-th attempt of a request. The client repeats a request that fails until it runs out of
    attempts.

    The theorem composes the two: a client of a handler is a store with the same chunks as the
    store behind the handler, as long as of the attempts for each request one gets through. *)

From S2P Require Import Prelude Format Index Chunk Names Stores LocalStore Path.

(** ** Requests and responses (net/http) *)

Inductive Method := GET | HEAD | PUT | OtherMethod.

#[global] Instance Method_eq_dec : EqDecision Method.
Proof. solve_decision. Defined.

(** The path of the URL, the Authorization header, and the body with the error of reading it. *)
Record Request := mkRequest { rMethod : Method; rPath : bytes; rAuth : bytes; rBody : bytes * option error }.

Record Response := mkResponse { code : Z; rText : bytes }.

Definition StatusOK : Z := 200.
Definition StatusBadRequest : Z := 400.
Definition StatusUnauthorized : Z := 401.
Definition StatusNotFound : Z := 404.
Definition StatusMethodNotAllowed : Z := 405.
Definition StatusInternalServerError : Z := 500.

(** The texts of error messages are not modelled. *)
Definition message : bytes := str "error".

Definition respond (c : Z) : Response := mkResponse c message.

(** ** The handler *)

Record HTTPHandlerBase := mkHandlerBase { writable : bool; authorization : bytes }.

Record HTTPHandler := mkHandler {
  hbase : HTTPHandlerBase;
  SkipVerifyWrite : bool;
  hconverters : Converters;
  compressed : bool
}.

Definition NewHTTPHandler (writable skipVerifyWrite : bool) (cs : Converters) (auth : bytes) : HTTPHandler :=
  mkHandler (mkHandlerBase writable auth) skipVerifyWrite cs (hasCompression cs).

(** HTTPHandlerBase.get: the type switch does not look through wrapped errors. *)
Definition base_get (r : outcome bytes) : outcome Response :=
  match r with
  | Ok b => Ok (mkResponse StatusOK b)
  | Err (ChunkMissing _) | Err (NoSuchObject _) => Ok (respond StatusNotFound)
  | Err _ => Ok (respond StatusInternalServerError)
  | Panic => Panic
  | NoFuel => NoFuel
  end.

Definition validateWritable (h : HTTPHandlerBase) : option Response :=
  if writable h then None else Some (respond StatusBadRequest).

Definition idFromPath (h : HTTPHandler) (p : bytes) : outcome ChunkID :=
  if negb (compressed h) && HasSuffix p CompressedChunkExt then
    Err (Errorf "compressed chunk requested from http chunk store serving uncompressed chunks")
  else
    let ext := if compressed h then CompressedChunkExt else UncompressedChunkExt in
    let sID := TrimSuffix (Path.Base p) ext in
    if decide (length sID < 4)%nat then Err (Errorf "expected format")
    else if decide (p <> JoinAll [[slash]; take 4 sID; sID ++ ext]) then Err (Errorf "expected format")
    else ChunkIDFromString sID.

Section server.

Context `{Codec} {W : Type} (s : Store W) (h : HTTPHandler).

Definition handler_get (i : ChunkID) (w : W) : outcome Response * W :=
  match sGetChunk s i w with
  | ((_, Some e), w) => (base_get (Err e), w)
  | ((Some chunk, None), w) => (base_get (fst (Storage chunk (hconverters h))), w)
  | ((None, None), w) => (Panic, w)
  end.

Definition handler_head (i : ChunkID) (w : W) : outcome Response * W :=
  match sHasChunk s i w with
  | ((_, Some _), w) => (Ok (respond StatusInternalServerError), w)
  | ((true, None), w) => (Ok (mkResponse StatusOK []), w)
  | ((false, None), w) => (Ok (mkResponse StatusNotFound []), w)
  end.

Definition handler_put (i : ChunkID) (r : Request) (w : W) : outcome Response * W :=
  match validateWritable (hbase h) with
  | Some resp => (Ok resp, w)
  | None =>
    match sStoreChunk s with
    | None => (Ok (respond StatusBadRequest), w)
    | Some store =>
      match rBody r with
      | (_, Some _) => (Ok (respond StatusInternalServerError), w)
      | (b, None) =>
        match NewChunkFromStorage i b (hconverters h) (SkipVerifyWrite h) with
        | Ok chunk =>
          match store chunk w with
          | (Some _, w) => (Ok (respond StatusInternalServerError), w)
          | (None, w) => (Ok (mkResponse StatusOK []), w)
          end
        | Err _ => (Ok (respond StatusBadRequest), w)
        | Panic => (Panic, w)
        | NoFuel => (NoFuel, w)
        end
      end
    end
  end.

Definition ServeHTTP (r : Request) (w : W) : outcome Response * W :=
  if negb (bool_decide (authorization (hbase h) = [])) && negb (bool_decide (rAuth r = authorization (hbase h)))
  then (Ok (respond StatusUnauthorized), w)
  else
    match idFromPath h (rPath r) with
    | Ok i =>
      match rMethod r with
      | GET => handler_get i w
      | HEAD => handler_head i w
      | PUT => handler_put i r w
      | OtherMethod => (Ok (respond StatusMethodNotAllowed), w)
      end
    | Err _ => (Ok (respond StatusBadRequest), w)
    | Panic => (Panic, w)
    | NoFuel => (NoFuel, w)
    end.

End server.

(** ** The client *)

(** What the network does with one attempt of a request. *)
Inductive Delivery :=
| Delivered
| Lost (e : error)                     (* the server does not see it *)
| NoReply (e : error)                  (* it is served, but the answer is lost *)
| Replied (c : Z) (b : bytes).         (* answered by somebody else *)

Record RemoteHTTPBase := mkRemote { location : bytes; ropt : StoreOptions; HTTPAuth : bytes }.

(** The path of the location ends with a slash. *)
Definition NewRemoteHTTPStoreBase (scheme path : bytes) (opt : StoreOptions) (auth : bytes) : outcome RemoteHTTPBase :=
  if negb (bool_decide (scheme = str "http")) && negb (bool_decide (scheme = str "https")) then
    Err (Errorf "unsupported scheme")
  else Ok (mkRemote (if HasSuffix path (str "/") then path else path ++ str "/") opt auth).

Definition remote_nameFromID (r : RemoteHTTPBase) (i : ChunkID) : bytes :=
  let sID := String_ i in
  let name := JoinAll [take 4 sID; sID] in
  if Uncompressed (ropt r) then name ++ UncompressedChunkExt else name ++ CompressedChunkExt.

Section client.

Context `{Codec} {W : Type} (serve : Request -> W -> outcome Response * W)
  (net : Request -> nat -> Delivery) (r : RemoteHTTPBase).

(** A single request; a server that panics closes the connection, and the answer to HEAD has no
    body. *)
Definition IssueHttpRequest (req : Request) (attempt : nat) (w : W) : (Z * bytes * option error) * W :=
  match net req attempt with
  | Lost e => ((0, [], Some (Wrapped e "url")), w)
  | NoReply e => ((0, [], Some (Wrapped e "url")), snd (serve req w))
  | Replied c b => ((c, b, None), w)
  | Delivered =>
    match serve req w with
    | (Ok resp, w) => ((code resp, if decide (rMethod req = HEAD) then [] else rText resp, None), w)
    | (_, w) => ((0, [], Some (Wrapped ErrEOF "url")), w)
    end
  end.

Definition retryable (statusCode : Z) (err : option error) : bool :=
  match err with Some _ => true | None => bool_decide (500 <= statusCode < 600) end.

(** The attempts from [attempt] on, of which [more] may follow: attempt >= ErrorRetry when
    none is left. Giving up on a status code leaves no error. *)
Fixpoint retry (more attempt : nat) (req : Request) (w : W) : (Z * bytes * option error) * W :=
  let '((statusCode, responseBody, err), w) := IssueHttpRequest req attempt w in
  if retryable statusCode err then
    match more with
    | O => ((0, [], err), w)
    | S more => retry more (S attempt) req w
    end
  else ((statusCode, responseBody, None), w).

Definition IssueRetryableHttpRequest (req : Request) (w : W) : (Z * bytes * option error) * W :=
  retry (Z.to_nat (ErrorRetry (ropt r) - 1)) 1 req w.

Definition request (m : Method) (name : bytes) (body : bytes) : Request :=
  mkRequest m (location r ++ name) (HTTPAuth r) (body, None).

Definition GetObject (name : bytes) (w : W) : outcome bytes * W :=
  match IssueRetryableHttpRequest (request GET name []) w with
  | ((_, _, Some err), w) => (Err err, w)
  | ((statusCode, responseBody, None), w) =>
    if decide (statusCode = 200) then (Ok responseBody, w)
    else if decide (statusCode = 404) then (Err (NoSuchObject name), w)
    else (Err (Errorf "unexpected status code"), w)
  end.

Definition StoreObject (name b : bytes) (w : W) : option error * W :=
  match IssueRetryableHttpRequest (request PUT name b) w with
  | ((_, _, Some err), w) => (Some err, w)
  | ((statusCode, _, None), w) =>
    if decide (statusCode <> 200 /\ statusCode <> 201) then (Some (Errorf "response"), w) else (None, w)
  end.

Definition remote_GetChunk (i : ChunkID) (w : W) : GetResult * W :=
  match GetObject (remote_nameFromID r i) w with
  | (Err (NoSuchObject _), w) => ((None, Some (ChunkMissing i)), w)
  | (Err err, w) => ((None, Some err), w)
  | (Ok b, w) =>
    match NewChunkFromStorage i b (opt_converters (ropt r)) (SkipVerify (ropt r)) with
    | Ok c => ((Some c, None), w)
    | Err e => ((None, Some e), w)
    | _ => ((None, None), w)
    end
  | (_, w) => ((None, None), w)
  end.

Definition remote_HasChunk (i : ChunkID) (w : W) : (bool * option error) * W :=
  match IssueRetryableHttpRequest (request HEAD (remote_nameFromID r i) []) w with
  | ((_, _, Some err), w) => ((false, Some err), w)
  | ((statusCode, _, None), w) =>
    if decide (statusCode = 200) then ((true, None), w)
    else if decide (statusCode = 404) then ((false, None), w)
    else ((false, Some (Errorf "unexpected status code")), w)
  end.

Definition remote_StoreChunk (c : Chunk) (w : W) : option error * W :=
  match fst (Storage c (opt_converters (ropt r))) with
  | Ok b => StoreObject (remote_nameFromID r (chunk_id c)) b w
  | Err e => (Some e, w)
  | _ => (Some (Errorf "panic"), w)
  end.

Definition RemoteHTTP : Store W :=
  mkStore remote_GetChunk remote_HasChunk (Some remote_StoreChunk) (fun w => (None, w)) (location r).

End client.

(** ** Names *)

Lemma hex_digits_all b : forallb (fun x => bool_decide (x ∈ hex_digits)) (hex_encode_byte b) = true.
Proof. destruct b; vm_compute; reflexivity. Qed.

Lemma EncodeToString_hex b x : x ∈ EncodeToString b -> x ∈ hex_digits.
Proof.
  unfold EncodeToString. induction b as [|c b IH]; cbn [map concat].
  - intros H. by apply elem_of_nil in H.
  - intros [H|H]%elem_of_app; [|by apply IH].
    pose proof (hex_digits_all c) as Hc. rewrite forallb_forall in Hc.
    apply list_elem_of_In in H. apply Hc in H. by apply bool_decide_eq_true in H.
Qed.

Lemma valid_name_long c : (slash ∉ c) -> (2 < length c)%nat -> valid_name c.
Proof. intros Hs Hl. split_and!; [..|done| |]; intros ->; cbn in Hl; lia. Qed.

Lemma length_String i : length i = 32%nat -> length (String_ i) = 64%nat.
Proof. intros Hi. unfold String_. rewrite length_EncodeToString, Hi. done. Qed.

Lemma valid_String i : length i = 32%nat -> valid_name (String_ i) /\ valid_name (take 4 (String_ i)).
Proof.
  intros Hi. pose proof (length_String i Hi) as Hl. pose proof (EncodeToString_no_slash i) as Hs. split.
  - apply valid_name_long; [done|lia].
  - apply valid_name_long; [|rewrite length_take; lia]. intros H. apply Hs. by eapply elem_of_take_sub.
Qed.

Lemma valid_String_ext i u : length i = 32%nat -> valid_name (String_ i ++ chunk_ext u).
Proof.
  intros Hi. pose proof (length_String i Hi). apply valid_name_long; [|rewrite length_app; lia].
  rewrite not_elem_of_app. split; [apply EncodeToString_no_slash|].
  destruct u; apply (bool_decide_unpack _); by vm_compute.
Qed.

Lemma remote_name r i : length i = 32%nat ->
  remote_nameFromID r i = take 4 (String_ i) ++ slash :: String_ i ++ chunk_ext (Uncompressed (ropt r)).
Proof.
  intros Hi. destruct (valid_String i Hi) as [H1 H2]. unfold remote_nameFromID, chunk_ext.
  rewrite JoinAll_pair by done. destruct (Uncompressed (ropt r)); by rewrite <- app_assoc.
Qed.

(** Nothing ends with the extension of compressed chunks that ends with a digit. *)
Lemma no_ext p i : i <> [] -> HasSuffix (p ++ String_ i) CompressedChunkExt = false.
Proof.
  intros Hi. unfold HasSuffix. apply andb_false_iff. left. apply bool_decide_eq_false. intros E.
  destruct i as [|b i _] using rev_ind; [done|].
  assert (String_ (i ++ [b]) = EncodeToString i ++ hex_encode_byte b) as Es.
  { unfold String_, EncodeToString. rewrite map_app, concat_app. cbn. by rewrite ?app_nil_r. }
  set (t := p ++ String_ (i ++ [b])) in *.
  assert (last t = last (take (length t - length CompressedChunkExt) t ++ CompressedChunkExt)) as El
    by (rewrite <- E at 2; by rewrite take_drop).
  change CompressedChunkExt with (str ".cacn" ++ [Byte.x6b]) in El.
  rewrite app_assoc, last_snoc in El. subst t. rewrite Es in El.
  change (hex_encode_byte b) with ([hex_digit (Z.shiftr (byte.unsigned b) 4)] ++ [hex_digit (Z.land (byte.unsigned b) 15)]) in El.
  rewrite !app_assoc, last_snoc in El. injection El as El.
  pose proof (hex_digits_all b) as Hb. unfold hex_encode_byte in Hb. cbn [forallb] in Hb.
  rewrite El in Hb. apply andb_true_iff in Hb as [_ Hb]. by vm_compute in Hb.
Qed.

Lemma idFromPath_name h r i : length i = 32%nat -> compressed h = negb (Uncompressed (ropt r)) ->
  idFromPath h (slash :: remote_nameFromID r i) = Ok i.
Proof.
  intros Hi Hc. rewrite remote_name by done. destruct (valid_String i Hi) as [H1 H2].
  set (u := Uncompressed (ropt r)) in *. pose proof (valid_String_ext i u Hi) as H3.
  unfold idFromPath. rewrite Hc.
  assert (negb (negb u) && HasSuffix (slash :: take 4 (String_ i) ++ slash :: String_ i ++ chunk_ext u) CompressedChunkExt = false) as ->.
  { destruct u; [|done]. cbn [negb andb chunk_ext]. unfold chunk_ext, UncompressedChunkExt. cbn [str String.list_byte_of_string].
    replace (slash :: take 4 (String_ i) ++ slash :: String_ i ++ _) with
      ((slash :: take 4 (String_ i) ++ [slash]) ++ String_ i).
    2:{ cbn. rewrite <- app_assoc. by rewrite app_nil_r. }
    apply no_ext. by intros ->. }
  replace (if negb u then CompressedChunkExt else UncompressedChunkExt) with (chunk_ext u) by (by destruct u).
  change (slash :: take 4 (String_ i) ++ slash :: String_ i ++ chunk_ext u) with
    ((slash :: take 4 (String_ i)) ++ slash :: (String_ i ++ chunk_ext u)).
  rewrite Base_last, TrimSuffix_app by done. pose proof (length_String i Hi).
  rewrite decide_False by lia. rewrite JoinAll_rooted by done.
  rewrite decide_False by tauto. by apply ChunkIDFromString_String.
Qed.

(** ** The client of a handler *)

(** Another attempt may follow. *)
Definition transient (d : Delivery) : Prop :=
  match d with
  | Lost _ | NoReply _ => True
  | Replied c _ => 500 <= c < 600
  | Delivered => False
  end.

(** Of the attempts the options allow, one gets through. *)
Definition gets_through (net : Request -> nat -> Delivery) (retries : Z) (req : Request) : Prop :=
  exists k, (1 <= k)%nat /\ Z.of_nat k <= Z.max 1 retries /\ net req k = Delivered /\
    forall j, (1 <= j < k)%nat -> transient (net req j).

(** The client and the handler agree on the storage format and the credentials, and the handler
    serves the location. *)
Record agree (h : HTTPHandler) (r : RemoteHTTPBase) : Prop := {
  agree_location : location r = [slash];
  agree_format : hconverters h = opt_converters (ropt r);
  agree_compressed : compressed h = negb (Uncompressed (ropt r));
  agree_auth : authorization (hbase h) = [] \/ authorization (hbase h) = HTTPAuth r
}.

Section attempts.

Context {W : Type} (serve : Request -> W -> outcome Response * W) (net : Request -> nat -> Delivery) (r : RemoteHTTPBase).

Context (Hnet : forall req, gets_through net (ErrorRetry (ropt r)) req).

(** Requests whose answer does not depend on the attempt, and that keep [J] and establish [K]. *)
Lemma retry_ok (J K : W -> Prop) req resp more attempt k w :
  (forall w, J w -> exists w', serve req w = (Ok resp, w') /\ J w' /\ K w') ->
  retryable (code resp) None = false -> J w ->
  (attempt <= k)%nat -> (k <= attempt + more)%nat -> net req k = Delivered ->
  (forall j, (attempt <= j < k)%nat -> transient (net req j)) ->
  exists w', retry serve net more attempt req w =
    ((code resp, if decide (rMethod req = HEAD) then [] else rText resp, None), w') /\ J w' /\ K w'.
Proof using Type.
  intros Hserve Hcode. revert attempt w. induction more as [|more IH]; intros attempt w Hw Hak Hk Hd Htr.
  - replace k with attempt in * by lia. cbn [retry]. unfold IssueHttpRequest. rewrite Hd.
    destruct (Hserve w Hw) as (w' & -> & HJ & HK). rewrite Hcode. by exists w'.
  - cbn [retry]. unfold IssueHttpRequest. destruct (decide (attempt = k)) as [->|Hne].
    + rewrite Hd. destruct (Hserve w Hw) as (w' & -> & HJ & HK). rewrite Hcode. by exists w'.
    + pose proof (Htr attempt ltac:(lia)) as Ht. destruct (net req attempt) as [|e|e|c b] eqn:En; [done| | |].
      * apply IH; try done; try lia. intros j Hj. apply Htr. lia.
      * destruct (Hserve w Hw) as (w' & -> & HJ & HK). cbn [snd retryable]. apply IH; try done; try lia.
        intros j Hj. apply Htr. lia.
      * cbn in Ht. cbn [retryable]. rewrite bool_decide_true by done. apply IH; try done; try lia.
        intros j Hj. apply Htr. lia.
Qed.

Lemma issue_ok (J K : W -> Prop) req resp w :
  (forall w, J w -> exists w', serve req w = (Ok resp, w') /\ J w' /\ K w') ->
  retryable (code resp) None = false -> J w ->
  exists w', IssueRetryableHttpRequest serve net r req w =
    ((code resp, if decide (rMethod req = HEAD) then [] else rText resp, None), w') /\ J w' /\ K w'.
Proof using Hnet.
  intros Hserve Hcode Hw. destruct (Hnet req) as (k & H1 & H2 & H3 & H4).
  unfold IssueRetryableHttpRequest. apply (retry_ok J K req resp _ 1 k); try done. lia.
Qed.

(** A request the server answers without changing anything. *)
Lemma issue_same req resp w :
  serve req w = (Ok resp, w) -> retryable (code resp) None = false ->
  IssueRetryableHttpRequest serve net r req w =
    ((code resp, if decide (rMethod req = HEAD) then [] else rText resp, None), w).
Proof using Hnet.
  intros Hs Hc. destruct (issue_ok (fun x => x = w) (fun _ => True) req resp w) as (w' & E & -> & _); try done.
  intros x ->. by exists w.
Qed.

End attempts.

Section composition.

Context {W : Type} `{Codec} (inv : W -> Prop) (s : Store W) (h : HTTPHandler)
  (net : Request -> nat -> Delivery) (r : RemoteHTTPBase).

Context (Hagree : agree h r) (Hnet : forall req, gets_through net (ErrorRetry (ropt r)) req).

Abbreviation serve := (ServeHTTP s h).
Abbreviation client := (RemoteHTTP serve net r).

Lemma serve_request m i b w : length i = 32%nat ->
  serve (request r m (remote_nameFromID r i) b) w =
  match m with
  | GET => handler_get s h i w
  | HEAD => handler_head s i w
  | PUT => handler_put s h i (request r m (remote_nameFromID r i) b) w
  | OtherMethod => (Ok (respond StatusMethodNotAllowed), w)
  end.
Proof using Hagree.
  intros Hi. destruct Hagree as [Hl Hf Hc Ha]. unfold ServeHTTP, request. cbn [rPath rAuth rMethod].
  assert (negb (bool_decide (authorization (hbase h) = [])) &&
    negb (bool_decide (HTTPAuth r = authorization (hbase h))) = false) as ->.
  { destruct Ha as [-> | ->]; [done|]. by rewrite (bool_decide_true (HTTPAuth r = HTTPAuth r)), andb_false_r. }
  rewrite Hl. change ([slash] ++ remote_nameFromID r i) with (slash :: remote_nameFromID r i).
  by rewrite idFromPath_name.
Qed.

Context {A} (view : W -> ChunkID -> option bytes) (store : Chunk -> W -> option error * W) (other : W -> A)
  `{!WriteSpec inv s view store other}
  (Hne : forall w i d, inv w -> view w i = Some d -> d <> []).

Lemma client_hit i d w : length i = 32%nat -> inv w -> view w i = Some d ->
  exists c, sGetChunk client i w = ((Some c, None), w) /\ holds c i d.
Proof using Hagree Hne Hnet WriteSpec0.
  intros Hi Hw Hd. destruct (spec_hit inv i w d Hw Hd) as (c & Hc & Hh).
  pose proof (Hne w i d Hw Hd) as Hdne. destruct (Storage_ok c (hconverters h) i d Hh Hdne) as (b & Hb & Hbne & Hf).
  rewrite (agree_format h r Hagree) in Hf.
  destruct (NewChunkFromStorage_holds i b d (opt_converters (ropt r)) (SkipVerify (ropt r)) Hf Hbne Hdne)
    as (c' & Hc' & Hh'); [apply Hh|].
  exists c'. split; [|done]. cbn [sGetChunk RemoteHTTP]. unfold remote_GetChunk, GetObject.
  rewrite (issue_same serve net r Hnet _ (mkResponse StatusOK b)); [|rewrite serve_request by done; unfold handler_get; by rewrite Hc, Hb|done].
  cbn [code rText rMethod request]. rewrite decide_True by done. rewrite decide_False by done. by rewrite Hc'.
Qed.

Lemma client_miss i w : length i = 32%nat -> inv w -> view w i = None ->
  sGetChunk client i w = ((None, Some (ChunkMissing i)), w).
Proof using Hagree Hnet WriteSpec0.
  intros Hi Hw Hd. cbn [sGetChunk RemoteHTTP]. unfold remote_GetChunk, GetObject.
  by rewrite (issue_same serve net r Hnet _ (respond StatusNotFound));
    [|rewrite serve_request by done; unfold handler_get; by rewrite (spec_miss inv i w Hw Hd)|].
Qed.

Lemma client_has i w : length i = 32%nat -> inv w ->
  sHasChunk client i w = ((bool_decide (is_Some (view w i)), None), w).
Proof using Hagree Hnet WriteSpec0.
  intros Hi Hw. cbn [sHasChunk RemoteHTTP]. unfold remote_HasChunk.
  pose proof (spec_has inv i w Hw) as Hh. destruct (bool_decide (is_Some (view w i))).
  - by rewrite (issue_same serve net r Hnet _ (mkResponse StatusOK []));
      [|rewrite serve_request by done; unfold handler_head; by rewrite Hh|].
  - by rewrite (issue_same serve net r Hnet _ (mkResponse StatusNotFound []));
      [|rewrite serve_request by done; unfold handler_head; by rewrite Hh|].
Qed.

Lemma client_store c i d w : length i = 32%nat -> writable (hbase h) = true -> inv w -> holds c i d -> d <> [] ->
  exists w', remote_StoreChunk serve net r c w = (None, w') /\ inv w' /\ view w' i = Some d /\
    (forall j, j <> i -> view w' j = view w j) /\ other w' = other w.
Proof using Hagree Hnet WriteSpec0.
  intros Hi Hwr Hw Hh Hd. destruct (Storage_ok c (opt_converters (ropt r)) i d Hh Hd) as (b & Hb & Hbne & Hf).
  unfold remote_StoreChunk, StoreObject. rewrite Hb. destruct Hh as (_ & -> & Hsum & _).
  set (req := request r PUT (remote_nameFromID r i) b).
  destruct (issue_ok serve net r Hnet
    (fun w1 => inv w1 /\ (forall j, j <> i -> view w1 j = view w j) /\ other w1 = other w)
    (fun w1 => view w1 i = Some d) req (mkResponse StatusOK []) w) as (w' & E & (H1 & H2 & H3) & H4).
  - intros w1 (Hw1 & Hv & Ho). unfold req. rewrite serve_request by done. unfold handler_put, validateWritable.
    rewrite Hwr, (spec_write inv (WriteSpec := WriteSpec0)). cbn [rBody request].
    rewrite <- (agree_format h r Hagree) in Hf.
    destruct (NewChunkFromStorage_holds i b d (hconverters h) (SkipVerifyWrite h) Hf Hbne Hd Hsum) as (c' & -> & Hh').
    destruct (spec_store inv (WriteSpec := WriteSpec0) c' i d w1 Hw1 Hh' Hd) as (w2 & -> & Hw2 & Hv2 & Hj & Ho2).
    exists w2. split; [done|]. split; [|done]. split; [done|]. split; [|congruence].
    intros j Hne'. rewrite Hj by done. by apply Hv.
  - done.
  - done.
  - exists w'. rewrite E. done.
Qed.

End composition.

(** C37. A chunk store behind an HTTP server is the same store for the client. Let the store behind the
    handler behave as a map from IDs to data, let client and handler agree on storage format and
    credentials, and let one of the attempts the options allow for a request get through, the others
    being lost before the server, lost on the way back or answered with a server error by a proxy. Then
    the client's GetChunk returns the data of every chunk in the store, verified, and reports the others as
    missing, HasChunk tells which are there, and StoreChunk on a writable server stores the chunk and
    leaves the rest alone, even when a retry makes the server store it twice. *)
Theorem remote_store_refines {W A} `{Codec} (inv : W -> Prop) s h net r (view : W -> ChunkID -> option bytes)
  store (other : W -> A) :
  WriteSpec inv s view store other -> agree h r ->
  (forall w i d, inv w -> view w i = Some d -> d <> []) ->
  (forall req, gets_through net (ErrorRetry (ropt r)) req) ->
  forall i w, length i = 32%nat -> inv w ->
  match view w i with
  | Some d => exists c, sGetChunk (RemoteHTTP (ServeHTTP s h) net r) i w = ((Some c, None), w) /\ holds c i d
  | None => sGetChunk (RemoteHTTP (ServeHTTP s h) net r) i w = ((None, Some (ChunkMissing i)), w)
  end /\
  sHasChunk (RemoteHTTP (ServeHTTP s h) net r) i w = ((bool_decide (is_Some (view w i)), None), w) /\
  (writable (hbase h) = true -> forall c d, holds c i d -> d <> [] ->
    exists w', remote_StoreChunk (ServeHTTP s h) net r c w = (None, w') /\ inv w' /\ view w' i = Some d /\
      (forall j, j <> i -> view w' j = view w j) /\ other w' = other w).
Proof.
  intros Hspec Hagree Hne Hnet i w Hi Hw. split_and!.
  - destruct (view w i) eqn:Hd; [by eapply client_hit|by eapply client_miss].
  - by eapply client_has.
  - intros Hwr c d Hh Hd. by eapply client_store.
Qed.

(** ** Examples *)

#[local] Instance ex_codec_http : Codec := toy_codec.

Definition ex_handler : HTTPHandler := NewHTTPHandler true false [Compressor] (str "Bearer secret").

Definition ex_client : RemoteHTTPBase := mkRemote [slash] NewStoreOptionsWithDefaults (str "Bearer secret").

(** Every first attempt is lost on the way back, every second is answered by a proxy. *)
Definition ex_net (_ : Request) (attempt : nat) : Delivery :=
  match attempt with
  | 1%nat => NoReply (Errorf "connection reset")
  | 2%nat => Replied 503 []
  | _ => Delivered
  end.

Lemma ex_agree : agree ex_handler ex_client.
Proof. split; try done. by right. Qed.

Lemma ex_gets_through req : gets_through ex_net (ErrorRetry (ropt ex_client)) req.
Proof.
  exists 3%nat. split_and!; [lia|by vm_compute|done|]. intros [|[|[|j]]] Hj; try lia; cbn; [done|lia].
Qed.

Definition ex_store_world : ExWorld := ({[ ex_id := str "data" ]}, ∅).

Definition ex_remote_store : Store ExWorld := RemoteHTTP (ServeHTTP ex_local ex_handler) ex_net ex_client.

Lemma remote_store_refines_witness :
  (exists c, sGetChunk ex_remote_store ex_id ex_store_world = ((Some c, None), ex_store_world) /\
    holds c ex_id (str "data")) /\
  sHasChunk ex_remote_store ex_id ex_store_world = ((true, None), ex_store_world).
Proof.
  destruct (remote_store_refines (fun _ => True) ex_local ex_handler ex_net ex_client
    (fun w => ex_view (fst w)) ex_put (fun w => (ex_view (snd w), tt)) ex_write_spec ex_agree) with
    (i := ex_id) (w := ex_store_world) as (H1 & H2 & _); [|apply ex_gets_through|done|done|].
  - intros w i d _. unfold ex_view. destruct (fst w !! i) as [[|c b]|]; try done.
    destruct (decide _); [|done]. by intros [= <-].
  - assert (ex_view (fst ex_store_world) ex_id = Some (str "data")) as Ev by (vm_compute; reflexivity).
    rewrite Ev in H1, H2. split; [exact H1|exact H2].
Defined.

(** Out of attempts, a server error is neither a result nor an error: the status code is 0. *)
Example server_error_is_forgotten :
  let r := mkRemote [slash] (mkStoreOptions 0 0 3 0 false true) [] in
  fst (IssueRetryableHttpRequest (ServeHTTP ex_dead (NewHTTPHandler false false [] [])) (fun _ _ => Delivered) r
    (request r GET (remote_nameFromID r ex_id) []) (∅, ∅)) = (0, [], None).
Proof. vm_compute. reflexivity. Qed.
