(* ===== verification/HttpIndex.v ===== *)
(** * HttpIndex: indexes over HTTP (httpindexhandler.go, remotehttpindex.go)

    The handler of an index server over any index store, and the client, on the requests and
    the network of Http. [IndexSpec] is what an index store promises: it gives back the index
    that was stored under a name. The theorem shows that the client of a handler keeps the
    promise of the store behind the handler; the examples show what the handler does
    differently from the chunk server. *)

From S2P Require Import Prelude Format Index Chunk Names Stores LocalStore Path Http.

(** What is read back of an index: the header is that of a stored index. *)
Definition stored (i : Index) : Index :=
  mkIndex (mkHeader 48 CaFormatIndex) (FeatureFlags i) (ChunkSizeMin i) (ChunkSizeAvg i) (ChunkSizeMax i) (Chunks i).

(** IndexStore and IndexWriteStore; the reader is the bytes it gives. *)
Record IndexStore (W : Type) := mkIndexStore {
  ixGetIndexReader : bytes -> W -> outcome bytes * W;
  ixGetIndex : bytes -> W -> outcome Index * W;
  ixStoreIndex : option (bytes -> Index -> W -> option error * W)
}.
Arguments mkIndexStore {W}.
Arguments ixGetIndexReader {W}.
Arguments ixGetIndex {W}.
Arguments ixStoreIndex {W}.

Section handler.

Context {W : Type} (alg : Algorithm) (s : IndexStore W) (h : HTTPHandlerBase).

(** The bytes WriteTo gives to a buffer. *)
Definition to_buffer (i : Index) : outcome bytes :=
  match WriteTo i (mkWriter [] None ErrUnexpectedEOF) with
  | (Ok _, w) => Ok (w_out w)
  | (Err e, _) => Err e
  | (Panic, _) => Panic
  | (NoFuel, _) => NoFuel
  end.

Definition StatusUnsupportedMediaType : Z := 415.

Definition index_get (name : bytes) (w : W) : outcome Response * W :=
  match ixGetIndex s name w with
  | (Err e, w) =>
    (Ok (respond (if decide (e = ErrNotExist) then StatusNotFound else StatusBadRequest)), w)
  | (Ok idx, w) =>
    match to_buffer idx with
    | Err _ => (Ok (respond StatusInternalServerError), w)
    | r => (base_get r, w)
    end
  | (Panic, w) => (Panic, w)
  | (NoFuel, w) => (NoFuel, w)
  end.

Definition index_head (name : bytes) (w : W) : outcome Response * W :=
  match ixGetIndexReader s name w with
  | (Err _, w) => (Ok (mkResponse StatusOK []), w)
  | (Ok _, w) => (Ok (mkResponse StatusNotFound []), w)
  | (Panic, w) => (Panic, w)
  | (NoFuel, w) => (NoFuel, w)
  end.

(** The error at the end of the body is that of reading the request. *)
Definition index_put (name : bytes) (r : Request) (w : W) : outcome Response * W :=
  match validateWritable h with
  | Some resp => (Ok resp, w)
  | None =>
    match ixStoreIndex s with
    | None => (Ok (respond StatusBadRequest), w)
    | Some store =>
      match IndexFromReader (default ErrEOF (snd (rBody r))) alg (fst (rBody r)) with
      | Err _ => (Ok (respond StatusUnsupportedMediaType), w)
      | Ok idx =>
        match store name idx w with
        | (Some _, w) => (Ok (respond StatusInternalServerError), w)
        | (None, w) => (Ok (mkResponse StatusOK []), w)
        end
      | Panic => (Panic, w)
      | NoFuel => (NoFuel, w)
      end
    end
  end.

(** The Authorization header is not looked at. *)
Definition ServeIndex (r : Request) (w : W) : outcome Response * W :=
  let name := Path.Base (rPath r) in
  match rMethod r with
  | GET => index_get name w
  | HEAD => index_head name w
  | PUT => index_put name r w
  | OtherMethod => (Ok (respond StatusMethodNotAllowed), w)
  end.

End handler.

Section client.

Context {W : Type} (alg : Algorithm) (serve : Request -> W -> outcome Response * W)
  (net : Request -> nat -> Delivery) (r : RemoteHTTPBase).

Definition remote_GetIndexReader (name : bytes) (w : W) : outcome bytes * W := GetObject serve net r name w.

Definition remote_GetIndex (name : bytes) (w : W) : outcome Index * W :=
  match remote_GetIndexReader name w with
  | (Ok b, w) => (IndexFromReader ErrEOF alg b, w)
  | (Err e, w) => (Err e, w)
  | (Panic, w) => (Panic, w)
  | (NoFuel, w) => (NoFuel, w)
  end.

(** The index is written to a pipe the request reads from; its error is not looked at. *)
Definition remote_StoreIndex (name : bytes) (idx : Index) (w : W) : option error * W :=
  StoreObject serve net r name (w_out (snd (WriteTo idx (mkWriter [] None ErrUnexpectedEOF)))) w.

Definition RemoteHTTPIndex : IndexStore W :=
  mkIndexStore remote_GetIndexReader remote_GetIndex (Some remote_StoreIndex).

End client.

(** ** What an index store promises *)

Section spec.

Context {W : Type} (alg : Algorithm) (inv : W -> Prop).

(** The index stored under each name, as a function of the world. *)
Class IndexSpec (s : IndexStore W) (view : W -> bytes -> option Index)
    (st : bytes -> Index -> W -> option error * W) : Prop := {
  ispec_get n i w : inv w -> view w n = Some i -> ixGetIndex s n w = (Ok i, w);
  ispec_missing n w : inv w -> view w n = None -> ixGetIndex s n w = (Err ErrNotExist, w);
  ispec_write : ixStoreIndex s = Some st;
  ispec_store n i w : inv w -> valid_name n -> well_formed_index alg i ->
    exists w', st n i w = (None, w') /\ inv w' /\ view w' n = Some (stored i) /\
      forall m, m <> n -> view w' m = view w m;
  ispec_wf n i w : inv w -> view w n = Some i -> well_formed_index alg i /\ stored i = i
}.

End spec.

(** An index kept in the files of a directory (localindex.go). *)
Section local.

Context (alg : Algorithm) (s : LocalIndexStore).

Definition local_StoreIndex (n : bytes) (i : Index) (fs : FileSystem) : option error * FileSystem :=
  StoreIndex fs s n i None ErrEOF.

Definition LocalIndexes : IndexStore FileSystem :=
  mkIndexStore (fun n fs => (GetIndexReader fs s n, fs)) (fun n fs => (GetIndex fs alg s n, fs)) (Some local_StoreIndex).

Definition local_view (fs : FileSystem) (n : bytes) : option Index :=
  match files fs !! (lis_Path s ++ n) with
  | Some b => match IndexFromReader ErrEOF alg b with Ok i => Some i | _ => None end
  | None => None
  end.

(** The disk works, and the files of the directory are indexes. *)
Definition indexes_only (fs : FileSystem) : Prop :=
  broken fs = ∅ /\
  forall n b, files fs !! (lis_Path s ++ n) = Some b ->
    exists i, well_formed_index alg i /\ stored i = i /\ b = index_bytes i.

Lemma stored_wf i : well_formed_index alg i -> well_formed_index alg (stored i).
Proof. intros []. by split. Qed.

Lemma index_read i : well_formed_index alg i -> IndexFromReader ErrEOF alg (index_bytes i) = Ok (stored i).
Proof. intros Hi. pose proof (IndexFromReader_bytes ErrEOF alg i [] Hi) as H. by rewrite app_nil_r in H. Qed.

Lemma index_bytes_stored i : index_bytes (stored i) = index_bytes i.
Proof. done. Qed.

#[export] Instance local_index_spec : IndexSpec alg indexes_only LocalIndexes local_view local_StoreIndex.
Proof.
  split; cbn [ixGetIndex ixStoreIndex LocalIndexes].
  - intros n i fs [Hb Hf]. unfold local_view, GetIndex, GetIndexReader, ReadFile. rewrite Hb.
    destruct (files fs !! _) as [b|]; [|done]. rewrite decide_False by set_solver. cbn [mbind outcome_bind].
    by destruct (IndexFromReader ErrEOF alg b) as [i'| | |]; intros [= ->].
  - intros n fs [Hb Hf]. unfold local_view, GetIndex, GetIndexReader, ReadFile. rewrite Hb.
    destruct (files fs !! _) as [b|] eqn:E; rewrite decide_False by set_solver; [|done].
    apply Hf in E as (i & Hi & _ & ->). by rewrite index_read.
  - done.
  - intros n i fs [Hb Hf] Hn Hi. unfold local_StoreIndex, StoreIndex. rewrite WriteTo_Copy. cbn [Copy w_room w_out app].
    exists (mkFS (<[lis_Path s ++ n := index_bytes i]> (files fs)) (dirs fs) (broken fs)).
    split; [reflexivity|]. split; [split; [done|]|split]; cbn [broken files].
    + intros m b. cbn [files]. destruct (decide (m = n)) as [->|Hne].
      * rewrite lookup_insert_eq. intros [= <-]. exists (stored i). split; [by apply stored_wf|done].
      * rewrite lookup_insert_ne by (by intros ?%app_inv_head). apply Hf.
    + unfold local_view. cbn [files]. by rewrite lookup_insert_eq, index_read.
    + intros m Hne. unfold local_view. cbn [files]. by rewrite lookup_insert_ne by (by intros ?%app_inv_head).
  - intros n i fs [Hb Hf]. unfold local_view. destruct (files fs !! _) as [b|] eqn:E; [|done].
    apply Hf in E as (i' & Hi & Hs & ->). rewrite index_read by done. rewrite Hs. by intros [= <-].
Qed.

End local.

(** ** The client of a handler *)

Section composition.

Context {W : Type} (alg : Algorithm) (inv : W -> Prop) (s : IndexStore W) (h : HTTPHandlerBase)
  (net : Request -> nat -> Delivery) (r : RemoteHTTPBase) (view : W -> bytes -> option Index)
  (store : bytes -> Index -> W -> option error * W) `{!IndexSpec alg inv s view store}.

Context (Hloc : exists p, location r = p ++ [slash]) (Hnet : forall req, gets_through net (ErrorRetry (ropt r)) req).

Abbreviation serve := (ServeIndex alg s h).

Lemma to_buffer_ok i : to_buffer i = Ok (index_bytes i).
Proof using Type. unfold to_buffer. by rewrite WriteTo_Copy. Qed.

Lemma serve_index m n b w : valid_name n ->
  serve (request r m n b) w =
  match m with
  | GET => index_get s n w
  | HEAD => index_head s n w
  | PUT => index_put alg s h n (request r m n b) w
  | OtherMethod => (Ok (respond StatusMethodNotAllowed), w)
  end.
Proof using Hloc.
  intros Hn. destruct Hloc as [p Hp]. unfold ServeIndex. cbn [rPath rMethod request]. rewrite Hp.
  rewrite <- app_assoc. cbn [app]. by rewrite Base_last.
Qed.

Lemma index_client_get n w : valid_name n -> inv w ->
  ixGetIndex (RemoteHTTPIndex alg serve net r) n w =
  (match view w n with Some i => Ok i | None => Err (NoSuchObject n) end, w).
Proof using Hloc Hnet IndexSpec0.
  intros Hn Hw. cbn [ixGetIndex RemoteHTTPIndex]. unfold remote_GetIndex, remote_GetIndexReader, GetObject.
  destruct (view w n) as [i|] eqn:Hv.
  - destruct (ispec_wf alg inv n i w Hw Hv) as [Hwf Hs].
    rewrite (issue_same serve net r Hnet _ (mkResponse StatusOK (index_bytes i))); [|rewrite serve_index by done|done].
    + cbn [code rText rMethod request]. rewrite decide_True, decide_False by done. by rewrite (index_read alg), Hs.
    + unfold index_get. rewrite (ispec_get alg inv n i w Hw Hv). by rewrite to_buffer_ok.
  - rewrite (issue_same serve net r Hnet _ (respond StatusNotFound)); [done|rewrite serve_index by done|done].
    unfold index_get. by rewrite (ispec_missing alg inv n w Hw Hv).
Qed.

Lemma index_client_store n i w : valid_name n -> writable h = true -> inv w -> well_formed_index alg i ->
  exists w', remote_StoreIndex serve net r n i w = (None, w') /\ inv w' /\ view w' n = Some (stored i) /\
    forall m, m <> n -> view w' m = view w m.
Proof using Hloc Hnet IndexSpec0.
  intros Hn Hwr Hw Hi. unfold remote_StoreIndex, StoreObject.
  assert (w_out (snd (WriteTo i (mkWriter [] None ErrUnexpectedEOF))) = index_bytes i) as -> by (by rewrite WriteTo_Copy).
  set (req := request r PUT n (index_bytes i)).
  destruct (issue_ok serve net r Hnet
    (fun w1 => inv w1 /\ (forall m, m <> n -> view w1 m = view w m))
    (fun w1 => view w1 n = Some (stored i)) req (mkResponse StatusOK []) w) as (w' & E & (H1 & H2) & H3).
  - intros w1 (Hw1 & Hv). unfold req. rewrite serve_index by done. unfold index_put, validateWritable.
    rewrite Hwr, (ispec_write alg inv (IndexSpec := IndexSpec0)). cbn [rBody request fst snd].
    change (default ErrEOF None) with ErrEOF. rewrite index_read by done.
    destruct (ispec_store alg inv (IndexSpec := IndexSpec0) n (stored i) w1 Hw1 Hn (stored_wf alg i Hi))
      as (w2 & -> & Hw2 & Hv2 & Hm).
    exists w2. split; [done|]. split; [|done]. split; [done|]. intros m Hne. rewrite Hm by done. by apply Hv.
  - done.
  - done.
  - exists w'. rewrite E. done.
Qed.

End composition.

(** An index store behind an HTTP server is the same store for the client: reading an index gives the
    index the store has, or that there is no such object; storing a well-formed index on a writable server
    makes it what is read back under that name, and leaves the other names alone, however many of the
    attempts fail, as long as one gets through. *)
Theorem remote_index_refines {W} alg (inv : W -> Prop) s h net r view store :
  IndexSpec alg inv s view store -> (exists p, location r = p ++ [slash]) ->
  (forall req, gets_through net (ErrorRetry (ropt r)) req) ->
  forall n w, valid_name n -> inv w ->
  ixGetIndex (RemoteHTTPIndex alg (ServeIndex alg s h) net r) n w =
    (match view w n with Some i => Ok i | None => Err (NoSuchObject n) end, w) /\
  (writable h = true -> forall i, well_formed_index alg i ->
    exists w', remote_StoreIndex (ServeIndex alg s h) net r n i w = (None, w') /\ inv w' /\
      view w' n = Some (stored i) /\ forall m, m <> n -> view w' m = view w m).
Proof.
  intros Hspec Hloc Hnet n w Hn Hw. split; [by eapply index_client_get|].
  intros Hwr i Hi. by eapply index_client_store.
Qed.

(** ** Examples *)

Definition ex_indexes : LocalIndexStore := mkLocalIndexStore (str "/idx/").

Definition ex_empty_dir : FileSystem := mkFS ∅ {[ str "/idx/" ]} ∅.

Lemma remote_index_refines_witness :
  exists fs, remote_StoreIndex (ServeIndex SHA512_256 (LocalIndexes SHA512_256 ex_indexes) (mkHandlerBase true []))
      ex_net ex_client (str "a.caibx") ex_index ex_empty_dir = (None, fs) /\
    local_view SHA512_256 ex_indexes fs (str "a.caibx") = Some ex_index.
Proof.
  destruct (remote_index_refines SHA512_256 _ _ (mkHandlerBase true []) ex_net ex_client _ _
    (local_index_spec SHA512_256 ex_indexes)) with (n := str "a.caibx") (w := ex_empty_dir) as [_ H].
  - by exists [].
  - apply ex_gets_through.
  - refine (bool_decide_unpack _ _); by vm_compute.
  - by split.
  - destruct (H eq_refl ex_index ex_index_wf) as (fs & E & _ & Hv & _). exists fs. split; [exact E|exact Hv].
Defined.

(** A server that keeps the index under another name, and asks for a password. *)
Definition ex_auth : HTTPHandlerBase := mkHandlerBase true (str "Bearer secret").

Definition ex_one_index : FileSystem := mkFS {[ str "/idx/a" := index_bytes ex_index ]} {[ str "/idx/" ]} ∅.

Definition ex_status (m : Method) (path : bytes) : option Z :=
  match fst (ServeIndex SHA512_256 (LocalIndexes SHA512_256 ex_indexes) ex_auth (mkRequest m path [] ([], None)) ex_one_index) with
  | Ok resp => Some (code resp)
  | _ => None
  end.

(** HEAD says the opposite of GET, and neither asks for the password. *)
Example head_is_inverted :
  ex_status GET (str "/a") = Some 200 /\ ex_status HEAD (str "/a") = Some 404 /\
  ex_status GET (str "/b") = Some 404 /\ ex_status HEAD (str "/b") = Some 200.
Proof. split_and!; vm_compute; reflexivity. Qed.
