(* ===== verification/Pool.v ===== *)
(** * Pool: the worker pools of desync

    ChunkStream (index.go), ChopFile (chop.go), VerifyIndex (verifyindex.go) and Copy (copy.go)
    share one shape: [n] goroutines of an errgroup receive jobs from an unbuffered channel, the
    calling goroutine feeds it and stops when the group's context is cancelled, and the result
    is that of [g.Wait()]. This file has the shape once, as a step relation over the calls the
    goroutines make, with a rely-guarantee logic for what a worker does with a job. The pools
    themselves are in Pipelines.v. *)

From S2P Require Import Prelude.

(** ** What a goroutine does: a sequence of calls on the shared world *)

Inductive proc (W : Type) : Type :=
| Ret (e : option error)                                  (* return err *)
| Crash                                                   (* a panic *)
| Do {R : Type} (call : W -> R * W) (k : R -> proc W).
Arguments Ret {W}.
Arguments Crash {W}.
Arguments Do {W R}.

(** ** Well-founded updates of one element of a list *)

Inductive updated {A} (R : A -> A -> Prop) : list A -> list A -> Prop :=
| updated_at t a a' l : l !! t = Some a -> R a' a -> updated R (<[t := a']> l) l.

Lemma updated_inv {A} (R : A -> A -> Prop) x l l' :
  updated R l' (x :: l) ->
  (exists x', R x' x /\ l' = x' :: l) \/ (exists l2, updated R l2 l /\ l' = x :: l2).
Proof.
  intros H. inversion H as [t a a' ? Ht HR]; subst. destruct t as [|t]; cbn in Ht |- *.
  - injection Ht as <-. left. eauto.
  - right. eexists. split; [by econstructor|done].
Qed.

Lemma updated_acc {A} (R : A -> A -> Prop) l :
  (forall a, Acc R a) -> Acc (updated R) l.
Proof.
  intros Hwf. induction l as [|x l IHl].
  - constructor. intros l' H. inversion H. done.
  - revert l IHl. induction (Hwf x) as [x _ IHx]. intros l Hl.
    induction Hl as [l Hl IHl]. constructor.
    intros l' [(x' & HR & ->)|(l2 & HR & ->)]%updated_inv; [|by apply IHl].
    apply IHx; [done|by constructor].
Qed.

(** ** The pool *)

Section pool.

Context {W J : Type}.

(** The work on a job, what the feeder does after the last job: close the channel and wait
    ([None]), or leave the function with an error. *)
Context (body : J -> proc W) (feed_end : option error).

Inductive worker :=
| Idle                                   (* receiving from the channel *)
| Busy (j : J) (p : proc W)
| Exited (e : option error).

Inductive feeder :=
| Feeding
| Closed                                 (* close(in) *)
| Left (e : error).                      (* returned an error without closing the channel *)

Record pool := mkPool {
  pending : list J;
  feed : feeder;
  cancelled : bool;                      (* the context of the group is done *)
  parent : bool;                         (* the context of the caller was cancelled *)
  gerr : option error;                   (* the first error of the group *)
  workers : list worker;
  world : W
}.

Definition start (n : nat) (jobs : list J) (w : W) : pool :=
  mkPool jobs Feeding false false None (replicate n Idle) w.

Inductive pstep : pool -> pool -> Prop :=
| p_hand t j js c p g ws w :
    ws !! t = Some Idle ->
    pstep (mkPool (j :: js) Feeding c p g ws w)
          (mkPool js Feeding c p g (<[t := Busy j (body j)]> ws) w)
| p_stop j js p g ws w :                 (* case <-ctx.Done(): break loop *)
    pstep (mkPool (j :: js) Feeding true p g ws w) (mkPool (j :: js) Closed true p g ws w)
| p_end c p g ws w :
    pstep (mkPool [] Feeding c p g ws w)
          (mkPool [] (match feed_end with None => Closed | Some e => Left e end) c p g ws w)
| p_call t j R (call : W -> R * W) k js f c p g ws w r w' :
    ws !! t = Some (Busy j (Do call k)) -> call w = (r, w') ->
    pstep (mkPool js f c p g ws w) (mkPool js f c p g (<[t := Busy j (k r)]> ws) w')
| p_next t j js f c p g ws w :
    ws !! t = Some (Busy j (Ret None)) ->
    pstep (mkPool js f c p g ws w) (mkPool js f c p g (<[t := Idle]> ws) w)
| p_fail t j e js f c p g ws w :         (* the group keeps the first error and cancels *)
    ws !! t = Some (Busy j (Ret (Some e))) ->
    pstep (mkPool js f c p g ws w)
          (mkPool js f true p (match g with None => Some e | Some _ => g end)
             (<[t := Exited (Some e)]> ws) w)
| p_quit t js c p g ws w :               (* the channel is closed *)
    ws !! t = Some Idle ->
    pstep (mkPool js Closed c p g ws w) (mkPool js Closed c p g (<[t := Exited None]> ws) w).

(** The caller's context can be cancelled at any time. *)
Inductive pcancel : pool -> pool -> Prop :=
| p_cancel js f c g ws w :
    pcancel (mkPool js f c false g ws w) (mkPool js f true true g ws w).

Definition pany (s s' : pool) : Prop := pstep s s' \/ pcancel s s'.

Definition has_exited (k : worker) : bool := match k with Exited _ => true | _ => false end.

(** What the function has returned, once it has. *)
Definition result (s : pool) : option (option error) :=
  match feed s with
  | Feeding => None
  | Left e => Some (Some e)
  | Closed => if forallb has_exited (workers s) then Some (gerr s) else None
  end.

(** ** Every run ends *)

Definition wlt (k' k : worker) : Prop :=
  match k, k' with
  | Busy j (Do call k), Busy j' p' => j' = j /\ exists r, p' = k r
  | Busy _ _, Idle | Busy _ _, Exited _ | Idle, Exited _ => True
  | _, _ => False
  end.

Lemma wlt_wf k : Acc wlt k.
Proof.
  assert (He : forall e, Acc wlt (Exited e)) by (intros e; constructor; intros k' Hk; destruct k', Hk).
  assert (Hi : Acc wlt Idle) by (constructor; intros k' Hk; destruct k'; [destruct Hk..|apply He]).
  destruct k as [|j p|e]; [exact Hi| |exact (He e)].
  induction p as [e| |R call k IH]; constructor; intros k' Hk; destruct k' as [|j' p'|e'];
    first [exact Hi|apply He|destruct Hk as [-> [r ->]]; apply IH|destruct Hk].
Qed.

(** What the feeder and the caller can still do. *)
Definition outside (s : pool) : nat :=
  (length (pending s) + (match feed s with Feeding => 1 | _ => 0 end) +
   (if parent s then 0 else 1))%nat.

Definition smaller (s' s : pool) : Prop :=
  (outside s' < outside s)%nat \/
  (outside s' = outside s /\ updated wlt (workers s') (workers s)).

Lemma smaller_wf s : Acc smaller s.
Proof.
  remember (outside s) as m eqn:Hm. revert s Hm.
  induction (lt_wf m) as [m _ IHm]. intros s Hm.
  remember (workers s) as ws eqn:Hws. revert s Hm Hws.
  induction (updated_acc wlt ws wlt_wf) as [ws _ IHw]. intros s Hm Hws.
  constructor. intros s' [H|[H1 H2]].
  - eapply (IHm (outside s')); [lia|reflexivity].
  - eapply (IHw (workers s')); [by rewrite Hws|congruence|reflexivity].
Qed.

Lemma pany_smaller s s' : pany s s' -> smaller s' s.
Proof.
  assert (Hup : forall t k k' (ws : list worker), ws !! t = Some k -> wlt k' k ->
    updated wlt (<[t := k']> ws) ws) by (intros; by econstructor).
  intros [H|H]; destruct H; unfold smaller, outside; cbn [pending feed parent workers].
  - left. cbn. lia.
  - left. cbn. lia.
  - left. destruct feed_end; cbn; lia.
  - right. split; [done|]. eapply Hup; [done|]. cbn. eauto.
  - right. split; [done|]. by eapply Hup.
  - right. split; [done|]. by eapply Hup.
  - right. split; [done|]. by eapply Hup.
  - left. cbn. lia.
Qed.

(** No infinite run, whatever is called and whenever the caller cancels. *)
Lemma pool_terminates s : sn pany s.
Proof.
  induction (smaller_wf s) as [s _ IH]. constructor. intros s' H. by apply IH, pany_smaller.
Qed.

Definition returned (s : pool) : bool := match result s with Some _ => true | None => false end.

Lemma pstep_parent s s' : rtc pstep s s' -> parent s' = parent s.
Proof. induction 1 as [|s s1 s2 H _ IH]; [done|]. rewrite IH. by destruct H. Qed.

(** A pool that is not cancelled and is never stuck can return. *)
Lemma pool_finishes s :
  (forall s', rtc pstep s s' -> result s' = None -> exists s2, pstep s' s2) ->
  exists s' r, rtc pany s s' /\ result s' = Some r /\ parent s' = parent s.
Proof.
  intros Hp. destruct (sn_finishes pstep returned s) as (s' & Hs & Hr).
  - induction (pool_terminates s) as [x _ IH]. constructor. intros y Hy. apply IH; [by left|].
    intros s' Hs'. apply Hp. by eapply rtc_l.
  - intros y Hy. unfold returned. destruct (result y) eqn:E; [done|]. intros _. by apply Hp.
  - unfold returned in Hr. destruct (result s') as [r|] eqn:E; [|done]. exists s', r.
    split; [|split; [done|by apply pstep_parent]].
    eapply rtc_subrel; [|exact Hs]. intros ? ? ?. by left.
Qed.

(** ** What the workers establish

    [G] is ghost state, [Inv] an invariant of ghost state and world, [Guar t] what the calls of
    worker [t] may do to them, [Rest t] what holds when worker [t] has no job, [Post j] what a
    finished job has established for good, [Fails] the errors a worker may return. *)

Section logic.

Context {G : Type} (Inv : G -> W -> Prop) (Guar : nat -> G -> W -> G -> W -> Prop).
Context (Rest : nat -> G -> W -> Prop) (Post : J -> G -> W -> Prop) (Fails : error -> Prop).

(** What the calls of the workers in [who] do not undo. *)
Definition stable (who : nat -> Prop) (P : G -> W -> Prop) : Prop :=
  forall t g w g' w', who t -> Inv g w -> P g w -> Guar t g w g' w' -> Inv g' w' -> P g' w'.

Fixpoint wp (t : nat) (p : proc W) (P Q : G -> W -> Prop) : Prop :=
  match p with
  | Ret None => forall g w, Inv g w -> P g w -> Q g w
  | Ret (Some e) => forall g w, Inv g w -> P g w -> Fails e
  | Crash => forall g w, Inv g w -> P g w -> False
  | @Do _ R call k => exists P' : R -> G -> W -> Prop,
      (forall r, stable (fun t' => t' <> t) (P' r)) /\
      (forall g w, Inv g w -> P g w ->
         let '(r, w') := call w in exists g', Inv g' w' /\ Guar t g w g' w' /\ P' r g' w') /\
      forall r, wp t (k r) (P' r) Q
  end.

Lemma wp_post t p : forall P Q Q' : G -> W -> Prop,
  wp t p P Q -> (forall g w, Q g w -> Q' g w) -> wp t p P Q'.
Proof.
  induction p as [[e|]| |R call k IH]; cbn; intros P Q Q' Hwp HQ; auto.
  destruct Hwp as (P' & H1 & H2 & H3). exists P'. split; [done|]. split; [done|].
  intros r. by eapply IH.
Qed.

Lemma wp_pre t p (P P' Q : G -> W -> Prop) :
  wp t p P Q -> (forall g w, P' g w -> P g w) -> wp t p P' Q.
Proof.
  destruct p as [[e|]| |R call k]; cbn; intros Hwp HP; eauto.
  destruct Hwp as (P1 & H1 & H2 & H3). exists P1. split; [done|]. split; [|done].
  intros g w Hi Hw. by apply H2; [|apply HP].
Qed.

Context (jobs : list J) (n : nat).
Context (rest_stable : forall t, stable (fun t' => t' <> t) (Rest t)).
Context (post_stable : forall j, stable (fun _ => True) (Post j)).
Context (body_wp : forall t j, (t < n)%nat -> j ∈ jobs ->
  wp t (body j) (Rest t) (fun g w => Rest t g w /\ Post j g w)).
Context (end_fails : forall e, feed_end = Some e -> Fails e).

Definition worker_ok (g : G) (w : W) (t : nat) (k : worker) : Prop :=
  match k with
  | Idle | Exited None => Rest t g w
  | Busy j p => exists P, stable (fun t' => t' <> t) P /\ P g w /\
      wp t p P (fun g w => Rest t g w /\ Post j g w)
  | Exited (Some e) => True
  end.

(** A job is waiting, in flight, or done, unless a worker has failed. *)
Definition job_ok (g : G) (s : pool) (j : J) : Prop :=
  j ∈ pending s \/ (exists t p, workers s !! t = Some (Busy j p)) \/ Post j g (world s) \/
  gerr s <> None.

Record pool_inv (g : G) (s : pool) : Prop := {
  pi_world : Inv g (world s);
  pi_length : length (workers s) = n;
  pi_workers t k : workers s !! t = Some k -> worker_ok g (world s) t k;
  pi_jobs j : j ∈ jobs -> job_ok g s j;
  pi_pending j : j ∈ pending s -> j ∈ jobs;
  pi_failed t e : workers s !! t = Some (Exited (Some e)) -> gerr s <> None;
  pi_gerr e : gerr s = Some e -> Fails e;
  pi_quit t : workers s !! t = Some (Exited None) -> feed s = Closed;
  pi_cancelled : cancelled s = true <-> gerr s <> None \/ parent s = true;
  pi_closed : feed s = Closed -> feed_end = None /\ pending s = [] \/ cancelled s = true;
  pi_left e : feed s = Left e -> Fails e
}.

Lemma start_inv g w : n = length (replicate n (Idle : worker)) ->
  Inv g w -> (forall t, Rest t g w) -> pool_inv g (start n jobs w).
Proof.
  intros Hn Hi Hr.
  assert (Hidle : forall t k, replicate n (Idle : worker) !! t = Some k -> k = Idle)
    by (intros t k; rewrite lookup_replicate; tauto).
  split; cbn; try done; try (intros; left; done).
  - intros t k ->%Hidle. apply Hr.
  - intros t e Ht%Hidle. done.
  - intros t Ht%Hidle. done.
  - split; [done|intros [?|?]; done].
Qed.

(** The state changes by nothing or by a call of worker [t]. *)
Definition moved (t : nat) (g : G) (w : W) (g' : G) (w' : W) : Prop :=
  (g' = g /\ w' = w) \/ (Inv g w /\ Guar t g w g' w' /\ Inv g' w').

Lemma moved_stable t (who : nat -> Prop) P g w g' w' :
  moved t g w g' w' -> who t -> stable who P -> P g w -> P g' w'.
Proof using.
  intros [[-> ->]|(H1 & H2 & H3)] Ht HP Hw; [done|]. by eapply (HP t g w).
Qed.

Lemma worker_ok_moved t u g w g' w' k :
  moved t g w g' w' -> t <> u -> worker_ok g w u k -> worker_ok g' w' u k.
Proof using rest_stable.
  intros Hm Hne. destruct k as [|j p|[e|]]; cbn; [| |done|].
  - by eapply (moved_stable t); [..|apply rest_stable].
  - intros (P & HP & Hw & Hwp). exists P. split; [done|]. split; [|done].
    by eapply (moved_stable t); [..|exact HP|].
  - by eapply (moved_stable t); [..|apply rest_stable].
Qed.

(** Worker [t] goes from [k] to [k'], perhaps with a call. *)
Lemma pool_inv_worker g g' t k k' js f c c' p ge ge' ws w w' :
  pool_inv g (mkPool js f c p ge ws w) ->
  ws !! t = Some k -> moved t g w g' w' -> worker_ok g' w' t k' ->
  (forall j p, k = Busy j p -> (exists p', k' = Busy j p') \/ Post j g' w' \/ ge' <> None) ->
  (ge <> None -> ge' <> None) ->
  (forall e, k' = Exited (Some e) -> ge' <> None) ->
  (forall e, ge' = Some e -> ge = Some e \/ Fails e) ->
  (k' = Exited None -> f = Closed) ->
  (c' = true <-> ge' <> None \/ p = true) ->
  pool_inv g' (mkPool js f c' p ge' (<[t := k']> ws) w').
Proof using rest_stable post_stable.
  intros Hi Ht Hm Hk Hj Hge Hf Hge' Hq Hc.
  assert (Hlook : forall u k0, <[t := k']> ws !! u = Some k0 ->
    (u = t /\ k0 = k') \/ (u <> t /\ ws !! u = Some k0)).
  { intros u k0 [(-> & -> & _)|[Hne Hu]]%list_lookup_insert_Some; [by left|right; auto]. }
  pose proof (lookup_lt_Some _ _ _ Ht) as Hlt.
  destruct Hi as [I1 I2 I3 I4 I5 I6 I7 I8 I9 I10 I11]. cbn in *. split; cbn; try done.
  - destruct Hm as [[-> ->]|(_ & _ & ?)]; done.
  - by rewrite length_insert.
  - intros u k0 [[-> ->]|[Hne Hu]]%Hlook; [done|].
    eapply worker_ok_moved; [done..|]. by apply I3.
  - intros j Hjs. unfold job_ok. cbn. destruct (I4 j Hjs) as [H|[(u & q & Hu)|[H|H]]]; cbn in *.
    + by left.
    + destruct (decide (u = t)) as [->|Hne].
      * rewrite Ht in Hu. injection Hu as ->.
        destruct (Hj j q eq_refl) as [[p' ->]|[H|H]]; [|by auto..].
        right. left. exists t, p'. by apply list_lookup_insert_eq.
      * right. left. exists u, q. by rewrite list_lookup_insert_ne.
    + right. right. left. by eapply (moved_stable t); [..|apply post_stable|].
    + auto.
  - intros u e [[-> E]|[Hne Hu]]%Hlook; [by eapply Hf|]. eauto.
  - intros e [H|H]%Hge'; auto.
  - intros u [[-> E]|[Hne Hu]]%Hlook; [by apply Hq|]. eauto.
  - intros H. destruct (I10 H) as [?|H1]; [by left|right]. apply Hc. apply I9 in H1. tauto.
Qed.

Lemma pool_inv_step g s s' : pool_inv g s -> pany s s' -> exists g', pool_inv g' s'.
Proof using rest_stable post_stable body_wp end_fails.
  intros Hi [Hs|Hs].
  - pose proof Hi as [I1 I2 I3 I4 I5 I6 I7 I8 I9 I10 I11].
    destruct Hs as [t j js c p ge ws w Ht|j js p ge ws w|c p ge ws w|
                    t j R call k js f c p ge ws w r w' Ht Hc|t j js f c p ge ws w Ht|
                    t j e js f c p ge ws w Ht|t js c p ge ws w Ht]; cbn in *.
    + exists g. assert (Hlt : (t < n)%nat) by (rewrite <- I2; by eapply lookup_lt_Some).
      assert (Hjj : j ∈ jobs) by (apply I5; by left).
      cut (pool_inv g (mkPool (j :: js) Feeding c p ge (<[t := Busy j (body j)]> ws) w)).
      { intros [K1 K2 K3 K4 K5 K6 K7 K8 K9 K10 K11]. cbn in *. split; cbn; try done.
        - intros j' Hj'. destruct (K4 j' Hj') as [H|[H|[H|H]]]; cbn in *.
          + apply elem_of_cons in H as [->|H]; [|by left].
            right. left. exists t, (body j). apply list_lookup_insert_eq.
            by eapply lookup_lt_Some.
          + right. by left.
          + right. right. by left.
          + by do 3 right.
        - intros j' Hj'. apply I5. by right. }
      eapply pool_inv_worker; try done.
      * by left.
      * exists (Rest t). split; [apply rest_stable|]. split; [by apply (I3 t Idle)|].
        by apply body_wp.
      * intros e; by left.
    + exists g. split; cbn; try done. by right.
    + exists g. split; cbn; try done.
      * intros t Ht. by apply I8 in Ht.
      * intros Hf. left. by destruct feed_end.
      * intros e. destruct feed_end as [e'|] eqn:E; [|done]. intros [= <-]. by apply end_fails.
    + destruct (I3 t _ Ht) as (P & HP & Hw & P' & HP' & Hcall & Hk).
      specialize (Hcall g w I1 Hw). rewrite Hc in Hcall. destruct Hcall as (g' & Hi' & Hg & Hp).
      exists g'. eapply pool_inv_worker; try done.
      * by right.
      * exists (P' r). split; [done|]. split; [done|]. apply Hk.
      * intros j0 p0 [= <- <-]. left. eauto.
      * intros e; by left.
    + destruct (I3 t _ Ht) as (P & HP & Hw & Hwp). destruct (Hwp g w I1 Hw) as [H1 H2].
      exists g. eapply pool_inv_worker; try done.
      * by left.
      * intros j0 p0 [= <- <-]. right. by left.
      * intros e; by left.
    + destruct (I3 t _ Ht) as (P & HP & Hw & Hwp).
      exists g. eapply pool_inv_worker; try done.
      * by left.
      * intros j0 p0 [= <- <-]. right. right. by destruct ge.
      * by destruct ge.
      * intros e' _. by destruct ge.
      * intros e'. destruct ge; [by left|]. intros [= <-]. right. by eapply Hwp.
      * split; [|done]. intros _. left. by destruct ge.
    + exists g. eapply pool_inv_worker; try done.
      * by left.
      * by apply (I3 t Idle).
      * intros e; by left.
  - destruct Hs as [js f c ge ws w]. destruct Hi as [I1 I2 I3 I4 I5 I6 I7 I8 I9 I10 I11].
    exists g. cbn in *. split; cbn; try done; [tauto|]. intros _. by right.
Qed.

Lemma busy_steps g t j q js f c p ge ws w :
  pool_inv g (mkPool js f c p ge ws w) -> ws !! t = Some (Busy j q) ->
  exists s', pstep (mkPool js f c p ge ws w) s'.
Proof.
  intros Hi Ht. destruct (pi_workers _ _ Hi t _ Ht) as (P & _ & Hw & Hwp).
  destruct q as [[e|]| |R call k].
  - eexists. by eapply p_fail.
  - eexists. by eapply p_next.
  - by destruct (Hwp g w (pi_world _ _ Hi) Hw).
  - destruct (call w) as [r w'] eqn:E. eexists. by eapply p_call.
Qed.

(** No deadlock and no panic: as long as the function has not returned some goroutine can go on. *)
Lemma pool_progress g s :
  (0 < n)%nat -> pool_inv g s -> result s = None -> exists s', pstep s s'.
Proof.
  intros Hn Hi Hr. destruct s as [js f c p ge ws w].
  pose proof Hi as [I1 I2 I3 I4 I5 I6 I7 I8 I9 I10 I11]. cbn in *.
  destruct f as [| |e]; [| |done].
  - destruct js as [|j js]; [eexists; apply p_end|].
    destruct c; [eexists; apply p_stop|].
    destruct (lookup_lt_is_Some_2 ws 0) as [[|j' q|[e|]] Ht]; [lia|..].
    + eexists. by eapply p_hand.
    + by eapply busy_steps.
    + apply I6 in Ht. destruct I9 as [_ I9]. discriminate I9. by left.
    + by apply I8 in Ht.
  - unfold result in Hr. cbn in Hr. destruct (forallb has_exited ws) eqn:E; [done|].
    destruct (forallb_false_lookup _ _ E) as (t & k & Ht & Hk).
    destruct k as [|j q|]; [| |done].
    + eexists. by eapply p_quit.
    + by eapply busy_steps.
Qed.

Lemma pool_inv_run g0 w0 s :
  Inv g0 w0 -> (forall t, Rest t g0 w0) ->
  rtc pany (start n jobs w0) s -> exists g, pool_inv g s.
Proof using rest_stable post_stable body_wp end_fails.
  intros Hi Hr. assert (exists g, pool_inv g (start n jobs w0)) as H0
    by (exists g0; apply start_inv; [by rewrite length_replicate|done..]).
  revert H0. generalize (start n jobs w0). intros s0 [g H0] Hs. revert g H0.
  induction Hs as [s|s s1 s2 Hs _ IH]; intros g H0; [by exists g|].
  by destruct (pool_inv_step g s s1 H0 Hs) as [g' ?]; eauto.
Qed.

(** What a call of the function has established when it returns nil and was not cancelled. *)
Definition established (w : W) : Prop :=
  exists g, Inv g w /\ (forall t, (t < n)%nat -> Rest t g w) /\ forall j, j ∈ jobs -> Post j g w.

Lemma pool_inv_result g s r :
  pool_inv g s -> result s = Some r ->
  (forall e, r = Some e -> Fails e) /\
  (r = None -> parent s = false -> feed_end = None /\ established (world s)).
Proof.
  intros Hi Hr. pose proof Hi as [I1 I2 I3 I4 I5 I6 I7 I8 I9 I10 I11]. unfold result in Hr.
  destruct (feed s) as [| |e] eqn:Ef; [done| |].
  - destruct (forallb has_exited (workers s)) eqn:E; [|done]. injection Hr as <-.
    split; [done|]. intros Hg Hp.
    assert (Hex : forall t k, workers s !! t = Some k -> k = Exited None).
    { intros t k Ht. pose proof (forallb_true_lookup _ _ _ _ E Ht).
      destruct k as [| |[e|]]; [done..| |done]. by destruct (I6 t e Ht). }
    assert (Hc : cancelled s = false).
    { destruct (cancelled s); [|done]. destruct I9 as [I9 _]. destruct (I9 eq_refl); congruence. }
    destruct (I10 eq_refl) as [[Hend Hpend]|?]; [|congruence].
    split; [done|]. exists g. split; [done|]. split.
    + intros t Ht. rewrite <- I2 in Ht. destruct (lookup_lt_is_Some_2 _ _ Ht) as [k Hk].
      pose proof (I3 t k Hk) as H. by rewrite (Hex t k Hk) in H.
    + intros j Hj. destruct (I4 j Hj) as [H|[(t & q & H)|[H|H]]]; [|by apply Hex in H|done..].
      rewrite Hpend in H. by apply elem_of_nil in H.
  - injection Hr as <-. split; [intros e' [= <-]; by apply I11|done].
Qed.

(** The pool, whatever the interleaving: it ends, it does not hang or panic, an error it returns
    is one a worker (or the feeder) may return, and when it returns nil and the caller has not
    cancelled, every job has been done. *)
Lemma pool_correct g0 w0 :
  (0 < n)%nat -> Inv g0 w0 -> (forall t, Rest t g0 w0) ->
  sn pany (start n jobs w0) /\
  forall s, rtc pany (start n jobs w0) s ->
    match result s with
    | None => exists s', pstep s s'
    | Some (Some e) => Fails e
    | Some None => parent s = false -> feed_end = None /\ established (world s)
    end.
Proof using rest_stable post_stable body_wp end_fails.
  intros Hn Hi Hr. split; [apply pool_terminates|]. intros s Hs.
  destruct (pool_inv_run g0 w0 s Hi Hr Hs) as [g Hg].
  destruct (result s) as [r|] eqn:E; [|by eapply pool_progress].
  destruct (pool_inv_result g s r Hg E) as [H1 H2].
  destruct r as [e|]; auto.
Qed.

End logic.

End pool.

Arguments Idle {W J}.
Arguments Busy {W J}.
Arguments Exited {W J}.
Arguments mkPool {W J}.
