(* ===== verification/Verify.v ===== *)
(** * Verify: checking and repairing a local store (Verify of local.go)

    A walk of the directory feeds the IDs of the chunk files to workers, which read their chunks and
    remove the damaged ones. The pool is that of Pool.v; the calls the workers make are single steps,
    so that two workers can meet at the same chunk. *)

From S2P Require Import Prelude Format Index Chunk Names Stores LocalStore Pool.

(** What the callback of filepath.Walk gets to see: the context is done, the walk has failed, a
    directory, a file. *)
Inductive visit := VCancelled | VError (e : error) | VDir | VFile (path : bytes).

(** What a worker prints about an ID. *)
Inductive message := Invalid (i : ChunkID) | InvalidRemoved (i : ChunkID)
| InvalidFailed (i : ChunkID) (e : error) | Unexpected (e : error).

(** The files and what has been printed. *)
Record VW := mkVW { vfs : FileSystem; vout : list message }.

Section verify.

Context `{Codec} (rm : bytes -> option error) (s : LocalStore) (repair : bool).

(** The callback: the IDs it feeds to the workers, and the error of the walk. *)
Fixpoint walk (visits : list visit) : list ChunkID * option error :=
  match visits with
  | [] => ([], None)
  | VCancelled :: _ => ([], Some Interrupted)
  | VError e :: _ => ([], Some e)
  | VDir :: visits => walk visits
  | VFile path :: visits =>
    let '(ids, e) := walk visits in
    match local_idFromPath (Uncompressed (Opt s)) path with
    | Some i => (i :: ids, e)
    | None => (ids, e)                         (* not a chunk file: skipped *)
    end
  end.

Definition get (i : ChunkID) (w : VW) : option error * VW := (snd (GetChunk s i (vfs w)), w).
Definition remove (i : ChunkID) (w : VW) : option error * VW :=
  let '(e, fs) := RemoveChunk rm s i (vfs w) in (e, mkVW fs (vout w)).
Definition print (m : message) (w : VW) : unit * VW := (tt, mkVW (vfs w) (vout w ++ [m])).

Definition printing (m : message) : proc VW := Do (print m) (fun _ => Ret None).

(** What a worker does with an ID. *)
Definition verify_body (i : ChunkID) : proc VW :=
  Do (get i) (fun err =>
    match err with
    | Some (ChunkInvalid _ _) =>
      if repair then
        Do (remove i) (fun err =>
          printing (match err with Some e => InvalidFailed i e | None => InvalidRemoved i end))
      else printing (Invalid i)
    | Some e => printing (Unexpected e)
    | None => Ret None
    end).

(** The workers and the walk, which closes the channel at its end. Neither looks at the context but
    the callback. *)
Definition verify_step : pool (J := ChunkID) -> pool -> Prop := pstep verify_body None.
Definition Verify (n : nat) (visits : list visit) (fs : FileSystem) : pool :=
  start n (fst (walk visits)) (mkVW fs []).
Definition verify_result (visits : list visit) (p : pool (W := VW) (J := ChunkID)) : option (option error) :=
  match Pool.result p with Some _ => Some (snd (walk visits)) | None => None end.

(** ** Damaged chunks *)

Abbreviation name i := (snd (nameFromID s i)).

(** A chunk whose file holds something else, or cannot be read. *)
Definition damaged (fs : FileSystem) (i : ChunkID) : bool :=
  match snd (GetChunk s i fs) with Some (ChunkInvalid _ _) => true | _ => false end.

Lemma damaged_file fs i : damaged fs i = true -> name i ∈ broken fs \/ is_Some (files fs !! name i).
Proof using Type.
  intros Hd. destruct (decide (name i ∈ broken fs)) as [|Hb]; [by left|right].
  destruct (files fs !! name i) eqn:Hf; [by eexists|]. unfold damaged, GetChunk, ReadFile in Hd.
  rewrite decide_False, Hf in Hd by done. cbn in Hd. by rewrite decide_True in Hd.
Qed.

Lemma damaged_ext fs fs' i :
  broken fs' = broken fs -> files fs' !! name i = files fs !! name i -> damaged fs' i = damaged fs i.
Proof using Type. intros H1 H2. unfold damaged. by rewrite (GetChunk_ext s i fs fs'). Qed.

Lemma damaged_broken fs fs' i :
  broken fs' = broken fs -> name i ∈ broken fs -> damaged fs' i = damaged fs i.
Proof using Type.
  intros Hb Hi. unfold damaged, GetChunk, ReadFile. by rewrite Hb, !(decide_True (P := name i ∈ broken fs)) by done.
Qed.

(** ** Every interleaving *)

Section run.

Context (fs0 : FileSystem) (ids : list ChunkID) (n : nat).

(** Ghost state: the chunks a worker has removed and not yet reported. *)
Abbreviation Debts := (gmap nat bytes).

Definition reported (g : Debts) (w : VW) (i : ChunkID) : Prop :=
  InvalidRemoved i ∈ vout w \/ exists t, g !! t = Some i.

(** What a message says is so. *)
Definition honest (m : message) : Prop :=
  match m with
  | Invalid i => damaged fs0 i = true
  | InvalidRemoved i | InvalidFailed i _ => damaged fs0 i = true /\ repair = true
  | Unexpected _ => True
  end.

Record Inv (g : Debts) (w : VW) : Prop := {
  iv_broken : broken (vfs w) = broken fs0;
  iv_files q : files (vfs w) !! q = files fs0 !! q \/
    (files (vfs w) !! q = None /\ repair = true /\
     exists i, i ∈ ids /\ damaged fs0 i = true /\ q = name i /\ reported g w i);
  iv_debts t i : g !! t = Some i -> (t < n)%nat;
  iv_out : Forall honest (vout w)
}.

Definition Guar (t : nat) (g : Debts) (w : VW) (g' : Debts) (w' : VW) : Prop :=
  (forall t', t' <> t -> g' !! t' = g !! t') /\
  (forall q, files (vfs w') !! q = files (vfs w) !! q \/ files (vfs w') !! q = None) /\
  (forall m, m ∈ vout w -> m ∈ vout w').

Definition Rest (t : nat) (g : Debts) (_ : VW) : Prop := g !! t = None.

Definition gone (i : ChunkID) (w : VW) : Prop :=
  files (vfs w) !! name i = None /\ is_Some (files fs0 !! name i).

Definition Post (i : ChunkID) (_ : Debts) (w : VW) : Prop :=
  damaged fs0 i = true ->
  if repair then gone i w \/
    exists e, InvalidFailed i e ∈ vout w /\ (rm (name i) = Some e \/ name i ∈ broken fs0)
  else Invalid i ∈ vout w.

Abbreviation NoFails := (fun _ : error => False).
Abbreviation wpv := (wp Inv Guar NoFails).

Lemma gone_stable i : stable Inv Guar (fun _ => True) (fun _ w => gone i w).
Proof using Type.
  intros t g w g' w' _ _ [H1 H2] (_ & Hf & _) _. split; [|done]. by destruct (Hf (name i)) as [-> | ->].
Qed.

Lemma Rest_stable t : stable Inv Guar (fun t' => t' <> t) (Rest t).
Proof using Type. intros t' g w g' w' Hne _ Hr (Hg & _) _. unfold Rest. by rewrite Hg by done. Qed.

Lemma Post_stable i : stable Inv Guar (fun _ => True) (Post i).
Proof using Type.
  intros t g w g' w' _ Hi Hp Hg Hi' Hd. specialize (Hp Hd). destruct repair; [|by apply Hg].
  destruct Hp as [Hp|(e & He & Hr)]; [left; by eapply (gone_stable i t g w)|].
  right. exists e. split; [by apply Hg|done].
Qed.

(** The chunk is found damaged only if it was at the start, and is found in order only if it was, or
    has been removed since. *)
Lemma get_damaged g w i : Inv g w -> damaged (vfs w) i = true -> damaged fs0 i = true.
Proof using Type.
  intros Hi Hd. destruct (iv_files _ _ Hi (name i)) as [Hf|(Hf & _)].
  - by rewrite <- (damaged_ext fs0 (vfs w) i (iv_broken _ _ Hi) Hf).
  - destruct (damaged_file _ _ Hd) as [Hb|[b Hb]]; [|congruence].
    rewrite (iv_broken _ _ Hi) in Hb. by rewrite <- (damaged_broken fs0 (vfs w) i (iv_broken _ _ Hi) Hb).
Qed.

Lemma get_post g w i : Inv g w -> damaged (vfs w) i = false -> Post i g w.
Proof using Type.
  intros Hi Hd Hd0. destruct (iv_files _ _ Hi (name i)) as [Hf|(Hf & -> & _)].
  { rewrite (damaged_ext fs0 (vfs w) i (iv_broken _ _ Hi) Hf) in Hd. congruence. }
  left. split; [done|]. destruct (damaged_file _ _ Hd0) as [Hb|]; [|done].
  rewrite (damaged_broken fs0 (vfs w) i (iv_broken _ _ Hi) Hb) in Hd. congruence.
Qed.

(** Printing keeps the invariant, and pays the debt it is about. *)
Lemma print_inv t g w m :
  Inv g w -> honest m -> (forall i, g !! t = Some i -> m = InvalidRemoved i) ->
  Inv (delete t g) (mkVW (vfs w) (vout w ++ [m])) /\
  Guar t g w (delete t g) (mkVW (vfs w) (vout w ++ [m])).
Proof using Type.
  intros [H1 H2 H3 H4] Hm Hpay. split; [split|]; cbn [vfs vout]; try done.
  - intros q. destruct (H2 q) as [?|(? & ? & i & ? & ? & ? & Hrep)]; [by left|right].
    split_and!; [done..|]. exists i. split_and!; [done..|]. destruct Hrep as [Hr|[u Hu]].
    + left. cbn. apply elem_of_app. by left.
    + destruct (decide (u = t)) as [->|Hne].
      * left. cbn. rewrite (Hpay i Hu). apply elem_of_app. right. by left.
      * right. exists u. by rewrite lookup_delete_ne.
  - intros u i Hu. apply lookup_delete_Some in Hu as [_ Hu]. by eapply H3.
  - apply Forall_app. split; [done|]. by constructor.
  - split_and!; cbn [vfs vout].
    + intros u Hu. by rewrite lookup_delete_ne.
    + by left.
    + intros m' Hm'. apply elem_of_app. by left.
Qed.

(** A print that ends the work on [i]. *)
Lemma printing_wp t i m (P : Debts -> VW -> Prop) :
  honest m ->
  (forall g w, Inv g w -> P g w -> (forall j, g !! t = Some j -> m = InvalidRemoved j) /\
     Post i (delete t g) (mkVW (vfs w) (vout w ++ [m]))) ->
  wpv t (printing m) P (fun g w => Rest t g w /\ Post i g w).
Proof using Type.
  intros Hm HP. exists (fun _ g w => Rest t g w /\ Post i g w). split_and!.
  - intros _ u g w g' w' Hu Hi [H1 H2] Hg Hi'. split; [by eapply (Rest_stable t u g w)|]. by eapply (Post_stable i u g w).
  - intros g w Hi Hp. cbn [print]. destruct (HP g w Hi Hp) as [Hpay Hpost].
    destruct (print_inv t g w m Hi Hm Hpay) as [H1 H2]. exists (delete t g).
    split_and!; [done|done|apply lookup_delete_eq|done].
  - intros []. by intros g w _ ?.
Qed.

Lemma pay_at_rest t g w m : Rest t g w -> forall j, g !! t = Some j -> m = InvalidRemoved j.
Proof using Type. intros Hr j Hj. unfold Rest in Hr. congruence. Qed.

(** Post does not depend on more being printed. *)
Lemma Post_printed i g g' w m : Post i g w -> Post i g' (mkVW (vfs w) (vout w ++ [m])).
Proof using Type.
  intros Hp Hd. specialize (Hp Hd). destruct repair; cbn [vfs vout]; [|apply elem_of_app; by left].
  destruct Hp as [Hp|(e & He & Hr)]; [by left|right]. exists e. split; [apply elem_of_app; by left|done].
Qed.

(** Removing a damaged chunk. *)
Definition removed (t : nat) (i : ChunkID) (e : option error) (g : Debts) (w : VW) : Prop :=
  match e with
  | None => g !! t = Some i /\ gone i w
  | Some e => Rest t g w /\ (gone i w \/ rm (name i) = Some e \/ name i ∈ broken fs0)
  end.

Lemma remove_spec t i g w : repair = true -> i ∈ ids -> (t < n)%nat -> damaged fs0 i = true ->
  Inv g w -> Rest t g w ->
  let '(e, w') := remove i w in exists g', Inv g' w' /\ Guar t g w g' w' /\ removed t i e g' w'.
Proof using Type.
  intros Hrep Hin Ht Hd Hi Hr. unfold remove, RemoveChunk.
  assert (Hno : Guar t g w g w) by (split_and!; auto).
  destruct (damaged_file _ _ Hd) as [Hb|Hf0].
  { unfold Stat. rewrite (iv_broken _ _ Hi), decide_True by done. exists g. destruct w. cbn.
    split_and!; [done|done|done|]. by right; right. }
  destruct (Stat (vfs w) (name i)) as [e|] eqn:Hs.
  { exists g. cbn [removed]. destruct w as [fs out]. cbn [vfs vout] in *. split_and!; [done|done|done|].
    unfold Stat in Hs. destruct (decide (name i ∈ broken fs)) as [Hbr|_].
    - right. right. by rewrite <- (iv_broken _ _ Hi).
    - left. split; [|done]. destruct (decide (_ \/ _)) as [|Hn]; [done|]. cbn [vfs].
      apply not_elem_of_dom. intros ?. apply Hn. by left. }
  destruct (Remove rm (name i) (vfs w)) as [e fs'] eqn:Er.
  destruct (Remove_file _ _ _ _ _ Er) as (Hbr & -> & Hf). destruct (rm (name i)) as [e|] eqn:Erm.
  - exists g. assert (Hsame : forall q, files fs' !! q = files (vfs w) !! q).
    { intros q. rewrite Hf. by case_decide as Hq; [rewrite Hq|]. }
    destruct Hi as [I1 I2 I3 I4]. split_and!; [split|split_and!|split; [done|right; by left]]; cbn [vfs vout]; try done.
    + congruence.
    + intros q. rewrite Hsame. apply I2.
    + intros q. left. apply Hsame.
  - exists (<[t := i]> g). destruct Hi as [I1 I2 I3 I4]. unfold Rest in Hr.
    split_and!; [split|split_and!|split; [by rewrite lookup_insert_eq|split; [|done]]]; cbn [vfs vout]; try done.
    + congruence.
    + intros q. rewrite Hf. case_decide as Hq.
      * right. split_and!; [done|done|]. exists i. split_and!; [done..|]. right. exists t. by rewrite lookup_insert_eq.
      * destruct (I2 q) as [?|(? & ? & j & ? & ? & ? & Hj)]; [by left|right].
        split_and!; [done..|]. exists j. split_and!; [done..|]. destruct Hj as [?|[u Hu]]; [by left|right].
        exists u. rewrite lookup_insert_ne; [done|]. intros ->. congruence.
    + intros u j Hu. destruct (decide (u = t)) as [->|Hne]; [done|].
      rewrite lookup_insert_ne in Hu by done. by eapply I3.
    + intros u Hu. by rewrite lookup_insert_ne.
    + intros q. rewrite Hf. case_decide; [by right|by left].
    + by rewrite Hf, decide_True.
Qed.

Lemma removed_stable t i e : stable Inv Guar (fun t' => t' <> t) (removed t i e).
Proof using Type.
  intros u g w g' w' Hu Hi Hp Hg Hi'. destruct e as [e|]; cbn in *.
  - destruct Hp as [H1 [H2|H2]]; (split; [by eapply (Rest_stable t u g w)|]); [left; by eapply (gone_stable i u g w)|by right].
  - destruct Hp as [H1 H2]. split; [|by eapply (gone_stable i u g w)]. by rewrite (proj1 Hg) by done.
Qed.

Lemma body_wp t i : (t < n)%nat -> i ∈ ids ->
  wpv t (verify_body i) (Rest t) (fun g w => Rest t g w /\ Post i g w).
Proof using Type.
  intros Ht Hin. unfold verify_body.
  exists (fun err g w => Rest t g w /\
    match err with Some (ChunkInvalid _ _) => damaged fs0 i = true | _ => Post i g w end). split_and!.
  - intros err u g w g' w' Hu Hi [H1 H2] Hg Hi'. split; [by eapply (Rest_stable t u g w)|].
    destruct err as [[]|]; try (by eapply (Post_stable i u g w)); done.
  - intros g w Hi Hr. cbn [get]. exists g. split_and!; [done|split_and!; auto|done|].
    destruct (damaged (vfs w) i) eqn:Hd; unfold damaged in Hd.
    + pose proof (get_damaged g w i Hi Hd). by destruct (snd (GetChunk s i (vfs w))) as [[]|].
    + pose proof (get_post g w i Hi Hd). by destruct (snd (GetChunk s i (vfs w))) as [[]|].
  - intros err.
    assert (Hother : forall e, wpv t (printing (Unexpected e)) (fun g w => Rest t g w /\ Post i g w)
      (fun g w => Rest t g w /\ Post i g w)).
    { intros e. apply printing_wp; [done|]. intros g w Hi [Hr Hp]. split; [by eapply pay_at_rest|].
      by eapply Post_printed. }
    destruct err as [[]|]; try apply Hother; [|by intros g w _ ?]. destruct repair eqn:Hrep.
    + destruct (damaged fs0 i) eqn:Hd.
      2:{ (* not damaged *)
        exists (fun _ _ _ => False). split_and!; [by intros ? ? ? ? ? ? ? ? []|by intros ? ? _ [_ ?]|].
        intros err. exists (fun _ _ _ => False). split_and!; [by intros ? ? ? ? ? ? ? ? []|by intros ? ? _ []|by intros ? ? ? _ []]. }
      exists (fun e => removed t i e). split_and!; [apply removed_stable| |].
      * intros g w Hi [Hr _]. by apply remove_spec.
      * intros err. apply printing_wp; [by destruct err; cbn; rewrite Hrep|].
        intros g w Hi Hp. destruct err as [e|]; cbn [removed] in Hp.
        -- destruct Hp as [Hr Hp]. split; [by eapply pay_at_rest|]. intros _. rewrite Hrep.
           destruct Hp as [?|Hp]; [by left|right]. exists e. split; [|done]. apply elem_of_app. right. by left.
        -- destruct Hp as [Hg Hp]. split; [intros j Hj; congruence|]. intros _. rewrite Hrep. by left.
    + destruct (damaged fs0 i) eqn:Hd.
      * apply printing_wp; [done|]. intros g w Hi [Hr _]. split; [by eapply pay_at_rest|].
        intros _. rewrite Hrep. cbn [vout]. apply elem_of_app. right. by left.
      * exists (fun _ _ _ => False). split_and!; [by intros ? ? ? ? ? ? ? ? []|by intros ? ? _ [_ ?]|by intros ? ? ? _ []].
Qed.

End run.

Lemma walk_fed visits p i : snd (walk visits) = None -> VFile p ∈ visits ->
  local_idFromPath (Uncompressed (Opt s)) p = Some i -> i ∈ fst (walk visits).
Proof using Type.
  induction visits as [|v visits IH]; intros Hw Hp Hi; [by apply not_elem_of_nil in Hp|].
  apply elem_of_cons in Hp as [<-|Hp].
  - cbn. destruct (walk visits). rewrite Hi. by left.
  - destruct v as [| | |q]; cbn in *; [done..|by apply IH|]. destruct (walk visits) as [ids e].
    destruct (local_idFromPath _ q); cbn in *; [right|]; by apply IH.
Qed.

(** C34. Verify, with any number of workers and in every interleaving of their reads, removals and
    messages, ends, never hangs, and returns what the walk returned. It changes nothing but the
    damaged chunks the walk found, and only with repair. Every damaged chunk the walk found, and no
    other, is reported: with repair it has been removed, or its removal failed and that is reported.
    So if the walk was complete and files can be read and removed, no chunk of the store is damaged
    when a repair ends. *)
Theorem Verify_repairs visits n fs : (0 < n)%nat ->
  let ids := fst (walk visits) in
  sn verify_step (Verify n visits fs) /\
  forall p, rtc verify_step (Verify n visits fs) p ->
    match verify_result visits p with
    | None => exists p', verify_step p p'
    | Some r =>
      let fs' := vfs (world p) in let out := vout (world p) in
      r = snd (walk visits) /\
      (forall q, files fs' !! q = files fs !! q \/
         (files fs' !! q = None /\ repair = true /\ exists i, i ∈ ids /\ damaged fs i = true /\ q = name i)) /\
      (forall i, i ∈ ids -> damaged fs i = true ->
         if repair then
           (InvalidRemoved i ∈ out /\ files fs' !! name i = None) \/
           exists e, InvalidFailed i e ∈ out /\ (rm (name i) = Some e \/ name i ∈ broken fs)
         else Invalid i ∈ out) /\
      Forall (honest fs) out /\
      (repair = true -> r = None -> broken fs = ∅ -> (forall q, rm q = None) ->
       (forall i, length i = 32%nat -> is_Some (files fs !! name i) -> VFile (name i) ∈ visits) ->
       forall i, length i = 32%nat -> damaged fs' i = false)
    end.
Proof using Type.
  intros Hn ids.
  destruct (pool_correct verify_body None (Inv fs ids n) Guar Rest (Post fs) (fun _ => False) ids n
    (Rest_stable fs ids n) (Post_stable fs ids n) (body_wp fs ids n) ltac:(done) ∅ (mkVW fs [])) as [Hsn Hall].
  { done. }
  { split; cbn; [done|by left|by intros t i|constructor]. }
  { done. }
  assert (Hsub : forall x y, verify_step x y -> pany verify_body None x y) by (intros; by left).
  split.
  { unfold Verify, ids in *. clear Hall. induction Hsn as [x _ IH]. constructor. intros y Hy. by apply IH, Hsub. }
  intros p Hp. assert (Hpar : parent p = false) by (by rewrite (pstep_parent _ _ _ _ Hp)).
  specialize (Hall p (rtc_subrel _ _ _ _ Hsub Hp)). unfold verify_result.
  destruct (Pool.result p) as [[e|]|]; [done| |done].
  destruct (Hall Hpar) as (_ & g & Hi & Hrest & Hpost). cbv zeta.
  assert (Hg : forall i, reported g (world p) i -> InvalidRemoved i ∈ vout (world p)).
  { intros i [?|[t Ht]]; [done|]. specialize (Hrest t (iv_debts _ _ _ _ _ Hi t i Ht)). unfold Rest in Hrest. congruence. }
  assert (Hrem : forall i, gone fs i (world p) -> InvalidRemoved i ∈ vout (world p)).
  { intros i [H1 [b H2]]. destruct (iv_files _ _ _ _ _ Hi (name i)) as [?|(_ & _ & j & _ & _ & Hj & Hr)]; [congruence|].
    apply nameFromID_inj in Hj as ->. by apply Hg. }
  split_and!; [done| | |apply Hi|].
  - intros q. destruct (iv_files _ _ _ _ _ Hi q) as [?|(? & ? & i & ? & ? & ? & _)]; [by left|right]. eauto 10.
  - intros i Hin Hd. pose proof (Hpost i Hin Hd) as Hp'. destruct repair; [|done].
    destruct Hp' as [Hgone|?]; [left|by right]. split; [by apply Hrem|apply Hgone].
  - intros Hrep Hwalk Hb Hrm Hvis i Hl. apply not_true_is_false. intros Hd.
    pose proof (get_damaged fs ids n g (world p) i Hi Hd) as Hd0.
    destruct (damaged_file _ _ Hd0) as [Hx|Hf0]; [rewrite Hb in Hx; by apply not_elem_of_empty in Hx|].
    assert (Hin : i ∈ ids).
    { eapply walk_fed; [done|by apply Hvis|]. unfold nameFromID. by apply local_idFromPath_name. }
    pose proof (Hpost i Hin Hd0) as Hp'. rewrite Hrep in Hp'. destruct Hp' as [[Hnone _]|(e & _ & [?|Hx])].
    + destruct (damaged_file _ _ Hd) as [Hx|[b Hx]]; [|congruence].
      rewrite (iv_broken _ _ _ _ _ Hi), Hb in Hx. by apply not_elem_of_empty in Hx.
    + rewrite Hrm in *. done.
    + rewrite Hb in Hx. by apply not_elem_of_empty in Hx.
Qed.

End verify.

(** ** Example: two workers repair a store with damaged chunks, a file that is none and a temporary one *)

Definition ex_visits : list visit := VDir :: map VFile ex_paths.

Lemma Verify_repairs_witness :
  exists p, rtc (verify_step (H := toy_codec) (fun _ => None) ex_store true) (Verify ex_store 2 ex_visits ex_full) p /\
    verify_result ex_store ex_visits p = Some None /\
    InvalidRemoved ex_wanted ∈ vout (world p) /\
    (forall i, length i = 32%nat -> damaged (H := toy_codec) ex_store (vfs (world p)) i = false) /\
    files (vfs (world p)) !! str "/s/README" = Some (str "x").
Proof.
  destruct (Verify_repairs (H := toy_codec) (fun _ => None) ex_store true ex_visits 2 ex_full ltac:(lia)) as [Hsn Hall].
  destruct (sn_finishes (verify_step (H := toy_codec) (fun _ => None) ex_store true) (fun p => returned p)
    (Verify ex_store 2 ex_visits ex_full) Hsn) as (p & Hp & Hr).
  { intros y Hy. specialize (Hall y Hy). unfold verify_result, returned in *. destruct (Pool.result y); [done|].
    intros _. exact Hall. }
  exists p. split; [exact Hp|]. specialize (Hall p Hp). unfold returned in Hr. unfold verify_result in *.
  destruct (Pool.result p); [|discriminate].
  assert (Hw : walk ex_store ex_visits = ([ex_wanted; ex_unwanted], None)) by (vm_compute; reflexivity).
  rewrite Hw in *. destruct Hall as (_ & Hfiles & Hrep & _ & Hclean). cbn [fst snd] in *.
  assert (Hd : damaged (H := toy_codec) ex_store ex_full ex_wanted = true) by (vm_compute; reflexivity).
  split; [done|]. split; [|split].
  - destruct (Hrep ex_wanted ltac:(by left) Hd) as [[? _]|(e & _ & [?|He])]; [done|discriminate|].
    by apply not_elem_of_empty in He.
  - apply Hclean; [done|done|done|done|]. intros i Hl [b Hb]. apply elem_of_dom_2 in Hb.
    cbn [ex_full files] in Hb. rewrite dom_list_to_map, elem_of_list_to_set in Hb.
    right. apply list_elem_of_fmap. eexists. split; [reflexivity|]. by rewrite map_map, map_id in Hb.
  - destruct (Hfiles (str "/s/README")) as [->|(_ & _ & i & Hi & _ & E)]; [vm_compute; reflexivity|].
    apply elem_of_cons in Hi as [->|Hi]; [vm_compute in E; discriminate|].
    apply list_elem_of_singleton in Hi as ->. vm_compute in E. discriminate.
Defined.

(** Without workers the walk waits forever for someone to take the first ID. *)
Example verify_without_workers : forall p,
  ~ verify_step (H := toy_codec) (fun _ => None) ex_store true (Verify ex_store 0 ex_visits ex_full) p.
Proof.
  unfold Verify. assert (walk ex_store ex_visits = ([ex_wanted; ex_unwanted], None)) as -> by (vm_compute; reflexivity).
  intros p Hp. inversion Hp; discriminate.
Qed.
