(* ===== verification/Pipelines.v ===== *)
(** * Pipelines: the functions built on worker pools

    Copy (copy.go), ChunkStorage (chunkstorage.go), ChunkStream (index.go), ChopFile (chop.go) and
    VerifyIndex (verifyindex.go) as pools of Pool.v: a definition gives the calls a worker makes
    for one job, and another what the function returns in a state of the pool. The stores they use
    keep the promises of [FlakyRead] and [FlakyWrite], or of [Source] and [Sink] where they are put
    together from others; all of these allow for failures. *)

From S2P Require Import Prelude Rolling Boundary Format Index Chunk Chunker Stores Composition Files Assemble Pool.

(** ** Copy (copy.go) *)

Section copy.

Context {W : Type} `{Codec}.

Definition copy_body (src dst : Store W) (i : ChunkID) : proc W :=
  Do (sHasChunk dst i) (fun '(hasChunk, err) =>
  match err with
  | Some _ => Ret err
  | None =>
    if hasChunk : bool then Ret None                                   (* continue *)
    else
      Do (sGetChunk src i) (fun '(chunk, err) =>
      match err, chunk with
      | Some _, _ => Ret err
      | None, None => Crash
      | None, Some chunk =>
        match sStoreChunk dst with
        | Some StoreChunk => Do (StoreChunk chunk) Ret
        | None => Crash
        end
      end)
  end).

(** Copy in progress: [n] workers, fed with the ids. *)
Definition Copy (ids : list ChunkID) (n : nat) (w : W) : pool := start n ids w.
Definition copy_step (src dst : Store W) := pany (copy_body src dst) None.

Abbreviation View := (W -> ChunkID -> option bytes).
Context (inv : W -> Prop) (Fails : error -> Prop) (src dst : Store W) (vs vd : View).
Context (st : Chunk -> W -> option error * W).
Context (ids : list ChunkID) (w0 : W).

Context (nonempty : forall i d, i ∈ ids -> vs w0 i = Some d -> d <> []).

(** What the destination may hold, while copying. *)
Definition copying (_ : unit) (w : W) : Prop :=
  inv w /\ (forall j, vs w j = vs w0 j) /\
  forall j, vd w j = vd w0 j \/ (j ∈ ids /\ vd w0 j = None /\ vd w j = vs w0 j).

Definition copied (i : ChunkID) (_ : unit) (w : W) : Prop := is_Some (vd w i).
Definition only_more (_ : nat) (_ : unit) (w : W) (_ : unit) (w' : W) : Prop :=
  forall j, is_Some (vd w j) -> is_Some (vd w' j).
Definition copy_fails (e : error) : Prop :=
  Fails e \/ exists i, i ∈ ids /\ e = ChunkMissing i /\ vs w0 i = None /\ vd w0 i = None.

(** Reading either store changes what neither holds, writing the destination not what the source
    holds. *)
Section sources.

Context (R O : relation W) (src_ok : Source inv Fails R src vs) (dst_ok : Sink inv Fails R O dst vd st).
Context (O_source : forall w w', O w w' -> forall j, vs w' j = vs w j).
Lemma copy_body_wp t i : i ∈ ids ->
  wp copying only_more copy_fails t (copy_body src dst i) (fun _ _ => True)
    (fun g w => True /\ copied i g w).
Proof.
  intros Hin. unfold copy_body. cbn [wp].
  assert (Hread : forall w w', copying () w -> inv w' -> (forall j, vd w' j = vd w j) ->
    (forall j, vs w' j = vs w j) -> copying () w' /\ only_more t () w () w').
  { intros w w' (Hi & Hv & Hd) Hi' E1 E2. split; [|intros j; by rewrite E1].
    split; [done|]. split; [intros j; by rewrite E2|]. intros j. rewrite E1. apply Hd. }
  exists (fun '(has, err) g w => (err = None -> if has : bool then copied i g w else vd w0 i = None)
    /\ forall e, err = Some e -> Fails e).
  split_and!.
  - intros [b e] u g w g' w' _ _ [HP He] Hm _. split; [|done]. intros E. specialize (HP E).
    destruct b; [by apply Hm|done].
  - intros [] w Hc _. destruct (sHasChunk dst i w) as [[b e] w'] eqn:E.
    destruct (src_has _ _ _ _ _ (sink_read _ _ _ _ _ _ _ dst_ok) i w b e w' (proj1 Hc) E) as (Hi' & HR & Hb).
    pose proof (src_view _ _ _ _ _ src_ok _ _ HR) as Hvs.
    pose proof (src_view _ _ _ _ _ (sink_read _ _ _ _ _ _ _ dst_ok) _ _ HR) as Hvd.
    exists (). destruct (Hread w w' Hc Hi') as [H1 H2]; [done|done|].
    split; [done|]. split; [done|]. destruct e as [e|]; [by split; [|intros ? [= <-]]|].
    split; [|done]. intros _. subst b. destruct (vd w i) as [d|] eqn:Ed.
    + rewrite bool_decide_true by eauto. unfold copied. rewrite Hvd, Ed. eauto.
    + rewrite bool_decide_false by (by intros []). destruct Hc as (_ & _ & Hd).
      destruct (Hd i) as [?|(_ & ? & _)]; congruence.
  - intros [b [e|]]; cbn [wp]; [intros g w _ [_ He]; left; by apply He|].
    destruct b; cbn [wp]; [intros g w _ [HP _]; auto|].
    exists (fun '(oc, err) _ _ => match err, oc with
      | None, Some c => vd w0 i = None /\ exists d, vs w0 i = Some d /\ holds c i d
      | None, None => False
      | Some e, _ => copy_fails e end).
    split_and!.
    + by intros [oc [e|]] u g w g' w' _ _ HP _ _.
    + intros [] w Hc [HP _]. specialize (HP eq_refl). cbn in HP.
      destruct (sGetChunk src i w) as [[oc e] w'] eqn:E.
      destruct (src_get _ _ _ _ _ src_ok i w oc e w' (proj1 Hc) E) as (Hi' & HR & Hr).
      pose proof (src_view _ _ _ _ _ src_ok _ _ HR) as Hvs.
      pose proof (src_view _ _ _ _ _ (sink_read _ _ _ _ _ _ _ dst_ok) _ _ HR) as Hvd.
      exists (). destruct (Hread w w' Hc Hi') as [H1 H2]; [done|done|].
      split; [done|]. split; [done|]. destruct Hc as (_ & Hv & _). destruct e as [e|].
      * destruct Hr as [?|[-> Hn]]; [by left|]. right. exists i. rewrite Hv in Hn. done.
      * destruct oc as [c|]; [|done]. split; [done|]. by rewrite Hv in Hr.
    + intros [oc [e|]]; cbn [wp]; [by intros g w _ He|].
      destruct oc as [c|]; cbn [wp]; [|by intros g w _ []].
      rewrite (sink_write _ _ _ _ _ _ _ dst_ok). cbn [wp].
      exists (fun err g w => match err with None => copied i g w | Some e => Fails e end).
      split_and!.
      * intros [e|] u g w g' w' _ _ HP Hm _; [done|]. by apply Hm.
      * intros [] w Hc [Hn (d & Hd & Hh)]. destruct (st c w) as [e w'] eqn:E.
        assert (Hne : d <> []) by (by eapply nonempty).
        destruct (sink_store _ _ _ _ _ _ _ dst_ok c i d w e w' (proj1 Hc) Hh Hne E) as (Hi' & Hj & HO & Hr).
        pose proof (O_source _ _ HO) as Hvs.
        exists (). destruct Hc as (_ & Hv & Hvd).
        assert (Hi2 : vd w' i = vd w i \/ vd w' i = Some d)
          by (destruct e; [by destruct Hr|by right]).
        split; [split; [done|]; split; [intros j; by rewrite Hvs|]|split].
        -- intros j. destruct (decide (j = i)) as [->|Hne']; [|rewrite Hj by done; apply Hvd].
           destruct Hi2 as [-> | ->]; [apply Hvd|]. right. split; [done|]. by rewrite Hd.
        -- intros j. destruct (decide (j = i)) as [->|Hne']; [|by rewrite Hj].
           destruct Hi2 as [-> | ->]; [done|]. by eexists.
        -- destruct e as [e|]; [by destruct Hr|]. unfold copied. rewrite Hr. by eexists.
      * intros [e|]; cbn [wp]; [intros g w _ He; by left|by intros g w _ HP].
Qed.

Lemma Copy_runs n :
  (0 < n)%nat -> inv w0 ->
  sn (copy_step src dst) (Copy ids n w0) /\
  forall s, rtc (copy_step src dst) (Copy ids n w0) s ->
    match result s with
    | None => exists s', pstep (copy_body src dst) None s s'
    | Some (Some e) => copy_fails e
    | Some None => parent s = false ->
        (forall j, vs (world s) j = vs w0 j) /\
        forall j, vd (world s) j = match vd w0 j with
                                  | Some d => Some d
                                  | None => if decide (j ∈ ids) then vs w0 j else None
                                  end
    end.
Proof using All.
  intros Hn Hi.
  destruct (pool_correct (copy_body src dst) None copying only_more (fun _ _ _ => True) copied
    copy_fails ids n) with (g0 := tt) (w0 := w0) as [Hsn Hres]; try done.
  - intros i t [] w [] w' _ _ HP Hm _. by apply Hm.
  - intros t j _ Hj. by apply copy_body_wp.
  - split; [done|]. split; [done|]. by left.
  - split; [exact Hsn|]. intros s Hs. specialize (Hres s Hs).
    destruct (result s) as [[e|]|]; [done| |done].
    intros Hp. destruct (Hres Hp) as (_ & [] & (_ & Hv & Hd) & _ & Hpost). split; [done|].
    intros j. destruct (Hd j) as [E|(Hj & -> & ->)]; [|by rewrite decide_True].
    rewrite E. destruct (vd w0 j) as [d|] eqn:E0; [done|]. goal_decide Hj; [|done].
    destruct (Hpost j Hj) as [d Hd']. congruence.
Qed.

End sources.

(** Copy with any number of workers, in every interleaving of their calls, with stores that
    may fail now and then: it ends, it never hangs or panics; an error it returns is one of a
    store, or ChunkMissing for a requested chunk neither store had; and when it returns nil
    without having been cancelled, the source is as it was and the destination holds what it held
    before plus, for the requested IDs it lacked, the data of the source. *)
Theorem Copy_correct n :
  FlakyRead inv Fails src vs vd -> FlakyWrite inv Fails dst vd st vs ->
  (0 < n)%nat -> inv w0 ->
  sn (copy_step src dst) (Copy ids n w0) /\
  forall s, rtc (copy_step src dst) (Copy ids n w0) s ->
    match result s with
    | None => exists s', pstep (copy_body src dst) None s s'
    | Some (Some e) => copy_fails e
    | Some None => parent s = false ->
        (forall j, vs (world s) j = vs w0 j) /\
        forall j, vd (world s) j = match vd w0 j with
                                  | Some d => Some d
                                  | None => if decide (j ∈ ids) then vs w0 j else None
                                  end
    end.
Proof using nonempty.
  intros Hsrc Hdst.
  set (R w w' := (forall j, vs w' j = vs w j) /\ forall j, vd w' j = vd w j).
  apply (Copy_runs R (fun w w' => forall j, vs w' j = vs w j)); [| |done].
  - apply (flaky_source inv Fails R src vs vd); [done|by intros w w' [? _]|]. intros w w' _ _ H1 H2. by split; [|rewrite H2].
  - apply (flaky_sink inv Fails R _ dst vd st vs); [done|by intros w w' [_ ?]| |by intros w w' _ _ ->].
    intros w w' _ _ H1 H2. by split; [rewrite H2|].
Qed.

End copy.

Lemma ex_flaky_write :
  FlakyWrite (H := toy_codec) (fun _ => True) (fun _ => False) ex_local
    (fun w => ex_view (fst w)) ex_put (fun w => ex_view (snd w)).
Proof. eapply write_spec_flaky; [exact ex_write_spec|]. by intros w w' [= ->]. Qed.

Lemma Copy_correct_witness :
  let p := Copy [ex_id; ex_id] 2 ex_world in
  sn (copy_step ex_remote ex_local) p /\
  forall s, rtc (copy_step ex_remote ex_local) p s -> result s = Some None -> parent s = false ->
    ex_view (fst (world s)) ex_id = Some (str "data").
Proof.
  destruct (Copy_correct (H := toy_codec) (fun _ => True) (fun _ => False) ex_remote ex_local
    (fun w => ex_view (snd w)) (fun w => ex_view (fst w)) ex_put
    [ex_id; ex_id] ex_world ltac:(intros i d _; apply ex_world_nonempty) 2
    (read_spec_flaky _ _ _ _ _ (ex_read_spec _ _ _ _)) ex_flaky_write ltac:(lia) I) as [Hsn H].
  split; [exact Hsn|]. intros s Hs Hr Hp. specialize (H s Hs). rewrite Hr in H.
  rewrite (proj2 (H Hp)). vm_compute. reflexivity.
Defined.

(** When the caller's context is cancelled between two chunks Copy returns nil, with chunks left. *)
Example copy_cancelled_returns_nil :
  exists s, rtc (copy_step ex_remote ex_local) (Copy [ex_id] 1 ex_world) s /\
    result s = Some None /\ world s = ex_world.
Proof.
  unfold Copy, start. cbn [replicate]. eexists. split.
  - eapply rtc_l; [right; apply p_cancel|]. eapply rtc_l; [left; apply p_stop|].
    eapply rtc_once. left. by apply (p_quit _ _ 0).
  - done.
Qed.

(** ** ChunkStorage (chunkstorage.go) on a store *)

(** What the goroutines of one function share: the marks of the ChunkStorage, the rows of the
    index being collected (ChunkStream), and the rest of the world. *)
Record Shared (W : Type) := mkShared {
  processed : gset ChunkID;
  results : gmap nat IndexChunk;
  base : W
}.
Arguments mkShared {W}.
Arguments processed {W}.
Arguments results {W}.
Arguments base {W}.

Section storing.

Context {W : Type} `{Codec}.

Definition on_base {R} (f : W -> R * W) (w : Shared W) : R * Shared W :=
  let '(r, w') := f (base w) in (r, mkShared (processed w) (results w) w').

Definition markProcessed (i : ChunkID) (w : Shared W) : bool * Shared W :=
  (bool_decide (i ∈ processed w), mkShared (processed w ∪ {[i]}) (results w) (base w)).

Definition unmarkProcessed (i : ChunkID) (w : Shared W) : unit * Shared W :=
  (tt, mkShared (processed w ∖ {[i]}) (results w) (base w)).

(** ChunkStorage.StoreChunk; the deferred unmark runs when the store has failed. *)
Definition StoreChunk (ws : Store W) (chunk : Chunk) : proc (Shared W) :=
  let '(i, chunk) := ChunkID_ chunk in
  Do (markProcessed i) (fun marked =>
  if marked : bool then Ret None
  else
    Do (on_base (sHasChunk ws i)) (fun '(hasChunk, err) =>
    match err with
    | Some _ => Ret err
    | None =>
      if hasChunk : bool then Ret None
      else
        match sStoreChunk ws with
        | None => Crash
        | Some store =>
          Do (on_base (store chunk)) (fun err =>
          match err with
          | None => Ret None
          | Some _ => Do (unmarkProcessed i) (fun _ => Ret err)
          end)
        end
    end)).

Abbreviation View := (W -> ChunkID -> option bytes).
Context (inv : W -> Prop) (Fails : error -> Prop) (ws : Store W) (view : View).
Context {A : Type} (other : W -> A) (st : Chunk -> W -> option error * W).
Context (ws_ok : FlakyWrite inv Fails ws view st other).

(** [stock] is the data the workers have to store, [rows] the rows they may record, [w0] the world
    at the start. *)
Context (stock : list bytes) (rows : list IndexChunk) (w0 : W).
Context (stock_nonempty : [] ∉ stock) (n : nat).

(** The ghost state: which worker is at which chunk; [true] while it holds the mark. *)
Abbreviation Claims := (gmap nat (ChunkID * bool)).

Record storing (g : Claims) (s : Shared W) : Prop := {
  st_inv : inv (base s);
  st_other : other (base s) = other w0;
  st_view i : view (base s) i = view w0 i \/
    (view w0 i = None /\ exists d, d ∈ stock /\ Sum d = i /\ view (base s) i = Some d);
  st_claim t i : g !! t = Some (i, true) -> i ∈ processed s;
  st_processed i : i ∈ processed s -> is_Some (view (base s) i) \/ exists t b, g !! t = Some (i, b);
  st_unique t u i : g !! t = Some (i, true) -> g !! u = Some (i, true) -> t = u;
  st_worker t x : g !! t = Some x -> (t < n)%nat;
  st_rows k r : results s !! k = Some r -> rows !! k = Some r
}.

(** A call of worker [t] touches only its own claim, loses no chunk and no row, and stores nothing
    but the chunk it has claimed. *)
Definition storing_step (t : nat) (g : Claims) (s : Shared W) (g' : Claims) (s' : Shared W) : Prop :=
  (forall u, u <> t -> g' !! u = g !! u) /\
  (forall i, is_Some (view (base s) i) -> is_Some (view (base s') i)) /\
  (forall i b, g !! t = Some (i, b) ->
     g' !! t = Some (i, b) \/ g' !! t = Some (i, false) \/ is_Some (view (base s') i)) /\
  (forall i, g !! t <> Some (i, true) -> view (base s') i = view (base s) i) /\
  results s ⊆ results s'.

Definition resting (t : nat) (g : Claims) (s : Shared W) : Prop := g !! t = None.
(** The chunk is stored, or a worker has not finished it. *)
Definition kept (i : ChunkID) (g : Claims) (s : Shared W) : Prop :=
  is_Some (view (base s) i) \/ exists t b, g !! t = Some (i, b).

Lemma resting_stable t : stable storing storing_step (fun u => u <> t) (resting t).
Proof. intros u g s g' s' Hu _ Hr (Hg & _) _. unfold resting. by rewrite Hg by congruence. Qed.

Lemma kept_stable i : stable storing storing_step (fun _ => True) (kept i).
Proof.
  intros u g s g' s' _ _ [Hv|(t & b & Ht)] (Hg & Hm & Hc & _) _; [left; auto|].
  destruct (decide (t = u)) as [->|Hne].
  - destruct (Hc i b Ht) as [?|[?|?]]; [right; eauto..|by left].
  - right. exists t, b. by rewrite Hg.
Qed.

Lemma row_stable k r : stable storing storing_step (fun _ => True) (fun _ s => results s !! k = Some r).
Proof. intros u g s g' s' _ _ Hr (_ & _ & _ & _ & Hs) _. by eapply lookup_weaken. Qed.

(** Worker [t] gives up its claim on a chunk that is stored. *)
Lemma storing_release t g s i :
  storing g s -> g !! t = Some (i, true) -> is_Some (view (base s) i) -> storing (delete t g) s.
Proof.
  intros [S1 S2 S3 S4 S5 S6 S7 S8] Ht Hv.
  assert (Hd : forall u x, delete t g !! u = Some x -> u <> t /\ g !! u = Some x)
    by (intros u x [? ?]%lookup_delete_Some; auto).
  split; try done.
  - intros u j [_ Hu]%Hd. by eapply S4.
  - intros j Hj. destruct (S5 j Hj) as [?|(u & b & Hu)]; [by left|].
    destruct (decide (u = t)) as [->|Hne].
    + rewrite Ht in Hu. injection Hu as <- <-. by left.
    + right. exists u, b. by rewrite lookup_delete_ne.
  - intros u v j [_ Hu]%Hd [_ Hv']%Hd. by eapply S6.
  - intros u x [_ Hu]%Hd. by eapply S7.
Qed.

(** A call of the store that changes at most the view at [i]. *)
Lemma storing_base g s w' i :
  storing g s -> inv w' -> other w' = other (base s) ->
  (forall j, j <> i -> view w' j = view (base s) j) ->
  (view w' i = view (base s) i \/
   view (base s) i = None /\ exists d, d ∈ stock /\ Sum d = i /\ view w' i = Some d) ->
  storing g (mkShared (processed s) (results s) w') /\
  forall j, is_Some (view (base s) j) -> is_Some (view w' j).
Proof.
  intros [S1 S2 S3 S4 S5 S6 S7 S8] Hi Ho Hj Hvi.
  assert (Hmore : forall j, is_Some (view (base s) j) -> is_Some (view w' j)).
  { intros j. destruct (decide (j = i)) as [->|Hne]; [|by rewrite Hj].
    destruct Hvi as [-> |(_ & d & _ & _ & ->)]; [done|]. by eexists. }
  split; [|done]. split; cbn; try done; [congruence| |].
  - intros j. destruct (decide (j = i)) as [->|Hne]; [|by rewrite Hj].
    destruct Hvi as [-> |(Hn & Hd)]; [done|]. right. split; [|done].
    destruct (S3 i) as [E|(E & _)]; congruence.
  - intros j Hjp. destruct (S5 j Hjp) as [?|?]; [left; auto|by right].
Qed.

Lemma storing_mark t g s i :
  (t < n)%nat -> storing g s -> g !! t = None ->
  let '(marked, s') := markProcessed i s in
  exists g', storing g' s' /\ storing_step t g s g' s' /\
    if marked then g' !! t = None /\ kept i g' s' else g' !! t = Some (i, true).
Proof.
  intros Hn Hst Ht. pose proof Hst as [S1 S2 S3 S4 S5 S6 S7 S8]. unfold markProcessed.
  case_bool_decide as Hin.
  - exists g. split; [|split; [|split; [done|apply S5, Hin]]].
    + split; cbn; try done; [intros u j Hu; apply S4 in Hu; set_solver|].
      intros j Hj. apply S5. set_solver.
    + split_and!; cbn; auto.
  - assert (Hlook : forall u x, <[t := (i, true)]> g !! u = Some x ->
      (u = t /\ x = (i, true)) \/ (u <> t /\ g !! u = Some x)).
    { intros u x [[<- <-]|[? ?]]%lookup_insert_Some; auto. }
    exists (<[t := (i, true)]> g). split; [|split; [|apply lookup_insert_eq]].
    + split; cbn; try done.
      * intros u j [[-> [= <-]]|[_ Hu]]%Hlook; [set_solver|]. apply S4 in Hu. set_solver.
      * intros j [Hj|Hj]%elem_of_union.
        -- destruct (S5 j Hj) as [?|(u & b & Hu)]; [by left|]. right. exists u, b.
           rewrite lookup_insert_ne by congruence. done.
        -- apply elem_of_singleton in Hj as ->. right. exists t, true. apply lookup_insert_eq.
      * intros u v j [[-> [= <-]]|[Hu0 Hu]]%Hlook [[-> E]|[Hv0 Hv]]%Hlook; auto.
        -- by destruct Hin; apply (S4 v).
        -- injection E as ->. by destruct Hin; apply (S4 u).
        -- by eapply S6.
      * intros u x [[-> _]|[_ Hu]]%Hlook; [done|by eapply S7].
    + split_and!; cbn; auto.
      * intros u Hu. by rewrite lookup_insert_ne by congruence.
      * intros j b Hj. congruence.
Qed.

(** The store has failed: worker [t] removes the mark. *)
Lemma storing_unmark t g s i :
  storing g s -> g !! t = Some (i, true) ->
  exists g', storing g' (snd (unmarkProcessed i s)) /\ storing_step t g s g' (snd (unmarkProcessed i s)).
Proof.
  intros [S1 S2 S3 S4 S5 S6 S7 S8] Ht. exists (<[t := (i, false)]> g). cbn.
  assert (Hlook : forall u j, <[t := (i, false)]> g !! u = Some (j, true) -> u <> t /\ g !! u = Some (j, true)).
  { intros u j [[_ ?]|[? ?]]%lookup_insert_Some; [done|auto]. }
  split.
  - split; cbn; try done.
    + intros u j [Hu Hg]%Hlook. apply elem_of_difference. split; [by eapply S4|].
      intros Hji%elem_of_singleton. subst j. by apply Hu, (S6 _ _ i).
    + intros j [Hj _]%elem_of_difference. destruct (S5 j Hj) as [?|(u & b & Hu)]; [by left|].
      right. destruct (decide (u = t)) as [->|Hne].
      * rewrite Ht in Hu. injection Hu as <- <-. exists t, false. apply lookup_insert_eq.
      * exists u, b. by rewrite lookup_insert_ne.
    + intros u v j [_ Hu]%Hlook [_ Hv]%Hlook. by eapply S6.
    + intros u x [[-> _]|[_ Hu]]%lookup_insert_Some; by eapply S7.
  - split_and!; cbn; auto.
    + intros u Hu. by rewrite lookup_insert_ne by congruence.
    + intros j b. rewrite Ht. intros [= <- <-]. right. left. apply lookup_insert_eq.
Qed.

(** A call of the store after which the chunk of worker [t] is stored. *)
Lemma storing_done t g s w' i :
  storing g s -> g !! t = Some (i, true) -> inv w' -> other w' = other (base s) ->
  (forall j, j <> i -> view w' j = view (base s) j) -> is_Some (view w' i) ->
  (view w' i = view (base s) i \/
   view (base s) i = None /\ exists d, d ∈ stock /\ Sum d = i /\ view w' i = Some d) ->
  let s' := mkShared (processed s) (results s) w' in
  exists g', storing g' s' /\ storing_step t g s g' s' /\ resting t g' s' /\ kept i g' s'.
Proof.
  intros Hst Ht Hi Ho Hj Hsome Hvi s'. destruct (storing_base g s w' i Hst Hi Ho Hj Hvi) as [Hst' Hm].
  exists (delete t g). split; [by eapply storing_release|]. split; [|split; [apply lookup_delete_eq|by left]].
  split_and!; [|done| |intros j Hne; apply Hj; congruence|done].
  - intros u Hu. by rewrite lookup_delete_ne by congruence.
  - intros j b. rewrite Ht. intros [= <- <-]. by right; right.
Qed.

(** A call of the store that fails or answers without storing anything. *)
Lemma storing_stay t g s w' i :
  storing g s -> g !! t = Some (i, true) -> inv w' -> other w' = other (base s) ->
  (forall j, j <> i -> view w' j = view (base s) j) ->
  (view w' i = view (base s) i \/
   view (base s) i = None /\ exists d, d ∈ stock /\ Sum d = i /\ view w' i = Some d) ->
  let s' := mkShared (processed s) (results s) w' in storing g s' /\ storing_step t g s g s'.
Proof.
  intros Hst Ht Hi Ho Hj Hvi s'. destruct (storing_base g s w' i Hst Hi Ho Hj Hvi) as [Hst' Hm].
  split; [done|]. split_and!; cbn; auto. intros j Hne. apply Hj. congruence.
Qed.

(** The states of a worker in StoreChunk; [X] is what it has established before. *)
Section states.

Context (t : nat) (i : ChunkID) (X : Claims -> Shared W -> Prop).
Context (X_stable : stable storing storing_step (fun _ => True) X).

Definition finished (g : Claims) (s : Shared W) : Prop := resting t g s /\ kept i g s /\ X g s.
Definition holding (g : Claims) (s : Shared W) : Prop := g !! t = Some (i, true) /\ X g s.

Lemma finished_stable : stable storing storing_step (fun u => u <> t) finished.
Proof using X_stable.
  intros u g s g' s' Hu Hst (Hr & Hk & Hx) Hstep Hst'.
  split; [by eapply (resting_stable t u g s)|].
  split; [by eapply (kept_stable i u g s)|by eapply (X_stable u g s)].
Qed.

Lemma holding_stable : stable storing storing_step (fun u => u <> t) holding.
Proof using X_stable.
  intros u g s g' s' Hu Hst (Ht & Hx) Hstep Hst'. split; [|by eapply (X_stable u g s)].
  destruct Hstep as [Hg _]. by rewrite Hg by congruence.
Qed.

(** Nobody else stores the chunk. *)
Lemma holding_missing_stable :
  stable storing storing_step (fun u => u <> t) (fun g s => holding g s /\ view (base s) i = None).
Proof using X_stable.
  intros u g s g' s' Hu Hst (Hh & Hv) Hstep Hst'. split; [by eapply (holding_stable u g s)|].
  destruct Hstep as (_ & _ & _ & Hview & _). rewrite Hview; [done|].
  intros Hg. apply Hu. eapply (st_unique _ _ Hst); [done|apply Hh].
Qed.

Lemma mark_wp g s : (t < n)%nat -> storing g s -> resting t g s /\ X g s ->
  let '(marked, s') := markProcessed i s in exists g', storing g' s' /\ storing_step t g s g' s' /\
    if marked : bool then finished g' s' else holding g' s'.
Proof using ws_ok X_stable stock_nonempty.
  intros Hn Hst [Hr Hx]. pose proof (storing_mark t g s i Hn Hst Hr) as Hm.
  destruct (markProcessed i s) as [marked s']. destruct Hm as (g' & H1 & H2 & H3).
  assert (X g' s') by (by eapply (X_stable t g s)). exists g'.
  split; [done|]. split; [done|]. destruct marked; split; try done; [apply H3|].
  split; [apply H3|done].
Qed.

Lemma has_wp g s : storing g s -> holding g s ->
  let '((has, err), s') := on_base (sHasChunk ws i) s in
  exists g', storing g' s' /\ storing_step t g s g' s' /\
    match err with
    | Some e => Fails e
    | None => if has : bool then finished g' s' else holding g' s' /\ view (base s') i = None
    end.
Proof using ws_ok X_stable stock_nonempty.
  intros Hst [Ht Hx]. unfold on_base. destruct (sHasChunk ws i (base s)) as [[b e] w'] eqn:E.
  destruct (flaky_has inv Fails i (base s) b e w' (st_inv _ _ Hst) E) as (Hi & Hv & Ho & Hb).
  destruct (storing_stay t g s w' i Hst Ht Hi Ho) as [Hst' Hstep]; [by intros j _|by left|].
  destruct e as [e|]; [by exists g|]. destruct (view (base s) i) as [d|] eqn:Ei.
  - rewrite bool_decide_true in Hb by eauto. subst b.
    destruct (storing_done t g s w' i Hst Ht Hi Ho) as (g' & H1 & H2 & H3 & H4);
      [by intros j _|by rewrite Hv, Ei|by left|].
    exists g'. split; [done|]. split; [done|]. split; [done|]. split; [done|]. by eapply (X_stable t g s).
  - rewrite bool_decide_false in Hb by (by intros []). subst b. exists g. split; [done|].
    split; [done|]. split; [split; [done|by eapply (X_stable t g s)]|]. cbn. by rewrite Hv.
Qed.

Lemma store_wp g s c d : holds c i d -> d ∈ stock -> storing g s -> holding g s /\ view (base s) i = None ->
  let '(err, s') := on_base (st c) s in
  exists g', storing g' s' /\ storing_step t g s g' s' /\
    match err with None => finished g' s' | Some e => holding g' s' /\ Fails e end.
Proof using ws_ok X_stable stock_nonempty.
  intros Hh Hd Hst [[Ht Hx] Hv]. unfold on_base. destruct (st c (base s)) as [e w'] eqn:E.
  assert (Hne : d <> []) by (intros ->; done).
  destruct (flaky_store inv Fails c i d (base s) e w' (st_inv _ _ Hst) Hh Hne E) as (Hi & Hj & Ho & Hr).
  assert (Hsum : Sum d = i) by apply Hh.
  assert (Hvi : view w' i = view (base s) i \/
     view (base s) i = None /\ exists d, d ∈ stock /\ Sum d = i /\ view w' i = Some d).
  { destruct e; [destruct Hr as [_ [?|?]]; [by left|]|]; right; eauto. }
  destruct e as [e|].
  - destruct (storing_stay t g s w' i Hst Ht Hi Ho Hj Hvi) as [H1 H2]. exists g.
    split; [done|]. split; [done|]. split; [|apply Hr]. split; [done|]. by eapply (X_stable t g s).
  - destruct (storing_done t g s w' i Hst Ht Hi Ho Hj ltac:(by rewrite Hr) Hvi) as (g' & H1 & H2 & H3 & H4).
    exists g'. split; [done|]. split; [done|]. split; [done|]. split; [done|]. by eapply (X_stable t g s).
Qed.

End states.

Lemma StoreChunk_wp t c i c' d X :
  (t < n)%nat -> ChunkID_ c = (i, c') -> holds c' i d -> d ∈ stock ->
  stable storing storing_step (fun _ => True) X ->
  wp storing storing_step Fails t (StoreChunk ws c) (fun g s => resting t g s /\ X g s) (finished t i X).
Proof using ws_ok stock_nonempty.
  intros Hn Hc Hh Hd HX. unfold StoreChunk. rewrite Hc. cbn [wp].
  exists (fun (marked : bool) => if marked then finished t i X else holding t i X). split_and!.
  { intros []; [by apply finished_stable|by apply holding_stable]. }
  { intros g s Hst HP. pose proof (mark_wp t i X HX g s Hn Hst HP) as Hm.
    destruct (markProcessed i s) as [[] s']; exact Hm. }
  intros []; cbn [wp]; [by intros g s _ ?|].
  exists (fun '(has, err) => match err with
    | Some e => fun _ _ => Fails e
    | None => if has : bool then finished t i X else fun g s => holding t i X g s /\ view (base s) i = None
    end). split_and!.
  { intros [[] [e|]]; try (by intros u g s g' s' _ _ ?);
      [by apply finished_stable|by apply holding_missing_stable]. }
  { intros g s Hst HP. pose proof (has_wp t i X HX g s Hst HP) as Hm.
    destruct (on_base (sHasChunk ws i) s) as [[[] [e|]] s']; exact Hm. }
  intros [[] [e|]]; cbn [wp]; try (by intros g s _ ?).
  rewrite (flaky_write (s := ws) (view := view) (st := st) (other := other) inv Fails). cbn [wp].
  exists (fun err => match err with
    | None => finished t i X
    | Some e => fun g s => holding t i X g s /\ Fails e end). split_and!.
  { intros [e|]; [|by apply finished_stable]. intros u g s g' s' Hu Hst [? ?] Hstep Hst'.
    split; [by eapply (holding_stable t i X HX u g s)|done]. }
  { intros g s Hst HP. pose proof (store_wp t i X HX g s c' d Hh Hd Hst HP) as Hm.
    destruct (on_base (st c') s) as [[e|] s']; exact Hm. }
  intros [e|]; cbn [wp]; [|by intros g s _ ?].
  exists (fun _ _ _ => Fails e). split_and!; [by intros _ u g s g' s' _ _ ?| |by intros _ g s _ ?].
  intros g s Hst [[Ht _] He]. destruct (storing_unmark t g s i Hst Ht) as (g' & H1 & H2). by exists g'.
Qed.

Lemma start_storing : inv w0 -> storing ∅ (mkShared ∅ ∅ w0).
Proof.
  intros Hi. split; cbn; try done; intros; first [by left|by rewrite lookup_empty in *|set_solver].
Qed.

(** What holds when every worker has finished. *)
Lemma storing_end g s :
  storing g s -> (forall t, (t < n)%nat -> resting t g s) ->
  forall i, kept i g s -> is_Some (view (base s) i).
Proof.
  intros Hst Hr i [?|(t & b & Ht)]; [done|].
  pose proof (st_worker _ _ Hst _ _ Ht) as Hn. by rewrite (Hr t Hn) in Ht.
Qed.

End storing.

Lemma size_map_seq {A} (l : list A) : size (map_seq (M := gmap nat A) 0 l) = length l.
Proof.
  induction l as [|x l IH] using rev_ind; [done|]. rewrite map_seq_snoc.
  rewrite map_size_insert_None by (apply lookup_map_seq_None; right; lia).
  rewrite IH, length_app. cbn. lia.
Qed.

Lemma NewChunk_id `{Codec} b : b <> [] ->
  ChunkID_ (NewChunk b) = (Sum b, mkChunk b [] [] (Sum b) true) /\
  holds (mkChunk b [] [] (Sum b) true) (Sum b) b.
Proof.
  intros Hb. assert (Hl : (0 < length b)%nat) by (destruct b; [done|cbn; lia]). split.
  - unfold ChunkID_, NewChunk, Data. cbn [idCalculated data]. by rewrite decide_True.
  - split; [|done]. unfold plain, Data. cbn [data]. by rewrite decide_True.
Qed.

(** ** ChunkStream (index.go) *)

Section stream.

Context {W : Type} `{Codec}.

Definition recordResult (num : nat) (r : IndexChunk) (s : Shared W) : unit * Shared W :=
  (tt, mkShared (processed s) (<[num := r]> (results s)) (base s)).

(** A job: the number of the chunk, its start, its bytes. *)
Abbreviation chunkJob := (nat * Z * bytes)%type.

Definition idxChunk (start : Z) (b : bytes) : IndexChunk :=
  mkIndexChunk (fst (ChunkID_ (NewChunk b))) start (Z.of_nat (length b)).

Definition stream_body (ws : Store W) (c : chunkJob) : proc (Shared W) :=
  let '(num, start, b) := c in
  let chunk := snd (ChunkID_ (NewChunk b)) in
  Do (recordResult num (idxChunk start b)) (fun _ => StoreChunk ws chunk).

(** What the loop around [c.Next()] sends, and the error it leaves the function with; what Next
    returns along with an error is dropped. *)
Definition stream_feed (d : list (Z * bytes) * option error) : list chunkJob * option error :=
  let '(l, e) := d in
  (imap (fun num '(start, b) => (num, start, b)) (match e with None => l | Some _ => removelast l end), e).

(** The rows in the order of their numbers. *)
Definition collect_rows (results : gmap nat IndexChunk) : list IndexChunk :=
  map (fun k => default (mkIndexChunk zero_id 0 0) (results !! k)) (seq 0 (size results)).

Definition stream_index (c : Chunker.Chunker) (results : gmap nat IndexChunk) : Index :=
  mkIndex (mkHeader 0 0) (Z.lor CaFormatExcludeNoDump CaFormatSHA512256)
    (Chunker.Min c) (Chunker.Avg c) (Chunker.Max c) (collect_rows results).

Definition ChunkStream (jobs : list chunkJob) (n : nat) (w : W) : pool :=
  start n jobs (mkShared ∅ ∅ w).
Definition stream_step (ws : Store W) (feed_end : option error) := pany (stream_body ws) feed_end.

(** What ChunkStream has returned, once it has. *)
Definition stream_result (c : Chunker.Chunker) (s : pool (W := Shared W) (J := chunkJob)) : option (outcome Index) :=
  (fun e => match e with
   | Some e => Err e
   | None => Ok (stream_index c (results (world s)))
   end) <$> result s.

Lemma collect_rows_spec rows : collect_rows (map_seq 0 rows) = rows.
Proof.
  unfold collect_rows. rewrite size_map_seq. apply list_eq. intros k.
  rewrite list_lookup_fmap. destruct (decide (k < length rows)%nat) as [Hk|Hk].
  - rewrite lookup_seq_lt by done. cbn. rewrite lookup_map_seq_0.
    by destruct (lookup_lt_is_Some_2 _ _ Hk) as [x ->].
  - rewrite lookup_seq_ge by lia. cbn. symmetry. apply lookup_ge_None. lia.
Qed.

Abbreviation View := (W -> ChunkID -> option bytes).
Context (inv : W -> Prop) (Fails : error -> Prop) (ws : Store W) (view : View).
Context {A : Type} (other : W -> A) (st : Chunk -> W -> option error * W).
Context (ws_ok : FlakyWrite inv Fails ws view st other).

(** The pool on the chunks [l] of any chunker. *)
Section chunks.

Context (l : list (Z * bytes)) (feed_end : option error) (n : nat) (w0 : W).
Context (l_nonempty : forall s b, (s, b) ∈ l -> b <> []) (w0_inv : inv w0) (n_pos : (0 < n)%nat).

Let Fails' (e : error) : Prop := Fails e \/ feed_end = Some e.
Let jobs := imap (fun num '(start, b) => (num, start, b)) l : list chunkJob.
Let stock := map snd l.
Definition stream_rows : list IndexChunk := map (fun '(start, b) => mkIndexChunk (Sum b) start (Z.of_nat (length b))) l.
Let Inv := storing inv view other stock stream_rows w0 n.
Let Step := storing_step (W := W) view.

Definition stream_post (j : chunkJob) (g : gmap nat (ChunkID * bool)) (s : Shared W) : Prop :=
  let '(num, start, b) := j in
  kept view (Sum b) g s /\ results s !! num = Some (mkIndexChunk (Sum b) start (Z.of_nat (length b))).

Lemma jobs_lookup num s b : (num, s, b) ∈ jobs -> l !! num = Some (s, b).
Proof using.
  intros [k Hk]%list_elem_of_lookup. unfold jobs in Hk. rewrite list_lookup_imap in Hk.
  destruct (l !! k) as [[s' b']|] eqn:E; [|done]. cbn in Hk. by injection Hk as <- <- <-.
Qed.

Lemma stream_post_stable j : stable Inv Step (fun _ => True) (stream_post j).
Proof using.
  destruct j as [[num start] b]. intros t g s g' s' Ht Hst [Hk Hr] Hstep Hst'.
  split; [by eapply (kept_stable _ _ _ _ _ _ _ _ t g s)|by eapply (row_stable _ _ _ _ _ _ _ _ _ t g s)].
Qed.

Lemma recording t num start b g s :
  (num, start, b) ∈ jobs -> Inv g s ->
  let r := mkIndexChunk (Sum b) start (Z.of_nat (length b)) in
  let s' := snd (recordResult num r s) in
  (results s !! num = None \/ results s !! num = Some r) -> Inv g s' /\ Step t g s g s'.
Proof using.
  intros Hj [S1 S2 S3 S4 S5 S6 S7 S8] r s' Hold. split.
  - split; cbn; try done. intros k x [[<- <-]|[? Hx]]%lookup_insert_Some; [|by apply S8].
    unfold stream_rows. rewrite list_lookup_fmap, (jobs_lookup _ _ _ Hj). done.
  - split_and!; cbn; auto. destruct Hold as [E|E]; [by apply insert_subseteq|].
    by rewrite insert_id.
Qed.

Lemma stream_body_wp t j : (t < n)%nat -> j ∈ jobs ->
  wp Inv Step Fails' t (stream_body ws j) (resting t)
    (fun g s => resting t g s /\ stream_post j g s).
Proof using ws_ok l_nonempty.
  destruct j as [[num start] b]. intros Ht Hj. pose proof (jobs_lookup _ _ _ Hj) as Hl.
  assert (Hin : (start, b) ∈ l) by (by eapply list_elem_of_lookup_2).
  assert (Hb : b <> []) by (by eapply l_nonempty).
  assert (Hstock : [] ∉ stock) by (intros ([s []] & E & Hs)%list_elem_of_fmap; [by eapply l_nonempty|done]).
  destruct (NewChunk_id b Hb) as [Hid Hh].
  unfold stream_body, idxChunk. rewrite Hid. cbn [fst snd wp].
  set (r := mkIndexChunk (Sum b) start (Z.of_nat (length b))).
  set (X := fun (_ : gmap nat (ChunkID * bool)) (s : Shared W) => results s !! num = Some r).
  assert (HX : stable Inv Step (fun _ => True) X) by apply row_stable.
  exists (fun _ g s => resting t g s /\ X g s). split_and!.
  - intros _ u g s g' s' Hu Hst [Hr Hx] Hstep Hst'.
    split; [by eapply (resting_stable _ _ _ _ _ _ _ _ u g s)|by eapply (HX u g s)].
  - intros g s Hst Hr. destruct (recording t num start b g s Hj Hst) as [H1 H2].
    { destruct (results s !! num) as [x|] eqn:E; [|by left]. right.
      apply (st_rows _ _ _ _ _ _ _ _ _ Hst) in E. unfold stream_rows in E.
      rewrite list_lookup_fmap, Hl in E. cbn in E. by injection E as <-. }
    exists g. split; [done|]. split; [done|]. split; [done|]. unfold X. cbn. apply lookup_insert_eq.
  - intros _.
    assert (Hok : FlakyWrite inv Fails' ws view st other)
      by (eapply flaky_weaken; [|exact ws_ok]; intros e He; by left).
    pose proof (StoreChunk_wp inv Fails' ws view other st Hok stock stream_rows w0 Hstock n t
      (mkChunk b [] [] (Sum b) true) (Sum b) (mkChunk b [] [] (Sum b) true) b X Ht eq_refl Hh) as Hwp.
    eapply wp_post; [apply Hwp; [|exact HX]|].
    + apply list_elem_of_fmap. by exists (start, b).
    + intros g s (H1 & H2 & H3). by split.
Qed.

(** What the store holds afterwards: what it held, and the chunks it lacked. *)
Definition stocked (w : W) : Prop :=
  inv w /\ other w = other w0 /\ (forall b, b ∈ stock -> is_Some (view w (Sum b))) /\
  forall i, view w i = view w0 i \/
    (view w0 i = None /\ exists d, d ∈ stock /\ Sum d = i /\ view w i = Some d).

Lemma stream_established w :
  established Inv resting stream_post jobs n w ->
  collect_rows (results w) = stream_rows /\ stocked (base w).
Proof using.
  intros (g & Hst & Hrest & Hpost).
  assert (Hk : forall k s b, l !! k = Some (s, b) -> stream_post (k, s, b) g w).
  { intros k s b Hk. apply Hpost. apply (list_elem_of_lookup_2 _ k). unfold jobs.
    by rewrite list_lookup_imap, Hk. }
  split.
  - rewrite <- (collect_rows_spec stream_rows). f_equal. apply map_eq. intros k.
    rewrite lookup_map_seq_0. destruct (stream_rows !! k) as [r|] eqn:E.
    + unfold stream_rows in E. rewrite list_lookup_fmap in E. destruct (l !! k) as [[s b]|] eqn:El; [|done].
      cbn in E. injection E as <-. apply (Hk k s b El).
    + destruct (results w !! k) as [r|] eqn:Er; [|done]. apply (st_rows _ _ _ _ _ _ _ _ _ Hst) in Er. congruence.
  - split; [apply Hst|]. split; [apply Hst|]. split; [|apply Hst].
    intros b ([s b'] & -> & Hin)%list_elem_of_fmap. apply list_elem_of_lookup in Hin as [k Hl].
    eapply storing_end; [exact Hst|exact Hrest|]. apply (Hk k s b' Hl).
Qed.

Lemma chunks_streamed :
  sn (stream_step ws feed_end) (ChunkStream jobs n w0) /\
  forall s, rtc (stream_step ws feed_end) (ChunkStream jobs n w0) s ->
    match Pool.result s with
    | None => exists s', pstep (stream_body ws) feed_end s s'
    | Some (Some e) => Fails' e
    | Some None => parent s = false ->
        feed_end = None /\ collect_rows (results (world s)) = stream_rows /\ stocked (base (world s))
    end.
Proof using ws_ok l_nonempty w0_inv n_pos.
  destruct (pool_correct (stream_body ws) feed_end Inv Step resting stream_post Fails' jobs n)
    with (g0 := ∅ : gmap nat (ChunkID * bool)) (w0 := mkShared ∅ ∅ w0) as [Hsn Hres].
  - intros t. apply resting_stable.
  - apply stream_post_stable.
  - intros t j. apply stream_body_wp.
  - intros e He. by right.
  - done.
  - by apply start_storing.
  - intros t. apply lookup_empty.
  - split; [exact Hsn|]. intros s Hs. specialize (Hres s Hs).
    destruct (Pool.result s) as [[e|]|]; [done| |done].
    intros Hp. destruct (Hres Hp) as [H1 H2]. split; [done|]. by apply stream_established.
Qed.

End chunks.
(** ChunkStream on a chunker: what it sends to the workers, and the pool. *)
Definition chunk_stream (c : Chunker.Chunker) (fuel n : nat) (w : W)
  : outcome (pool (W := Shared W) (J := chunkJob) * option error) :=
  d ← Chunker.drain fuel c;
  let '(jobs, e) := stream_feed d in Ok (ChunkStream jobs n w, e).

End stream.

(** *** The index describes the stream *)

Section rows.

Context `{Codec} (mn mx : nat).

Lemma total_size_cons r rs : total_size (r :: rs) = CSize r + total_size rs.
Proof. done. Qed.

Lemma rows_contiguous pos d l :
  well_chunked mn mx pos d l -> 0 <= pos -> pos + Z.of_nat (length d) < 2 ^ 62 ->
  contiguous (Z.of_nat mx) pos (stream_rows l) /\ total_size (stream_rows l) = Z.of_nat (length d) /\
  Forall (fun c => 0 < CSize c) (stream_rows l) /\ Forall (fun '(_, b) => b <> []) l.
Proof.
  induction 1 as [pos|pos b Hb|pos b d l Hb Hw IH]; intros Hp Hl.
  - by repeat constructor.
  - unfold stream_rows. cbn. rewrite u64_small by mach_lia. rewrite length_Sum.
    split_and!; [done|lia|lia|done|done|lia|by repeat constructor; cbn; lia|].
    constructor; [by destruct b; cbn in Hb; [lia|]|constructor].
  - rewrite length_app in Hl. destruct IH as (H1 & H2 & H3 & H4); [lia|lia|].
    unfold stream_rows in *. cbn [map contiguous Start CSize ID]. rewrite total_size_cons. cbn [CSize].
    rewrite (u64_small pos) by mach_lia. rewrite u64_small by mach_lia. rewrite length_Sum, length_app, H2.
    split_and!; [done|lia|lia|done|done|lia|constructor; [cbn; lia|done]|].
    constructor; [by destruct b; cbn in Hb; [lia|]|done].
Qed.

(** Each row is the place of its chunk. *)
Lemma rows_places l : forall pre d,
  well_chunked mn mx (Z.of_nat (length pre)) d l ->
  Z.of_nat (length pre) + Z.of_nat (length d) < 2 ^ 62 ->
  Forall2 (fun c '(_, b) => place (pre ++ d) c = b /\ ID c = Sum b) (stream_rows l) l.
Proof.
  induction l as [|[s b] l IH]; intros pre d Hw Hl; [constructor|].
  assert (Hplace : forall d', d = b ++ d' -> place (pre ++ d) (mkIndexChunk (Sum b) (Z.of_nat (length pre)) (Z.of_nat (length b))) = b).
  { intros d' ->. unfold place, rng. cbn. rewrite !Nat2Z.id, drop_app_length. apply take_app_length. }
  inversion Hw as [|pos b' Hb|pos b' d' l' Hb Hw']; subst; unfold stream_rows; cbn.
  - constructor; [|constructor]. rewrite u64_small by mach_lia. split; [|done].
    apply (Hplace []). by rewrite app_nil_r.
  - rewrite length_app in Hl. constructor.
    + rewrite u64_small by mach_lia. split; [by apply (Hplace d')|done].
    + rewrite app_assoc. apply (IH (pre ++ b) d'); rewrite length_app.
      * by rewrite Nat2Z.inj_add.
      * lia.
Qed.

End rows.

Lemma rows_offsets `{Codec} cs : forall mx off,
  contiguous mx off cs -> Forall (fun c => 0 < CSize c) cs -> 0 <= off -> off + total_size cs < 2 ^ 62 ->
  Forall (fun t => tOffset t <> 0) (convert_chunks off cs).
Proof.
  induction cs as [|c cs IH]; intros mx off Hc Hp Hoff Ht; [constructor|].
  destruct Hc as (Hs & _ & _ & Hc). inversion_clear Hp as [|? ? Hpos Hp'].
  rewrite total_size_cons in Ht. pose proof (total_size_nonneg _ _ _ Hc).
  rewrite u64_small in Hc by mach_lia. cbn. rewrite u64_small by mach_lia.
  constructor; [cbn; lia|]. eapply IH; [done..|lia|lia].
Qed.

(** What the chunker hands over: the chunks of the specification, or those before the error. *)
Lemma stream_feed_spec r mn avg mx c :
  Chunker.NewChunker r mn avg mx = Ok c -> mn < mx -> 10 * mx <= maxAlloc ->
  let T := stream_data (pieces r) in
  let cs := chunks (Chunker.test c) (Z.to_nat mn) (Z.to_nat mx) (length T) 0 T in
  exists l fe, Chunker.drain (S (length T)) c = Ok (l, fe) /\
    let l' := match fe with None => l | Some _ => removelast l end in
    Forall (fun x => x ∈ cs) l' /\
    match fe with
    | None => stream_err (pieces r) = ErrEOF /\ l' = cs
    | Some e => e = stream_err (pieces r) /\ e <> ErrEOF
    end.
Proof.
  intros Hn Hlt Hmx T cs. pose proof (NewChunker_represents _ _ _ _ _ Hn Hlt Hmx) as Hr.
  pose proof (rep_sizes _ _ _ _ _ _ _ Hr) as Hs.
  destruct (decide (stream_err (pieces r) = ErrEOF)) as [He|He].
  - rewrite He in Hr. exists cs, None. split; [apply drain_chunks; [done|exact Hr|lia]|].
    cbn. split; [|done]. by apply Forall_forall.
  - destruct (drain_error (Chunker.test c) _ _ Hs c _ _ 0 (S (length T)) Hr He) as (l & Hd & _ & Hl);
      [subst T; lia|].
    exists l, (Some (stream_err (pieces r))). split; [exact Hd|]. cbn. split; [|done].
    eapply Forall_impl; [exact Hl|]. by intros [s b].
Qed.

Lemma NewChunker_max r mn avg mx c :
  Chunker.NewChunker r mn avg mx = Ok c ->
  0 < mn <= avg /\ avg <= mx /\ Chunker.Min c = mn /\ Chunker.Avg c = avg /\ Chunker.Max c = mx.
Proof.
  intros (H1 & H2 & t & _ & ->)%NewChunker_inv. cbn.
  unfold ChunkerWindowSize, WindowSize in H1. lia.
Qed.

(** The index of a stream that was read to its end. *)
Lemma stream_index_ok `{Codec} r mn avg mx c results :
  Chunker.NewChunker r mn avg mx = Ok c -> mn < mx -> 10 * mx <= maxAlloc ->
  let T := stream_data (pieces r) in
  let l := chunks (Chunker.test c) (Z.to_nat mn) (Z.to_nat mx) (length T) 0 T in
  Z.of_nat (length T) < 2 ^ 62 -> collect_rows results = stream_rows l ->
  let i := stream_index c results in
  Chunks i = stream_rows l /\ (T <> [] -> describes i T) /\ well_formed_index SHA512_256 i /\
  Forall2 (fun k '(_, b) => place T k = b /\ ID k = Sum b) (Chunks i) l.
Proof.
  intros Hn Hlt Hmx T l HT Hrows i. pose proof (NewChunker_represents _ _ _ _ _ Hn Hlt Hmx) as Hr.
  pose proof (rep_sizes _ _ _ _ _ _ _ Hr) as Hs.
  destruct (NewChunker_max _ _ _ _ _ Hn) as (Hmn & Havg & Emin & Eavg & Emax).
  pose proof (chunks_well_chunked (Chunker.test c) _ _ Hs 0 T) as Hw. fold l in Hw.
  destruct (rows_contiguous _ _ 0 T l Hw) as (Hc & Ht & Hp & Hne); [lia|lia|].
  rewrite Z2Nat.id in Hc by lia.
  assert (Hch : Chunks i = stream_rows l) by done. unfold maxAlloc in Hmx.
  split; [done|]. split; [|split].
  - intros HTne. apply contiguous_describes; [rewrite Hch; cbn; by rewrite Emax|by rewrite Hch..|done|].
    rewrite Hch. destruct Hw; [done|done|done].
  - split; [by vm_compute|cbn; rewrite Emin, Eavg, Emax; mach_lia|done|cbn; rewrite Emax; by rewrite Hrows|].
    rewrite Hch. eapply rows_offsets; [exact Hc|done|lia|lia].
  - rewrite Hch. by apply (rows_places (Z.to_nat mn) (Z.to_nat mx) l [] T).
Qed.

Section correct.

Context `{Codec} {W A : Type} (inv : W -> Prop) (Fails : error -> Prop) (ws : Store W).
Context (view : W -> ChunkID -> option bytes) (other : W -> A) (st : Chunk -> W -> option error * W).
Context (w0 : W) (n : nat) (r : Reader) (mn avg mx : Z) (c : Chunker.Chunker).

(** What an index returned for the stream is, with the store it leaves. *)
Definition indexed (i : Index) (w : W) : Prop :=
  let T := stream_data (pieces r) in
  stream_err (pieces r) = ErrEOF /\
  Chunks i = stream_rows (chunks (Chunker.test c) (Z.to_nat mn) (Z.to_nat mx) (length T) 0 T) /\
  (T <> [] -> describes i T) /\
  well_formed_index SHA512_256 i /\
  (forall k, k ∈ Chunks i -> Sum (place T k) = ID k /\ is_Some (view w (ID k))) /\
  forall j, view w j = view w0 j \/
    exists k, k ∈ Chunks i /\ ID k = j /\ view w j = Some (place T k).

Lemma chunk_stream_runs :
  FlakyWrite inv Fails ws view st other -> inv w0 -> (0 < n)%nat ->
  Chunker.NewChunker r mn avg mx = Ok c -> mn < mx -> 10 * mx <= maxAlloc ->
  let T := stream_data (pieces r) in
  Z.of_nat (length T) < 2 ^ 62 ->
  exists p fe, chunk_stream c (S (length T)) n w0 = Ok (p, fe) /\
    sn (stream_step ws fe) p /\
    forall s, rtc (stream_step ws fe) p s ->
      match stream_result c s with
      | None => exists s', pstep (stream_body ws) fe s s'
      | Some (Err e) => Fails e \/ (e = stream_err (pieces r) /\ e <> ErrEOF)
      | Some (Ok i) => parent s = false -> indexed i (base (world s))
      | _ => False
      end.
Proof.
  intros Hok Hi Hn Hc Hlt Hmx T HT.
  destruct (stream_feed_spec r mn avg mx c Hc Hlt Hmx) as (l & fe & Hd & Hl & Hfe). fold T in Hd, Hl, Hfe.
  set (l' := match fe with None => l | Some _ => removelast l end) in *.
  set (cs := chunks _ _ _ _ _ T) in *.
  assert (Hne : forall s b, (s, b) ∈ l' -> b <> []).
  { intros s b Hin. pose proof (NewChunker_represents _ _ _ _ _ Hc Hlt Hmx) as Hr.
    pose proof (rep_sizes _ _ _ _ _ _ _ Hr) as Hs.
    pose proof (chunks_well_chunked (Chunker.test c) _ _ Hs 0 T) as Hw.
    destruct (rows_contiguous _ _ 0 T cs Hw) as (_ & _ & _ & Hall); [lia|lia|].
    rewrite Forall_forall in Hl, Hall. apply (Hall _ (Hl _ Hin)). }
  destruct (chunks_streamed inv Fails ws view other st Hok l' fe n w0 Hne Hi Hn) as [Hsn Hres].
  exists (ChunkStream (imap (fun num '(start, b) => (num, start, b)) l') n w0), fe.
  split; [unfold chunk_stream; by rewrite Hd|]. split; [exact Hsn|].
  intros s Hs. specialize (Hres s Hs). unfold stream_result.
  destruct (Pool.result s) as [[e|]|]; cbn; [| |done].
  { destruct Hres as [?|E]; [by left|right]. rewrite E in Hfe. done. }
  intros Hp. destruct (Hres Hp) as (-> & Hrows & _ & _ & Hall & Hview). destruct Hfe as [He El].
  rewrite El in Hrows, Hall, Hview.
  destruct (stream_index_ok r mn avg mx c _ Hc Hlt Hmx HT Hrows) as (H1 & H2 & H3 & H4).
  fold T in H1, H2, H4. unfold indexed. fold T.
  split; [done|]. split; [done|]. split; [done|]. split; [done|]. split.
  - intros k [j Hk]%list_elem_of_lookup. destruct (Forall2_lookup_l _ _ _ _ _ H4 Hk) as ([s0 b] & Hj & Hpl & Hid).
    rewrite Hpl, Hid. split; [done|]. apply Hall. apply list_elem_of_fmap. exists (s0, b).
    split; [done|by eapply list_elem_of_lookup_2].
  - intros j. destruct (Hview j) as [?|(_ & d & Hin & Hsum & Hv)]; [by left|right].
    apply list_elem_of_fmap in Hin as ([s0 b] & -> & [k Hk]%list_elem_of_lookup).
    destruct (Forall2_lookup_r _ _ _ _ _ H4 Hk) as (row & Hrow & Hpl & Hid).
    exists row. rewrite Hpl, Hid. split; [by eapply list_elem_of_lookup_2|done].
Qed.

(** C4. ChunkStream with any number of workers, in every interleaving of their calls, for every way
    the reader cuts the stream into reads and a store that may fail now and then: it ends, it never
    hangs or panics, and an error it returns is one of the store or of the reader. When it returns
    an index without having been cancelled, the index is the one a single thread would write: its
    rows, in order, are the chunks of the specification; it describes the stream, every row has
    the ID of its bytes, and the store has all of them, beside what it had before. *)
Theorem ChunkStream_correct :
  FlakyWrite inv Fails ws view st other -> inv w0 -> (0 < n)%nat ->
  Chunker.NewChunker r mn avg mx = Ok c -> mn < mx -> 10 * mx <= maxAlloc ->
  let T := stream_data (pieces r) in
  Z.of_nat (length T) < 2 ^ 62 ->
  exists p fe, chunk_stream c (S (length T)) n w0 = Ok (p, fe) /\
    sn (stream_step ws fe) p /\
    forall s, rtc (stream_step ws fe) p s ->
      match stream_result c s with
      | None => exists s', pstep (stream_body ws) fe s s'
      | Some (Err e) => Fails e \/ (e = stream_err (pieces r) /\ e <> ErrEOF)
      | Some (Ok i) => parent s = false -> indexed i (base (world s))
      | _ => False
      end.
Proof. apply chunk_stream_runs. Qed.

End correct.

(** An index written under the digest SHA256 carries the flag of SHA512/256 all the same, and is
    refused when it is read back under that digest. *)
Example sha256_stream_index_rejected c results :
  is_Some (check_algorithm SHA256 (FeatureFlags (stream_index c results))).
Proof. by eexists. Qed.

(** ** ChopFile (chop.go) *)

Section chop.

Context {W : Type} `{Codec}.

(** [f] is the open file; the position is set before every read. *)
Definition readChunkFromFile (f : bytes) (c : IndexChunk) : outcome Chunk :=
  if decide (maxAlloc < CSize c) then Panic                       (* make *)
  else if decide (i64 (Start c) < 0) then Err (Errorf "seek: invalid argument")
  else
    let b := rng f (Z.to_nat (i64 (Start c))) (Z.to_nat (CSize c)) in
    if decide (Z.of_nat (length b) = CSize c) then NewChunkWithID (ID c) b false
    else Err (if decide (b = []) then ErrEOF else ErrUnexpectedEOF).

Definition chop_body (f : bytes) (ws : Store W) (c : IndexChunk) : proc (Shared W) :=
  match readChunkFromFile f c with
  | Ok chunk => StoreChunk ws chunk
  | Err e => Ret (Some e)
  | _ => Crash
  end.

(** The pool, once the workers' files are open. *)
Definition ChopFile (fs : FS) (name : bytes) (chunks : list IndexChunk) (n : nat) (w : W)
  : outcome (pool (W := Shared W) (J := IndexChunk)) :=
  match fs !! name, n with
  | None, S _ => Err (Wrapped ErrNotExist "unable to open file")
  | _, _ => Ok (start n chunks (mkShared ∅ ∅ w))
  end.
Definition chop_step (f : bytes) (ws : Store W) := pany (chop_body f ws) None.

(** A chunk of the file that is what the index says. *)
Definition valid_at (f : bytes) (c : IndexChunk) : Prop :=
  length (place f c) = Z.to_nat (CSize c) /\ Sum (place f c) = ID c.

Lemma readChunkFromFile_ok f c chunk :
  0 <= Start c < 2 ^ 63 -> 0 < CSize c -> readChunkFromFile f c = Ok chunk ->
  valid_at f c /\ place f c <> [] /\ exists chunk', ChunkID_ chunk = (ID c, chunk') /\ holds chunk' (ID c) (place f c).
Proof.
  intros Hs Hc. unfold readChunkFromFile. goal_decide Hm; [done|].
  rewrite i64_small by mach_lia. goal_decide Hn; [done|].
  change (rng f (Z.to_nat (Start c)) (Z.to_nat (CSize c))) with (place f c).
  goal_decide Hl; [|by goal_decide He].
  unfold NewChunkWithID, verify_chunk, ChunkID_, Data. cbn [idCalculated data storage converters id].
  assert (Hlen : (0 < length (place f c))%nat) by lia.
  rewrite decide_True by done. goal_decide Hsum; [|done]. intros [= <-]. rewrite Hsum.
  split; [split; [lia|done]|]. split; [by destruct (place f c); cbn in Hlen; [lia|]|].
  eexists. split; [done|]. split; [|by repeat split].
  unfold plain, Data. cbn [data]. by rewrite decide_True.
Qed.

Lemma readChunkFromFile_valid f c :
  0 <= Start c < 2 ^ 63 -> 0 < CSize c <= maxAlloc -> valid_at f c ->
  exists chunk, readChunkFromFile f c = Ok chunk.
Proof.
  intros Hs Hc [Hl Hsum]. unfold readChunkFromFile. rewrite decide_False by lia.
  rewrite i64_small by mach_lia. rewrite decide_False by lia.
  change (rng f (Z.to_nat (Start c)) (Z.to_nat (CSize c))) with (place f c).
  rewrite decide_True by lia.
  unfold NewChunkWithID, verify_chunk, ChunkID_, Data. cbn [idCalculated data].
  rewrite decide_True by lia. rewrite decide_True by done. by eexists.
Qed.

Abbreviation View := (W -> ChunkID -> option bytes).
Context (inv : W -> Prop) (Fails : error -> Prop) (ws : Store W) (view : View).
Context {A : Type} (other : W -> A) (st : Chunk -> W -> option error * W).
Context (ws_ok : FlakyWrite inv Fails ws view st other).
Context (f : bytes) (chunks : list IndexChunk) (n : nat) (w0 : W).
Context (chunks_fit : forall c, c ∈ chunks -> 0 <= Start c < 2 ^ 63 /\ 0 < CSize c <= maxAlloc).

Let stock := omap (fun c => match readChunkFromFile f c with Ok _ => Some (place f c) | _ => None end) chunks.
Let Fails' (e : error) : Prop := Fails e \/ exists c, c ∈ chunks /\ readChunkFromFile f c = Err e.
Let Inv := storing inv view other stock [] w0 n.
Let Step := storing_step (W := W) view.
Let post (c : IndexChunk) (g : gmap nat (ChunkID * bool)) (s : Shared W) : Prop :=
  kept view (ID c) g s /\ valid_at f c.

Lemma readChunkFromFile_total c : c ∈ chunks ->
  match readChunkFromFile f c with Ok _ | Err _ => True | _ => False end.
Proof using chunks_fit.
  intros Hc. destruct (chunks_fit c Hc) as [_ ?]. unfold readChunkFromFile.
  rewrite decide_False by lia. goal_decide H1; [done|]. goal_decide H2; [|done].
  unfold NewChunkWithID, verify_chunk. destruct (ChunkID_ _) as [sum ?]. by goal_decide H3.
Qed.

Lemma chop_body_wp t c : (t < n)%nat -> c ∈ chunks ->
  wp Inv Step Fails' t (chop_body f ws c) (resting t) (fun g s => resting t g s /\ post c g s).
Proof using ws_ok chunks_fit.
  intros Ht Hc. pose proof (readChunkFromFile_total c Hc) as Htot. unfold chop_body.
  destruct (readChunkFromFile f c) as [chunk|e| |] eqn:E; [| |done..].
  2: { cbn. intros g s _ _. right. by exists c. }
  destruct (chunks_fit c Hc) as [H1 H2].
  destruct (readChunkFromFile_ok f c chunk H1 ltac:(lia) E) as (Hv & Hne & chunk' & Hid & Hh).
  assert (Hok : FlakyWrite inv Fails' ws view st other)
    by (eapply flaky_weaken; [|exact ws_ok]; intros e He; by left).
  assert (Hstock : [] ∉ stock).
  { intros (c2 & Hc2 & E2)%list_elem_of_omap. destruct (readChunkFromFile f c2) as [x| | |] eqn:Er; [|done..].
    injection E2 as E2. destruct (chunks_fit c2 Hc2) as [H3 H4].
    by destruct (readChunkFromFile_ok f c2 x H3 ltac:(lia) Er) as (_ & ? & _). }
  eapply wp_post; [eapply wp_pre; [eapply (StoreChunk_wp inv Fails' ws view other st Hok stock [] w0 Hstock n t
    chunk (ID c) chunk' (place f c) (fun _ _ => True)); try done|]|].
  - apply list_elem_of_omap. exists c. by rewrite E.
  - by intros g s Hr.
  - intros g s (Hr & Hk & _). split; [done|by split].
Qed.

(** What ChopFile leaves is in the invariant of the store. *)
Lemma ChopFile_runs fs name :
  (0 < n)%nat -> inv w0 -> fs !! name = Some f ->
  exists p, ChopFile fs name chunks n w0 = Ok p /\ sn (chop_step f ws) p /\
    forall s, rtc (chop_step f ws) p s ->
      match Pool.result s with
      | None => exists s', pstep (chop_body f ws) None s s'
      | Some (Some e) => Fails e \/ exists c, c ∈ chunks /\ readChunkFromFile f c = Err e
      | Some None => parent s = false ->
          inv (base (world s)) /\ other (base (world s)) = other w0 /\
          (forall c, c ∈ chunks -> valid_at f c /\ is_Some (view (base (world s)) (ID c))) /\
          forall i, view (base (world s)) i = view w0 i \/
            exists c, c ∈ chunks /\ ID c = i /\ view (base (world s)) i = Some (place f c)
      end.
Proof using ws_ok chunks_fit.
  intros Hn Hi Hf. exists (start n chunks (mkShared ∅ ∅ w0)).
  split; [unfold ChopFile; by rewrite Hf|].
  destruct (pool_correct (chop_body f ws) None Inv Step resting post Fails' chunks n)
    with (g0 := ∅ : gmap nat (ChunkID * bool)) (w0 := mkShared (W := W) ∅ ∅ w0) as [Hsn Hres]; try done.
  - intros t. apply resting_stable.
  - intros c t g s g' s' Ht Hst [Hk Hv] Hstep Hst'. split; [|done].
    by eapply (kept_stable _ _ _ _ _ _ _ _ t g s).
  - intros t c. apply chop_body_wp.
  - by apply start_storing.
  - split; [exact Hsn|]. intros s Hs. specialize (Hres s Hs).
    destruct (Pool.result s) as [[e|]|]; [done| |done].
    intros Hp. destruct (Hres Hp) as (_ & g & Hst & Hrest & Hpost). split; [apply Hst|]. split; [apply Hst|]. split.
    + intros c Hc. destruct (Hpost c Hc) as [Hk Hv]. split; [done|].
      eapply storing_end; [exact Hst|exact Hrest|done].
    + intros i. destruct (st_view _ _ _ _ _ _ _ _ _ Hst i) as [?|(_ & d & Hd & Hsum & Hv)]; [by left|right].
      apply list_elem_of_omap in Hd as (c & Hc & E). exists c. split; [done|].
      destruct (readChunkFromFile f c) as [x| | |] eqn:Er; [|done..]. injection E as <-.
      split; [|done]. destruct (chunks_fit c Hc) as [H1 H2].
      destruct (readChunkFromFile_ok f c x H1 ltac:(lia) Er) as ([_ <-] & _). done.
Qed.

(** C38. ChopFile with any number of workers, in every interleaving and with a store that may fail:
    it ends, it never hangs or panics; an error it returns is one of the store or of reading a
    chunk; and when it returns nil without having been cancelled, every chunk of the list is, with
    its ID, at its place in the file, and is in the store. *)
Theorem ChopFile_correct fs name :
  (0 < n)%nat -> inv w0 -> fs !! name = Some f ->
  exists p, ChopFile fs name chunks n w0 = Ok p /\ sn (chop_step f ws) p /\
    forall s, rtc (chop_step f ws) p s ->
      match Pool.result s with
      | None => exists s', pstep (chop_body f ws) None s s'
      | Some (Some e) => Fails e \/ exists c, c ∈ chunks /\ readChunkFromFile f c = Err e
      | Some None => parent s = false ->
          other (base (world s)) = other w0 /\
          (forall c, c ∈ chunks -> valid_at f c /\ is_Some (view (base (world s)) (ID c))) /\
          forall i, view (base (world s)) i = view w0 i \/
            exists c, c ∈ chunks /\ ID c = i /\ view (base (world s)) i = Some (place f c)
      end.
Proof using ws_ok chunks_fit.
  intros Hn Hi Hf. destruct (ChopFile_runs fs name Hn Hi Hf) as (p & Hp & Hsn & Hres). exists p. split; [exact Hp|].
  split; [exact Hsn|]. intros s Hs. specialize (Hres s Hs). destruct (Pool.result s) as [[e|]|]; [done| |done].
  intros Hpar. by destruct (Hres Hpar) as [_ ?].
Qed.

End chop.

(** ** VerifyIndex (verifyindex.go) *)

Section verify.

Context `{Codec}.

(** [s[i:j]] *)
Definition slice {A} (i j : nat) (l : list A) : list A := take (j - i) (drop i l).

(** The loop that feeds the workers, from chunk [i] on. *)
Fixpoint batches (fuel i batch : nat) (cs : list IndexChunk) : list (list IndexChunk) :=
  match fuel with
  | O => []
  | S fuel =>
    let chunksNum := length cs in
    if decide (i < chunksNum)%nat then
      let last := (i + batch)%nat in
      let last := if decide (chunksNum <= last)%nat then (chunksNum - 1)%nat else last in
      slice i (last + 1) cs :: batches fuel (i + batch + 1) batch cs
    else []
  end.

(** The workers only read: a batch is one step of the worker's own file handle. *)
Definition verify_body (f : bytes) (c : list IndexChunk) : proc unit :=
  match validate_chunks f c with
  | Ok _ => Ret None
  | Err e => Ret (Some e)
  | _ => Crash
  end.

(** [fs] and [device] are what [os.Stat] sees; no workers, no batch size. *)
Definition VerifyIndex (fs : FS) (device : bool) (name : bytes) (idx : Index) (n : nat)
  : outcome (pool (W := unit) (J := list IndexChunk)) :=
  match fs !! name with
  | None => Err ErrNotExist
  | Some f =>
    if negb device && negb (bool_decide (Z.of_nat (length f) = Length idx)) then
      Err (Errorf "index size does not match file size")
    else
      match n with
      | O => Panic
      | _ =>
        let chunksNum := length (Chunks idx) in
        let batch := (chunksNum / (n * 10))%nat in
        Ok (start n (batches (S chunksNum) 0 batch (Chunks idx)) tt)
      end
  end.
Definition verify_step (f : bytes) := pany (verify_body f) None.

Lemma batches_concat batch cs : forall fuel i,
  (length cs - i < fuel)%nat -> concat (batches fuel i batch cs) = drop i cs.
Proof.
  induction fuel as [|fuel IH]; intros i Hf; [lia|]. cbn [batches].
  destruct (decide (i < length cs)%nat) as [Hi|Hi]; [|cbn; by rewrite drop_ge by lia].
  cbn [concat]. rewrite IH by lia. unfold slice.
  destruct (decide (length cs <= i + batch)%nat) as [Hb|Hb].
  - rewrite take_ge by (rewrite length_drop; lia). rewrite (drop_ge cs (i + batch + 1)) by lia.
    apply app_nil_r.
  - replace (i + batch + 1 - i)%nat with (batch + 1)%nat by lia.
    rewrite <- (take_drop (batch + 1) (drop i cs)) at 2. rewrite drop_drop.
    by replace (i + batch + 1)%nat with (i + (batch + 1))%nat by lia.
Qed.

Lemma validate_chunks_spec f cs :
  (forall c, c ∈ cs -> 0 <= Start c < 2 ^ 63 /\ 0 <= CSize c <= maxAlloc) ->
  match validate_chunks f cs with
  | Ok _ => forall c, c ∈ cs -> valid_at f c
  | Err _ => exists c, c ∈ cs /\ ~ valid_at f c
  | _ => False
  end.
Proof.
  induction cs as [|c cs IH]; intros Hfit; cbn; [by intros c Hc%elem_of_nil|].
  destruct (Hfit c) as [Hs Hc]; [by left|]. specialize (IH (fun c Hin => Hfit c (list_elem_of_further _ _ _ Hin))).
  unfold ReadAt. rewrite decide_False by lia. rewrite i64_small by mach_lia.
  rewrite decide_False by lia.
  change (rng f (Z.to_nat (Start c)) (Z.to_nat (CSize c))) with (place f c).
  goal_decide Hl; cbn [mbind outcome_bind].
  2: { exists c. split; [by left|]. intros [? _]. lia. }
  goal_decide Hsum.
  2: { exists c. split; [by left|]. by intros [_ ?]. }
  destruct (validate_chunks f cs); [| |done..].
  - intros d [->|Hd]%elem_of_cons; [|by apply IH]. split; [lia|done].
  - destruct IH as (d & Hd & ?). exists d. split; [by right|done].
Qed.

(** C39. VerifyIndex decides whether a file is what its index says. With any number of workers and
    in every interleaving it ends and never hangs or panics; when it returns nil without having been
    cancelled, the file has the length of the index and every chunk is at its place with its ID;
    an error means that some chunk is not. In particular it accepts every file that matches. *)
Theorem VerifyIndex_decides fs name idx n f :
  (0 < n)%nat -> fs !! name = Some f ->
  (forall c, c ∈ Chunks idx -> 0 <= Start c < 2 ^ 63 /\ 0 <= CSize c <= maxAlloc) ->
  match VerifyIndex fs false name idx n with
  | Err _ => Z.of_nat (length f) <> Length idx
  | Ok p =>
      Z.of_nat (length f) = Length idx /\ sn (verify_step f) p /\
      forall s, rtc (verify_step f) p s ->
        match Pool.result s with
        | None => exists s', pstep (verify_body f) None s s'
        | Some (Some e) => exists c, c ∈ Chunks idx /\ ~ valid_at f c
        | Some None => parent s = false -> forall c, c ∈ Chunks idx -> valid_at f c
        end
  | _ => False
  end.
Proof.
  intros Hn Hf Hfit. unfold VerifyIndex. rewrite Hf. cbn [negb andb].
  case_bool_decide as Hlen; cbn [negb]; [|done]. destruct n as [|n']; [lia|]. split; [done|].
  set (n := S n') in *. set (cs := Chunks idx) in *. set (bs := batches _ _ _ cs).
  assert (Hbs : concat bs = cs) by (unfold bs; rewrite batches_concat by lia; apply drop_0).
  assert (Hsub : forall b c, b ∈ bs -> c ∈ b -> c ∈ cs).
  { intros b c Hb Hc. rewrite <- Hbs. apply list_elem_of_In, in_concat. exists b.
    by rewrite <- !list_elem_of_In. }
  destruct (pool_correct (verify_body f) None (fun (_ : unit) (_ : unit) => True) (fun _ _ _ _ _ => True)
    (fun _ _ _ => True) (fun b _ _ => forall c, c ∈ b -> valid_at f c)
    (fun _ => exists c, c ∈ cs /\ ~ valid_at f c) bs n) with (g0 := tt) (w0 := tt) as [Hsn Hres]; try done.
  - by intros b t g w g' w' _ _ HP.
  - intros t b _ Hb. unfold verify_body.
    pose proof (validate_chunks_spec f b (fun c Hc => Hfit c (Hsub b c Hb Hc))) as Hv.
    destruct (validate_chunks f b); cbn; [done| |done..].
    intros _ _ _ _. destruct Hv as (c & Hc & ?). exists c. split; [by eapply Hsub|done].
  - split; [exact Hsn|]. intros s Hs. specialize (Hres s Hs).
    destruct (Pool.result s) as [[e|]|]; [done| |done].
    intros Hp. destruct (Hres Hp) as (_ & g & _ & _ & Hpost). intros c Hc.
    rewrite <- Hbs in Hc. apply list_elem_of_In, in_concat in Hc as (b & Hb & Hc).
    eapply (Hpost b); by apply list_elem_of_In.
Qed.

End verify.

(** ** Concrete runs *)

Lemma ex_flaky_write_other :
  FlakyWrite (H := toy_codec) (fun _ => True) (fun _ => False) ex_local
    (fun w => ex_view (fst w)) ex_put (fun _ => tt).
Proof. eapply write_spec_flaky; [exact ex_write_spec|done]. Qed.

Lemma ChunkStream_correct_witness :
  exists p fe, chunk_stream (ex_chunker ex_reader) 161 2 ex_world = Ok (p, fe) /\
    sn (stream_step (H := toy_codec) ex_local fe) p /\
    forall s i, rtc (stream_step (H := toy_codec) ex_local fe) p s ->
      stream_result (ex_chunker ex_reader) s = Some (Ok i) -> parent s = false ->
      describes i (replicate 100 Byte.x61 ++ replicate 60 Byte.x62).
Proof.
  destruct (ChunkStream_correct (H := toy_codec) (fun _ => True) (fun _ => False) ex_local
    (fun w => ex_view (fst w)) (fun _ => tt) ex_put ex_world 2 ex_reader 48 64 96 _
    ex_flaky_write_other I ltac:(lia) (ex_new _) ltac:(lia) ltac:(unfold maxAlloc; lia) ltac:(cbn; lia))
    as (p & fe & Hp & Hsn & Hres).
  exists p, fe. split; [exact Hp|]. split; [exact Hsn|]. intros s i Hs Hr Hpar.
  specialize (Hres s Hs). rewrite Hr in Hres. destruct (Hres Hpar) as (_ & _ & Hd & _).
  by apply Hd.
Defined.

(** One goroutine alone: the calls of a worker one after the other. *)
Fixpoint exec {W} (p : proc W) (w : W) : outcome (option error) * W :=
  match p with
  | Ret e => (Ok e, w)
  | Crash => (Panic, w)
  | Do call k => let '(r, w) := call w in exec (k r) w
  end.

Definition ex_has_fails : Store ExWorld :=
  mkStore (ex_get fst) (fun _ w => ((false, Some (Errorf "down")), w)) (Some ex_put) (fun w => (None, w)) (str "local").

(** When HasChunk fails, the mark stays: the next StoreChunk of the chunk returns nil and the chunk
    is not stored. *)
Example has_error_leaves_mark :
  let chunk := NewChunk (str "data") in
  let '(r1, w1) := exec (StoreChunk (H := toy_codec) ex_has_fails chunk) (mkShared ∅ ∅ ex_world) in
  let '(r2, w2) := exec (StoreChunk (H := toy_codec) ex_local chunk) w1 in
  r1 = Ok (Some (Errorf "down")) /\ r2 = Ok None /\ ex_view (fst (base w2)) ex_id = None.
Proof. repeat split; vm_compute; reflexivity. Qed.

(** When the caller's context is cancelled between two chunks ChunkStream returns a truncated
    index and no error. *)
Example stream_cancelled_truncates :
  exists p s, chunk_stream (ex_chunker ex_reader) 161 1 ex_world = Ok (p, None) /\
    rtc (stream_step (H := toy_codec) ex_local None) p s /\ pending p <> [] /\
    stream_result (ex_chunker ex_reader) s = Some (Ok (stream_index (ex_chunker ex_reader) ∅)).
Proof.
  unfold chunk_stream.
  destruct (Chunker.drain 161 (ex_chunker ex_reader)) as [[l e]| | |] eqn:E; vm_compute in E; [|done..].
  injection E as <- <-. cbn [mbind outcome_bind stream_feed].
  unfold ChunkStream, start. cbn [replicate imap]. eexists _, _. split; [done|]. split; [|split].
  - eapply rtc_l; [right; apply p_cancel|]. eapply rtc_l; [left; apply p_stop|].
    eapply rtc_once. left. by apply (p_quit _ _ 0).
  - done.
  - done.
Qed.

Definition ex_file : bytes := str "data".
Definition ex_row : IndexChunk := mkIndexChunk ex_id 0 4.

Lemma ex_row_fits c : c ∈ [ex_row] -> 0 <= Start c < 2 ^ 63 /\ 0 < CSize c <= maxAlloc.
Proof. intros ->%list_elem_of_singleton. cbn. unfold maxAlloc. lia. Qed.

Lemma ChopFile_correct_witness :
  exists p, ChopFile {[ str "f" := ex_file ]} (str "f") [ex_row] 3 ex_world = Ok p /\
    sn (chop_step (H := toy_codec) ex_file ex_local) p /\
    forall s, rtc (chop_step (H := toy_codec) ex_file ex_local) p s ->
      Pool.result s = Some None -> parent s = false ->
      is_Some (ex_view (fst (base (world s))) ex_id).
Proof.
  destruct (ChopFile_correct (H := toy_codec) (fun _ => True) (fun _ => False) ex_local
    (fun w => ex_view (fst w)) (fun _ => tt) ex_put ex_flaky_write_other ex_file [ex_row] 3 ex_world
    ex_row_fits {[ str "f" := ex_file ]} (str "f") ltac:(lia) I (lookup_singleton_eq _ _))
    as (p & Hp & Hsn & Hres).
  exists p. split; [exact Hp|]. split; [exact Hsn|]. intros s Hs Hr Hpar.
  specialize (Hres s Hs). rewrite Hr in Hres. destruct (Hres Hpar) as (_ & Hall & _).
  apply (Hall ex_row). by left.
Defined.

Lemma VerifyIndex_decides_witness :
  exists p, VerifyIndex {[ str "f" := ex_file ]} false (str "f") (mkIndex (mkHeader 0 0) 0 0 0 0 [ex_row]) 2 = Ok p /\
    forall s, rtc (verify_step (H := toy_codec) ex_file) p s -> Pool.result s = Some None ->
      parent s = false -> valid_at (H := toy_codec) ex_file ex_row.
Proof.
  pose (idx := mkIndex (mkHeader 0 0) 0 0 0 0 [ex_row]).
  pose proof (VerifyIndex_decides (H := toy_codec) {[ str "f" := ex_file ]} (str "f") idx 2 ex_file
    ltac:(lia) (lookup_singleton_eq _ _)
    (fun c Hc => ltac:(destruct (ex_row_fits c Hc) as [? ?]; lia))) as H.
  destruct (VerifyIndex {[str "f" := ex_file]} false (str "f") idx 2) as [p|e| |] eqn:E.
  - exists p. split; [exact E|]. intros s Hs Hr Hp. destruct H as (_ & _ & H). specialize (H s Hs).
    rewrite Hr in H. apply (H Hp). by left.
  - destruct H. vm_compute. reflexivity.
  - destruct H.
  - destruct H.
Defined.
