(* ===== verification/UntarIndex.v ===== *)
(** * UntarIndex: extracting an archive from its chunks (untar.go, UnTarIndex)

    Four kinds of goroutines: the feeder requests the chunks from the workers and hands one data
    channel per chunk to the assembler, in order; the workers fetch chunks; the assembler writes
    their data to a pipe; UnTar reads the archive from the pipe. The pipeline is a step relation
    over what these goroutines do between two points where they can wait for each other. *)

From S2P Require Import Prelude Format Index Chunk Stores Files Archive Tar Catar.

(** A data channel: created, holding a chunk's data, or closed without data. *)
Inductive cell := CWait | CFull (b : bytes) | CNil.

Inductive feeder :=
| FNext                        (* at the head of the loop *)
| FHand (d : nat)              (* requested, handing channel [d] to the assembler *)
| FDone.                       (* req and assemble are closed *)

Inductive worker :=
| WIdle
| WBusy (d : nat) (c : IndexChunk)
| WFail (e : error)            (* the data channel is closed, not yet returned *)
| WExit.

Inductive assembler :=
| AWait                        (* in the select *)
| ARecv (d : nat)              (* b := <-data *)
| AWrite (b : bytes)           (* io.Copy to the pipe *)
| ADone.                       (* returned, the pipe is closed *)

Inductive extractor :=
| URun
| UClosed (e : error)          (* r.CloseWithError(err), not yet returned *)
| URet (r : outcome unit).     (* returned; Panic ends the process *)

Section pipeline.

Context {W F : Type} `{Codec} `{!FilesystemWriter F}.
Context (s : Store W) (n : nat).

Record pipe := mkPipe {
  todo : list IndexChunk;
  feed : feeder;
  cells : list cell;
  queue : list nat;            (* the buffer of the channel assemble *)
  workers : list worker;
  asm : assembler;
  out : bytes;                 (* what was written to the pipe *)
  untar : extractor;
  cancelled : bool;            (* the context of the group is done *)
  parent : bool;               (* the context of the caller was cancelled *)
  gerr : option error;
  world : W;
  target : F
}.

Definition UnTarIndex (index : Index) (w : W) (f : F) : pipe :=
  mkPipe (Chunks index) FNext [] [] (replicate n WIdle) AWait [] URun false false None w f.

Definition first_error (g : option error) (e : error) : option error :=
  match g with None => Some e | Some _ => g end.

(** A worker's work on a chunk: GetChunk, Data, and the check of the size. *)
Definition request (c : IndexChunk) (w : W) : outcome bytes * W :=
  let '(r, w) := fetch s (ID c) w in
  (b ← r; if decide (CSize c = Z.of_nat (length b)) then Ok b else Err (Errorf "unexpected size for chunk"), w).

(** UnTar asks its context before every node; [stop] are the answers. *)
Definition polls (c : bool) (stop : nat -> bool) : Prop := c = false -> forall k, stop k = false.

Definition of_untar (r : outcome unit) : extractor :=
  match r with Err e => UClosed e | _ => URet r end.

Inductive ustep : pipe -> pipe -> Prop :=
(* the feeder *)
| u_request t c l cs q ws a o u cn p g w f :
    ws !! t = Some WIdle ->
    ustep (mkPipe (c :: l) FNext cs q ws a o u cn p g w f)
          (mkPipe l (FHand (length cs)) (cs ++ [CWait]) q (<[t := WBusy (length cs) c]> ws) a o u cn p g w f)
| u_hand l d cs q ws a o u cn p g w f :
    (length q < n)%nat ->
    ustep (mkPipe l (FHand d) cs q ws a o u cn p g w f) (mkPipe l FNext cs (q ++ [d]) ws a o u cn p g w f)
| u_feed_stop l fd cs q ws a o u p g w f :
    fd <> FDone ->
    ustep (mkPipe l fd cs q ws a o u true p g w f) (mkPipe l FDone cs q ws a o u true p g w f)
| u_feed_end cs q ws a o u cn p g w f :
    ustep (mkPipe [] FNext cs q ws a o u cn p g w f) (mkPipe [] FDone cs q ws a o u cn p g w f)
(* the workers *)
| u_fetched t d c b w' l fd cs q ws a o u cn p g w f :
    ws !! t = Some (WBusy d c) -> request c w = (Ok b, w') ->
    ustep (mkPipe l fd cs q ws a o u cn p g w f)
          (mkPipe l fd (<[d := CFull b]> cs) q (<[t := WIdle]> ws) a o u cn p g w' f)
| u_failed t d c e w' l fd cs q ws a o u cn p g w f :
    ws !! t = Some (WBusy d c) -> request c w = (Err e, w') ->
    ustep (mkPipe l fd cs q ws a o u cn p g w f)
          (mkPipe l fd (<[d := CNil]> cs) q (<[t := WFail e]> ws) a o u cn p g w' f)
| u_return t e l fd cs q ws a o u cn p g w f :
    ws !! t = Some (WFail e) ->
    ustep (mkPipe l fd cs q ws a o u cn p g w f)
          (mkPipe l fd cs q (<[t := WExit]> ws) a o u true p (first_error g e) w f)
| u_quit t l cs q ws a o u cn p g w f :
    ws !! t = Some WIdle ->
    ustep (mkPipe l FDone cs q ws a o u cn p g w f) (mkPipe l FDone cs q (<[t := WExit]> ws) a o u cn p g w f)
(* the assembler *)
| u_take d q l fd cs ws o u cn p g w f :
    ustep (mkPipe l fd cs (d :: q) ws AWait o u cn p g w f) (mkPipe l fd cs q ws (ARecv d) o u cn p g w f)
| u_asm_end l cs ws o u cn p g w f :
    ustep (mkPipe l FDone cs [] ws AWait o u cn p g w f) (mkPipe l FDone cs [] ws ADone o u cn p g w f)
| u_asm_stop l fd cs q ws o u p g w f :
    ustep (mkPipe l fd cs q ws AWait o u true p g w f) (mkPipe l fd cs q ws ADone o u true p g w f)
| u_recv d b l fd cs q ws o u cn p g w f :
    cs !! d = Some (CFull b) ->
    ustep (mkPipe l fd cs q ws (ARecv d) o u cn p g w f) (mkPipe l fd cs q ws (AWrite b) o u cn p g w f)
| u_recv_nil d l fd cs q ws o u cn p g w f :
    cs !! d = Some CNil ->
    ustep (mkPipe l fd cs q ws (ARecv d) o u cn p g w f) (mkPipe l fd cs q ws (AWrite []) o u cn p g w f)
| u_write b l fd cs q ws o cn p g w f :
    ustep (mkPipe l fd cs q ws (AWrite b) o URun cn p g w f)
          (mkPipe l fd cs q ws AWait (o ++ b) URun cn p g w f)
| u_write_nothing l fd cs q ws o u cn p g w f :
    ustep (mkPipe l fd cs q ws (AWrite []) o u cn p g w f) (mkPipe l fd cs q ws AWait o u cn p g w f)
| u_write_closed b e u l fd cs q ws o cn p g w f :
    b <> [] -> u = UClosed e \/ u = URet (Err e) ->
    ustep (mkPipe l fd cs q ws (AWrite b) o u cn p g w f)
          (mkPipe l fd cs q ws ADone o u true p (first_error g e) w f)
(* UnTar: it is done with what it has read, or it reads the end *)
| u_early stop r l fd cs q ws a o cn p g w f f' :
    polls cn stop -> r <> Ok tt ->
    (forall rest, UnTar ErrEOF stop (o ++ rest) f = (r, f')) ->
    ustep (mkPipe l fd cs q ws a o URun cn p g w f) (mkPipe l fd cs q ws a o (of_untar r) cn p g w f')
| u_eof stop r l fd cs q ws o cn p g w f f' :
    polls cn stop -> UnTar ErrEOF stop o f = (r, f') ->
    ustep (mkPipe l fd cs q ws ADone o URun cn p g w f) (mkPipe l fd cs q ws ADone o (of_untar r) cn p g w f')
| u_untar_return e l fd cs q ws a o cn p g w f :
    ustep (mkPipe l fd cs q ws a o (UClosed e) cn p g w f)
          (mkPipe l fd cs q ws a o (URet (Err e)) true p (first_error g e) w f).

(** The caller's context can be cancelled at any time. *)
Inductive ucancel : pipe -> pipe -> Prop :=
| u_cancel l fd cs q ws a o u cn g w f :
    ucancel (mkPipe l fd cs q ws a o u cn false g w f) (mkPipe l fd cs q ws a o u true true g w f).

Definition uany (x y : pipe) : Prop := ustep x y \/ ucancel x y.

Definition has_exited (k : worker) : bool := match k with WExit => true | _ => false end.

(** What UnTarIndex has returned, once it has; a panic of UnTar ends the process. *)
Definition result (x : pipe) : option (outcome unit) :=
  match untar x with
  | URet Panic => Some Panic
  | URet _ =>
    match feed x, asm x with
    | FDone, ADone =>
      if forallb has_exited (workers x) then Some (match gerr x with None => Ok tt | Some e => Err e end)
      else None
    | _, _ => None
    end
  | _ => None
  end.

(** ** Every run ends *)

Definition worker_cost (k : worker) : nat :=
  match k with WIdle => 1 | WBusy _ _ => 3 | WFail _ => 2 | WExit => 0 end.

Definition cost (x : pipe) : nat :=
  (8 * length (todo x) + (match feed x with FNext => 1 | FHand _ => 5 | FDone => 0 end) +
   sum_list_with worker_cost (workers x) + 3 * length (queue x) +
   (match asm x with AWait => 1 | ARecv _ => 3 | AWrite _ => 2 | ADone => 0 end) +
   (match untar x with URun => 2 | UClosed _ => 1 | URet _ => 0 end) + (if parent x then 0 else 1))%nat.

Lemma sum_insert t k k' ws : ws !! t = Some k ->
  (sum_list_with worker_cost (<[t := k']> ws) + worker_cost k = sum_list_with worker_cost ws + worker_cost k')%nat.
Proof.
  intros Ht. rewrite (insert_take_drop _ _ _ (lookup_lt_Some _ _ _ Ht)).
  rewrite <- (take_drop_middle ws t k Ht) at 3. rewrite !sum_list_with_app. cbn. lia.
Qed.

Lemma uany_cost x y : uany x y -> (cost y < cost x)%nat.
Proof.
  intros [Hs|Hs]; destruct Hs; unfold cost; cbn [todo feed workers queue asm untar parent length];
    try match goal with Ht : ?ws !! _ = Some _ |- context [<[_ := ?k']> ?ws] =>
      pose proof (sum_insert _ _ k' _ Ht) as E; cbn [worker_cost] in E end;
    rewrite ?length_app; cbn [length]; try lia.
  all: try (destruct fd; [..|done]; lia).
  all: destruct r; cbn [of_untar]; lia.
Qed.

Lemma pipeline_terminates x : sn uany x.
Proof. apply (sn_measure _ cost), uany_cost. Qed.

(** ** The invariant *)

Context (index : Index) (T : bytes) (f0 : F).
Context (Hserves : serves s index T) (Hdesc : describes index T).

(** The store may fail on some chunk. *)
Definition flaw : Prop := exists c w e w', c ∈ Chunks index /\ request c w = (Err e, w').

(** It has failed. *)
Definition hurt (ws : list worker) (g : option error) : Prop :=
  flaw /\ (g <> None \/ exists t e, ws !! t = Some (WFail e)).

(** The workers and the data channels: channel [d] is for chunk [d]. *)
Record fetching (l : list IndexChunk) (cs : list cell) (ws : list worker) (g : option error) : Prop := {
  fe_len : length ws = n;
  fe_todo : l = drop (length cs) (Chunks index) /\ (length cs <= length (Chunks index))%nat;
  fe_busy t d c : ws !! t = Some (WBusy d c) -> cs !! d = Some CWait /\ Chunks index !! d = Some c;
  fe_wait d : cs !! d = Some CWait -> exists t c, ws !! t = Some (WBusy d c);
  fe_one t u d c c' : ws !! t = Some (WBusy d c) -> ws !! u = Some (WBusy d c') -> t = u;
  fe_full d b : cs !! d = Some (CFull b) -> exists c, Chunks index !! d = Some c /\ b = place T c;
  fe_nil d : cs !! d = Some CNil -> hurt ws g;
  fe_fail t e : ws !! t = Some (WFail e) -> flaw
}.

Lemma hurt_keep ws g t k k' g' : ws !! t = Some k ->
  (forall e, k = WFail e -> g' <> None) -> (g <> None -> g' <> None) ->
  hurt ws g -> hurt (<[t := k']> ws) g'.
Proof.
  intros Ht Hk Hg [Hf Hh]. split; [done|]. destruct Hh as [?|(u & e & Hu)]; [left; auto|].
  destruct (decide (u = t)) as [->|Hne].
  - left. rewrite Ht in Hu. injection Hu as ->. by eapply Hk.
  - right. exists u, e. by rewrite list_lookup_insert_ne.
Qed.

(** What the worker at [t] was is gone, and what it is now is there. *)
Lemma worker_lookup (ws : list worker) t k k' u x : ws !! t = Some k ->
  <[t := k']> ws !! u = Some x -> (u = t /\ x = k') \/ (u <> t /\ ws !! u = Some x).
Proof. intros Ht [(-> & -> & _)|[Hne Hu]]%list_lookup_insert_Some; [by left|right; auto]. Qed.

(** A step of worker [t] that leaves it without a chunk. *)
Lemma fetching_worker l cs ws g t k k' g' :
  fetching l cs ws g -> ws !! t = Some k ->
  (forall d c, k <> WBusy d c) -> (forall d c, k' <> WBusy d c) -> (forall e, k' <> WFail e) ->
  (forall e, k = WFail e -> g' <> None) -> (g <> None -> g' <> None) ->
  fetching l cs (<[t := k']> ws) g'.
Proof.
  intros [H1 H2 H3 H4 H5 H6 H7 H8] Ht Hk Hk' Hf Hg1 Hg2.
  assert (Hb : forall u d c, <[t := k']> ws !! u = Some (WBusy d c) -> ws !! u = Some (WBusy d c)).
  { intros u d c [[-> E]|[_ ?]]%(worker_lookup _ _ _ _ _ _ Ht); [by destruct (Hk' d c)|done]. }
  split; try done.
  - by rewrite length_insert.
  - intros u d c Hu. by eapply H3, Hb.
  - intros d (u & c & Hu)%H4. exists u, c. rewrite list_lookup_insert_ne; [done|].
    intros ->. rewrite Ht in Hu. injection Hu as ->. by destruct (Hk d c).
  - intros u v d c c' Hu Hv. eapply H5; by apply Hb.
  - intros d Hd. eapply hurt_keep; eauto.
  - intros u e [[-> E]|[_ Hu]]%(worker_lookup _ _ _ _ _ _ Ht); [by destruct (Hf e)|by eapply H8].
Qed.

Lemma fetching_gerr l cs ws g g' : (g <> None -> g' <> None) -> fetching l cs ws g -> fetching l cs ws g'.
Proof.
  intros Hg [H1 H2 H3 H4 H5 H6 H7 H8]. split; try done.
  intros d Hd. destruct (H7 d Hd) as [Hf [?|?]]; split; auto.
Qed.

Lemma fetching_request c l cs ws g t :
  fetching (c :: l) cs ws g -> ws !! t = Some WIdle ->
  fetching l (cs ++ [CWait]) (<[t := WBusy (length cs) c]> ws) g.
Proof.
  intros [H1 [H2 H2'] H3 H4 H5 H6 H7 H8] Ht.
  assert (Hc : Chunks index !! length cs = Some c).
  { rewrite <- (Nat.add_0_r (length cs)), <- lookup_drop, <- H2. done. }
  pose proof (lookup_lt_Some _ _ _ Hc) as Hlt. pose proof (lookup_lt_Some _ _ _ Ht) as Htl.
  assert (Hcell : forall d x, (cs ++ [CWait]) !! d = Some x -> cs !! d = Some x \/ (d = length cs /\ x = CWait)).
  { intros d x [?|[? [? <-]%list_lookup_singleton_Some]]%lookup_app_Some; [auto|right; split; [lia|done]]. }
  assert (Hnew : (cs ++ [CWait]) !! length cs = Some CWait) by (by rewrite lookup_app_r, Nat.sub_diag by lia).
  assert (Hold : forall d x, cs !! d = Some x -> (cs ++ [CWait]) !! d = Some x)
    by (intros; by apply lookup_app_l_Some).
  assert (Hfresh : forall u d c', ws !! u = Some (WBusy d c') -> d <> length cs).
  { intros u d c' Hu ->. destruct (H3 u _ _ Hu) as [E _]. apply lookup_lt_Some in E. lia. }
  split; try done.
  - by rewrite length_insert.
  - rewrite length_app. cbn. replace (length cs + 1)%nat with (S (length cs)) by lia. split; [|lia].
    rewrite (drop_S _ _ _ Hc) in H2. by injection H2.
  - intros u d c' [[-> [= -> ->]]|[_ Hu]]%(worker_lookup _ _ _ _ _ _ Ht); [done|].
    destruct (H3 u d c' Hu). auto.
  - intros d [Hd|[-> _]]%Hcell.
    + destruct (H4 d Hd) as (u & c' & Hu). exists u, c'. rewrite list_lookup_insert_ne; [done|].
      intros ->. congruence.
    + exists t, c. by apply list_lookup_insert_eq.
  - intros u v d c1 c2 [[-> [= -> ->]]|[_ Hu]]%(worker_lookup _ _ _ _ _ _ Ht)
      [[-> E]|[_ Hv]]%(worker_lookup _ _ _ _ _ _ Ht); try done.
    + by destruct (Hfresh v _ _ Hv).
    + injection E as -> ->. by destruct (Hfresh u _ _ Hu).
    + by eapply H5.
  - intros d b [Hd|[_ ?]]%Hcell; [|done]. by apply H6.
  - intros d [Hd|[_ ?]]%Hcell; [|done]. eapply hurt_keep; [done..|by eapply H7].
  - intros u e [[-> ?]|[_ Hu]]%(worker_lookup _ _ _ _ _ _ Ht); [done|by eapply H8].
Qed.

(** A worker is done with channel [d]. *)
Lemma fetching_done l cs ws g t d c k x :
  fetching l cs ws g -> ws !! t = Some (WBusy d c) -> x <> CWait ->
  (forall d c, k <> WBusy d c) -> (forall e, k = WFail e -> flaw) ->
  (forall b, x = CFull b -> b = place T c) -> (x = CNil -> exists e, k = WFail e) ->
  fetching l (<[d := x]> cs) (<[t := k]> ws) g.
Proof.
  intros [H1 [H2 H2'] H3 H4 H5 H6 H7 H8] Ht Hx Hk Hf Hb Hn.
  destruct (H3 t d c Ht) as [Hd Hc]. pose proof (lookup_lt_Some _ _ _ Hd) as Hlt.
  pose proof (lookup_lt_Some _ _ _ Ht) as Htl.
  assert (Hcell : forall d' y, <[d := x]> cs !! d' = Some y -> (d' = d /\ y = x) \/ (d' <> d /\ cs !! d' = Some y)).
  { intros d' y [(-> & -> & _)|[? ?]]%list_lookup_insert_Some; auto. }
  assert (Hhurt : hurt ws g -> hurt (<[t := k]> ws) g) by (by apply hurt_keep with (k := WBusy d c)).
  split.
  - by rewrite length_insert.
  - by rewrite length_insert.
  - intros u d' c' [[-> E]|[Hu0 Hu]]%(worker_lookup _ _ _ _ _ _ Ht); [by destruct (Hk d' c')|].
    destruct (H3 u d' c' Hu) as [E1 E2]. split; [|done]. rewrite list_lookup_insert_ne; [done|].
    intros ->. by apply Hu0, (H5 u t d' c' c).
  - intros d' [[_ ?]|[Hne Hd']]%Hcell; [by destruct Hx|].
    destruct (H4 d' Hd') as (u & c' & Hu). exists u, c'. rewrite list_lookup_insert_ne; [done|].
    intros ->. rewrite Ht in Hu. congruence.
  - intros u v d' c1 c2 [[-> E]|[_ Hu]]%(worker_lookup _ _ _ _ _ _ Ht); [by destruct (Hk d' c1)|].
    intros [[-> E]|[_ Hv]]%(worker_lookup _ _ _ _ _ _ Ht); [by destruct (Hk d' c2)|]. by eapply H5.
  - intros d' b [[-> E]|[_ Hd']]%Hcell; [exists c; auto|by apply H6].
  - intros d' [[-> E]|[_ Hd']]%Hcell; [|by eapply Hhurt, H7].
    destruct (Hn (eq_sym E)) as [e ->]. split; [by eapply Hf|]. right. exists t, e.
    by apply list_lookup_insert_eq.
  - intros u e [[-> E]|[_ Hu]]%(worker_lookup _ _ _ _ _ _ Ht); [by eapply Hf|by eapply H8].
Qed.

(** The channels between the assembler and the feeder. *)
Definition inflight (fd : feeder) (q : list nat) (a : assembler) : list nat :=
  (match a with ARecv d => [d] | _ => [] end) ++ q ++ (match fd with FHand d => [d] | _ => [] end).

Definition writing (a : assembler) : bytes := match a with AWrite b => b | _ => [] end.

#[local] Arguments inflight : simpl never.

(** As long as nothing went wrong, the channels in flight are the last ones created, and what was
    written are the chunks of the others. *)
Definition ordered (fd : feeder) (cs : list cell) (q : list nat) (a : assembler) (o : bytes) : Prop :=
  exists k, (k <= length cs)%nat /\ inflight fd q a = seq k (length cs - k) /\
    o ++ writing a = concat (map (place T) (take k (Chunks index))).

(** What is known once UnTar is done. *)
Definition exact (r : outcome unit) (f : F) : Prop := UnTar ErrEOF (fun _ => false) T f0 = (r, f).

Record pipe_inv (x : pipe) : Prop := {
  pv_fetching : fetching (todo x) (cells x) (workers x) (gerr x);
  pv_cancelled : cancelled x = true <-> gerr x <> None \/ parent x = true;
  pv_exited t : workers x !! t = Some WExit -> feed x = FDone \/ cancelled x = true;
  pv_feed : feed x = FDone -> todo x = [] \/ cancelled x = true;
  pv_done : asm x = ADone -> (feed x = FDone /\ queue x = []) \/ cancelled x = true;
  pv_inflight d : d ∈ inflight (feed x) (queue x) (asm x) -> (d < length (cells x))%nat;
  pv_ordered : cancelled x = false -> CNil ∉ cells x ->
    ordered (feed x) (cells x) (queue x) (asm x) (out x);
  pv_run : untar x = URun -> target x = f0 /\ (gerr x <> None -> hurt (workers x) (gerr x));
  pv_told r : untar x = of_untar r \/ untar x = URet r ->
    parent x = true \/ hurt (workers x) (gerr x) \/ exact r (target x);
  pv_ret r : untar x = URet r -> r = Ok tt -> asm x = ADone;
  pv_ends r : untar x = URet r -> r <> NoFuel;
  pv_failed e : untar x = URet (Err e) -> gerr x <> None;
  pv_gerr e : gerr x = Some e -> parent x = true \/ flaw \/ exists f, exact (Err e) f
}.

#[local] Instance cell_eq_dec : EqDecision cell.
Proof using. solve_decision. Defined.

Lemma not_nil_insert d x (cs : list cell) : cs !! d = Some CWait -> CNil ∉ <[d := x]> cs -> CNil ∉ cs.
Proof using.
  intros Hd Hn [d' Hd']%list_elem_of_lookup. apply Hn. apply (list_elem_of_lookup_2 _ d').
  rewrite list_lookup_insert_ne; [done|]. intros ->. congruence.
Qed.

Lemma ordered_request cs q a o c :
  ordered FNext cs q a o -> ordered (FHand (length cs)) (cs ++ [c]) q a o.
Proof using.
  intros (k & Hk & Hin & Ho). exists k. rewrite length_app. cbn. split; [lia|]. split; [|done].
  unfold inflight in *. rewrite app_nil_r in Hin. rewrite app_assoc, Hin.
  replace (length cs + 1 - k)%nat with (S (length cs - k)) by lia. rewrite seq_S. by repeat f_equal; lia.
Qed.

Lemma ordered_recv fd cs q d b c o :
  ordered fd cs q (ARecv d) o -> Chunks index !! d = Some c -> b = place T c -> ordered fd cs q (AWrite b) o.
Proof using.
  intros (k & Hk & Hin & Ho) Hc ->. unfold inflight in Hin. cbn in Hin.
  destruct (length cs - k)%nat as [|m] eqn:E; [done|]. cbn in Hin. injection Hin as -> Hin.
  exists (S k). split; [lia|]. split; [unfold inflight; cbn; rewrite Hin; f_equal; lia|].
  rewrite (take_S_r _ _ _ Hc), map_app, concat_app. cbn in *. rewrite app_nil_r in *. by rewrite Ho.
Qed.

(** What was written is a beginning of the archive, and all of it when all channels are closed. *)
Lemma ordered_prefix fd cs q a o : ordered fd cs q a o -> exists rest, T = o ++ rest.
Proof using Hdesc.
  intros (k & _ & _ & Ho). exists (writing a ++ concat (map (place T) (drop k (Chunks index)))).
  rewrite app_assoc, Ho, <- concat_app, <- map_app, take_drop. symmetry. by apply describes_concat.
Qed.

Lemma ordered_all cs o : ordered FDone cs [] ADone o -> (length (Chunks index) <= length cs)%nat -> o = T.
Proof using Hdesc.
  intros (k & Hk & Hin & Ho) Hall. cbn in *. assert (length cs - k = 0)%nat by (by destruct (length cs - k)%nat).
  rewrite app_nil_r in Ho. rewrite Ho, take_ge by lia. by apply describes_concat.
Qed.

Lemma untar_stop stop a w : (forall k, stop k = false) -> forall fuel k,
  untar_loop ErrEOF stop fuel k a w = untar_loop ErrEOF (fun _ => false) fuel k a w.
Proof using.
  intros Hs fuel. revert a w. induction fuel as [|fuel IH]; intros a w k; cbn; [done|]. rewrite Hs.
  destruct (Next ErrEOF a) as [[[nd|]| | |] a1]; [|done..]. destruct (create _ nd a1 w) as [[[e|] a2] w2]; [done|].
  apply IH.
Qed.

Lemma UnTar_exact stop r f : (forall k, stop k = false) -> UnTar ErrEOF stop T f0 = (r, f) -> exact r f.
Proof using. unfold exact. intros Hs <-. symmetry. by apply untar_stop. Qed.

Lemma UnTar_no_fuel stop o f r f' : UnTar ErrEOF stop o f = (r, f') -> r <> NoFuel.
Proof using.
  intros E. pose proof (untar_loop_ends ErrEOF stop (S (length o)) 0 (NewArchiveDecoder o) f) as He.
  unfold UnTar in E. rewrite E in He. apply He. cbn. lia.
Qed.

Lemma of_untar_inv r r' : of_untar r = of_untar r' \/ of_untar r = URet r' -> r = r'.
Proof using. destruct r, r'; cbn; intros [E|E]; congruence. Qed.

(** UnTar stops reading, with a result its input decides. *)
Lemma told_now x stop r f' :
  pipe_inv x -> untar x = URun -> polls (cancelled x) stop ->
  ((forall rest, UnTar ErrEOF stop (out x ++ rest) (target x) = (r, f')) \/
   (asm x = ADone /\ UnTar ErrEOF stop (out x) (target x) = (r, f'))) ->
  parent x = true \/ hurt (workers x) (gerr x) \/ exact r f'.
Proof using Hdesc.
  intros [I1 I2 I3 I4 I5 I6 I7 I8 I9 I10 I11 I12 I13] Hu Hp Hr. destruct (I8 Hu) as [Ht Hg].
  destruct (cancelled x) eqn:Ec.
  { destruct (proj1 I2 eq_refl) as [?|?]; [right; left; by apply Hg|by left]. }
  destruct (decide (CNil ∈ cells x)) as [[d Hd]%list_elem_of_lookup|Hn].
  { right. left. by eapply (fe_nil _ _ _ _ I1). }
  right. right. specialize (I7 eq_refl Hn). specialize (Hp eq_refl). rewrite Ht in Hr.
  apply (UnTar_exact stop); [done|]. destruct Hr as [Hr|[Ha Hr]].
  - destruct (ordered_prefix _ _ _ _ _ I7) as [rest E]. by rewrite E, Hr.
  - destruct (I5 Ha) as [[Hf Hq]|?]; [|congruence]. destruct (I4 Hf) as [Htodo|?]; [|congruence].
    rewrite Ha, Hf, Hq in I7. rewrite <- Hr. f_equal. symmetry. eapply ordered_all; [done|].
    destruct (fe_todo _ _ _ _ I1) as [E ?]. rewrite Htodo in E. symmetry in E.
    apply (f_equal length) in E. rewrite length_drop in E. cbn in E. lia.
Qed.

(** The steps of the four kinds of goroutines keep the invariant. *)

Definition told (p : bool) (ws : list worker) (g : option error) (u : extractor) (f : F) : Prop :=
  forall r, u = of_untar r \/ u = URet r -> p = true \/ hurt ws g \/ exact r f.

Lemma told_keep p ws g ws' g' u f : (hurt ws g -> hurt ws' g') -> told p ws g u f -> told p ws' g' u f.
Proof using. intros Hh Ht r Hr. destruct (Ht r Hr) as [?|[?|?]]; auto. Qed.

Lemma first_error_some g e : first_error g e <> None.
Proof using. by destruct g. Qed.

Lemma inv_feeder l l' fd fd' cs q q' ws a o u cn p g w f :
  pipe_inv (mkPipe l fd cs q ws a o u cn p g w f) -> l' = l ->
  inflight fd' q' a = inflight fd q a \/ cn = true /\ inflight fd' q' a ⊆ inflight fd q a ->
  fd <> FDone -> (fd' = FDone -> q' = q /\ (l = [] \/ cn = true)) ->
  pipe_inv (mkPipe l' fd' cs q' ws a o u cn p g w f).
Proof using.
  intros [I1 I2 I3 I4 I5 I6 I7 I8 I9 I10 I11 I12 I13] -> Hfl Hnd Hd. cbn in *. split; cbn; try done.
  - intros t Ht. destruct (I3 t Ht); [done|by right].
  - intros Hf. by apply Hd.
  - intros Ha. destruct (I5 Ha) as [[? _]|?]; [done|by right].
  - intros d Hin. apply I6. destruct Hfl as [E|[_ Hs]]; [by rewrite <- E|by apply Hs].
  - intros Hc Hn. destruct Hfl as [E|[? _]]; [|congruence].
    destruct (I7 Hc Hn) as (k & ? & ? & ?). exists k. by rewrite E.
Qed.

Lemma inv_request t c l cs q ws a o u cn p g w f :
  pipe_inv (mkPipe (c :: l) FNext cs q ws a o u cn p g w f) -> ws !! t = Some WIdle ->
  pipe_inv (mkPipe l (FHand (length cs)) (cs ++ [CWait]) q (<[t := WBusy (length cs) c]> ws) a o u cn p g w f).
Proof using.
  intros [I1 I2 I3 I4 I5 I6 I7 I8 I9 I10 I11 I12 I13] Ht. cbn in *.
  assert (Hh : hurt ws g -> hurt (<[t := WBusy (length cs) c]> ws) g) by (by eapply hurt_keep).
  split; cbn; try done.
  - by apply fetching_request.
  - intros u' [[_ ?]|[_ Hu]]%(worker_lookup _ _ _ _ _ _ Ht); [done|]. destruct (I3 u' Hu); [done|by right].
  - intros Ha. destruct (I5 Ha) as [[? _]|?]; [done|by right].
  - intros d Hin. rewrite length_app. cbn. unfold inflight in *. rewrite !elem_of_app in *.
    destruct Hin as [Hin|[Hin|Hin]]; [| |apply list_elem_of_singleton in Hin; lia];
      (assert (d < length cs)%nat; [apply I6; rewrite !elem_of_app; tauto|lia]).
  - intros Hc Hn. apply ordered_request, I7; [done|]. intros Hin. apply Hn. rewrite elem_of_app. by left.
  - intros Hu. destruct (I8 Hu) as [? Hg]. split; [done|]. intros. by apply Hh, Hg.
  - by apply (told_keep _ ws g).
Qed.

(** A step of a worker; it may fill or close the channel it works on. *)
Lemma inv_worker l fd cs cs' q ws ws' a o u cn cn' p g g' w w' f :
  pipe_inv (mkPipe l fd cs q ws a o u cn p g w f) ->
  fetching l cs' ws' g' -> length cs' = length cs -> (CNil ∉ cs' -> CNil ∉ cs) ->
  (hurt ws g -> hurt ws' g') -> (g' <> None -> g <> None \/ hurt ws' g') ->
  (cn' = true <-> g' <> None \/ p = true) -> (cn = true -> cn' = true) ->
  (forall t, ws' !! t = Some WExit -> ws !! t = Some WExit \/ fd = FDone \/ cn' = true) ->
  (forall e, g' = Some e -> g = Some e \/ flaw) -> (g <> None -> g' <> None) ->
  pipe_inv (mkPipe l fd cs' q ws' a o u cn' p g' w' f).
Proof using.
  intros [I1 I2 I3 I4 I5 I6 I7 I8 I9 I10 I11 I12 I13] Hf Hl Hn Hh Hg Hc Hcn Hex Hge Hgn. cbn in *.
  split; cbn; try done.
  - intros t [Ht|?]%Hex; [|done]. destruct (I3 t Ht); auto.
  - intros Hfd. destruct (I4 Hfd); auto.
  - intros Ha. destruct (I5 Ha); auto.
  - rewrite Hl. done.
  - intros Hc' Hn'. assert (Hc0 : cn = false) by (destruct cn; [by rewrite Hcn in Hc'|done]).
    destruct (I7 Hc0 (Hn Hn')) as (k & ? & ? & ?). exists k. by rewrite Hl.
  - intros Hu. destruct (I8 Hu) as [? Hg0]. split; [done|]. intros [?|?]%Hg; [by apply Hh, Hg0|done].
  - by apply (told_keep _ ws g).
  - intros e Hu. by eapply Hgn, I12.
  - intros e [He|?]%Hge; [by apply I13|auto].
Qed.

(** A step of the assembler. *)
Lemma inv_asm l fd cs q q' ws a a' o o' u cn cn' p g g' w f :
  pipe_inv (mkPipe l fd cs q ws a o u cn p g w f) ->
  (cn' = true <-> g' <> None \/ p = true) -> (cn = true -> cn' = true) ->
  (a' = ADone -> (fd = FDone /\ q' = []) \/ cn' = true) -> a <> ADone ->
  (forall d, d ∈ inflight fd q' a' -> d ∈ inflight fd q a) ->
  (cn' = false -> CNil ∉ cs -> ordered fd cs q a o -> ordered fd cs q' a' o') ->
  g' = g \/ (exists e, g' = first_error g e /\ (u = UClosed e \/ u = URet (Err e))) ->
  pipe_inv (mkPipe l fd cs q' ws a' o' u cn' p g' w f).
Proof using.
  intros [I1 I2 I3 I4 I5 I6 I7 I8 I9 I10 I11 I12 I13] Hc Hcn Ha' Ha Hfl Ho Hg. cbn in *.
  assert (Hgn : g <> None -> g' <> None).
  { destruct Hg as [->|(e & -> & _)]; [done|]. intros _. apply first_error_some. }
  assert (Hh : hurt ws g -> hurt ws g') by (intros [? [?|?]]; split; auto).
  split; cbn; try done.
  - by eapply fetching_gerr.
  - intros t Ht. destruct (I3 t Ht); auto.
  - intros Hfd. destruct (I4 Hfd); auto.
  - intros d Hd. by apply I6, Hfl.
  - intros Hc' Hn. apply Ho; [done..|]. apply I7; [|done]. destruct cn; [by rewrite Hcn in Hc'|done].
  - intros Hu. destruct (I8 Hu) as [? Hg0]. split; [done|]. destruct Hg as [->|(e & _ & [?|?])]; [done|congruence..].
  - by apply (told_keep _ ws g).
  - intros r Hu Hr. by destruct Ha; apply (I10 r).
  - intros e Hu. by eapply Hgn, I12.
  - intros e He. destruct Hg as [->|(e' & -> & Hu)]; [by apply I13|].
    destruct g as [e0|]; [by apply I13|]. cbn in He. injection He as ->.
    destruct (I9 (Err e)) as [?|[[? _]|?]]; [by destruct Hu as [->| ->]; auto|by auto..|].
    right. right. by exists f.
Qed.

(** A step of UnTar. *)
Lemma inv_untar l fd cs q ws a o u u' cn cn' p g g' w f f' :
  pipe_inv (mkPipe l fd cs q ws a o u cn p g w f) ->
  (cn' = true <-> g' <> None \/ p = true) -> (cn = true -> cn' = true) ->
  u' <> URun -> told p ws g u' f' -> (u' = URet (Ok tt) -> a = ADone) -> u' <> URet NoFuel ->
  (forall e, u' = URet (Err e) -> g' <> None) ->
  g' = g \/ (exists e, g' = first_error g e /\ u' = URet (Err e)) ->
  pipe_inv (mkPipe l fd cs q ws a o u' cn' p g' w f').
Proof using.
  intros [I1 I2 I3 I4 I5 I6 I7 I8 I9 I10 I11 I12 I13] Hc Hcn Hu Ht Hr Hn Hf Hg. cbn in *.
  assert (Hgn : g <> None -> g' <> None).
  { destruct Hg as [->|(e & -> & _)]; [done|]. intros _. apply first_error_some. }
  assert (Hh : hurt ws g -> hurt ws g') by (intros [? [?|?]]; split; auto).
  split; cbn; try done.
  - by eapply fetching_gerr.
  - intros t Hx. destruct (I3 t Hx); auto.
  - intros Hfd. destruct (I4 Hfd); auto.
  - intros Ha. destruct (I5 Ha); auto.
  - intros Hc' Hn'. apply I7; [|done]. destruct cn; [by rewrite Hcn in Hc'|done].
  - by apply (told_keep _ ws g).
  - intros r -> ->. by apply Hr.
  - intros r -> ->. done.
  - intros e He. destruct Hg as [->|(e' & -> & ->)]; [by apply I13|].
    destruct g as [e0|]; [by apply I13|]. cbn in He. injection He as ->.
    destruct (Ht (Err e)) as [?|[[? _]|?]]; [by right|by auto..|]. right. right. by exists f'.
Qed.

Lemma request_spec c w r w' : c ∈ Chunks index -> request c w = (r, w') ->
  match r with Ok b => b = place T c | Err _ => flaw | _ => False end.
Proof using Hserves.
  intros Hc Hr. assert (Hr' := Hr). unfold request in Hr.
  destruct (fetch s (ID c) w) as [r0 w0] eqn:E. specialize (Hserves c w r0 w0 Hc E).
  destruct r0 as [b|e| |]; cbn in Hr; [|injection Hr as <- <-..]; [|by exists c, w, e, w0|done..].
  destruct (decide _); injection Hr as <- <-; [done|]. by eexists c, w, _, w0.
Qed.

Lemma inv_fetched t d c r x k l fd cs q ws a o u cn p g w w' f :
  pipe_inv (mkPipe l fd cs q ws a o u cn p g w f) -> ws !! t = Some (WBusy d c) -> request c w = (r, w') ->
  match r with Ok b => x = CFull b /\ k = WIdle | Err e => x = CNil /\ k = WFail e | _ => False end ->
  pipe_inv (mkPipe l fd (<[d := x]> cs) q (<[t := k]> ws) a o u cn p g w' f).
Proof using Hserves.
  intros Hi Ht Hr Hx. pose proof Hi as [I1 I2 I3 I4 I5 I6 I7 I8 I9 I10 I11 I12 I13]. cbn in *.
  destruct (fe_busy _ _ _ _ I1 t d c Ht) as [Hd Hc].
  pose proof (request_spec c w r w' (list_elem_of_lookup_2 _ _ _ Hc) Hr) as Hs.
  assert (Hh : hurt ws g -> hurt (<[t := k]> ws) g) by (by eapply hurt_keep).
  assert (x <> CWait /\ (forall d c, k <> WBusy d c) /\ k <> WExit /\ (forall e, k = WFail e -> flaw) /\
    (forall b, x = CFull b -> b = place T c) /\ (x = CNil -> exists e, k = WFail e))
    as (C1 & C2 & C3 & C4 & C5 & C6).
  { destruct r as [b|e| |]; try done; destruct Hx as [-> ->]; split_and!; try done; [congruence|eauto]. }
  eapply (inv_worker l fd cs _ q ws); try done.
  - by eapply fetching_done.
  - apply length_insert.
  - by apply not_nil_insert.
  - auto.
  - intros u' [[-> ?]|[_ ?]]%(worker_lookup _ _ _ _ _ _ Ht); [by destruct C3|by left].
  - auto.
Qed.

Lemma pipe_leave t k l fd cs q ws a o u cn cn' p g g' w f :
  pipe_inv (mkPipe l fd cs q ws a o u cn p g w f) -> ws !! t = Some k ->
  (exists e, k = WFail e /\ cn' = true /\ g' = first_error g e) \/ (k = WIdle /\ fd = FDone /\ cn' = cn /\ g' = g) ->
  pipe_inv (mkPipe l fd cs q (<[t := WExit]> ws) a o u cn' p g' w f).
Proof using.
  intros Hi Ht Hk. pose proof Hi as [I1 I2 I3 I4 I5 I6 I7 I8 I9 I10 I11 I12 I13]. cbn in *.
  assert (Hg : g <> None -> g' <> None).
  { destruct Hk as [(e & _ & _ & ->)|(_ & _ & _ & ->)]; [|done]. intros _. apply first_error_some. }
  assert (Hh : hurt ws g -> hurt (<[t := WExit]> ws) g').
  { eapply hurt_keep; [done| |done]. destruct Hk as [(e & -> & _ & ->)|(-> & _)]; [|done].
    intros ? _. apply first_error_some. }
  assert (Hw : fetching l cs (<[t := WExit]> ws) g').
  { eapply fetching_worker; try done; destruct Hk as [(e & -> & _ & ->)|(-> & _)]; try done.
    intros ? _. apply first_error_some. }
  eapply (inv_worker l fd cs cs q ws); try done.
  - destruct Hk as [(e & -> & _ & ->)|(_ & _ & _ & ->)]; [|by left]. right.
    split; [by eapply (fe_fail _ _ _ _ I1)|left; apply first_error_some].
  - destruct Hk as [(e & _ & -> & ->)|(_ & _ & -> & ->)]; [|done]. split; [|done].
    intros _. left. apply first_error_some.
  - destruct Hk as [(e & _ & -> & _)|(_ & _ & -> & _)]; done.
  - intros u' [[_ _]|[_ ?]]%(worker_lookup _ _ _ _ _ _ Ht); [right|by left].
    destruct Hk as [(e & _ & -> & _)|(_ & -> & _)]; auto.
  - intros e0. destruct Hk as [(e & -> & _ & ->)|(_ & _ & _ & ->)]; [|by left].
    intros _. right. by eapply (fe_fail _ _ _ _ I1).
Qed.

Lemma pipe_inv_step x y : pipe_inv x -> ustep x y -> pipe_inv y.
Proof using Hserves Hdesc.
  intros Hi Hs. destruct Hs as
    [t c l cs q ws a o u cn p g w f Ht|l d cs q ws a o u cn p g w f Hq|l fd cs q ws a o u p g w f Hfd
    |cs q ws a o u cn p g w f|t d c b w' l fd cs q ws a o u cn p g w f Ht Hr
    |t d c e w' l fd cs q ws a o u cn p g w f Ht Hr|t e l fd cs q ws a o u cn p g w f Ht
    |t l cs q ws a o u cn p g w f Ht|d q l fd cs ws o u cn p g w f|l cs ws o u cn p g w f
    |l fd cs q ws o u p g w f|d b l fd cs q ws o u cn p g w f Hd|d l fd cs q ws o u cn p g w f Hd
    |b l fd cs q ws o cn p g w f|l fd cs q ws o u cn p g w f|b e u l fd cs q ws o cn p g w f Hb Hu
    |stop r l fd cs q ws a o cn p g w f f' Hp Hne Hr|stop r l fd cs q ws o cn p g w f f' Hp Hr
    |e l fd cs q ws a o cn p g w f].
  - by apply inv_request.
  - eapply inv_feeder; [done..|left|done|done]. unfold inflight. by rewrite app_nil_r.
  - eapply inv_feeder; [done..|right|done|auto]. split; [done|]. unfold inflight. set_solver.
  - eapply inv_feeder; [done..|by left|done|auto].
  - by eapply inv_fetched.
  - by eapply inv_fetched.
  - eapply pipe_leave; [done..|left; by exists e].
  - eapply pipe_leave; [done..|by right].
  - eapply inv_asm; try done; [apply (pv_cancelled _ Hi)|by left].
  - eapply inv_asm; try done; [apply (pv_cancelled _ Hi)|by left|by left].
  - eapply inv_asm; try done; [apply (pv_cancelled _ Hi)|by right|by left].
  - destruct (fe_full _ _ _ _ (pv_fetching _ Hi) d b Hd) as (c & Hc & Hbc).
    eapply inv_asm; try done; [apply (pv_cancelled _ Hi)| | |by left].
    + intros x Hx. unfold inflight in *. cbn in *. by right.
    + intros _ _ Ho. by eapply ordered_recv.
  - eapply inv_asm; try done; [apply (pv_cancelled _ Hi)| | |by left].
    + intros x Hx. unfold inflight in *. cbn in *. by right.
    + intros _ [] _. by eapply list_elem_of_lookup_2.
  - eapply inv_asm; try done; [apply (pv_cancelled _ Hi)| |by left].
    intros _ _ (k & ? & ? & Ho). exists k. cbn in *. by rewrite app_nil_r.
  - eapply inv_asm; try done; [apply (pv_cancelled _ Hi)|by left].
  - eapply inv_asm; try done; [|by right|right; by exists e].
    split; [|done]. intros _. left. apply first_error_some.
  - eapply inv_untar; try done; [apply (pv_cancelled _ Hi)|by destruct r| | | |by destruct r|by left].
    + intros r' ->%of_untar_inv%eq_sym. eapply (told_now _ _ r f' Hi); [done..|by left].
    + destruct r as [[]| | |]; cbn; congruence.
    + pose proof (UnTar_no_fuel _ _ _ _ _ (Hr [])). by destruct r.
  - eapply inv_untar; try done; [apply (pv_cancelled _ Hi)|by destruct r| | |by destruct r|by left].
    + intros r' ->%of_untar_inv%eq_sym. eapply (told_now _ _ r f' Hi); [done..|by right].
    + pose proof (UnTar_no_fuel _ _ _ _ _ Hr). by destruct r.
  - eapply inv_untar; try done; [| | |right; by exists e].
    + split; [|done]. intros _. left. apply first_error_some.
    + intros r Hr. apply (pv_told _ Hi). left.
      assert (r = Err e) as -> by (destruct r; cbn in Hr; destruct Hr; congruence). done.
    + intros _ _. apply first_error_some.
Qed.

Lemma pipe_inv_cancel x y : pipe_inv x -> ucancel x y -> pipe_inv y.
Proof using.
  intros Hi Hs. destruct Hs as [l fd cs q ws a o u cn g w f].
  destruct Hi as [I1 I2 I3 I4 I5 I6 I7 I8 I9 I10 I11 I12 I13]. cbn in *.
  split; cbn; try done; auto. split; [by right|done].
Qed.

Lemma pipe_inv_start w : pipe_inv (UnTarIndex index w f0).
Proof using.
  assert (Hidle : forall t k, replicate n WIdle !! t = Some k -> k = WIdle)
    by (intros t k; rewrite lookup_replicate; tauto).
  split; cbn; try done.
  - split; cbn; try done; try (intros; by match goal with H : replicate _ _ !! _ = _ |- _ => apply Hidle in H end).
    + apply length_replicate.
    + split; [done|lia].
  - split; [done|by intros [?|?]].
  - intros t Ht%Hidle. done.
  - intros d Hd. by apply elem_of_nil in Hd.
  - intros _ _. by exists 0%nat.
  - intros r [E|E]; by destruct r.
Qed.

(** *** Somebody can always go on *)

Lemma request_runs c w : c ∈ Chunks index ->
  (exists b w', request c w = (Ok b, w')) \/ (exists e w', request c w = (Err e, w')).
Proof using Hserves.
  intros Hc. destruct (request c w) as [r w'] eqn:E. pose proof (request_spec c w r w' Hc E).
  destruct r; [left|right|done|done]; eauto.
Qed.

Lemma worker_steps x t k : pipe_inv x -> workers x !! t = Some k -> k <> WIdle -> k <> WExit ->
  exists y, ustep x y.
Proof using Hserves.
  intros Hi Ht H1 H2. destruct x as [l fd cs q ws a o u cn p g w f]. cbn in *.
  destruct k as [|d c|e|]; [done| | |done].
  - destruct (fe_busy _ _ _ _ (pv_fetching _ Hi) t d c Ht) as [_ Hc].
    destruct (request_runs c w (list_elem_of_lookup_2 _ _ _ Hc)) as [(b & w' & E)|(e & w' & E)].
    + eexists. by eapply u_fetched.
    + eexists. by eapply u_failed.
  - eexists. by eapply u_return.
Qed.

(** The assembler can go on unless it has ended or waits for the feeder. *)
Lemma asm_steps x : pipe_inv x -> untar x <> URet Panic ->
  (exists y, ustep x y) \/ asm x = ADone \/
  (asm x = AWait /\ queue x = [] /\ feed x <> FDone /\ cancelled x = false).
Proof using Hserves.
  intros Hi Hu. destruct x as [l fd cs q ws a o u cn p g w f]. cbn in *.
  destruct a as [|d|b|]; [| | |by right; left].
  - destruct cn; [left; eexists; apply u_asm_stop|].
    destruct q as [|d q]; [|left; eexists; apply u_take].
    destruct fd; [by right; right..|left; eexists; apply u_asm_end].
  - left. pose proof (pv_inflight _ Hi d) as Hd. cbn in Hd.
    destruct (lookup_lt_is_Some_2 cs d) as [x Hx]; [apply Hd; by left|]. destruct x as [|b|].
    + destruct (fe_wait _ _ _ _ (pv_fetching _ Hi) d Hx) as (t & c & Ht).
      by eapply (worker_steps _ t (WBusy d c)).
    + eexists. by apply (u_recv d b).
    + eexists. by apply u_recv_nil.
  - left. destruct b as [|x b]; [eexists; apply u_write_nothing|]. destruct u as [|e|r].
    + eexists. apply u_write.
    + eexists. apply (u_write_closed _ e); auto.
    + destruct r as [[]|e| |].
      * by pose proof (pv_ret _ Hi _ eq_refl eq_refl).
      * eexists. apply (u_write_closed _ e); auto.
      * done.
      * by pose proof (pv_ends _ Hi _ eq_refl).
Qed.

(** No deadlock: until UnTarIndex returns some goroutine can go on. *)
Lemma pipeline_progress x : (0 < n)%nat -> pipe_inv x -> result x = None -> exists y, ustep x y.
Proof using Hserves.
  intros Hn Hi Hr.
  assert (Hp : untar x <> URet Panic) by (intros E; unfold result in Hr; by rewrite E in Hr).
  assert (Hw : (exists y, ustep x y) \/ forall t k, workers x !! t = Some k -> k = WIdle \/ k = WExit).
  { destruct (forallb (fun k => match k with WIdle | WExit => true | _ => false end) (workers x)) eqn:E.
    - right. intros t k Ht. pose proof (forallb_true_lookup _ _ _ _ E Ht) as Hk. destruct k; auto; done.
    - left. apply forallb_false_lookup in E as (t & k & Ht & Hk). eapply worker_steps; [done..| |]; by intros ->. }
  destruct Hw as [?|Hw]; [done|]. destruct (asm_steps x Hi Hp) as [?|Ha]; [done|].
  destruct x as [l fd cs q ws a o u cn p g w f]. cbn in *.
  destruct Ha as [->|(-> & -> & Hfd & ->)].
  - (* the assembler has ended *)
    destruct u as [|e|r]; [|by eexists; apply u_untar_return|].
    { destruct (UnTar ErrEOF (fun _ => false) o f) as [r f'] eqn:E. eexists. by eapply u_eof. }
    pose proof (pv_done _ Hi eq_refl) as Hd. cbn in Hd.
    assert (fd = FDone \/ fd <> FDone) as [->|Hfd] by (by destruct fd; auto).
    2: { destruct Hd as [[? _]| ->]; [done|]. eexists. by apply u_feed_stop. }
    unfold result in Hr. cbn in Hr.
    destruct (forallb has_exited ws) eqn:E; [by destruct r|].
    apply forallb_false_lookup in E as (t & k & Ht & Hk).
    destruct (Hw t k Ht) as [->| ->]; [|done].
    eexists. by eapply u_quit.
  - (* it waits for the feeder *)
    destruct fd as [|d|]; [| |done].
    + destruct l as [|c l]; [eexists; apply u_feed_end|].
      destruct (lookup_lt_is_Some_2 ws 0) as [k Hk]; [pose proof (fe_len _ _ _ _ (pv_fetching _ Hi)) as El; cbn in El; lia|].
      destruct (Hw 0%nat k Hk) as [->| ->]; [eexists; by eapply u_request|].
      by destruct (pv_exited _ Hi 0%nat Hk).
    + eexists. by apply u_hand.
Qed.

Lemma pipe_inv_result x r : pipe_inv x -> result x = Some r -> parent x = false ->
  exact r (target x) \/ (flaw /\ r <> Ok tt).
Proof using.
  intros Hi Hr Hp. pose proof Hi as [I1 I2 I3 I4 I5 I6 I7 I8 I9 I10 I11 I12 I13]. unfold result in Hr.
  destruct (untar x) as [| |r'] eqn:Eu; [done..|].
  destruct (I9 r' (or_intror eq_refl)) as [?|Hx]; [congruence|].
  assert (Hfin : r' = Panic -> exact r (target x) \/ flaw /\ r <> Ok tt).
  { intros ->. injection Hr as <-. destruct Hx as [[? _]|?]; [by right|by left]. }
  destruct (decide (r' = Panic)) as [?|Hnp]; [auto|].
  assert (Hr' : feed x = FDone /\ asm x = ADone /\ forallb has_exited (workers x) = true /\
    r = match gerr x with None => Ok tt | Some e => Err e end).
  { destruct r', (feed x), (asm x), (forallb has_exited (workers x)); try done;
      by injection Hr as <-. }
  destruct Hr' as (_ & _ & Hex & ->). destruct (gerr x) as [e|] eqn:Eg.
  - destruct (I13 e eq_refl) as [?|[?|[f' He]]]; [congruence|by right|].
    destruct Hx as [[? _]|Hx]; [by right|]. left. unfold exact in *. congruence.
  - assert (Hnh : ~ hurt (workers x) None).
    { intros [_ [?|(t & e & Ht)]]; [done|]. by pose proof (forallb_true_lookup _ _ _ _ Hex Ht). }
    destruct Hx as [?|Hx]; [done|]. left. destruct r' as [[]|e| |]; try done.
    + by destruct (I12 e eq_refl).
    + by destruct (I11 _ eq_refl).
Qed.

Lemma uany_inv x y : pipe_inv x -> rtc uany x y -> pipe_inv y.
Proof using Hserves Hdesc.
  intros Hi Hs. induction Hs as [x|x y z [Hs|Hs] _ IH]; [done|..]; apply IH.
  - by eapply pipe_inv_step.
  - by eapply pipe_inv_cancel.
Qed.

(** C3. UnTarIndex is UnTar on the archive the index describes. With any number of workers and in
    every interleaving of feeder, workers, assembler and UnTar it ends and never hangs; when it was
    not cancelled it has returned what UnTar returns for the whole archive, and left in the file
    system what UnTar leaves there, except that it may have failed (and extracted less) when the
    store failed to deliver a chunk; it never returns nil for an incomplete archive. *)
Theorem UnTarIndex_refines_UnTar w :
  (0 < n)%nat ->
  let p := UnTarIndex index w f0 in
  sn uany p /\
  forall x, rtc uany p x ->
    match result x with
    | None => exists y, ustep x y
    | Some r => parent x = false ->
        UnTar ErrEOF (fun _ => false) T f0 = (r, target x) \/ (flaw /\ r <> Ok tt)
    end.
Proof using Hserves Hdesc.
  intros Hn p. split; [apply pipeline_terminates|]. intros x Hx.
  assert (Hi : pipe_inv x) by (eapply uany_inv; [|exact Hx]; apply pipe_inv_start).
  destruct (result x) as [r|] eqn:Er; [|by apply pipeline_progress].
  intros Hp. by apply pipe_inv_result.
Qed.

End pipeline.

(** ** A concrete archive in two chunks *)

Definition ex_catar : bytes := ex_bytes (walk ex_tree).

Definition ex_catar_index : Index :=
  mkIndex (mkHeader 0 0) 0 0 0 0
    [mkIndexChunk (str "a") 0 400; mkIndexChunk (str "b") 400 (Z.of_nat (length ex_catar) - 400)].

Definition ex_catar_store : Store unit :=
  mkStore (fun i w =>
      match List.find (fun c => bool_decide (ID c = i)) (Chunks ex_catar_index) with
      | Some c => ((Some (mkChunk (place ex_catar c) [] [] i true), None), w)
      | None => ((None, Some (ChunkMissing i)), w)
      end)
    (fun _ w => ((false, None), w)) None (fun w => (None, w)) [].

Lemma ex_catar_length : Z.of_nat (length ex_catar) = 809.
Proof. vm_compute. reflexivity. Qed.

Lemma ex_catar_describes : describes ex_catar_index ex_catar.
Proof.
  pose proof ex_catar_length as El. split; unfold ex_catar_index; cbn [Chunks]; rewrite ?El.
  - lia.
  - by intros c [= <-].
  - intros [|k] c d; cbn; [by intros [= <-] [= <-]|]. intros _. by destruct k.
  - intros c [= <-]. cbn. lia.
  - intros c Hc. apply elem_of_cons in Hc as [->|Hc]; [cbn; lia|].
    apply list_elem_of_singleton in Hc as ->. cbn. lia.
  - done.
Qed.

Lemma ex_catar_serves : serves (H := toy_codec) ex_catar_store ex_catar_index ex_catar.
Proof.
  intros c w r w' Hc. cbn [Chunks ex_catar_index] in Hc.
  repeat (apply elem_of_cons in Hc as [->|Hc]; [vm_compute; by intros [= <- _]|]).
  by apply elem_of_nil in Hc.
Qed.

Lemma UnTarIndex_refines_UnTar_witness :
  let p := UnTarIndex 2 ex_catar_index tt [] in
  sn (uany (H := toy_codec) ex_catar_store 2) p /\
  forall x, rtc (uany (H := toy_codec) ex_catar_store 2) p x -> result x = Some (Ok tt) ->
    parent x = false -> target x = ex_log.
Proof.
  destruct (UnTarIndex_refines_UnTar (H := toy_codec) ex_catar_store 2 ex_catar_index ex_catar []
    ex_catar_serves ex_catar_describes tt ltac:(lia)) as [Hsn H].
  split; [exact Hsn|]. intros x Hx Hr Hp. specialize (H x Hx). rewrite Hr in H.
  assert (Hlog : UnTar ErrEOF (fun _ => false) ex_catar [] = (Ok tt, ex_log)) by (vm_compute; reflexivity).
  destruct (H Hp) as [E|[_ E]]; [|destruct E; reflexivity].
  exact (f_equal snd (eq_trans (eq_sym E) Hlog)).
Defined.

(** Cancelled before it requests a chunk, UnTarIndex returns nil and has extracted nothing. *)
Example untar_index_cancelled :
  exists x, rtc (uany (H := toy_codec) ex_catar_store 1) (UnTarIndex 1 ex_catar_index tt []) x /\
    result x = Some (Ok tt) /\ target x = [].
Proof.
  unfold UnTarIndex. cbn [replicate]. eexists. split; [|split].
  - eapply rtc_l; [right; apply u_cancel|]. eapply rtc_l; [left; by apply u_feed_stop|].
    eapply rtc_l; [left; apply (u_quit _ _ 0); reflexivity|]. eapply rtc_l; [left; apply u_asm_stop|].
    eapply rtc_once. left. apply (u_eof _ _ never); [done|]. vm_compute. reflexivity.
  - reflexivity.
  - reflexivity.
Qed.
