(* ===== verification/EndToEnd.v ===== *)
(** * EndToEnd: from a stream to its index and back to a file

    ChunkStream writes an index and fills a store (Pipelines), the index is written and read back
    (Index), and AssembleFile puts the file together (Assemble). *)

From S2P Require Import Prelude Rolling Boundary Format Index Chunk Chunker Stores Files Seed Assemble Pool Pipelines.

Section end_to_end.

Context `{Codec}.

(** Two byte strings with the same checksum. *)
Definition collision : Prop := exists a b, a <> b /\ Sum a = Sum b.

Lemma describes_layout i T : describes i T -> layout i (Z.of_nat (length T)).
Proof.
  intros Hd. pose proof (de_size _ _ Hd). split.
  - split; [by apply describes_Length|lia].
  - intros k c Hk. destruct (describes_range _ _ _ _ Hd Hk) as (? & ? & ?). lia.
  - intros j k c d Hjk Hj Hk. by eapply describes_mono.
Qed.

(** A file with the right checksum at every place is the file the index describes, or a collision
    has been found. *)
Lemma same_places i T f :
  describes i T -> length f = length T ->
  (forall c, c ∈ Chunks i -> Sum (place f c) = Sum (place T c)) -> f = T \/ collision.
Proof.
  intros Hd Hl Hs.
  destruct (decide (Forall (fun c => place f c = place T c) (Chunks i))) as [Hall|Hall].
  - left. assert (Hdf : describes i f) by (destruct Hd; split; rewrite ?Hl; done).
    rewrite <- (describes_concat _ _ Hd), <- (describes_concat _ _ Hdf). f_equal.
    apply map_ext_in. intros c Hc. rewrite Forall_forall in Hall. by apply Hall, list_elem_of_In.
  - right. apply not_Forall_Exists in Hall; [|apply _].
    apply Exists_exists in Hall as (c & Hc & Hne). exists (place f c), (place T c). by split; [|apply Hs].
Qed.

(** C1. What goes in comes out. Let ChunkStream, with any number of workers and in any
    interleaving, have returned an index for a non-empty stream without being cancelled. The index,
    written and read back, is accepted; and whenever AssembleFile succeeds on it without being cancelled,
    into a regular file, from any store that verifies its chunks, with any seeds (right or wrong), any
    earlier content of the target and any order of its jobs, the target is the stream byte for byte, or
    two different byte strings with the same checksum have been found. No other file is touched. Where the
    file system can clone, chunks that a cloneable seed has, or that the stream has twice, must have
    two blocks at least (clones_fit of Assemble); the other chunks, like a short last one, need not. *)
Theorem stream_extract_round_trip {W A W2} (inv : W -> Prop) (Fails : error -> Prop) ws
    (view : W -> ChunkID -> option bytes) (other : W -> A) st w0 n r mn avg mx c p fe x i
    (env : Env) (s : Store W2) fuel name fileSeeds action taken order fs (w : W2) w' e_end :
  let T := stream_data (pieces r) in
  FlakyWrite inv Fails ws view st other -> inv w0 -> (0 < n)%nat ->
  Chunker.NewChunker r mn avg mx = Ok c -> mn < mx -> 10 * mx <= maxAlloc ->
  Z.of_nat (length T) < 2 ^ 62 -> T <> [] ->
  chunk_stream c (S (length T)) n w0 = Ok (p, fe) -> rtc (stream_step ws fe) p x ->
  stream_result c x = Some (Ok i) -> parent x = false ->
  exists i', IndexFromReader e_end SHA512_256 (index_bytes i) = Ok i' /\
    (verified_store s -> clone_law env -> index_words env -> isDevice env name = false ->
     Forall seed_words fileSeeds -> clones_fit env name i' action fileSeeds ->
     (forall p, order p ≡ₚ p) ->
     AssembleFile env fuel name i' s fileSeeds action taken order None fs w = Ok (Ok tt, w') ->
     aFS w' = <[name := T]> fs \/ collision).
Proof.
  intros T Hok Hi Hn Hc Hlt Hmx HT Hne Hrun Hx Hres Hp.
  destruct (chunk_stream_runs inv Fails ws view other st w0 n r mn avg mx c Hok Hi Hn Hc Hlt Hmx HT)
    as (p' & fe' & Hrun' & _ & Hall).
  fold T in Hrun'. rewrite Hrun' in Hrun. injection Hrun as -> ->. specialize (Hall x Hx). rewrite Hres in Hall.
  destruct (Hall Hp) as (_ & _ & Hd & Hwf & Hsums & _). fold T in Hd, Hsums. specialize (Hd Hne).
  pose proof (IndexFromReader_bytes e_end SHA512_256 i [] Hwf) as Hread. rewrite app_nil_r in Hread.
  set (i' := mkIndex _ _ _ _ _ _) in Hread. exists i'. split; [exact Hread|].
  intros Hs Hclone Hwords Hdev Hseeds Hfit Horder Ha.
  assert (Hd' : describes i' T) by (destruct Hd; by split).
  destruct (AssembleFile_places env s fuel name i' _ fileSeeds action taken order None fs w w'
    Hs Hclone Hwords (describes_layout _ _ Hd') (de_some _ _ Hd') Hdev Hseeds Hfit Horder Ha)
    as (f & Hf & Hlf & Hplaces).
  destruct (same_places i' T f Hd') as [->|?]; [lia| |by left|by right].
  intros c0 Hk. destruct (proj1 (list_elem_of_lookup _ _) Hk) as [k Hl].
  rewrite (Hplaces k c0 Hl I). symmetry. by apply Hsums.
Qed.

End end_to_end.

(** ** A concrete round trip *)

Definition ex_text : bytes := replicate 100 Byte.x61 ++ replicate 60 Byte.x62.

(** The index ChunkStream writes for [ex_reader], and what is read back. *)
Definition ex_rows : list IndexChunk :=
  Eval vm_compute in
    [mkIndexChunk (toy_sum (take 96 ex_text)) 0 96; mkIndexChunk (toy_sum (drop 96 ex_text)) 96 64].
Definition ex_read : Index :=
  mkIndex (mkHeader 48 CaFormatIndex) (Z.lor CaFormatExcludeNoDump CaFormatSHA512256) 48 64 96 ex_rows.

(** A store that has the two chunks, and verifies them. *)
Definition ex_two_chunks : Store unit :=
  mkStore
    (fun i w => match NewChunkWithID (H := toy_codec) i
                  (if decide (i = toy_sum (take 96 ex_text)) then take 96 ex_text else drop 96 ex_text) false with
                | Ok c => ((Some c, None), w)
                | Err e => ((None, Some e), w)
                | _ => ((None, Some (Errorf "panic")), w)
                end)
    (fun i w => ((true, None), w)) None (fun w => (None, w)) (str "two").

Lemma ex_two_chunks_verified : verified_store (H := toy_codec) ex_two_chunks.
Proof.
  intros id w c w' d Hg Hd. cbn [sGetChunk ex_two_chunks] in Hg. unfold NewChunkWithID in Hg.
  destruct (verify_chunk id _ false) as [c'|e| |] eqn:Hv; try done. injection Hg as <- _.
  by apply (verify_chunk_sum (H := toy_codec) _ _ _ _ Hv).
Qed.

Definition ex_extract : outcome (outcome unit * AW (W := unit)) :=
  AssembleFile (H := toy_codec) ex_env 3 (str "out") ex_read ex_two_chunks [] Skip (fun _ _ => []) (fun p => p) None ∅ tt.

Definition ex_extracted : AW (W := unit) :=
  match ex_extract with
  | Ok (_, w) => w
  | _ => mkAW ∅ (newSelfSeed (fun _ _ => false) [] ex_read) (mkStats 0 0 0 0 0 0 0 0 0) tt
  end.

Lemma ex_extract_ok : ex_extract = Ok (Ok tt, ex_extracted).
Proof.
  assert (E : match ex_extract with Ok (Ok tt, _) => true | _ => false end = true)
    by (vm_compute; reflexivity).
  unfold ex_extracted. by destruct ex_extract as [[[[]| | |] w]| | |].
Qed.

(** Some run of ChunkStream on [ex_reader] returns an index with these rows. *)
Lemma ex_stream_run :
  exists p fe x i, chunk_stream (ex_chunker ex_reader) 161 2 ex_world = Ok (p, fe) /\
    rtc (stream_step (H := toy_codec) ex_local fe) p x /\
    stream_result (ex_chunker ex_reader) x = Some (Ok i) /\ parent x = false /\
    Chunks i = ex_rows.
Proof.
  destruct (chunk_stream_runs (H := toy_codec) (fun _ => True) (fun _ => False) ex_local
    (fun w => ex_view (fst w)) (fun _ => tt) ex_put ex_world 2 ex_reader 48 64 96 (ex_chunker ex_reader)
    ex_flaky_write_other I ltac:(lia) (ex_new _) ltac:(lia) ltac:(unfold maxAlloc; lia) ltac:(cbn; lia))
    as (p & fe & Hp & _ & Hres).
  destruct (pool_finishes (stream_body (H := toy_codec) ex_local) fe p) as (x & r & Hx & Hr & Hpar).
  { intros s Hs Hnone. assert (Hany : rtc (stream_step (H := toy_codec) ex_local fe) p s)
      by (eapply rtc_subrel; [|exact Hs]; intros ? ? ?; by left).
    specialize (Hres s Hany). unfold stream_result in Hres. by rewrite Hnone in Hres. }
  assert (Hpf : parent x = false).
  { rewrite Hpar. unfold chunk_stream in Hp.
    destruct (Chunker.drain _ _) as [[l e]| | |]; cbn in Hp; [|done..]. by injection Hp as <- _. }
  specialize (Hres x Hx). unfold stream_result in *. rewrite Hr in Hres. cbn in Hres.
  destruct r as [e|].
  - exfalso. destruct Hres as [[]|[-> He]]. by apply He.
  - exists p, fe, x. eexists. split; [exact Hp|]. split; [exact Hx|]. rewrite Hr. split; [done|].
    split; [done|]. destruct (Hres Hpf) as (_ & -> & _). vm_compute. reflexivity.
Qed.

Lemma stream_extract_round_trip_witness :
  exists i i', IndexFromReader ErrEOF SHA512_256 (index_bytes i) = Ok i' /\
    Chunks i' = ex_rows /\ (aFS ex_extracted = {[ str "out" := ex_text ]} \/ collision (H := toy_codec)).
Proof.
  destruct ex_stream_run as (p & fe & x & i & Hp & Hx & Hr & Hpar & Hrows).
  assert (Hi : IndexFromReader ErrEOF SHA512_256 (index_bytes i) = Ok ex_read).
  { unfold stream_result in Hr. destruct (Pool.result x) as [[e|]|]; [done| |done]. injection Hr as <-.
    unfold index_bytes, index_element, table_element. rewrite Hrows. vm_compute. reflexivity. }
  destruct (stream_extract_round_trip (H := toy_codec) (fun _ => True) (fun _ => False) ex_local
    (fun w => ex_view (fst w)) (fun _ => tt) ex_put ex_world 2 ex_reader 48 64 96 (ex_chunker ex_reader)
    p fe x i ex_env ex_two_chunks 3 (str "out") [] Skip (fun _ _ => []) (fun p => p) ∅ tt ex_extracted ErrEOF
    ex_flaky_write_other I ltac:(lia) (ex_new _) ltac:(lia) ltac:(unfold maxAlloc; lia) ltac:(cbn; lia)
    ltac:(discriminate) Hp Hx Hr Hpar) as (i' & Hread & Hrest).
  exists i, i'. split; [exact Hread|]. rewrite Hi in Hread. injection Hread as <-. split; [done|].
  refine (Hrest ex_two_chunks_verified _ _ _ _ _ _ ex_extract_ok).
  - discriminate.
  - discriminate.
  - reflexivity.
  - constructor.
  - by apply clones_fit_none.
  - intros pl. reflexivity.
Defined.
