(* ===== verification/Objects.v ===== *)
(** * Objects: the chunk stores on object storage (s3.go, gcs.go)

    The clients of S3 (minio) and Google storage are parameters: a record of the calls the stores
    make, on a world the calls may change. The hypotheses on a client say what its documentation
    says, that a call either does what its name says or returns an error. [s3_flaky] (if the service
    answers HasChunk, see [stat_answers]) and [gcs_flaky] show that the stores then keep the promises of FlakyWrite, so that the theorems on
    Copy, ChunkStream and ChopFile hold for them; and Prune removes what it should. *)

From S2P Require Import Prelude Format Index Chunk Names Stores LocalStore.

(** ** Chunks as objects *)

Section objects.

Context `{Codec} (conv : Converters) (name : ChunkID -> bytes).

(** Every chunk's object, if there is one, is the storage form of data with its ID. *)
Definition objects_ok (objs : bytes -> option bytes) : Prop :=
  forall i b, objs (name i) = Some b ->
    exists d, b <> [] /\ fromStorage conv b = Ok d /\ d <> [] /\ Sum d = i.

Definition object_view (objs : bytes -> option bytes) (i : ChunkID) : option bytes :=
  match objs (name i) with
  | Some b => match fromStorage conv b with Ok d => Some d | _ => None end
  | None => None
  end.

Lemma object_view_some objs i :
  objects_ok objs -> is_Some (object_view objs i) <-> is_Some (objs (name i)).
Proof.
  intros Hok. unfold object_view. destruct (objs (name i)) as [b|] eqn:E; [|done].
  destruct (Hok i b E) as (d & _ & -> & _). split; by eexists.
Qed.

Lemma object_chunk objs i b sv :
  objects_ok objs -> objs (name i) = Some b ->
  exists d c, object_view objs i = Some d /\ NewChunkFromStorage i b conv sv = Ok c /\ holds c i d.
Proof.
  intros Hok E. destruct (Hok i b E) as (d & Hb & Hd & Hdne & Hsum).
  destruct (NewChunkFromStorage_holds i b d conv sv Hd Hb Hdne Hsum) as (c & Hc & Hh).
  exists d, c. unfold object_view. by rewrite E, Hd.
Qed.

(** Views of the same objects. *)
Lemma object_view_same objs objs' :
  (forall n, objs' n = objs n) -> (forall i, object_view objs' i = object_view objs i) /\
  (objects_ok objs -> objects_ok objs').
Proof.
  intros E. split; [intros i; unfold object_view; by rewrite E|].
  intros Hok i b Hb. rewrite E in Hb. by apply Hok.
Qed.

(** The object of chunk [i] is written, or perhaps not. *)
Lemma object_put objs objs' i c b d :
  (forall i j, name i = name j -> i = j) -> holds c i d -> d <> [] ->
  fst (Storage c conv) = Ok b ->
  (forall j, name j <> name i -> objs' (name j) = objs (name j)) -> (objs' (name i) = objs (name i) \/ objs' (name i) = Some b) ->
  objects_ok objs ->
  objects_ok objs' /\ (forall j, j <> i -> object_view objs' j = object_view objs j) /\
  (objs' (name i) = Some b -> object_view objs' i = Some d) /\
  (object_view objs' i = object_view objs i \/ object_view objs' i = Some d).
Proof.
  intros Hinj Hh Hd Hs Hother Hi Hok.
  destruct (Storage_ok c conv i d Hh Hd) as (b' & Hb' & Hne & Hf). rewrite Hs in Hb'. injection Hb' as <-.
  assert (Hsum : Sum d = i) by apply Hh.
  assert (Hv : objs' (name i) = Some b -> object_view objs' i = Some d)
    by (intros E; unfold object_view; by rewrite E, Hf).
  split; [|split; [|split; [done|]]].
  - intros j x Hx. destruct (decide (j = i)) as [->|Hj].
    + destruct Hi as [E|E]; rewrite E in Hx; [by apply Hok|]. injection Hx as <-. by exists d.
    + rewrite Hother in Hx by (intros E; by apply Hinj in E). by apply Hok.
  - intros j Hj. unfold object_view. by rewrite Hother by (intros E; by apply Hinj in E).
  - destruct Hi as [E|E]; [left; unfold object_view; by rewrite E|right; auto].
Qed.

End objects.

Lemma s3_nameFromID_inj prefix u i j : s3_nameFromID prefix u i = s3_nameFromID prefix u j -> i = j.
Proof.
  intros E. assert (Hs : forall i, s3_nameFromID prefix u i =
    (prefix ++ take 4 (String_ i)) ++ Byte.x2f :: (String_ i ++ chunk_ext u))
    by (intros k; unfold s3_nameFromID, chunk_ext; destruct u; by rewrite <- !app_assoc).
  rewrite !Hs in E. apply (f_equal path_Base) in E. unfold path_Base in E.
  assert (Hn : forall i, Byte.x2f ∉ String_ i ++ chunk_ext u).
  { intros k. rewrite not_elem_of_app. split; [apply EncodeToString_no_slash|apply ext_no_slash]. }
  rewrite !last_Split_app in E by apply Hn. apply app_inv_tail in E.
  apply (f_equal DecodeString) in E. unfold String_ in E. rewrite !DecodeString_EncodeToString in E.
  by injection E.
Qed.

(** ** Pruning what a listing names *)

(** The loop of Prune in s3.go and gcs.go, over what the listing sends: keys, or an error. [stop k]
    says whether the context is found cancelled at object [k]. *)
Section prune.

Context {W : Type} (idFromName : bytes -> outcome ChunkID) (remove : ChunkID -> W -> option error * W)
  (stop : nat -> bool).

Fixpoint prune_objects (k : nat) (listing : list (outcome bytes)) (ids : gset bytes) (w : W) : option error * W :=
  match listing with
  | [] => (None, w)
  | Ok key :: listing =>
    if stop k then (Some Interrupted, w)
    else
      match idFromName key with
      | Ok i =>
        if decide (i ∈ ids) then prune_objects (S k) listing ids w
        else
          match remove i w with
          | (Some err, w) => (Some err, w)
          | (None, w) => prune_objects (S k) listing ids w
          end
      | _ => prune_objects (S k) listing ids w
      end
  | Err e :: _ => (Some e, w)
  | _ :: _ => (None, w)                    (* a listing has keys and errors only *)
  end.

(** The chunks an object of the listing stands for. *)
Definition listed (listing : list (outcome bytes)) (i : ChunkID) : Prop :=
  exists key, Ok key ∈ listing /\ idFromName key = Ok i.

Context (inv : W -> Prop) (objects : W -> bytes -> option bytes) (name : ChunkID -> bytes).

(** A removal touches the chunk's object alone, and removes it unless it fails. *)
Definition removes_own : Prop :=
  forall i w e w', inv w -> remove i w = (e, w') ->
    inv w' /\ (forall m, m <> name i -> objects w' m = objects w m) /\
    match e with
    | None => objects w' (name i) = None
    | Some _ => objects w' (name i) = objects w (name i) \/ objects w' (name i) = None
    end.

Context (Hremove : removes_own).

(** What was removed: only objects of listed chunks that are not to be kept, whatever happened;
    without an error, all of them. Nothing else is changed. *)
Definition pruned (listing : list (outcome bytes)) (ids : gset bytes) (w : W) (e : option error) (w' : W) : Prop :=
  inv w' /\
  (forall n, objects w' n = objects w n \/
     objects w' n = None /\ exists i, n = name i /\ listed listing i /\ i ∉ ids) /\
  (e = None -> (forall r, r ∈ listing -> exists key, r = Ok key \/ exists e, r = Err e) ->
     forall i, listed listing i -> i ∉ ids -> objects w' (name i) = None).

Lemma pruned_stop r listing ids w e : inv w -> (forall key, r <> Ok key) \/ e <> None ->
  (forall e, r <> Err e) \/ e <> None -> pruned (r :: listing) ids w e w.
Proof.
  intros Hi H1 H2. split; [done|]. split; [by left|]. intros -> Hx. exfalso.
  destruct (Hx r ltac:(by left)) as (key & [->|(e & ->)]); naive_solver.
Qed.

Lemma pruned_cons key listing ids w w1 e w' :
  (forall i, idFromName key = Ok i -> i ∉ ids -> objects w1 (name i) = None) ->
  (forall n, objects w1 n = objects w n \/
     objects w1 n = None /\ exists i, n = name i /\ listed (Ok key :: listing) i /\ i ∉ ids) ->
  pruned listing ids w1 e w' -> pruned (Ok key :: listing) ids w e w'.
Proof.
  intros Hkey Hw1 (K1 & K2 & K3).
  assert (Hl : forall i, listed listing i -> listed (Ok key :: listing) i).
  { intros i (k & Hk & Hi). exists k. split; [by right|done]. }
  split; [done|]. split.
  - intros n. destruct (K2 n) as [->|(? & i & ? & ? & ?)]; [apply Hw1|right; eauto 6].
  - intros He Hx i (k & [[= ->]|Hk]%elem_of_cons & Hi) Hni.
    + destruct (K2 (name i)) as [->|[? _]]; [by apply Hkey|done].
    + apply K3; [done|intros r Hr; apply Hx; by right|by exists k|done].
Qed.

(** After the removal of the chunk of an object the loop stops with the error, or goes on. *)
Lemma pruned_remove key listing ids i w er w1 :
  idFromName key = Ok i -> i ∉ ids -> inv w1 -> (forall m, m <> name i -> objects w1 m = objects w m) ->
  match er : option error with
  | None => objects w1 (name i) = None
  | Some _ => objects w1 (name i) = objects w (name i) \/ objects w1 (name i) = None
  end ->
  (er <> None -> pruned (Ok key :: listing) ids w er w1) /\
  (er = None -> forall e w', pruned listing ids w1 e w' -> pruned (Ok key :: listing) ids w e w').
Proof.
  intros Ek Hin Hi1 Hm He1.
  assert (Hw1 : forall n, objects w1 n = objects w n \/
      objects w1 n = None /\ exists j, n = name j /\ listed (Ok key :: listing) j /\ j ∉ ids).
  { intros n. destruct (decide (n = name i)) as [->|Hn]; [|left; by apply Hm].
    assert (exists j, name i = name j /\ listed (Ok key :: listing) j /\ j ∉ ids).
    { exists i. split; [done|]. split; [|done]. exists key. split; [by left|done]. }
    destruct er; [destruct He1 as [He1|He1]; rewrite He1; [by left|by right]|by right]. }
  split.
  - intros He. split; [done|]. split; [done|done].
  - intros -> e w' Hp. apply pruned_cons with w1; [|done|done].
    intros j Hj _. rewrite Ek in Hj. by injection Hj as <-.
Qed.

Lemma prune_objects_spec listing ids : forall k w e w', inv w ->
  prune_objects k listing ids w = (e, w') -> pruned listing ids w e w'.
Proof using Hremove.
  induction listing as [|[key|err| |] listing IH]; intros k w e w' Hi; cbn [prune_objects].
  - intros [= <- <-]. split; [done|]. split; [by left|]. by intros _ _ i (key & Hk%not_elem_of_nil & _).
  - destruct (stop k). { intros [= <- <-]. by apply pruned_stop; [|right|right]. }
    destruct (idFromName key) as [i| | |] eqn:Ek.
    2, 3, 4: intros E; apply pruned_cons with w; [congruence|by left|by eapply IH].
    goal_decide Hin; [intros E; apply pruned_cons with w; [congruence|by left|by eapply IH]|].
    destruct (remove i w) as [er w1] eqn:Er. destruct (Hremove _ _ _ _ Hi Er) as (Hi1 & Hm & He1).
    destruct (pruned_remove key listing ids i w er w1 Ek Hin Hi1 Hm He1) as [Hstop Hgo].
    destruct er as [er|]; [intros [= <- <-]; by apply Hstop|]. intros E. apply Hgo; [done|by eapply IH].
  - intros [= <- <-]. by apply pruned_stop; [|left|right].
  - intros [= <- <-]. by apply pruned_stop; [|left|left].
  - intros [= <- <-]. by apply pruned_stop; [|left|left].
Qed.

End prune.

(** The chunks left by a Prune of the objects of a listing that has all chunks. *)
Lemma pruned_view `{Codec} {W : Type} (conv : Converters) idFromName (inv : W -> Prop) objects name listing ids w e w' :
  (forall i j, name i = name j -> i = j) ->
  (forall i, length i = 32%nat -> idFromName (name i) = Ok i) ->
  pruned idFromName inv objects name listing ids w e w' -> objects_ok conv name (objects w) ->
  objects_ok conv name (objects w') /\
  (forall i, i ∈ ids -> object_view conv name (objects w') i = object_view conv name (objects w) i) /\
  (e = None -> (forall r, r ∈ listing -> exists key, r = Ok key \/ exists e, r = Err e) ->
   forall i, length i = 32%nat -> (is_Some (objects w (name i)) -> Ok (name i) ∈ listing) -> i ∉ ids ->
   object_view conv name (objects w') i = None).
Proof.
  intros Hinj Hname (_ & K2 & K3) Hok. split; [|split].
  - intros i b Hb. apply Hok. by destruct (K2 (name i)) as [<-|[? _]]; [|congruence].
  - intros i Hi. unfold object_view. destruct (K2 (name i)) as [->|(_ & j & ->%Hinj & _ & Hj)]; done.
  - intros He Hx i Hi Hlist Hni. unfold object_view.
    assert (objects w' (name i) = None) as ->; [|done].
    destruct (K2 (name i)) as [E|[? _]]; [|done]. rewrite E.
    apply eq_None_not_Some. intros [b Hb]. assert (Hl : Ok (name i) ∈ listing) by (by apply Hlist; eexists).
    assert (Hn : objects w' (name i) = None) by (apply K3; try done; by exists (name i); auto). congruence.
Qed.

(** ** S3 (s3.go) *)

(** minio.Client, for one bucket. Reading an object is a second call, the first may not fail even
    if there is no object; [Code] is that of a minio.ErrorResponse. *)
Record S3Client (W : Type) := mkS3Client {
  GetObject : bytes -> W -> option error * W;
  ReadObject : bytes -> W -> outcome bytes * W;
  PutObject : bytes -> bytes -> W -> option error * W;
  StatObject : bytes -> W -> option error * W;
  RemoveObject : bytes -> W -> option error * W;
  Code : error -> option bytes
}.
Arguments mkS3Client {W}.
Arguments GetObject {W}.
Arguments ReadObject {W}.
Arguments PutObject {W}.
Arguments StatObject {W}.
Arguments RemoveObject {W}.
Arguments Code {W}.

Record S3Store := mkS3Store { s3_Location : bytes; bucket : bytes; prefix : bytes; s3_opt : StoreOptions }.

(** NewS3StoreBase: the bucket and the prefix in the path of the URL. *)
Fixpoint TrimLeft (s : bytes) (c : byte) : bytes :=
  match s with
  | x :: s' => if decide (x = c) then TrimLeft s' c else s
  | [] => []
  end.
Definition Trim (s : bytes) (c : byte) : bytes := rev (TrimLeft (rev (TrimLeft s c)) c).

Definition NewS3StoreBase (location scheme path : bytes) (opt : StoreOptions) : outcome S3Store :=
  if negb (HasPrefix scheme (str "s3+http")) then Err (Errorf "invalid scheme")
  else
    let bPath := Trim path Byte.x2f in
    if decide (bPath = []) then Err (Errorf "expected bucket name in path")
    else
      match Split bPath Byte.x2f with
      | [] => Panic
      | b :: f =>
        let prefix := Stores.Join f (str "/") in
        Ok (mkS3Store location b (if decide (prefix = []) then [] else prefix ++ str "/") opt)
      end.

Section s3.

Context {W : Type} `{Codec} (client : S3Client W) (s : S3Store).

Let converters : Converters := opt_converters (s3_opt s).
Definition s3_name (i : ChunkID) : bytes := s3_nameFromID (prefix s) (Uncompressed (s3_opt s)) i.

(** The error of the last attempt. *)
Definition s3_error (i : ChunkID) (err : error) : error :=
  match Code client err with
  | Some c =>
    if decide (c = str "NoSuchBucket") then Errorf "bucket does not exist"
    else if decide (c = str "NoSuchKey") then ChunkMissing i
    else Wrapped err "chunk could not be retrieved from s3 store"
  | None => err
  end.

(** The attempts of GetChunk; [more] are left. *)
Fixpoint s3_attempts (more : nat) (i : ChunkID) (w : W) : GetResult * W :=
  match GetObject client (s3_name i) w with
  | (Some err, w) =>
    match more with
    | S more => s3_attempts more i w
    | O => ((None, Some (Wrapped err "s3")), w)
    end
  | (None, w) =>
    match ReadObject client (s3_name i) w with
    | (Ok b, w) =>
      match NewChunkFromStorage i b converters (SkipVerify (s3_opt s)) with
      | Ok c => ((Some c, None), w)
      | Err e => ((None, Some e), w)
      | _ => ((None, None), w)             (* not reached, NewChunkFromStorage does not panic *)
      end
    | (Err err, w) =>
      match more with
      | S more => s3_attempts more i w
      | O => ((None, Some (s3_error i err)), w)
      end
    | (_, w) => ((None, None), w)
    end
  end.

Definition s3_GetChunk (i : ChunkID) (w : W) : GetResult * W :=
  s3_attempts (Z.to_nat (ErrorRetry (s3_opt s))) i w.

Fixpoint s3_puts (more : nat) (name b : bytes) (w : W) : option error * W :=
  match PutObject client name b w with
  | (Some err, w) =>
    match more with
    | S more => s3_puts more name b w
    | O => (errors_Wrap (Some err) "s3", w)
    end
  | (None, w) => (None, w)
  end.

(** [attempt < ErrorRetry] here, one attempt less than GetChunk. *)
Definition s3_StoreChunk (chunk : Chunk) (w : W) : option error * W :=
  let name := s3_name (chunk_id chunk) in
  match fst (Storage chunk converters) with
  | Ok b => s3_puts (Z.to_nat (ErrorRetry (s3_opt s) - 1)) name b w
  | Err err => (Some err, w)
  | _ => (None, w)                         (* not reached: Storage does not panic *)
  end.

(** Any error means that the chunk is not there. *)
Definition s3_HasChunk (i : ChunkID) (w : W) : (bool * option error) * W :=
  let '(err, w) := StatObject client (s3_name i) w in
  ((match err with None => true | Some _ => false end, None), w).

Definition s3_RemoveChunk (i : ChunkID) (w : W) : option error * W :=
  RemoveObject client (s3_name i) w.

(** Prune, given what ListObjectsV2 sends and whether the context is cancelled by each object. *)
Definition s3_Prune (stop : nat -> bool) (listing : list (outcome bytes)) (ids : gset bytes) (w : W)
  : option error * W :=
  prune_objects (s3_idFromName (prefix s) (Uncompressed (s3_opt s))) s3_RemoveChunk stop 0 listing ids w.

Definition s3_store : Store W :=
  mkStore s3_GetChunk s3_HasChunk (Some s3_StoreChunk) (fun w => (None, w)) (s3_Location s).

(** *** What the client is expected to do *)

(** [objects] is what the bucket holds; [other] is what the client has nothing to do with. An error
    is one of connection or service, and leaves the bucket as it was; a failed write or removal
    may have been done. A missing object is told by its code alone, and StatObject only finds what is
    there. *)
Record s3_laws (inv : W -> Prop) (objects : W -> bytes -> option bytes) {A} (other : W -> A) : Prop := {
  l_same n w e w' : inv w -> GetObject client n w = (e, w') ->
    inv w' /\ (forall m, objects w' m = objects w m) /\ other w' = other w;
  l_read n w r w' : inv w -> ReadObject client n w = (r, w') ->
    inv w' /\ (forall m, objects w' m = objects w m) /\ other w' = other w /\
    match r with
    | Ok b => objects w n = Some b
    | Err e => Code client e = Some (str "NoSuchKey") -> objects w n = None
    | _ => False
    end;
  l_put n b w e w' : inv w -> PutObject client n b w = (e, w') ->
    inv w' /\ (forall m, m <> n -> objects w' m = objects w m) /\ other w' = other w /\
    match e with None => objects w' n = Some b | Some _ => objects w' n = objects w n \/ objects w' n = Some b end;
  l_stat n w e w' : inv w -> StatObject client n w = (e, w') ->
    inv w' /\ (forall m, objects w' m = objects w m) /\ other w' = other w /\
    (e = None -> is_Some (objects w n));
  l_remove n w e w' : inv w -> RemoveObject client n w = (e, w') ->
    inv w' /\ (forall m, m <> n -> objects w' m = objects w m) /\ other w' = other w /\
    match e with None => objects w' n = None | Some _ => objects w' n = objects w n \/ objects w' n = None end;
  l_foreign n w i w' : ReadObject client n w <> (Err (ChunkMissing i), w')
}.

(** StatObject only fails on what is not there. It can fail otherwise, and then HasChunk says that the
    chunk is not there (s3_has_during_outage): what needs this says so. *)
Definition stat_answers (inv : W -> Prop) (objects : W -> bytes -> option bytes) : Prop :=
  forall n w e w', inv w -> StatObject client n w = (Some e, w') -> objects w n = None.

Context (inv : W -> Prop) (objects : W -> bytes -> option bytes) {A : Type} (other : W -> A).
Context (laws : s3_laws inv objects other).

(** Nobody but the store reports a chunk as missing. *)
Definition s3_fails (e : error) : Prop := forall i, e <> ChunkMissing i.

Definition s3_inv (w : W) : Prop := inv w /\ objects_ok converters s3_name (objects w).
Definition s3_view (w : W) : ChunkID -> option bytes := object_view converters s3_name (objects w).

Lemma s3_untouched w w' : s3_inv w -> inv w' -> (forall m, objects w' m = objects w m) ->
  s3_inv w' /\ forall j, s3_view w' j = s3_view w j.
Proof.
  intros [_ Hok] Hi E. destruct (object_view_same converters s3_name _ _ E) as [Hv Ho].
  split; [split; [done|by apply Ho]|exact Hv].
Qed.

Lemma s3_view_none w i : s3_inv w -> s3_view w i = None -> objects w (s3_name i) = None.
Proof.
  intros [_ Hok] Hv. apply eq_None_not_Some. intros Hs%(object_view_some _ _ _ _ Hok).
  unfold s3_view in Hv. rewrite Hv in Hs. by destruct Hs.
Qed.

Lemma s3_attempts_spec more i : forall w oc e w', s3_inv w ->
  s3_attempts more i w = ((oc, e), w') ->
  s3_inv w' /\ (forall j, s3_view w' j = s3_view w j) /\ other w' = other w /\
  match e, oc with
  | None, Some c => exists d, s3_view w i = Some d /\ holds c i d
  | None, None => False
  | Some e, _ => s3_fails e \/ (e = ChunkMissing i /\ s3_view w i = None)
  end.
Proof using laws.
  induction more as [|more IH]; intros w oc e w' Hi; cbn [s3_attempts];
    destruct (GetObject client (s3_name i) w) as [[err|] w1] eqn:Eg;
    destruct (l_same _ _ _ laws _ _ _ _ (proj1 Hi) Eg) as (Hi1 & Ho1 & Ht1);
    destruct (s3_untouched w w1 Hi Hi1 Ho1) as [Hinv1 Hv1].
  1: { intros [= <- <- <-]. split; [done|]. split; [done|]. split; [done|]. by left. }
  2: { intros E. destruct (IH _ _ _ _ Hinv1 E) as (K1 & K2 & K3 & K4). split; [done|].
       split; [intros j; by rewrite K2|]. split; [congruence|]. by rewrite Hv1 in K4. }
  all: destruct (ReadObject client (s3_name i) w1) as [r w2] eqn:Er;
    destruct (l_read _ _ _ laws _ _ _ _ Hi1 Er) as (Hi2 & Ho2 & Ht2 & Hr);
    destruct (s3_untouched w1 w2 Hinv1 Hi2 Ho2) as [Hinv2 Hv2];
    assert (Hv : forall j, s3_view w2 j = s3_view w j) by (intros j; by rewrite Hv2);
    destruct r as [b|err| |]; try done.
  1, 3: destruct (object_chunk converters s3_name _ i b (SkipVerify (s3_opt s)) (proj2 Hinv1) Hr)
      as (d & c & Hd & -> & Hh); intros [= <- <- <-]; (split; [done|]); (split; [done|]); (split; [congruence|]);
    exists d; split; [by rewrite <- Hv1|done].
  - intros [= <- <- <-]. split; [done|]. split; [done|]. split; [congruence|].
    unfold s3_error. destruct (Code client err) as [c|] eqn:Ec.
    + goal_decide H1; [by left|]. goal_decide H2; [|by left]. subst c. right. split; [done|].
      rewrite <- Hv1. apply eq_None_not_Some. intros Hs%(object_view_some _ _ _ _ (proj2 Hinv1)).
      rewrite (Hr eq_refl) in Hs. by destruct Hs.
    + left. intros j ->. by apply (l_foreign _ _ _ laws (s3_name i) w1 j w2).
  - intros E. destruct (IH _ _ _ _ Hinv2 E) as (K1 & K2 & K3 & K4). split; [done|].
    split; [intros j; by rewrite K2|]. split; [congruence|]. by rewrite Hv in K4.
Qed.

Lemma s3_puts_spec more n b : forall w e w', inv w ->
  s3_puts more n b w = (e, w') ->
  inv w' /\ (forall m, m <> n -> objects w' m = objects w m) /\ other w' = other w /\
  match e with
  | None => objects w' n = Some b
  | Some e => s3_fails e /\ (objects w' n = objects w n \/ objects w' n = Some b)
  end.
Proof using laws.
  induction more as [|more IH]; intros w e w' Hi; cbn [s3_puts];
    destruct (PutObject client n b w) as [[err|] w1] eqn:Ep;
    destruct (l_put _ _ _ laws _ _ _ _ _ Hi Ep) as (Hi1 & Hm1 & Ht1 & Hn1).
  1, 2, 4: intros [= <- <-]; split_and!; done.
  intros E. destruct (IH _ _ _ Hi1 E) as (K1 & K2 & K3 & K4). split; [done|].
  split; [intros m Hm; by rewrite K2, Hm1|]. split; [congruence|].
  destruct e; [|done]. destruct K4 as [? [K|K]]; split; [done| |done|by right].
  rewrite K. exact Hn1.
Qed.

Lemma s3_has_spec (Hstat : stat_answers inv objects) i w b e w' : s3_inv w -> s3_HasChunk i w = ((b, e), w') ->
  s3_inv w' /\ (forall j, s3_view w' j = s3_view w j) /\ other w' = other w /\
  e = None /\ b = bool_decide (is_Some (s3_view w i)).
Proof using laws.
  intros Hi. unfold s3_HasChunk.
  destruct (StatObject client (s3_name i) w) as [err w1] eqn:Es. intros [= <- <- <-].
  destruct (l_stat _ _ _ laws _ _ _ _ (proj1 Hi) Es) as (Hi1 & Ho1 & Ht1 & Hs).
  destruct (s3_untouched w w1 Hi Hi1 Ho1) as [Hinv1 Hv1]. split_and!; try done.
  pose proof (object_view_some converters s3_name _ i (proj2 Hi)) as Hv. destruct err as [err|].
  - rewrite bool_decide_false; [done|]. intros Hx%Hv. rewrite (Hstat _ _ _ _ (proj1 Hi) Es) in Hx. by destruct Hx.
  - rewrite bool_decide_true; [done|]. by apply Hv, Hs.
Qed.

Lemma s3_store_spec c i d w e w' : s3_inv w -> holds c i d -> d <> [] -> s3_StoreChunk c w = (e, w') ->
  s3_inv w' /\ (forall j, j <> i -> s3_view w' j = s3_view w j) /\ other w' = other w /\
  match e with
  | None => s3_view w' i = Some d
  | Some e => s3_fails e /\ (s3_view w' i = s3_view w i \/ s3_view w' i = Some d)
  end.
Proof using laws.
  intros [Hi Hok] Hh Hd. unfold s3_StoreChunk.
  assert (Hc : chunk_id c = i) by apply Hh. rewrite Hc.
  destruct (Storage_ok c converters i d Hh Hd) as (b & Hb & _). rewrite Hb. intros Ep.
  destruct (s3_puts_spec _ _ _ _ _ _ Hi Ep) as (Hi' & Hother & Ht & He).
  destruct (object_put converters s3_name (objects w) (objects w') i c b d
    (s3_nameFromID_inj _ _) Hh Hd Hb (fun j => Hother _)) as (Hok' & Hv & Hput & Hmaybe); [|done|].
  { destruct e as [e|]; [apply He|by right]. }
  split; [done|]. split; [done|]. split; [done|]. destruct e as [e|]; [|auto]. split; [apply He|done].
Qed.

Lemma s3_flaky : stat_answers inv objects -> FlakyWrite s3_inv s3_fails s3_store s3_view s3_StoreChunk other.
Proof using laws.
  intros Hstat. split; [split|done|exact s3_store_spec]; cbn [s3_store sGetChunk sHasChunk].
  - intros i w oc e w' Hi. by apply s3_attempts_spec.
  - intros i w b e w' Hi Hh. destruct (s3_has_spec Hstat _ _ _ _ _ Hi Hh) as (? & ? & ? & -> & ?). done.
Qed.

(** RemoveChunk removes the chunk's object alone. *)
Lemma s3_removes : removes_own s3_RemoveChunk inv objects s3_name.
Proof using laws.
  intros i w e w' Hi Hr. destruct (l_remove _ _ _ laws _ _ _ _ Hi Hr) as (H1 & H2 & _ & H3). done.
Qed.

(** What StoreChunk stored is there: the store says so if the service answers, and GetChunk returns it
    verified, or an error that does not say that the chunk is missing. *)
Theorem s3_store_get c i d w w1 oc e w2 : s3_inv w -> holds c i d -> d <> [] ->
  s3_StoreChunk c w = (None, w1) -> s3_GetChunk i w1 = ((oc, e), w2) ->
  match e with
  | None => exists c', oc = Some c' /\ holds c' i d
  | Some e => e <> ChunkMissing i
  end /\ (stat_answers inv objects -> fst (s3_HasChunk i w1) = (true, None)) /\
  (forall j, j <> i -> s3_view w2 j = s3_view w j) /\ s3_view w2 i = Some d.
Proof using laws.
  intros Hi Hh Hd Es Eg.
  destruct (s3_store_spec c i d w None w1 Hi Hh Hd Es) as (Hi1 & Ho & _ & Hv).
  destruct (s3_attempts_spec _ _ _ _ _ _ Hi1 Eg) as (_ & Hv2 & _ & Hr).
  split; [|split; [|split; [intros j Hj; rewrite Hv2; by apply Ho|by rewrite Hv2]]].
  - destruct e as [e|].
    + destruct Hr as [Hr|[_ Hr]]; [apply Hr|congruence].
    + destruct oc as [c'|]; [|done]. destruct Hr as (d' & Hd' & Hc'). exists c'. split; [done|]. congruence.
  - intros Hstat. destruct (s3_HasChunk i w1) as [[b e3] w3] eqn:E3.
    destruct (s3_has_spec Hstat _ _ _ _ _ Hi1 E3) as (_ & _ & _ & -> & ->). cbn. by rewrite Hv.
Qed.

(** C30. Prune of an object store, on a listing of the store: however it ends, every chunk to be kept is
    as it was; without an error every other chunk is gone. *)
Theorem s3_prune_exact stop listing ids w e w' : s3_inv w ->
  s3_Prune stop listing ids w = (e, w') ->
  s3_inv w' /\ (forall i, i ∈ ids -> s3_view w' i = s3_view w i) /\
  (e = None -> (forall r, r ∈ listing -> exists key, r = Ok key \/ exists e, r = Err e) ->
   forall i, length i = 32%nat -> (is_Some (objects w (s3_name i)) -> Ok (s3_name i) ∈ listing) -> i ∉ ids ->
   s3_view w' i = None).
Proof using laws.
  intros [Hi Hok] E. pose proof (prune_objects_spec _ _ _ inv objects s3_name s3_removes _ _ _ _ _ _ Hi E) as Hp.
  pose proof (proj1 Hp) as Hi'.
  destruct (pruned_view converters _ _ _ _ _ _ _ _ _ (s3_nameFromID_inj _ _)
    (fun i => s3_name_round_trip _ _ i) Hp Hok) as (H1 & H2 & H3). split; [done|]. split; done.
Qed.

End s3.

(** ** Google storage (gcs.go) *)

(** storage.BucketHandle. An object is read with NewReader and ReadAll; it is written by copying the
    bytes to a writer, and exists when the writer is closed. *)
Record GCSClient (W : Type) := mkGCSClient {
  NewReader : bytes -> W -> option error * W;
  gcs_ReadAll : bytes -> W -> outcome bytes * W;
  WriterCopy : bytes -> bytes -> W -> option error * W;
  WriterClose : bytes -> bytes -> W -> option error * W;   (* of the writer the bytes were copied to *)
  Attrs : bytes -> W -> option error * W;
  Delete : bytes -> W -> option error * W;
  ErrObjectNotExist : error
}.
Arguments mkGCSClient {W}.
Arguments NewReader {W}.
Arguments gcs_ReadAll {W}.
Arguments WriterCopy {W}.
Arguments WriterClose {W}.
Arguments Attrs {W}.
Arguments Delete {W}.
Arguments ErrObjectNotExist {W}.

Record GCStore := mkGCStore { gcs_Location : bytes; gcs_bucket : bytes; gcs_prefix : bytes; gcs_opt : StoreOptions }.

(** No leading slash, and a slash after every folder. *)
Definition normalizeGCPrefix (path : bytes) : bytes :=
  let prefix := Trim path Byte.x2f in
  if decide (prefix = []) then prefix else prefix ++ str "/".

(** NewGCStoreBase, when the client can be made. *)
Definition NewGCStoreBase (location scheme host path : bytes) (opt : StoreOptions) : outcome GCStore :=
  if decide (scheme = str "gs") then Ok (mkGCStore location host (normalizeGCPrefix path) opt)
  else Err (Errorf "invalid scheme").

Section gcs.

Context {W : Type} `{Codec} (client : GCSClient W) (s : GCStore).

Let converters : Converters := opt_converters (gcs_opt s).
Definition gcs_name (i : ChunkID) : bytes := gcs_nameFromID (gcs_prefix s) (Uncompressed (gcs_opt s)) i.

Definition gcs_GetChunk (i : ChunkID) (w : W) : GetResult * W :=
  let name := gcs_name i in
  match NewReader client name w with
  | (Some err, w) =>
    if decide (err = ErrObjectNotExist client) then ((None, Some (ChunkMissing i)), w)
    else ((None, Some (Wrapped err "gcs")), w)
  | (None, w) =>
    match gcs_ReadAll client name w with
    | (Ok b, w) =>
      match NewChunkFromStorage i b converters (SkipVerify (gcs_opt s)) with
      | Ok c => ((Some c, None), w)
      | Err e => ((None, Some e), w)
      | _ => ((None, None), w)             (* not reached, NewChunkFromStorage does not panic *)
      end
    | (Err err, w) =>
      if decide (err = ErrObjectNotExist client) then ((None, Some (ChunkMissing i)), w)
      else ((None, Some (Wrapped err "chunk could not be retrieved from GCS bucket")), w)
    | (_, w) => ((None, None), w)
    end
  end.

Definition gcs_StoreChunk (chunk : Chunk) (w : W) : option error * W :=
  let name := gcs_name (chunk_id chunk) in
  match fst (Storage chunk converters) with
  | Ok b =>
    match WriterCopy client name b w with
    | (Some err, w) => (Some (Wrapped err "gcs"), w)
    | (None, w) =>
      match WriterClose client name b w with
      | (Some err, w) => (Some (Wrapped err "gcs"), w)
      | (None, w) => (None, w)
      end
    end
  | Err err => (Some err, w)
  | _ => (None, w)                         (* not reached: Storage does not panic *)
  end.

Definition gcs_HasChunk (i : ChunkID) (w : W) : (bool * option error) * W :=
  match Attrs client (gcs_name i) w with
  | (Some err, w) =>
    if decide (err = ErrObjectNotExist client) then ((false, None), w) else ((false, Some err), w)
  | (None, w) => ((true, None), w)
  end.

Definition gcs_RemoveChunk (i : ChunkID) (w : W) : option error * W := Delete client (gcs_name i) w.

(** Prune; the context is given to the iterator, whose errors the listing has. *)
Definition gcs_Prune (listing : list (outcome bytes)) (ids : gset bytes) (w : W) : option error * W :=
  prune_objects (gcs_idFromName (gcs_prefix s) (Uncompressed (gcs_opt s))) gcs_RemoveChunk (fun _ => false) 0
    listing ids w.

Definition gcs_store : Store W :=
  mkStore gcs_GetChunk gcs_HasChunk (Some gcs_StoreChunk) (fun w => (None, w)) (gcs_Location s).

(** *** What the client is expected to do *)

(** As for S3; here what is missing is told apart from a failure in every call. *)
Record gcs_laws (inv : W -> Prop) (objects : W -> bytes -> option bytes) {A} (other : W -> A) : Prop := {
  g_reader n w e w' : inv w -> NewReader client n w = (e, w') ->
    inv w' /\ (forall m, objects w' m = objects w m) /\ other w' = other w /\
    (e = Some (ErrObjectNotExist client) -> objects w n = None);
  g_read n w r w' : inv w -> gcs_ReadAll client n w = (r, w') ->
    inv w' /\ (forall m, objects w' m = objects w m) /\ other w' = other w /\
    match r with
    | Ok b => objects w n = Some b
    | Err e => e = ErrObjectNotExist client -> objects w n = None
    | _ => False
    end;
  g_copy n b w e w' : inv w -> WriterCopy client n b w = (e, w') ->
    inv w' /\ (forall m, objects w' m = objects w m) /\ other w' = other w;
  g_close n b w e w' : inv w -> WriterClose client n b w = (e, w') ->
    inv w' /\ (forall m, m <> n -> objects w' m = objects w m) /\ other w' = other w /\
    match e with None => objects w' n = Some b | Some _ => objects w' n = objects w n \/ objects w' n = Some b end;
  g_attrs n w e w' : inv w -> Attrs client n w = (e, w') ->
    inv w' /\ (forall m, objects w' m = objects w m) /\ other w' = other w /\
    match e with
    | None => is_Some (objects w n)
    | Some e => (e = ErrObjectNotExist client -> objects w n = None) /\ forall i, e <> ChunkMissing i
    end;
  g_delete n w e w' : inv w -> Delete client n w = (e, w') ->
    inv w' /\ (forall m, m <> n -> objects w' m = objects w m) /\ other w' = other w /\
    match e with None => objects w' n = None | Some _ => objects w' n = objects w n \/ objects w' n = None end
}.

Context (inv : W -> Prop) (objects : W -> bytes -> option bytes) {A : Type} (other : W -> A).
Context (laws : gcs_laws inv objects other).

Definition gcs_inv (w : W) : Prop := inv w /\ objects_ok converters gcs_name (objects w).
Definition gcs_view (w : W) : ChunkID -> option bytes := object_view converters gcs_name (objects w).

Lemma gcs_untouched w w' : gcs_inv w -> inv w' -> (forall m, objects w' m = objects w m) ->
  gcs_inv w' /\ forall j, gcs_view w' j = gcs_view w j.
Proof.
  intros [_ Hok] Hi E. destruct (object_view_same converters gcs_name _ _ E) as [Hv Ho].
  split; [split; [done|by apply Ho]|exact Hv].
Qed.

Lemma gcs_missing w i : objects w (gcs_name i) = None -> gcs_view w i = None.
Proof. intros E. unfold gcs_view, object_view. by rewrite E. Qed.

#[export] Instance gcs_flaky : FlakyWrite gcs_inv s3_fails gcs_store gcs_view gcs_StoreChunk other.
Proof using laws.
  split; [split|done|]; cbn [gcs_store sGetChunk sHasChunk].
  - intros i w oc e w' Hi. unfold gcs_GetChunk.
    destruct (NewReader client (gcs_name i) w) as [e1 w1] eqn:E1.
    destruct (g_reader _ _ _ laws _ _ _ _ (proj1 Hi) E1) as (Hi1 & Ho1 & Ht1 & He1).
    destruct (gcs_untouched w w1 Hi Hi1 Ho1) as [Hinv1 Hv1]. destruct e1 as [e1|].
    { goal_decide He; intros [= <- <- <-]; (split; [done|]); (split; [done|]); (split; [done|]).
      - right. split; [done|]. apply gcs_missing, He1. by subst e1.
      - by left. }
    destruct (gcs_ReadAll client (gcs_name i) w1) as [r w2] eqn:E2.
    destruct (g_read _ _ _ laws _ _ _ _ Hi1 E2) as (Hi2 & Ho2 & Ht2 & Hr).
    destruct (gcs_untouched w1 w2 Hinv1 Hi2 Ho2) as [Hinv2 Hv2].
    assert (Hv : forall j, gcs_view w2 j = gcs_view w j) by (intros j; by rewrite Hv2).
    destruct r as [b|e2| |]; try done.
    + destruct (object_chunk converters gcs_name _ i b (SkipVerify (gcs_opt s)) (proj2 Hinv1) Hr)
        as (d & c & Hd & -> & Hh). intros [= <- <- <-]. split; [done|]. split; [done|]. split; [congruence|].
      exists d. split; [by rewrite <- Hv1|done].
    + goal_decide He; intros [= <- <- <-]; (split; [done|]); (split; [done|]); (split; [congruence|]).
      * right. split; [done|]. rewrite <- Hv1. by apply gcs_missing, Hr.
      * by left.
  - intros i w b e w' Hi. unfold gcs_HasChunk.
    destruct (Attrs client (gcs_name i) w) as [err w1] eqn:Es.
    destruct (g_attrs _ _ _ laws _ _ _ _ (proj1 Hi) Es) as (Hi1 & Ho1 & Ht1 & Hs).
    destruct (gcs_untouched w w1 Hi Hi1 Ho1) as [Hinv1 Hv1].
    pose proof (object_view_some converters gcs_name _ i (proj2 Hi)) as Hv.
    destruct err as [err|].
    + goal_decide He; intros [= <- <- <-]; (split; [done|]); (split; [done|]); (split; [done|]); [|exact (proj2 Hs)].
      rewrite bool_decide_false; [done|]. intros Hx%Hv. rewrite (proj1 Hs He) in Hx. by destruct Hx.
    + intros [= <- <- <-]. split; [done|]. split; [done|]. split; [done|].
      rewrite bool_decide_true; [done|]. by apply Hv.
  - intros c i d w e w' [Hi Hok] Hh Hd. unfold gcs_StoreChunk.
    assert (Hc : chunk_id c = i) by apply Hh. rewrite Hc.
    destruct (Storage_ok c converters i d Hh Hd) as (b & Hb & _). rewrite Hb.
    destruct (WriterCopy client (gcs_name i) b w) as [e1 w1] eqn:E1.
    destruct (g_copy _ _ _ laws _ _ _ _ _ Hi E1) as (Hi1 & Ho1 & Ht1).
    destruct (gcs_untouched w w1 (conj Hi Hok) Hi1 Ho1) as [[_ Hok1] Hv1]. destruct e1 as [e1|].
    { intros [= <- <-]. split; [done|]. split; [by intros j _|]. split; [done|]. split; [done|]. by left. }
    destruct (WriterClose client (gcs_name i) b w1) as [e2 w2] eqn:E2.
    destruct (g_close _ _ _ laws _ _ _ _ _ Hi1 E2) as (Hi2 & Hm2 & Ht2 & He2).
    assert (Hmaybe : objects w2 (gcs_name i) = objects w1 (gcs_name i) \/ objects w2 (gcs_name i) = Some b)
      by (destruct e2; [done|by right]).
    destruct (object_put converters gcs_name (objects w1) (objects w2) i c b d
      (s3_nameFromID_inj _ _) Hh Hd Hb (fun j => Hm2 _) Hmaybe Hok1) as (Hok' & Hv & Hput & Hv').
    destruct e2 as [e2|]; intros [= <- <-]; (split; [done|]);
      (split; [intros j Hj; etrans; [by apply Hv|apply Hv1]|]); (split; [congruence|]); [|auto].
    split; [done|]. destruct Hv' as [Hx|Hx]; [left|by right]. etrans; [exact Hx|apply Hv1].
Qed.

Lemma gcs_removes : removes_own gcs_RemoveChunk inv objects gcs_name.
Proof using laws.
  intros i w e w' Hi Hr. destruct (g_delete _ _ _ laws _ _ _ _ Hi Hr) as (H1 & H2 & _ & H3). done.
Qed.

(** The same for Google storage. *)
Theorem gcs_prune_exact listing ids w e w' : gcs_inv w ->
  gcs_Prune listing ids w = (e, w') ->
  gcs_inv w' /\ (forall i, i ∈ ids -> gcs_view w' i = gcs_view w i) /\
  (e = None -> (forall r, r ∈ listing -> exists key, r = Ok key \/ exists e, r = Err e) ->
   forall i, length i = 32%nat -> (is_Some (objects w (gcs_name i)) -> Ok (gcs_name i) ∈ listing) -> i ∉ ids ->
   gcs_view w' i = None).
Proof using laws.
  intros [Hi Hok] E. pose proof (prune_objects_spec _ _ _ inv objects gcs_name gcs_removes _ _ _ _ _ _ Hi E) as Hp.
  pose proof (proj1 Hp) as Hi'.
  destruct (pruned_view converters _ _ _ _ _ _ _ _ _ (s3_nameFromID_inj _ _)
    (fun i => s3_name_round_trip _ _ i) Hp Hok) as (H1 & H2 & H3). split; [done|]. split; done.
Qed.

End gcs.

(** ** A bucket in memory *)

Definition ex_client : S3Client (gmap bytes bytes) :=
  mkS3Client (fun _ w => (None, w))
    (fun n w => (match w !! n with Some b => Ok b | None => Err (Errorf "NoSuchKey") end, w))
    (fun n b w => (None, <[n := b]> w))
    (fun n w => (match w !! n with Some _ => None | None => Some (Errorf "NoSuchKey") end, w))
    (fun n w => (None, delete n w))
    (fun e => if decide (e = Errorf "NoSuchKey") then Some (str "NoSuchKey") else None).

Lemma ex_client_laws : s3_laws ex_client (fun _ => True) (fun w n => w !! n) (fun _ => tt).
Proof.
  split; cbn [ex_client GetObject ReadObject PutObject StatObject RemoveObject Code].
  - by intros n w e w' _ [= <- <-].
  - intros n w r w' _ [= <- <-]. split_and!; try done. destruct (w !! n); done.
  - intros n b w e w' _ [= <- <-]. split_and!; try done; [|by rewrite lookup_insert_eq].
    intros m Hm. by rewrite lookup_insert_ne by congruence.
  - intros n w e w' _ [= <- <-]. split_and!; try done. by destruct (w !! n).
  - intros n w e w' _ [= <- <-]. split_and!; try done; [|by rewrite lookup_delete_eq].
    intros m Hm. by rewrite lookup_delete_ne by congruence.
  - intros n w i w'. by destruct (w !! n).
Qed.

Definition ex_s3 : S3Store := mkS3Store (str "s3+http://host/bucket/pre") (str "bucket") (str "pre/")
  (mkStoreOptions 1 0 3 0 false true).

Definition ex_bucket : gmap bytes bytes :=
  {[ s3_nameFromID (str "pre/") true ex_id := str "data"; str "pre/readme" := str "text" ]}.

Lemma ex_bucket_ok : s3_inv (H := toy_codec) ex_s3 (fun _ => True) (fun w n => w !! n) ex_bucket.
Proof.
  split; [done|]. intros i b. unfold s3_name. cbn [prefix ex_s3 Uncompressed s3_opt].
  unfold ex_bucket. intros [[Hn <-]|[_ [Hn <-]%lookup_singleton_Some]]%lookup_insert_Some.
  - apply s3_nameFromID_inj in Hn as <-. exists (str "data"). by split_and!; [|vm_compute|discriminate|].
  - exfalso. apply (f_equal length) in Hn. unfold s3_nameFromID, String_ in Hn.
    rewrite !length_app, length_take, length_EncodeToString in Hn. cbn [length str] in Hn.
    change (length (str "pre/readme")) with 10%nat in Hn. change (length (str "pre/")) with 4%nat in Hn.
    change (length (str "/")) with 1%nat in Hn. change (length UncompressedChunkExt) with 0%nat in Hn. lia.
Qed.

Lemma s3_store_get_witness : exists w1 w2 c',
  s3_StoreChunk (H := toy_codec) ex_client ex_s3 (ex_chunk ex_id (str "data")) ex_bucket = (None, w1) /\
  s3_GetChunk (H := toy_codec) ex_client ex_s3 ex_id w1 = ((Some c', None), w2) /\ holds (H := toy_codec) c' ex_id (str "data").
Proof.
  eexists _, _, _. split; [reflexivity|]. split; [reflexivity|].
  refine (match s3_store_get (H := toy_codec) ex_client ex_s3 (fun _ => True) (fun w n => w !! n) (fun _ => tt)
    ex_client_laws (ex_chunk ex_id (str "data")) ex_id (str "data") ex_bucket _ _ None _ ex_bucket_ok
    _ _ eq_refl eq_refl with conj (ex_intro _ c (conj E Hc)) _ => _ end).
  - by split_and!.
  - discriminate.
  - injection E as <-. exact Hc.
Defined.

(** The same bucket while the service does not answer: HasChunk says, without an error, that the chunk
    that is there is not. *)
Definition ex_outage : S3Client (gmap bytes bytes) :=
  mkS3Client (GetObject ex_client) (ReadObject ex_client) (PutObject ex_client)
    (fun n w => (Some (Errorf "503"), w)) (RemoveObject ex_client) (Code ex_client).

Example s3_has_during_outage :
  is_Some (s3_view (H := toy_codec) ex_s3 (fun w n => w !! n) ex_bucket ex_id) /\
  fst (s3_HasChunk ex_outage ex_s3 ex_id ex_bucket) = (false, None).
Proof. split; [by eexists|vm_compute; reflexivity]. Qed.

(** A Prune that keeps nothing leaves the file that is not a chunk. *)
Lemma s3_prune_exact_witness :
  let w' := snd (s3_Prune ex_client ex_s3 (fun _ => false)
    [Ok (str "pre/readme"); Ok (s3_nameFromID (str "pre/") true ex_id)] ∅ ex_bucket) in
  s3_view (H := toy_codec) ex_s3 (fun w n => w !! n) w' ex_id = None /\ w' !! str "pre/readme" = Some (str "text").
Proof.
  cbv zeta. split; [|vm_compute; reflexivity].
  set (listing := [Ok (str "pre/readme"); Ok (s3_nameFromID (str "pre/") true ex_id)]).
  assert (E : fst (s3_Prune ex_client ex_s3 (fun _ => false) listing ∅ ex_bucket) = None) by (vm_compute; reflexivity).
  destruct (s3_Prune ex_client ex_s3 (fun _ => false) listing ∅ ex_bucket) as [e w'] eqn:Ep.
  destruct (s3_prune_exact (H := toy_codec) ex_client ex_s3 (fun _ => True) (fun w n => w !! n) (fun _ => tt)
    ex_client_laws (fun _ => false) listing ∅ ex_bucket e w' ex_bucket_ok Ep) as (_ & _ & Hgone).
  apply Hgone; [exact E| | |intros _; right; by left|apply not_elem_of_empty].
  - intros r [->|[->|[]%elem_of_nil]%elem_of_cons]%elem_of_cons; eexists; by left.
  - reflexivity.
Defined.
