(* ===== verification/Sftp.v ===== *)
(** * Sftp: chunks on an SFTP server (sftp.go)

    The operations of a connection, as sequences of requests to a client that is a parameter, the
    pool of connections they are taken from, and Prune. [sftp_flaky] shows that the store keeps the
    promises of FlakyWrite with an unreliable server; the theorems on Prune say what it removes, that it
    removes nothing from an uncompressed store, and that it blocks when the pool has one connection. *)

From S2P Require Import Prelude Format Index Chunk Names Stores LocalStore Path Objects.

(** sftp.Client: opening and reading a file are two requests, and so are creating, writing and
    closing it; a missing file is told by ErrNotExist. *)
Record SFTPClient (W : Type) := mkSFTPClient {
  Open : bytes -> W -> option error * W;
  ReadFrom : bytes -> W -> outcome bytes * W;
  Create : bytes -> W -> option error * W;
  WriteAll : bytes -> bytes -> W -> option error * W;
  CloseFile : bytes -> W -> option error * W;
  Mkdir : bytes -> W -> option error * W;
  Remove : bytes -> W -> option error * W;
  PosixRename : bytes -> bytes -> W -> option error * W;
  StatFile : bytes -> W -> option error * W
}.
Arguments mkSFTPClient {W}.
Arguments Open {W}.
Arguments ReadFrom {W}.
Arguments Create {W}.
Arguments WriteAll {W}.
Arguments CloseFile {W}.
Arguments Mkdir {W}.
Arguments Remove {W}.
Arguments PosixRename {W}.
Arguments StatFile {W}.

(** A connection: SFTPStoreBase. The store has [n] of them. *)
Record SFTPStoreBase := mkSFTPStoreBase { sftp_location : bytes; sftp_path : bytes; sftp_opt : StoreOptions }.

(** newSFTPStoreBase, up to the connection: the path ends in a slash. *)
Definition newSFTPStoreBase (location path : bytes) (opt : StoreOptions) : SFTPStoreBase :=
  mkSFTPStoreBase location (if negb (HasSuffix path (str "/")) then path ++ str "/" else path) opt.

Section sftp.

Context {W : Type} `{Codec} (client : SFTPClient W) (c : SFTPStoreBase).

Let converters : Converters := opt_converters (sftp_opt c).
Definition sftp_name (i : ChunkID) : bytes := sftp_nameFromID (sftp_path c) (Uncompressed (sftp_opt c)) i.

(** ** One connection *)

(** Create, once more after the directory was made if it fails. *)
Definition sftp_create (tmpfile d : bytes) (w : W) : option error * W :=
  match Create client tmpfile w with
  | (Some _, w) => let '(_, w) := Mkdir client d w in Create client tmpfile w
  | (None, w) => (None, w)
  end.

(** StoreObject, what the reader gives, and the digits of the random number. *)
Definition StoreObject (name b rand : bytes) (w : W) : option error * W :=
  let tmpfile := name ++ rand in
  match sftp_create tmpfile (Path.Dir name) w with
  | (Some err, w) => (Some (Wrapped err "sftp:create"), w)
  | (None, w) =>
    match WriteAll client tmpfile b w with
    | (Some err, w) =>
      let '(_, w) := Remove client tmpfile w in (Some (Wrapped err "sftp:copying chunk data"), w)
    | (None, w) =>
      match CloseFile client tmpfile w with
      | (Some err, w) => (Some (Wrapped err "sftp:closing"), w)
      | (None, w) =>
        let '(err, w) := PosixRename client tmpfile name w in (errors_Wrap err "sftp:renaming", w)
      end
    end
  end.

Definition sftp_GetChunk (i : ChunkID) (w : W) : GetResult * W :=
  let name := sftp_name i in
  match Open client name w with
  | (Some err, w) => ((None, Some (if decide (err = ErrNotExist) then ChunkMissing i else err)), w)
  | (None, w) =>
    match ReadFrom client name w with
    | (Ok b, w) =>
      match NewChunkFromStorage i b converters (SkipVerify (sftp_opt c)) with
      | Ok ch => ((Some ch, None), w)
      | Err e => ((None, Some e), w)
      | _ => ((None, None), w)             (* not reached, NewChunkFromStorage does not panic *)
      end
    | (Err err, w) => ((None, Some (Wrapped err "unable to read")), w)
    | (_, w) => ((None, None), w)
    end
  end.

Definition sftp_StoreChunk (rand : bytes) (chunk : Chunk) (w : W) : option error * W :=
  let name := sftp_name (chunk_id chunk) in
  match fst (Storage chunk converters) with
  | Ok b => StoreObject name b rand w
  | Err err => (Some err, w)
  | _ => (None, w)                         (* not reached: Storage does not panic *)
  end.

(** Any error means that the chunk is not there. *)
Definition sftp_HasChunk (i : ChunkID) (w : W) : (bool * option error) * W :=
  let '(err, w) := StatFile client (sftp_name i) w in
  ((match err with None => true | Some _ => false end, None), w).

Definition conn_RemoveChunk (i : ChunkID) (w : W) : option error * W :=
  let name := sftp_name i in
  match StatFile client name w with
  | (Some _, w) => (Some (ChunkMissing i), w)
  | (None, w) => Remove client name w
  end.

(** The store behind the interface, when a connection is free. *)
Definition sftp_store (rand : bytes) : Store W :=
  mkStore sftp_GetChunk sftp_HasChunk (Some (sftp_StoreChunk rand)) (fun w => (None, w)) (sftp_location c).

(** ** The pool *)

(** An operation takes a connection from the pool and puts it back at its end. With none left it
    waits, forever if nobody else has one: None. *)
Definition with_connection {R} (free : nat) (f : nat -> W -> option (R * W)) (w : W) : option (R * W) :=
  match free with O => None | S free => f free w end.

Definition sftp_RemoveChunk (free : nat) (i : ChunkID) (w : W) : option (option error * W) :=
  with_connection free (fun _ w => Some (conn_RemoveChunk i w)) w.

(** A step of the walk: whether the context is cancelled by then, and a file (with IsDir) or an
    error of the walker. *)
Definition Step : Type := bool * outcome (bool * bytes).

(** The ID Prune finds in a path. *)
Definition sftp_idFromPath (path : bytes) : outcome ChunkID :=
  if negb (HasSuffix path CompressedChunkExt) then Err (Errorf "skipped")
  else ChunkIDFromString (TrimSuffix (path_Base path)
         (if Uncompressed (sftp_opt c) then UncompressedChunkExt else CompressedChunkExt)).

(** The early returns for a path with the wrong extension are not reached: the extension of
    uncompressed chunks is empty, and paths without the other one were skipped. *)
Fixpoint sftp_walk (free : nat) (visits : list Step) (ids : gset bytes) (w : W) : option (option error * W) :=
  match visits with
  | [] => Some (None, w)
  | (true, _) :: _ => Some (Some Interrupted, w)
  | (false, Ok (true, _)) :: visits => sftp_walk free visits ids w
  | (false, Ok (false, path)) :: visits =>
    match sftp_idFromPath path with
    | Ok i =>
      if decide (i ∈ ids) then sftp_walk free visits ids w
      else
        match sftp_RemoveChunk free i w with
        | Some (None, w) => sftp_walk free visits ids w
        | r => r
        end
    | _ => sftp_walk free visits ids w
    end
  | (false, Err e) :: _ => Some (Some e, w)
  | (false, _) :: _ => None                (* a walk has files and errors only *)
  end.

(** Prune keeps its connection while RemoveChunk takes another one. *)
Definition sftp_Prune (n : nat) (visits : list Step) (ids : gset bytes) (w : W) : option (option error * W) :=
  with_connection n (fun free w => sftp_walk free visits ids w) w.

(** Close closes the connections as they come back to the pool; the error is that of the last. *)
Fixpoint sftp_Close (close : W -> option error * W) (n : nat) (err : option error) (w : W) : option error * W :=
  match n with
  | O => (err, w)
  | S n => let '(err, w) := close w in sftp_Close close n err w
  end.

(** ** What the server is expected to do *)

(** [objects] are its files. A request does what it says or fails; a file that was being written
    when a request failed can hold anything. StatFile only finds what is there. *)
Record sftp_laws (inv : W -> Prop) (objects : W -> bytes -> option bytes) {A} (other : W -> A) : Prop := {
  f_open n w e w' : inv w -> Open client n w = (e, w') ->
    inv w' /\ (forall m, objects w' m = objects w m) /\ other w' = other w /\
    (e = Some ErrNotExist -> objects w n = None) /\ (forall i, e <> Some (ChunkMissing i));
  f_read n w r w' : inv w -> ReadFrom client n w = (r, w') ->
    inv w' /\ (forall m, objects w' m = objects w m) /\ other w' = other w /\
    match r with Ok b => objects w n = Some b | Err e => True | _ => False end;
  f_create n w e w' : inv w -> Create client n w = (e, w') ->
    inv w' /\ (forall m, m <> n -> objects w' m = objects w m) /\ other w' = other w;
  f_write n b w e w' : inv w -> WriteAll client n b w = (e, w') ->
    inv w' /\ (forall m, m <> n -> objects w' m = objects w m) /\ other w' = other w /\
    (e = None -> objects w' n = Some b);
  f_close n w e w' : inv w -> CloseFile client n w = (e, w') ->
    inv w' /\ (forall m, m <> n -> objects w' m = objects w m) /\ other w' = other w /\
    (e = None -> objects w' n = objects w n);
  f_mkdir d w e w' : inv w -> Mkdir client d w = (e, w') ->
    inv w' /\ (forall m, objects w' m = objects w m) /\ other w' = other w;
  f_remove n w e w' : inv w -> Remove client n w = (e, w') ->
    inv w' /\ (forall m, m <> n -> objects w' m = objects w m) /\ other w' = other w /\
    match e with None => objects w' n = None | Some _ => objects w' n = objects w n \/ objects w' n = None end;
  f_rename n n' w e w' : inv w -> PosixRename client n n' w = (e, w') ->
    inv w' /\ (forall m, m <> n -> m <> n' -> objects w' m = objects w m) /\ other w' = other w /\
    match e with None => objects w' n' = objects w n
               | Some _ => objects w' n' = objects w n' \/ objects w' n' = objects w n end;
  f_stat n w e w' : inv w -> StatFile client n w = (e, w') ->
    inv w' /\ (forall m, objects w' m = objects w m) /\ other w' = other w /\
    (e = None -> is_Some (objects w n))
}.

(** StatFile only fails on what is not there; if it fails otherwise HasChunk says that the chunk is not
    there. *)
Definition sftp_stat_answers (inv : W -> Prop) (objects : W -> bytes -> option bytes) : Prop :=
  forall n w e w', inv w -> StatFile client n w = (Some e, w') -> objects w n = None.

Context (inv : W -> Prop) (objects : W -> bytes -> option bytes) {A : Type} (other : W -> A).
Context (laws : sftp_laws inv objects other).

Definition sftp_inv (w : W) : Prop := inv w /\ objects_ok converters sftp_name (objects w).
Definition sftp_view (w : W) : ChunkID -> option bytes := object_view converters sftp_name (objects w).

(** Nothing but the file [n] is touched. *)
Definition only (n : bytes) (w w' : W) : Prop :=
  inv w' /\ (forall m, m <> n -> objects w' m = objects w m) /\ other w' = other w.

Lemma only_trans n w1 w2 w3 : only n w1 w2 -> only n w2 w3 -> only n w1 w3.
Proof.
  intros (_ & H2 & H3) (K1 & K2 & K3). split; [done|]. split; [|congruence].
  intros m Hm. rewrite K2, H2; done.
Qed.

Lemma sftp_create_only n d w e w' : inv w -> sftp_create n d w = (e, w') -> only n w w'.
Proof using laws.
  intros Hi. unfold sftp_create. destruct (Create client n w) as [e1 w1] eqn:E1.
  pose proof (f_create _ _ _ laws _ _ _ _ Hi E1) as H1. destruct e1; [|by intros [= <- <-]].
  destruct (Mkdir client d w1) as [e2 w2] eqn:E2.
  destruct (f_mkdir _ _ _ laws _ _ _ _ (proj1 H1) E2) as (Hi2 & Hm & Ht).
  intros E3. pose proof (f_create _ _ _ laws _ _ _ _ Hi2 E3) as H3.
  apply only_trans with w1; [exact H1|]. apply only_trans with w2; [|exact H3].
  split; [done|]. split; [intros m _; apply Hm|done].
Qed.

(** The file appears under its name, complete, at the rename or not at all. *)
Lemma StoreObject_spec name b rand w e w' :
  rand <> [] -> inv w -> StoreObject name b rand w = (e, w') ->
  inv w' /\ (forall m, m <> name -> m <> name ++ rand -> objects w' m = objects w m) /\ other w' = other w /\
  match e with
  | None => objects w' name = Some b
  | Some e => s3_fails e /\ (objects w' name = objects w name \/ objects w' name = Some b)
  end.
Proof using laws.
  intros Hr Hi. unfold StoreObject. set (t := name ++ rand).
  assert (Ht : name <> t) by (intros E; apply (f_equal length) in E; subst t; rewrite length_app in E; by destruct rand; simpl in E; [|lia]).
  assert (Hstop : forall w1 err msg, only t w w1 ->
    inv w1 /\ (forall m, m <> name -> m <> t -> objects w1 m = objects w m) /\ other w1 = other w /\
    s3_fails (Wrapped err msg) /\ (objects w1 name = objects w name \/ objects w1 name = Some b)).
  { intros w1 err msg (H1 & H2 & H3). split; [done|]. split; [auto|]. split; [done|]. split; [done|]. left. auto. }
  destruct (sftp_create t (Path.Dir name) w) as [e1 w1] eqn:E1.
  pose proof (sftp_create_only _ _ _ _ _ Hi E1) as H1. destruct e1 as [e1|]; [intros [= <- <-]; by apply Hstop|].
  destruct (WriteAll client t b w1) as [e2 w2] eqn:E2.
  destruct (f_write _ _ _ laws _ _ _ _ _ (proj1 H1) E2) as (Hi2 & Hm2 & Ht2 & Hb2).
  assert (H2 : only t w w2) by (apply only_trans with w1; [done|by split]). destruct e2 as [e2|].
  { destruct (Remove client t w2) as [e3 w3] eqn:E3. intros [= <- <-]. apply Hstop.
    destruct (f_remove _ _ _ laws _ _ _ _ Hi2 E3) as (Hi3 & Hm3 & Ht3 & _).
    by apply only_trans with w2; [|split]. }
  destruct (CloseFile client t w2) as [e3 w3] eqn:E3.
  destruct (f_close _ _ _ laws _ _ _ _ Hi2 E3) as (Hi3 & Hm3 & Ht3 & Hb3).
  assert (H3 : only t w w3) by (apply only_trans with w2; [done|by split]).
  destruct e3 as [e3|]; [intros [= <- <-]; by apply Hstop|].
  destruct (PosixRename client t name w3) as [e4 w4] eqn:E4.
  destruct (f_rename _ _ _ laws _ _ _ _ _ Hi3 E4) as (Hi4 & Hm4 & Ht4 & Hn4).
  destruct H3 as (_ & H3 & H3t). rewrite Hb3, Hb2 in Hn4 by done. intros [= <- <-].
  split; [done|]. split; [intros m Hm Hm'; by rewrite Hm4, H3|]. split; [congruence|].
  destruct e4 as [e4|]; cbn [errors_Wrap option_map]; [|done].
  split; [done|]. rewrite H3 in Hn4 by done. exact Hn4.
Qed.

Lemma sftp_untouched w w' : sftp_inv w -> inv w' -> (forall m, objects w' m = objects w m) ->
  sftp_inv w' /\ forall j, sftp_view w' j = sftp_view w j.
Proof.
  intros [_ Hok] Hi E. destruct (object_view_same converters sftp_name _ _ E) as [Hv Ho].
  split; [split; [done|by apply Ho]|exact Hv].
Qed.

(** The temporary files are not taken for chunks. *)
Definition rand_ok (rand : bytes) : Prop := rand <> [] /\ forall i j, sftp_name i ++ rand <> sftp_name j.

Lemma sftp_flaky rand : rand_ok rand -> sftp_stat_answers inv objects ->
  FlakyWrite sftp_inv s3_fails (sftp_store rand) sftp_view (sftp_StoreChunk rand) other.
Proof using laws.
  intros [Hrand Htmp] Hstat. split; [split|done|]; cbn [sftp_store sGetChunk sHasChunk].
  - intros i w oc e w' Hi. unfold sftp_GetChunk.
    destruct (Open client (sftp_name i) w) as [e1 w1] eqn:E1.
    destruct (f_open _ _ _ laws _ _ _ _ (proj1 Hi) E1) as (Hi1 & Ho1 & Ht1 & He1 & Hm1).
    destruct (sftp_untouched w w1 Hi Hi1 Ho1) as [Hinv1 Hv1]. destruct e1 as [e1|].
    { intros [= <- <- <-]. split; [done|]. split; [done|]. split; [done|]. goal_decide He.
      - right. split; [done|]. unfold sftp_view, object_view. rewrite He1; [done|by subst].
      - left. intros j ->. by apply (Hm1 j). }
    destruct (ReadFrom client (sftp_name i) w1) as [r w2] eqn:E2.
    destruct (f_read _ _ _ laws _ _ _ _ Hi1 E2) as (Hi2 & Ho2 & Ht2 & Hr).
    destruct (sftp_untouched w1 w2 Hinv1 Hi2 Ho2) as [Hinv2 Hv2].
    assert (Hv : forall j, sftp_view w2 j = sftp_view w j) by (intros j; by rewrite Hv2).
    destruct r as [b|e2| |]; try done.
    + destruct (object_chunk converters sftp_name _ i b (SkipVerify (sftp_opt c)) (proj2 Hinv1) Hr)
        as (d & ch & Hd & -> & Hh). intros [= <- <- <-]. split; [done|]. split; [done|]. split; [congruence|].
      exists d. split; [by rewrite <- Hv1|done].
    + intros [= <- <- <-]. split; [done|]. split; [done|]. split; [congruence|]. by left.
  - intros i w b e w' Hi. unfold sftp_HasChunk.
    destruct (StatFile client (sftp_name i) w) as [err w1] eqn:Es. intros [= <- <- <-].
    destruct (f_stat _ _ _ laws _ _ _ _ (proj1 Hi) Es) as (Hi1 & Ho1 & Ht1 & Hs).
    destruct (sftp_untouched w w1 Hi Hi1 Ho1) as [Hinv1 Hv1].
    split; [done|]. split; [done|]. split; [done|].
    pose proof (object_view_some converters sftp_name _ i (proj2 Hi)) as Hv.
    destruct err as [err|].
    + rewrite bool_decide_false; [done|]. intros Hx%Hv. rewrite (Hstat _ _ _ _ (proj1 Hi) Es) in Hx. by destruct Hx.
    + rewrite bool_decide_true; [done|]. by apply Hv, Hs.
  - intros ch i d w e w' [Hi Hok] Hh Hd. unfold sftp_StoreChunk.
    assert (Hc : chunk_id ch = i) by apply Hh. rewrite Hc.
    destruct (Storage_ok ch converters i d Hh Hd) as (b & Hb & _). rewrite Hb. intros Ep.
    destruct (StoreObject_spec _ _ _ _ _ _ Hrand Hi Ep) as (Hi' & Hother & Ht & He).
    destruct (object_put converters sftp_name (objects w) (objects w') i ch b d
      (s3_nameFromID_inj _ _) Hh Hd Hb) as (Hok' & Hv & Hput & Hmaybe); [| |done|].
    { intros j Hj. apply Hother; [done|]. intros E. by apply (Htmp i j). }
    { destruct e as [e|]; [apply He|by right]. }
    split; [done|]. split; [done|]. split; [done|]. destruct e as [e|]; [|auto]. split; [apply He|done].
Qed.

(** ** Prune *)

Lemma conn_removes : removes_own conn_RemoveChunk inv objects sftp_name.
Proof using laws.
  intros i w e w' Hi. unfold conn_RemoveChunk.
  destruct (StatFile client (sftp_name i) w) as [e1 w1] eqn:E1.
  destruct (f_stat _ _ _ laws _ _ _ _ Hi E1) as (Hi1 & Ho1 & _ & _). destruct e1 as [e1|].
  - intros [= <- <-]. split; [done|]. split; [intros m _; apply Ho1|]. left. apply Ho1.
  - intros E2. destruct (f_remove _ _ _ laws _ _ _ _ Hi1 E2) as (Hi2 & Hm2 & _ & He2).
    split; [done|]. split; [intros m Hm; by rewrite Hm2|]. destruct e; [|done]. by rewrite Ho1 in He2.
Qed.

(** The files of a walk. *)
Definition walked (visits : list Step) : list (outcome bytes) :=
  omap (fun v => match snd v with Ok (true, _) => None | Ok (false, p) => Some (Ok p)
                            | Err e => Some (Err e) | Panic => Some Panic | NoFuel => Some NoFuel end) visits.

Lemma sftp_walk_spec free visits ids : forall w e w', inv w ->
  sftp_walk (S free) visits ids w = Some (e, w') ->
  pruned sftp_idFromPath inv objects sftp_name (walked visits) ids w e w'.
Proof using laws.
  assert (Hskip : forall l w, inv w -> forall e, e <> None ->
    pruned sftp_idFromPath inv objects sftp_name l ids w e w).
  { intros l w Hi e He. split; [done|]. split; [by left|done]. }
  induction visits as [|[[] [[[] path]|err| |]] visits IH]; intros w e w' Hi; cbn [sftp_walk]; try done.
  1: { intros [= <- <-]. split; [done|]. split; [by left|]. by intros _ _ i (key & Hk%not_elem_of_nil & _). }
  1-5: intros [= <- <-]; by apply Hskip.
  - by apply IH.
  - destruct (sftp_idFromPath path) as [i| | |] eqn:Ek.
    2, 3, 4: intros E; apply pruned_cons with w; [congruence|by left|by apply IH].
    goal_decide Hin; [intros E; apply pruned_cons with w; [congruence|by left|by apply IH]|].
    unfold sftp_RemoveChunk, with_connection.
    destruct (conn_RemoveChunk i w) as [er w1] eqn:Er. destruct (conn_removes _ _ _ _ Hi Er) as (Hi1 & Hm & He1).
    intros E. pose proof (pruned_remove sftp_idFromPath inv objects sftp_name path (walked visits) ids i w er w1
      Ek Hin Hi1 Hm He1) as [Hstop Hgo].
    destruct er as [er|]; [injection E as <- <-; by apply Hstop|]. apply Hgo; [done|]. by apply IH.
  - intros [= <- <-]. by apply Hskip.
Qed.

Lemma sftp_idFromPath_name i :
  Uncompressed (sftp_opt c) = false -> length i = 32%nat -> sftp_idFromPath (sftp_name i) = Ok i.
Proof.
  intros Hu Hl. unfold sftp_idFromPath, sftp_name, sftp_nameFromID, s3_nameFromID. rewrite Hu. cbv zeta.
  set (sID := String_ i).
  assert ((sftp_path c ++ take 4 sID ++ str "/" ++ sID) ++ CompressedChunkExt =
    (sftp_path c ++ take 4 sID) ++ Byte.x2f :: (sID ++ CompressedChunkExt)) as -> by (by rewrite <- !app_assoc).
  unfold path_Base. rewrite last_Split_app.
  2:{ rewrite not_elem_of_app. split; [apply EncodeToString_no_slash|apply (ext_no_slash false)]. }
  rewrite TrimSuffix_app, app_comm_cons, app_assoc, HasSuffix_app. cbn [negb].
  by apply ChunkIDFromString_String.
Qed.

(** With two connections or more Prune comes to an end, whatever the server does. *)
Lemma sftp_walk_ends free visits ids : forall w,
  (forall v, v ∈ visits -> exists f, snd v = Ok f \/ exists e, snd v = Err e) ->
  is_Some (sftp_walk (S free) visits ids w).
Proof.
  induction visits as [|[[] r] visits IH]; intros w Hv; cbn [sftp_walk]; [by eexists|by eexists|].
  assert (Hv' : forall v, v ∈ visits -> exists f, snd v = Ok f \/ exists e, snd v = Err e)
    by (intros v Hin; apply Hv; by right).
  destruct (Hv (false, r) ltac:(by left)) as ([[] path] & [E|[e E]]); cbn [snd] in E; subst r; try by eexists.
  - by apply IH.
  - destruct (sftp_idFromPath path); try by apply IH. goal_decide Hin; [by apply IH|].
    unfold sftp_RemoveChunk, with_connection. destruct (conn_RemoveChunk a w) as [[|] w1]; [by eexists|by apply IH].
Qed.

(** Prune of a compressed SFTP store with a pool of at least two connections ends, and however it
    ends the chunks to be kept are as they were; without an error the other chunks are gone. *)
Theorem sftp_prune_exact n visits ids w : sftp_inv w -> (2 <= n)%nat ->
  Uncompressed (sftp_opt c) = false ->
  (forall v, v ∈ visits -> exists f, snd v = Ok f \/ exists e, snd v = Err e) ->
  exists e w', sftp_Prune n visits ids w = Some (e, w') /\
    sftp_inv w' /\ (forall i, i ∈ ids -> sftp_view w' i = sftp_view w i) /\
    (e = None -> forall i, length i = 32%nat ->
     (is_Some (objects w (sftp_name i)) -> Ok (sftp_name i) ∈ walked visits) -> i ∉ ids -> sftp_view w' i = None).
Proof using laws.
  intros [Hi Hok] Hn Hu Hv. destruct n as [|[|n]]; [lia|lia|]. unfold sftp_Prune, with_connection.
  destruct (sftp_walk_ends n visits ids w Hv) as [[e w'] E]. exists e, w'. split; [done|].
  pose proof (sftp_walk_spec _ _ _ _ _ _ Hi E) as Hp. pose proof (proj1 Hp) as Hi'.
  destruct (pruned_view converters _ _ _ _ _ _ _ _ _ (s3_nameFromID_inj _ _)
    (fun i => sftp_idFromPath_name i Hu) Hp Hok) as (H1 & H2 & H3). split; [done|]. split; [done|].
  intros He. apply H3; [done|]. intros r (v & Hin & Hr)%list_elem_of_omap.
  destruct (Hv v Hin) as ([d p] & [E'|[e' E']]); rewrite E' in Hr; cbn in Hr.
  - destruct d; [done|]. injection Hr as <-. exists p. by left.
  - injection Hr as <-. exists []. right. by eexists.
Qed.

(** A pool with a single connection: Prune waits for the one it holds when it finds a chunk to remove. *)
Lemma sftp_prune_blocks path visits ids i w :
  sftp_idFromPath path = Ok i -> i ∉ ids -> sftp_Prune 1 ((false, Ok (false, path)) :: visits) ids w = None.
Proof.
  intros Hp Hi. unfold sftp_Prune, with_connection. cbn [sftp_walk]. rewrite Hp. rewrite decide_False by done. done.
Qed.

(** Prune removes nothing from a store of uncompressed chunks: it skips the files without the
    extension of the compressed ones, and the names of the others are no IDs. *)
Lemma hex_only s b : DecodeString s = Ok b -> forall x, x ∈ s -> is_Some (from_hex_char x).
Proof.
  revert b. induction s as [s IH] using (induction_ltof1 _ length). unfold ltof in IH. intros b Hb.
  destruct s as [|x [|y s]]; cbn [DecodeString] in Hb; [by intros ? ?%not_elem_of_nil|by destruct (from_hex_char x)|].
  destruct (from_hex_char x) eqn:Ex; [|done]. destruct (from_hex_char y) eqn:Ey; [|done].
  destruct (DecodeString s) as [b'| | |] eqn:Es; [|done..].
  intros k [->|[->|Hk]%elem_of_cons]%elem_of_cons; [by rewrite Ex|by rewrite Ey|].
  by apply (IH s ltac:(simpl; lia) b' Es).
Qed.

Lemma path_Base_suffix p t : Byte.x2f ∉ t -> exists q, path_Base (p ++ t) = q ++ t.
Proof.
  intros Ht. unfold path_Base. destruct (decide (Byte.x2f ∈ p)) as [Hp|Hp].
  - apply list_elem_of_split_r in Hp as (p1 & p2 & -> & Hp2). exists p2.
    rewrite <- app_assoc. cbn [app]. apply last_Split_app. by rewrite not_elem_of_app.
  - exists p. rewrite Split_no_sep; [done|]. by rewrite not_elem_of_app.
Qed.

Lemma sftp_prune_uncompressed n visits ids w :
  Uncompressed (sftp_opt c) = true -> (1 <= n)%nat ->
  (forall v, v ∈ visits -> exists f, snd v = Ok f \/ exists e, snd v = Err e) ->
  exists e, sftp_Prune n visits ids w = Some (e, w).
Proof.
  intros Hu Hn Hv. destruct n as [|n]; [lia|]. unfold sftp_Prune, with_connection.
  assert (Hid : forall path i, sftp_idFromPath path <> Ok i).
  { intros path i. unfold sftp_idFromPath. rewrite Hu.
    destruct (HasSuffix path CompressedChunkExt) eqn:Es; cbn [negb]; [|done].
    apply HasSuffix_split in Es as [p ->].
    destruct (path_Base_suffix p CompressedChunkExt (ext_no_slash false)) as [q ->].
    unfold ChunkIDFromString. rewrite <- (app_nil_r (q ++ CompressedChunkExt)).
    change (@nil byte) with UncompressedChunkExt. rewrite TrimSuffix_app.
    destruct (DecodeString (q ++ CompressedChunkExt)) as [b| | |] eqn:Ed; try done. exfalso.
    assert (Hk : Byte.x6b ∈ q ++ CompressedChunkExt).
    { apply elem_of_app. right. refine (bool_decide_unpack _ _). by vm_compute. }
    pose proof (hex_only _ _ Ed _ Hk) as Hx. by vm_compute in Hx; destruct Hx. }
  induction visits as [|[[] r] visits IH]; cbn [sftp_walk]; [by eexists|by eexists|].
  specialize (IH (fun v Hin => Hv v ltac:(by right))).
  destruct (Hv (false, r) ltac:(by left)) as ([[] path] & [E|[e E]]); cbn [snd] in E; subst r; try by eexists.
  - exact IH.
  - specialize (Hid path). destruct (sftp_idFromPath path) as [i| | |]; [|exact IH..]. by destruct (Hid i).
Qed.

End sftp.

(** A random number is never taken for the end of the name of a compressed chunk. *)
Lemma rand_ok_digits c rand :
  Uncompressed (sftp_opt c) = false -> rand <> [] -> Byte.x6b ∉ rand -> rand_ok c rand.
Proof.
  intros Hu Hr Hk. split; [done|]. intros i j E. apply Hk. apply (f_equal last) in E.
  unfold sftp_name, sftp_nameFromID, s3_nameFromID in E. rewrite Hu in E.
  destruct rand as [|x rand _] using rev_ind; [done|]. apply elem_of_app. right.
  change CompressedChunkExt with (str ".cacn" ++ [Byte.x6b]) in E. rewrite !app_assoc, !last_snoc in E.
  injection E as ->. by left.
Qed.

(** ** A server in memory *)

Definition ex_sftp_client : SFTPClient (gmap bytes bytes) :=
  mkSFTPClient
    (fun n w => (match w !! n with Some _ => None | None => Some ErrNotExist end, w))
    (fun n w => (match w !! n with Some b => Ok b | None => Err (Errorf "gone") end, w))
    (fun n w => (None, <[n := []]> w))
    (fun n b w => (None, <[n := b]> w))
    (fun _ w => (None, w))
    (fun _ w => (None, w))
    (fun n w => (None, delete n w))
    (fun n n' w => match w !! n with
                   | Some b => (None, <[n' := b]> (delete n w))
                   | None => (Some ErrNotExist, w) end)
    (fun n w => (match w !! n with Some _ => None | None => Some ErrNotExist end, w)).

Lemma ex_sftp_laws : sftp_laws ex_sftp_client (fun _ => True) (fun w n => w !! n) (fun _ => tt).
Proof.
  split; cbn [ex_sftp_client Open ReadFrom Create WriteAll CloseFile Mkdir Remove PosixRename StatFile].
  - intros n w e w' _ [= <- <-]. split_and!; try done; by destruct (w !! n).
  - intros n w r w' _ [= <- <-]. split_and!; try done. by destruct (w !! n).
  - intros n w e w' _ [= <- <-]. split_and!; try done. intros m Hm. by rewrite lookup_insert_ne by congruence.
  - intros n b w e w' _ [= <- <-]. split_and!; try done; [|by rewrite lookup_insert_eq].
    intros m Hm. by rewrite lookup_insert_ne by congruence.
  - by intros n w e w' _ [= <- <-].
  - by intros n w e w' _ [= <- <-].
  - intros n w e w' _ [= <- <-]. split_and!; try done; [|by rewrite lookup_delete_eq].
    intros m Hm. by rewrite lookup_delete_ne by congruence.
  - intros n n' w e w' _. destruct (w !! n) as [b|] eqn:E; intros [= <- <-]; split_and!; try done.
    + intros m Hm Hm'. by rewrite lookup_insert_ne, lookup_delete_ne by congruence.
    + by rewrite lookup_insert_eq.
    + by left.
  - intros n w e w' _ [= <- <-]. split_and!; try done. by destruct (w !! n).
Qed.

Definition ex_sftp : SFTPStoreBase := newSFTPStoreBase (str "sftp://host/store") (str "/store")
  (mkStoreOptions 2 0 3 0 false false).

(** A store with a chunk. *)
Definition ex_sftp_files : gmap bytes bytes :=
  {[ sftp_name ex_sftp ex_id := match fst (Storage (H := toy_codec) (ex_chunk ex_id (str "data")) [Compressor]) with Ok b => b | _ => [] end ]}.

Lemma ex_sftp_ok : sftp_inv (H := toy_codec) ex_sftp (fun _ => True) (fun w n => w !! n) ex_sftp_files.
Proof.
  split; [done|]. unfold ex_sftp_files. intros i b [Hn <-]%lookup_singleton_Some. apply s3_nameFromID_inj in Hn as <-.
  exists (str "data"). split; [by vm_compute|]. split; [by vm_compute|]. split; [discriminate|by vm_compute].
Qed.

Lemma sftp_prune_exact_witness : exists e w',
  sftp_Prune ex_sftp_client ex_sftp 2 [(false, Ok (true, str "/store/abcd")); (false, Ok (false, sftp_name ex_sftp ex_id))]
    ∅ ex_sftp_files = Some (e, w') /\
  (e = None -> sftp_view (H := toy_codec) ex_sftp (fun w n => w !! n) w' ex_id = None).
Proof.
  destruct (sftp_prune_exact (H := toy_codec) ex_sftp_client ex_sftp (fun _ => True) (fun w n => w !! n) (fun _ => tt)
    ex_sftp_laws 2 [(false, Ok (true, str "/store/abcd")); (false, Ok (false, sftp_name ex_sftp ex_id))] ∅
    ex_sftp_files ex_sftp_ok) as (e & w' & E & _ & _ & Hgone); [lia|reflexivity| |].
  - intros v [->|[->|[]%elem_of_nil]%elem_of_cons]%elem_of_cons; eexists; by left.
  - exists e, w'. split; [exact E|]. intros He. apply Hgone; [exact He|reflexivity| |apply not_elem_of_empty].
    intros _. by left.
Defined.

(** The same with one connection never ends. *)
Example sftp_prune_deadlock :
  sftp_Prune ex_sftp_client ex_sftp 1 [(false, Ok (false, sftp_name ex_sftp ex_id))] ∅ ex_sftp_files = None.
Proof. reflexivity. Qed.
