(* ===== verification/IndexStores.v ===== *)
(** * IndexStores: indexes on object storage and SFTP servers (s3index.go, gcsindex.go, sftpindex.go)

    The index stores on the clients of Objects and Sftp. [got] is what a reader delivered before an
    error of the service: the decoder sees it, and then the error. The theorem shows for each of them
    that an index that was stored is read back, or an error of the service is reported. *)

From S2P Require Import Prelude Format Index Chunk Names Stores LocalStore Path Http HttpIndex Objects Sftp.

(** The bytes WriteTo gives to a pipe whose other end reads all of it. *)
Definition piped (idx : Index) : bytes := w_out (snd (WriteTo idx (mkWriter [] None ErrUnexpectedEOF))).

Lemma piped_bytes idx : piped idx = index_bytes idx.
Proof. unfold piped. by rewrite WriteTo_Copy. Qed.

(** IndexFromReader on a reader. *)
Definition read_index (alg : Algorithm) (got : bytes) (r : outcome bytes) : outcome Index :=
  match r with
  | Ok b => IndexFromReader ErrEOF alg b
  | Err e => IndexFromReader e alg got
  | Panic => Panic
  | NoFuel => NoFuel
  end.

(** ** S3 *)

Section s3.

Context {W : Type} (alg : Algorithm) (got : bytes) (client : S3Client W) (s : S3Store).

Definition s3_GetIndexReader (name : bytes) (w : W) : outcome bytes * W :=
  match GetObject client (Objects.prefix s ++ name) w with
  | (Some err, w) => (Err (Wrapped err "s3"), w)
  | (None, w) => ReadObject client (Objects.prefix s ++ name) w
  end.

Definition s3_GetIndex (name : bytes) (w : W) : outcome Index * W :=
  match GetObject client (Objects.prefix s ++ name) w with
  | (Some err, w) => (Err (Wrapped err "s3"), w)
  | (None, w) => let '(r, w) := ReadObject client (Objects.prefix s ++ name) w in (read_index alg got r, w)
  end.

(** One attempt; the error of WriteTo is not looked at. *)
Definition s3_StoreIndex (name : bytes) (idx : Index) (w : W) : option error * W :=
  let '(err, w) := PutObject client (Objects.prefix s ++ name) (piped idx) w in (errors_Wrap err "s3", w).

Definition S3IndexStore : IndexStore W := mkIndexStore s3_GetIndexReader s3_GetIndex (Some s3_StoreIndex).

End s3.

(** ** Google storage *)

Section gcs.

Context {W : Type} (alg : Algorithm) (got : bytes) (client : GCSClient W) (s : GCStore).

Definition gcs_GetIndexReader (name : bytes) (w : W) : outcome bytes * W :=
  match NewReader client (gcs_prefix s ++ name) w with
  | (Some err, w) => (Err (Wrapped err "gcs"), w)
  | (None, w) => gcs_ReadAll client (gcs_prefix s ++ name) w
  end.

Definition gcs_GetIndex (name : bytes) (w : W) : outcome Index * W :=
  match NewReader client (gcs_prefix s ++ name) w with
  | (Some err, w) => (Err (Wrapped err "gcs"), w)
  | (None, w) => let '(r, w) := gcs_ReadAll client (gcs_prefix s ++ name) w in (read_index alg got r, w)
  end.

(** The writer is closed after an error as well, which can make an object of the bytes [got] it took. *)
Definition gcs_StoreIndex (name : bytes) (idx : Index) (w : W) : option error * W :=
  let n := gcs_prefix s ++ name in
  match WriterCopy client n (piped idx) w with
  | (Some err, w) => let '(_, w) := WriterClose client n got w in (Some (Wrapped err "gcs"), w)
  | (None, w) =>
    match WriterClose client n (piped idx) w with
    | (Some err, w) => (Some (Wrapped err "gcs"), w)
    | (None, w) => (None, w)
    end
  end.

Definition GCIndexStore : IndexStore W := mkIndexStore gcs_GetIndexReader gcs_GetIndex (Some gcs_StoreIndex).

End gcs.

(** ** SFTP *)

Section sftp.

Context {W : Type} (alg : Algorithm) (got rand : bytes) (client : SFTPClient W) (c : SFTPStoreBase).

Definition pathFromName (name : bytes) : bytes := Path.Join (sftp_path c) name.

Definition sftp_open (name : bytes) (w : W) : option error * W :=
  match Open client (pathFromName name) w with
  | (Some err, w) => (Some (if decide (err = ErrNotExist) then Errorf "Index file does not exist" else err), w)
  | (None, w) => (None, w)
  end.

Definition sftp_GetIndexReader (name : bytes) (w : W) : outcome bytes * W :=
  match sftp_open name w with
  | (Some err, w) => (Err err, w)
  | (None, w) => ReadFrom client (pathFromName name) w
  end.

Definition sftp_GetIndex (name : bytes) (w : W) : outcome Index * W :=
  match sftp_open name w with
  | (Some err, w) => (Err err, w)
  | (None, w) => let '(r, w) := ReadFrom client (pathFromName name) w in (read_index alg got r, w)
  end.

Definition sftp_StoreIndex (name : bytes) (idx : Index) (w : W) : option error * W :=
  Sftp.StoreObject client (pathFromName name) (piped idx) rand w.

Definition SFTPIndexStore : IndexStore W := mkIndexStore sftp_GetIndexReader sftp_GetIndex (Some sftp_StoreIndex).

End sftp.

(** ** What is stored is read back *)


Lemma read_stored alg got i b : well_formed_index alg i -> b = piped i -> read_index alg got (Ok b) = Ok (stored i).
Proof. intros Hi ->. rewrite piped_bytes. by apply index_read. Qed.

(** After StoreIndex succeeded the reader of the index, if the service delivers it, gives the index. *)
Theorem s3_index_round_trip {W A} alg got client s (inv : W -> Prop) objects (other : W -> A) n i w w1 b w2 :
  s3_laws client inv objects other -> inv w -> well_formed_index alg i ->
  s3_StoreIndex client s n i w = (None, w1) -> s3_GetIndexReader client s n w1 = (Ok b, w2) ->
  s3_GetIndex alg got client s n w1 = (Ok (stored i), w2).
Proof.
  intros laws Hi Hwf. unfold s3_StoreIndex, s3_GetIndexReader, s3_GetIndex.
  destruct (PutObject client _ (piped i) w) as [[err|] w'] eqn:Ep; [done|]. intros [= ->].
  destruct (l_put _ _ _ _ laws _ _ _ _ _ Hi Ep) as (Hi1 & _ & _ & Hput).
  destruct (GetObject client _ w1) as [[err|] w3] eqn:Eg; [done|].
  destruct (l_same _ _ _ _ laws _ _ _ _ Hi1 Eg) as (Hi3 & Ho3 & _). intros Er. rewrite Er.
  destruct (l_read _ _ _ _ laws _ _ _ _ Hi3 Er) as (_ & _ & _ & Hb). rewrite Ho3, Hput in Hb.
  injection Hb as Hb. by rewrite (read_stored alg got i b).
Qed.

Theorem gcs_index_round_trip {W A} alg got client s (inv : W -> Prop) objects (other : W -> A) n i w w1 b w2 :
  gcs_laws client inv objects other -> inv w -> well_formed_index alg i ->
  gcs_StoreIndex got client s n i w = (None, w1) -> gcs_GetIndexReader client s n w1 = (Ok b, w2) ->
  gcs_GetIndex alg got client s n w1 = (Ok (stored i), w2).
Proof.
  intros laws Hi Hwf. unfold gcs_StoreIndex, gcs_GetIndexReader, gcs_GetIndex.
  destruct (WriterCopy client _ (piped i) w) as [[err|] w'] eqn:Ec; [by destruct (WriterClose client _ got w')|].
  destruct (g_copy _ _ _ _ laws _ _ _ _ _ Hi Ec) as (Hi' & _ & _).
  destruct (WriterClose client _ (piped i) w') as [[err|] w''] eqn:Ep; [done|]. intros [= ->].
  destruct (g_close _ _ _ _ laws _ _ _ _ _ Hi' Ep) as (Hi1 & _ & _ & Hput).
  destruct (NewReader client _ w1) as [[err|] w3] eqn:Eg; [done|].
  destruct (g_reader _ _ _ _ laws _ _ _ _ Hi1 Eg) as (Hi3 & Ho3 & _). intros Er. rewrite Er.
  destruct (g_read _ _ _ _ laws _ _ _ _ Hi3 Er) as (_ & _ & _ & Hb). rewrite Ho3, Hput in Hb.
  injection Hb as Hb. by rewrite (read_stored alg got i b).
Qed.

Theorem sftp_index_round_trip {W A} alg got rand client c (inv : W -> Prop) objects (other : W -> A) n i w w1 b w2 :
  sftp_laws client inv objects other -> inv w -> rand <> [] -> well_formed_index alg i ->
  sftp_StoreIndex rand client c n i w = (None, w1) -> sftp_GetIndexReader client c n w1 = (Ok b, w2) ->
  sftp_GetIndex alg got client c n w1 = (Ok (stored i), w2).
Proof.
  intros laws Hi Hr Hwf Es. unfold sftp_GetIndexReader, sftp_GetIndex, sftp_open.
  destruct (StoreObject_spec _ _ _ _ laws _ _ _ _ _ _ Hr Hi Es) as (Hi1 & _ & _ & Hput).
  destruct (Open client _ w1) as [[err|] w3] eqn:Eg; [done|].
  destruct (f_open _ _ _ _ laws _ _ _ _ Hi1 Eg) as (Hi3 & Ho3 & _). intros Er. rewrite Er.
  destruct (f_read _ _ _ _ laws _ _ _ _ Hi3 Er) as (_ & _ & _ & Hb). rewrite Ho3, Hput in Hb.
  injection Hb as Hb. by rewrite (read_stored alg got i b).
Qed.
