(* ===== verification/CmdStore.v ===== *)
(** * CmdStore: from locations to stores (store.go of cmd/desync)

    What the commands do with the locations of the command line: the URL's scheme selects a kind of
    store, the configuration gives its options, and the stores are combined into a router, groups
    and a cache. The network is a parameter, the [Machine]: what dialling a server gives is a client
    of Objects.v, Sftp.v or Http.v, or a store for ssh; the local disk is a part of the world.

    The theorems show that the store a command gets for its arguments holds what the stores named
    there hold, in the order given, with the cache in front; Commands.v uses them. *)

From S2P Require Import Prelude Format Index Chunk Names Path Url Stores Composition LocalStore Config Http HttpIndex.
From S2P Require Import Objects Sftp IndexStores.

(** ** Functions that may fail and change the world *)

Definition io (W A : Type) : Type := W -> outcome A * W.

#[export] Instance io_ret W : MRet (io W) := fun A a w => (Ok a, w).
#[export] Instance io_bind W : MBind (io W) := fun A B f m w =>
  match m w with
  | (Ok a, w) => f a w
  | (Err e, w) => (Err e, w)
  | (Panic, w) => (Panic, w)
  | (NoFuel, w) => (NoFuel, w)
  end.

Definition pure {W A} (r : outcome A) : io W A := fun w => (r, w).
Definition fails {W A} (msg : string) : io W A := pure (Err (Errorf msg)).

(** A call that returns an error or nil. *)
Definition call {W} (f : W -> option error * W) : io W unit := fun w =>
  match f w with (None, w) => (Ok tt, w) | (Some e, w) => (Err e, w) end.

Lemma io_bind_inv {W A B} (f : A -> io W B) (m : io W A) w b w' :
  (m ≫= f) w = (Ok b, w') -> exists a w1, m w = (Ok a, w1) /\ f a w1 = (Ok b, w').
Proof.
  unfold mbind, io_bind. destruct (m w) as [[a|e| |] w1]; try discriminate. eauto.
Qed.

(** ** A part of the world *)

Section parts.

Context {W S : Type} (get : W -> S) (set : S -> W -> W).

Record part_ok : Prop := {
  part_get_set s w : get (set s w) = s;
  part_set_get w : set (get w) w = w;
  part_set_set s s' w : set s (set s' w) = set s w
}.

Definition on_part {R} (f : S -> R * S) (w : W) : R * W := let '(r, s) := f (get w) in (r, set s w).

Definition lift_store (s : Store S) : Store W :=
  mkStore (fun i => on_part (sGetChunk s i)) (fun i => on_part (sHasChunk s i))
    ((fun st c => on_part (st c)) <$> sStoreChunk s) (on_part (sClose s)) (sString s).

Definition lift_index (s : IndexStore S) : IndexStore W :=
  mkIndexStore (fun n => on_part (ixGetIndexReader s n)) (fun n => on_part (ixGetIndex s n))
    ((fun st n i => on_part (st n i)) <$> ixStoreIndex s).

Context (Hpart : part_ok).

Lemma lift_read_spec `{Codec} inv s v :
  ReadSpec inv s v -> ReadSpec (fun w => inv (get w)) (lift_store s) (fun w => v (get w)).
Proof using Hpart.
  intros Hs. split; cbn [lift_store sGetChunk sHasChunk]; unfold on_part.
  - intros i w d Hi Hd. destruct (spec_hit inv i (get w) d Hi Hd) as (c & -> & Hh). exists c.
    by rewrite (part_set_get Hpart).
  - intros i w Hi Hd. by rewrite (spec_miss inv i (get w) Hi Hd), (part_set_get Hpart).
  - intros i w Hi. by rewrite (spec_has inv i (get w) Hi), (part_set_get Hpart).
Qed.

Lemma lift_write_spec `{Codec} inv s v st {A B} (o : S -> A) (other : W -> B) :
  (forall x w, other (set x w) = other w) ->
  WriteSpec inv s v st o ->
  WriteSpec (fun w => inv (get w)) (lift_store s) (fun w => v (get w)) (fun c => on_part (st c)) other.
Proof using Hpart.
  intros Ho Hs. split; [apply lift_read_spec, _|cbn; by rewrite (spec_write inv)|].
  intros c i d w Hi Hh Hd. destruct (spec_store inv c i d (get w) Hi Hh Hd) as (x & Hst & H1 & H2 & H3 & _).
  exists (set x w). unfold on_part. rewrite Hst, (part_get_set Hpart). auto.
Qed.

End parts.

(** ** The machine *)

(** What a dialled server is: for HTTP the handler of the requests and what the network does with them. *)
Record Machine (W : Type) := mkMachine {
  m_fs : W -> FileSystem;
  m_set_fs : FileSystem -> W -> W;
  dial_ssh : URL -> StoreOptions -> io W (Store W);          (* NewRemoteSSHStore *)
  dial_sftp : URL -> io W (SFTPClient W);                    (* one connection of newSFTPStoreBase *)
  dial_http : URL -> ConfOptions ->
    outcome ((Request -> W -> outcome Response * W) * (Request -> nat -> Delivery));
  dial_s3 : URL -> Provider -> bytes -> bytes -> outcome (S3Client W);    (* minio.NewWithOptions *)
  dial_gcs : URL -> outcome (GCSClient W);                   (* storage.NewClient *)
  tmp_name : bytes -> bytes;                                 (* of temporary files, below a directory *)
  rand_name : bytes;                                         (* the random number of an upload *)
  got : bytes;                                               (* what a failing index reader delivered *)
  env : bytes -> bytes;                                      (* os.Getenv *)
  cwd : bytes;
  now : Z;
  new_group : bytes -> list (Store W) -> Failover W;         (* the state of a new FailoverGroup *)
  read_stdin : W -> bytes * W;
  stdout : W -> Writer;
  set_stdout : Writer -> W -> W
}.
Arguments m_fs {W}.
Arguments m_set_fs {W}.
Arguments dial_ssh {W}.
Arguments dial_sftp {W}.
Arguments dial_http {W}.
Arguments dial_s3 {W}.
Arguments dial_gcs {W}.
Arguments tmp_name {W}.
Arguments rand_name {W}.
Arguments got {W}.
Arguments env {W}.
Arguments cwd {W}.
Arguments now {W}.
Arguments new_group {W}.
Arguments read_stdin {W}.
Arguments stdout {W}.
Arguments set_stdout {W}.

(** A store as storeFromLocation returns it, with its dynamic type. *)
Inductive Backend (W : Type) :=
| RemoteSSHStore (s : Store W)
| SFTPStoreB (client : SFTPClient W) (c : SFTPStoreBase) (n : Z)
| RemoteHTTPB (serve : Request -> W -> outcome Response * W) (net : Request -> nat -> Delivery) (r : RemoteHTTPBase)
| S3StoreB (client : S3Client W) (s : S3Store)
| GCStoreB (client : GCSClient W) (s : GCStore)
| LocalStoreB (s : LocalStore).
Arguments RemoteSSHStore {W}.
Arguments SFTPStoreB {W}.
Arguments RemoteHTTPB {W}.
Arguments S3StoreB {W}.
Arguments GCStoreB {W}.
Arguments LocalStoreB {W}.

Section cmdstore.

Context `{Codec} {W : Type} (m : Machine W) (cfg : Config) (entries : list (bytes * ConfOptions)) (alg : Algorithm).

(** The operations of a store, whatever its kind. *)
Definition backend_store (b : Backend W) : Store W :=
  match b with
  | RemoteSSHStore s => s
  | SFTPStoreB client c _ => sftp_store client c (rand_name m)
  | RemoteHTTPB serve net r => RemoteHTTP serve net r
  | S3StoreB client s => s3_store client s
  | GCStoreB client s => gcs_store client s
  | LocalStoreB s => lift_store (m_fs m) (m_set_fs m) (local_store s (tmp_name m (Base s)))
  end.

(** The bucket lookup of an S3 location. *)
Definition s3_lookup (loc : URL) : outcome bytes :=
  let ls := QueryGet loc (str "lookup") in
  if decide (ls = [] \/ ls = str "auto") then Ok (str "auto")
  else if decide (ls = str "dns" \/ ls = str "path") then Ok ls
  else Err (Errorf "unknown S3 bucket lookup type").

(** The pool of connections; the options of all are the same. *)
Fixpoint sftp_pool (n : nat) (loc : URL) : io W (list (SFTPClient W)) :=
  match n with
  | O => mret []
  | S n => c ← dial_sftp m loc; cs ← sftp_pool n loc; mret (c :: cs)
  end.

Definition storeFromLocation (location : bytes) (cmdOpt : cmdStoreOptions) : io W (Backend W) :=
  loc ← pure (Parse location);
  configOptions ← pure (GetStoreOptionsFor (cwd m) entries location);
  let opt := MergedWith cmdOpt configOptions in
  let o := co_store opt in
  let scheme := Scheme loc in
  if decide (scheme = str "ssh") then s ← dial_ssh m loc o; mret (RemoteSSHStore s)
  else if decide (scheme = str "sftp") then
    pool ← sftp_pool (Z.to_nat (N o)) loc;
    match pool with
    | client :: _ => mret (SFTPStoreB client (newSFTPStoreBase location (UPath loc) o) (N o))
    | [] => pure Panic                      (* no connection: every operation blocks *)
    end
  else if decide (scheme = str "http" \/ scheme = str "https") then
    r ← pure (NewRemoteHTTPStoreBase scheme (UPath loc) o (co_HTTPAuth opt));
    '(serve, net) ← pure (dial_http m loc opt);
    mret (RemoteHTTPB serve net r)
  else if decide (scheme = str "s3+http" \/ scheme = str "s3+https") then
    let '(s3Creds, region) := GetS3CredentialsFor (env m) cfg loc (now m) in
    lookup ← pure (s3_lookup loc);
    s ← pure (NewS3StoreBase location scheme (UPath loc) o);
    client ← pure (dial_s3 m loc s3Creds region lookup);
    mret (S3StoreB client s)
  else if decide (scheme = str "gs") then
    s ← pure (NewGCStoreBase location scheme (Host loc) (UPath loc) o);
    client ← pure (dial_gcs m loc);
    mret (GCStoreB client s)
  else
    fun w => match NewLocalStore (m_fs m w) location o with
             | Ok s => (Ok (LocalStoreB s), w)
             | Err e => (Err e, w)
             | Panic => (Panic, w)
             | NoFuel => (NoFuel, w)
             end.

(** A location may name several stores, separated by bars. *)
Fixpoint open_members (members : list bytes) (cmdOpt : cmdStoreOptions) : io W (list (Backend W)) :=
  match members with
  | [] => mret []
  | loc :: members => b ← storeFromLocation loc cmdOpt; bs ← open_members members cmdOpt; mret (b :: bs)
  end.

Definition bar : byte := Byte.x7c.

Definition storeGroup (location : bytes) (cmdOpt : cmdStoreOptions) : io W (Store W) :=
  if decide (bar ∉ location) then b ← storeFromLocation location cmdOpt; mret (backend_store b)
  else
    bs ← open_members (Split location bar) cmdOpt;
    mret (FailoverGroup (new_group m location (map backend_store bs))).

Fixpoint open_stores (storeLocations : list bytes) (cmdOpt : cmdStoreOptions) : io W (list (Store W)) :=
  match storeLocations with
  | [] => mret []
  | loc :: locs => s ← storeGroup loc cmdOpt; ss ← open_stores locs cmdOpt; mret (s :: ss)
  end.

Definition multiStoreWithRouter (cmdOpt : cmdStoreOptions) (storeLocations : list bytes) : io W (Store W) :=
  stores ← open_stores storeLocations cmdOpt; mret (StoreRouter stores).

(** The store, and its StoreChunk: the type assertion to a WriteStore. *)
Definition WritableStore (location : bytes) (cmdOpt : cmdStoreOptions)
  : io W (Backend W * (Chunk -> W -> option error * W)) :=
  b ← storeFromLocation location cmdOpt;
  match sStoreChunk (backend_store b) with
  | Some st => mret (b, st)
  | None => fails "store does not support writing"
  end.

(** UpdateTimes is set on a copy of a local cache, which has no effect. *)
Definition MultiStoreWithCache (cmdOpt : cmdStoreOptions) (cacheLocation : bytes) (storeLocations : list bytes)
  : io W (Store W) :=
  store ← multiStoreWithRouter cmdOpt storeLocations;
  if decide (cacheLocation = []) then mret store
  else
    '(cache, st) ← WritableStore cacheLocation cmdOpt;
    let cache := if cacheRepair cmdOpt then RepairableCache (backend_store cache) else backend_store cache in
    mret (Cache store cache st).

End cmdstore.

(** ** What opening a location promises *)

Section opening.

Context `{Codec} {W : Type} (m : Machine W) (cfg : Config) (entries : list (bytes * ConfOptions)).
Context (inv : W -> Prop) (Fails : error -> Prop).
Context (Fails_wrap : forall e msg, Fails e -> Fails (Wrapped e msg)).
Context (Fails_missing : forall i, ~ Fails (ChunkMissing i)).
Context (cmdOpt : cmdStoreOptions).
Abbreviation View := (W -> ChunkID -> option bytes).
Abbreviation opened := (storeFromLocation m cfg entries).

(** When the location can be opened, the store there is a source of [v]; opening it, as any read,
    changes no more than [R]. *)
Definition opens_as (R : relation W) (location : bytes) (v : View) : Prop :=
  forall w b w', inv w -> opened location cmdOpt w = (Ok b, w') ->
    inv w' /\ R w w' /\ Source inv Fails R (backend_store m b) v.

(** A location with bars names replicas. *)
Definition serves_as (R : relation W) (location : bytes) (v : View) : Prop :=
  if decide (bar ∉ location) then opens_as R location v
  else Forall (fun l => opens_as R l v) (Split location bar).

Definition sinks_as (R O : relation W) (location : bytes) (v : View) : Prop :=
  forall w b st w', inv w -> WritableStore m cfg entries location cmdOpt w = (Ok (b, st), w') ->
    inv w' /\ R w w' /\ Sink inv Fails R O (backend_store m b) v st.

(** New groups have a state of their own. *)
Definition groups_ok (R : relation W) : Prop :=
  forall loc stores, stores <> [] ->
    f_stores (new_group m loc stores) = stores /\ group_ok inv R (new_group m loc stores).

Section opens.

Context (R : relation W) `{!PreOrder R} (Hgroups : groups_ok R).

Lemma open_members_ok v members : forall w bs w', inv w -> Forall (fun l => opens_as R l v) members ->
  open_members m cfg entries members cmdOpt w = (Ok bs, w') ->
  inv w' /\ R w w' /\ length bs = length members /\
  Forall (fun s => Source inv Fails R s v) (map (backend_store m) bs).
Proof using PreOrder0.
  induction members as [|l members IH]; intros w bs w' Hi Hall; cbn [open_members].
  { intros [= <- <-]. by split_and!. }
  apply Forall_cons in Hall as [Hl Hall]. intros (b & w1 & E1 & E)%io_bind_inv.
  apply io_bind_inv in E as (bs' & w2 & E2 & [= <- <-]). destruct (Hl w b w1 Hi E1) as (Hi1 & HR1 & Hs).
  destruct (IH w1 bs' w2 Hi1 Hall E2) as (Hi2 & HR2 & Hlen & Hss). split_and!; [done|by etrans|cbn; lia|by constructor].
Qed.

Lemma storeGroup_ok location v w s w' : inv w -> serves_as R location v ->
  storeGroup m cfg entries location cmdOpt w = (Ok s, w') -> inv w' /\ R w w' /\ Source inv Fails R s v.
Proof using All.
  intros Hi. unfold serves_as, storeGroup. case_decide as Hbar.
  - intros Hl (b & w1 & E1 & [= <- <-])%io_bind_inv. by apply (Hl w).
  - intros Hl (bs & w1 & E1 & [= <- <-])%io_bind_inv.
    destruct (open_members_ok v _ w bs w1 Hi Hl E1) as (Hi1 & HR1 & Hlen & Hss). split_and!; [done|done|].
    assert (Hne : map (backend_store m) bs <> []).
    { destruct bs; [|done]. cbn in Hlen. pose proof (Split_nonempty location bar). by destruct (Split location bar). }
    destruct (Hgroups location _ Hne) as [Ef Hg].
    apply (failover_source inv Fails Fails_missing R _ v Hg); by rewrite Ef.
Qed.

Lemma open_stores_ok locations views : forall w stores w', inv w -> Forall2 (serves_as R) locations views ->
  open_stores m cfg entries locations cmdOpt w = (Ok stores, w') ->
  inv w' /\ R w w' /\ Forall2 (Source inv Fails R) stores views.
Proof using All.
  intros w stores w' Hi Hall. revert w stores w' Hi.
  induction Hall as [|l v locations views Hl Hall IH]; intros w stores w' Hi; cbn [open_stores].
  { intros [= <- <-]. by split_and!. }
  intros (s & w1 & E1 & E)%io_bind_inv. apply io_bind_inv in E as (ss & w2 & E2 & [= <- <-]).
  destruct (storeGroup_ok l v w s w1 Hi Hl E1) as (Hi1 & HR1 & Hs).
  destruct (IH w1 ss w2 Hi1 E2) as (Hi2 & HR2 & Hss). split_and!; [done|by etrans|by constructor].
Qed.

Lemma multiStoreWithRouter_ok locations views w s w' : inv w -> Forall2 (serves_as R) locations views ->
  multiStoreWithRouter m cfg entries cmdOpt locations w = (Ok s, w') ->
  inv w' /\ R w w' /\ Source inv Fails R s (union_view views).
Proof using All.
  intros Hi Hall (stores & w1 & E1 & [= <- <-])%io_bind_inv.
  destruct (open_stores_ok locations views w stores w1 Hi Hall E1) as (Hi1 & HR1 & Hs).
  split_and!; [done|done|]. by apply router_source.
Qed.

End opens.

(** C20. The store of a command's -s and -c options holds what the stores of the locations hold, the
    first that has a chunk deciding, with the cache in front of them; a location with bars is a group
    of replicas. It answers a request with verified data or with an error: that of a failing store, or
    that the chunk is missing, which is then the case in all of them. Using it changes nothing but the
    cache, which gets chunks it lacked from the stores. *)
Theorem MultiStoreWithCache_union (R O : relation W) `{!PreOrder R} `{!PreOrder O} cacheLocation locations vl views w s w' :
  inv w -> groups_ok R -> Forall2 (serves_as R) locations views -> cacheLocation <> [] ->
  sinks_as R O cacheLocation vl -> (forall w w', R w w' -> O w w') ->
  (forall w w', O w w' -> forall j, union_view views w' j = union_view views w j) ->
  (forall w i d, inv w -> union_view views w i = Some d -> d <> []) ->
  (cacheRepair cmdOpt = true -> forall e, Fails e -> as_ChunkInvalid e = None) ->
  MultiStoreWithCache m cfg entries cmdOpt cacheLocation locations w = (Ok s, w') ->
  inv w' /\ R w w' /\ Source inv Fails (fills O (union_view views) vl) s (union_view (vl :: views)).
Proof using Fails_missing Fails_wrap.
  intros Hi Hg Hall Hc Hsink HRO HO Hne Hrep (store & w1 & E1 & E)%io_bind_inv.
  destruct (multiStoreWithRouter_ok R Hg locations views w store w1 Hi Hall E1) as (Hi1 & HR1 & Hs).
  rewrite decide_False in E by done. apply io_bind_inv in E as ([b st] & w2 & E2 & [= <- <-]).
  destruct (Hsink w1 b st w2 Hi1 E2) as (Hi2 & HR2 & Hl). split_and!; [done|by etrans|].
  assert (Hl' : Sink inv Fails R O (if cacheRepair cmdOpt then RepairableCache (backend_store m b) else backend_store m b) vl st).
  { destruct (cacheRepair cmdOpt); [|done]. by apply repairable_sink; [apply Hrep|]. }
  pose proof (cache_source inv Fails Fails_wrap Fails_missing R O store _ (union_view views) vl st HRO HO Hne Hs Hl') as Hcache.
  eapply (source_view_ext inv Fails _ _ _ (union_view (vl :: views))); [| |exact Hcache].
  - intros w0 i _. cbn [union_view]. destruct (vl w0 i); [done|]. by destruct (union_view views w0 i).
  - intros w0 w3 [HO3 H3] j. cbn [union_view]. rewrite (HO w0 w3 HO3).
    destruct (H3 j) as [-> |[-> ->]]; [done|]. by destruct (union_view views w0 j).
Qed.

End opening.

(** ** Local paths *)

Section local_paths.

Context `{Codec} {W : Type} (m : Machine W) (cfg : Config) (entries : list (bytes * ConfOptions)).
Context (cmdOpt : cmdStoreOptions) (Hpart : part_ok (m_fs m) (m_set_fs m)).

(** The store a path stands for. *)
Definition local_at (location : bytes) (conf : ConfOptions) : LocalStore :=
  mkLocalStore location false (co_store (MergedWith cmdOpt conf)).

Lemma storeFromLocation_local location u conf w : Parse location = Ok u -> Scheme u = [] ->
  GetStoreOptionsFor (cwd m) entries location = Ok conf ->
  storeFromLocation m cfg entries location cmdOpt w =
    (match Stat (m_fs m w) location with
     | Some e => Err e
     | None => if decide (location ∈ dirs (m_fs m w)) then Ok (LocalStoreB (local_at location conf))
               else Err (Errorf "is not a directory")
     end, w).
Proof using Type.
  intros Hp Hs Hconf. unfold storeFromLocation, pure. rewrite Hp. unfold mbind, io_bind. rewrite Hconf.
  cbv zeta. rewrite Hs. rewrite !decide_False by (first [done | by intros [?|?]]). unfold NewLocalStore.
  destruct (Stat _ _); [done|]. by case_decide.
Qed.

Context (inv : W -> Prop) (Fails : error -> Prop).

Lemma local_source (R : relation W) `{!Reflexive R} s :
  (forall w, inv w -> store_ok s (m_fs m w)) ->
  (forall w w', R w w' -> forall j, LocalStore.local_view s (m_fs m w') j = LocalStore.local_view s (m_fs m w) j) ->
  Source inv Fails R (backend_store m (LocalStoreB s)) (fun w => LocalStore.local_view s (m_fs m w)).
Proof using Hpart.
  intros Hok HR.
  assert (ReadSpec inv (backend_store m (LocalStoreB s)) (fun w => LocalStore.local_view s (m_fs m w))) as Hspec.
  { pose proof (lift_read_spec _ _ Hpart _ _ _ (local_read_spec s (tmp_name m (Base s)))) as [H1 H2 H3].
    split; intros; [by apply H1; [apply Hok|]|by apply H2; [apply Hok|]|by apply H3, Hok]. }
  eapply flaky_source; [apply (read_spec_flaky inv Fails _ _ (fun w => w)), Hspec|done|].
  intros w w' _ _ _ ->. done.
Qed.

Lemma local_opens_as (R : relation W) `{!Reflexive R} location u conf :
  Parse location = Ok u -> Scheme u = [] -> GetStoreOptionsFor (cwd m) entries location = Ok conf ->
  (forall w, inv w -> store_ok (local_at location conf) (m_fs m w)) ->
  (forall w w', R w w' -> forall j, LocalStore.local_view (local_at location conf) (m_fs m w') j =
    LocalStore.local_view (local_at location conf) (m_fs m w) j) ->
  opens_as m cfg entries inv Fails cmdOpt R location (fun w => LocalStore.local_view (local_at location conf) (m_fs m w)).
Proof using Hpart.
  intros Hp Hs Hconf Hok HR w b w' Hi E. rewrite (storeFromLocation_local _ _ _ _ Hp Hs Hconf) in E.
  destruct (Stat _ _); [done|]. case_decide; [|done]. injection E as <- <-. split_and!; [done|done|].
  by apply local_source.
Qed.

(** Storing in a local store, next to whatever else [inv] is about. *)
Lemma local_sinks_as (R O : relation W) `{!Reflexive R} location u conf (v := fun w => LocalStore.local_view (local_at location conf) (m_fs m w)) :
  Parse location = Ok u -> Scheme u = [] -> GetStoreOptionsFor (cwd m) entries location = Ok conf ->
  (forall w, inv w -> store_ok (local_at location conf) (m_fs m w)) ->
  (forall w w', R w w' -> forall j, v w' j = v w j) ->
  tmp_ok (local_at location conf) (tmp_name m location) ->
  (forall c i d w fs', inv w -> holds c i d -> d <> [] ->
     StoreChunk (local_at location conf) (tmp_name m location) None c (m_fs m w) = (None, fs') ->
     inv (m_set_fs m fs' w) /\ O w (m_set_fs m fs' w)) ->
  sinks_as m cfg entries inv Fails cmdOpt R O location v.
Proof using Hpart.
  intros Hp Hs Hconf Hok HR Htmp HO w b st w' Hi E. unfold WritableStore in E.
  apply io_bind_inv in E as (b' & w1 & E1 & E). rewrite (storeFromLocation_local _ _ _ _ Hp Hs Hconf) in E1.
  destruct (Stat _ _); [done|]. case_decide; [|done]. injection E1 as <- <-. cbn in E. injection E as <- <- <-.
  split_and!; [done|done|]. split; [by apply local_source|done|]. intros c i d w2 e w3 Hi2 Hh Hd E.
  pose proof (local_write_spec (local_at location conf) (tmp_name m location) Htmp) as Hspec.
  destruct (spec_store _ (WriteSpec := Hspec) c i d (m_fs m w2) (Hok _ Hi2) Hh Hd) as (fs' & Hst & H1 & H2 & H3 & _).
  unfold on_part in E. cbn [Base local_at] in E, Hst. rewrite Hst in E. injection E as <- <-.
  destruct (HO c i d w2 fs' Hi2 Hh Hd Hst) as [H4 H5]. unfold v. split_and!; [done| |done|].
  - intros j Hj. rewrite (part_get_set _ _ Hpart). by apply H3.
  - by rewrite (part_get_set _ _ Hpart).
Qed.

End local_paths.

(** ** Buckets *)

(** An S3 location: its client is dialled with the credentials of the environment or of the
    configuration, and the store is the bucket and prefix of the path. *)
Lemma storeFromLocation_s3 `{Codec} {W} (m : Machine W) cfg entries cmdOpt location u conf creds region lookup s client w :
  Parse location = Ok u -> Scheme u = str "s3+http" \/ Scheme u = str "s3+https" ->
  GetStoreOptionsFor (cwd m) entries location = Ok conf ->
  GetS3CredentialsFor (env m) cfg u (now m) = (creds, region) -> s3_lookup u = Ok lookup ->
  NewS3StoreBase location (Scheme u) (UPath u) (co_store (MergedWith cmdOpt conf)) = Ok s ->
  dial_s3 m u creds region lookup = Ok client ->
  storeFromLocation m cfg entries location cmdOpt w = (Ok (S3StoreB client s), w).
Proof.
  intros Hp Hs Hconf Hcreds Hl Hb Hd. unfold storeFromLocation, pure. rewrite Hp. unfold mbind, io_bind.
  rewrite Hconf. cbv zeta.
  rewrite (decide_False (P := Scheme u = str "ssh")) by (destruct Hs as [-> | ->]; done).
  rewrite (decide_False (P := Scheme u = str "sftp")) by (destruct Hs as [-> | ->]; done).
  rewrite (decide_False (P := Scheme u = str "http" \/ _)) by (destruct Hs as [-> | ->]; by intros [?|?]).
  rewrite decide_True by done. by rewrite Hcreds, Hl, Hb, Hd.
Qed.

Lemma s3_opens_as `{Codec} {W} (m : Machine W) cfg entries cmdOpt inv Fails (R : relation W) `{!Reflexive R}
  location u conf creds region lookup s client v {A} (other : W -> A) :
  Parse location = Ok u -> Scheme u = str "s3+http" \/ Scheme u = str "s3+https" ->
  GetStoreOptionsFor (cwd m) entries location = Ok conf ->
  GetS3CredentialsFor (env m) cfg u (now m) = (creds, region) -> s3_lookup u = Ok lookup ->
  NewS3StoreBase location (Scheme u) (UPath u) (co_store (MergedWith cmdOpt conf)) = Ok s ->
  dial_s3 m u creds region lookup = Ok client ->
  FlakyRead inv Fails (s3_store client s) v other ->
  (forall w w', R w w' -> forall j, v w' j = v w j) ->
  (forall w w', inv w -> inv w' -> (forall j, v w' j = v w j) -> other w' = other w -> R w w') ->
  opens_as m cfg entries inv Fails cmdOpt R location v.
Proof.
  intros Hp Hs Hconf Hcreds Hl Hb Hd Hf HR HR' w b w' Hi E.
  rewrite (storeFromLocation_s3 m cfg entries cmdOpt location u conf creds region lookup s client w) in E by done.
  injection E as <- <-. split_and!; [done|done|]. by eapply flaky_source.
Qed.

(** ** Local stores next to each other *)

(** No file or directory of the one is a file of the other. *)
Record apart `{Codec} (s t : LocalStore) (tmp : bytes) : Prop := {
  ap_names i j : snd (nameFromID s i) <> snd (nameFromID t j);
  ap_dirs i j : snd (nameFromID s i) <> fst (nameFromID t j);
  ap_tmp : tmp_ok s tmp
}.

Lemma apart_store `{Codec} s t tmp c i d fs fs' :
  apart s t tmp -> tmp_ok t tmp -> store_ok t fs -> holds c i d -> d <> [] ->
  StoreChunk t tmp None c fs = (None, fs') -> store_ok s fs ->
  store_ok s fs' /\ forall j, LocalStore.local_view s fs' j = LocalStore.local_view s fs j.
Proof.
  intros [H1 H2 H3] Ht Htok Hh Hd E Hok.
  destruct (StoreChunk_spec t tmp c i d fs Ht Htok Hh Hd) as (b & _ & _ & E'). rewrite E' in E. injection E as <-.
  assert (Hl : forall j, files (after_rename (after_write (after_mkdir fs (fst (nameFromID t i))) tmp b (length b)) tmp
    (snd (nameFromID t i)) b) !! snd (nameFromID s j) = files fs !! snd (nameFromID s j)).
  { intros j. cbn [after_rename after_write after_mkdir files]. pose proof (H3 j).
    rewrite lookup_insert_ne by (pose proof (H1 j i); congruence).
    by rewrite lookup_delete_ne, lookup_insert_ne by congruence. }
  split; [|intros j; unfold LocalStore.local_view; by rewrite Hl]. destruct Hok as [Hb Hdirs Hfiles]. split; [done| |].
  - intros j. cbn [after_rename after_write after_mkdir dirs]. rewrite not_elem_of_union, not_elem_of_singleton. split; [apply H2|apply Hdirs].
  - intros j x. rewrite Hl. apply Hfiles.
Qed.

(** Bases of the same length are apart. *)
Lemma base_differs (a b r r' : bytes) : length a = length b -> a <> b -> a ++ r <> b ++ r'.
Proof. intros Hl Hne E. apply Hne. by apply app_inj_1 in E as [? _]. Qed.

Lemma apart_bases `{Codec} s t tmp r : length (Base s) = length (Base t) -> Base s <> Base t -> tmp = Base t ++ r ->
  apart s t tmp.
Proof.
  intros Hl Hne ->. assert (Hs : forall i, exists x, snd (nameFromID s i) = Base s ++ x).
  { intros i. unfold nameFromID, local_nameFromID. cbv zeta. cbn [snd]. destruct (Uncompressed (Opt s)); rewrite <- !app_assoc; eauto. }
  split.
  - intros i j. destruct (Hs i) as [x ->]. unfold nameFromID, local_nameFromID. cbv zeta. cbn [snd].
    destruct (Uncompressed (Opt t)); rewrite <- !app_assoc; by apply base_differs.
  - intros i j. destruct (Hs i) as [x ->]. unfold nameFromID, local_nameFromID. cbv zeta. cbn [fst]. by apply base_differs.
  - intros i. destruct (Hs i) as [x ->]. intros E. by eapply (base_differs (Base s) (Base t)).
Qed.

(** ** An example: two stores, one of them a group of replicas, and a cache on the local disk *)

Definition ExDisk : Type := FileSystem * gmap bytes nat.

Definition ex_failover (loc : bytes) (stores : list (Store ExDisk)) : Failover ExDisk :=
  mkFailover stores (fun w => (default 0 (snd w !! loc) `mod` length stores)%nat)
    (fun k w => (fst w, <[loc := k]> (snd w))).

Definition ex_machine : Machine ExDisk :=
  mkMachine ExDisk fst (fun fs w => (fs, snd w))
    (fun _ _ => fails "no network") (fun _ => fails "no network") (fun _ _ => Err (Errorf "no network"))
    (fun _ _ _ _ => Err (Errorf "no network")) (fun _ => Err (Errorf "no network"))
    (fun dir => dir ++ str "/.tmp-cacnk1") (str "1") [] (fun _ => []) (str "/") 0 ex_failover
    (fun w => ([], w)) (fun _ => mkWriter [] None ErrUnexpectedEOF) (fun _ w => w).

Definition ex_cmdopt : cmdStoreOptions := mkCmdOptions 10 [] [] [] false false true 3 500000000 ∅.

Definition ex_A : LocalStore := local_at ex_cmdopt (str "/a") DefaultConfOptions.
Definition ex_B : LocalStore := local_at ex_cmdopt (str "/b") DefaultConfOptions.
Definition ex_C : LocalStore := local_at ex_cmdopt (str "/c") DefaultConfOptions.

Section example.

#[local] Instance ex_codec_cmd : Codec := toy_codec.

(** The replicas have the chunk, in its stored form. *)
Definition ex_stored : bytes := match toStorage [Compressor] (str "data") with Ok b => b | _ => [] end.

(** An index that references it. *)
Definition ex_idxfile : Index :=
  mkIndex (mkHeader 48 CaFormatIndex) (FeatureFlags ex_index) 16 64 256 [mkIndexChunk ex_id 0 4].

Definition ex_indexes_dir : LocalIndexStore := mkLocalIndexStore (str "/idx/").

Definition ex_disk : ExDisk :=
  (mkFS {[ snd (nameFromID ex_B ex_id) := ex_stored; str "/idx/a.caibx" := index_bytes ex_idxfile ]}
    {[ str "/a"; str "/b"; str "/c"; str "/idx" ]} ∅, ∅).

Definition ex_inv (w : ExDisk) : Prop :=
  (store_ok ex_A (fst w) /\ store_ok ex_B (fst w) /\ store_ok ex_C (fst w)) /\
  indexes_only SHA512_256 ex_indexes_dir (fst w) /\ str "/idx" ∈ dirs (fst w) /\
  files (fst w) !! str "/idx/a.caibx" = Some (index_bytes ex_idxfile).

Definition ex_same (w w' : ExDisk) : Prop := fst w' = fst w.

Definition ex_views : list (ExDisk -> ChunkID -> option bytes) :=
  [fun w => LocalStore.local_view ex_A (fst w); fun w => LocalStore.local_view ex_B (fst w)].

Definition ex_others (w w' : ExDisk) : Prop := forall j, union_view ex_views w' j = union_view ex_views w j.

Definition ex_open : io ExDisk (Store ExDisk) :=
  MultiStoreWithCache ex_machine (mkConfig ∅ ∅) [] ex_cmdopt (str "/c") [str "/a"; str "/b|/b"].

Lemma ex_part : part_ok (m_fs ex_machine) (m_set_fs ex_machine).
Proof. split; [done|by intros []|done]. Qed.

#[export] Instance ex_same_preorder : PreOrder ex_same.
Proof. split; [done|]. intros w1 w2 w3 H1 H2. unfold ex_same in *. congruence. Qed.

#[export] Instance ex_others_preorder : PreOrder ex_others.
Proof. split; [done|]. intros w1 w2 w3 H1 H2 j. by rewrite H2. Qed.

Lemma ex_groups : groups_ok ex_machine ex_inv ex_same.
Proof.
  intros loc stores Hne. split; [done|]. split.
  - intros w _. apply Nat.mod_upper_bound. by destruct stores.
  - intros k w Hi _. done.
Qed.

Lemma ex_tmp_c : tmp_ok ex_C (tmp_name ex_machine (str "/c")).
Proof. apply tmp_ok_prefix. by vm_compute. Qed.

Lemma ex_sinks : sinks_as ex_machine (mkConfig ∅ ∅) [] ex_inv (fun _ => False) ex_cmdopt ex_same ex_others (str "/c")
  (fun w => LocalStore.local_view ex_C (fst w)).
Proof.
  eapply (local_sinks_as ex_machine (mkConfig ∅ ∅) [] ex_cmdopt ex_part ex_inv (fun _ => False) ex_same ex_others (str "/c")
    (mkURL [] None [] (str "/c") [] (str "/c")) DefaultConfOptions); [vm_compute; reflexivity|done|done|by intros w ((_ & _ & ?) & _)| | |].
  - intros w w' E j. change (m_fs ex_machine w') with (fst w'). by rewrite E.
  - apply ex_tmp_c.
  - intros c i d w fs' ((HA & HB & HC) & [HX1 HX2] & HD & HF) Hh Hd E.
    destruct (apart_store ex_A ex_C (tmp_name ex_machine (str "/c")) c i d (fst w) fs') as [H1 H2]; try done.
    { apply ex_tmp_c. }
    destruct (apart_store ex_B ex_C (tmp_name ex_machine (str "/c")) c i d (fst w) fs') as [H3 H4]; try done.
    { apply ex_tmp_c. }
    destruct (spec_store _ (WriteSpec := local_write_spec ex_C _ ex_tmp_c) c i d (fst w) HC Hh Hd) as (fs2 & E2 & H5 & _).
    change (m_fs ex_machine w) with (fst w) in E. change (local_at ex_cmdopt (str "/c") DefaultConfOptions) with ex_C in E.
    destruct (StoreChunk_spec ex_C _ c i d (fst w) ex_tmp_c HC Hh Hd) as (b & _ & _ & E3). rewrite E2 in E3.
    rewrite E2 in E. injection E as <-. split; [split; [by split_and!|]|].
    { injection E3 as ->. split; [split; [done|]|split; [by apply elem_of_union_r|]]; [intros n0 b0|];
        cbn [after_rename after_write after_mkdir files m_set_fs ex_machine fst];
        (rewrite lookup_insert_ne by done); (rewrite lookup_delete_ne, lookup_insert_ne by done); [apply HX2|exact HF]. }
    intros j. cbn [ex_views union_view fst m_set_fs ex_machine].
    by rewrite H2, H4.
Qed.

Lemma ex_opens l (v := fun w : ExDisk => LocalStore.local_view (local_at ex_cmdopt l DefaultConfOptions) (fst w)) :
  l = str "/a" \/ l = str "/b" -> opens_as ex_machine (mkConfig ∅ ∅) [] ex_inv (fun _ => False) ex_cmdopt ex_same l v.
Proof.
  intros Hl. eapply (local_opens_as ex_machine (mkConfig ∅ ∅) [] ex_cmdopt ex_part ex_inv (fun _ => False) ex_same l
    (mkURL [] None [] l [] l) DefaultConfOptions); [by destruct Hl as [-> | ->]; vm_compute|done|done| |].
  - intros w ((HA & HB & _) & _). by destruct Hl as [-> | ->].
  - intros w w' E j. change (m_fs ex_machine w') with (fst w'). by rewrite E.
Qed.

Lemma ex_cmd_serves : Forall2 (serves_as ex_machine (mkConfig ∅ ∅) [] ex_inv (fun _ => False) ex_cmdopt ex_same)
  [str "/a"; str "/b|/b"] ex_views.
Proof.
  constructor; [|constructor; [|constructor]]; unfold serves_as.
  - rewrite decide_True by (apply (bool_decide_unpack _); by vm_compute). apply (ex_opens (str "/a")). by left.
  - rewrite decide_False by (apply (bool_decide_unpack _); by vm_compute).
    change (Split (str "/b|/b") bar) with [str "/b"; str "/b"].
    constructor; [|constructor; [|constructor]]; apply (ex_opens (str "/b")); by right.
Qed.

Lemma ex_idxfile_wf : well_formed_index SHA512_256 ex_idxfile.
Proof.
  split.
  - apply ex_index_wf.
  - split; [vm_range|]. split; vm_range.
  - reflexivity.
  - repeat (split; [first [reflexivity | vm_range]|]). exact I.
  - repeat constructor; by vm_compute.
Qed.

Lemma ex_disk_ok : ex_inv ex_disk.
Proof.
  assert (Hlong : forall s i, Opt s = Opt ex_A -> (10 <= length (Base s) + 8 <= length (snd (nameFromID s i)))%nat \/ length (Base s) <> 2%nat).
  { intros s i Ho. destruct (decide (length (Base s) = 2%nat)) as [Hl|]; [left|by right].
    unfold nameFromID, local_nameFromID. cbv zeta. rewrite Ho. change (Uncompressed (Opt ex_A)) with false. cbv iota. cbn [snd].
    rewrite !length_app, Hl. change (length CompressedChunkExt) with 6%nat. change (length (str "/")) with 1%nat. lia. }
  assert (Hdir : forall s i, Opt s = Opt ex_A -> length (Base s) = 2%nat -> snd (nameFromID s i) ∉ dirs (fst ex_disk)).
  { intros s i Ho Hl Hin. destruct (Hlong s i Ho) as [[_ E]|]; [|done].
    cbn [ex_disk fst dirs] in Hin. set_unfold in Hin. destruct Hin as [[[Hx|Hx]|Hx]|Hx]; rewrite Hx in E; cbn in E; lia. }
  assert (Hidx : forall s i, Base s ∈ [str "/a"; str "/b"; str "/c"] -> snd (nameFromID s i) <> str "/idx/a.caibx").
  { intros s i Hb E. unfold nameFromID, local_nameFromID in E. cbv zeta in E. cbn [snd] in E.
    destruct (Uncompressed (Opt s)); rewrite <- !app_assoc in E; set_unfold in Hb; destruct Hb as [Hb|[Hb|[Hb|[]]]]; rewrite Hb in E; discriminate. }
  assert (Hempty : forall s, Opt s = Opt ex_A -> Base s ∈ [str "/a"; str "/c"] -> store_ok s (fst ex_disk)).
  { intros s Ho Hb. assert (Hl : length (Base s) = 2%nat) by (set_unfold in Hb; by destruct Hb as [-> |[-> |[]]]).
    split; [done|by intros i; apply Hdir|]. intros i b. cbn [ex_disk fst files].
    assert (snd (nameFromID ex_B ex_id) <> snd (nameFromID s i)).
    { intros E. symmetry in E. revert E. apply (ap_names s ex_B (str "/b/t")). apply (apart_bases _ _ _ (str "/t")); [by rewrite Hl| |reflexivity].
      intros E. rewrite E in Hb. set_unfold in Hb. by destruct Hb as [?|[?|[]]]. }
    assert (str "/idx/a.caibx" <> snd (nameFromID s i)).
    { intros E. symmetry in E. revert E. apply Hidx. set_unfold in Hb. set_unfold. tauto. }
    rewrite lookup_insert_ne by done. by rewrite lookup_singleton_ne by done. }
  split; [split_and!|split; [split; [done|]|split]].
  - apply Hempty; [done|by left].
  - split; [done|by intros i; apply Hdir|]. intros i b. cbn [ex_disk fst files]. intros E.
    rewrite lookup_insert_Some, lookup_singleton_Some in E. destruct E as [[E <-]|[_ [E _]]].
    + apply nameFromID_inj in E as <-. exists (str "data"). by split_and!.
    + symmetry in E. by apply Hidx in E; [|right; left].
  - apply Hempty; [done|by right; left].
  - intros n0 b. cbn [ex_disk fst files]. rewrite lookup_insert_ne by done. intros [_ <-]%lookup_singleton_Some.
    exists ex_idxfile. split_and!; [exact ex_idxfile_wf|by vm_compute|done].
  - refine (bool_decide_unpack _ _). by vm_compute.
  - cbn [ex_disk fst files]. rewrite lookup_insert_ne by done. apply lookup_singleton_eq.
Qed.

Lemma ex_views_nonempty w i d : ex_inv w -> union_view ex_views w i = Some d -> d <> [].
Proof.
  intros ((HA & HB & _) & _). cbn [ex_views union_view]. unfold LocalStore.local_view.
  destruct (files (fst w) !! snd (nameFromID ex_A i)) as [b|] eqn:Ea.
  - destruct (ok_files _ _ HA i b Ea) as (d' & _ & -> & Hne & _). by intros [= <-].
  - destruct (files (fst w) !! snd (nameFromID ex_B i)) as [b|] eqn:Eb; [|done].
    destruct (ok_files _ _ HB i b Eb) as (d' & _ & -> & Hne & _). by intros [= <-].
Qed.

Lemma MultiStoreWithCache_union_witness :
  exists s w', ex_open ex_disk = (Ok s, w') /\ ex_inv w' /\
    Source ex_inv (fun _ => False) (fills ex_others (union_view ex_views) (fun w => LocalStore.local_view ex_C (fst w))) s
      (union_view ((fun w => LocalStore.local_view ex_C (fst w)) :: ex_views)).
Proof.
  destruct (ex_open ex_disk) as [r w'] eqn:E. assert (Hok : is_ok r = true).
  { change r with (fst (r, w')). rewrite <- E. vm_compute. reflexivity. }
  destruct r as [s| | |]; [|discriminate..]. exists s, w'. split; [done|].
  destruct (MultiStoreWithCache_union ex_machine (mkConfig ∅ ∅) [] ex_inv (fun _ => False) (fun _ _ f => f) (fun _ f => f)
    ex_cmdopt ex_same ex_others (str "/c") [str "/a"; str "/b|/b"] (fun w => LocalStore.local_view ex_C (fst w)) ex_views
    ex_disk s w') as (H1 & _ & H2); [exact ex_disk_ok|exact ex_groups|exact ex_cmd_serves|discriminate|exact ex_sinks| | | | |exact E|done].
  - intros w w2 Hs j. cbn [ex_views union_view]. by rewrite Hs.
  - done.
  - exact ex_views_nonempty.
  - done.
Defined.

End example.
