(* ===== verification/CmdIndex.v ===== *)
(** * CmdIndex: from locations to indexes (store.go of cmd/desync)

    Reading and writing the index named on the command line: the last element of the location is the
    name, the rest the store. The theorem is the round trip through a file; the lemmas before it are the
    same for any store of indexes, from what the store promises (IndexSpec). *)

From S2P Require Import Prelude Format Index Chunk Names Path Url Stores LocalStore Config Http HttpIndex Objects Sftp.
From S2P Require Import IndexStores CmdStore.

Section cmdindex.

Context {W : Type} (m : Machine W) (cfg : Config) (entries : list (bytes * ConfOptions)) (alg : Algorithm).

(** Standard input and output as a store. *)
Definition console_Get (_ : bytes) : io W Index := fun w =>
  let '(b, w) := read_stdin m w in (ConsoleGetIndex alg b, w).

Definition console_Store (_ : bytes) (idx : Index) (w : W) : option error * W :=
  let '(e, out) := ConsoleStoreIndex idx (stdout m w) in (e, set_stdout m out w).

Definition ConsoleIndex : IndexStore W :=
  mkIndexStore (fun _ w => let '(b, w) := read_stdin m w in (Ok b, w)) console_Get (Some console_Store).

(** What the configuration is asked for: the location without its last element. *)
Definition base_location (location : bytes) : bytes :=
  match CutLast location slash with
  | Some (a, _) => a
  | None => match CutLast location (chr "\") with Some (a, _) => a | None => [] end
  end.

Definition indexStoreFromLocation (location : bytes) (cmdOpt : cmdStoreOptions) : io W (IndexStore W * bytes) :=
  loc ← pure (Parse location);
  let indexName := Path.Base (UPath loc) in
  let p := mkURL (Scheme loc) (Username loc) (Host loc) (Dir (UPath loc)) (RawQuery loc) (rawURL loc) in
  configOptions ← pure (GetStoreOptionsFor (cwd m) entries (base_location location));
  let opt := MergedWith cmdOpt configOptions in
  let o := co_store opt in
  let scheme := Scheme loc in
  if decide (scheme = str "ssh") then fails "Index storage is not supported by ssh remote stores"
  else if decide (scheme = str "sftp") then
    client ← dial_sftp m p;
    mret (SFTPIndexStore alg (got m) (rand_name m) client (newSFTPStoreBase location (UPath p) o), indexName)
  else if decide (scheme = str "http" \/ scheme = str "https") then
    r ← pure (NewRemoteHTTPStoreBase scheme (UPath p) o (co_HTTPAuth opt));
    '(serve, net) ← pure (dial_http m p opt);
    mret (RemoteHTTPIndex alg serve net r, indexName)
  else if decide (scheme = str "s3+http" \/ scheme = str "s3+https") then
    let '(s3Creds, region) := GetS3CredentialsFor (env m) cfg p (now m) in
    lookup ← pure (s3_lookup loc);
    s ← pure (NewS3StoreBase location scheme (UPath p) o);
    client ← pure (dial_s3 m p s3Creds region lookup);
    mret (S3IndexStore alg (got m) client s, indexName)
  else if decide (scheme = str "gs") then
    s ← pure (NewGCStoreBase location scheme (Host loc) (UPath p) o);
    client ← pure (dial_gcs m p);
    mret (GCIndexStore alg (got m) client s, indexName)
  else if decide (location = str "-") then mret (ConsoleIndex, indexName)
  else fun w =>
    match NewLocalIndexStore (m_fs m w) (Dir location) with
    | Ok s => (Ok (lift_index (m_fs m) (m_set_fs m) (LocalIndexes alg s), Path.Base location), w)
    | Err e => (Err e, w)
    | Panic => (Panic, w)
    | NoFuel => (NoFuel, w)
    end.

Definition writableIndexStore (location : bytes) (cmdOpt : cmdStoreOptions)
  : io W ((bytes -> Index -> W -> option error * W) * bytes) :=
  '(s, indexName) ← indexStoreFromLocation location cmdOpt;
  match ixStoreIndex s with
  | Some st => mret (st, indexName)
  | None => fails "index store does not support writing"
  end.

Definition readCaibxFile (location : bytes) (cmdOpt : cmdStoreOptions) : io W Index :=
  '(is_, indexName) ← indexStoreFromLocation location cmdOpt;
  (fun w => match ixGetIndex is_ indexName w with
            | (Err e, w) => (Err (Wrapped e "location"), w)
            | r => r
            end) : io W Index.

Definition storeCaibxFile (idx : Index) (location : bytes) (cmdOpt : cmdStoreOptions) : io W unit :=
  '(st, indexName) ← writableIndexStore location cmdOpt;
  call (st indexName idx).

(** A location that opens, without changing the world, as a store of indexes. *)
Definition indexes_at (inv : W -> Prop) (cmdOpt : cmdStoreOptions) (location : bytes) (is_ : IndexStore W) (name : bytes)
  (view : W -> bytes -> option Index) (st : bytes -> Index -> W -> option error * W) : Prop :=
  (forall w, inv w -> indexStoreFromLocation location cmdOpt w = (Ok (is_, name), w)) /\
  IndexSpec alg inv is_ view st /\ valid_name name.

Lemma readCaibxFile_view inv cmdOpt location is_ name view st i w :
  indexes_at inv cmdOpt location is_ name view st -> inv w -> view w name = Some i ->
  readCaibxFile location cmdOpt w = (Ok i, w).
Proof using Type.
  intros (Ho & Hs & _) Hi Hv. unfold readCaibxFile, mbind, io_bind. rewrite (Ho w Hi). cbn.
  by rewrite (ispec_get alg inv name i w Hi Hv).
Qed.

Lemma storeCaibx_view inv cmdOpt location is_ name view st idx w :
  indexes_at inv cmdOpt location is_ name view st -> inv w -> well_formed_index alg idx ->
  exists w', storeCaibxFile idx location cmdOpt w = (Ok tt, w') /\ inv w' /\
    view w' name = Some (stored idx) /\
    forall n, n <> name -> view w' n = view w n.
Proof using Type.
  intros Hat Hi Hidx. pose proof Hat as (Ho & Hs & Hn).
  destruct (ispec_store alg inv name idx w Hi Hn Hidx) as (w' & Hst & Hi' & Hv & Hother).
  exists w'. split_and!; [|done|done|done].
  unfold storeCaibxFile, writableIndexStore, mbind, io_bind. rewrite (Ho w Hi). cbn.
  rewrite (ispec_write alg inv (IndexSpec := Hs)). cbn. unfold call. by rewrite Hst.
Qed.

(** Files of a directory. *)
Context (Hpart : part_ok (m_fs m) (m_set_fs m)).

Lemma lift_index_spec inv s v st :
  IndexSpec alg inv s v st ->
  IndexSpec alg (fun w => inv (m_fs m w)) (lift_index (m_fs m) (m_set_fs m) s) (fun w => v (m_fs m w))
    (fun n i => on_part (m_fs m) (m_set_fs m) (st n i)).
Proof using Hpart.
  intros Hs. split; cbn [lift_index ixGetIndex ixStoreIndex]; unfold on_part.
  - intros n i w Hi Hv. by rewrite (ispec_get alg inv n i _ Hi Hv), (part_set_get _ _ Hpart).
  - intros n w Hi Hv. by rewrite (ispec_missing alg inv n _ Hi Hv), (part_set_get _ _ Hpart).
  - by rewrite (ispec_write alg inv).
  - intros n i w Hi Hn Hw. destruct (ispec_store alg inv n i _ Hi Hn Hw) as (x & -> & H1 & H2 & H3).
    exists (m_set_fs m x w). rewrite !(part_get_set _ _ Hpart). done.
  - intros n i w Hi. by apply (ispec_wf alg inv).
Qed.

Lemma local_indexes_at cmdOpt location u conf :
  Parse location = Ok u -> Scheme u = [] -> location <> str "-" ->
  GetStoreOptionsFor (cwd m) entries (base_location location) = Ok conf -> valid_name (Path.Base location) ->
  let s := mkLocalIndexStore (if HasSuffix (Dir location) (str "/") then Dir location else Dir location ++ str "/") in
  indexes_at (fun w => indexes_only alg s (m_fs m w) /\ Dir location ∈ dirs (m_fs m w)) cmdOpt location
    (lift_index (m_fs m) (m_set_fs m) (LocalIndexes alg s)) (Path.Base location)
    (fun w => HttpIndex.local_view alg s (m_fs m w))
    (fun n i => on_part (m_fs m) (m_set_fs m) (local_StoreIndex s n i)).
Proof using Hpart.
  intros Hp Hs Hdash Hconf Hn s. split_and!; [| |done].
  - intros w [_ Hd]. unfold indexStoreFromLocation, pure. rewrite Hp. unfold mbind, io_bind. rewrite Hconf.
    cbv zeta. rewrite Hs. rewrite (decide_False (P := location = str "-")) by done.
    rewrite !decide_False by (first [done | by intros [?|?]]). unfold NewLocalIndexStore. by rewrite decide_True.
  - pose proof (lift_index_spec _ _ _ _ (local_index_spec alg s)) as [H1 H2 H3 H4 H5].
    split; [by intros n i w [Hi _]; apply H1|by intros n w [Hi _]; apply H2|done| |by intros n i w [Hi _]; apply H5].
    intros n i w [Hi Hd] Hv Hw. destruct (H4 n i w Hi Hv Hw) as (w' & E & H6 & H7 & H8). exists w'. split_and!; try done.
    unfold on_part, local_StoreIndex, StoreIndex in E. destruct (WriteTo i _) as [r wr] in E.
    injection E as _ <-. by rewrite (part_get_set _ _ Hpart).
Qed.

(** The directory part and the name of a location make the file the location names. *)
Lemma index_path_clean location :
  valid_name (Path.Base location) -> last location <> Some slash ->
  Clean ((if HasSuffix (Dir location) (str "/") then Dir location else Dir location ++ str "/") ++ Path.Base location)
  = Clean location.
Proof.
  intros Hn Hl. rewrite <- (Join_Dir_Base location Hl Hn). pose proof (Clean_ne (dir_part location)) as Hne.
  change (Clean (dir_part location)) with (Dir location) in Hne. rewrite Join_ne by (done || apply Hn).
  destruct (HasSuffix (Dir location) (str "/")) eqn:Hs; [|by rewrite <- app_assoc].
  apply HasSuffix_split in Hs as [d Hd]. change (str "/") with [slash] in Hd. rewrite Hd.
  destruct (decide (d = [])) as [->|Hd0]; [|by rewrite Clean_slashes, <- app_assoc]. cbn [app].
  unfold Clean. change (rooted (slash :: slash :: ?c)) with (rooted (slash :: c)).
  f_equal.
Qed.


End cmdindex.

(** ** Example: an index in a directory, written and read *)

