(* ===== verification/Commands.v ===== *)
(** * Commands: what the commands do with stores and indexes (cmd/desync)

    prune, cache, list-chunks and inspect-chunks: reading the indexes of the arguments,
    opening the stores with CmdStore.v, and running the library's functions on them. A command is a
    function of the options and arguments in [io]; one that ends in a pool of workers returns what the
    pool is started with. Output goes to the value returned. A Go map that is iterated over is a set
    whose elements come in some order. *)

From S2P Require Import Prelude Text Format Index Chunk Names Path Url Stores Composition LocalStore Config Http HttpIndex.
From S2P Require Import Objects Sftp IndexStores CmdStore CmdIndex Pool Pipelines.

(** Where listing a store gets its entries from, and the local files that cannot be removed. *)
Record Listings (W : Type) := mkListings {
  walk_local : LocalStore -> W -> list (bool * bytes);
  rm_local : W -> bytes -> option error;
  list_s3 : S3Store -> W -> list (outcome bytes);
  list_gcs : GCStore -> W -> list (outcome bytes);
  walk_sftp : SFTPStoreBase -> W -> list Sftp.Step;
  order : gset bytes -> list bytes                           (* of iterating over a map *)
}.
Arguments walk_local {W}.
Arguments rm_local {W}.
Arguments list_s3 {W}.
Arguments list_gcs {W}.
Arguments walk_sftp {W}.
Arguments order {W}.

Section commands.

Context `{Codec} {W : Type} (m : Machine W) (ls : Listings W) (cfg : Config) (entries : list (bytes * ConfOptions))
  (alg : Algorithm).

Abbreviation opened := (storeFromLocation m cfg entries).
Abbreviation readIndex := (readCaibxFile m cfg entries alg).

(** [if err := opt.validate(); err != nil] *)
Definition check_options (e : option error) : io W unit := pure (match e with Some e => Err e | None => Ok tt end).

(** The chunk IDs of the indexes, merged. *)
Fixpoint merge_ids (args : list bytes) (cmdOpt : cmdStoreOptions) (ids : gset bytes) : io W (gset bytes) :=
  match args with
  | [] => mret ids
  | name :: args =>
    c ← readIndex name cmdOpt;
    merge_ids args cmdOpt (list_to_set (map ID (Chunks c)) ∪ ids)
  end.

(** ** prune (prune.go) *)

(** The type assertion to a PruneStore. A pool with a single connection never returns. *)
Definition prune_of (b : Backend W) : option (gset bytes -> io W unit) :=
  match b with
  | LocalStoreB s => Some (fun ids =>
      call (fun w => on_part (m_fs m) (m_set_fs m) (Prune (rm_local ls w) s ids (walk_local ls s w)) w))
  | S3StoreB client s => Some (fun ids => call (fun w => s3_Prune client s (fun _ => false) (list_s3 ls s w) ids w))
  | GCStoreB client s => Some (fun ids => call (fun w => gcs_Prune client s (list_gcs ls s w) ids w))
  | SFTPStoreB client c n => Some (fun ids w =>
      match sftp_Prune client c (Z.to_nat n) (walk_sftp ls c w) ids w with
      | Some (e, w) => call (fun w => (e, w)) w
      | None => (NoFuel, w)
      end)
  | RemoteSSHStore _ | RemoteHTTPB _ _ _ => None
  end.

(** The lines the user types, or the error of reading one. *)
Fixpoint ask (answers : list (outcome bytes)) : outcome bool :=
  match answers with
  | [] => Err ErrEOF
  | Ok a :: answers =>
    if decide (a = str "y" \/ a = str "Y") then Ok true
    else if decide (a = str "n" \/ a = str "N" \/ a = []) then Ok false
    else ask answers
  | Err e :: _ => Err e
  | Panic :: _ => Panic
  | NoFuel :: _ => NoFuel
  end.

Definition runPrune (opt : cmdStoreOptions) (store : bytes) (yes : bool) (answers : list (outcome bytes))
  (args : list bytes) : io W unit :=
  _ ← check_options (validate opt);
  if decide (store = []) then fails "no store provided"
  else
    sr ← opened store opt;
    match prune_of sr with
    | None => fails "store does not support pruning"
    | Some prune =>
      ids ← merge_ids args opt ∅;
      go ← (if yes then mret true else pure (ask answers));
      if go : bool then prune ids else mret tt
    end.

(** ** cache (cache.go) *)

Definition remove_ids (remove : list bytes) (ids : gset bytes) : gset bytes := ids ∖ list_to_set remove.

Fixpoint ignore_indexes (files : list bytes) (cmdOpt : cmdStoreOptions) (ids : gset bytes) : io W (gset bytes) :=
  match files with
  | [] => mret ids
  | f :: files =>
    i ← readIndex f cmdOpt;
    ignore_indexes files cmdOpt (remove_ids (map ID (Chunks i)) ids)
  end.

(** bufio.Scanner's lines (without a carriage return at their end), and strings.TrimSpace of ASCII text. *)
Definition is_space (c : byte) : bool := bool_decide (c ∈ [Byte.x09; Byte.x0a; Byte.x0b; Byte.x0c; Byte.x0d; Byte.x20]).

Fixpoint trim_left (s : bytes) : bytes :=
  match s with
  | c :: s' => if is_space c then trim_left s' else s
  | [] => []
  end.
Definition TrimSpace (s : bytes) : bytes := rev (trim_left (rev (trim_left s))).

(** A line longer than the scanner's buffer ends the scan with an error. *)
Definition MaxScanTokenSize : nat := 65536.

Fixpoint chunk_lines (lines : list bytes) : outcome (list ChunkID) :=
  match lines with
  | [] => Ok []
  | line :: lines =>
    if decide (MaxScanTokenSize <= length line)%nat then Err (Errorf "bufio.Scanner: token too long")
    else
      let line := TrimSpace line in
      if decide (line = []) then chunk_lines lines
      else i ← ChunkIDFromString line; l ← chunk_lines lines; mret (i :: l)
  end.

(** readChunkIDFile (chop.go) *)
Definition readChunkIDFile (file : bytes) : io W (list ChunkID) := fun w =>
  (b ← ReadFile (m_fs m w) file; chunk_lines (Split b Byte.x0a), w).

Fixpoint ignore_chunks (files : list bytes) (ids : gset bytes) : io W (gset bytes) :=
  match files with
  | [] => mret ids
  | f :: files => l ← readChunkIDFile f; ignore_chunks files (remove_ids l ids)
  end.

Record cacheOptions := mkCacheOptions {
  c_opt : cmdStoreOptions;
  c_stores : list bytes;
  c_cache : bytes;
  c_ignoreIndexes : list bytes;
  c_ignoreChunks : list bytes
}.

(** What desync.Copy is called with. *)
Record CopyCall := mkCopyCall { cp_ids : list ChunkID; cp_src : Store W; cp_dst : Store W; cp_n : Z }.

Definition runCache (opt : cacheOptions) (args : list bytes) : io W CopyCall :=
  _ ← check_options (validate (c_opt opt));
  if decide (c_stores opt = []) then fails "no source store provided"
  else if decide (c_cache opt = []) then fails "no target cache store provided"
  else
    idm ← merge_ids args (c_opt opt) ∅;
    idm ← ignore_indexes (c_ignoreIndexes opt) (c_opt opt) idm;
    idm ← ignore_chunks (c_ignoreChunks opt) idm;
    s ← multiStoreWithRouter m cfg entries (c_opt opt) (c_stores opt);
    '(dst, _) ← WritableStore m cfg entries (c_cache opt) (c_opt opt);
    mret (mkCopyCall (order ls idm) s (backend_store m dst) (n (c_opt opt))).

(** ** list-chunks (list.go) and inspect-chunks (inspectchunks.go) *)

(** [stop k] says whether the context is done after chunk [k]. *)
Fixpoint list_lines (stop : nat -> bool) (k : nat) (chunks : list IndexChunk) : list bytes :=
  match chunks with
  | [] => []
  | c :: chunks => String_ (ID c) :: (if stop k then [] else list_lines stop (S k) chunks)
  end.

Definition runList (stop : nat -> bool) (opt : cmdStoreOptions) (arg : bytes) : io W (list bytes) :=
  _ ← check_options (validate opt);
  c ← readIndex arg opt;
  mret (list_lines stop 0 (Chunks c)).

Record ChunkAdditionalInfo := mkInfo { ai_ID : ChunkID; UncompressedSize : Z; CompressedSize : Z }.

(** The local store, if one was given, and None when the context is done: nothing is printed. *)
Fixpoint inspect (stop : nat -> bool) (k : nat) (s : option LocalStore) (fs : FileSystem) (chunks : list IndexChunk)
  : option (list ChunkAdditionalInfo) :=
  match chunks with
  | [] => Some []
  | c :: chunks =>
    let size :=
      match s with
      | Some s => if negb (Uncompressed (Opt s)) then
                    match GetChunkSize s (ID c) fs with Ok n => n | _ => 0 end
                  else 0
      | None => 0
      end in
    if stop k then None
    else l ← inspect stop (S k) s fs chunks; mret (mkInfo (ID c) (CSize c) size :: l)
  end.

Definition runInspectChunks (stop : nat -> bool) (opt : cmdStoreOptions) (store : bytes) (arg : bytes)
  : io W (option (list ChunkAdditionalInfo)) :=
  _ ← check_options (validate opt);
  c ← readIndex arg opt;
  s ← (if decide (store = []) then mret None
       else
         sr ← opened store opt;
         match sr with LocalStoreB s => mret (Some s) | _ => fails "not a local store" end);
  (fun w => (Ok (inspect stop 0 s (m_fs m w) (Chunks c)), w)) : io W _.

End commands.

(** ** prune keeps what the indexes reference *)

Section prune.

Context `{Codec} {W : Type} (m : Machine W) (ls : Listings W) (cfg : Config) (entries : list (bytes * ConfOptions))
  (alg : Algorithm) (inv : W -> Prop) (cmdOpt : cmdStoreOptions).

(** What a store that can be pruned promises. *)
Class PruneSpec (prune : gset bytes -> io W unit) (view : W -> ChunkID -> option bytes) : Prop := {
  prune_keeps ids w r w' i : inv w -> prune ids w = (r, w') -> i ∈ ids -> view w' i = view w i;
  prune_removes ids w w' i : inv w -> prune ids w = (Ok tt, w') -> length i = 32%nat -> i ∉ ids -> view w' i = None
}.

(** Reading an index changes nothing, whatever it gives. *)
Definition reads_as (location : bytes) (r : outcome Index) : Prop :=
  forall w, inv w -> readCaibxFile m cfg entries alg location cmdOpt w = (r, w).

Lemma merge_ids_ok args idxs : Forall2 (fun a i => reads_as a (Ok i)) args idxs -> forall ids w, inv w ->
  exists ids', merge_ids m cfg entries alg args cmdOpt ids w = (Ok ids', w) /\
    forall i, i ∈ ids' <-> i ∈ ids \/ exists idx c, idx ∈ idxs /\ c ∈ Chunks idx /\ ID c = i.
Proof using Type.
  induction 1 as [|a idx args idxs Ha _ IH]; intros ids w Hi; cbn [merge_ids].
  { exists ids. split; [done|]. intros i. split; [by left|]. intros [?|(x & c & Hx & _)]; [done|]. by apply elem_of_nil in Hx. }
  unfold mbind, io_bind. rewrite (Ha w Hi).
  destruct (IH (list_to_set (map ID (Chunks idx)) ∪ ids) w Hi) as (ids' & E & Hids). exists ids'. split; [done|].
  intros i. rewrite Hids, elem_of_union, elem_of_list_to_set. split.
  - intros [[Hin|?]|(x & c & ? & ? & ?)]; [|by left|right; exists x, c; split; [by right|done]].
    apply list_elem_of_fmap in Hin as (c & -> & Hc). right. exists idx, c. split; [by left|done].
  - intros [?|(x & c & Hx & Hc & <-)]; [by left; right|]. apply elem_of_cons in Hx as [->|Hx].
    + left. left. apply list_elem_of_fmap. eauto.
    + right. eauto.
Qed.

Lemma merge_ids_fails args rs : Forall2 reads_as args rs -> (exists e, Err e ∈ rs) ->
  (forall r, r ∈ rs -> match r with Ok _ | Err _ => True | _ => False end) -> forall ids w, inv w ->
  exists e, merge_ids m cfg entries alg args cmdOpt ids w = (Err e, w).
Proof using Type.
  intros Hall Herr Hrs. induction Hall as [|a r args rs Ha Hall IH]; intros ids w Hi; cbn [merge_ids].
  { destruct Herr as [e He]. by apply elem_of_nil in He. }
  unfold mbind, io_bind. rewrite (Ha w Hi). pose proof (Hrs r ltac:(by left)) as Hr.
  destruct r as [idx|e| |]; [|by exists e|done|done]. destruct IH with (ids := list_to_set (map ID (Chunks idx)) ∪ ids) (w := w)
    as [e He]; [|by intros r Hin; apply Hrs; right|done|by exists e].
  destruct Herr as [e He]. apply elem_of_cons in He as [?|He]; [done|]. by exists e.
Qed.

Lemma results_split (rs : list (outcome Index)) :
  (forall r, r ∈ rs -> match r with Ok _ | Err _ => True | _ => False end) ->
  (exists e, Err e ∈ rs) \/ exists idxs, rs = map Ok idxs.
Proof using Type.
  clear. induction rs as [|r rs IH]; intros Hrs; [by right; exists []|].
  destruct IH as [[e He]|[idxs ->]]; [intros r' Hr'; apply Hrs; by right|left; exists e; by right|].
  pose proof (Hrs r ltac:(by left)) as Hr. destruct r as [idx|e| |]; [|left; exists e; by left|done|done].
  right. by exists (idx :: idxs).
Qed.

Lemma reads_map args idxs : Forall2 reads_as args (map Ok idxs) -> Forall2 (fun a i => reads_as a (Ok i)) args idxs.
Proof using Type. by rewrite Forall2_fmap_r. Qed.

(** C21. prune removes from the store exactly the chunks none of the given indexes references. Every
    chunk of every index given is as it was, however the command ends; if it was confirmed and ends
    without an error all other chunks are gone; and if an index cannot be read, or the user does not
    agree, the store is not touched. *)
Theorem prune_keeps_referenced store b prune view yes answers args rs w w0 r w' :
  storeFromLocation m cfg entries store cmdOpt w0 = (Ok b, w) -> prune_of m ls b = Some prune -> PruneSpec prune view ->
  inv w -> store <> [] -> validate cmdOpt = None ->
  Forall2 reads_as args rs -> (forall r, r ∈ rs -> match r with Ok _ | Err _ => True | _ => False end) ->
  runPrune m ls cfg entries alg cmdOpt store yes answers args w0 = (r, w') ->
  (forall idx c, Ok idx ∈ rs -> c ∈ Chunks idx -> view w' (ID c) = view w (ID c)) /\
  (r = Ok tt -> yes = true \/ ask answers = Ok true ->
     forall i, length i = 32%nat -> (forall idx c, Ok idx ∈ rs -> c ∈ Chunks idx -> ID c <> i) -> view w' i = None) /\
  ((exists e, Err e ∈ rs) \/ (yes = false /\ ask answers <> Ok true) -> w' = w).
Proof using Type.
  intros Hopen Hprune Hspec Hi Hne Hval Hreads Hrs E. unfold runPrune, check_options, pure in E.
  rewrite Hval in E. unfold mbind at 1, io_bind at 1 in E. rewrite decide_False in E by done.
  unfold mbind at 1, io_bind at 1 in E. rewrite Hopen in E. rewrite Hprune in E.
  unfold mbind at 1, io_bind at 1 in E.
  destruct (results_split rs Hrs) as [Hx|[idxs ->]].
  { destruct (merge_ids_fails args rs Hreads Hx Hrs ∅ w Hi) as [e He]. rewrite He in E. by injection E as <- <-. }
  pose proof (reads_map args idxs Hreads) as Hreads'.
  assert (Hin : forall idx, Ok idx ∈ map Ok idxs <-> idx ∈ idxs).
  { intros idx. rewrite (list_elem_of_fmap Ok). split; [by intros (x & [= ->] & ?)|by eauto]. }
  assert (Hno : ~ exists e, Err e ∈ map Ok idxs) by (intros [e He]; by apply list_elem_of_fmap in He as (? & ? & _)).
  destruct (merge_ids_ok args idxs Hreads' ∅ w Hi) as (ids & He & Hids). rewrite He in E.
  assert (Hgo : (yes = true \/ ask answers = Ok true) /\ prune ids w = (r, w') \/
    (yes = false /\ ask answers <> Ok true) /\ w' = w).
  { destruct yes; [by left; split; [left|]|]. unfold mbind, io_bind in E.
    destruct (ask answers) as [[]|e| |]; [by left; split; [right|]|right; by injection E as _ <-..]. }
  destruct Hgo as [[Hyes Hp]|[Hnot ->]].
  - split_and!.
    + intros idx c Hidx Hc. eapply (prune_keeps (PruneSpec := Hspec)); [exact Hi|exact Hp|]. apply Hids. right.
      exists idx, c. by rewrite <- Hin.
    + intros -> _ i Hl Hni. eapply (prune_removes (PruneSpec := Hspec)); [exact Hi|exact Hp|done|].
      intros [Hi0|(idx & c & Hx' & Hc & <-)]%Hids; [by apply not_elem_of_empty in Hi0|].
      eapply (Hni idx c); [by apply Hin|done|done].
    + intros [?|[-> Ha]]; [done|]. by destruct Hyes.
  - split_and!; [done| |done]. destruct Hnot as [-> Ha]. by intros _ [?|?].
Qed.

(** The walk of a local store finds every file below it once, and chunk files have their proper names. *)
Record walked_files (s : LocalStore) (paths : list bytes) (fs : FileSystem) : Prop := {
  wf_broken : broken fs = ∅;
  wf_nodup : NoDup paths;
  wf_files p : p ∈ paths -> p ∈ dom (files fs);
  wf_names p i : p ∈ paths -> local_idFromPath (Uncompressed (Opt s)) p = Some i -> p = snd (nameFromID s i);
  wf_all i : length i = 32%nat -> snd (nameFromID s i) ∈ dom (files fs) -> snd (nameFromID s i) ∈ paths
}.

Lemma local_prune_spec s : part_ok (m_fs m) (m_set_fs m) ->
  (forall w, inv w -> exists paths, walk_local ls s w = map (pair false) paths /\ walked_files s paths (m_fs m w)) ->
  (forall w i b, inv w -> files (m_fs m w) !! snd (nameFromID s i) = Some b -> length i = 32%nat) ->
  PruneSpec (fun ids => call (fun w => on_part (m_fs m) (m_set_fs m) (Prune (rm_local ls w) s ids (walk_local ls s w)) w))
    (fun w => LocalStore.local_view s (m_fs m w)).
Proof using Type.
  intros Hpart Hwalk Hlen.
  assert (Hp : forall ids w r w', inv w ->
    call (fun w => on_part (m_fs m) (m_set_fs m) (Prune (rm_local ls w) s ids (walk_local ls s w)) w) w = (r, w') ->
    exists paths, walked_files s paths (m_fs m w) /\
    (forall q, files (m_fs m w') !! q = files (m_fs m w) !! q \/
       (files (m_fs m w') !! q = None /\ q ∈ paths /\ LocalStore.pruned s ids q = true)) /\
    (r = Ok tt -> forall q, q ∈ paths -> LocalStore.pruned s ids q = true ->
       HasPrefix (path_Base q) tmpChunkPrefix = false -> files (m_fs m w') !! q = None)).
  { intros ids w r w' Hi E. destruct (Hwalk w Hi) as (paths & Hw & Hwf). exists paths. split; [done|].
    destruct Hwf as [H1 H2 H3 H4 H5].
    destruct (Prune_walk (rm_local ls w) s ids paths H2 (m_fs m w) H1 H3 H4) as (e & fs' & Hpr & Hf & Hall & _).
    unfold call, on_part in E. rewrite Hw, Hpr in E.
    assert (m_fs m w' = fs') as -> by (destruct e; injection E as _ <-; apply (part_get_set _ _ Hpart)).
    split; [done|]. intros Hr q Hq Hpq Htmp. destruct e; injection E as <- _; [done|]. by apply Hall; auto. }
  split.
  - intros ids w r w' i Hi E Hin. destruct (Hp ids w r w' Hi E) as (paths & [_ _ H3 H4 _] & Hf & _).
    unfold LocalStore.local_view. destruct (Hf (snd (nameFromID s i))) as [->|(_ & Hq & Hpq)]; [done|].
    exfalso. destruct (files (m_fs m w) !! snd (nameFromID s i)) as [b|] eqn:Eb.
    + apply Hlen in Eb; [|done]. rewrite pruned_name in Hpq by done. by apply bool_decide_eq_true in Hpq.
    + apply H3, elem_of_dom in Hq as [b ?]. congruence.
  - intros ids w w' i Hi E Hl Hin. destruct (Hp ids w _ w' Hi E) as (paths & [_ _ _ _ H5] & Hf & Hall).
    unfold LocalStore.local_view. destruct (files (m_fs m w') !! snd (nameFromID s i)) as [b|] eqn:Eb; [exfalso|done].
    destruct (Hf (snd (nameFromID s i))) as [E2|[E2 _]]; [|congruence]. rewrite Eb in E2.
    rewrite Hall in Eb; [done..| |by rewrite pruned_name, bool_decide_true|].
    + apply H5; [done|]. apply elem_of_dom. by exists b.
    + rewrite path_Base_name. unfold HasPrefix. apply bool_decide_eq_false. intros Ep. by apply hex_not_tmp in Ep.
Qed.

(** Buckets keep the promise. *)
Lemma s3_prune_spec (client : S3Client W) (s : S3Store) inv0 objects {A} (other : W -> A) :
  s3_laws client inv0 objects other -> (forall w, inv w -> s3_inv s inv0 objects w) ->
  (forall w, inv w -> forall r, r ∈ list_s3 ls s w -> exists key, r = Ok key \/ exists e, r = Err e) ->
  (forall w, inv w -> forall i, is_Some (objects w (s3_name s i)) -> Ok (s3_name s i) ∈ list_s3 ls s w) ->
  PruneSpec (fun ids => call (fun w => s3_Prune client s (fun _ => false) (list_s3 ls s w) ids w)) (s3_view s objects).
Proof using Type.
  intros laws Hok Hlist Hall.
  assert (Hp : forall ids w r w', inv w ->
    call (fun w => s3_Prune client s (fun _ => false) (list_s3 ls s w) ids w) w = (r, w') ->
    exists e, s3_Prune client s (fun _ => false) (list_s3 ls s w) ids w = (e, w') /\ (r = Ok tt -> e = None)).
  { intros ids w r w' _. unfold call. destruct (s3_Prune _ _ _ _ _ w) as [[e|] w1]; intros [= <- <-]; eexists; by split. }
  split.
  - intros ids w r w' i Hi E Hin. destruct (Hp ids w r w' Hi E) as (e & E' & _).
    destruct (Hok w Hi) as [Hi0 Hobj].
    pose proof (prune_objects_spec _ _ _ inv0 objects (s3_name s) (s3_removes client s inv0 objects other laws) _ _ _ _ _ _ Hi0 E') as Hpr.
    destruct (pruned_view _ _ _ _ _ _ _ _ _ _ (s3_nameFromID_inj _ _) (fun i => s3_name_round_trip _ _ i) Hpr Hobj) as (_ & Hk & _).
    by apply Hk.
  - intros ids w w' i Hi E Hl Hin. destruct (Hp ids w (Ok tt) w' Hi E) as (e & E' & He). specialize (He eq_refl). subst e.
    destruct (Hok w Hi) as [Hi0 Hobj].
    pose proof (prune_objects_spec _ _ _ inv0 objects (s3_name s) (s3_removes client s inv0 objects other laws) _ _ _ _ _ _ Hi0 E') as Hpr.
    destruct (pruned_view _ _ _ _ _ _ _ _ _ _ (s3_nameFromID_inj _ _) (fun i => s3_name_round_trip _ _ i) Hpr Hobj) as (_ & _ & Hk).
    apply Hk; [done|by apply Hlist|done|by apply Hall|done].
Qed.

End prune.

(** ** cache copies what the indexes reference *)

Section cache_command.

Context `{Codec} {W : Type} (m : Machine W) (ls : Listings W) (cfg : Config) (entries : list (bytes * ConfOptions))
  (alg : Algorithm) (inv : W -> Prop) (opt : cacheOptions).

Abbreviation reads := (reads_as m cfg entries alg inv (c_opt opt)).

Definition lists_as (file : bytes) (l : list ChunkID) : Prop :=
  forall w, inv w -> readChunkIDFile m file w = (Ok l, w).

Definition references (idxs : list Index) (i : ChunkID) : Prop :=
  exists idx c, idx ∈ idxs /\ c ∈ Chunks idx /\ ID c = i.

Lemma references_cons idx idxs i :
  references (idx :: idxs) i <-> i ∈ map ID (Chunks idx) \/ references idxs i.
Proof.
  unfold references. rewrite list_elem_of_fmap. split.
  - intros (x & c & Hx & Hc & <-). apply elem_of_cons in Hx as [->|Hx]; [left; eauto|right; eauto 10].
  - intros [(c & -> & Hc)|(x & c & Hx & Hc & <-)]; [exists idx, c; split; [by left|done]|exists x, c; split; [by right|done]].
Qed.

Lemma ignore_indexes_ok files idxs : Forall2 (fun f i => reads f (Ok i)) files idxs -> forall ids w, inv w ->
  exists ids', ignore_indexes m cfg entries alg files (c_opt opt) ids w = (Ok ids', w) /\
    forall i, i ∈ ids' <-> i ∈ ids /\ ~ references idxs i.
Proof.
  induction 1 as [|f idx files idxs Hf _ IH]; intros ids w Hi; cbn [ignore_indexes].
  { exists ids. split; [done|]. intros i. split; [|by intros []]. intros ?. split; [done|].
    intros (x & c & Hx & _). by apply elem_of_nil in Hx. }
  unfold mbind, io_bind. rewrite (Hf w Hi).
  destruct (IH (remove_ids (map ID (Chunks idx)) ids) w Hi) as (ids' & E & Hids). exists ids'. split; [done|].
  intros i. rewrite Hids, references_cons. unfold remove_ids. rewrite elem_of_difference, elem_of_list_to_set. tauto.
Qed.

Lemma ignore_chunks_ok files lists : Forall2 lists_as files lists -> forall ids w, inv w ->
  exists ids', ignore_chunks m files ids w = (Ok ids', w) /\
    forall i, i ∈ ids' <-> i ∈ ids /\ forall l, l ∈ lists -> i ∉ l.
Proof.
  induction 1 as [|f l files lists Hf _ IH]; intros ids w Hi; cbn [ignore_chunks].
  { exists ids. split; [done|]. intros i. split; [|by intros []]. intros ?. split; [done|]. intros l Hl. by apply elem_of_nil in Hl. }
  unfold mbind, io_bind. rewrite (Hf w Hi). destruct (IH (remove_ids l ids) w Hi) as (ids' & E & Hids).
  exists ids'. split; [done|]. intros i. rewrite Hids. unfold remove_ids. rewrite elem_of_difference, elem_of_list_to_set.
  split.
  - intros [[H1 H2] H3]. split; [done|]. intros l' [->|Hl']%elem_of_cons; [done|by apply H3].
  - intros [H1 H2]. split; [split; [done|apply H2; by left]|]. intros l' Hl'. apply H2. by right.
Qed.

Lemma reference_merge args idxs ids0 w : Forall2 (fun a i => reads a (Ok i)) args idxs -> inv w ->
  exists ids, merge_ids m cfg entries alg args (c_opt opt) ids0 w = (Ok ids, w) /\
    forall i, i ∈ ids <-> i ∈ ids0 \/ references idxs i.
Proof. intros Hr Hi. by apply (merge_ids_ok m cfg entries alg inv (c_opt opt)). Qed.

(** The chunks a cache command is about: those of the indexes, less those of the indexes and lists to
    be ignored. *)
Definition wanted (idxs ignored : list Index) (lists : list (list ChunkID)) (i : ChunkID) : Prop :=
  references idxs i /\ (~ references ignored i) /\ forall l, l ∈ lists -> i ∉ l.

(** C22. cache makes the target hold the chunks its arguments ask for. With stores that may fail now and
    then, and in every interleaving of the workers, the copying ends; if it ends without an error and
    was not cancelled, the target holds what it held before and, of the chunks that are referenced
    and not to be ignored and that it lacked, the data of the first source store that has them;
    nothing else was added. An error is one of a store, or says that a wanted chunk is nowhere. *)
Theorem cache_copies_referenced (Fails : error -> Prop) (R O : relation W) `{!PreOrder R}
  views vd args idxs ignored lists w c w1 :
  (forall e msg, Fails e -> Fails (Wrapped e msg)) -> (forall i, ~ Fails (ChunkMissing i)) ->
  inv w -> groups_ok m inv R ->
  Forall2 (serves_as m cfg entries inv Fails (c_opt opt) R) (c_stores opt) views ->
  sinks_as m cfg entries inv Fails (c_opt opt) R O (c_cache opt) vd ->
  (forall w w', O w w' -> forall j, union_view views w' j = union_view views w j) ->
  (forall w i d, inv w -> union_view views w i = Some d -> d <> []) ->
  (forall s, order ls s ≡ₚ elements s) ->
  Forall2 (fun a i => reads a (Ok i)) args idxs ->
  Forall2 (fun f i => reads f (Ok i)) (c_ignoreIndexes opt) ignored ->
  Forall2 lists_as (c_ignoreChunks opt) lists ->
  runCache m ls cfg entries alg opt args w = (Ok c, w1) -> 0 < n (c_opt opt) ->
  let s0 := Copy (cp_ids c) (Z.to_nat (cp_n c)) w1 in
  sn (copy_step (cp_src c) (cp_dst c)) s0 /\
  (forall i, union_view views w1 i = union_view views w i) /\ (forall i, vd w1 i = vd w i) /\
  forall s, rtc (copy_step (cp_src c) (cp_dst c)) s0 s ->
    match result s with
    | None => exists s', pstep (copy_body (cp_src c) (cp_dst c)) None s s'
    | Some (Some e) => Fails e \/
        exists i, wanted idxs ignored lists i /\ e = ChunkMissing i /\ union_view views w i = None /\ vd w i = None
    | Some None => parent s = false -> forall i,
        (wanted idxs ignored lists i -> vd (world s) i = union_view (vd :: views) w i) /\
        (~ wanted idxs ignored lists i -> vd (world s) i = vd w i)
    end.
Proof.
  intros Hwrap Hmiss Hi Hg Hserves Hsink HO Hne Horder Hargs Hign Hlists E Hn.
  unfold runCache, check_options, pure in E. destruct (validate (c_opt opt)); [done|].
  unfold mbind at 1, io_bind at 1 in E. case_decide as Hs1; [done|]. case_decide as Hs2; [done|].
  destruct (reference_merge args idxs ∅ w Hargs Hi) as (ids1 & E1 & Hids1).
  unfold mbind at 1, io_bind at 1 in E. rewrite E1 in E.
  destruct (ignore_indexes_ok _ _ Hign ids1 w Hi) as (ids2 & E2 & Hids2).
  unfold mbind at 1, io_bind at 1 in E. rewrite E2 in E.
  destruct (ignore_chunks_ok _ _ Hlists ids2 w Hi) as (ids3 & E3 & Hids3).
  unfold mbind at 1, io_bind at 1 in E. rewrite E3 in E.
  apply io_bind_inv in E as (src & w2 & E4 & E). apply io_bind_inv in E as ([b st] & w3 & E5 & [= <- <-]).
  destruct (multiStoreWithRouter_ok m cfg entries inv Fails Hwrap Hmiss (c_opt opt) R Hg (c_stores opt) views w src w2 Hi Hserves E4)
    as (Hi2 & HR2 & Hsrc).
  destruct (Hsink w2 b st w3 Hi2 E5) as (Hi3 & HR3 & Hdst). cbn [cp_ids cp_src cp_dst cp_n].
  assert (HR : R w w3) by (by etrans).
  assert (Hvs : forall j, union_view views w3 j = union_view views w j) by (by apply (src_view _ _ _ _ _ Hsrc)).
  assert (Hvd : forall j, vd w3 j = vd w j) by (by apply (src_view _ _ _ _ _ (sink_read _ _ _ _ _ _ _ Hdst))).
  assert (Hwant : forall i, i ∈ order ls ids3 <-> wanted idxs ignored lists i).
  { intros i. rewrite Horder, elem_of_elements, Hids3, Hids2, Hids1. unfold wanted. rewrite elem_of_empty. tauto. }
  destruct (Copy_runs inv Fails src (backend_store m b) (union_view views) vd st (order ls ids3) w3
    ltac:(intros i d _ Hd; by eapply Hne) R O Hsrc Hdst HO (Z.to_nat (n (c_opt opt))) ltac:(lia) Hi3) as [Hsn Hres].
  split_and!; [done|done|done|]. intros s Hs. specialize (Hres s Hs). destruct (result s) as [[e|]|]; [| |done].
  - destruct Hres as [?|(i & Hin & -> & H1 & H2)]; [by left|right]. exists i. rewrite <- Hwant, <- Hvs, <- Hvd. done.
  - intros Hp i. destruct (Hres Hp) as [_ Hd]. rewrite Hd, Hvd. cbn [union_view]. destruct (vd w i) as [d|]; [done|].
    rewrite <- Hwant. split; intros Hin.
    + by rewrite decide_True, Hvs.
    + by rewrite decide_False.
Qed.

End cache_command.

(** ** Examples *)

Section command_examples.

#[local] Instance ex_codec_commands : Codec := toy_codec.

(** The store to prune has a chunk the index references, and one it does not; lists and walks are those
    of the disk. *)
Definition ex_listings : Listings ExDisk :=
  mkListings ExDisk (fun s w => map (pair false) (filter (fun p => HasPrefix p (Base s ++ str "/") = true) (elements (dom (files (fst w))))))
    (fun _ _ => None) (fun _ _ => []) (fun _ _ => []) (fun _ _ => []) elements.

Lemma ex_reads : reads_as ex_machine (mkConfig ∅ ∅) [] SHA512_256 ex_inv ex_cmdopt (str "/idx/a.caibx") (Ok ex_idxfile).
Proof.
  intros w (_ & Hx & Hd & Hf).
  assert (valid_name (Path.Base (str "/idx/a.caibx"))) as Hname by (refine (bool_decide_unpack _ _); by vm_compute).
  pose proof (local_indexes_at ex_machine (mkConfig ∅ ∅) [] SHA512_256 ex_part ex_cmdopt (str "/idx/a.caibx")
    (mkURL [] None [] (str "/idx/a.caibx") [] (str "/idx/a.caibx")) DefaultConfOptions ltac:(vm_compute; reflexivity) eq_refl
    ltac:(discriminate) eq_refl Hname) as Hat.
  eapply readCaibxFile_view; [exact Hat|by split|]. unfold HttpIndex.local_view. cbn [lis_Path].
  change ((if HasSuffix (Dir (str "/idx/a.caibx")) (str "/") then Dir (str "/idx/a.caibx") else Dir (str "/idx/a.caibx") ++ str "/") ++
    Path.Base (str "/idx/a.caibx")) with (str "/idx/a.caibx").
  change (m_fs ex_machine w) with (fst w). rewrite Hf. by rewrite (index_read SHA512_256 ex_idxfile ex_idxfile_wf).
Qed.

Definition ex_cacheopts : cacheOptions := mkCacheOptions ex_cmdopt [str "/a"; str "/b|/b"] (str "/c") [] [].

Lemma cache_copies_referenced_witness :
  exists c w1, runCache ex_machine ex_listings (mkConfig ∅ ∅) [] SHA512_256 ex_cacheopts [str "/idx/a.caibx"] ex_disk = (Ok c, w1) /\
    sn (copy_step (cp_src c) (cp_dst c)) (Copy (cp_ids c) (Z.to_nat (cp_n c)) w1) /\
    forall s, rtc (copy_step (cp_src c) (cp_dst c)) (Copy (cp_ids c) (Z.to_nat (cp_n c)) w1) s ->
      result s = Some None -> parent s = false -> LocalStore.local_view ex_C (fst (world s)) ex_id = Some (str "data").
Proof.
  destruct (runCache ex_machine ex_listings (mkConfig ∅ ∅) [] SHA512_256 ex_cacheopts [str "/idx/a.caibx"] ex_disk) as [r w1] eqn:E.
  assert (Hok : is_ok r = true) by (change r with (fst (r, w1)); rewrite <- E; vm_compute; reflexivity).
  destruct r as [c| | |]; [|discriminate..]. exists c, w1. split; [done|].
  destruct (cache_copies_referenced ex_machine ex_listings (mkConfig ∅ ∅) [] SHA512_256 ex_inv ex_cacheopts (fun _ => False)
    ex_same ex_others ex_views (fun w => LocalStore.local_view ex_C (fst w)) [str "/idx/a.caibx"] [ex_idxfile] [] [] ex_disk c w1)
    as (H1 & H2 & H3 & H4); [intros e msg f; exact f|intros i f; exact f|exact ex_disk_ok|exact ex_groups|exact ex_cmd_serves|exact ex_sinks|done| |done| | | |exact E|done|].
  - intros w i d Hi. by apply ex_views_nonempty.
  - constructor; [exact ex_reads|constructor].
  - constructor.
  - constructor.
  - split; [exact H1|]. intros s Hs Hr Hp. specialize (H4 s Hs). rewrite Hr in H4. destruct (H4 Hp ex_id) as [H5 _].
    rewrite H5.
    + vm_compute. reflexivity.
    + split; [|split]; [|intros (x & c' & Hx & _); by apply elem_of_nil in Hx|intros l Hl; by apply elem_of_nil in Hl].
      exists ex_idxfile, (mkIndexChunk ex_id 0 4). split_and!; [by left|by left|done].
Defined.

(** For pruning, the chunk files of the store also have their proper names. *)
Definition ex_prune_inv (w : ExDisk) : Prop :=
  ex_inv w /\ forall p i, p ∈ dom (files (fst w)) -> HasPrefix p (str "/b/") = true ->
    local_idFromPath false p = Some i -> p = snd (nameFromID ex_B i).

Lemma ex_prune_spec : PruneSpec ex_prune_inv
  (fun ids => call (fun w => on_part (m_fs ex_machine) (m_set_fs ex_machine) (Prune (rm_local ex_listings w) ex_B ids (walk_local ex_listings ex_B w)) w))
  (fun w => LocalStore.local_view ex_B (fst w)).
Proof.
  apply (local_prune_spec ex_machine ex_listings ex_prune_inv ex_B ex_part).
  - intros w [((_ & HB & _) & _) Hnames]. eexists. split; [reflexivity|]. split.
    + apply (ok_broken _ _ HB).
    + apply NoDup_filter, NoDup_elements.
    + intros p Hp. apply list_elem_of_filter in Hp as [_ Hp]. by apply elem_of_elements in Hp.
    + intros p i [Hp1 Hp2]%list_elem_of_filter Hid. apply Hnames; [by apply elem_of_elements in Hp2|exact Hp1|exact Hid].
    + intros i _ Hd. apply list_elem_of_filter. split; [|by apply elem_of_elements].
      unfold nameFromID, local_nameFromID. cbv zeta. cbn [snd]. change (Uncompressed (Opt ex_B)) with false. cbv iota.
      rewrite <- !app_assoc. rewrite app_assoc. apply HasPrefix_app.
  - intros w i b [((_ & HB & _) & _) _] Hf. destruct (ok_files _ _ HB i b Hf) as (d & _ & _ & _ & <-). apply length_Sum.
Qed.

Lemma ex_prune_disk : ex_prune_inv ex_disk.
Proof.
  split; [exact ex_disk_ok|]. intros p i Hp Hpre Hid. cbn [ex_disk fst files] in Hp.
  rewrite dom_insert_L, dom_singleton_L in Hp. apply elem_of_union in Hp as [ ->%elem_of_singleton | ->%elem_of_singleton]; [|by vm_compute in Hpre].
  unfold nameFromID in Hid. rewrite local_idFromPath_name in Hid by done. by injection Hid as <-.
Qed.

Lemma prune_keeps_referenced_witness :
  exists r w', runPrune ex_machine ex_listings (mkConfig ∅ ∅) [] SHA512_256 ex_cmdopt (str "/b") true [] [str "/idx/a.caibx"] ex_disk = (r, w') /\
    LocalStore.local_view ex_B (fst w') ex_id = Some (str "data").
Proof.
  destruct (runPrune ex_machine ex_listings (mkConfig ∅ ∅) [] SHA512_256 ex_cmdopt (str "/b") true [] [str "/idx/a.caibx"] ex_disk)
    as [r w'] eqn:E. exists r, w'. split; [done|].
  destruct (prune_keeps_referenced ex_machine ex_listings (mkConfig ∅ ∅) [] SHA512_256 ex_prune_inv ex_cmdopt (str "/b")
    (LocalStoreB ex_B)
    (fun ids => call (fun w => on_part (m_fs ex_machine) (m_set_fs ex_machine) (Prune (rm_local ex_listings w) ex_B ids (walk_local ex_listings ex_B w)) w))
    (fun w => LocalStore.local_view ex_B (fst w)) true [] [str "/idx/a.caibx"] [Ok ex_idxfile] ex_disk ex_disk r w')
    as (H1 & _); [|reflexivity|exact ex_prune_spec|exact ex_prune_disk|discriminate|reflexivity| | |exact E|].
  - rewrite (storeFromLocation_local ex_machine (mkConfig ∅ ∅) [] ex_cmdopt (str "/b") (mkURL [] None [] (str "/b") [] (str "/b"))
      DefaultConfOptions) by (reflexivity || by vm_compute).
    assert (Stat (m_fs ex_machine ex_disk) (str "/b") = None) as -> by (by vm_compute).
    rewrite decide_True; [reflexivity|]. refine (bool_decide_unpack _ _). by vm_compute.
  - constructor; [|constructor]. intros w [Hi _]. by apply ex_reads.
  - intros r0 Hr0. apply list_elem_of_singleton in Hr0 as ->. exact I.
  - specialize (H1 ex_idxfile (mkIndexChunk ex_id 0 4) ltac:(by left) ltac:(by left)). cbn [ID] in H1. rewrite H1.
    vm_compute. reflexivity.
Defined.

End command_examples.
