(* ===== verification/Posix.v ===== *)
(** * Posix: directory trees as the system calls see them

    What localfs.go uses of the os and syscall packages: files of every type with their attributes
    under physical paths (lists of names from the root directory), path resolution with symbolic links,
    and the system calls that make, remove, change and list files. The process is privileged: no
    permission is ever missing; a mount is a change of the device number. *)

From S2P Require Import Prelude FileMode Path Archive Tar.

Abbreviation PathT := (list bytes).
Abbreviation tree_of A :=
  (@gmap PathT (@list_eq_dec bytes (@list_eq_dec byte byte_eq_dec))
     (@list_countable bytes (@list_eq_dec byte byte_eq_dec) (@list_countable byte byte_eq_dec byte_countable)) A).

(** The type of a file with what only files of the type have. [KNode] are devices, pipes and sockets:
    the S_IFMT bits of the mode, and the device number. *)
Inductive Kind :=
| KDir
| KFile (contents : bytes)
| KSymlink (target : bytes)
| KNode (fmt rdev : Z).

Record Inode := mkInode {
  kind : Kind;
  perm : Z;                                (* the lower twelve bits of the mode *)
  i_uid : Z;
  i_gid : Z;
  i_mtime : Z;
  i_xattrs : Xattrs;
  i_dev : Z                                (* the device the file is on *)
}.

Abbreviation FSTree := (tree_of Inode).

(** The process and the machine: the umask, the owner of new files, the time, the working directory,
    which extended attributes the file system takes for which types, the size stat gives directories. *)
Record Process := mkProcess {
  umask : Z;
  euid : Z;
  egid : Z;
  now : Z;
  cwd : PathT;
  xattr_allowed : Kind -> bytes -> bool;
  dir_size : Z
}.

Definition fmt_of (k : Kind) : Z :=
  match k with KDir => S_IFDIR | KFile _ => S_IFREG | KSymlink _ => S_IFLNK | KNode f _ => f end.

Definition st_mode (i : Inode) : Z := Z.lor (fmt_of (kind i)) (perm i).

Definition is_dir (k : Kind) : bool := match k with KDir => true | _ => false end.

Definition ENOTDIR : error := Errorf "not a directory".
Definition EISDIR : error := Errorf "is a directory".
Definition EEXIST : error := Errorf "file exists".
Definition ELOOP : error := Errorf "too many levels of symbolic links".
Definition EINVAL : error := Errorf "invalid argument".
Definition EPERM : error := Errorf "operation not permitted".

(** ** Paths *)

(** The directory [d], as the place to look up a name in. *)
Definition is_directory (fs : FSTree) (d : PathT) : bool :=
  match fs !! d with Some i => is_dir (kind i) | None => false end.

(** Symbolic links that are followed at most. *)
Definition MAXSYMLINKS : nat := 40.

(** From the physical directory [at_] along [todo]. The last element may not exist; if it is a
    symbolic link it is followed if [follow]. *)
Fixpoint resolve (links : nat) (follow : bool) (fs : FSTree) {struct links} : PathT -> PathT -> outcome PathT :=
  fix go (at_ todo : PathT) {struct todo} : outcome PathT :=
    match todo with
    | [] => Ok at_
    | c :: todo =>
      if negb (is_directory fs at_) then Err ENOTDIR
      else if decide (c = [] \/ c = dot) then go at_ todo
      else if decide (c = dotdot) then go (removelast at_) todo
      else
        let p := at_ ++ [c] in
        match fs !! p with
        | None => if decide (todo = []) then Ok p else Err ErrNotExist
        | Some i =>
          match kind i with
          | KSymlink t =>
            if bool_decide (todo = []) && negb follow then Ok p
            else
              match links with
              | O => Err ELOOP
              | S links => resolve links follow fs (if rooted t then [] else at_) (split_slash t ++ todo)
              end
          | _ => go p todo
          end
        end
    end.

Section calls.

Context (env : Process).

Definition lookup_path (follow : bool) (fs : FSTree) (p : bytes) : outcome PathT :=
  if decide (p = []) then Err ErrNotExist
  else resolve MAXSYMLINKS follow fs (if rooted p then [] else cwd env) (split_slash p).

(** ** System calls *)

Definition Lstat (fs : FSTree) (p : bytes) : outcome Inode :=
  q ← lookup_path false fs p;
  match fs !! q with Some i => Ok i | None => Err ErrNotExist end.

(** A call that changes the tree: its error, and the tree. *)
Definition call : Type := FSTree -> option error * FSTree.

(** At the physical path of [p]: the file there, if there is one. *)
Definition at_path (follow : bool) (p : bytes) (f : PathT -> option Inode -> call) : call := fun fs =>
  match lookup_path follow fs p with
  | Ok q => f q (fs !! q) fs
  | Err e => (Some e, fs)
  | _ => (None, fs)                        (* not reached: resolution does not panic *)
  end.

(** A name appears in or disappears from a directory: its time changes. *)
Definition touch (d : PathT) (fs : FSTree) : FSTree :=
  alter (fun i => mkInode (kind i) (perm i) (i_uid i) (i_gid i) (now env) (i_xattrs i) (i_dev i)) d fs.

(** A new file in a directory: a set group ID bit of the directory gives its group on, and the bit to
    directories. The umask does not apply to symbolic links. *)
Definition fresh (parent : option Inode) (k : Kind) (mode : Z) : Inode :=
  let sgid := match parent with Some i => has (perm i) S_ISGID | None => false end in
  let p := match k with KSymlink _ => 511 | _ => Z.land (Z.land mode 4095) (Z.lnot (umask env)) end in
  mkInode k (if sgid && is_dir k then Z.lor p S_ISGID else p) (euid env)
    (match parent with Some i => if sgid then i_gid i else egid env | None => egid env end)
    (now env) ∅ (match parent with Some i => i_dev i | None => 0 end).

Definition add_file (q : PathT) (k : Kind) (mode : Z) (fs : FSTree) : FSTree :=
  <[q := fresh (fs !! removelast q) k mode]> (touch (removelast q) fs).

Definition Mkdir (p : bytes) (mode : Z) : call :=
  at_path false p (fun q i fs =>
    match i with Some _ => (Some EEXIST, fs) | None => (None, add_file q KDir mode fs) end).

Definition Symlink (target p : bytes) : call :=
  if decide (target = []) then (fun fs => (Some ErrNotExist, fs))
  else at_path false p (fun q i fs =>
    match i with Some _ => (Some EEXIST, fs) | None => (None, add_file q (KSymlink target) 511 fs) end).

Definition Mknod (p : bytes) (mode dev : Z) : call :=
  at_path false p (fun q i fs =>
    match i with
    | Some _ => (Some EEXIST, fs)
    | None =>
      let fmt := Z.land mode S_IFMT in
      if decide (fmt = 0 \/ fmt = S_IFREG) then (None, add_file q (KFile []) mode fs)
      else if decide (fmt = S_IFDIR) then (Some EPERM, fs)
      else if decide (fmt = S_IFLNK) then (Some EINVAL, fs)
      else (None, add_file q (KNode fmt dev) mode fs)
    end).

(** syscall.Unlink *)
Definition Unlink (p : bytes) : call :=
  at_path false p (fun q i fs =>
    match i with
    | None => (Some ErrNotExist, fs)
    | Some i => if is_dir (kind i) then (Some EISDIR, fs) else (None, touch (removelast q) (delete q fs))
    end).

(** os.RemoveAll: what does not exist is no error; a path that ends in a dot is refused. *)
Definition below (q : PathT) (x : PathT) : bool := bool_decide (take (length q) x = q).

Definition RemoveAll (p : bytes) : call :=
  if decide (last (split_slash p) = Some dot) then (fun fs => (Some EINVAL, fs))
  else fun fs =>
    match lookup_path false fs p with
    | Ok q =>
      match fs !! q with
      | None => (None, fs)
      | Some _ => (None, touch (removelast q) (filter (fun x => below q (fst x) = false) fs))
      end
    | Err e => if decide (e = ErrNotExist) then (None, fs) else (Some e, fs)
    | _ => (None, fs)
    end.

(** Change the file at a path. *)
Definition change (follow : bool) (p : bytes) (f : Inode -> Inode) : call :=
  at_path follow p (fun q i fs =>
    match i with None => (Some ErrNotExist, fs) | Some i => (None, <[q := f i]> fs) end).

Definition set_kind (i : Inode) (k : Kind) (t : Z) : Inode := mkInode k (perm i) (i_uid i) (i_gid i) t (i_xattrs i) (i_dev i).

(** os.OpenFile to write, creating or truncating the file. *)
Definition Create (p : bytes) (mode : Z) : call :=
  at_path true p (fun q i fs =>
    match i with
    | None => (None, add_file q (KFile []) mode fs)
    | Some i =>
      match kind i with
      | KDir => (Some EISDIR, fs)
      | KFile _ => (None, <[q := set_kind i (KFile []) (now env)]> fs)
      | _ => (None, fs)
      end
    end).

(** Writing to the end of an open file. *)
Definition Append (p : bytes) (b : bytes) : call :=
  change true p (fun i =>
    match kind i with KFile c => set_kind i (KFile (c ++ b)) (now env) | _ => i end).

(** A change of the owner takes the set user ID bit of files away, and the set group ID bit if the group
    may execute them. *)
Definition chown_perm (i : Inode) : Z :=
  if is_dir (kind i) then perm i
  else Z.ldiff (perm i) (Z.lor S_ISUID (if has (perm i) 8 then S_ISGID else 0)).

Definition Chown_ (follow : bool) (p : bytes) (uid gid : Z) : call :=
  change follow p (fun i => mkInode (kind i) (chown_perm i) uid gid (i_mtime i) (i_xattrs i) (i_dev i)).
Definition Chown : bytes -> Z -> Z -> call := Chown_ true.
Definition Lchown : bytes -> Z -> Z -> call := Chown_ false.

Definition Chmod (p : bytes) (mode : Z) : call :=
  change true p (fun i => mkInode (kind i) (Z.land mode 4095) (i_uid i) (i_gid i) (i_mtime i) (i_xattrs i) (i_dev i)).

Definition Chtimes (p : bytes) (t : Z) : call :=
  change true p (fun i => mkInode (kind i) (perm i) (i_uid i) (i_gid i) t (i_xattrs i) (i_dev i)).

Definition LSet (p key value : bytes) : call :=
  at_path false p (fun q i fs =>
    match i with
    | None => (Some ErrNotExist, fs)
    | Some i =>
      if xattr_allowed env (kind i) key then
        (None, <[q := mkInode (kind i) (perm i) (i_uid i) (i_gid i) (i_mtime i) (<[key := value]> (i_xattrs i)) (i_dev i)]> fs)
      else (Some EPERM, fs)
    end).

(** The names in a directory, sorted. *)
Definition children (fs : FSTree) (d : PathT) : list bytes :=
  merge_sort bytes_le
    (omap (fun x => match fst x, last (fst x) with
                    | _ :: _, Some c => if decide (removelast (fst x) = d) then Some c else None
                    | _, _ => None end) (map_to_list fs)).

Definition readDirNames (fs : FSTree) (p : bytes) : outcome (list bytes) :=
  q ← lookup_path true fs p;
  if is_directory fs q then Ok (children fs q) else Err ENOTDIR.

End calls.
