(* ===== verification/LocalFS.v ===== *)
(** * LocalFS: archives of real directories (localfs.go, localfs_other.go)

    LocalFS is both ends of an archive: a FilesystemWriter whose operations are sequences of the system
    calls of Posix, and a reader that walks a directory and hands out its files. The walk runs
    concurrently with its reader; here the tree does not change while it is read. *)

From S2P Require Import Prelude FileMode Format Path Archive Tar Posix.

Record LocalFSOptions := mkLocalFSOptions {
  OneFileSystem : bool;
  NoSameOwner : bool;
  NoSamePermissions : bool;
  NoTime : bool
}.

Record LocalFS := mkLocalFS { Root : bytes; opts : LocalFSOptions }.

Definition NewLocalFS (root : bytes) (o : LocalFSOptions) : LocalFS := mkLocalFS root o.

(** ** Sequences of calls *)

Definition skip : call := fun fs => (None, fs).

(** [if err := c(); err != nil { return err }] *)
Definition andthen (c d : call) : call := fun fs =>
  match c fs with (None, fs) => d fs | r => r end.

Declare Scope call_scope.
Notation "c >>> d" := (andthen c d) (at level 100, right associativity) : call_scope.
#[local] Open Scope call_scope.

(** [err != nil && !os.IsNotExist(err)] *)
Definition unless_missing (c : call) : call := fun fs =>
  match c fs with
  | (Some e, fs) => if decide (e = ErrNotExist) then (None, fs) else (Some e, fs)
  | r => r
  end.

Definition when (b : bool) (c : call) : call := if b then c else skip.

Section localfs.

Context (env : Process) (lfs : LocalFS).

Definition dst (n : bytes) : bytes := Path.Join (Root lfs) n.

(** ** Writing *)

(** The loop over a map; its order is not specified. *)
Fixpoint set_xattrs (p : bytes) (l : list (bytes * bytes)) : call :=
  match l with
  | [] => skip
  | (key, value) :: l => LSet env p key value >>> set_xattrs p l
  end.

Definition SetDirPermissions (n : NodeAttrs) : call :=
  when (negb (NoSameOwner (opts lfs)))
    (Chown env (dst (Archive.Name n)) (UID n) (GID n) >>>
     set_xattrs (dst (Archive.Name n)) (map_to_list (nXattrs n))) >>>
  when (negb (NoSamePermissions (opts lfs)))
    (Chmod env (dst (Archive.Name n)) (FilemodeToStatMode (Archive.Mode n))).

(** The same code as for directories. *)
Definition SetFilePermissions (n : NodeAttrs) : call :=
  when (negb (NoSameOwner (opts lfs)))
    (Chown env (dst (Archive.Name n)) (UID n) (GID n) >>>
     set_xattrs (dst (Archive.Name n)) (map_to_list (nXattrs n))) >>>
  when (negb (NoSamePermissions (opts lfs)))
    (Chmod env (dst (Archive.Name n)) (FilemodeToStatMode (Archive.Mode n))).

Definition SetSymlinkPermissions (n : NodeAttrs) : call :=
  when (negb (NoSameOwner (opts lfs)))
    (Lchown env (dst (Archive.Name n)) (UID n) (GID n) >>>
     set_xattrs (dst (Archive.Name n)) (map_to_list (nXattrs n))).

(** [if n.MTime == time.Unix(0, 0) { return nil }; return os.Chtimes(...)] *)
Definition set_times (n : NodeAttrs) : call :=
  when (negb (bool_decide (MTime n = 0))) (Chtimes env (dst (Archive.Name n)) (MTime n)).

Definition make_dir (n : NodeAttrs) : call := fun fs =>
  match Lstat env fs (dst (Archive.Name n)) with
  | Ok info => if is_dir (kind info) then (None, fs) else (Some (Errorf "exists and is not a directory"), fs)
  | _ => Mkdir env (dst (Archive.Name n)) 511 fs
  end.

Definition LocalFS_CreateDir (n : NodeAttrs) : call := make_dir n >>> SetDirPermissions n >>> set_times n.

(** io.Copy reads all of the data, or up to its error; that much is in the file. *)
Definition copy_data (n : NodeAttrs) (data : Source) : call := fun fs =>
  match Append env (dst (Archive.Name n)) (fst data) fs with
  | (None, fs) => (snd data, fs)
  | r => r
  end.

Definition LocalFS_CreateFile (n : NodeAttrs) (size : Z) (data : Source) (fs : FSTree) : nat * option error * FSTree :=
  match (unless_missing (RemoveAll env (dst (Archive.Name n))) >>> Create env (dst (Archive.Name n)) 438) fs with
  | (Some e, fs) => (0%nat, Some e, fs)
  | (None, fs) =>
    let '(e, fs) := (copy_data n data >>> SetFilePermissions n >>> set_times n) fs in
    (length (fst data), e, fs)
  end.

Definition LocalFS_CreateSymlink (n : NodeAttrs) (target : bytes) : call :=
  unless_missing (Unlink env (dst (Archive.Name n))) >>> Symlink env target (dst (Archive.Name n)) >>> SetSymlinkPermissions n.

Definition mkdev (major minor : Z) : Z :=
  lors [u64 (Z.shiftl (Z.land major 0xfff) 8); u64 (Z.shiftl (Z.land major 0xfffff000) 32);
        Z.land minor 0xff; u64 (Z.shiftl (Z.land minor 0xffffff00) 12)].

Definition wrapped (msg : string) (c : call) : call := fun fs => let '(e, fs) := c fs in (errors_Wrap e msg, fs).

Definition LocalFS_CreateDevice (n : NodeAttrs) (major minor : Z) : call :=
  unless_missing (Unlink env (dst (Archive.Name n))) >>>
  wrapped "mknod"
    (Mknod env (dst (Archive.Name n)) (Z.lor (FilemodeToStatMode (Archive.Mode n)) 438) (i64 (mkdev major minor))) >>>
  when (negb (NoSameOwner (opts lfs)))
    (Chown env (dst (Archive.Name n)) (UID n) (GID n) >>>
     set_xattrs (dst (Archive.Name n)) (map_to_list (nXattrs n))) >>>
  when (negb (NoSamePermissions (opts lfs)))
    (wrapped "chmod" (Chmod env (dst (Archive.Name n)) (FilemodeToStatMode (Archive.Mode n)))) >>>
  set_times n.

#[export] Instance LocalFS_writer : FilesystemWriter FSTree := {|
  CreateDir := LocalFS_CreateDir;
  CreateFile := LocalFS_CreateFile;
  CreateSymlink := LocalFS_CreateSymlink;
  CreateDevice := LocalFS_CreateDevice
|}.

(** ** Reading *)

Record walkEntry := mkWalkEntry { we_path : bytes; we_info : option Inode; we_err : option error }.

(** filepath.Walk, what the function is called with. *)
Fixpoint walk_dir (fuel : nat) (fs : FSTree) (path : bytes) (info : Inode) : list walkEntry :=
  match fuel with
  | O => []
  | S fuel =>
    if negb (is_dir (kind info)) then [mkWalkEntry path (Some info) None]
    else
      match readDirNames env fs path with
      | Ok names =>
        mkWalkEntry path (Some info) None ::
        concat (map (fun name =>
          let filename := Path.Join path name in
          match Lstat env fs filename with
          | Ok i => walk_dir fuel fs filename i
          | Err e => [mkWalkEntry filename None (Some e)]
          | _ => []                        (* not reached: Lstat does not panic *)
          end) names)
      | Err e => [mkWalkEntry path (Some info) (Some e)]
      | _ => []
      end
  end.

(** Directories are nested at most as deep as the longest path has names. *)
Definition depth (fs : FSTree) : nat := S (foldr (fun x d => Nat.max (length (fst x)) d) 0%nat (map_to_list fs)).

Definition Walk (fs : FSTree) (root : bytes) : list walkEntry :=
  match Lstat env fs root with
  | Ok info => walk_dir (S (depth fs)) fs root info
  | Err e => [mkWalkEntry root None (Some e)]
  | _ => []
  end.

(** initForReading: the device of the root, or 0. *)
Definition root_device (fs : FSTree) : Z :=
  if OneFileSystem (opts lfs) then
    match Lstat env fs (Root lfs) with Ok info => i_dev info | _ => 0 end
  else 0.

(** startSerializer: directories on other devices are left out, but not what is in them. Without an
    info the function panics when a device is set. *)
Fixpoint serialize (dev : Z) (l : list walkEntry) : outcome (list walkEntry) :=
  match l with
  | [] => Ok []
  | e :: l =>
    if decide (dev = 0) then (l ← serialize dev l; Ok (e :: l))
    else
      match we_info e with
      | None => Panic
      | Some info =>
        l ← serialize dev l;
        Ok (if is_dir (kind info) && negb (bool_decide (i_dev info = dev)) then l else e :: l)
      end
  end.

Definition st_size (i : Inode) : Z :=
  match kind i with
  | KFile b => Z.of_nat (length b)
  | KSymlink t => Z.of_nat (length t)
  | KDir => dir_size env
  | KNode _ _ => 0
  end.

Definition st_rdev (i : Inode) : Z := match kind i with KNode _ r => r | _ => 0 end.

(** The File Next makes of an entry. *)
Definition file_of (path : bytes) (i : Inode) : File :=
  mkFile (Base path) (Clean path) (StatModeToFilemode (st_mode i)) (st_size i)
    (match kind i with KSymlink t => t | _ => [] end)
    (if NoTime (opts lfs) then 0 else i_mtime i) (i_uid i) (i_gid i)
    (Z.land (Z.shiftr (st_rdev i) 8) 0xfff)
    (Z.lor (st_rdev i mod 256) (Z.shiftr (Z.land (st_rdev i) 0xfff00000) 12))
    (i_xattrs i)
    (match kind i with KFile b => b | _ => [] end, None).

(** Next, until it returns an error: the files, and the error, io.EOF at the end. *)
Fixpoint next_all (l : list walkEntry) : list File * error :=
  match l with
  | [] => ([], ErrEOF)
  | e :: l =>
    match we_err e, we_info e with
    | Some err, _ => ([], err)
    | None, None => ([], ErrEOF)           (* not reached: an entry has an info or an error *)
    | None, Some i => let '(fs, err) := next_all l in (file_of (we_path e) i :: fs, err)
    end
  end.

Definition ReadAll (fs : FSTree) : outcome (list File * error) :=
  l ← serialize (root_device fs) (Walk fs (Root lfs)); Ok (next_all l).

End localfs.
