(* ===== verification/LocalTree.v ===== *)
(** * LocalTree: a directory survives being archived and extracted

    The round trip over real directories: LocalFS reads a directory, Tar archives it, UnTar extracts the
    archive with LocalFS into an empty directory. The theorem compares the two directories path by path. *)

From S2P Require Import Prelude FileMode Format Path Archive Tar Catar Posix LocalFS.

(** ** Physical paths *)

(** The names are those of directory entries, and everything above is a directory. *)
Definition names_ok (p : PathT) : Prop := Forall valid_name p.

Definition dirs_above (fs : FSTree) (p : PathT) : Prop :=
  forall n, (n < length p)%nat -> is_directory fs (take n p) = true.

Lemma names_snoc p c : names_ok (p ++ [c]) <-> names_ok p /\ valid_name c.
Proof. unfold names_ok. rewrite Forall_app, Forall_singleton. done. Qed.

Lemma names_normal r p : names_ok p -> normal r p.
Proof.
  induction p as [|c p IH] using rev_ind; [intros _; by split|].
  intros [Hp Hc]%names_snoc. by apply normal_snoc; [apply IH|].
Qed.

Lemma take_snoc_lt {A} (p : list A) c n : (n <= length p)%nat -> take n (p ++ [c]) = take n p.
Proof. intros Hn. by rewrite take_app_le. Qed.

Lemma dirs_above_snoc fs p c : dirs_above fs (p ++ [c]) <-> dirs_above fs p /\ is_directory fs p = true.
Proof.
  unfold dirs_above. rewrite length_app. cbn [length]. split.
  - intros H. split.
    + intros n Hn. rewrite <- (take_snoc_lt p c n) by lia. apply H. lia.
    + specialize (H (length p) ltac:(lia)). by rewrite take_snoc_lt, take_ge in H by lia.
  - intros [H1 H2] n Hn. rewrite take_snoc_lt by lia. destruct (decide (n = length p)) as [->|]; [by rewrite take_ge|].
    apply H1. lia.
Qed.

Lemma is_directory_spec fs p : is_directory fs p = true <-> exists i, fs !! p = Some i /\ kind i = KDir.
Proof.
  unfold is_directory. destruct (fs !! p) as [i|]; [|split; [done|by intros (? & ? & _)]].
  destruct i as [[] ? ? ? ? ? ?]; cbn; split; try done; try (by eexists); by intros (? & [= <-] & ?).
Qed.

(** Resolution of a path whose directories are there and are no symbolic links. *)
Lemma resolve_dirs links follow fs rest : forall at_,
  names_ok rest -> dirs_above fs (at_ ++ rest) ->
  (follow = true -> rest <> [] -> forall i t, fs !! (at_ ++ rest) = Some i -> kind i <> KSymlink t) ->
  resolve links follow fs at_ rest = Ok (at_ ++ rest).
Proof.
  assert (Hgo : forall at_, names_ok rest -> dirs_above fs (at_ ++ rest) ->
    (follow = true -> rest <> [] -> forall i t, fs !! (at_ ++ rest) = Some i -> kind i <> KSymlink t) ->
    forall l, l = links -> resolve l follow fs at_ rest = Ok (at_ ++ rest)); [|intros; by eapply Hgo].
  induction rest as [|c rest IH]; intros at_ Hn Hd Hs l ->.
  { by destruct links; cbn; rewrite app_nil_r. }
  inversion_clear Hn as [|? ? Hc Hn']. destruct Hc as (Hc1 & Hc2 & Hc3 & Hc4).
  assert (Hat : is_directory fs at_ = true).
  { specialize (Hd (length at_)). rewrite take_app_length in Hd. apply Hd. rewrite length_app. cbn. lia. }
  replace (at_ ++ c :: rest) with ((at_ ++ [c]) ++ rest) in * by (by rewrite <- app_assoc).
  assert (Hstep : resolve links follow fs at_ (c :: rest) =
    match fs !! (at_ ++ [c]) with
    | None => if decide (rest = []) then Ok (at_ ++ [c]) else Err ErrNotExist
    | Some i => match kind i with
                | KSymlink t => if bool_decide (rest = []) && negb follow then Ok (at_ ++ [c])
                                else match links with
                                     | O => Err ELOOP
                                     | S l => resolve l follow fs (if rooted t then [] else at_) (split_slash t ++ rest)
                                     end
                | _ => resolve links follow fs (at_ ++ [c]) rest
                end
    end).
  { destruct links; cbn [resolve]; rewrite Hat; cbn [negb];
      rewrite decide_False by tauto; rewrite decide_False by done; done. }
  rewrite Hstep. clear Hstep. destruct (decide (rest = [])) as [->|Hne].
  - rewrite app_nil_r in *. destruct (fs !! (at_ ++ [c])) as [i|] eqn:Ei; [|done].
    destruct (kind i) as [|b|t|? ?] eqn:Ek; try (by destruct links; cbn).
    destruct follow; [|done]. by destruct (Hs eq_refl ltac:(done) i t eq_refl).
  - assert (Hc : is_directory fs (at_ ++ [c]) = true).
    { specialize (Hd (length (at_ ++ [c]))). rewrite take_app_length in Hd. apply Hd.
      rewrite (length_app _ rest). destruct rest; [done|cbn; lia]. }
    apply is_directory_spec in Hc as (i & Ei & Ek). rewrite Ei, Ek.
    apply IH; [done|done| |done]. intros Hf _. by apply Hs.
Qed.

Lemma lookup_render env follow fs p :
  names_ok p -> dirs_above fs p ->
  (follow = true -> forall i t, fs !! p = Some i -> kind i <> KSymlink t) ->
  is_directory fs [] = true ->
  lookup_path env follow fs (render true p) = Ok p.
Proof.
  intros Hn Hd Hs Hroot. unfold lookup_path. rewrite decide_False by done.
  change (rooted (render true p)) with true. cbv iota.
  assert (Hsp : split_slash (render true p) = [] :: (match p with [] => [[]] | _ => p end)).
  { change (render true p) with ([] ++ slash :: join_slash p). rewrite split_app_slash by apply not_elem_of_nil.
    f_equal. destruct p as [|c p]; [done|]. apply split_join; [done|]. eapply Forall_impl; [exact Hn|].
    by intros ? (_ & ? & _). }
  rewrite Hsp. assert (Hskip : forall rest, resolve MAXSYMLINKS follow fs [] ([] :: rest) = resolve MAXSYMLINKS follow fs [] rest).
  { intros rest. cbn [resolve MAXSYMLINKS]. rewrite Hroot. cbn [negb]. by rewrite decide_True by auto. }
  rewrite Hskip. destruct p as [|c p]; [by rewrite Hskip|]. apply resolve_dirs; [done|done|]. intros Hf _. by apply Hs.
Qed.

(** A place in the tree, named by its clean path. *)
Definition place (fs : FSTree) (p : PathT) : Prop :=
  names_ok p /\ dirs_above fs p /\ is_directory fs [] = true.

(** What is a directory stays one. *)
Definition keeps_dirs (fs fs' : FSTree) : Prop :=
  forall q, is_directory fs q = true -> is_directory fs' q = true.

Lemma place_mono fs fs' p : place fs p -> keeps_dirs fs fs' -> place fs' p.
Proof. intros (H1 & H2 & H3) H. split; [done|]. split; [intros n Hn; by apply H, H2|by apply H]. Qed.

Lemma keeps_insert fs p i : (forall j, fs !! p = Some j -> kind j = KDir -> kind i = KDir) -> keeps_dirs fs (<[p := i]> fs).
Proof.
  intros Hk q (j & Hj & Hd)%is_directory_spec. apply is_directory_spec. destruct (decide (q = p)) as [->|Hne].
  - exists i. rewrite lookup_insert_eq. split; [done|]. by apply (Hk j).
  - exists j. by rewrite lookup_insert_ne.
Qed.

Section extraction.

Context (env : Process).

Lemma keeps_touch fs d : keeps_dirs fs (touch env d fs).
Proof.
  intros q (j & Hj & Hd)%is_directory_spec. apply is_directory_spec. unfold touch.
  destruct (decide (q = d)) as [->|Hne].
  - rewrite lookup_alter_eq, Hj. cbn. by eexists.
  - rewrite lookup_alter_ne by done. by exists j.
Qed.

Lemma at_place follow fs p f : place fs p ->
  (follow = true -> forall i t, fs !! p = Some i -> kind i <> KSymlink t) ->
  at_path env follow (render true p) f fs = f p (fs !! p) fs.
Proof. intros (H1 & H2 & H3) Hs. unfold at_path. by rewrite lookup_render. Qed.

Lemma Lstat_place fs p : place fs p ->
  Lstat env fs (render true p) = match fs !! p with Some i => Ok i | None => Err ErrNotExist end.
Proof. intros (H1 & H2 & H3). unfold Lstat. by rewrite lookup_render. Qed.

(** The tree has [i] at the place [p]. *)
Definition here (fs : FSTree) (p : PathT) (i : Inode) : Prop := place (<[p := i]> fs) p.

Lemma here_kind fs p i j : here fs p i -> kind j = kind i -> here fs p j.
Proof.
  intros H E. apply (place_mono (<[p := j]> (<[p := i]> fs))).
  - eapply place_mono; [exact H|]. apply keeps_insert. intros k. rewrite lookup_insert_eq. by intros [= <-] <-.
  - rewrite insert_insert_eq. by intros q.
Qed.

Lemma change_here follow fs p f i : here fs p i ->
  (follow = true -> forall t, kind i <> KSymlink t) ->
  change env follow (render true p) f (<[p := i]> fs) = (None, <[p := f i]> fs).
Proof.
  intros H Hs. unfold change. rewrite at_place; [|done|].
  - by rewrite lookup_insert_eq, insert_insert_eq.
  - intros Hf j t. rewrite lookup_insert_eq. intros [= <-]. by apply Hs.
Qed.

Definition with_xattrs (i : Inode) (x : Xattrs) : Inode := mkInode (kind i) (perm i) (i_uid i) (i_gid i) (i_mtime i) x (i_dev i).

Lemma set_xattrs_here fs p i l : here fs p i ->
  Forall (fun kv => xattr_allowed env (kind i) (fst kv) = true) l ->
  set_xattrs env (render true p) l (<[p := i]> fs) =
  (None, <[p := with_xattrs i (foldl (fun x kv => <[fst kv := snd kv]> x) (i_xattrs i) l)]> fs).
Proof.
  intros H Hl. revert i H Hl. induction l as [|[k v] l IH]; intros i H Hl; cbn [set_xattrs foldl].
  { by destruct i. }
  inversion_clear Hl as [|? ? Hk Hl']. cbn [fst snd] in *. unfold andthen, LSet. rewrite at_place by done.
  rewrite lookup_insert_eq, Hk, insert_insert_eq. rewrite IH; [done|by eapply here_kind|done].
Qed.

Lemma foldl_map (x : Xattrs) : foldl (fun x kv => <[fst kv := snd kv]> x) ∅ (map_to_list x) = x.
Proof.
  assert (Hl : forall (l : list (bytes * bytes)) (m : Xattrs), NoDup l.*1 -> foldl (fun x kv => <[fst kv := snd kv]> x) m l = list_to_map l ∪ m).
  { induction l as [|[k v] l IH]; intros m Hn; [by rewrite list_to_map_nil, map_empty_union|].
    cbn [fmap list_fmap] in Hn. inversion_clear Hn as [|? ? Hk Hn']. cbn [foldl fst snd]. rewrite IH by done.
    cbn [list_to_map foldr]. unfold uncurry; cbn [fst snd].
    rewrite <- insert_union_l. rewrite insert_union_r; [done|]. by apply not_elem_of_list_to_map_1. }
  rewrite Hl by apply NoDup_fst_map_to_list. rewrite map_union_empty. apply list_to_map_to_list.
Qed.
(** ** What a created file looks like *)

Context (o : LocalFSOptions) (Howner : NoSameOwner o = false) (Hperms : NoSamePermissions o = false).
Context (R : PathT).

Let lfs : LocalFS := NewLocalFS (render true R) o.

(** The owner, the attributes, the permissions and the time set for [n] on a new file. *)
Definition settled (n : NodeAttrs) (i : Inode) : Inode :=
  mkInode (kind i) (Z.land (FilemodeToStatMode (Archive.Mode n)) 4095) (UID n) (GID n)
    (if bool_decide (MTime n = 0) then i_mtime i else MTime n) (nXattrs n) (i_dev i).

Definition attrs_allowed (k : Kind) (x : Xattrs) : Prop :=
  Forall (fun kv => xattr_allowed env k (fst kv) = true) (map_to_list x).

Lemma owner_here follow h p i uid gid x :
  here h p i -> i_xattrs i = ∅ -> attrs_allowed (kind i) x ->
  (follow = true -> forall t, kind i <> KSymlink t) ->
  andthen (Chown_ env follow (render true p) uid gid) (set_xattrs env (render true p) (map_to_list x)) (<[p := i]> h) =
  (None, <[p := mkInode (kind i) (chown_perm i) uid gid (i_mtime i) x (i_dev i)]> h).
Proof.
  intros H Hx Ha Hs. unfold andthen, Chown_. rewrite change_here by done.
  rewrite set_xattrs_here; [|by eapply here_kind|done].
  unfold with_xattrs. cbn [kind perm i_uid i_gid i_mtime i_xattrs i_dev]. by rewrite Hx, foldl_map.
Qed.

(** What all but symbolic links end with; the calls of devices wrap an error. *)
Lemma settle (wrap : call -> call) h p i n :
  here h p i -> i_xattrs i = ∅ -> attrs_allowed (kind i) (nXattrs n) -> (forall t, kind i <> KSymlink t) ->
  dst lfs (Archive.Name n) = render true p ->
  (forall c fs fs', c fs = (None, fs') -> wrap c fs = (None, fs')) ->
  andthen (when true (andthen (Chown env (dst lfs (Archive.Name n)) (UID n) (GID n))
                        (set_xattrs env (dst lfs (Archive.Name n)) (map_to_list (nXattrs n)))))
    (andthen (when true (wrap (Chmod env (dst lfs (Archive.Name n)) (FilemodeToStatMode (Archive.Mode n)))))
       (set_times env lfs n)) (<[p := i]> h) =
  (None, <[p := settled n i]> h).
Proof.
  intros H Hx Ha Hs Hdst Hw. rewrite Hdst. unfold andthen at 1. unfold when at 1.
  change (Chown env) with (Chown_ env true). rewrite owner_here by done.
  unfold andthen, when. set (j := mkInode _ _ _ _ _ _ _).
  assert (Hj : here h p j) by (by eapply here_kind).
  erewrite Hw; [|apply change_here; [done|by intros _]].
  unfold set_times. rewrite Hdst. unfold when, settled. destruct (bool_decide (MTime n = 0)); cbn [negb]; [done|].
  unfold Chtimes. rewrite change_here; [done|by eapply here_kind|by intros _].
Qed.

Lemma andthen_assoc c d e fs : andthen (andthen c d) e fs = andthen c (andthen d e) fs.
Proof. unfold andthen. destruct (c fs) as [[|] ?]; [done|]. done. Qed.

(** A new file in the tree. *)
Lemma added_here fs p k mode : place fs p -> fs !! p = None -> p <> [] ->
  here (touch env (removelast p) fs) p (fresh env (fs !! removelast p) k mode).
Proof.
  intros H Hn Hp. apply (place_mono fs); [done|]. intros q Hq. apply keeps_insert; [|by apply keeps_touch].
  intros j Hj. unfold touch in Hj. rewrite lookup_alter_ne in Hj; [congruence|]. intros E.
  apply (f_equal length) in E. destruct p as [|? ? _] using rev_ind; [done|].
  rewrite removelast_last, length_app in E. cbn in E. lia.
Qed.

Definition fresh_dev (parent : option Inode) : Z := match parent with Some i => i_dev i | None => 0 end.

Lemma create_dir_fresh fs p n :
  place fs p -> fs !! p = None -> p <> [] -> dst lfs (Archive.Name n) = render true p ->
  attrs_allowed KDir (nXattrs n) ->
  LocalFS_CreateDir env lfs n fs =
  (None, <[p := mkInode KDir (Z.land (FilemodeToStatMode (Archive.Mode n)) 4095) (UID n) (GID n)
             (if bool_decide (MTime n = 0) then now env else MTime n) (nXattrs n) (fresh_dev (fs !! removelast p))]>
           (touch env (removelast p) fs)).
Proof using Howner Hperms.
  intros H Hn Hp Hdst Ha. unfold LocalFS_CreateDir, andthen at 1, make_dir. rewrite Hdst, Lstat_place, Hn by done.
  unfold Mkdir. rewrite at_place, Hn by done. unfold add_file.
  set (i := fresh env (fs !! removelast p) KDir 511). unfold SetDirPermissions. rewrite andthen_assoc.
  change (opts lfs) with o. rewrite Howner, Hperms. cbn [negb].
  rewrite (settle id); [done| |done|done|done|done|done]. by apply added_here.
Qed.

(** The target directory itself. *)
Lemma create_dir_existing fs p i n :
  place fs p -> fs !! p = Some i -> kind i = KDir -> dst lfs (Archive.Name n) = render true p ->
  i_xattrs i = ∅ -> attrs_allowed KDir (nXattrs n) ->
  LocalFS_CreateDir env lfs n fs = (None, <[p := settled n i]> fs).
Proof using Howner Hperms.
  intros H Hi Hk Hdst Hx Ha. unfold LocalFS_CreateDir, andthen at 1, make_dir. rewrite Hdst, Lstat_place, Hi, Hk by done.
  cbn [is_dir]. unfold SetDirPermissions. rewrite andthen_assoc. change (opts lfs) with o. rewrite Howner, Hperms. cbn [negb].
  rewrite <- (insert_id fs p i Hi) at 1. rewrite (settle id); [done| |done|by rewrite Hk|by rewrite Hk|done|done].
  unfold here. by rewrite insert_id.
Qed.

Lemma no_symlink_missing (fs : FSTree) p : fs !! p = None -> forall i t, fs !! p = Some i -> kind i <> KSymlink t.
Proof. intros E i t. by rewrite E. Qed.

Lemma last_name p : names_ok p -> p <> [] -> last (split_slash (render true p)) <> Some dot.
Proof.
  intros Hn Hp. change (render true p) with ([] ++ slash :: join_slash p).
  rewrite split_app_slash by apply not_elem_of_nil. rewrite split_join; [|done|].
  2:{ eapply Forall_impl; [exact Hn|]. by intros ? (_ & ? & _). }
  destruct p as [|c p _] using rev_ind; [done|]. apply names_snoc in Hn as [_ Hc].
  rewrite app_comm_cons, last_snoc. intros [= ->]. by destruct Hc as (_ & _ & ? & _).
Qed.

Lemma create_file_fresh fs p n size b :
  place fs p -> fs !! p = None -> p <> [] -> dst lfs (Archive.Name n) = render true p ->
  attrs_allowed (KFile b) (nXattrs n) ->
  LocalFS_CreateFile env lfs n size (b, None) fs =
  (length b, None, <[p := mkInode (KFile b) (Z.land (FilemodeToStatMode (Archive.Mode n)) 4095) (UID n) (GID n)
             (if bool_decide (MTime n = 0) then now env else MTime n) (nXattrs n) (fresh_dev (fs !! removelast p))]>
           (touch env (removelast p) fs)).
Proof using Howner Hperms.
  intros H Hn Hp Hdst Ha. unfold LocalFS_CreateFile, andthen at 1, unless_missing, RemoveAll. rewrite Hdst.
  rewrite decide_False by (apply last_name; [apply H|done]).
  destruct H as (H1 & H2 & H3). rewrite lookup_render by done. rewrite Hn. cbv iota beta.
  assert (H : place fs p) by done. unfold Create. rewrite at_place; [|done|intros _; by apply no_symlink_missing].
  rewrite Hn. unfold add_file. set (i := fresh env (fs !! removelast p) (KFile []) 438). set (h := touch env (removelast p) fs).
  assert (Hh : here h p i) by (by apply added_here).
  assert (Hc : copy_data env lfs n (b, None) (<[p := i]> h) = (None, <[p := set_kind i (KFile b) (now env)]> h)).
  { unfold copy_data, Append. rewrite Hdst. rewrite change_here; [|done|by intros _]. done. }
  unfold andthen at 1. rewrite Hc. unfold SetFilePermissions. rewrite andthen_assoc.
  change (opts lfs) with o. rewrite Howner, Hperms. cbn [negb].
  rewrite (settle id); [done| |done|done|done|done|done].
  apply (place_mono (<[p := set_kind i (KFile b) (now env)]> (<[p := i]> h))).
  - eapply place_mono; [exact Hh|]. apply keeps_insert. intros j. rewrite lookup_insert_eq. by intros [= <-].
  - rewrite insert_insert_eq. by intros q.
Qed.

Lemma unlink_missing fs p : place fs p -> fs !! p = None -> unless_missing (Unlink env (render true p)) fs = (None, fs).
Proof. intros H Hn. unfold unless_missing, Unlink. by rewrite at_place, Hn by done. Qed.

Lemma create_symlink_fresh fs p n t :
  place fs p -> fs !! p = None -> p <> [] -> dst lfs (Archive.Name n) = render true p ->
  attrs_allowed (KSymlink t) (nXattrs n) -> t <> [] ->
  LocalFS_CreateSymlink env lfs n t fs =
  (None, <[p := mkInode (KSymlink t) 511 (UID n) (GID n) (now env) (nXattrs n) (fresh_dev (fs !! removelast p))]>
           (touch env (removelast p) fs)).
Proof using Howner.
  intros H Hn Hp Hdst Ha Ht. unfold LocalFS_CreateSymlink, andthen at 1. rewrite Hdst, unlink_missing by done.
  unfold andthen at 1, Symlink. rewrite decide_False by done. rewrite at_place, Hn by done. unfold add_file.
  set (i := fresh env (fs !! removelast p) (KSymlink t) 511).
  unfold SetSymlinkPermissions. change (opts lfs) with o. rewrite Howner. cbn [negb]. unfold when. rewrite Hdst.
  change (Lchown env) with (Chown_ env false). rewrite owner_here; [|by apply added_here|done|done|done].
  assert (Hperm : chown_perm i = 511); [|by rewrite Hperm].
  unfold chown_perm, i, fresh. cbn [kind is_dir perm]. by rewrite andb_false_r.
Qed.

Lemma create_device_fresh fs p n major minor :
  let fmt := Z.land (Z.lor (FilemodeToStatMode (Archive.Mode n)) 438) S_IFMT in
  let k := KNode fmt (i64 (mkdev major minor)) in
  place fs p -> fs !! p = None -> p <> [] -> dst lfs (Archive.Name n) = render true p ->
  attrs_allowed k (nXattrs n) -> fmt <> 0 -> fmt <> S_IFREG -> fmt <> S_IFDIR -> fmt <> S_IFLNK ->
  LocalFS_CreateDevice env lfs n major minor fs =
  (None, <[p := mkInode k (Z.land (FilemodeToStatMode (Archive.Mode n)) 4095) (UID n) (GID n)
             (if bool_decide (MTime n = 0) then now env else MTime n) (nXattrs n) (fresh_dev (fs !! removelast p))]>
           (touch env (removelast p) fs)).
Proof using Howner Hperms.
  intros fmt k H Hn Hp Hdst Ha H0 H1 H2 H3. unfold LocalFS_CreateDevice, andthen at 1. rewrite Hdst at 1.
  rewrite unlink_missing by done.
  set (i := fresh env (fs !! removelast p) k (Z.lor (FilemodeToStatMode (Archive.Mode n)) 438)).
  assert (Hm : wrapped "mknod" (Mknod env (dst lfs (Archive.Name n)) (Z.lor (FilemodeToStatMode (Archive.Mode n)) 438)
      (i64 (mkdev major minor))) fs = (None, <[p := i]> (touch env (removelast p) fs))).
  { unfold wrapped, Mknod. rewrite Hdst, at_place, Hn by done. fold fmt.
    rewrite decide_False by tauto. rewrite decide_False by done. rewrite decide_False by done. done. }
  unfold andthen at 1. rewrite Hm. change (opts lfs) with o. rewrite Howner, Hperms. cbn [negb].
  rewrite (settle (wrapped "chmod")); [done| |done|done|done|done|].
  - by apply added_here.
  - intros c g g' E. unfold wrapped. by rewrite E.
Qed.

End extraction.

(** ** Modes and device numbers survive *)

Definition type_ok (m : Z) : bool :=
  negb (valid_stat_mode m) ||
  (let fm := StatModeToFilemode m in
   bool_decide (IsDir fm = bool_decide (Z.land m S_IFMT = S_IFDIR)) &&
   bool_decide (IsRegular fm = bool_decide (Z.land m S_IFMT = S_IFREG)) &&
   bool_decide (IsSymlink fm = bool_decide (Z.land m S_IFMT = S_IFLNK)) &&
   bool_decide (IsDevice fm = bool_decide (Z.land m S_IFMT = S_IFBLK \/ Z.land m S_IFMT = S_IFCHR))).

Lemma type_ok_all : all_from type_ok (Z.to_nat (2 ^ 16)) 0 = true.
Proof. vm_compute. reflexivity. Qed.

Lemma mode_types m : valid_stat_mode m = true ->
  IsDir (StatModeToFilemode m) = bool_decide (Z.land m S_IFMT = S_IFDIR) /\
  IsRegular (StatModeToFilemode m) = bool_decide (Z.land m S_IFMT = S_IFREG) /\
  IsSymlink (StatModeToFilemode m) = bool_decide (Z.land m S_IFMT = S_IFLNK) /\
  IsDevice (StatModeToFilemode m) = bool_decide (Z.land m S_IFMT = S_IFBLK \/ Z.land m S_IFMT = S_IFCHR).
Proof.
  intros Hm. assert (type_ok m = true) as H.
  { apply (all_from_spec _ _ _ m type_ok_all). unfold valid_stat_mode in Hm. apply andb_true_iff in Hm as [Hr _].
    apply bool_decide_eq_true in Hr. lia. }
  unfold type_ok in H. rewrite Hm in H. cbn [negb orb] in H. rewrite !andb_true_iff, !bool_decide_eq_true in H. tauto.
Qed.

(** The mode of a file of a type. *)
Lemma mode_parts fmt p : fmt ∈ stat_types -> 0 <= p < 4096 ->
  Z.land (Z.lor fmt p) 4095 = p /\ Z.land (Z.lor fmt p) S_IFMT = fmt /\
  Z.land (Z.lor (Z.lor fmt p) 438) S_IFMT = fmt /\ valid_stat_mode (Z.lor fmt p) = true.
Proof.
  intros Hf Hp.
  assert (Hf0 : Z.land fmt 4095 = 0 /\ Z.land fmt S_IFMT = fmt /\ 0 <= fmt < 2 ^ 16)
    by (repeat (apply elem_of_cons in Hf as [->|Hf]; [by vm_compute|]); by apply elem_of_nil in Hf).
  destruct Hf0 as (H1 & H2 & H3).
  assert (Hp1 : Z.land p 4095 = p) by (change 4095 with (Z.ones 12); rewrite Z.land_ones by lia; apply Z.mod_small; lia).
  assert (Hp2 : Z.land p S_IFMT = 0) by (rewrite <- Hp1, <- Z.land_assoc; by change (Z.land 4095 S_IFMT) with 0; apply Z.land_0_r).
  assert (Hall : Z.land (Z.lor fmt p) S_IFMT = fmt) by (by rewrite Z.land_lor_distr_l, H2, Hp2, Z.lor_0_r).
  split; [by rewrite Z.land_lor_distr_l, H1, Hp1|]. split; [done|].
  split; [by rewrite Z.land_lor_distr_l, Hall; change (Z.land 438 S_IFMT) with 0; apply Z.lor_0_r|].
  unfold valid_stat_mode. rewrite Hall. rewrite (bool_decide_true (fmt ∈ _)) by done.
  rewrite bool_decide_true; [done|]. split; [apply Z.lor_nonneg; lia|].
  assert (Hl : Z.land (Z.lor fmt p) (Z.ones 16) = Z.lor fmt p).
  { rewrite Z.land_lor_distr_l, !Z.land_ones, !Z.mod_small by lia. done. }
  rewrite <- Hl, Z.land_ones by lia. apply Z.mod_pos_bound. lia.
Qed.

Lemma testbit_high r n : 0 <= r < 2 ^ 32 -> 32 <= n -> Z.testbit r n = false.
Proof.
  intros Hr Hn. rewrite <- (Z.mod_small r (2 ^ 32)) by lia. by apply Z.mod_pow2_bits_high.
Qed.

Lemma testbit_mask lo len n : 0 <= lo -> 0 <= len ->
  Z.testbit (Z.shiftl (Z.ones len) lo) n = bool_decide (lo <= n < lo + len).
Proof.
  intros Hlo Hlen. destruct (decide (0 <= n)) as [Hn|Hn].
  2:{ rewrite Z.testbit_neg_r by lia. by rewrite bool_decide_false by lia. }
  rewrite Z.shiftl_spec by done. destruct (decide (lo <= n)) as [H|H].
  - rewrite Z.testbit_ones by lia. apply Bool.eq_iff_eq_true.
    rewrite andb_true_iff, Z.leb_le, Z.ltb_lt, bool_decide_eq_true. lia.
  - rewrite Z.testbit_neg_r by lia. by rewrite bool_decide_false by lia.
Qed.

(** Masks of the device numbers. *)
Lemma masks :
  0xfff = Z.shiftl (Z.ones 12) 0 /\ 0xff = Z.shiftl (Z.ones 8) 0 /\ 0xfff00000 = Z.shiftl (Z.ones 12) 20 /\
  0xfffff000 = Z.shiftl (Z.ones 20) 12 /\ 0xffffff00 = Z.shiftl (Z.ones 24) 8.
Proof. by vm_compute. Qed.

Lemma bounded_bits x k : 0 <= k -> (forall n, k <= n -> Z.testbit x n = false) -> 0 <= x < 2 ^ k.
Proof.
  intros Hk H. assert (x = Z.land x (Z.ones k)) as ->.
  - apply Z.bits_inj'. intros n Hn. rewrite Z.land_spec, Z.testbit_ones by lia.
    destruct (decide (k <= n)); [rewrite H by done; done|].
    replace (n <? k) with true by lia. replace (0 <=? n) with true by lia. by rewrite andb_true_r.
  - rewrite Z.land_ones by done. apply Z.mod_pos_bound. lia.
Qed.

Section rdev.

Context (r : Z) (Hr : 0 <= r < 2 ^ 32).

Let major := Z.land (Z.shiftr r 8) 0xfff.
Let minor := Z.lor (r mod 256) (Z.shiftr (Z.land r 0xfff00000) 12).

Lemma major_bits n : 0 <= n -> Z.testbit major n = bool_decide (n < 12) && Z.testbit r (n + 8).
Proof.
  intros Hn. destruct masks as (M & _). unfold major. rewrite M, Z.land_spec, Z.shiftr_spec, testbit_mask by lia.
  rewrite andb_comm. f_equal. apply bool_decide_ext. lia.
Qed.

Lemma minor_bits n : 0 <= n ->
  Z.testbit minor n = bool_decide (n < 8) && Z.testbit r n || bool_decide (8 <= n < 20) && Z.testbit r (n + 12).
Proof.
  intros Hn. destruct masks as (_ & M2 & M3 & _). unfold minor. change 256 with (2 ^ 8).
  rewrite M3, Z.lor_spec, Z.shiftr_spec, Z.land_spec, testbit_mask by lia.
  rewrite <- Z.land_ones by lia. change (Z.ones 8) with 0xff. rewrite M2, Z.land_spec, testbit_mask by lia.
  rewrite (andb_comm (Z.testbit r n)), (andb_comm (Z.testbit r (n + 12))).
  f_equal; f_equal; apply bool_decide_ext; lia.
Qed.

(** The numbers of devices of 32 bits survive the way through major and minor numbers. *)
Lemma rdev_round_trip : i64 (mkdev major minor) = r.
Proof using Hr.
  destruct masks as (M1 & M2 & _ & M4 & M5). unfold mkdev. rewrite M1, M2, M4, M5.
  assert (Hb : forall x lo len s n, 0 <= n -> 0 <= s -> 0 <= lo -> 0 <= len ->
    Z.testbit (Z.shiftl (Z.land x (Z.shiftl (Z.ones len) lo)) s) n =
    bool_decide (lo <= n - s < lo + len) && Z.testbit x (n - s)).
  { intros x lo len s n H1 H2 H3 H4. rewrite Z.shiftl_spec, Z.land_spec, testbit_mask by lia. apply andb_comm. }
  assert (Hsmall : forall x lo len s, 0 <= s -> 0 <= lo -> 0 <= len -> lo + len + s <= 64 ->
    u64 (Z.shiftl (Z.land x (Z.shiftl (Z.ones len) lo)) s) = Z.shiftl (Z.land x (Z.shiftl (Z.ones len) lo)) s).
  { intros x lo len s H1 H2 H3 H4. apply u64_small. cut (0 <= Z.shiftl (Z.land x (Z.shiftl (Z.ones len) lo)) s < 2 ^ 64); [mach_lia|].
    apply bounded_bits; [lia|]. intros n Hn. rewrite Hb by lia. by rewrite bool_decide_false by lia. }
  rewrite !Hsmall by lia. rewrite <- (Z.shiftl_0_r (Z.land minor _)) at 1.
  set (e := lors _). assert (E : e = r); [|rewrite E; apply i64_small; mach_lia].
  apply Z.bits_inj'. intros n Hn. unfold e. cbn [lors foldr]. rewrite !Z.lor_spec, Z.bits_0, !Hb by lia.
  rewrite orb_false_r, Z.sub_0_r. clear e Hb Hsmall.
  destruct (decide (n < 8)); [|destruct (decide (n < 20)); [|destruct (decide (n < 32))]].
  - rewrite minor_bits by lia. rewrite (bool_decide_false (0 <= n - 8 < _)), (bool_decide_false (_ <= n - 32 < _)),
      (bool_decide_false (_ <= n - 12 < _)), (bool_decide_true (0 <= n < _)), (bool_decide_true (n < 8)),
      (bool_decide_false (8 <= n < 20)) by lia. cbn [andb orb]. by rewrite !orb_false_r.
  - rewrite major_bits by lia. rewrite (bool_decide_true (0 <= n - 8 < _)), (bool_decide_false (_ <= n - 32 < _)),
      (bool_decide_false (_ <= n - 12 < _)), (bool_decide_false (0 <= n < _)), (bool_decide_true (n - 8 < 12)) by lia.
    cbn [andb orb]. rewrite orb_false_r. f_equal. lia.
  - rewrite (minor_bits (n - 12)) by lia. rewrite (bool_decide_false (0 <= n - 8 < _)), (bool_decide_false (_ <= n - 32 < _)),
      (bool_decide_true (_ <= n - 12 < _)), (bool_decide_false (0 <= n < _)), (bool_decide_false (n - 12 < 8)),
      (bool_decide_true (8 <= n - 12 < 20)) by lia. cbn [andb orb]. f_equal. lia.
  - rewrite (bool_decide_false (0 <= n - 8 < _)), (bool_decide_false (0 <= n < _)) by lia. cbn [andb orb].
    rewrite major_bits, minor_bits by lia.
    rewrite (testbit_high r n) by lia.
    rewrite (bool_decide_false (n - 12 < 8)), (bool_decide_false (8 <= n - 12 < 20)) by lia. cbn [andb orb].
    rewrite andb_false_r, orb_false_r. destruct (decide (n < 44)).
    + by rewrite bool_decide_false by lia.
    + rewrite (bool_decide_false (n - 32 < 12)) by lia. by rewrite andb_false_r.
Qed.

End rdev.

(** ** Files and the archive *)

Definition node_types : list Z := [S_IFBLK; S_IFCHR; S_IFIFO; S_IFSOCK].

Definition kind_ok (k : Kind) : Prop :=
  match k with
  | KDir | KFile _ => True
  | KSymlink t => t <> []
  | KNode f r => f ∈ node_types /\ 0 <= r < 2 ^ 32
  end.

(** What a file system holds, of files whose attributes it also takes. *)
Record inode_ok (env : Process) (i : Inode) : Prop := {
  ok_kind : kind_ok (kind i);
  ok_perm : 0 <= perm i < 4096;
  ok_owner : is_i64 (i_uid i);
  ok_group : is_i64 (i_gid i);
  ok_time : is_i64 (i_mtime i);
  ok_keys : Forall (fun k => Byte.x00 ∉ k) (map fst (map_to_list (i_xattrs i)));
  ok_allowed : attrs_allowed env (kind i) (i_xattrs i)
}.

(** All but pipes and sockets. *)
Definition archived (i : Inode) : bool :=
  match kind i with KNode f _ => bool_decide (f = S_IFBLK \/ f = S_IFCHR) | _ => true end.

(** What comes out of an archive of [i], on the device [d]. *)
Definition made (env : Process) (i : Inode) (d : Z) : Inode :=
  match kind i with
  | KSymlink t => mkInode (KSymlink t) 511 (i_uid i) (i_gid i) (now env) (i_xattrs i) d
  | k => mkInode k (perm i) (i_uid i) (i_gid i) (if bool_decide (i_mtime i = 0) then now env else i_mtime i) (i_xattrs i) d
  end.

Section files.

Context (env : Process) (src : LocalFS) (Htime : NoTime (opts src) = false).

Lemma fmt_types k : kind_ok k -> fmt_of k ∈ stat_types.
Proof.
  destruct k as [|b|t|f r]; cbn [fmt_of kind_ok]; try (intros _; by apply (bool_decide_unpack _)).
  intros [Hf _]. unfold node_types in Hf.
  repeat (apply elem_of_cons in Hf as [->|Hf]; [by apply (bool_decide_unpack _)|]). by apply elem_of_nil in Hf.
Qed.

Lemma file_modes path i : inode_ok env i ->
  let m := fMode (file_of env src path i) in
  valid_filemode m = true /\ IsDir m = is_dir (kind i) /\
  IsRegular m = (match kind i with KFile _ => true | _ => false end) /\
  IsSymlink m = (match kind i with KSymlink _ => true | _ => false end) /\
  supported (file_of env src path i) = archived i /\
  Z.land (FilemodeToStatMode m) 4095 = perm i /\
  Z.land (Z.lor (FilemodeToStatMode m) 438) S_IFMT = fmt_of (kind i).
Proof.
  intros Hi. cbn [fMode file_of]. unfold supported. cbn [fMode file_of]. unfold st_mode.
  pose proof (fmt_types _ (ok_kind _ _ Hi)) as Hf.
  destruct (mode_parts _ _ Hf (ok_perm _ _ Hi)) as (H1 & H2 & H3 & H4).
  destruct (mode_types _ H4) as (-> & -> & -> & ->). rewrite (stat_mode_inverse _ H4), H1, H2, H3.
  split; [by apply StatModeToFilemode_valid|]. unfold archived.
  pose proof (ok_kind _ _ Hi) as Hk. destruct (kind i) as [|b|t|f r]; cbn [fmt_of is_dir]; try (by split_and!).
  destruct Hk as [Hk _]. unfold node_types in Hk.
  repeat (apply elem_of_cons in Hk as [->|Hk]; [by split_and!|]). by apply elem_of_nil in Hk.
Qed.

Lemma file_ok_of path i : inode_ok env i -> file_ok (file_of env src path i).
Proof.
  intros Hi. destruct (file_modes path i Hi) as (H1 & _ & H3 & _). split; try done.
  - apply Hi.
  - apply Hi.
  - cbn [ModTime file_of]. rewrite Htime. apply Hi.
  - cbn [DevMajor file_of]. change 0xfff with (Z.ones 12). rewrite Z.land_ones by lia.
    pose proof (Z.mod_pos_bound (Z.shiftr (st_rdev i) 8) (2 ^ 12)). mach_lia.
  - cbn [DevMinor file_of]. destruct (decide (0 <= st_rdev i < 2 ^ 32)) as [Hr|Hr].
    + cut (0 <= Z.lor (st_rdev i mod 256) (Z.shiftr (Z.land (st_rdev i) 0xfff00000) 12) < 2 ^ 20); [mach_lia|].
      apply bounded_bits; [lia|]. intros n Hn. rewrite minor_bits by lia.
      rewrite (bool_decide_false (n < 8)), (bool_decide_false (8 <= n < 20)) by lia. done.
    + exfalso. apply Hr. unfold st_rdev. pose proof (ok_kind _ _ Hi) as Hk. destruct (kind i); try lia. apply Hk.
  - apply Hi.
  - intros Hreg. rewrite H3 in Hreg. split; [|done]. cbn [fSize fData file_of fst]. unfold st_size.
    by destruct (kind i).
Qed.

End files.

Lemma push_names r st : forall a, names_ok st -> foldl (push r) a st = a ++ st.
Proof.
  induction st as [|c st IH]; intros a Hst; cbn [foldl]; [by rewrite app_nil_r|].
  inversion_clear Hst. rewrite IH, push_name by done. by rewrite <- app_assoc.
Qed.

(** The path of a node of the archive under the target. *)
Lemma Join_render p st : names_ok p -> names_ok st -> Path.Join (render true p) (render false st) = render true (p ++ st).
Proof.
  intros Hp Hst. pose proof (names_normal true _ Hp) as Hn. pose proof (names_normal false _ Hst) as Hm.
  unfold Path.Join. rewrite decide_False by done. rewrite decide_False by (by apply render_ne).
  unfold Clean. assert (rooted (render true p ++ slash :: render false st) = true) as -> by done.
  f_equal. destruct (split_app (render true p) (render false st)) as (l & Hl & ->).
  unfold norm. rewrite foldl_app. change (foldl (push true) [] l) with (norm true l).
  rewrite <- Hl, split_render by done. unfold render. destruct (decide (st = [])) as [->|Hne].
  - change (split_slash dot) with [dot]. cbn [foldl]. unfold push. rewrite decide_True by auto. by rewrite app_nil_r.
  - rewrite split_join; [|done|]; [by apply push_names|]. eapply Forall_impl; [exact Hst|]. by intros ? (_ & ? & _).
Qed.

Section create.

Context (env : Process) (src : LocalFS) (Htime : NoTime (opts src) = false).
Context (o : LocalFSOptions) (Howner : NoSameOwner o = false) (Hperms : NoSamePermissions o = false).
Context (R : PathT).

Let lfs : LocalFS := NewLocalFS (render true R) o.

#[local] Existing Instance LocalFS_writer.

Lemma create_made fs st path i :
  inode_ok env i -> archived i = true -> st <> [] -> place fs (R ++ st) -> fs !! (R ++ st) = None ->
  create_file (W := FSTree) (H := LocalFS_writer env lfs) (render false st) (file_of env src path i) fs =
  (None, <[R ++ st := made env i (fresh_dev (fs !! removelast (R ++ st)))]> (touch env (removelast (R ++ st)) fs)).
Proof using Htime Howner Hperms.
  intros Hi Har Hst Hp Hn. destruct (file_modes env src path i Hi) as (H1 & H2 & H3 & H4 & _ & H6 & H7).
  assert (Hd : dst lfs (render false st) = render true (R ++ st)).
  { destruct Hp as (Hn1 & _). apply Forall_app in Hn1 as [? ?]. by apply Join_render. }
  assert (Hne : R ++ st <> []) by (by destruct R, st). subst lfs.
  unfold create_file. rewrite H2, H3, H4. pose proof (ok_allowed _ _ Hi) as Ha. pose proof (ok_kind _ _ Hi) as Hk.
  set (n := mkAttrs _ _ _ _ _ _).
  assert (Hmt : MTime n = i_mtime i) by (cbn [MTime n ModTime file_of]; by rewrite Htime).
  unfold made. unfold archived in Har. destruct (kind i) as [|b|t|f r] eqn:Ek; cbn [is_dir].
  - cbn [CreateDir LocalFS_writer]. rewrite (create_dir_fresh env o Howner Hperms R fs (R ++ st) n) by done.
    rewrite Hmt. cbn [Archive.Mode n UID GID nXattrs]. by rewrite H6.
  - cbn [CreateFile LocalFS_writer fData file_of fst]. rewrite Ek.
    rewrite (create_file_fresh env o Howner Hperms R fs (R ++ st) n _ b) by done.
    rewrite Hmt. cbn [Archive.Mode n UID GID nXattrs]. by rewrite H6.
  - cbn [CreateSymlink LocalFS_writer LinkTarget file_of]. rewrite Ek.
    by rewrite (create_symlink_fresh env o Howner R fs (R ++ st) n t).
  - cbn [CreateDevice LocalFS_writer DevMajor DevMinor file_of]. unfold st_rdev. rewrite Ek.
    destruct Hk as [Hf Hr]. apply bool_decide_eq_true in Har.
    pose proof (create_device_fresh env o Howner Hperms R fs (R ++ st) n
      (Z.land (Z.shiftr r 8) 0xfff) (Z.lor (r mod 256) (Z.shiftr (Z.land r 0xfff00000) 12))) as E.
    cbv zeta in E. cbn [Archive.Mode n UID GID nXattrs] in E. fold n in E.
    rewrite rdev_round_trip, H7, H6, Hmt in E by done. cbn [fmt_of] in E.
    apply E; try done; destruct Har as [-> | ->]; done.
Qed.
(** *** The tree of a directory *)

Context (fs : FSTree).

(** The tree [t] has the files of [fs] from [p] on. *)
Inductive represents : PathT -> Tree -> Prop :=
| represents_intro p i l :
    fs !! p = Some i ->
    (forall c q, is_Some (fs !! (p ++ c :: q)) -> c ∈ map base l) ->
    NoDup (map base l) ->
    Forall (fun t => represents (p ++ [base t]) t) l ->
    represents p (TNode (file_of env src (render true p) i) l).

(** Only directories hold files, and the names are names. *)
Definition closed : Prop :=
  forall p c, is_Some (fs !! (p ++ [c])) -> is_directory fs p = true /\ valid_name c.

Definition inodes_ok (p : PathT) : Prop := forall q i, fs !! (p ++ q) = Some i -> inode_ok env i.

Definition touched (i : Inode) : Inode := mkInode (kind i) (perm i) (i_uid i) (i_gid i) (now env) (i_xattrs i) (i_dev i).

Definition holds_items (x : PathT) : Prop := exists c i, fs !! (x ++ [c]) = Some i /\ archived i = true.

(** What an archive brings back of the file [x]: all but pipes and sockets, on another device; the time of
    a symbolic link, and that of a directory with items, is the time of the extraction. *)
Definition restored (x : PathT) (j : option Inode) : Prop :=
  match fs !! x with
  | None => j = None
  | Some i =>
    if archived i then
      exists d, (holds_items x -> j = Some (touched (made env i d))) /\
                (~ holds_items x -> j = Some (made env i d))
    else j = None
  end.

Lemma base_render p i l c : valid_name c -> base (TNode (file_of env src (render true (p ++ [c])) i) l) = c.
Proof.
  intros Hc. unfold base. cbn [tfile fName file_of].
  assert (Hr : exists s, render true (p ++ [c]) = s ++ slash :: c).
  { unfold render. destruct p as [|x p]; [by exists []|]. exists (slash :: join_slash (x :: p)).
    by rewrite join_snoc. }
  destruct Hr as [s ->]. rewrite Base_last by done. by apply Base_name.
Qed.

Lemma represents_inv p f l : represents p (TNode f l) -> exists i,
  f = file_of env src (render true p) i /\ fs !! p = Some i /\
  (forall c q, is_Some (fs !! (p ++ c :: q)) -> c ∈ map base l) /\ NoDup (map base l) /\
  Forall (fun t => represents (p ++ [base t]) t) l.
Proof. inversion_clear 1. by eexists. Qed.

Lemma represents_file p t : represents p t -> exists i, fs !! p = Some i /\ tfile t = file_of env src (render true p) i.
Proof. inversion_clear 1. by eexists. Qed.

Lemma leaf_items p t i : closed -> represents p t -> fs !! p = Some i -> is_dir (kind i) = false ->
  exists f, t = TNode f [] /\ forall q, q <> [] -> fs !! (p ++ q) = None.
Proof.
  intros Hc Ht Hi Hd. inversion Ht as [? j l Hj Hkids Hnd Hl]; subst.
  assert (Hno : forall c, fs !! (p ++ [c]) = None).
  { intros c. apply eq_None_not_Some. intros [Hx _]%Hc. unfold is_directory in Hx. rewrite Hi in Hx. congruence. }
  assert (l = []) as ->.
  { destruct l as [|t l]; [done|]. inversion_clear Hl as [|? ? Ht' _].
    apply represents_file in Ht' as (k & Hk & _). by rewrite Hno in Hk. }
  eexists. split; [done|]. intros q Hq. apply eq_None_not_Some. destruct q as [|c q]; [done|].
  intros Hx%Hkids. by apply elem_of_nil in Hx.
Qed.
(** *** Extraction *)

Abbreviation create_nodes := (create_all (W := FSTree) (H := LocalFS_writer env lfs)).

(** From [g] to [g'] files appeared in the directory [D], under the names [cs]; [b] if some did. *)
Definition grows (D : PathT) (cs : list bytes) (b : bool) (g g' : FSTree) : Prop :=
  (forall x, (forall c, c ∈ cs -> ~ (D ++ [c]) `prefix_of` x) -> x <> D -> g' !! x = g !! x) /\
  g' !! D = (if b then touched <$> g !! D else g !! D).

(** Nothing is there yet. *)
Definition vacant (g : FSTree) (D : PathT) (cs : list bytes) : Prop :=
  forall c q, c ∈ cs -> g !! (D ++ c :: q) = None.

Lemma not_prefix_self (D : PathT) c : ~ (D ++ [c]) `prefix_of` D.
Proof. intros [k E]. apply (f_equal length) in E. rewrite !length_app in E. cbn in E. lia. Qed.

Lemma grows_keeps D cs b g g' : vacant g D cs -> grows D cs b g g' -> keeps_dirs g g'.
Proof.
  intros Hv [H1 H2] x (i & Hi & Hk)%is_directory_spec. apply is_directory_spec.
  destruct (decide (x = D)) as [->|Hne].
  - rewrite H2, Hi. destruct b; [exists (touched i)|by exists i]. done.
  - exists i. split; [|done]. rewrite H1; [done| |done]. intros c Hc [q ->].
    rewrite <- app_assoc in Hi. cbn [app] in Hi. by rewrite Hv in Hi.
Qed.

Lemma prefix_cons_inv (D : PathT) c c' q : (D ++ [c]) `prefix_of` (D ++ c' :: q) -> c = c'.
Proof. intros [k E]. rewrite <- app_assoc in E. apply app_inv_head in E. by injection E. Qed.

Lemma grows_trans D c cs b b' g g1 g' :
  grows D [c] b g g1 -> grows D cs b' g1 g' -> grows D (c :: cs) (b || b') g g'.
Proof.
  intros [H1 H2] [K1 K2]. split.
  - intros x Hx Hne. rewrite K1; [apply H1; [|done]|by intros c' Hc'; apply Hx; right|done].
    intros c' ->%list_elem_of_singleton. apply Hx. by left.
  - rewrite K2, H2. destruct b, b'; try done. by destruct (g !! D).
Qed.

(** The items of a tree are created in the directory for it. *)
Definition extracts (t : Tree) : Prop := forall p st c g,
  represents p t -> inodes_ok p -> place g (R ++ st) -> is_directory g (R ++ st) = true -> valid_name c ->
  vacant g (R ++ st) [c] ->
  exists g', create_nodes (nodes (st ++ [c]) t) g = (None, g') /\
    grows (R ++ st) [c] (supported (tfile t)) g g' /\
    forall q, restored (p ++ q) (g' !! ((R ++ st) ++ c :: q)).

Lemma inodes_ok_sub p q : inodes_ok p -> inodes_ok (p ++ q).
Proof. intros H r i. rewrite <- app_assoc. apply H. Qed.

Lemma extract_items l : Forall extracts l -> forall p st g,
  Forall (fun t => represents (p ++ [base t]) t) l -> inodes_ok p -> NoDup (map base l) ->
  place g (R ++ st) -> is_directory g (R ++ st) = true -> Forall valid_name (map base l) ->
  vacant g (R ++ st) (map base l) ->
  exists g', create_nodes (concat (map (fun c => nodes (st ++ [Base (fName (tfile c))]) c) l)) g = (None, g') /\
    grows (R ++ st) (map base l) (existsb (fun t => supported (tfile t)) l) g g' /\
    forall t q, t ∈ l -> restored (p ++ base t :: q) (g' !! ((R ++ st) ++ base t :: q)).
Proof.
  induction 1 as [|t l Ht Hl IH]; intros p st g Hrep Hin Hnd Hpl Hdir Hval Hvac.
  { exists g. split; [done|]. split; [by split|]. by intros t q ?%elem_of_nil. }
  inversion_clear Hrep as [|? ? Hrt Hrl]. cbn [map] in *. inversion_clear Hnd as [|? ? Hnot Hnd'].
  inversion_clear Hval as [|? ? Hv Hvl].
  destruct (Ht (p ++ [base t]) st (base t) g) as (g1 & E1 & Hg1 & Hr1); try done.
  { by apply inodes_ok_sub. }
  { intros c q ->%list_elem_of_singleton. apply Hvac. by left. }
  assert (Hkeep : keeps_dirs g g1).
  { eapply grows_keeps; [|exact Hg1]. intros c q ->%list_elem_of_singleton. apply Hvac. by left. }
  destruct (IH p st g1) as (g' & E2 & Hg2 & Hr2); try done.
  { by eapply place_mono. }
  { by apply Hkeep. }
  { intros c q Hc. destruct Hg1 as [H1 _]. rewrite H1; [apply Hvac; by right| |].
    - intros c' ->%list_elem_of_singleton Hpre%prefix_cons_inv. by subst c.
    - intros E. apply (f_equal length) in E. rewrite length_app in E. cbn in E. lia. }
  exists g'. split; [|split].
  - cbn [concat]. rewrite create_all_app. unfold base in E1. rewrite E1. exact E2.
  - by eapply grows_trans.
  - intros t' q [->|Hin']%elem_of_cons; [|by apply Hr2]. specialize (Hr1 q). rewrite <- app_assoc in Hr1.
    destruct Hg2 as [H2 _]. rewrite H2; [exact Hr1| |].
    + intros c Hc Hpre%prefix_cons_inv. by subst c.
    + intros E. apply (f_equal length) in E. rewrite !length_app in E. cbn in E. lia.
Qed.
Lemma items_held p i l : fs !! p = Some i -> inodes_ok p ->
  (forall c q, is_Some (fs !! (p ++ c :: q)) -> c ∈ map base l) ->
  Forall (fun t => represents (p ++ [base t]) t) l ->
  holds_items p <-> existsb (fun t => supported (tfile t)) l = true.
Proof using Htime.
  intros Hi Hin Hkids Hl. rewrite existsb_exists.
  assert (Hsup : forall t, t ∈ l -> exists j, fs !! (p ++ [base t]) = Some j /\ supported (tfile t) = archived j).
  { intros t Ht. pose proof (proj1 (Forall_forall _ _) Hl t Ht) as Hr. apply represents_file in Hr as (j & Hj & ->).
    exists j. split; [done|]. apply file_modes. by eapply Hin. }
  split.
  - intros (c & j & Hj & Ha). assert (Hc : c ∈ map base l) by (apply (Hkids c []); by rewrite Hj).
    apply list_elem_of_fmap in Hc as (t & -> & Ht). exists t. split; [by apply list_elem_of_In|].
    destruct (Hsup t Ht) as (j' & Hj' & ->). rewrite Hj in Hj'. by injection Hj' as <-.
  - intros (t & Ht%list_elem_of_In & Hs). destruct (Hsup t Ht) as (j & Hj & E). exists (base t), j.
    split; [done|]. congruence.
Qed.

(** Creating the file itself. *)
Lemma grows_made D c m g : g !! (D ++ [c]) = None -> grows D [c] true g (<[D ++ [c] := m]> (touch env D g)).
Proof.
  intros Hn. split.
  - intros x Hx Hne. rewrite lookup_insert_ne; [|intros <-; by apply (Hx c); [left|]].
    unfold touch. by rewrite lookup_alter_ne.
  - rewrite lookup_insert_ne.
    2:{ intros E. apply (f_equal length) in E. rewrite length_app in E. cbn in E. lia. }
    unfold touch. rewrite lookup_alter_eq. done.
Qed.

(** Only things below the new file change after it was made. *)
Lemma grows_below D c cs b g g1 g' :
  grows D [c] true g g1 -> grows (D ++ [c]) cs b g1 g' -> grows D [c] true g g'.
Proof.
  intros [H1 H2] [K1 K2].
  assert (Hsame : forall x, ~ (D ++ [c]) `prefix_of` x -> g' !! x = g1 !! x).
  { intros x Hx. apply K1; [|intros ->; by apply Hx]. intros c' _ [q ->]. apply Hx. rewrite <- app_assoc. by eexists. }
  split.
  - intros x Hx Hne. rewrite Hsame; [by apply H1|]. apply Hx. by left.
  - rewrite Hsame; [done|]. apply not_prefix_self.
Qed.

Lemma extract_tree t : closed -> extracts t.
Proof using Htime Howner Hperms.
  intros Hcl. induction t as [f l IH] using tree_rect_list.
  intros p st c g Hrep Hin Hpl Hdir Hc Hvac.
  destruct (represents_inv _ _ _ Hrep) as (i & Hf & Hi & Hkids & Hnd & Hl). cbn [tfile].
  set (D := R ++ st) in *.
  assert (Hiok : inode_ok env i) by (apply (Hin [] i); by rewrite app_nil_r).
  destruct (file_modes env src (render true p) i Hiok) as (_ & _ & _ & _ & Hsup & _). rewrite <- Hf in Hsup. rewrite Hsup.
  assert (HP : R ++ (st ++ [c]) = D ++ [c]) by (apply app_assoc).
  assert (HgP : forall q, g !! (D ++ c :: q) = None) by (intros q; apply Hvac; by left).
  assert (Hplace : place g (D ++ [c])).
  { destruct Hpl as (P1 & P2 & P3). split; [by apply names_snoc|]. split; [by apply dirs_above_snoc|done]. }
  cbn [nodes]. rewrite Hsup. destruct (archived i) eqn:Ha.
  2:{ exists g. split; [done|]. split; [by split|]. intros q. unfold restored.
      destruct (leaf_items p _ i Hcl Hrep Hi) as (f' & _ & Hnone).
      { unfold archived in Ha. by destruct (kind i). }
      destruct (decide (q = [])) as [->|Hq]; [|by rewrite Hnone]. by rewrite app_nil_r, Hi, Ha. }
  cbn [create_all]. pose proof (create_made g (st ++ [c]) (render true p) i Hiok Ha) as Hmade.
  rewrite HP in Hmade. rewrite removelast_last, <- Hf in Hmade. rewrite Hmade; [|by destruct st|done|apply (HgP [])].
  clear Hmade. set (m := made env i _). set (g1 := <[D ++ [c] := m]> (touch env D g)).
  pose proof (grows_made D c m g (HgP [])) as Hg1. fold g1 in Hg1.
  assert (Hg1P : g1 !! (D ++ [c]) = Some m) by apply lookup_insert_eq.
  assert (Hg1q : forall c' q, g1 !! ((D ++ [c]) ++ c' :: q) = None).
  { intros c' q. unfold g1, touch. rewrite lookup_insert_ne, lookup_alter_ne.
    - rewrite <- app_assoc. apply HgP.
    - intros E. apply (f_equal length) in E. rewrite !length_app in E. cbn in E. lia.
    - intros E. apply (f_equal length) in E. rewrite !length_app in E. cbn in E. lia. }
  assert (Hitems : exists g', create_nodes (concat (map (fun c0 => nodes ((st ++ [c]) ++ [Base (fName (tfile c0))]) c0) l)) g1 = (None, g') /\
    grows (D ++ [c]) (map base l) (existsb (fun t => supported (tfile t)) l) g1 g' /\
    forall t q, t ∈ l -> restored (p ++ base t :: q) (g' !! ((D ++ [c]) ++ base t :: q))).
  { destruct (is_dir (kind i)) eqn:Hd.
    - rewrite <- HP. apply extract_items; try done; try rewrite HP.
      + apply (place_mono g); [done|]. eapply grows_keeps; [|exact Hg1]. intros c' q ->%list_elem_of_singleton. apply HgP.
      + unfold is_directory. rewrite Hg1P. unfold m, made. destruct (kind i); try done.
      + apply Forall_forall. intros c' Hc'. apply list_elem_of_fmap in Hc' as (t & -> & Ht).
        pose proof (proj1 (Forall_forall _ _) Hl t Ht) as Hr. apply represents_file in Hr as (j & Hj & _).
        destruct (Hcl p (base t)) as [_ ?]; [by rewrite Hj|done].
      + intros c' q _. apply Hg1q.
    - destruct (leaf_items p _ i Hcl Hrep Hi Hd) as (f' & [= _ ->] & _).
      exists g1. split; [done|]. split; [by split|]. by intros t q ?%elem_of_nil. }
  destruct Hitems as (g' & E & Hg' & Hres). exists g'. split; [exact E|]. split; [by eapply grows_below|].
  intros q. destruct q as [|c' q].
  - rewrite app_nil_r. unfold restored. rewrite Hi, Ha. exists (fresh_dev (g !! D)). fold m.
    pose proof (items_held p i l Hi Hin Hkids Hl) as Hh. destruct Hg' as [_ K2]. rewrite K2, Hg1P. split.
    + intros Hx%Hh. by rewrite Hx.
    + intros Hx. destruct (existsb _ l); [by destruct Hx; apply Hh|done].
  - destruct (decide (c' ∈ map base l)) as [Hin'|Hnin].
    + apply list_elem_of_fmap in Hin' as (t & -> & Ht). specialize (Hres t q Ht). by rewrite <- app_assoc in Hres.
    + unfold restored. assert (fs !! (p ++ c' :: q) = None) as ->.
      { apply eq_None_not_Some. intros Hx%Hkids. done. }
      replace (D ++ c :: c' :: q) with ((D ++ [c]) ++ c' :: q) by (by rewrite <- app_assoc).
      destruct Hg' as [K1 _]. rewrite K1; [apply Hg1q| |].
      * intros c'' Hc'' Hpre%prefix_cons_inv. by subst c''.
      * intros E'. apply (f_equal length) in E'. rewrite !length_app in E'. cbn in E'. lia.
Qed.
(** The root: the target directory is there, empty and without attributes. *)
Lemma extract_root S t g r :
  closed -> represents S t -> inodes_ok S -> is_directory fs S = true ->
  place g R -> g !! R = Some r -> kind r = KDir -> i_xattrs r = ∅ -> (forall c q, g !! (R ++ c :: q) = None) ->
  exists i j g', fs !! S = Some i /\ create_nodes (nodes [] t) g = (None, g') /\
    (forall x, ~ R `prefix_of` x -> g' !! x = g !! x) /\
    g' !! R = Some j /\ kind j = KDir /\ perm j = perm i /\ i_uid j = i_uid i /\ i_gid j = i_gid i /\
    i_xattrs j = i_xattrs i /\ (~ holds_items S -> i_mtime i <> 0 -> i_mtime j = i_mtime i) /\
    (forall c q, restored (S ++ c :: q) (g' !! (R ++ c :: q))).
Proof using Htime Howner Hperms.
  intros Hcl Hrep Hin Hdir Hpl Hr Hk Hx Hempty. destruct t as [f l].
  destruct (represents_inv _ _ _ Hrep) as (i & Hf & Hi & Hkids & Hnd & Hl).
  assert (Hiok : inode_ok env i) by (apply (Hin [] i); by rewrite app_nil_r).
  destruct (file_modes env src (render true S) i Hiok) as (_ & Hd & _ & _ & Hsup & Hperm & _). rewrite <- Hf in Hd, Hsup, Hperm.
  assert (Hki : kind i = KDir).
  { apply is_directory_spec in Hdir as (i' & Hi' & ?). rewrite Hi in Hi'. by injection Hi' as ->. }
  cbn [nodes]. assert (archived i = true) as Ha by (unfold archived; by rewrite Hki). rewrite Hsup, Ha. cbn [create_all].
  assert (Hdst : dst lfs (render false []) = render true R).
  { unfold dst. cbn [Root lfs NewLocalFS]. rewrite (Join_render R []); [by rewrite app_nil_r|apply Hpl|constructor]. }
  set (n := mkAttrs (render false []) (Uid f) (Gid f) (fMode f) (ModTime f) (fXattrs f)).
  assert (Hroot : create_file (W := FSTree) (H := LocalFS_writer env lfs) (render false []) f g = (None, <[R := settled n r]> g)).
  { unfold create_file. rewrite Hd, Hki. cbn [is_dir]. fold n. subst lfs.
    apply (create_dir_existing env o Howner Hperms R g R r n); try done.
    cbn [nXattrs n]. rewrite Hf. cbn [fXattrs file_of]. rewrite <- Hki. apply Hiok. }
  rewrite Hroot. set (g1 := <[R := settled n r]> g).
  assert (Hkeep : keeps_dirs g g1).
  { apply keeps_insert. intros j Hj _. rewrite Hr in Hj. injection Hj as <-. done. }
  assert (Hg1R : g1 !! R = Some (settled n r)) by apply lookup_insert_eq.
  assert (Hne : forall c q, R ++ c :: q <> R).
  { intros c q E. apply (f_equal length) in E. rewrite length_app in E. cbn in E. lia. }
  assert (Hg1q : forall c q, g1 !! (R ++ c :: q) = None).
  { intros c q. unfold g1. rewrite lookup_insert_ne; [apply Hempty|]. intros E. by apply (Hne c q). }
  pose proof (extract_items l) as Hit.
  destruct (Hit ltac:(apply Forall_forall; intros; by apply extract_tree) S [] g1) as (g' & E & [K1 K2] & Hres);
    rewrite ?app_nil_r in *; try done.
  - by eapply place_mono.
  - apply is_directory_spec. exists (settled n r). by rewrite Hg1R.
  - apply Forall_forall. intros c Hc. apply list_elem_of_fmap in Hc as (t & -> & Ht).
    pose proof (proj1 (Forall_forall _ _) Hl t Ht) as Hrt. apply represents_file in Hrt as (j & Hj & _).
    destruct (Hcl S (base t)) as [_ ?]; [by rewrite Hj|done].
  - intros c q _. apply Hg1q.
  - pose proof (items_held S i l Hi Hin Hkids Hl) as Hh.
    rewrite Hg1R in K2. set (b := existsb _ l) in *.
    exists i, (if b then touched (settled n r) else settled n r), g'.
    split; [done|]. split; [exact E|]. split.
    { intros x Hx'. rewrite K1.
      - unfold g1. rewrite lookup_insert_ne; [done|]. by intros <-; apply Hx'.
      - intros c _ [q ->]. apply Hx'. rewrite <- app_assoc. by eexists.
      - by intros ->; apply Hx'. }
    split; [rewrite K2; by destruct b|]. split; [by destruct b|].
    split; [destruct b; cbn; exact Hperm|]. subst n f.
    split; [by destruct b|]. split; [by destruct b|]. split; [by destruct b|]. split.
    + intros Hno Hm. destruct b; [by destruct Hno; apply Hh|]. cbn. rewrite Htime. by rewrite bool_decide_false.
    + intros c q. destruct (decide (c ∈ map base l)) as [Hc|Hc].
      * apply list_elem_of_fmap in Hc as (t & -> & Ht). by apply Hres.
      * unfold restored. assert (fs !! (S ++ c :: q) = None) as ->.
        { apply eq_None_not_Some. by intros Hy%Hkids. }
        rewrite K1; [apply Hg1q| |apply Hne]. intros c' Hc' Hpre%prefix_cons_inv. by subst c'.
Qed.

End create.

(** ** Reading *)

Section reading.

Context (env : Process) (src : LocalFS) (Htime : NoTime (opts src) = false) (fs : FSTree).
Context (Hcl : closed fs) (Hroot : is_directory fs [] = true).

Lemma closed_prefix p c q : is_Some (fs !! (p ++ c :: q)) -> is_Some (fs !! (p ++ [c])).
Proof using Hcl.
  induction q as [|x q IH] using rev_ind; [done|]. intros H. apply IH.
  replace (p ++ c :: q ++ [x]) with ((p ++ c :: q) ++ [x]) in H by (by rewrite <- app_assoc).
  apply Hcl in H as [(i & Hi & _)%is_directory_spec _]. by rewrite Hi.
Qed.

Lemma place_closed p : is_Some (fs !! p) -> place fs p.
Proof using Hcl Hroot.
  induction p as [|c p IH] using rev_ind.
  - intros _. split; [constructor|]. split; [|done]. intros n Hn. cbn in Hn. lia.
  - intros [Hd Hc]%Hcl. destruct IH as (H1 & H2 & H3).
    { apply is_directory_spec in Hd as (i & -> & _). by eexists. }
    split; [by apply names_snoc|]. split; [by apply dirs_above_snoc|done].
Qed.

Lemma elem_of_children p c : c ∈ children fs p <-> is_Some (fs !! (p ++ [c])).
Proof.
  unfold children. rewrite merge_sort_Permutation. rewrite list_elem_of_omap. split.
  - intros ([x i] & Hx & Hc). apply elem_of_map_to_list in Hx. cbn [fst] in Hc.
    destruct x as [|y x]; [done|]. destruct (last (y :: x)) as [z|] eqn:El; [|done].
    destruct (decide (removelast (y :: x) = p)) as [Hp|]; [|done]. injection Hc as ->.
    apply last_Some in El as [l' El]. rewrite El, removelast_last in Hp. subst l'. rewrite El in Hx. by eexists.
  - intros [i Hi]. exists (p ++ [c], i). split; [by apply elem_of_map_to_list|]. cbn [fst].
    destruct (p ++ [c]) as [|y x] eqn:E; [by destruct p|]. rewrite <- E, last_snoc, removelast_last.
    by rewrite decide_True.
Qed.

Lemma NoDup_children p : NoDup (children fs p).
Proof.
  unfold children. rewrite merge_sort_Permutation.
  pose proof (NoDup_fst_map_to_list fs) as Hnd. revert Hnd. generalize (map_to_list fs) as l.
  induction l as [|[x i] l IH]; [constructor|]. cbn [fmap list_fmap fst omap list_omap]. intros Hnd.
  inversion_clear Hnd as [|? ? Hx Hnd']. specialize (IH Hnd').
  destruct x as [|y x]; [done|]. destruct (last (y :: x)) as [c|] eqn:El; [|done].
  destruct (decide (removelast (y :: x) = p)) as [Hp|]; [|done]. constructor; [|done].
  intros ([x' i'] & Hin & Hc)%list_elem_of_omap. cbn [fst] in Hc. apply Hx.
  destruct x' as [|y' x']; [done|]. destruct (last (y' :: x')) as [c'|] eqn:El'; [|done].
  destruct (decide (removelast (y' :: x') = p)) as [Hp'|]; [|done]. injection Hc as ->.
  apply last_Some in El as [k El]. apply last_Some in El' as [k' El'].
  rewrite El, removelast_last in Hp. rewrite El', removelast_last in Hp'. subst k k'.
  apply list_elem_of_fmap. exists (y' :: x', i'). split; [|done]. cbn [fst]. congruence.
Qed.

(** An entry without an error is a file. *)
Definition clean (e : walkEntry) : Prop := we_err e = None /\ is_Some (we_info e).

Definition read_files (l : list walkEntry) : list File := fst (next_all env src l).

Lemma next_all_app l l' : Forall clean l ->
  next_all env src (l ++ l') = (read_files l ++ fst (next_all env src l'), snd (next_all env src l')).
Proof.
  unfold read_files. induction 1 as [|e l [H1 [i H2]] Hl IH]; cbn [next_all app fst]; [by destruct (next_all env src l')|].
  rewrite H1, H2, IH. by destruct (next_all env src l).
Qed.

(** Walking a directory gives the files of its tree. *)
Lemma walk_tree fuel : forall p i, fs !! p = Some i ->
  (forall q, is_Some (fs !! (p ++ q)) -> (length q < fuel)%nat) ->
  exists t, represents env src fs p t /\
    Forall clean (walk_dir env fuel fs (render true p) i) /\
    read_files (walk_dir env fuel fs (render true p) i) = Catar.walk t.
Proof using Hcl Hroot.
  induction fuel as [|fuel IH]; intros p i Hi Hdepth.
  { specialize (Hdepth []). rewrite app_nil_r in Hdepth. specialize (Hdepth ltac:(by rewrite Hi)). lia. }
  cbn [walk_dir]. pose proof (place_closed p ltac:(by rewrite Hi)) as Hp.
  destruct (is_dir (kind i)) eqn:Hd; cbn [negb].
  - assert (Hki : kind i = KDir) by (by destruct (kind i)).
    assert (Hnames : readDirNames env fs (render true p) = Ok (children fs p)).
    { unfold readDirNames. destruct Hp as (P1 & P2 & P3). rewrite lookup_render; [|done|done| |done].
      - cbn [mbind outcome_bind]. unfold is_directory. by rewrite Hi, Hd.
      - intros _ j t Hj. rewrite Hi in Hj. injection Hj as <-. by rewrite Hki. }
    rewrite Hnames. set (walk_child := fun name : bytes => _).
    assert (Hkids : forall cs, (forall c, c ∈ cs -> c ∈ children fs p) ->
      exists l, map base l = cs /\ Forall (fun t => represents env src fs (p ++ [base t]) t) l /\
        Forall clean (concat (map walk_child cs)) /\ read_files (concat (map walk_child cs)) = concat (map Catar.walk l)).
    { induction cs as [|c cs IHc]; intros Hin; [by exists []|].
      destruct IHc as (l & <- & Hl & Hc1 & Hc2); [by intros c' ?; apply Hin; right|].
      assert (Hc : is_Some (fs !! (p ++ [c]))) by (by apply elem_of_children, Hin; left). destruct Hc as [j Hj].
      destruct (IH (p ++ [c]) j Hj) as (t & Ht & Hw1 & Hw2).
      { intros q Hq. rewrite <- app_assoc in Hq. apply Hdepth in Hq. cbn in Hq. lia. }
      assert (Hname : valid_name c) by (apply (Hcl p c); by eexists).
      assert (Hbase : base t = c).
      { apply represents_file in Ht as (k & _ & E). destruct t as [f l']. cbn [tfile] in E. subst f.
        by apply base_render. }
      assert (Hwc : walk_child c = walk_dir env fuel fs (render true (p ++ [c])) j).
      { unfold walk_child. rewrite Join_name; [|by apply names_normal, Hp|done].
        rewrite (Lstat_place env fs (p ++ [c])) by (apply place_closed; by eexists). by rewrite Hj. }
      exists (t :: l). cbn [map concat]. rewrite Hbase, Hwc. split; [done|]. split; [constructor; [by rewrite Hbase|done]|].
      split; [by apply Forall_app|]. unfold read_files. rewrite next_all_app by done. cbn [fst]. rewrite Hw2.
      f_equal. exact Hc2. }
    destruct (Hkids (children fs p)) as (l & Hbase & Hl & Hc1 & Hc2); [done|].
    exists (TNode (file_of env src (render true p) i) l). split; [|split].
    + constructor; [done| |by rewrite Hbase; apply NoDup_children|done].
      intros c q Hq. rewrite Hbase. by eapply elem_of_children, closed_prefix.
    + constructor; [by split; [|eexists]|exact Hc1].
    + unfold read_files. cbn [next_all we_err we_info we_path Catar.walk].
      unfold read_files in Hc2. destruct (next_all env src (concat (map walk_child (children fs p)))) as [fl e]. cbn [fst] in *.
      by rewrite Hc2.
  - exists (TNode (file_of env src (render true p) i) []). split; [|split].
    + constructor; [done| |constructor|constructor]. intros c q Hq%closed_prefix%Hcl.
      destruct Hq as [Hq _]. unfold is_directory in Hq. rewrite Hi in Hq. congruence.
    + constructor; [by split; [|eexists]|constructor].
    + done.
Qed.

End reading.

(** ** The round trip *)

Section round_trip.

Context (env : Process) (fs : FSTree).

(** A directory tree with what an archive can keep: files whose attributes fit, under names. *)
Record source_ok (S : PathT) : Prop := {
  so_closed : closed fs;
  so_root : is_directory fs [] = true;
  so_dir : is_directory fs S = true;
  so_inodes : inodes_ok env fs S
}.

(** A directory that is empty. *)
Record target_ok (R : PathT) : Prop := {
  to_inode : exists r, fs !! R = Some r /\ kind r = KDir /\ i_xattrs r = ∅;
  to_empty c q : fs !! (R ++ c :: q) = None
}.

(** No option that leaves something out. *)
Definition keeps_all (o : LocalFSOptions) : Prop :=
  OneFileSystem o = false /\ NoSameOwner o = false /\ NoSamePermissions o = false /\ NoTime o = false.

Lemma tree_ok_represents src t : NoTime (opts src) = false -> closed fs -> forall p,
  names_ok p -> represents env src fs p t -> inodes_ok env fs p -> tree_ok true p t.
Proof.
  intros Htime Hcl. induction t as [f l IH] using tree_rect_list. intros p Hp Hrep Hin.
  destruct (represents_inv _ _ _ _ _ _ Hrep) as (i & -> & Hi & Hkids & Hnd & Hl).
  assert (Hiok : inode_ok env i) by (apply (Hin [] i); by rewrite app_nil_r).
  destruct (file_modes env src (render true p) i Hiok) as (_ & Hd & _).
  constructor.
  - cbn [fPath file_of]. by apply Clean_render, names_normal.
  - intros _. by apply file_ok_of.
  - rewrite Hd. intros Hnd'. destruct (leaf_items env src fs p _ i Hcl Hrep Hi Hnd') as (f & [= _ ->] & _). done.
  - apply Forall_forall. intros t Ht. pose proof (proj1 (Forall_forall _ _) Hl t Ht) as Hr.
    assert (Hname : valid_name (base t)).
    { apply represents_file in Hr as (j & Hj & _). apply (Hcl p). by rewrite Hj. }
    split; [done|]. apply (proj1 (Forall_forall _ _) IH t Ht); [by apply names_snoc|done|by apply inodes_ok_sub].
Qed.

Lemma depth_bound p q : is_Some (fs !! (p ++ q)) -> (length q < depth fs)%nat.
Proof.
  intros [i Hi]. apply elem_of_map_to_list in Hi. unfold depth. revert Hi. generalize (map_to_list fs) as l.
  induction l as [|x l IH]; intros Hin; [by apply elem_of_nil in Hin|]. cbn [foldr].
  apply elem_of_cons in Hin as [<-|Hin]; [|specialize (IH Hin); lia]. cbn [fst]. rewrite length_app. lia.
Qed.

Lemma ReadAll_tree S o : source_ok S -> keeps_all o ->
  let src := NewLocalFS (render true S) o in
  exists t, represents env src fs S t /\ tree_ok true S t /\ ReadAll env src fs = Ok (Catar.walk t, ErrEOF).
Proof.
  intros [Hcl Hroot Hdir Hin] (Hone & _ & _ & Htime). cbv zeta. set (src := NewLocalFS _ o).
  apply is_directory_spec in Hdir as (i & Hi & _).
  pose proof (place_closed fs Hcl Hroot S ltac:(by rewrite Hi)) as Hp.
  destruct (walk_tree env src fs Hcl Hroot (Datatypes.S (depth fs)) S i Hi) as (t & Ht & Hc & Hw).
  { intros q Hq. apply depth_bound in Hq. lia. }
  exists t. split; [done|]. split; [by apply (tree_ok_represents src); [|done|apply Hp| |]|].
  unfold ReadAll. assert (root_device env src fs = 0) as -> by (unfold root_device; change (opts src) with o; by rewrite Hone).
  unfold Walk. change (Root src) with (render true S). rewrite Lstat_place, Hi by done.
  assert (Hser : forall l, serialize 0 l = Ok l) by (induction l as [|e l IH]; cbn; [done|by rewrite IH]).
  rewrite Hser. cbn [mbind outcome_bind].
  rewrite <- (app_nil_r (walk_dir _ _ _ _ _)). rewrite next_all_app by done. cbn [next_all fst snd].
  by rewrite app_nil_r, Hw.
Qed.

End round_trip.

(** C2. A directory survives being archived and extracted. LocalFS and Tar read a directory of any shape:
    files, directories, symbolic links, devices, pipes and sockets under arbitrary names, with owners,
    permissions including set user ID, times and extended attributes. UnTar and LocalFS then extract the
    archive into an empty directory [R] of the same machine. Nothing outside of [R] changes, and below [R] is,
    path by path, what was below [S]: the same files with the same contents, targets, device numbers,
    owners, permissions, attributes and times, except that pipes and sockets are left out, and that the
    time is that of the extraction for symbolic links, for directories with items, and for whatever has
    the modification time 0, the start of 1970, which LocalFS takes for "no time" (epoch_is_lost). *)
Theorem directory_round_trip env SipHash fs S R so o wr :
  (forall b, is_u64 (SipHash b)) -> source_ok env fs S -> target_ok fs R -> keeps_all so -> keeps_all o -> w_room wr = None ->
  exists files archive ts,
    ReadAll env (NewLocalFS (render true S) so) fs = Ok (files, ErrEOF) /\
    Tar SipHash never ErrEOF wr files = (Ok (Z.of_nat (length archive), None), ts) /\
    out ts = mkWriter (w_out wr ++ archive) None (w_err wr) /\
    (Z.of_nat (length archive) <= maxAlloc ->
     exists fs' i j,
       UnTar (H := LocalFS_writer env (NewLocalFS (render true R) o)) ErrEOF never archive fs = (Ok tt, fs') /\
       (forall x, ~ R `prefix_of` x -> fs' !! x = fs !! x) /\
       fs !! S = Some i /\ fs' !! R = Some j /\ kind j = KDir /\ perm j = perm i /\ i_uid j = i_uid i /\ i_gid j = i_gid i /\
       i_xattrs j = i_xattrs i /\ (~ holds_items fs S -> i_mtime i <> 0 -> i_mtime j = i_mtime i) /\
       (forall c q, restored env fs (S ++ c :: q) (fs' !! (R ++ c :: q)))).
Proof.
  intros Hsip Hs [(r & Hr & Hk & Hx) Hempty] Hso Ho Hw.
  destruct (ReadAll_tree env fs S so Hs Hso) as (t & Ht & Hok & Hread).
  pose proof Hs as [Hcl Hroot Hdir Hin]. destruct Hso as (_ & _ & _ & Htime). destruct Ho as (_ & Howner & Hperms & _).
  pose proof (place_closed fs Hcl Hroot R ltac:(by rewrite Hr)) as HpR.
  pose proof Hdir as (i0 & Hi0 & Hk0)%is_directory_spec.
  pose proof (place_closed fs Hcl Hroot S ltac:(by rewrite Hi0)) as HpS.
  assert (Hd : IsDir (fMode (tfile t)) = true).
  { apply represents_file in Ht as (i & Hi & ->). rewrite Hi0 in Hi. injection Hi as <-.
    destruct (file_modes env (NewLocalFS (render true S) so) (render true S) i0) as (_ & -> & _); [|by rewrite Hk0].
    apply (Hin [] i0). by rewrite app_nil_r. }
  destruct (Tar_tree SipHash Hsip true S t wr Hok (names_normal true S (proj1 HpS)) Hw) as (es & ts & Hels & E & Hout).
  exists (Catar.walk t), (encodings es), ts. split; [done|]. split; [exact E|]. split; [exact Hout|].
  intros Hlen.
  destruct (extract_root env (NewLocalFS (render true S) so) Htime o Howner Hperms R fs S t fs r)
    as (i & j & fs' & Hi & Ec & Hrest); try done.
  exists fs', i, j. split; [|destruct Hrest as (? & ? & ? & ? & ? & ? & ? & ? & ?); by split_and!].
  rewrite (UnTar_tree true S t es); [by rewrite Ec|done|done|by eapply wf_tree|by left].
Qed.

(** ** Trees that can be checked *)

Definition closedb (fs : FSTree) : bool :=
  forallb (fun x => match last (fst x) with
                    | None => true
                    | Some c => is_directory fs (removelast (fst x)) && bool_decide (valid_name c)
                    end) (map_to_list fs).

Lemma closedb_ok fs : closedb fs = true -> closed fs.
Proof.
  unfold closedb. rewrite forallb_forall. intros H p c [i Hi].
  specialize (H (p ++ [c], i) ltac:(by apply list_elem_of_In, elem_of_map_to_list)). cbn [fst] in H.
  rewrite last_snoc, removelast_last in H. apply andb_true_iff in H as [H1 H2%bool_decide_eq_true]. done.
Qed.

#[export] Instance kind_ok_dec k : Decision (kind_ok k).
Proof. unfold kind_ok. destruct k; apply _. Defined.

#[export] Instance inode_ok_dec env i : Decision (inode_ok env i).
Proof.
  refine (cast_if (decide (kind_ok (kind i) /\ 0 <= perm i < 4096 /\ is_i64 (i_uid i) /\ is_i64 (i_gid i) /\ is_i64 (i_mtime i) /\
    Forall (fun k => Byte.x00 ∉ k) (map fst (map_to_list (i_xattrs i))) /\
    Forall (fun kv => xattr_allowed env (kind i) (fst kv) = true) (map_to_list (i_xattrs i))))).
  - abstract (destruct_and!; by split).
  - abstract (by intros []; destruct_and!; naive_solver).
Defined.

Definition inodes_okb (env : Process) (fs : FSTree) : bool :=
  forallb (fun x => bool_decide (inode_ok env (snd x))) (map_to_list fs).

Lemma inodes_okb_ok env fs p : inodes_okb env fs = true -> inodes_ok env fs p.
Proof.
  unfold inodes_okb. rewrite forallb_forall. intros H q i Hi.
  specialize (H (p ++ q, i) ltac:(by apply list_elem_of_In, elem_of_map_to_list)). by apply bool_decide_eq_true in H.
Qed.

Lemma empty_below fs R i : closed fs -> fs !! R = Some i -> children fs R = [] -> forall c q, fs !! (R ++ c :: q) = None.
Proof.
  intros Hcl HR Hno c q. apply eq_None_not_Some. intros H%(closed_prefix fs Hcl)%elem_of_children.
  rewrite Hno in H. by apply elem_of_nil in H.
Qed.

(** ** A machine *)

Definition ex_env : Process := mkProcess 18 0 0 1700000000 [] (fun _ _ => true) 4096.

Definition ex_opts : LocalFSOptions := mkLocalFSOptions false false false false.

Definition ex_inode (k : Kind) (p t : Z) : Inode := mkInode k p 1000 100 t {[ str "user.k" := str "v" ]} 1.

(** /src with a setuid file, a directory with a symbolic link and a socket, and a device; /dst is empty. *)
Definition ex_machine : FSTree := list_to_map
  [([], ex_inode KDir 493 1); ([str "src"], ex_inode KDir 493 2);
   ([str "src"; str "a"], ex_inode (KFile (str "hello")) 2541 3);
   ([str "src"; str "d"], ex_inode KDir 448 4);
   ([str "src"; str "d"; str "l"], ex_inode (KSymlink (str "../a")) 511 5);
   ([str "src"; str "d"; str "s"], ex_inode (KNode S_IFSOCK 0) 493 5);
   ([str "src"; str "z"], ex_inode (KNode S_IFCHR 2049) 438 6);
   ([str "dst"], mkInode KDir 493 0 0 7 ∅ 1)].

Lemma ex_source_ok : source_ok ex_env ex_machine [str "src"].
Proof.
  split; [apply closedb_ok; by vm_compute|by vm_compute|by vm_compute|].
  apply inodes_okb_ok. by vm_compute.
Qed.

Lemma ex_target_ok : target_ok ex_machine [str "dst"].
Proof.
  split; [eexists; split; [by vm_compute|by split]|].
  eapply empty_below; [apply ex_source_ok|by vm_compute|by vm_compute].
Qed.

Definition ex_files : list File :=
  match ReadAll ex_env (NewLocalFS (render true [str "src"]) ex_opts) ex_machine with Ok (l, _) => l | _ => [] end.

Lemma directory_round_trip_witness : exists archive fs' d,
  UnTar (H := LocalFS_writer ex_env (NewLocalFS (render true [str "dst"]) ex_opts)) ErrEOF never archive ex_machine = (Ok tt, fs') /\
  fs' !! [str "dst"; str "a"] = Some (made ex_env (ex_inode (KFile (str "hello")) 2541 3) d) /\
  fs' !! [str "dst"; str "d"; str "s"] = None.
Proof.
  destruct (directory_round_trip ex_env ex_hash ex_machine [str "src"] [str "dst"] ex_opts ex_opts ex_archive)
    as (files & archive & ts & Hread & E & _ & Hun).
  - intros b. apply u64_range.
  - exact ex_source_ok.
  - exact ex_target_ok.
  - by split_and!.
  - by split_and!.
  - reflexivity.
  - assert (El : fst (Tar ex_hash never ErrEOF ex_archive ex_files) = Ok (809, None)) by (vm_compute; reflexivity).
    unfold ex_files in El. rewrite Hread, E in El. cbn [fst] in El. injection El as El.
    destruct Hun as (fs' & i & j & Hu & _ & _ & _ & _ & _ & _ & _ & _ & _ & Hr); [rewrite El; by vm_compute|].
    pose proof (Hr (str "a") []) as (d & _ & Ha). pose proof (Hr (str "d") [str "s"]) as Hs.
    exists archive, fs', d. split; [exact Hu|]. split; [|exact Hs]. apply Ha.
    intros (c & k & Hk & _). destruct (so_closed _ _ _ ex_source_ok [str "src"; str "a"] c) as [Hd _]; [exists k; exact Hk|].
    by vm_compute in Hd.
Defined.

(** *** What else happens *)

(** A directory with a mount point, read with one-file-system: the mount point is left out but not what is
    in it, and those files end the archive of the directory: [z] is missing, without an error. *)
Definition ex_mounts : FSTree := list_to_map
  [([], ex_inode KDir 493 1); ([str "src"], ex_inode KDir 493 2);
   ([str "src"; str "m"], mkInode KDir 493 0 0 4 ∅ 2);
   ([str "src"; str "m"; str "x"], mkInode (KFile (str "x")) 420 0 0 4 ∅ 2);
   ([str "src"; str "z"], ex_inode (KFile (str "z")) 420 6)].

Example mounts_cut_archives :
  match ReadAll ex_env (NewLocalFS (str "/src") (mkLocalFSOptions true false false false)) ex_mounts with
  | Ok (files, e) =>
    e = ErrEOF /\ map fPath files = [str "/src"; str "/src/m/x"; str "/src/z"] /\
    UnTar ErrEOF never (ex_bytes files) [] = (Ok tt, [Dir_ (str ".")])
  | _ => False
  end.
Proof. vm_compute. by split_and!. Qed.

(** A file whose name goes through a symbolic link of the archive is written outside of the target. *)
Definition ex_escape : bytes :=
  encodings
    [entry_of (ex_file "." "." (Z.lor ModeDir 493) "" "");
     filename_of (str "l"); entry_of (ex_file "l" "l" (Z.lor ModeSymlink 511) "" "/src");
     symlink_of (ex_file "l" "l" (Z.lor ModeSymlink 511) "" "/src");
     filename_of (str "l/evil"); entry_of (ex_file "evil" "evil" 420 "!" ""); payload_elt (ex_file "evil" "evil" 420 "!" "");
     goodbye_of [mkGoodbyeItem 0 0 CaFormatGoodbyeTailMarker]].

Example links_are_followed :
  let '(r, fs') := UnTar (H := LocalFS_writer ex_env (NewLocalFS (str "/dst") ex_opts)) ErrEOF never ex_escape ex_machine in
  r = Ok tt /\ kind <$> fs' !! [str "src"; str "evil"] = Some (KFile (str "!")).
Proof. vm_compute. by split. Qed.

(** A device whose major number has more than twelve bits is read with another number. *)
Example big_major_numbers_change :
  let i := ex_inode (KNode S_IFCHR (mkdev 4097 0)) 420 0 in
  DevMajor (file_of ex_env (NewLocalFS (str "/") ex_opts) (str "/x") i) = 1.
Proof. reflexivity. Qed.

(** A file of the first second of 1970 gets the time of the extraction. *)
Definition ex_old : FSTree := list_to_map
  [([], ex_inode KDir 493 1); ([str "src"], ex_inode KDir 493 2);
   ([str "src"; str "f"], ex_inode (KFile (str "f")) 420 0); ([str "dst"], ex_inode KDir 493 3)].

Example epoch_is_lost :
  match ReadAll ex_env (NewLocalFS (str "/src") ex_opts) ex_old with
  | Ok (files, _) =>
    let '(r, fs') := UnTar (H := LocalFS_writer ex_env (NewLocalFS (str "/dst") ex_opts)) ErrEOF never (ex_bytes files) ex_old in
    r = Ok tt /\ i_mtime <$> fs' !! [str "dst"; str "f"] = Some (now ex_env)
  | _ => False
  end.
Proof. vm_compute. by split. Qed.
